(* ===== verification/_CoqProject ===== *)
-Q . S2P
Prelude.v
RustText.v
Wiegand.v
PinEntry.v
Rfc6238.v
Sha1.v
Totp.v
Lock.v
LockTests.v
Capture.v
Clock.v
Firmware.v
Simulation.v
Guessing.v
Base32.v
AppError.v
Effects.v
Base64.v
Config.v
Crypto.v
TotpGen.v
SecretStore.v
Introspection.v
Dedup.v
Middleware.v
RateLimit.v
Routes.v
Provenance.v
Pool.v
History.v
Protocol.v
Flights.v
Serving.v
Startup.v
Concurrent.v
SingleFlight.v
Tables.v
Vault.v
Quota.v
Secrecy.v
Isolation.v
EndToEnd.v
Outage.v
ServerTests.v
IntegrationTests.v
