(* ===== verification/Prelude.v ===== *)
(** * urheilulaatikko: a verification library

    The repository is a lockable box in two programs that never talk to each
    other: a lock (lock-client/, Rust without an operating system on an
    ESP32-C6), which reads a Wiegand keypad and drives a drop bolt, and a
    server (totp-server/, axum), which hands the lock's current TOTP code to
    people Keycloak vouches for.  They share a secret and the time.  This
    library models both from their source and proves what each part promises
    and that the parts together do what the system is for.

    ** The lock

    - Wiegand.v: core/src/wiegand.rs.  Bit sequences to frames.
    - PinEntry.v: core/src/pin_entry.rs.  The six-digit buffer, refined to the
      list of digits typed since the last reset.
    - Rfc6238.v, Sha1.v: the reference both ends are measured against
      ([expected_pin] of totp-server/tests/e2e_integration.rs), over an HMAC
      that is an interface ([Hmac]); Sha1.v is an implementation of it, used
      only to evaluate examples, with the RFC's vectors checked.
    - Totp.v: core/src/totp.rs.  [matches], its skew loop and its 32-bit
      arithmetic; [totp_embed] is the interface [TotpEmbed].
    - Lock.v: core/src/lock.rs.  [LockController] against the type classes
      [Clock] and [Actuator], the source's traits.
    - Capture.v: firmware/src/wiegand_capture.rs.  The interrupt handler and
      the poll; the pins and [heapless::Vec] are interfaces with laws.
    - Clock.v: firmware/build.rs and clock.rs.  Whether the build checks for
      overflow is a parameter ([BuildProfile]).
    - Firmware.v: firmware/src/main.rs and actuator.rs.  [boot], the body of
      the loop as [iteration], and any interleaving of iterations with
      interrupts as [run].  The bolt is an instance of [Actuator] and keeps
      its laws.  The secret compiled into a lock is a parameter
      ([LockSecret]; the repository's own is [placeholder_secret]).
    - Simulation.v: firmware/sim/.  The script that plays a code at the pins,
      the harness's expectations evaluated, and proved for every code and
      every schedule of the loop that polls at least every 15 ms.
    - Guessing.v: how many codes are accepted at a time, and how fast a keypad
      can try them.

    ** The server

    - AppError.v: src/error.rs.
    - Effects.v: what handlers do to the world, as programs [Prog] over typed
      effects.  [wp] ranges over every answer the outside may give, so what it
      shows holds under any interleaving of requests; [exec] runs a program
      alone against a [World] (the tables, the log, the limiter) and an
      [Oracle] (failures, clocks, randomness, Keycloak).  A database error
      comes before its statement took effect or after, the answer being lost
      ([DbError]); the limiter reads a clock of its own, in nanoseconds.
    - Base64.v, Config.v: src/config.rs.
    - Crypto.v: src/crypto.rs, over the interface [Aead].
    - TotpGen.v: src/totp/mod.rs, over the interface [TotpRs]; Base32.v is used
      by its stand-in for examples.
    - SecretStore.v: src/totp/secret_store.rs and migrations/0001_init.sql.
    - Introspection.v: src/auth/introspection.rs, one request at a time.
    - Dedup.v: the same file's in-flight map under concurrency and
      cancellation, a step relation tied to the [introspect] program stage by
      stage.
    - Middleware.v: src/auth/middleware.rs, src/state.rs, and the shape of
      requests and responses.
    - RateLimit.v: src/rate_limit.rs, over the interfaces [Governor] and
      [GovernorBuilder].
    - Routes.v: src/routes/*.rs.  Handlers and the order of the layers.
    - Serving.v: theorems about the whole stack on every branch, one request
      at a time.
    - Startup.v: src/db.rs and main.rs, a sequence of steps that may each fail.

    ** The server under load

    - Pool.v: any number of [protected] programs interleaved at their effects
      and cancelled at their awaits, over one database, limiter, log and
      in-flight map with its channels; the process may end at any moment and
      be started again with the same configuration, which keeps the database
      only.  A run is any sequence of choices ([pool_run]); a state it can
      come to is [reachable].
    - Provenance.v: the law of the protected routes.  Each effect and each 200
      answer is traced to the answers it was computed from ([lawful],
      [earned]), under any answers.
    - Protocol.v: disciplines every program follows, whatever it is answered:
      that of the in-flight map ([flight]) and a number of effects ([budget]).
    - History.v: what the history of a run shows; the law of Provenance.v for
      every event of every run, and the tables as a replay of the statements.
    - Flights.v: the invariant of the in-flight map in the running server;
      messages come from the leader of the same key, and somebody can always
      go on.
    - Concurrent.v: the theorems about the server under load.
    - SingleFlight.v: the running server implements the sharing of
      introspections that Dedup.v describes: a forward simulation
      ([simulates]), with a protocol for the phases of a request.
    - Tables.v: the invariant of the two tables.
    - Vault.v: the encrypted table as an atomic map of secrets in the clear,
      an abstract specification the running server implements.
    - Quota.v: the limiter's promise, and how many PINs a subject can be given.
    - Secrecy.v: two installations with different secrets, in lockstep: what
      either writes down is the same.
    - Isolation.v: noninterference between users; worlds that differ in hidden
      rows only ([alike], an equivalence the operations respect), and runs that
      go the same way from both.
    - EndToEnd.v: the server, from [main] on, and the firmware side by side.
    - Outage.v: a lock that loses power, and what a PIN is worth after that.

    ** The repository's tests

    LockTests.v, ServerTests.v and IntegrationTests.v translate the unit tests
    of both programs, tests/introspection.rs and tests/e2e_integration.rs into
    executable definitions over the model and evaluate them: what the Rust
    tests expect of the code, the definitions here do.

    RustText.v has what the code uses of Rust's strings and integer parsing
    (bytes, trimming by the White_Space table, splitting, decimal text).

    ** What the theorems show

    - Of the system: once an administrator has provisioned a user at a server
      that [main] started, a PIN that user is issued opens every lock built
      with the secret whose text the administrator was shown
      ([EndToEnd.provisioned_pin_opens_the_lock]); the bolt is released only
      by a code of the accepted window typed on the keypad
      ([Firmware.released_only_by_current_code]); played with the script's
      timing, a code is decided before the entry ends and the box is open for
      five seconds ([Simulation.played_code_decides]); at most three codes are
      accepted at a time and each guess takes at least 175 milliseconds
      (Guessing.v); after a power loss the lock is locked, and its clock, and
      with it the PINs it takes, are those of its build time again (Outage.v).
    - Of the server under any interleaving, failures, departures and restarts: a secret
      is touched only for a bearer Keycloak vouched for, his own or as an
      administrator's; a PIN is the code of the secret its user was last
      provisioned with; no subject is given more PINs than the budget; no PIN
      leaves unaudited and the audit log claims no more than happened; the log,
      the audit rows and the errors do not depend on any secret; no request hangs, and each does a bounded amount of
      work; Keycloak is asked about a token once at a time; no nonce is used
      twice; a user's secret influences nobody's answers but his own
      (Concurrent.v, Quota.v, Secrecy.v, SingleFlight.v, Vault.v, Isolation.v).
    - Of the in-flight map by itself: at most one leader per token, no hanging
      request, outcomes that are answers for the same token (Dedup.v).
    - Of starting up: the server serves exactly when configuration, database,
      migrations, client, limiter and listener are all there, and otherwise
      reports the first that is not (Startup.v).
    - Refinements: the secrets table under load to a sequential vault, the PIN
      buffer and the controller to lists of typed digits, the capture
      to the last 34 pulses, [matches] to the accepted window, [introspect] to
      its stages.
    - Totality and bounds: decoding and the interrupt handler never panic, and
      neither does the main loop while its clock calls come in order and stay
      in range ([Firmware.firmware_never_panics]); the accumulator and the digit counts never overflow; the
      limiter's arithmetic, and where it wraps.
    - Round trips: key codes and cards, the build epoch, the encryption key,
      stored secrets.
    - Errors and audit: opaque answers, 503 without an answer from Keycloak,
      the audit row of every status.

    ** Conventions

    A fallible function returns [result] (or [AppResult]); [option] is a panic
    in the lock's code and an absent value where the source has one.  A
    [w]-bit integer is a [Z] with its wrap-around written out ([as_u32] and
    the like); instants of the lock's monotonic timer are microsecond counts, whose
    subtraction and addition panic out of range ([Capture.instant_since],
    [Capture.instant_plus]).  Everything outside the repository (crates, PostgreSQL,
    Keycloak, the hardware) is a type class whose laws are its documented
    behaviour; each law class has an instance, so no theorem is about
    nothing.

    ** Bounds and fuel

    [RustText.trim_front] has fuel the length of its input, and every removed
    prefix is shorter than that; [to_string] has twenty digits, enough for a
    [u64]; [Sha1.chunks] has fuel the length of the padded message.  All
    other recursion is structural; that requests end is a theorem
    ([Dedup.requests_finish]).  A request performs at most 20 effects, asks
    Keycloak at most once and writes at most one secret
    ([Concurrent.requests_are_bounded]), so without new arrivals and restarts a
    server with [n] requests is at rest after at most [21 * n] steps, a departure being a
    step ([Concurrent.server_never_wedges]).

    ** What is not modelled

    A restart with another configuration (another key makes stored rows
    undecryptable), when the HTTP client's timeout strikes (a timeout is a transport error, at
    any moment), axum's routing of other methods and paths, the exact text of
    library-made responses, what [TraceLayer] writes about requests, the error
    chain printed when [main] ends with an error, lib.rs (declarations only), preemption between two
    effects of one request (between them the code touches nothing shared), the
    chip emulator, the shell scripts and container setup, and the box itself.
    Cryptographic strength is not a claim of this library: laws of [Aead] and
    [Hmac] are functional.  [exec] runs one request alone; Pool.v runs many,
    each statement of a request being atomic, as PostgreSQL makes it. *)

From stdpp Require Export prelude gmap strings list.
From Stdlib Require Export ZArith Lia ZifyNat.

(** [naive_solver] clears hypotheses it has already cleared. *)
#[export] Set Warnings "-clear-no-such-hyp".

(** ** Results and panics

    A fallible Rust function returns [result T E]; a function that may panic
    (an out-of-range index, a failed [expect]) returns [option], where [None]
    is the panic. *)

Inductive result (T E : Type) : Type :=
| Ok (value : T)
| Err (error : E).
Arguments Ok {T E} value.
Arguments Err {T E} error.

#[export] Instance result_eq_dec `{EqDecision T, EqDecision E} :
  EqDecision (result T E).
Proof. solve_decision. Defined.

Definition result_bind {T U E} (r : result T E) (f : T -> result U E) :
    result U E :=
  match r with
  | Ok v => f v
  | Err e => Err e
  end.

Definition ok_or {T E} (o : option T) (e : E) : result T E :=
  match o with
  | Some v => Ok v
  | None => Err e
  end.

Definition is_ok {T E} (r : result T E) : bool :=
  match r with
  | Ok _ => true
  | Err _ => false
  end.

Declare Scope rust_scope.
Delimit Scope rust_scope with rust.

(** [let? x := m in k] is Rust's [let x = m?; k]. *)
Notation "'let?' x ':=' m 'in' k" := (result_bind m (fun x => k))
  (at level 10, x pattern, m at level 100, k at level 200) : rust_scope.

Lemma result_bind_ok {T U E} (r : result T E) (f : T -> result U E) u :
  result_bind r f = Ok u <-> exists v, r = Ok v /\ f v = Ok u.
Proof. destruct r; simpl; naive_solver. Qed.

Lemma result_bind_err {T U E} (r : result T E) (f : T -> result U E) e :
  result_bind r f = Err e <-> r = Err e \/ exists v, r = Ok v /\ f v = Err e.
Proof. destruct r; simpl; naive_solver. Qed.

Lemma ok_or_ok {T E} (o : option T) (e : E) v : ok_or o e = Ok v <-> o = Some v.
Proof. destruct o; simpl; naive_solver. Qed.

(** ** Machine integers

    A [w]-bit unsigned value is a [Z] in [0, 2^w); a cast [x as uW] keeps the
    low [w] bits. *)

Definition is_uint (w : Z) (x : Z) : Prop := (0 <= x < 2 ^ w)%Z.

#[export] Instance is_uint_dec w x : Decision (is_uint w x).
Proof. unfold is_uint. apply _. Defined.

Definition as_u8 (x : Z) : Z := (x mod 2 ^ 8)%Z.
Definition as_u16 (x : Z) : Z := (x mod 2 ^ 16)%Z.
Definition as_u32 (x : Z) : Z := (x mod 2 ^ 32)%Z.
Definition as_u64 (x : Z) : Z := (x mod 2 ^ 64)%Z.

Definition u64_max : Z := (2 ^ 64 - 1)%Z.

(** [u64::saturating_add_signed]. *)
Definition saturating_add_signed (x d : Z) : Z :=
  Z.max 0 (Z.min u64_max (x + d)).

(** Linear arithmetic with division and remainder by constants, on [nat] and
    [Z]. *)
Ltac div_lia := zify; Z.to_euclidean_division_equations; lia.

Create HintDb machine_int discriminated.
Create Rewrite HintDb machine_int.

Lemma as_u8_small x : is_uint 8 x -> as_u8 x = x.
Proof. apply Z.mod_small. Qed.
Lemma as_u16_small x : is_uint 16 x -> as_u16 x = x.
Proof. apply Z.mod_small. Qed.
Lemma as_u32_small x : is_uint 32 x -> as_u32 x = x.
Proof. apply Z.mod_small. Qed.
Lemma as_u64_small x : is_uint 64 x -> as_u64 x = x.
Proof. apply Z.mod_small. Qed.
Lemma as_u8_uint x : is_uint 8 (as_u8 x).
Proof. by apply Z.mod_pos_bound. Qed.
Lemma as_u32_uint x : is_uint 32 (as_u32 x).
Proof. apply Z.mod_pos_bound. lia. Qed.
Lemma as_u64_uint x : is_uint 64 (as_u64 x).
Proof. apply Z.mod_pos_bound. lia. Qed.
Lemma saturating_add_signed_uint x d : is_uint 64 (saturating_add_signed x d).
Proof. unfold is_uint, saturating_add_signed, u64_max. lia. Qed.

#[export] Hint Resolve as_u8_uint as_u32_uint as_u64_uint saturating_add_signed_uint
  : machine_int.
#[export] Hint Rewrite as_u8_small as_u16_small as_u32_small as_u64_small
  using (unfold is_uint; lia) : machine_int.

(** ** Arrays and slices, with the panics of Rust's indexing *)

(** [a[i] = x]. *)
Definition array_set {A} (a : list A) (i : nat) (x : A) : option (list A) :=
  if decide (i < length a) then Some (<[i := x]> a) else None.

(** [&a[lo..hi]]. *)
Definition slice {A} (lo hi : nat) (a : list A) : option (list A) :=
  if decide (lo <= hi /\ hi <= length a) then Some (take (hi - lo) (drop lo a))
  else None.

Lemma array_set_in_range {A} (a : list A) i x :
  i < length a -> array_set a i x = Some (<[i := x]> a).
Proof. intros H. unfold array_set. by rewrite decide_True. Qed.

Lemma slice_in_range {A} lo hi (a : list A) :
  lo <= hi -> hi <= length a -> slice lo hi a = Some (take (hi - lo) (drop lo a)).
Proof. intros. unfold slice. by rewrite decide_True. Qed.

(** The last [n] elements of a list. *)
Definition lastn {A} (n : nat) (l : list A) : list A := drop (length l - n) l.

Lemma lastn_short {A} n (l : list A) : length l <= n -> lastn n l = l.
Proof. intros H. unfold lastn. by replace (length l - n) with 0 by lia. Qed.

Lemma length_lastn {A} n (l : list A) : length (lastn n l) = Nat.min n (length l).
Proof. unfold lastn. rewrite length_drop. lia. Qed.

Lemma lastn_app {A} n (l k : list A) :
  lastn n (l ++ k) = lastn n (lastn n l ++ k).
Proof.
  unfold lastn. rewrite !length_app, length_drop.
  destruct (decide (length l <= n)) as [Hle|Hgt].
  - replace (length l - n) with 0 by lia. rewrite drop_0. f_equal; lia.
  - rewrite !drop_app, drop_drop, length_drop. f_equal; f_equal; lia.
Qed.

Lemma lastn_snoc {A} n (l : list A) x :
  lastn (S n) (l ++ [x]) = lastn n l ++ [x].
Proof.
  unfold lastn. rewrite length_app. simpl.
  replace (length l + 1 - S n) with (length l - n) by lia.
  rewrite drop_app_le by lia. done.
Qed.

(** ** Decimal notation, most significant digit first *)

Definition is_digit (d : Z) : Prop := (0 <= d <= 9)%Z.

#[export] Instance is_digit_dec d : Decision (is_digit d).
Proof. unfold is_digit. apply _. Defined.

Definition decimal_value (ds : list Z) : Z :=
  fold_left (fun acc d => 10 * acc + d)%Z ds 0%Z.

(** The [n] low decimal digits of [v]. *)
Fixpoint decimal_digits (n : nat) (v : Z) : list Z :=
  match n with
  | O => []
  | S n => decimal_digits n (v / 10)%Z ++ [(v mod 10)%Z]
  end.

Lemma decimal_value_snoc ds d :
  decimal_value (ds ++ [d]) = (10 * decimal_value ds + d)%Z.
Proof. unfold decimal_value. by rewrite fold_left_app. Qed.

Lemma decimal_value_bounds ds :
  Forall is_digit ds ->
  (0 <= decimal_value ds < 10 ^ Z.of_nat (length ds))%Z.
Proof.
  induction ds as [|d ds IH] using rev_ind; intros Hds; [done|].
  rewrite Forall_app, Forall_singleton in Hds. destruct Hds as [Hds Hd].
  specialize (IH Hds). unfold is_digit in Hd.
  rewrite decimal_value_snoc, length_app, Nat2Z.inj_add, Z.pow_add_r by lia.
  change (10 ^ Z.of_nat (length [d]))%Z with 10%Z. lia.
Qed.

Lemma length_decimal_digits n v : length (decimal_digits n v) = n.
Proof.
  revert v. induction n as [|n IH]; intros v; simpl; [done|].
  rewrite length_app, IH. simpl. lia.
Qed.

Lemma decimal_digits_digits n v : Forall is_digit (decimal_digits n v).
Proof.
  revert v. induction n as [|n IH]; intros v; simpl; [constructor|].
  apply Forall_app; split; [apply IH|]. apply Forall_singleton.
  unfold is_digit. div_lia.
Qed.

Lemma decimal_value_digits n v :
  decimal_value (decimal_digits n v) = (v mod 10 ^ Z.of_nat n)%Z.
Proof.
  revert v. induction n as [|n IH]; intros v; [by rewrite Z.mod_1_r|].
  cbn [decimal_digits]. rewrite decimal_value_snoc, IH.
  rewrite Nat2Z.inj_succ, Z.pow_succ_r by lia.
  rewrite Z.rem_mul_r by lia. lia.
Qed.

Lemma decimal_digits_value ds :
  Forall is_digit ds -> decimal_digits (length ds) (decimal_value ds) = ds.
Proof.
  induction ds as [|d ds IH] using rev_ind; intros Hds; [done|].
  rewrite Forall_app, Forall_singleton in Hds. destruct Hds as [Hds Hd].
  unfold is_digit in Hd. rewrite decimal_value_snoc, length_app, Nat.add_1_r.
  cbn [decimal_digits].
  replace ((10 * decimal_value ds + d) / 10)%Z with (decimal_value ds) by div_lia.
  replace ((10 * decimal_value ds + d) mod 10)%Z with d by div_lia.
  by rewrite IH.
Qed.

Lemma decimal_value_inj ds ds' :
  Forall is_digit ds -> Forall is_digit ds' -> length ds = length ds' ->
  decimal_value ds = decimal_value ds' -> ds = ds'.
Proof.
  intros Hds Hds' Hlen Hval.
  rewrite <-(decimal_digits_value ds), Hlen, Hval by done.
  by apply decimal_digits_value.
Qed.

(** ** What a partial function picks out of a list, without repetition *)

Lemma NoDup_omap_inj {A B} (f : A -> option B) (l : list A) x y v :
  NoDup (omap f l) -> x ∈ l -> y ∈ l -> f x = Some v -> f y = Some v -> x = y.
Proof.
  induction l as [|z l IH]; [by intros _ ?%elem_of_nil|]. cbn [omap list_omap].
  assert (Hin : forall u, u ∈ l -> f u = Some v -> v ∈ omap f l).
  { intros u Hu Hv. apply list_elem_of_omap. eauto. }
  rewrite !elem_of_cons. intros Hnodup [-> |Hx] [-> |Hy] Hfx Hfy; [done|..].
  - rewrite Hfx in Hnodup. apply NoDup_cons in Hnodup as [Hn _]. destruct Hn. by eapply Hin.
  - rewrite Hfy in Hnodup. apply NoDup_cons in Hnodup as [Hn _]. destruct Hn. by eapply Hin.
  - apply IH; try done. destruct (f z); [by apply NoDup_cons in Hnodup as []|done].
Qed.

Lemma NoDup_omap_intro {A B} (f : A -> option B) (l : list A) :
  (forall l1 x l2 y l3 v, l = l1 ++ x :: l2 ++ y :: l3 -> f x = Some v -> f y <> Some v) ->
  NoDup (omap f l).
Proof.
  induction l as [|z l IH]; intros Hno; [constructor|]. cbn [omap list_omap].
  assert (Hl : NoDup (omap f l)).
  { apply IH. intros l1 x l2 y l3 v ->. by apply (Hno (z :: l1) x l2 y l3). }
  destruct (f z) as [v|] eqn:Hz; [|done]. apply NoDup_cons. split; [|done].
  intros (y & Hy & Hv)%list_elem_of_omap. apply list_elem_of_split in Hy as (l2 & l3 & ->).
  by apply (Hno [] z l2 y l3 v).
Qed.
