(* ===== verification/RustText.v ===== *)
(** * Rust's [str] and integer parsing, as the program uses them

    A Rust string is the Rocq [string] of its UTF-8 bytes.  The functions are
    those of [core::str] and [core::num] that the repository calls: [trim]
    (Unicode [White_Space]), [trim_end_matches(char)], [split_once(char)],
    [strip_prefix], [eq_ignore_ascii_case], unsigned [parse] and decimal
    [to_string]. *)

From S2P Require Import Prelude.
Local Open Scope Z_scope.

(** ** Bytes of a string *)

Definition byte_of_ascii (c : Ascii.ascii) : Z := Z.of_nat (Ascii.nat_of_ascii c).
Definition ascii_of_byte (b : Z) : Ascii.ascii := Ascii.ascii_of_nat (Z.to_nat b).

Definition bytes_of_string (s : string) : list Z :=
  byte_of_ascii <$> String.list_ascii_of_string s.
Definition string_of_bytes (l : list Z) : string :=
  String.string_of_list_ascii (ascii_of_byte <$> l).

(** ** Trimming *)

(** The UTF-8 encodings of the 25 code points with property [White_Space],
    which is what [char::is_whitespace] tests. *)
Definition white_space : list (list Z) :=
  [ [0x09]; [0x0A]; [0x0B]; [0x0C]; [0x0D]; [0x20];
    [0xC2; 0x85]; [0xC2; 0xA0]; [0xE1; 0x9A; 0x80];
    [0xE2; 0x80; 0x80]; [0xE2; 0x80; 0x81]; [0xE2; 0x80; 0x82];
    [0xE2; 0x80; 0x83]; [0xE2; 0x80; 0x84]; [0xE2; 0x80; 0x85];
    [0xE2; 0x80; 0x86]; [0xE2; 0x80; 0x87]; [0xE2; 0x80; 0x88];
    [0xE2; 0x80; 0x89]; [0xE2; 0x80; 0x8A]; [0xE2; 0x80; 0xA8];
    [0xE2; 0x80; 0xA9]; [0xE2; 0x80; 0xAF]; [0xE2; 0x81; 0x9F];
    [0xE3; 0x80; 0x80] ].

(** Removes one prefix out of a table. *)
Fixpoint strip_any (table : list (list Z)) (l : list Z) : option (list Z) :=
  match table with
  | [] => None
  | p :: table =>
      if decide (take (length p) l = p) then Some (drop (length p) l)
      else strip_any table l
  end.

Fixpoint trim_front (fuel : nat) (table : list (list Z)) (l : list Z) : list Z :=
  match fuel with
  | O => l
  | S fuel =>
      match strip_any table l with
      | Some l => trim_front fuel table l
      | None => l
      end
  end.

Definition trim_start_bytes (table : list (list Z)) (l : list Z) : list Z :=
  trim_front (length l) table l.
Definition trim_end_bytes (table : list (list Z)) (l : list Z) : list Z :=
  rev (trim_start_bytes (@rev Z <$> table) (rev l)).

(** [str::trim]. *)
Definition trim (s : string) : string :=
  string_of_bytes
    (trim_end_bytes white_space (trim_start_bytes white_space (bytes_of_string s))).

(** [str::trim_end_matches(c)] for an ASCII character. *)
Definition trim_end_matches (c : Ascii.ascii) (s : string) : string :=
  string_of_bytes (trim_end_bytes [[byte_of_ascii c]] (bytes_of_string s)).

(** ** Splitting and comparing *)

(** [str::split_once(c)] for an ASCII character. *)
Fixpoint split_once (c : Ascii.ascii) (s : string) : option (string * string) :=
  match s with
  | EmptyString => None
  | String a s =>
      if decide (a = c) then Some (EmptyString, s)
      else '(before, after) ← split_once c s; Some (String a before, after)
  end.

(** [str::strip_prefix]. *)
Fixpoint strip_prefix (p s : string) : option string :=
  match p, s with
  | EmptyString, _ => Some s
  | String a p, String b s => if decide (a = b) then strip_prefix p s else None
  | String _ _, EmptyString => None
  end.

(** [Option<String>::unwrap_or]. *)
Definition unwrap_or (o : option string) (default : string) : string :=
  match o with Some v => v | None => default end.

Definition to_ascii_lowercase (b : Z) : Z :=
  if decide (65 <= b <= 90) then b + 32 else b.

(** [str::eq_ignore_ascii_case]. *)
Definition eq_ignore_ascii_case (s t : string) : bool :=
  bool_decide (to_ascii_lowercase <$> bytes_of_string s =
               to_ascii_lowercase <$> bytes_of_string t).

(** ** Unsigned integers *)

Inductive IntErrorKind :=
| Empty
| InvalidDigit
| PosOverflow.

#[export] Instance IntErrorKind_eq_dec : EqDecision IntErrorKind.
Proof. solve_decision. Defined.

(** One character of [from_str_radix(_, 10)]: the digit is checked before the
    multiplication's overflow. *)
Fixpoint parse_digits (w : Z) (acc : Z) (l : list Z) : result Z IntErrorKind :=
  match l with
  | [] => Ok acc
  | b :: l =>
      if decide (48 <= b <= 57) then
        if decide (2 ^ w <= acc * 10) then Err PosOverflow
        else if decide (2 ^ w <= acc * 10 + (b - 48)) then Err PosOverflow
        else parse_digits w (acc * 10 + (b - 48)) l
      else Err InvalidDigit
  end.

(** [str::parse::<uW>()]. *)
Definition parse_uint (w : Z) (s : string) : result Z IntErrorKind :=
  match bytes_of_string s with
  | [] => Err Empty
  | [43] | [45] => Err InvalidDigit
  | 43 :: l => parse_digits w 0 l
  | l => parse_digits w 0 l
  end.

Definition digits_to_string (ds : list Z) : string :=
  string_of_bytes ((fun d => 48 + d) <$> ds).

Fixpoint drop_leading_zeros (ds : list Z) : list Z :=
  match ds with
  | [] | [_] => ds
  | d :: ds' => if decide (d = 0) then drop_leading_zeros ds' else ds
  end.

(** [to_string] of an unsigned integer of at most 64 bits (20 digits). *)
Definition to_string (n : Z) : string :=
  digits_to_string (drop_leading_zeros (decimal_digits 20 n)).

(** [format!("{:06}", n)]-style zero padding, for a value that fits. *)
Definition zero_padded (width : nat) (n : Z) : string :=
  digits_to_string (decimal_digits width n).

(** ** Lemmas: bytes *)

Lemma string_of_bytes_of_string s : string_of_bytes (bytes_of_string s) = s.
Proof.
  unfold string_of_bytes, bytes_of_string. rewrite <-list_fmap_compose.
  rewrite (list_fmap_ext _ id), list_fmap_id.
  - apply String.string_of_list_ascii_of_string.
  - intros _ c _. unfold compose, ascii_of_byte, byte_of_ascii.
    by rewrite Nat2Z.id, Ascii.ascii_nat_embedding.
Qed.

Lemma bytes_of_string_of_bytes l :
  Forall (is_uint 8) l -> bytes_of_string (string_of_bytes l) = l.
Proof.
  intros Hl. unfold string_of_bytes, bytes_of_string.
  rewrite String.list_ascii_of_string_of_list_ascii, <-list_fmap_compose.
  rewrite <-(list_fmap_id l) at 2. apply list_fmap_ext.
  intros i b Hb. rewrite Forall_lookup in Hl. specialize (Hl i b Hb).
  unfold compose, ascii_of_byte, byte_of_ascii, is_uint in *.
  rewrite Ascii.nat_ascii_embedding; [simpl; lia|].
  change 256%nat with (Z.to_nat 256). lia.
Qed.

Lemma bytes_of_string_bytes s : Forall (is_uint 8) (bytes_of_string s).
Proof.
  unfold bytes_of_string. apply Forall_fmap, Forall_true. intros c.
  unfold compose, byte_of_ascii, is_uint. pose proof (Ascii.nat_ascii_bounded c). lia.
Qed.

Lemma bytes_of_string_inj s t : bytes_of_string s = bytes_of_string t -> s = t.
Proof.
  intros H. by rewrite <-(string_of_bytes_of_string s), H, string_of_bytes_of_string.
Qed.

#[export] Hint Resolve bytes_of_string_bytes : machine_int.
#[export] Hint Rewrite string_of_bytes_of_string : machine_int.

(** ** Lemmas: trimming

    [l] is free of a table when none of its prefixes is in it. *)

Definition table_ok (table : list (list Z)) : Prop := Forall (fun p => p <> []) table.

Lemma strip_any_Some table l l' :
  strip_any table l = Some l' -> exists p, p ∈ table /\ l = p ++ l'.
Proof.
  induction table as [|p table IH]; simpl; [done|]. case_decide as Hp.
  - intros [= <-]. exists p. split; [by left|].
    by rewrite <-Hp at 1; rewrite take_drop.
  - intros H. destruct (IH H) as (q & Hq & ->). exists q. split; [by right|done].
Qed.

Lemma strip_any_None table l :
  strip_any table l = None <-> forall p l', p ∈ table -> l <> p ++ l'.
Proof.
  induction table as [|p table IH]; simpl.
  { split; [|done]. intros _ p l' Hp. by apply not_elem_of_nil in Hp. }
  case_decide as Hp; split.
  - done.
  - intros H. exfalso. apply (H p (drop (length p) l)); [by left|].
    by rewrite <-Hp at 1; rewrite take_drop.
  - rewrite IH. intros H q l' Hq. apply elem_of_cons in Hq as [->|Hq]; [|by apply H].
    intros ->. by rewrite take_app_length in Hp.
  - intros H. apply IH. intros q l' Hq. apply H. by right.
Qed.

(** The fuel is enough: what is left starts with no entry of the table, and
    what was removed is a sequence of entries. *)
Lemma trim_front_spec table fuel l :
  table_ok table -> (length l <= fuel)%nat ->
  strip_any table (trim_front fuel table l) = None /\
  exists ps, Forall (fun p => p ∈ table) ps /\ l = concat ps ++ trim_front fuel table l.
Proof.
  intros Hok. revert l. induction fuel as [|fuel IH]; intros l Hl; simpl.
  { destruct l; [|simpl in Hl; lia]. split; [|by exists []].
    apply strip_any_None. intros p l' Hp Heq.
    unfold table_ok in Hok. rewrite Forall_forall in Hok.
    apply (Hok p Hp). by destruct p. }
  destruct (strip_any table l) as [l'|] eqn:Hs.
  - apply strip_any_Some in Hs as (p & Hp & ->).
    assert (p <> []) as Hne by (by apply (proj1 (Forall_forall _ _) Hok)).
    rewrite length_app in Hl. destruct p as [|b p]; [done|]. simpl in Hl.
    destruct (IH l' ltac:(lia)) as (Hnone & ps & Hps & Heq). split; [done|].
    exists ((b :: p) :: ps). split; [by constructor|].
    cbn [concat]. rewrite <-app_assoc. by rewrite <-Heq.
  - split; [done|]. by exists [].
Qed.

Lemma trim_start_spec table l :
  table_ok table ->
  (exists ps, Forall (fun p => p ∈ table) ps /\
              l = concat ps ++ trim_start_bytes table l) /\
  (forall p l', p ∈ table -> trim_start_bytes table l <> p ++ l').
Proof.
  intros Hok. destruct (trim_front_spec table (length l) l Hok ltac:(done))
    as [Hnone Hps]. split; [done|]. by apply strip_any_None.
Qed.

Lemma rev_concat_rev (table : list (list Z)) ps :
  Forall (fun p => p ∈ @rev Z <$> table) ps ->
  exists qs, Forall (fun p => p ∈ table) qs /\ rev (concat ps) = concat qs.
Proof.
  induction 1 as [|p ps Hp _ (qs & Hqs & Heq)]; [by exists []|].
  apply list_elem_of_fmap in Hp as (q & -> & Hq). exists (qs ++ [q]). split.
  - apply Forall_app; split; [done|by constructor].
  - simpl. rewrite rev_app_distr, rev_involutive, concat_app, Heq. simpl.
    by rewrite app_nil_r.
Qed.

Lemma trim_end_spec table l :
  table_ok table ->
  (exists ps, Forall (fun p => p ∈ table) ps /\
              l = trim_end_bytes table l ++ concat ps) /\
  (forall p l', p ∈ table -> trim_end_bytes table l <> l' ++ p).
Proof.
  intros Hok. unfold trim_end_bytes.
  assert (Hok' : table_ok (@rev Z <$> table)).
  { unfold table_ok in *. apply Forall_fmap. eapply Forall_impl; [exact Hok|].
    intros p Hp Hr. apply Hp. rewrite <-(rev_involutive p). simpl in Hr. by rewrite Hr. }
  destruct (trim_start_spec _ (rev l) Hok') as [(ps & Hps & Hl) Hfree].
  destruct (rev_concat_rev table ps Hps) as (qs & Hqs & Heq).
  split.
  - exists qs. split; [done|]. rewrite <-Heq, <-rev_app_distr, <-Hl.
    by rewrite rev_involutive.
  - intros p l' Hp Hrev. apply (Hfree (rev p) (rev l')).
    + by apply list_elem_of_fmap_2.
    + by rewrite <-rev_app_distr, <-Hrev, rev_involutive.
Qed.

(** Trimming at one end does not change a list that is free at that end. *)
Lemma trim_start_free table l :
  (forall p l', p ∈ table -> l <> p ++ l') -> trim_start_bytes table l = l.
Proof.
  intros Hfree. apply strip_any_None in Hfree. unfold trim_start_bytes.
  destruct (length l); simpl; [done|]. by rewrite Hfree.
Qed.

Lemma trim_end_free table l :
  (forall p l', p ∈ table -> l <> l' ++ p) -> trim_end_bytes table l = l.
Proof.
  intros Hfree. unfold trim_end_bytes. rewrite trim_start_free, rev_involutive; [done|].
  intros q l' Hq Hl. apply list_elem_of_fmap in Hq as (p & -> & Hp).
  apply (Hfree p (rev l') Hp).
  by rewrite <-(rev_involutive l), Hl, rev_app_distr, rev_involutive.
Qed.

Lemma white_space_ok : table_ok white_space.
Proof. unfold table_ok. by repeat constructor. Qed.

Lemma bytes_trim s :
  bytes_of_string (trim s) =
  trim_end_bytes white_space (trim_start_bytes white_space (bytes_of_string s)).
Proof.
  unfold trim. apply bytes_of_string_of_bytes.
  pose proof (bytes_of_string_bytes s) as Hb.
  destruct (trim_start_spec white_space (bytes_of_string s) white_space_ok)
    as [(ps & _ & Hs) _]. rewrite Hs in Hb.
  apply Forall_app in Hb as [_ Hb].
  destruct (trim_end_spec white_space
              (trim_start_bytes white_space (bytes_of_string s)) white_space_ok)
    as [(qs & _ & Ht) _]. rewrite Ht in Hb.
  by apply Forall_app in Hb as [Hb _].
Qed.

Lemma trim_decompose s :
  exists front back,
    Forall (fun p => p ∈ white_space) front /\ Forall (fun p => p ∈ white_space) back /\
    bytes_of_string s = concat front ++ bytes_of_string (trim s) ++ concat back.
Proof.
  rewrite bytes_trim.
  destruct (trim_start_spec white_space (bytes_of_string s) white_space_ok)
    as [(front & Hf & Hs) _].
  destruct (trim_end_spec white_space
              (trim_start_bytes white_space (bytes_of_string s)) white_space_ok)
    as [(back & Hb & Ht) _].
  exists front, back. split_and!; [done..|]. by rewrite <-Ht.
Qed.

Lemma trim_free s p l :
  p ∈ white_space ->
  bytes_of_string (trim s) <> p ++ l /\ bytes_of_string (trim s) <> l ++ p.
Proof.
  intros Hp. rewrite bytes_trim.
  destruct (trim_start_spec white_space (bytes_of_string s) white_space_ok)
    as [_ Hstart].
  destruct (trim_end_spec white_space
              (trim_start_bytes white_space (bytes_of_string s)) white_space_ok)
    as [(back & _ & Ht) Hend].
  split; [|by apply Hend].
  intros Hl. apply (Hstart p (l ++ concat back) Hp).
  rewrite Ht, Hl. by rewrite app_assoc.
Qed.

Lemma trim_idempotent s : trim (trim s) = trim s.
Proof.
  unfold trim at 1. rewrite trim_start_free, trim_end_free.
  - apply string_of_bytes_of_string.
  - intros p l' Hp. by apply (trim_free s p l').
  - intros p l' Hp. by apply (trim_free s p l').
Qed.

Lemma trim_end_matches_free c s l :
  bytes_of_string (trim_end_matches c s) <> l ++ [byte_of_ascii c].
Proof.
  assert (Hok : table_ok [[byte_of_ascii c]]) by (by repeat constructor).
  unfold trim_end_matches.
  destruct (trim_end_spec _ (bytes_of_string s) Hok) as [(ps & _ & Hs) Hend].
  rewrite bytes_of_string_of_bytes.
  - apply Hend. by left.
  - pose proof (bytes_of_string_bytes s) as Hb. rewrite Hs in Hb.
    by apply Forall_app in Hb as [Hb _].
Qed.

(** ** Lemmas: integers *)

Definition decimal_from (acc : Z) (ds : list Z) : Z :=
  fold_left (fun acc d => 10 * acc + d) ds acc.

Lemma decimal_from_ge acc ds :
  0 <= acc -> Forall is_digit ds -> acc <= decimal_from acc ds.
Proof.
  intros Ha Hds. revert acc Ha. induction Hds as [|d ds Hd _ IH]; intros acc Ha; [done|].
  unfold decimal_from. simpl. unfold is_digit in Hd.
  transitivity (10 * acc + d); [lia|]. apply IH. lia.
Qed.

Lemma parse_digits_ok w acc l n :
  0 <= acc < 2 ^ w ->
  parse_digits w acc l = Ok n <->
  exists ds, l = (fun d => 48 + d) <$> ds /\ Forall is_digit ds /\
             n = decimal_from acc ds /\ n < 2 ^ w.
Proof.
  revert acc. induction l as [|b l IH]; intros acc Ha; simpl.
  { split.
    - intros [= <-]. exists []. split_and!; [done..|lia].
    - intros (ds & Hl & _ & -> & _). by destruct ds. }
  assert (Hstep : forall ds, b :: l = (fun d => 48 + d) <$> ds -> Forall is_digit ds ->
    n = decimal_from acc ds -> n < 2 ^ w ->
    48 <= b <= 57 /\ acc * 10 + (b - 48) < 2 ^ w /\
    exists ds', ds = (b - 48) :: ds' ).
  { intros ds Hl Hds Hn Hlt. destruct ds as [|d ds]; [done|].
    apply Forall_cons in Hds as [Hd Hds]. unfold is_digit in Hd.
    simpl in Hl. injection Hl as -> ->. replace (48 + d - 48) with d by lia.
    assert (10 * acc + d <= n) by (rewrite Hn; apply (decimal_from_ge (10 * acc + d)); [lia|done]).
    split_and!; [lia..|by exists ds]. }
  case_decide as Hb; [case_decide as Hm; [|case_decide as Hc]|].
  - split; [done|]. intros (ds & Hl & Hds & Hn & Hlt).
    destruct (Hstep ds Hl Hds Hn Hlt) as (_ & ? & _). lia.
  - split; [done|]. intros (ds & Hl & Hds & Hn & Hlt).
    destruct (Hstep ds Hl Hds Hn Hlt) as (_ & ? & _). lia.
  - rewrite IH by lia. split.
    + intros (ds & -> & Hds & -> & Hlt). exists ((b - 48) :: ds). split_and!.
      * simpl. f_equal. lia.
      * constructor; [unfold is_digit; lia|done].
      * unfold decimal_from. simpl. f_equal. lia.
      * done.
    + intros (ds & Hl & Hds & Hn & Hlt).
      destruct (Hstep ds Hl Hds Hn Hlt) as (_ & _ & ds' & ->).
      simpl in Hl. injection Hl as Hl. exists ds'.
      apply Forall_cons in Hds as [_ Hds]. split_and!; [done..| |done].
      rewrite Hn. unfold decimal_from. simpl. f_equal. lia.
  - split; [done|]. intros (ds & Hl & Hds & Hn & Hlt).
    by destruct (Hstep ds Hl Hds Hn Hlt) as (? & _ & _).
Qed.

Lemma parse_uint_bounds w s n : 0 <= w -> parse_uint w s = Ok n -> is_uint w n.
Proof.
  intros Hw Hp.
  assert (Hd : exists l, parse_digits w 0 l = Ok n).
  { unfold parse_uint in Hp. repeat case_match; simplify_eq; by eexists. }
  destruct Hd as (l & Hd). apply parse_digits_ok in Hd.
  - destruct Hd as (ds & _ & Hds & -> & Hlt). split; [|done].
    by apply (decimal_from_ge 0).
  - split; [done|]. apply Z.pow_pos_nonneg; lia.
Qed.

Lemma decimal_value_drop_zeros ds :
  decimal_value (drop_leading_zeros ds) = decimal_value ds.
Proof.
  induction ds as [|d ds IH]; [done|]. destruct ds as [|d' ds]; [done|].
  change (drop_leading_zeros (d :: d' :: ds)) with
    (if decide (d = 0) then drop_leading_zeros (d' :: ds) else d :: d' :: ds).
  case_decide as Hd; [|done]. rewrite IH, Hd. done.
Qed.

Lemma drop_leading_zeros_digits ds :
  Forall is_digit ds -> Forall is_digit (drop_leading_zeros ds).
Proof.
  induction ds as [|d ds IH]; intros Hds; [done|]. destruct ds as [|d' ds]; [done|].
  simpl. case_decide; [|done]. apply IH. by apply Forall_cons in Hds as [_ Hds].
Qed.

Lemma drop_leading_zeros_nonempty ds : ds <> [] -> drop_leading_zeros ds <> [].
Proof.
  induction ds as [|d ds IH]; [done|]. intros _. destruct ds as [|d' ds]; [done|].
  simpl. case_decide; [|done]. by apply IH.
Qed.

Lemma bytes_of_digits ds :
  Forall is_digit ds ->
  bytes_of_string (digits_to_string ds) = (fun d => 48 + d) <$> ds.
Proof.
  intros Hds. apply bytes_of_string_of_bytes. apply Forall_fmap.
  eapply Forall_impl; [exact Hds|]. intros d. unfold compose, is_digit, is_uint. lia.
Qed.

Lemma parse_uint_head w s b l :
  bytes_of_string s = b :: l -> b <> 43 -> b <> 45 ->
  parse_uint w s = parse_digits w 0 (b :: l).
Proof.
  intros Hs H43 H45. unfold parse_uint. rewrite Hs.
  by repeat case_match; simplify_eq.
Qed.

Lemma to_string_digits n :
  0 <= n < 10 ^ 20 ->
  exists d ds, to_string n = digits_to_string (d :: ds) /\
               Forall is_digit (d :: ds) /\ decimal_value (d :: ds) = n.
Proof.
  intros Hn.
  pose proof (drop_leading_zeros_digits _ (decimal_digits_digits 20 n)) as Hds.
  pose proof (decimal_value_drop_zeros (decimal_digits 20 n)) as Hval.
  rewrite decimal_value_digits, Z.mod_small in Hval by done.
  assert (Hne : drop_leading_zeros (decimal_digits 20 n) <> []).
  { apply drop_leading_zeros_nonempty. intros Hnil.
    pose proof (length_decimal_digits 20 n) as Hl. by rewrite Hnil in Hl. }
  unfold to_string. destruct (drop_leading_zeros (decimal_digits 20 n)) as [|d ds]; [done|].
  by exists d, ds.
Qed.

(** Parsing what was printed gives the number back, at any width up to 64. *)
Lemma parse_to_string w n :
  0 <= w <= 64 -> is_uint w n -> parse_uint w (to_string n) = Ok n.
Proof.
  intros Hw Hn.
  assert (Hlt : 0 <= n < 10 ^ 20).
  { destruct Hn as [H0 Hn]. assert (2 ^ w <= 2 ^ 64) by (apply Z.pow_le_mono_r; lia).
    change (10 ^ 20) with 100000000000000000000.
    change (2 ^ 64) with 18446744073709551616 in *. lia. }
  destruct (to_string_digits n Hlt) as (d & ds & Hs & Hds & Hval).
  assert (is_digit d) as Hd by (by apply Forall_cons in Hds as [Hd _]).
  unfold is_digit in Hd.
  rewrite (parse_uint_head w _ (48 + d) ((fun d => 48 + d) <$> ds)); [|..|lia|lia].
  - apply parse_digits_ok; [destruct Hn; lia|].
    exists (d :: ds). split_and!; [done..|]. by destruct Hn.
  - by rewrite Hs, bytes_of_digits.
Qed.

(** ** Lemmas: concatenation and prefixes *)

Lemma bytes_of_string_app s t :
  bytes_of_string (s +:+ t) = (bytes_of_string s ++ bytes_of_string t)%list.
Proof.
  unfold bytes_of_string. rewrite <-fmap_app. f_equal.
  induction s as [|c s IH]; [done|]. simpl. by f_equal.
Qed.

Lemma strip_prefix_Some p s t : strip_prefix p s = Some t -> s = p +:+ t.
Proof.
  revert s. induction p as [|a p IH]; intros s.
  { destruct s; cbn; by intros [= <-]. }
  destruct s as [|b s]; [done|]. cbn [strip_prefix].
  case_decide as Hab; [|done]. subst. intros ?%IH. by subst.
Qed.

Lemma strip_prefix_app p s : strip_prefix p (p +:+ s) = Some s.
Proof.
  induction p as [|c p IH]; [by destruct s|].
  change (String c p +:+ s) with (String c (p +:+ s)). cbn [strip_prefix].
  by rewrite decide_True.
Qed.
