(* ===== verification/Wiegand.v ===== *)
(** * core/src/wiegand.rs: decoding of a captured Wiegand bit frame

    A frame is a list of booleans, oldest bit first.  [decode_frame] is
    partial in the model because [decode_card] slices its argument; that it
    never panics is a theorem.  The encoders [nibble] and [bits_msb_first]
    are the ones of the file's own test module. *)

From S2P Require Import Prelude.
Local Open Scope Z_scope.

(** ** Data *)

Inductive Frame :=
| Digit (d : Z)
| Cancel
| Enter
| Card (facility_code card_number : Z)
| Unrecognized (bit_count : nat).

#[export] Instance Frame_eq_dec : EqDecision Frame.
Proof. solve_decision. Defined.

(** ** Operations *)

(** [(acc << 1) | (bit as u32)]: the shift drops the bit that leaves the word. *)
Definition bits_to_u32 (bits : list bool) : Z :=
  fold_left (fun acc bit => Z.lor (as_u32 (Z.shiftl acc 1)) (Z.b2z bit)) bits 0.

Definition decode_nibble (bits : list bool) : Frame :=
  let value := bits_to_u32 bits in
  if decide (0 <= value <= 9) then Digit (as_u8 value)
  else if decide (value = 10) then Cancel
  else if decide (value = 11) then Enter
  else Unrecognized 4.

Definition decode_card (bits : list bool) : option Frame :=
  facility ← slice 1 9 bits;
  number ← slice 9 25 bits;
  Some (Card (as_u8 (bits_to_u32 facility)) (as_u16 (bits_to_u32 number))).

Definition decode_frame (bits : list bool) : option Frame :=
  match length bits with
  | 4%nat => Some (decode_nibble bits)
  | 26%nat => decode_card bits
  | n => Some (Unrecognized n)
  end.

(** The test module's encoders. *)

Definition nibble (value : Z) : list bool :=
  [ negb (Z.land value 8 =? 0); negb (Z.land value 4 =? 0);
    negb (Z.land value 2 =? 0); negb (Z.land value 1 =? 0) ].

Definition bits_msb_first (value : Z) (width : nat) : list bool :=
  (fun i => Z.land (Z.shiftr value (Z.of_nat i)) 1 =? 1) <$> rev (seq 0 width).

(** ** Specification: the number a bit string denotes, most significant bit
    first, and the frames the rest of the program may rely on. *)

Definition bits_value (bits : list bool) : Z :=
  fold_left (fun acc bit => 2 * acc + Z.b2z bit) bits 0.

Definition frame_wf (n : nat) (f : Frame) : Prop :=
  match f with
  | Digit d => n = 4%nat /\ 0 <= d <= 9
  | Cancel | Enter => n = 4%nat
  | Card facility_code card_number =>
      n = 26%nat /\ is_uint 8 facility_code /\ is_uint 16 card_number
  | Unrecognized bit_count => bit_count = n /\ n <> 26%nat
  end.

(** ** Lemmas *)

Lemma bits_value_snoc bits b :
  bits_value (bits ++ [b]) = 2 * bits_value bits + Z.b2z b.
Proof. unfold bits_value. by rewrite fold_left_app. Qed.

Lemma bits_value_bounds bits :
  0 <= bits_value bits < 2 ^ Z.of_nat (length bits).
Proof.
  induction bits as [|b bits IH] using rev_ind; [done|].
  rewrite bits_value_snoc, length_app, Nat2Z.inj_add, Z.pow_add_r by lia.
  destruct b; simpl Z.b2z; simpl length; change (2 ^ Z.of_nat 1) with 2; lia.
Qed.

Lemma bits_to_u32_snoc bits b :
  bits_to_u32 (bits ++ [b]) =
  Z.lor (as_u32 (Z.shiftl (bits_to_u32 bits) 1)) (Z.b2z b).
Proof. unfold bits_to_u32. by rewrite fold_left_app. Qed.

Lemma lor_even_bit x b :
  0 <= x -> Z.lor (2 * x) (Z.b2z b) = 2 * x + Z.b2z b.
Proof.
  intros Hx. destruct b; simpl Z.b2z; [|by rewrite Z.lor_0_r, Z.add_0_r].
  by destruct x.
Qed.

(** Shifting bit by bit in a 32-bit word computes the number modulo 2^32. *)
Lemma bits_to_u32_value bits : bits_to_u32 bits = as_u32 (bits_value bits).
Proof.
  induction bits as [|b bits IH] using rev_ind; [done|].
  rewrite bits_to_u32_snoc, bits_value_snoc, IH.
  rewrite Z.shiftl_mul_pow2 by lia. unfold as_u32. change (2 ^ 1) with 2.
  set (v := bits_value bits).
  replace ((v mod 2 ^ 32 * 2) mod 2 ^ 32) with (2 * (v mod 2 ^ 31)).
  - rewrite lor_even_bit by (div_lia).
    destruct b; simpl Z.b2z; div_lia.
  - div_lia.
Qed.

Lemma bits_to_u32_exact bits :
  (length bits <= 32)%nat -> bits_to_u32 bits = bits_value bits.
Proof.
  intros Hlen. rewrite bits_to_u32_value. apply as_u32_small.
  pose proof (bits_value_bounds bits).
  assert (2 ^ Z.of_nat (length bits) <= 2 ^ 32) by (apply Z.pow_le_mono_r; lia).
  unfold is_uint. lia.
Qed.

Lemma land_1_bit value : Z.b2z (Z.land value 1 =? 1) = value mod 2.
Proof.
  change 1 with (Z.ones 1) at 1. rewrite Z.land_ones by lia. change (2 ^ 1) with 2.
  destruct (Z.eqb_spec (value mod 2) 1); simpl Z.b2z;
    div_lia.
Qed.

Lemma bits_msb_first_S value width :
  bits_msb_first value (S width) =
  bits_msb_first (Z.shiftr value 1) width ++ [Z.land value 1 =? 1].
Proof.
  unfold bits_msb_first. cbn [seq]. rewrite <-fmap_S_seq. simpl rev.
  rewrite fmap_app, <-(map_rev S). simpl. rewrite Z.shiftr_0_r. f_equal.
  rewrite <-list_fmap_compose. apply list_fmap_ext. intros i x _. simpl.
  rewrite Z.shiftr_shiftr by lia. do 3 f_equal. lia.
Qed.

Lemma length_bits_msb_first value width :
  length (bits_msb_first value width) = width.
Proof. unfold bits_msb_first. by rewrite length_fmap, length_rev, length_seq. Qed.

Lemma bits_value_msb_first value width :
  bits_value (bits_msb_first value width) = value mod 2 ^ Z.of_nat width.
Proof.
  revert value. induction width as [|width IH]; intros value.
  { by rewrite Z.mod_1_r. }
  rewrite bits_msb_first_S, bits_value_snoc, IH, land_1_bit.
  rewrite Nat2Z.inj_succ, Z.pow_succ_r by lia.
  rewrite Z.rem_mul_r by lia. rewrite Z.shiftr_div_pow2 by lia.
  change (2 ^ 1) with 2. lia.
Qed.

Lemma bits_msb_first_value bits :
  bits_msb_first (bits_value bits) (length bits) = bits.
Proof.
  induction bits as [|b bits IH] using rev_ind; [done|].
  rewrite length_app, Nat.add_comm, bits_value_snoc.
  change (1 + length bits)%nat with (S (length bits)). rewrite bits_msb_first_S.
  rewrite Z.shiftr_div_pow2 by lia. change (2 ^ 1) with 2.
  replace ((2 * bits_value bits + Z.b2z b) / 2) with (bits_value bits)
    by (destruct b; simpl Z.b2z; div_lia).
  rewrite IH. f_equal. f_equal.
  apply Z.b2z_inj. rewrite land_1_bit.
  destruct b; simpl Z.b2z; div_lia.
Qed.

(** A bit string is determined by its length and its value. *)
Lemma bits_value_inj bits bits' :
  length bits = length bits' -> bits_value bits = bits_value bits' ->
  bits = bits'.
Proof.
  intros Hlen Hval. rewrite <-(bits_msb_first_value bits), Hlen, Hval.
  apply bits_msb_first_value.
Qed.

Lemma nibble_msb_first value :
  0 <= value < 16 -> nibble value = bits_msb_first value 4.
Proof.
  intros Hv.
  assert (Hall : Forall (fun v => nibble v = bits_msb_first v 4) (seqZ 0 16))
    by (repeat constructor).
  rewrite Forall_forall in Hall. apply Hall, elem_of_seqZ. lia.
Qed.

Lemma bits_value_nibble value : 0 <= value < 16 -> bits_value (nibble value) = value.
Proof.
  intros Hv. rewrite nibble_msb_first, bits_value_msb_first by done.
  apply Z.mod_small. done.
Qed.

Lemma decode_nibble_value bits :
  length bits = 4%nat ->
  decode_nibble bits =
    (if decide (bits_value bits <= 9) then Digit (bits_value bits)
     else if decide (bits_value bits = 10) then Cancel
     else if decide (bits_value bits = 11) then Enter
     else Unrecognized 4).
Proof.
  intros Hlen. pose proof (bits_value_bounds bits) as Hb. rewrite Hlen in Hb.
  change (2 ^ Z.of_nat 4) with 16 in Hb.
  unfold decode_nibble. rewrite bits_to_u32_exact by lia.
  repeat case_decide; try lia; try done.
  f_equal. apply as_u8_small. unfold is_uint. lia.
Qed.

(** The three ranges of a frame's length. *)
Lemma decode_frame_cases bits :
  (length bits = 4%nat /\ decode_frame bits = Some (decode_nibble bits)) \/
  (length bits = 26%nat /\ decode_frame bits = decode_card bits) \/
  (length bits <> 4%nat /\ length bits <> 26%nat /\
   decode_frame bits = Some (Unrecognized (length bits))).
Proof.
  unfold decode_frame.
  destruct (decide (length bits = 4%nat)) as [->|H4]; [by left|].
  destruct (decide (length bits = 26%nat)) as [->|H26]; [by right; left|].
  right; right. split_and!; [done..|].
  generalize dependent (length bits). intros n H4 H26.
  do 27 (destruct n as [|n]; [done|]). done.
Qed.

Lemma decode_card_value bits :
  length bits = 26%nat ->
  decode_card bits =
    Some (Card (bits_value (take 8 (drop 1 bits)))
               (bits_value (take 16 (drop 9 bits)))).
Proof.
  intros Hlen. unfold decode_card.
  rewrite !slice_in_range by lia. simpl.
  rewrite !bits_to_u32_exact by (rewrite length_take; lia).
  pose proof (bits_value_bounds (take 8 (drop 1 bits))) as H8.
  pose proof (bits_value_bounds (take 16 (drop 9 bits))) as H16.
  rewrite length_take, length_drop, Hlen in H8, H16. simpl in H8, H16.
  rewrite as_u8_small, as_u16_small by done. done.
Qed.

(** A 26-bit frame is a parity bit, two fields and a parity bit. *)
Lemma card_layout bits :
  length bits = 26%nat ->
  exists p (facility number : list bool) q,
    bits = p :: facility ++ number ++ [q] /\
    length facility = 8%nat /\ length number = 16%nat.
Proof.
  intros Hlen.
  do 26 (destruct bits as [|? bits]; [done|]). destruct bits; [|done].
  by eexists _, [_; _; _; _; _; _; _; _],
    [_; _; _; _; _; _; _; _; _; _; _; _; _; _; _; _], _.
Qed.

Lemma decode_frame_card_fields p (facility number : list bool) q :
  length facility = 8%nat -> length number = 16%nat ->
  decode_frame (p :: facility ++ number ++ [q]) =
    Some (Card (bits_value facility) (bits_value number)).
Proof.
  intros Hf Hn.
  assert (Hlen : length (p :: facility ++ number ++ [q]) = 26%nat).
  { simpl. rewrite !length_app. simpl. lia. }
  unfold decode_frame. rewrite Hlen, decode_card_value by done.
  change (drop 9 (p :: facility ++ number ++ [q])) with
    (drop 8 (facility ++ number ++ [q])).
  change (drop 1 (p :: facility ++ number ++ [q])) with (facility ++ number ++ [q]).
  by rewrite take_app_length', drop_app_length', take_app_length' by done.
Qed.

Lemma frame_wf_decode_nibble bits :
  length bits = 4%nat -> frame_wf 4 (decode_nibble bits).
Proof.
  intros Hlen. rewrite decode_nibble_value by done.
  pose proof (bits_value_bounds bits).
  repeat case_decide; simpl; first [done | split; [done | lia]].
Qed.

Lemma decode_frame_wf bits :
  exists f, decode_frame bits = Some f /\ frame_wf (length bits) f.
Proof.
  destruct (decode_frame_cases bits) as [(Hl & ->)|[(Hl & ->)|(H4 & H26 & ->)]].
  - eexists; split; [done|]. rewrite Hl. by apply frame_wf_decode_nibble.
  - rewrite decode_card_value by done. eexists; split; [done|]. simpl.
    pose proof (bits_value_bounds (take 8 (drop 1 bits))) as H8.
    pose proof (bits_value_bounds (take 16 (drop 9 bits))) as H16.
    rewrite length_take, length_drop, Hl in H8, H16. done.
  - by exists (Unrecognized (length bits)).
Qed.

(** ** Properties *)

(** Decoding is total: no captured bit sequence makes [decode_frame]
    panic, and the frame it yields is well formed for the sequence's length: a
    digit is 0 to 9 and comes from four bits, a card's fields fit their types
    and come from 26 bits, and the reported bit count is the length. *)
Theorem decode_frame_total bits :
  exists f, decode_frame bits = Some f /\ frame_wf (length bits) f.
Proof. apply decode_frame_wf. Qed.

(** The frame a 4-bit burst value stands for: the keypad's code table. *)
Definition key_of_nibble (f : Frame) : option Z :=
  match f with
  | Digit d => if decide (0 <= d <= 9) then Some d else None
  | Cancel => Some 10
  | Enter => Some 11
  | Card _ _ | Unrecognized _ => None
  end.

(** C34. A frame is read as a key press exactly when it is that key's own 4-bit
    code: no noise, card read or impossible nibble is ever taken for a digit,
    for cancel or for enter, and every key's code is recognised. *)
Theorem decode_frame_key_iff bits f v :
  key_of_nibble f = Some v ->
  decode_frame bits = Some f <-> bits = nibble v.
Proof.
  intros Hk.
  assert (Hv : 0 <= v < 16).
  { destruct f; simpl in Hk; repeat case_decide; simplify_eq; lia. }
  split.
  - intros Hd. destruct (decode_frame_wf bits) as (f' & Hd' & Hwf).
    rewrite Hd in Hd'. simplify_eq.
    assert (Hlen : length bits = 4%nat) by (destruct f'; naive_solver).
    unfold decode_frame in Hd. rewrite Hlen, decode_nibble_value in Hd by done.
    rewrite nibble_msb_first by done.
    replace v with (bits_value bits).
    + rewrite <-Hlen. symmetry. apply bits_msb_first_value.
    + repeat case_decide; simplify_eq/=; repeat case_decide; simplify_eq; done.
  - intros ->.
    change (decode_frame (nibble v)) with (Some (decode_nibble (nibble v))).
    rewrite decode_nibble_value, bits_value_nibble by done.
    destruct f; simpl in Hk; repeat case_decide; simplify_eq; done || lia.
Qed.

Lemma decode_frame_key_iff_witness :
  key_of_nibble (Digit 7) = Some 7 /\
  (decode_frame [false; true; true; true] = Some (Digit 7) <->
   [false; true; true; true] = nibble 7).
Proof.
  split; [reflexivity|].
  apply (decode_frame_key_iff [false; true; true; true] (Digit 7) 7). reflexivity.
Defined.

(** C35. Card reads round trip: the facility code and card number packed into
    bits 1 to 24 come back, whatever the two parity bits are, and conversely
    every 26-bit frame decodes to the card whose packing it is. *)
Theorem decode_frame_card_iff bits facility_code card_number :
  is_uint 8 facility_code -> is_uint 16 card_number ->
  decode_frame bits = Some (Card facility_code card_number) <->
  exists even_parity odd_parity,
    bits = even_parity :: bits_msb_first facility_code 8 ++
           bits_msb_first card_number 16 ++ [odd_parity].
Proof.
  intros Hf Hc. split.
  - intros Hd. destruct (decode_frame_wf bits) as (f & Hd' & Hwf).
    rewrite Hd in Hd'. simplify_eq. destruct Hwf as (Hlen & _ & _).
    destruct (card_layout bits Hlen) as (p & fac & num & q & -> & Hl8 & Hl16).
    rewrite decode_frame_card_fields in Hd by done. simplify_eq.
    exists p, q.
    pose proof (bits_msb_first_value fac) as Ef. rewrite Hl8 in Ef.
    pose proof (bits_msb_first_value num) as En. rewrite Hl16 in En.
    by rewrite Ef, En.
  - intros (p & q & ->).
    rewrite decode_frame_card_fields by apply length_bits_msb_first.
    by rewrite !bits_value_msb_first, !Z.mod_small.
Qed.

Lemma decode_frame_card_iff_witness :
  decode_frame (true :: bits_msb_first 12 8 ++ bits_msb_first 3000 16 ++ [false])
    = Some (Card 12 3000).
Proof.
  apply (decode_frame_card_iff _ 12 3000); [by vm_compute..|].
  by exists true, false.
Defined.

(** The shift-and-or loop computes the number the bits denote, modulo
    2^32 when there are more bits than the word holds, and exactly for the
    frames this program decodes (a nibble, 8 and 16 bits); printing the value
    back most significant bit first gives the bits again. *)
Theorem bits_to_u32_correct bits :
  bits_to_u32 bits = bits_value bits mod 2 ^ 32 /\
  ((length bits <= 32)%nat ->
   bits_msb_first (bits_to_u32 bits) (length bits) = bits).
Proof.
  split; [apply bits_to_u32_value|]. intros Hlen.
  rewrite bits_to_u32_exact by done. apply bits_msb_first_value.
Qed.

Lemma bits_to_u32_correct_witness :
  bits_msb_first (bits_to_u32 (nibble 11)) 4 = nibble 11.
Proof. apply (bits_to_u32_correct (nibble 11)). simpl. lia. Defined.
