(* ===== verification/PinEntry.v ===== *)
(** * core/src/pin_entry.rs: the keypad's PIN buffer

    The buffer is the source's fixed array with a length; writing past its end
    is a panic ([None]).  The abstract specification is a plain list of the
    digits typed since the last reset, and the refinement says the array and
    length implement it. *)

From S2P Require Import Prelude.

(** ** Data *)

Definition PIN_LEN : nat := 6.

Inductive Key :=
| Digit (d : Z)
| Cancel
| Enter.

Inductive Submission :=
| Pending
| Ready (code : list Z).

#[export] Instance Key_eq_dec : EqDecision Key.
Proof. solve_decision. Defined.
#[export] Instance Submission_eq_dec : EqDecision Submission.
Proof. solve_decision. Defined.

Record PinEntry := mkPinEntry { buffer : list Z; len : nat }.

(** ** Operations *)

Definition new : PinEntry := {| buffer := replicate PIN_LEN 0%Z; len := 0 |}.

Definition reset (self : PinEntry) : PinEntry :=
  {| buffer := replicate PIN_LEN 0%Z; len := 0 |}.

Definition push (self : PinEntry) (key : Key) : option (Submission * PinEntry) :=
  match key with
  | Cancel => Some (Pending, reset self)
  | Digit d =>
      if decide (len self < PIN_LEN) then
        buffer' ← array_set (buffer self) (len self) d;
        Some (Pending, {| buffer := buffer'; len := len self + 1 |})
      else
        buffer' ← array_set (buffer self) 0 d;
        Some (Pending, {| buffer := buffer'; len := 1 |})
  | Enter =>
      let result :=
        if decide (len self = PIN_LEN) then Ready (buffer self) else Pending in
      Some (result, reset self)
  end.

(** A session: the submissions of a sequence of key presses, in order. *)
Fixpoint push_all (self : PinEntry) (keys : list Key) :
    option (list Submission * PinEntry) :=
  match keys with
  | [] => Some ([], self)
  | key :: keys =>
      '(sub, self) ← push self key;
      '(subs, self) ← push_all self keys;
      Some (sub :: subs, self)
  end.

(** ** Specification: the digits typed since the last reset *)

Definition spec_push (typed : list Z) (key : Key) : Submission * list Z :=
  match key with
  | Cancel => (Pending, [])
  | Digit d =>
      (Pending, if decide (length typed < PIN_LEN) then typed ++ [d] else [d])
  | Enter =>
      (if decide (length typed = PIN_LEN) then Ready typed else Pending, [])
  end.

Fixpoint spec_push_all (typed : list Z) (keys : list Key) :
    list Submission * list Z :=
  match keys with
  | [] => ([], typed)
  | key :: keys =>
      let (sub, typed) := spec_push typed key in
      let (subs, typed) := spec_push_all typed keys in
      (sub :: subs, typed)
  end.

(** The abstraction function and the representation invariant. *)
Definition typed (self : PinEntry) : list Z := take (len self) (buffer self).

Definition wf (self : PinEntry) : Prop :=
  length (buffer self) = PIN_LEN /\ len self <= PIN_LEN.

(** ** Lemmas *)

Lemma wf_new : wf new.
Proof. unfold wf, PIN_LEN. simpl. lia. Qed.

Lemma wf_reset self : wf (reset self).
Proof. apply wf_new. Qed.

Lemma length_typed self : wf self -> length (typed self) = len self.
Proof. intros [Hb Hl]. unfold typed. rewrite length_take. lia. Qed.

#[local] Hint Resolve wf_new wf_reset : core.

(** One key press implements the specification's step and never panics. *)
Lemma push_refines self key :
  wf self ->
  exists sub self',
    push self key = Some (sub, self') /\ wf self' /\
    spec_push (typed self) key = (sub, typed self').
Proof.
  intros Hwf. pose proof (length_typed self Hwf) as Ht.
  pose proof Hwf as [Hb Hl]. destruct key as [d| |]; simpl.
  - rewrite Ht. unfold PIN_LEN in *. case_decide as Hlt.
    + rewrite array_set_in_range by lia. simpl.
      eexists _, _. split_and!; [done| |].
      * split; simpl; [rewrite length_insert|]; unfold PIN_LEN; lia.
      * unfold typed. simpl. rewrite Nat.add_1_r.
        erewrite take_S_r by (apply list_lookup_insert_eq; lia).
        by rewrite take_insert_ge by done.
    + rewrite array_set_in_range by lia. simpl.
      eexists _, _. split_and!; [done| |].
      * split; simpl; [rewrite length_insert|]; unfold PIN_LEN; lia.
      * unfold typed. simpl. by destruct (buffer self).
  - eexists _, _. by split_and!.
  - rewrite Ht. eexists _, _. split_and!; [done|done|].
    unfold typed at 1. case_decide as Hlen; [|done].
    by rewrite take_ge by lia.
Qed.

Lemma push_all_refines self keys :
  wf self ->
  exists subs self',
    push_all self keys = Some (subs, self') /\ wf self' /\
    spec_push_all (typed self) keys = (subs, typed self').
Proof.
  revert self. induction keys as [|key keys IH]; intros self Hwf; simpl.
  { eexists _, _. by split_and!. }
  destruct (push_refines self key Hwf) as (sub & self1 & -> & Hwf1 & ->). simpl.
  destruct (IH self1 Hwf1) as (subs & self2 & -> & Hwf2 & ->). simpl.
  eexists _, _. by split_and!.
Qed.

Lemma spec_push_all_app t keys keys' :
  spec_push_all t (keys ++ keys') =
  let (subs, t1) := spec_push_all t keys in
  let (subs', t2) := spec_push_all t1 keys' in
  (subs ++ subs', t2).
Proof.
  revert t. induction keys as [|key keys IH]; intros t; simpl.
  { by destruct (spec_push_all t keys'). }
  destruct (spec_push t key) as [sub t1]. rewrite IH.
  destruct (spec_push_all t1 keys) as [subs t2].
  by destruct (spec_push_all t2 keys') as [subs' t3].
Qed.

(** The digits a run of [ds] leaves in the buffer: a seventh digit starts a
    fresh attempt, so it is the last 1 to 6 of them. *)
Definition attempt (ds : list Z) : list Z :=
  lastn (match length ds with 0 => 0 | S n => S (n mod PIN_LEN) end) ds.

Lemma length_attempt ds :
  length (attempt ds) =
  match length ds with 0 => 0 | S n => S (n mod PIN_LEN) end.
Proof.
  unfold attempt. rewrite length_lastn. destruct (length ds) as [|n]; [done|].
  pose proof (Nat.Div0.mod_le n PIN_LEN). lia.
Qed.

Lemma attempt_snoc ds d :
  attempt (ds ++ [d]) =
  if decide (length (attempt ds) < PIN_LEN) then attempt ds ++ [d] else [d].
Proof.
  rewrite length_attempt. unfold attempt. rewrite length_app.
  change (length [d]) with 1. rewrite Nat.add_1_r, lastn_snoc.
  destruct (length ds) as [|n]; [done|]. unfold PIN_LEN.
  pose proof (Nat.mod_upper_bound n 6 ltac:(done)).
  case_decide as Hlt.
  - by replace (S n mod 6) with (S (n mod 6)) by div_lia.
  - replace (S n mod 6) with 0 by div_lia. unfold lastn. by rewrite drop_ge by lia.
Qed.

(** Enter finds six digits buffered exactly after a positive multiple of six. *)
Lemma attempt_submission ds :
  (if decide (length (attempt ds) = PIN_LEN) then Ready (attempt ds) else Pending) =
  (if decide (ds <> [] /\ length ds mod PIN_LEN = 0) then Ready (lastn PIN_LEN ds)
   else Pending).
Proof.
  rewrite length_attempt. unfold attempt.
  destruct (length ds) as [|n] eqn:Hlen.
  { apply nil_length_inv in Hlen as ->. done. }
  assert (ds <> []) by (by intros ->).
  unfold PIN_LEN.
  assert (S (n mod 6) = 6 <-> S n mod 6 = 0) by (split; div_lia).
  repeat case_decide; [|tauto..|done].
  by replace (S (n mod 6)) with 6.
Qed.

Lemma spec_push_digits ds :
  spec_push_all [] (Digit <$> ds) = (replicate (length ds) Pending, attempt ds).
Proof.
  induction ds as [|d ds IH] using rev_ind; [done|].
  rewrite fmap_app, spec_push_all_app, IH, attempt_snoc, length_app. simpl.
  by rewrite replicate_add.
Qed.

(** A buffered digit was typed after the last reset: the history ends with the
    buffered digits. *)
Lemma spec_push_all_suffix keys :
  exists h, keys = h ++ (Digit <$> (spec_push_all [] keys).2).
Proof.
  induction keys as [|key keys (h & Hh)] using rev_ind; [by exists []|].
  rewrite spec_push_all_app.
  destruct (spec_push_all [] keys) as [subs t] eqn:E. simpl in Hh.
  destruct key as [d| |]; simpl; [|eexists; by rewrite app_nil_r..].
  case_decide; [exists h|exists keys]; [|done].
  by rewrite fmap_app, Hh at 1; rewrite <-app_assoc.
Qed.

Lemma length_spec_push_all t keys :
  length (spec_push_all t keys).1 = length keys.
Proof.
  revert t. induction keys as [|key keys IH]; intros t; [done|]. simpl.
  destruct (spec_push t key) as [sub t1]. specialize (IH t1).
  destruct (spec_push_all t1 keys) as [subs t2]. simpl in *. by rewrite IH.
Qed.

Lemma spec_ready_was_typed keys i code :
  (spec_push_all [] keys).1 !! i = Some (Ready code) ->
  keys !! i = Some Enter /\ length code = PIN_LEN /\
  exists before, take i keys = before ++ (Digit <$> code).
Proof.
  induction keys as [|key keys IH] using rev_ind; [done|].
  rewrite spec_push_all_app. pose proof (length_spec_push_all [] keys) as Hlen.
  destruct (spec_push_all_suffix keys) as (h & Hh).
  destruct (spec_push_all [] keys) as [subs t]. simpl in *.
  destruct (spec_push t key) as [sub t'] eqn:Hp. simpl. intros Hi.
  destruct (decide (i < length keys)) as [Hlt|Hge].
  - rewrite lookup_app_l in Hi by lia. rewrite lookup_app_l by done.
    rewrite take_app_le by lia. by apply IH.
  - apply lookup_app_Some in Hi as [Hi|[_ Hi]];
      [apply lookup_lt_Some in Hi; lia|].
    apply list_lookup_singleton_Some in Hi as [Hi ->].
    assert (i = length keys) as -> by lia.
    rewrite take_app_length, list_lookup_middle by done.
    destruct key; simpl in Hp; repeat case_decide; simplify_eq.
    split_and!; eauto.
Qed.

(** ** Properties *)

(** The PIN buffer implements the plain list of digits typed since the
    last reset: for every sequence of key presses the array code never
    panics, and it submits exactly what the list specification submits. *)
Theorem push_all_implements_spec keys :
  exists subs self',
    push_all new keys = Some (subs, self') /\ wf self' /\
    spec_push_all [] keys = (subs, typed self').
Proof. apply (push_all_refines new). apply wf_new. Qed.

(** After a cancel or an enter, whatever was buffered before, a run of
    digits and an enter submits exactly when the number of digits is a
    positive multiple of six, and what it submits is the last six digits;
    the buffer ends up empty either way. *)
Theorem push_run_after_reset self key ds :
  wf self -> key = Cancel \/ key = Enter ->
  exists sub self',
    push_all self (key :: (Digit <$> ds) ++ [Enter]) =
      Some (sub :: replicate (length ds) Pending ++
              [if decide (ds <> [] /\ length ds mod PIN_LEN = 0)
               then Ready (lastn PIN_LEN ds) else Pending], self') /\
    typed self' = [].
Proof.
  intros Hwf Hkey.
  destruct (push_all_refines self (key :: (Digit <$> ds) ++ [Enter]) Hwf)
    as (subs & self' & Hrun & _ & Hspec).
  assert (Hreset : (spec_push (typed self) key).2 = [])
    by (by destruct Hkey as [-> | ->]).
  cbn [spec_push_all] in Hspec.
  destruct (spec_push (typed self) key) as [sub t]. simpl in Hreset. subst t.
  rewrite spec_push_all_app, spec_push_digits in Hspec. simpl in Hspec.
  injection Hspec as Hsubs Htyped. rewrite Hrun.
  exists sub, self'. split; [|done]. subst subs.
  by rewrite attempt_submission.
Qed.

Lemma push_run_after_reset_witness :
  exists sub self',
    push_all new (Cancel :: (Digit <$> [9; 9; 9; 9; 9; 9; 1; 2; 3; 4; 5; 6]%Z) ++ [Enter]) =
      Some (sub :: replicate 12 Pending ++ [Ready [1; 2; 3; 4; 5; 6]%Z], self') /\
    typed self' = [].
Proof.
  apply (push_run_after_reset new Cancel [9; 9; 9; 9; 9; 9; 1; 2; 3; 4; 5; 6]%Z);
    [unfold wf; vm_compute; split; [reflexivity | repeat constructor]
    | left; reflexivity].
Defined.

(** Whatever was pressed before, a submitted code is exactly the six
    digits of the last six key presses before its enter: no digit typed before
    a cancel, an enter or a restarted attempt, and no stale byte of the array,
    is ever part of a submitted code. *)
Theorem submitted_code_was_just_typed keys subs self' i code :
  push_all new keys = Some (subs, self') ->
  subs !! i = Some (Ready code) ->
  keys !! i = Some Enter /\ length code = PIN_LEN /\
  exists before, take i keys = before ++ (Digit <$> code).
Proof.
  intros Hrun Hi.
  destruct (push_all_refines new keys wf_new) as (subs' & self'' & Hrun' & _ & Hspec).
  change (spec_push_all [] keys = (subs', typed self'')) in Hspec.
  assert (subs' = subs) as -> by congruence.
  apply spec_ready_was_typed. by rewrite Hspec.
Qed.

Lemma submitted_code_was_just_typed_witness :
  let keys := (Digit <$> [8; 1; 2; 3; 4; 5; 6; 7; 8; 9; 0; 1]%Z) ++ [Enter] in
  exists before, take 12 keys = before ++ (Digit <$> [6; 7; 8; 9; 0; 1]%Z).
Proof.
  intros keys.
  destruct (submitted_code_was_just_typed keys
              (replicate 12 Pending ++ [Ready [6; 7; 8; 9; 0; 1]%Z])
              new 12 [6; 7; 8; 9; 0; 1]%Z) as (_ & _ & Hb);
    [vm_compute; reflexivity | vm_compute; reflexivity | exact Hb].
Defined.
