(* ===== verification/Rfc6238.v ===== *)
(** * RFC 6238, the code both ends of the system agree on

    The repository states the algorithm twice, independently of the crates it
    ships with: [expected_pin] in totp-server/tests/e2e_integration.rs and
    [totp] in lock-client/firmware/sim/run_sim_tests.py.  This file models
    that reference: dynamic truncation over an HMAC-SHA-1 that is a parameter
    (the [Hmac] interface), reduced to [digits] decimal digits. *)

From S2P Require Import Prelude.
Local Open Scope Z_scope.

(** ** Bytes *)

Definition is_byte : Z -> Prop := is_uint 8.

#[export] Instance is_byte_dec b : Decision (is_byte b).
Proof. unfold is_byte. apply _. Defined.

(** [x.to_be_bytes()] for an [n]-byte integer. *)
Fixpoint to_be_bytes (n : nat) (x : Z) : list Z :=
  match n with
  | O => []
  | S n => to_be_bytes n (Z.shiftr x 8) ++ [as_u8 x]
  end.

(** [uN::from_be_bytes]. *)
Definition from_be_bytes (bytes : list Z) : Z :=
  fold_left (fun acc b => Z.shiftl acc 8 + b) bytes 0.

(** ** The interface to the HMAC-SHA-1 implementations *)

Class Hmac := hmac_sha1 : list Z -> list Z -> list Z.

(** What every use relies on: a digest is twenty bytes. *)
Class HmacLaws (H : Hmac) : Prop := {
  hmac_length key message : length (hmac_sha1 key message) = 20%nat;
  hmac_bytes key message : Forall is_byte (hmac_sha1 key message)
}.

Section Rfc6238.
Context `{Hmac}.

(** RFC 4226: the 31-bit value at the offset the last nibble names. *)
Definition dynamic_truncation (digest : list Z) : Z :=
  let offset := Z.to_nat (Z.land (digest !!! (length digest - 1)%nat) 15) in
  Z.land (from_be_bytes (take 4 (drop offset digest))) (2 ^ 31 - 1).

Definition hotp (digits : Z) (key : list Z) (counter : Z) : Z :=
  dynamic_truncation (hmac_sha1 key (to_be_bytes 8 counter)) mod 10 ^ digits.

(** The numeric code at Unix time [t]. *)
Definition rfc6238 (step digits : Z) (key : list Z) (t : Z) : Z :=
  hotp digits key (t / step).

(** Codes are constant within a time step. *)
Lemma rfc6238_window step digits key t t' :
  t / step = t' / step -> rfc6238 step digits key t = rfc6238 step digits key t'.
Proof. intros Hw. unfold rfc6238. by rewrite Hw. Qed.

Lemma hotp_bounds digits key counter :
  0 <= digits -> 0 <= hotp digits key counter < 10 ^ digits.
Proof. intros. apply Z.mod_pos_bound. lia. Qed.

Lemma rfc6238_bounds step digits key t :
  0 <= digits -> 0 <= rfc6238 step digits key t < 10 ^ digits.
Proof. intros. by apply hotp_bounds. Qed.
End Rfc6238.
