(* ===== verification/Sha1.v ===== *)
(** * SHA-1 and HMAC-SHA-1 (FIPS 180-4, RFC 2104)

    A concrete instance of the [Hmac] interface.  Theorems about the program
    take the interface as a parameter; the witnesses instantiate it with this
    file, and the test vectors of the repository's own unit tests check it. *)

From S2P Require Import Prelude Rfc6238.
Local Open Scope Z_scope.

Definition add32 (x y : Z) : Z := as_u32 (x + y).
Definition rotl32 (n x : Z) : Z :=
  Z.lor (as_u32 (Z.shiftl x n)) (Z.shiftr x (32 - n)).
Definition not32 (x : Z) : Z := Z.lxor x (2 ^ 32 - 1).

(** Padding to a whole number of 64-byte blocks. *)
Definition sha1_pad (message : list Z) : list Z :=
  let len := length message in
  let zeros := ((119 - len mod 64) mod 64)%nat in
  message ++ [128] ++ replicate zeros 0 ++ to_be_bytes 8 (8 * Z.of_nat len).

Fixpoint chunks (fuel n : nat) (l : list Z) : list (list Z) :=
  match fuel, l with
  | S fuel, _ :: _ => take n l :: chunks fuel n (drop n l)
  | _, _ => []
  end.

(** The message schedule, newest word first. *)
Fixpoint sha1_extend (rounds : nat) (w : list Z) : list Z :=
  match rounds with
  | O => w
  | S rounds =>
      let x := Z.lxor (Z.lxor (w !!! 2%nat) (w !!! 7%nat))
                      (Z.lxor (w !!! 13%nat) (w !!! 15%nat)) in
      sha1_extend rounds (rotl32 1 x :: w)
  end.

Definition sha1_schedule (block : list Z) : list Z :=
  rev (sha1_extend 64 (rev (from_be_bytes <$> chunks 16 4 block))).

Definition sha1_fk (t : nat) (b c d : Z) : Z * Z :=
  if decide (t < 20)%nat then (Z.lor (Z.land b c) (Z.land (not32 b) d), 0x5A827999)
  else if decide (t < 40)%nat then (Z.lxor (Z.lxor b c) d, 0x6ED9EBA1)
  else if decide (t < 60)%nat then
    (Z.lor (Z.lor (Z.land b c) (Z.land b d)) (Z.land c d), 0x8F1BBCDC)
  else (Z.lxor (Z.lxor b c) d, 0xCA62C1D6).

Fixpoint sha1_rounds (t : nat) (w : list Z) (a b c d e : Z) : list Z :=
  match w with
  | [] => [a; b; c; d; e]
  | wt :: w =>
      let (f, k) := sha1_fk t b c d in
      let temp := add32 (add32 (add32 (add32 (rotl32 5 a) f) e) k) wt in
      sha1_rounds (S t) w temp a (rotl32 30 b) c d
  end.

Definition sha1_block (h block : list Z) : list Z :=
  match h with
  | [a; b; c; d; e] =>
      zip_with add32 h (sha1_rounds 0 (sha1_schedule block) a b c d e)
  | _ => h
  end.

Definition sha1_init : list Z :=
  [0x67452301; 0xEFCDAB89; 0x98BADCFE; 0x10325476; 0xC3D2E1F0].

Definition sha1 (message : list Z) : list Z :=
  let padded := sha1_pad message in
  let blocks := chunks (length padded) 64 padded in
  fold_left sha1_block blocks sha1_init ≫= to_be_bytes 4.

Definition hmac_key (key : list Z) : list Z :=
  let key := if decide (64 < length key)%nat then sha1 key else key in
  key ++ replicate (64 - length key) 0.

Definition hmac (key message : list Z) : list Z :=
  let key := hmac_key key in
  sha1 ((Z.lxor 0x5c <$> key) ++ sha1 ((Z.lxor 0x36 <$> key) ++ message)).

Definition sha1_hmac : Hmac := hmac.

(** ** The digest is twenty bytes *)

Lemma length_to_be_bytes n x : length (to_be_bytes n x) = n.
Proof.
  revert x. induction n as [|n IH]; intros x; simpl; [done|].
  rewrite length_app, IH. simpl. lia.
Qed.

Lemma to_be_bytes_bytes n x : Forall is_byte (to_be_bytes n x).
Proof.
  revert x. induction n as [|n IH]; intros x; simpl; [constructor|].
  apply Forall_app; split; [apply IH|]. apply Forall_singleton.
  apply Z.mod_pos_bound. lia.
Qed.

Lemma length_sha1_rounds t w a b c d e : length (sha1_rounds t w a b c d e) = 5%nat.
Proof.
  revert t a b c d e. induction w as [|wt w IH]; intros; [done|]. simpl.
  destruct (sha1_fk t b c d). apply IH.
Qed.

Lemma length_sha1_block h block : length h = 5%nat -> length (sha1_block h block) = 5%nat.
Proof.
  intros Hh. do 6 (destruct h as [|? h]; try done). unfold sha1_block.
  rewrite length_zip_with, length_sha1_rounds. done.
Qed.

Lemma length_sha1 message : length (sha1 message) = 20%nat.
Proof.
  unfold sha1.
  assert (H : forall blocks h, length h = 5%nat ->
                length (fold_left sha1_block blocks h) = 5%nat).
  { induction blocks as [|b blocks IH]; intros h Hh; [done|]. simpl.
    by apply IH, length_sha1_block. }
  specialize (H (chunks (length (sha1_pad message)) 64 (sha1_pad message)) sha1_init eq_refl).
  destruct (fold_left _ _ _) as [|? l]; [done|].
  do 5 (destruct l as [|? l]; try done).
Qed.

Lemma sha1_hmac_laws : HmacLaws sha1_hmac.
Proof.
  split; intros key message; [apply length_sha1|].
  unfold hmac_sha1, sha1_hmac, hmac, sha1. apply Forall_bind, Forall_true.
  intros x. apply to_be_bytes_bytes.
Qed.

(** ** Test vectors *)

(** The ASCII bytes of a secret written as a string literal. *)
Definition ascii_bytes (s : string) : list Z :=
  (fun c => Z.of_nat (Ascii.nat_of_ascii c)) <$> String.list_ascii_of_string s.

Definition rfc_secret : list Z := ascii_bytes "12345678901234567890".

#[local] Existing Instance sha1_hmac.

(** RFC 6238 Appendix B at T = 59 and T = 1111111109. *)
Example rfc6238_vector_59 : rfc6238 30 6 rfc_secret 59 = 287082.
Proof. vm_compute. reflexivity. Qed.
Example rfc6238_vector_1111111109 : rfc6238 30 6 rfc_secret 1111111109 = 081804.
Proof. vm_compute. reflexivity. Qed.
