(* ===== verification/Totp.v ===== *)
(** * core/src/totp.rs: TOTP verification on the lock

    [totp_embed::totp_custom::<Sha1>] is an external function, so it is the
    [TotpEmbed] interface; its documented behaviour, RFC 6238, is the law of
    that interface.  The loop over the skew windows is the source's loop. *)

From S2P Require Import Prelude Rfc6238 Sha1.
Local Open Scope Z_scope.

Definition DIGITS : Z := 6.
Definition STEP_SECONDS : Z := 30.

(** [totp_custom::<Sha1>(step, digits, secret, time) -> u64]. *)
Class TotpEmbed := totp_custom : Z -> Z -> list Z -> Z -> Z.

Class TotpEmbedLaws (T : TotpEmbed) (H : Hmac) : Prop :=
  totp_custom_rfc6238 step digits secret t :
    0 < step -> 0 <= digits -> is_uint 64 t ->
    totp_custom step digits secret t = rfc6238 step digits secret t.

(** ** Operations *)

(** [acc * 10 + d as u32], each operation in a 32-bit word. *)
Definition digits_to_value (digits : list Z) : Z :=
  fold_left (fun acc d => as_u32 (as_u32 (acc * 10) + d)) digits 0.

(** [-(skew as i64)..=(skew as i64)]. *)
Definition skew_range (skew_steps : Z) : list Z :=
  seqZ (- skew_steps) (2 * skew_steps + 1).

Section Matches.
Context `{TotpEmbed}.

(** The [for] loop with its early return. *)
Fixpoint matches_loop (secret : list Z) (entered_value now : Z)
    (steps : list Z) : bool :=
  match steps with
  | [] => false
  | step :: steps =>
      let candidate_time := saturating_add_signed now (step * STEP_SECONDS) in
      if decide (as_u32 (totp_custom STEP_SECONDS DIGITS secret candidate_time)
                 = entered_value)
      then true
      else matches_loop secret entered_value now steps
  end.

Definition matches (secret entered : list Z) (now skew_steps : Z) : bool :=
  let entered_value := digits_to_value entered in
  matches_loop secret entered_value now (skew_range skew_steps).
End Matches.

(** The test module's [digits]: the six decimal digits of a code. *)
Definition digits (code : Z) : list Z := decimal_digits 6 code.

(** ** Specification: which time steps the lock accepts at [now] *)

Definition accepted_window (now skew_steps window : Z) : Prop :=
  Z.max 0 (now / STEP_SECONDS - skew_steps) <= window <=
  Z.min (u64_max / STEP_SECONDS) (now / STEP_SECONDS + skew_steps).

(** ** Lemmas *)

Lemma decimal_value_bytes_bounds ds :
  Forall is_byte ds -> (length ds <= 6)%nat ->
  0 <= decimal_value ds <= 255 * decimal_value (replicate (length ds) 1).
Proof.
  induction ds as [|d ds IH] using rev_ind; intros Hds Hlen; [done|].
  rewrite Forall_app, Forall_singleton in Hds. destruct Hds as [Hds Hd].
  rewrite length_app in *. change (length [d]) with 1%nat in *.
  rewrite replicate_add. change (replicate 1 1) with [1].
  rewrite !decimal_value_snoc. specialize (IH Hds ltac:(lia)).
  unfold is_byte, is_uint in Hd. lia.
Qed.

Lemma digits_to_value_snoc ds d :
  digits_to_value (ds ++ [d]) = as_u32 (as_u32 (digits_to_value ds * 10) + d).
Proof. unfold digits_to_value. by rewrite fold_left_app. Qed.

(** Six bytes, decimal or not, never overflow the accumulator. *)
Lemma digits_to_value_exact ds :
  Forall is_byte ds -> (length ds <= 6)%nat ->
  digits_to_value ds = decimal_value ds /\ is_uint 32 (decimal_value ds).
Proof.
  intros Hds Hlen.
  pose proof (decimal_value_bytes_bounds ds Hds Hlen) as Hb.
  assert (Hmax : decimal_value (replicate (length ds) 1) <= 111111).
  { generalize dependent (length ds). intros n.
    do 7 (destruct n as [|n]; [done|]). lia. }
  split; [|unfold is_uint; lia].
  clear Hb Hmax. induction ds as [|d ds IH] using rev_ind; [done|].
  rewrite Forall_app, Forall_singleton in Hds. destruct Hds as [Hds Hd].
  rewrite length_app in Hlen. change (length [d]) with 1%nat in Hlen.
  rewrite digits_to_value_snoc, decimal_value_snoc, IH by (done || lia).
  pose proof (decimal_value_bytes_bounds ds Hds ltac:(lia)) as Hb.
  assert (Hmax : decimal_value (replicate (length ds) 1) <= 11111).
  { assert (Hlen' : (length ds <= 5)%nat) by lia. clear -Hlen'.
    generalize dependent (length ds). intros n.
    do 6 (destruct n as [|n]; [done|]). lia. }
  unfold is_byte, is_uint in Hd.
  rewrite (as_u32_small (_ * 10)) by (unfold is_uint; lia).
  rewrite as_u32_small by (unfold is_uint; lia). lia.
Qed.

Lemma elem_of_skew_range k s : k ∈ skew_range s <-> - s <= k <= s.
Proof. unfold skew_range. rewrite elem_of_seqZ. lia. Qed.

Lemma matches_loop_existsb `{TotpEmbed} secret v now steps :
  matches_loop secret v now steps = true <->
  exists k, k ∈ steps /\
    as_u32 (totp_custom STEP_SECONDS DIGITS secret
              (saturating_add_signed now (k * STEP_SECONDS))) = v.
Proof.
  induction steps as [|step steps IH]; simpl.
  { split; [done|]. intros (k & Hk & _). by apply not_elem_of_nil in Hk. }
  case_decide as Hc.
  - split; [intros _; exists step; split; [by left|done]|done].
  - rewrite IH. split; intros (k & Hk & Hv).
    + exists k. split; [by right|done].
    + exists k. apply elem_of_cons in Hk as [->|Hk]; done.
Qed.

(** Saturation keeps a candidate time inside the window it is clamped to. *)
Lemma saturating_window now k :
  is_uint 64 now ->
  saturating_add_signed now (k * STEP_SECONDS) / STEP_SECONDS =
  Z.max 0 (Z.min (u64_max / STEP_SECONDS) (now / STEP_SECONDS + k)).
Proof.
  unfold is_uint, saturating_add_signed, STEP_SECONDS. intros Hn.
  change (u64_max / 30) with 614891469123651720.
  unfold u64_max. change (2 ^ 64 - 1) with 18446744073709551615 in *.
  change (2 ^ 64) with 18446744073709551616 in *. div_lia.
Qed.

(** ** Properties *)

Section Acceptance.
Context `{!Hmac, !TotpEmbed, !TotpEmbedLaws _ _}.

Lemma totp_custom_candidate secret now k :
  is_uint 64 now ->
  as_u32 (totp_custom STEP_SECONDS DIGITS secret
            (saturating_add_signed now (k * STEP_SECONDS))) =
  hotp DIGITS secret
    (Z.max 0 (Z.min (u64_max / STEP_SECONDS) (now / STEP_SECONDS + k))).
Proof.
  intros Hn. rewrite totp_custom_rfc6238; [|done|done|auto with machine_int].
  unfold rfc6238. rewrite saturating_window by done. apply as_u32_small.
  unfold is_uint. pose proof (hotp_bounds DIGITS secret
    (Z.max 0 (Z.min (u64_max / STEP_SECONDS) (now / STEP_SECONDS + k)))).
  unfold DIGITS in *. change (10 ^ 6) with 1000000 in *. lia.
Qed.

Lemma accepted_window_clamp now skew_steps w :
  is_uint 64 now -> 0 <= skew_steps ->
  accepted_window now skew_steps w <->
  exists k, - skew_steps <= k <= skew_steps /\
    w = Z.max 0 (Z.min (u64_max / STEP_SECONDS) (now / STEP_SECONDS + k)).
Proof.
  intros Hn Hs.
  assert (0 <= now / STEP_SECONDS <= u64_max / STEP_SECONDS).
  { unfold is_uint in Hn. change u64_max with (2 ^ 64 - 1).
    split; [apply Z.div_pos; [lia|done] | apply Z.div_le_mono; [done|lia]]. }
  unfold accepted_window.
  generalize dependent (u64_max / STEP_SECONDS). intros last Hlast. split.
  - intros Hw. exists (w - now / STEP_SECONDS). lia.
  - intros (k & Hk & ->). lia.
Qed.

Lemma matches_window secret entered now skew_steps :
  Forall is_digit entered -> length entered = 6%nat ->
  is_uint 64 now -> is_uint 8 skew_steps ->
  matches secret entered now skew_steps = true <->
  exists w, accepted_window now skew_steps w /\
            entered = digits (hotp DIGITS secret w).
Proof.
  intros Hd Hlen Hn [Hs _]. unfold matches.
  assert (Hbytes : Forall is_byte entered).
  { eapply Forall_impl; [exact Hd|]. unfold is_digit, is_byte, is_uint. lia. }
  destruct (digits_to_value_exact entered Hbytes ltac:(lia)) as [-> _].
  assert (Hval : forall w,
    hotp DIGITS secret w = decimal_value entered <->
    entered = digits (hotp DIGITS secret w)).
  { intros w. unfold digits. split.
    - intros ->. rewrite <-Hlen. by rewrite decimal_digits_value.
    - intros He. rewrite He. rewrite decimal_value_digits.
      rewrite Z.mod_small by (by apply hotp_bounds). done. }
  rewrite matches_loop_existsb. split.
  - intros (k & Hk & Hv). apply elem_of_skew_range in Hk.
    rewrite totp_custom_candidate in Hv by done.
    eexists. split; [|by apply Hval].
    apply accepted_window_clamp; eauto.
  - intros (w & Hw & Hv). apply accepted_window_clamp in Hw as (k & Hk & ->);
      [|done..].
    exists k. rewrite elem_of_skew_range. split; [done|].
    rewrite totp_custom_candidate by done. by apply Hval.
Qed.

(** C19. The lock accepts a six-digit entry at [now] exactly when the entry is
    the zero-padded RFC 6238 code of one of the time steps within
    [skew_steps] of the current one (clamped to the times a [u64] holds, so
    near the epoch no step is tested twice to any effect).  Comparing
    numbers instead of strings loses nothing: leading zeros included, no
    other entry is accepted. *)
Theorem matches_iff_accepted_window secret entered now skew_steps :
  Forall is_digit entered -> length entered = 6%nat ->
  is_uint 64 now -> is_uint 8 skew_steps ->
  matches secret entered now skew_steps = true <->
  exists w, accepted_window now skew_steps w /\
            entered = digits (hotp DIGITS secret w).
Proof. apply matches_window. Qed.
End Acceptance.

(** The reference implementation is an instance of the interface. *)
#[local] Existing Instance sha1_hmac.
Definition reference_totp_embed : TotpEmbed := rfc6238.
Lemma reference_totp_embed_laws : TotpEmbedLaws reference_totp_embed sha1_hmac.
Proof. done. Qed.
#[local] Existing Instances reference_totp_embed reference_totp_embed_laws.

Lemma matches_iff_accepted_window_witness :
  (matches rfc_secret (digits 287082) 59 0 = true <->
   exists w, accepted_window 59 0 w /\
             digits 287082 = digits (hotp DIGITS rfc_secret w)) /\
  matches rfc_secret (digits 0) 59 0 = false.
Proof.
  split; [|vm_compute; reflexivity].
  apply (matches_iff_accepted_window rfc_secret (digits 287082) 59 0);
    [apply decimal_digits_digits | reflexivity | unfold is_uint; lia..].
Defined.

(** Six buffered bytes never overflow the 32-bit accumulator of
    [digits_to_value], decimal or not, at any point of the fold: the value is
    the decimal number they denote and at most 28,333,305. *)
Theorem digits_to_value_no_overflow ds n :
  Forall is_byte ds -> length ds = 6%nat ->
  digits_to_value (take n ds) = decimal_value (take n ds) /\
  0 <= decimal_value (take n ds) <= 28333305.
Proof.
  intros Hds Hlen.
  assert (Hl : (length (take n ds) <= 6)%nat) by (rewrite length_take; lia).
  assert (Hb : Forall is_byte (take n ds)) by (by apply Forall_take).
  split; [by apply digits_to_value_exact|].
  pose proof (decimal_value_bytes_bounds _ Hb Hl).
  assert (decimal_value (replicate (length (take n ds)) 1) <= 111111); [|lia].
  clear -Hl. generalize dependent (length (take n ds)). intros m.
  do 7 (destruct m as [|m]; [done|]). lia.
Qed.

Lemma digits_to_value_no_overflow_witness :
  digits_to_value [255; 255; 255; 255; 255; 255] = 28333305 /\
  digits_to_value (take 6 [0; 0; 7; 1; 2; 3]) = decimal_value (take 6 [0; 0; 7; 1; 2; 3]).
Proof.
  split; [reflexivity|].
  apply (digits_to_value_no_overflow [0; 0; 7; 1; 2; 3] 6); [|reflexivity].
  repeat constructor; discriminate.
Defined.

(** A lock configured to tolerate more drift accepts every code it
    accepted before, whatever the TOTP implementation computes. *)
Theorem matches_skew_mono `{!TotpEmbed} secret entered now s s' :
  s <= s' -> matches secret entered now s = true ->
  matches secret entered now s' = true.
Proof.
  unfold matches. rewrite !matches_loop_existsb. intros Hs (k & Hk & Hv).
  exists k. rewrite elem_of_skew_range in *. split; [lia|done].
Qed.

Lemma matches_skew_mono_witness :
  matches rfc_secret (digits 287082) 59 0 = true /\
  matches rfc_secret (digits 287082) 59 1 = true.
Proof.
  split; [vm_compute; reflexivity|].
  apply (matches_skew_mono rfc_secret (digits 287082) 59 0 1);
    [discriminate | vm_compute; reflexivity].
Defined.
