(* ===== verification/Lock.v ===== *)
(** * core/src/lock.rs: frames in, unlock decisions out

    [LockController] is generic over the [Clock] and [Actuator] traits; both
    are type classes here, and the trait's documented contract (idempotence)
    is the law class [ActuatorLaws], discharged by the firmware's bolt. *)

From S2P Require Import Prelude Rfc6238 Sha1 Wiegand PinEntry Totp.
Local Open Scope Z_scope.

(** ** The traits *)

(** A value of [C] is what the clock reads from at the moment of the call. *)
Class Clock (C : Type) := unix_seconds : C -> Z.

Class Actuator (A : Type) := {
  unlock : A -> A;
  lock : A -> A
}.

(** "Calling either while already in that state must be a no-op." *)
Class ActuatorLaws (A : Type) `{Actuator A} : Prop := {
  unlock_idempotent (a : A) : unlock (unlock a) = unlock a;
  lock_idempotent (a : A) : lock (lock a) = lock a
}.

(** ** Data *)

Inductive Outcome :=
| Waiting
| Unlocked
| Rejected.

#[export] Instance Outcome_eq_dec : EqDecision Outcome.
Proof. solve_decision. Defined.

Record LockController := mkLockController {
  secret : list Z;
  skew_steps : Z;
  entry : PinEntry
}.

(** ** Operations *)

Definition new (secret : list Z) (skew_steps : Z) : LockController :=
  {| secret := secret; skew_steps := skew_steps; entry := PinEntry.new |}.

(** The key a frame stands for; [None] is the early return on card reads and
    unrecognised frames. *)
Definition frame_key (frame : Frame) : option Key :=
  match frame with
  | Wiegand.Digit d => Some (PinEntry.Digit d)
  | Wiegand.Cancel => Some PinEntry.Cancel
  | Wiegand.Enter => Some PinEntry.Enter
  | Card _ _ | Unrecognized _ => None
  end.

Section Controller.
Context `{!TotpEmbed} {C A : Type} `{!Clock C, !Actuator A}.

Definition on_frame (self : LockController) (frame : Frame) (clock : C)
    (actuator : A) : option (Outcome * LockController * A) :=
  match frame_key frame with
  | None => Some (Waiting, self, actuator)
  | Some key =>
      '(submission, entry') ← push (entry self) key;
      let self' := {| secret := secret self; skew_steps := skew_steps self;
                      entry := entry' |} in
      Some
        match submission with
        | Pending => (Waiting, self', actuator)
        | Ready code =>
            if matches (secret self) code (unix_seconds clock) (skew_steps self)
            then (Unlocked, self', unlock actuator)
            else (Rejected, self', actuator)
        end
  end.

(** A history: each frame with the clock at the time it is fed. *)
Fixpoint on_frames (self : LockController) (events : list (Frame * C))
    (actuator : A) : option (list Outcome * LockController * A) :=
  match events with
  | [] => Some ([], self, actuator)
  | (frame, clock) :: events =>
      '(outcome, self, actuator) ← on_frame self frame clock actuator;
      '(outcomes, self, actuator) ← on_frames self events actuator;
      Some (outcome :: outcomes, self, actuator)
  end.

(** The test module's [frames_for]: six digits and enter. *)
Definition frames_for (code : Z) : list Frame :=
  (Wiegand.Digit <$> digits code) ++ [Wiegand.Enter].

(** ** Specification: the digits typed since the last reset, and a decision
    procedure for complete codes *)

Definition spec_on_frame (accepts : list Z -> Z -> bool) (typed : list Z)
    (frame : Frame) (clock : C) : Outcome * list Z :=
  match frame_key frame with
  | None => (Waiting, typed)
  | Some key =>
      let (submission, typed') := spec_push typed key in
      (match submission with
       | Pending => Waiting
       | Ready code =>
           if accepts code (unix_seconds clock) then Unlocked else Rejected
       end, typed')
  end.

Fixpoint spec_on_frames (accepts : list Z -> Z -> bool) (typed : list Z)
    (events : list (Frame * C)) : list Outcome * list Z :=
  match events with
  | [] => ([], typed)
  | (frame, clock) :: events =>
      let (outcome, typed) := spec_on_frame accepts typed frame clock in
      let (outcomes, typed) := spec_on_frames accepts typed events in
      (outcome :: outcomes, typed)
  end.

Definition accepts (self : LockController) (code : list Z) (now : Z) : bool :=
  matches (secret self) code now (skew_steps self).

Definition unlocks (outcomes : list Outcome) : nat :=
  length (filter (fun o => o = Unlocked) outcomes).

(** ** Lemmas *)

Lemma on_frame_refines self frame clock actuator :
  wf (entry self) ->
  exists outcome self' actuator',
    on_frame self frame clock actuator = Some (outcome, self', actuator') /\
    wf (entry self') /\ secret self' = secret self /\
    skew_steps self' = skew_steps self /\
    spec_on_frame (accepts self) (typed (entry self)) frame clock =
      (outcome, typed (entry self')) /\
    actuator' = if decide (outcome = Unlocked) then unlock actuator else actuator.
Proof.
  intros Hwf. unfold on_frame, spec_on_frame.
  destruct (frame_key frame) as [key|]; [|by eexists _, _, _; split_and!].
  destruct (push_refines (entry self) key Hwf) as (sub & entry' & -> & Hwf' & ->).
  simpl. destruct sub as [|code]; [by eexists _, _, _; split_and!|].
  unfold accepts. destruct (matches _ _ _ _); by eexists _, _, _; split_and!.
Qed.

Lemma on_frames_refines self events actuator :
  wf (entry self) ->
  exists outcomes self',
    on_frames self events actuator =
      Some (outcomes, self', Nat.iter (unlocks outcomes) unlock actuator) /\
    wf (entry self') /\ secret self' = secret self /\
    skew_steps self' = skew_steps self /\
    spec_on_frames (accepts self) (typed (entry self)) events =
      (outcomes, typed (entry self')).
Proof.
  revert self actuator. induction events as [|[frame clock] events IH];
    intros self actuator Hwf; simpl; [by exists [], self|].
  destruct (on_frame_refines self frame clock actuator Hwf)
    as (o & self1 & act1 & -> & Hwf1 & Hs1 & Hk1 & -> & ->). simpl.
  destruct (IH self1 (if decide (o = Unlocked) then unlock actuator else actuator) Hwf1)
    as (os & self2 & -> & Hwf2 & Hs2 & Hk2 & Hspec).
  assert (accepts self1 = accepts self) as Hacc by (unfold accepts; by rewrite Hs1, Hk1).
  rewrite Hacc in Hspec. rewrite Hspec. simpl.
  eexists _, self2. split_and!; [|done|congruence..|done].
  unfold unlocks. rewrite filter_cons. case_decide; [|done]. simpl.
  by rewrite Nat.iter_swap.
Qed.

Lemma spec_on_frames_app acc t (es es' : list (Frame * C)) :
  spec_on_frames acc t (es ++ es') =
  let (os, t1) := spec_on_frames acc t es in
  let (os', t2) := spec_on_frames acc t1 es' in
  (os ++ os', t2).
Proof.
  revert t. induction es as [|[f c] es IH]; intros t; simpl.
  { by destruct (spec_on_frames acc t es'). }
  destruct (spec_on_frame acc t f c) as [o t1]. rewrite IH.
  destruct (spec_on_frames acc t1 es) as [os t2].
  by destruct (spec_on_frames acc t2 es').
Qed.

(** The keys a history presses: card reads and noise press none. *)
Definition keys_of (es : list (Frame * C)) : list Key := omap frame_key es.*1.

Lemma spec_on_frames_typed acc t es :
  (spec_on_frames acc t es).2 = (spec_push_all t (keys_of es)).2 /\
  length (spec_on_frames acc t es).1 = length es.
Proof.
  revert t. induction es as [|[f c] es IH]; intros t; [done|].
  unfold keys_of. cbn [fmap list_fmap fst omap list_omap spec_on_frames].
  unfold spec_on_frame. destruct (frame_key f) as [key|].
  - cbn [spec_push_all]. destruct (spec_push t key) as [sub t1].
    specialize (IH t1). unfold keys_of in IH.
    destruct (spec_push_all t1 _), (spec_on_frames acc t1 es).
    simpl in *. destruct IH. by split; [|f_equal].
  - specialize (IH t). unfold keys_of in IH.
    destruct (spec_push_all t _), (spec_on_frames acc t es).
    simpl in *. destruct IH. by split; [|f_equal].
Qed.

Lemma spec_unlocked_origin acc es i :
  (spec_on_frames acc [] es).1 !! i = Some Unlocked ->
  exists clock before code,
    es !! i = Some (Wiegand.Enter, clock) /\
    keys_of (take i es) = before ++ (PinEntry.Digit <$> code) /\
    length code = PIN_LEN /\ acc code (unix_seconds clock) = true.
Proof.
  induction es as [|[f c] es IH] using rev_ind; [done|].
  rewrite spec_on_frames_app.
  destruct (spec_on_frames_typed acc [] es) as [Ht Hlen].
  destruct (spec_push_all_suffix (keys_of es)) as (h & Hh).
  rewrite <-Ht in Hh.
  destruct (spec_on_frames acc [] es) as [os t]. cbn [spec_on_frames].
  destruct (spec_on_frame acc t f c) as [o t'] eqn:Ho.
  simpl in *. intros Hi.
  destruct (decide (i < length es)%nat) as [Hlt|Hge].
  - rewrite lookup_app_l in Hi by lia. rewrite lookup_app_l by done.
    rewrite take_app_le by lia. by apply IH.
  - apply lookup_app_Some in Hi as [Hi|[_ Hi]];
      [apply lookup_lt_Some in Hi; lia|].
    apply list_lookup_singleton_Some in Hi as [Hi ->].
    assert (i = length es) as -> by lia.
    rewrite take_app_length, list_lookup_middle by done.
    exists c, h, t. unfold spec_on_frame in Ho.
    destruct f; simpl in Ho; repeat case_decide; repeat case_match; by simplify_eq.
Qed.
End Controller.

(** ** Properties *)

Section ControllerTheorems.
Context `{!TotpEmbed} {C A : Type} `{!Clock C, !Actuator A}.

(** C31. For every sequence of frames and clock readings, a fresh controller
    never panics, decides exactly as the specification on the list of typed
    digits does, and calls the actuator's [unlock] once per [Unlocked]
    outcome and never its [lock]. *)
Theorem on_frames_implements_spec s k (events : list (Frame * C)) (actuator : A) :
  exists outcomes self',
    on_frames (new s k) events actuator =
      Some (outcomes, self', Nat.iter (unlocks outcomes) unlock actuator) /\
    spec_on_frames (accepts (new s k)) [] events =
      (outcomes, typed (entry self')).
Proof.
  destruct (on_frames_refines (new s k) events actuator wf_new)
    as (os & self' & Hrun & _ & _ & _ & Hspec).
  by exists os, self'.
Qed.

Lemma unlocked_origin s k (events : list (Frame * C))
    (actuator actuator' : A) outcomes self' i :
  on_frames (new s k) events actuator = Some (outcomes, self', actuator') ->
  outcomes !! i = Some Unlocked ->
  exists clock before code,
    events !! i = Some (Wiegand.Enter, clock) /\
    keys_of (take i events) = before ++ (PinEntry.Digit <$> code) /\
    length code = PIN_LEN /\ matches s code (unix_seconds clock) k = true.
Proof.
  intros Hrun Hi.
  destruct (on_frames_refines (new s k) events actuator wf_new)
    as (os & self1 & Hrun' & _ & _ & _ & Hspec).
  assert (os = outcomes) as -> by congruence.
  apply (spec_unlocked_origin (accepts (new s k))).
  change (spec_on_frames (accepts (new s k)) [] events =
            (outcomes, typed (entry self1))) in Hspec.
  by rewrite Hspec.
Qed.

(** C23. Every unlock is earned: whatever frames were fed before, an
    [Unlocked] outcome answers an enter key whose six preceding key presses
    are the digits of a code [matches] accepts at the clock's time; card
    reads and unrecognised frames in between neither add nor remove a
    digit. *)
Theorem unlocked_only_by_accepted_code s k (events : list (Frame * C))
    (actuator actuator' : A) outcomes self' i :
  on_frames (new s k) events actuator = Some (outcomes, self', actuator') ->
  outcomes !! i = Some Unlocked ->
  exists clock before code,
    events !! i = Some (Wiegand.Enter, clock) /\
    keys_of (take i events) = before ++ (PinEntry.Digit <$> code) /\
    length code = PIN_LEN /\ matches s code (unix_seconds clock) k = true.
Proof. apply unlocked_origin. Qed.

Lemma typed_empty_digits (acc : list Z -> Z -> bool) ds (clocks : list C) :
  length clocks = length ds -> (length ds <= PIN_LEN)%nat ->
  spec_on_frames acc [] (zip (Wiegand.Digit <$> ds) clocks) =
  (replicate (length ds) Waiting, ds).
Proof.
  revert clocks. induction ds as [|d ds IH] using rev_ind; intros clocks Hc Hl.
  { by destruct clocks. }
  rewrite length_app in *. change (length [d]) with 1%nat in *.
  destruct clocks as [|c clocks _] using rev_ind; [simpl in Hc; lia|].
  rewrite length_app in Hc. change (length [c]) with 1%nat in Hc.
  rewrite fmap_app, zip_with_app by (rewrite length_fmap; lia).
  rewrite spec_on_frames_app, IH by lia. simpl.
  unfold spec_on_frame. simpl. case_decide; [|lia].
  by rewrite replicate_add.
Qed.

(** A complete code on an empty buffer: six times [Waiting], then a verdict. *)
Lemma code_entry_spec (acc : list Z -> Z -> bool) code (clocks : list C) clock :
  length clocks = 6%nat ->
  spec_on_frames acc [] (zip (frames_for code) (clocks ++ [clock])) =
  (replicate 6 Waiting ++
     [if acc (digits code) (unix_seconds clock) then Unlocked else Rejected], []).
Proof.
  unfold frames_for.
  generalize (length_decimal_digits 6 code : length (digits code) = 6%nat).
  generalize (digits code). intros ds Hd Hlen.
  rewrite zip_with_app by (rewrite length_fmap; lia).
  rewrite spec_on_frames_app, typed_empty_digits by (unfold PIN_LEN; lia).
  simpl. unfold spec_on_frame. simpl. by rewrite Hd.
Qed.

(** Entering a six-digit code on an empty buffer always gets a verdict,
    on the enter key and from the clock at that moment: six times [Waiting],
    then [Unlocked] with the actuator unlocked when [matches] accepts the
    code, and [Rejected] with the actuator untouched otherwise; the buffer
    is empty again, so an attempt never affects the next one. *)
Theorem code_entry_outcome (self : LockController) code (clocks : list C)
    (clock : C) (actuator : A) :
  wf (entry self) -> typed (entry self) = [] -> length clocks = 6%nat ->
  let accepted :=
    matches (secret self) (digits code) (unix_seconds clock) (skew_steps self) in
  exists self',
    on_frames self (zip (frames_for code) (clocks ++ [clock])) actuator =
      Some (replicate 6 Waiting ++ [if accepted then Unlocked else Rejected],
            self', if accepted then unlock actuator else actuator) /\
    wf (entry self') /\ typed (entry self') = [] /\
    secret self' = secret self /\ skew_steps self' = skew_steps self.
Proof.
  intros Hwf Hempty Hlen accepted.
  destruct (on_frames_refines self (zip (frames_for code) (clocks ++ [clock]))
              actuator Hwf) as (os & self' & -> & Hwf' & Hs & Hk & Hspec).
  exists self'. rewrite Hempty, code_entry_spec in Hspec by done.
  injection Hspec as <- Htyped. unfold accepts. fold accepted.
  split_and!; try done. unfold unlocks. by destruct accepted.
Qed.
End ControllerTheorems.

(** ** Witnesses: a fixed clock and a counting actuator, as in the test module *)

#[local] Existing Instances sha1_hmac reference_totp_embed.
#[local] Instance fixed_clock : Clock Z := fun now => now.
#[local] Instance counting_actuator : Actuator (nat * nat) := {
  unlock := fun '(u, l) => (S u, l);
  lock := fun '(u, l) => (u, S l)
}.

Lemma unlocked_only_by_accepted_code_witness :
  exists clock before code,
    zip (frames_for 287082) (replicate 7 59) !! 6%nat = Some (Wiegand.Enter, clock) /\
    keys_of (take 6 (zip (frames_for 287082) (replicate 7 59))) =
      before ++ (PinEntry.Digit <$> code) /\
    length code = PIN_LEN /\ matches rfc_secret code (unix_seconds clock) 0 = true.
Proof.
  apply (unlocked_only_by_accepted_code rfc_secret 0
           (zip (frames_for 287082) (replicate 7 59)) (0, 0)%nat (1, 0)%nat
           (replicate 6 Waiting ++ [Unlocked]) (new rfc_secret 0) 6);
    vm_compute; reflexivity.
Defined.

Lemma code_entry_outcome_witness :
  exists self',
    on_frames (new rfc_secret 1) (zip (frames_for 287082) (replicate 6 50 ++ [89]))
      (0, 0)%nat =
    Some (replicate 6 Waiting ++ [Unlocked], self', (1, 0)%nat).
Proof.
  destruct (code_entry_outcome (new rfc_secret 1) 287082 (replicate 6 50) 89 (0, 0)%nat)
    as (self' & Hrun & _); [apply wf_new | reflexivity | reflexivity |].
  exists self'. rewrite Hrun. vm_compute. reflexivity.
Defined.
