(* ===== verification/LockTests.v ===== *)
(** * The unit tests of lock-client/core, run on the model

    Each test module of core/src is translated function by function; a test is
    the conjunction of its assertions, [None] if the code under test panics.
    They are evaluated, not proved from: an independent check that the
    definitions the theorems are about compute what the Rust code computes. *)

From S2P Require Import Prelude Rfc6238 Sha1 Wiegand PinEntry Totp Lock.
Local Open Scope Z_scope.

(** [assert_eq!]. *)
Definition assert_eq {A} `{EqDecision A} (x y : A) : bool := bool_decide (x = y).

#[local] Existing Instances sha1_hmac reference_totp_embed.

(** ** wiegand.rs *)

Module WiegandTests.
Definition decodes_all_ten_digits : bool :=
  forallb (fun d => assert_eq (decode_frame (nibble d)) (Some (Wiegand.Digit d))) (seqZ 0 10).

Definition decodes_star_as_cancel_and_hash_as_enter : bool :=
  assert_eq (decode_frame (nibble 10)) (Some Wiegand.Cancel) &&
  assert_eq (decode_frame (nibble 11)) (Some Wiegand.Enter).

Definition rejects_impossible_nibble_values_instead_of_guessing : bool :=
  assert_eq (decode_frame (nibble 12)) (Some (Unrecognized 4)) &&
  assert_eq (decode_frame (nibble 15)) (Some (Unrecognized 4)).

Definition decodes_a_26_bit_card_frame : bool :=
  let bits := [false] ++ bits_msb_first 12 8 ++ bits_msb_first 3000 16 ++ [false] in
  match decode_frame bits with
  | Some (Card facility_code card_number) =>
      assert_eq facility_code 12 && assert_eq card_number 3000
  | _ => false
  end.

Definition reports_unrecognized_lengths_instead_of_guessing : bool :=
  assert_eq (decode_frame (replicate 8 true)) (Some (Unrecognized 8)) &&
  assert_eq (decode_frame []) (Some (Unrecognized 0)).

Example wiegand_tests_pass :
  decodes_all_ten_digits && decodes_star_as_cancel_and_hash_as_enter &&
  rejects_impossible_nibble_values_instead_of_guessing &&
  decodes_a_26_bit_card_frame && reports_unrecognized_lengths_instead_of_guessing = true.
Proof. vm_compute. reflexivity. Qed.
End WiegandTests.

(** ** pin_entry.rs *)

Module PinEntryTests.
(** The last submission, and the entry. *)
Definition enter_digits (entry : PinEntry) (digits : list Z) : option (Submission * PinEntry) :=
  foldl (fun acc d => '(_, entry) ← acc; push entry (PinEntry.Digit d))
    (Some (Pending, entry)) digits.

(** [assert_eq!(entry.push(key), expected)]. *)
Definition push_is (entry : PinEntry) (key : Key) (expected : Submission) :
    option (bool * PinEntry) :=
  '(submission, entry) ← push entry key;
  Some (assert_eq submission expected, entry).

Definition six_digits_then_enter_submits_the_code : option bool :=
  '(_, entry) ← enter_digits PinEntry.new [1; 2; 3; 4; 5; 6];
  fst <$> push_is entry PinEntry.Enter (Ready [1; 2; 3; 4; 5; 6]).

Definition enter_with_too_few_digits_is_ignored_and_clears_the_buffer : option bool :=
  '(_, entry) ← enter_digits PinEntry.new [1; 2; 3];
  '(short, entry) ← push_is entry PinEntry.Enter Pending;
  '(result, entry) ← enter_digits entry [9; 9; 9; 9; 9; 9];
  '(full, _) ← push_is entry PinEntry.Enter (Ready [9; 9; 9; 9; 9; 9]);
  Some (short && assert_eq result Pending && full).

Definition cancel_clears_a_partial_entry : option bool :=
  '(_, entry) ← enter_digits PinEntry.new [1; 2; 3];
  '(_, entry) ← push entry PinEntry.Cancel;
  '(_, entry) ← enter_digits entry [4; 5; 6; 7; 8; 9];
  fst <$> push_is entry PinEntry.Enter (Ready [4; 5; 6; 7; 8; 9]).

Definition a_seventh_digit_restarts_the_attempt_instead_of_being_dropped : option bool :=
  '(_, entry) ← enter_digits PinEntry.new [1; 2; 3; 4; 5; 6; 7];
  '(_, entry) ← enter_digits entry [2; 3; 4; 5; 6];
  fst <$> push_is entry PinEntry.Enter (Ready [7; 2; 3; 4; 5; 6]).

Definition a_submitted_code_does_not_leak_into_the_next_attempt : option bool :=
  '(_, entry) ← enter_digits PinEntry.new [1; 1; 1; 1; 1; 1];
  '(_, entry) ← push entry PinEntry.Enter;
  '(_, entry) ← enter_digits entry [2; 2; 2];
  fst <$> push_is entry PinEntry.Enter Pending.

Example pin_entry_tests_pass :
  Forall (fun test => test = Some true)
    [six_digits_then_enter_submits_the_code;
     enter_with_too_few_digits_is_ignored_and_clears_the_buffer;
     cancel_clears_a_partial_entry;
     a_seventh_digit_restarts_the_attempt_instead_of_being_dropped;
     a_submitted_code_does_not_leak_into_the_next_attempt].
Proof. repeat (apply Forall_cons; split; [vm_compute; reflexivity|]). apply Forall_nil_2. Qed.
End PinEntryTests.

(** ** totp.rs *)

Module TotpTests.
Definition matches_the_rfc_6238_test_vector : bool :=
  Totp.matches rfc_secret (Totp.digits 287082) 59 0.

Definition rejects_a_wrong_code : bool :=
  negb (Totp.matches rfc_secret (Totp.digits 0) 59 0).

Definition zero_skew_rejects_the_adjacent_window : bool :=
  let earlier := as_u32 (totp_custom 30 6 rfc_secret 0) in
  negb (Totp.matches rfc_secret (Totp.digits earlier) 59 0).

Definition skew_of_one_accepts_the_previous_and_next_window : bool :=
  let earlier := as_u32 (totp_custom 30 6 rfc_secret 0) in
  let later := as_u32 (totp_custom 30 6 rfc_secret 60) in
  Totp.matches rfc_secret (Totp.digits earlier) 59 1 &&
  Totp.matches rfc_secret (Totp.digits later) 59 1.

Definition skew_of_one_still_rejects_two_windows_away : bool :=
  let two_away := as_u32 (totp_custom 30 6 rfc_secret 90) in
  negb (Totp.matches rfc_secret (Totp.digits two_away) 59 1).

Definition a_leading_zero_code_converts_to_the_same_number_as_the_padded_string : bool :=
  assert_eq (digits_to_value [0; 0; 7; 1; 2; 3]) 7123 &&
  assert_eq (digits_to_value (Totp.digits 7123)) 7123.

Example totp_tests_pass :
  matches_the_rfc_6238_test_vector && rejects_a_wrong_code &&
  zero_skew_rejects_the_adjacent_window && skew_of_one_accepts_the_previous_and_next_window &&
  skew_of_one_still_rejects_two_windows_away &&
  a_leading_zero_code_converts_to_the_same_number_as_the_padded_string = true.
Proof. vm_compute. reflexivity. Qed.
End TotpTests.

(** ** lock.rs *)

Module LockTests.
Record FixedClock := mkFixedClock { fixed : Z }.
#[local] Instance fixed_clock : Clock FixedClock := fixed.

Record RecordingActuator := mkRecordingActuator { unlock_calls : Z; lock_calls : Z }.
#[local] Instance recording_actuator : Actuator RecordingActuator := {
  unlock a := {| unlock_calls := as_u32 (unlock_calls a + 1); lock_calls := lock_calls a |};
  lock a := {| unlock_calls := unlock_calls a; lock_calls := as_u32 (lock_calls a + 1) |}
}.
Definition idle : RecordingActuator := {| unlock_calls := 0; lock_calls := 0 |}.

(** Feeding frames to a controller under one clock: the last outcome. *)
Definition feed (controller : LockController) (frames : list Frame) (clock : FixedClock)
    (actuator : RecordingActuator) : option (Outcome * LockController * RecordingActuator) :=
  foldl (fun acc frame => '(_, controller, actuator) ← acc;
                          on_frame controller frame clock actuator)
    (Some (Waiting, controller, actuator)) frames.

Definition unlocks_on_a_correct_code : option bool :=
  let code := as_u32 (totp_custom 30 6 rfc_secret 59) in
  '(outcome, _, actuator) ← feed (Lock.new rfc_secret 0) (frames_for code) (mkFixedClock 59) idle;
  Some (assert_eq outcome Unlocked && assert_eq (unlock_calls actuator) 1 &&
        assert_eq (lock_calls actuator) 0).

Definition rejects_a_wrong_code_without_unlocking : option bool :=
  '(outcome, _, actuator) ← feed (Lock.new rfc_secret 0) (frames_for 0) (mkFixedClock 59) idle;
  Some (assert_eq outcome Rejected && assert_eq (unlock_calls actuator) 0).

Definition ignores_card_reads_and_garbage_frames : option bool :=
  let controller := Lock.new (ascii_bytes "secret") 0 in
  '(card, controller, actuator) ← on_frame controller (Card 1 2) (mkFixedClock 0) idle;
  '(garbage, _, actuator) ← on_frame controller (Unrecognized 8) (mkFixedClock 0) actuator;
  Some (assert_eq card Waiting && assert_eq garbage Waiting &&
        assert_eq (unlock_calls actuator) 0).

Definition cancel_clears_a_partial_entry_before_a_correct_code : option bool :=
  let code := as_u32 (totp_custom 30 6 rfc_secret 59) in
  '(_, controller, actuator) ← feed (Lock.new rfc_secret 0)
      [Wiegand.Digit 9; Wiegand.Digit 9; Wiegand.Cancel] (mkFixedClock 59) idle;
  '(outcome, _, actuator) ← feed controller (frames_for code) (mkFixedClock 59) actuator;
  Some (assert_eq outcome Unlocked && assert_eq (unlock_calls actuator) 1).

Definition a_wrong_attempt_does_not_poison_the_next_one : option bool :=
  let code := as_u32 (totp_custom 30 6 rfc_secret 59) in
  '(_, controller, actuator) ← feed (Lock.new rfc_secret 0) (frames_for 0) (mkFixedClock 59) idle;
  let before := assert_eq (unlock_calls actuator) 0 in
  '(outcome, _, actuator) ← feed controller (frames_for code) (mkFixedClock 59) actuator;
  Some (before && assert_eq outcome Unlocked && assert_eq (unlock_calls actuator) 1).

Definition honors_configured_skew : option bool :=
  let previous_window_code := as_u32 (totp_custom 30 6 rfc_secret 0) in
  '(outcome, _, _) ← feed (Lock.new rfc_secret 1) (frames_for previous_window_code)
      (mkFixedClock 59) idle;
  Some (assert_eq outcome Unlocked).

Example lock_tests_pass :
  Forall (fun test => test = Some true)
    [unlocks_on_a_correct_code; rejects_a_wrong_code_without_unlocking;
     ignores_card_reads_and_garbage_frames;
     cancel_clears_a_partial_entry_before_a_correct_code;
     a_wrong_attempt_does_not_poison_the_next_one; honors_configured_skew].
Proof. repeat (apply Forall_cons; split; [vm_compute; reflexivity|]). apply Forall_nil_2. Qed.
End LockTests.
