(* ===== verification/Capture.v ===== *)
(** * firmware/src/wiegand_capture.rs: pulses to bit sequences

    The interrupt handler appends a bit per falling edge; the main loop takes
    the sequence once the lines have been silent for [MESSAGE_GAP].  The pins
    ([esp_hal::gpio::Input]) and the bounded vector ([heapless::Vec]) are
    external: the interfaces [InputPin] and [HeaplessVec], with their
    documented behaviour as laws.  Instants and durations are microsecond
    counts of the monotonic timer, whose operators panic rather than leave
    their range. *)

From S2P Require Import Prelude.
Local Open Scope Z_scope.

(** ** Interfaces *)

Class InputPin (I : Type) := {
  listen : I -> I;
  is_interrupt_set : I -> bool;
  clear_interrupt : I -> I;
  (** The hardware's side: a falling edge on the pin. *)
  falling_edge : I -> I
}.

Class InputPinLaws (I : Type) `{InputPin I} : Prop := {
  edge_sets (i : I) : is_interrupt_set (falling_edge i) = true;
  clear_clears (i : I) : is_interrupt_set (clear_interrupt i) = false;
  listen_keeps (i : I) : is_interrupt_set (listen i) = is_interrupt_set i
}.

Definition MAX_BITS : nat := 34.

(** [heapless::Vec<bool, MAX_BITS>].  [remove] panics out of range; [push]
    hands the element back when the vector is full. *)
Class HeaplessVec (V : Type) := {
  vec_new : V;
  vec_is_full : V -> bool;
  vec_is_empty : V -> bool;
  vec_remove : V -> nat -> option (bool * V);
  vec_push : V -> bool -> result unit bool * V;
  vec_to_list : V -> list bool
}.

Class HeaplessVecLaws (V : Type) `{HeaplessVec V} : Prop := {
  vec_new_list : vec_to_list (vec_new : V) = [];
  vec_is_full_iff (v : V) : vec_is_full v = true <-> length (vec_to_list v) = MAX_BITS;
  vec_is_empty_iff (v : V) : vec_is_empty v = true <-> vec_to_list v = [];
  vec_capacity (v : V) : (length (vec_to_list v) <= MAX_BITS)%nat;
  vec_remove_list (v : V) i b :
    vec_to_list v !! i = Some b ->
    exists v', vec_remove v i = Some (b, v') /\
               vec_to_list v' = delete i (vec_to_list v);
  vec_push_list (v : V) b :
    vec_is_full v = false ->
    exists v', vec_push v b = (Ok tt, v') /\ vec_to_list v' = vec_to_list v ++ [b]
}.

(** ** Time

    [esp_hal::time::Instant] counts microseconds in a [u64]; its operators
    panic ([None]) instead of leaving that range. *)

(** [now - earlier] of two instants: there is no negative duration. *)
Definition instant_since (now earlier : Z) : option Z :=
  if decide (earlier <= now) then Some (now - earlier) else None.

(** [now + duration]. *)
Definition instant_plus (now duration : Z) : option Z :=
  if decide (now + duration <= u64_max) then Some (now + duration) else None.

Lemma instant_since_Some now earlier d :
  instant_since now earlier = Some d <-> earlier <= now /\ d = now - earlier.
Proof. unfold instant_since. case_decide; naive_solver. Qed.

Lemma instant_plus_Some now duration t :
  instant_plus now duration = Some t <-> now + duration <= u64_max /\ t = now + duration.
Proof. unfold instant_plus. case_decide; naive_solver. Qed.

(** ** State and operations *)

(** [Duration::from_millis(25)]. *)
Definition MESSAGE_GAP : Z := 25000.

Section Capture.
Context {I V : Type} `{!InputPin I, !HeaplessVec V}.

Record CaptureState := mkCaptureState {
  d0 : I;
  d1 : I;
  bits : V;
  last_edge : option Z
}.

(** The static [CAPTURE]: [None] until [install] runs. *)
Definition install (d0 d1 : I) (_ : option CaptureState) : option CaptureState :=
  Some {| d0 := listen d0; d1 := listen d1; bits := vec_new; last_edge := None |}.

(** [now] is what [Instant::now()] returns in this call. *)
Definition push_bit (state : CaptureState) (bit : bool) (now : Z) :
    option CaptureState :=
  bits' ← (if vec_is_full (bits state)
           then snd <$> vec_remove (bits state) 0
           else Some (bits state));
  let (_, bits'') := vec_push bits' bit in
  Some {| d0 := d0 state; d1 := d1 state; bits := bits''; last_edge := Some now |}.

Definition with_d0 (state : CaptureState) (i : I) : CaptureState :=
  {| d0 := i; d1 := d1 state; bits := bits state; last_edge := last_edge state |}.
Definition with_d1 (state : CaptureState) (i : I) : CaptureState :=
  {| d0 := d0 state; d1 := i; bits := bits state; last_edge := last_edge state |}.

(** [now0] and [now1] are the instants the two [push_bit] calls read. *)
Definition on_gpio_interrupt (capture : option CaptureState) (now0 now1 : Z) :
    option (option CaptureState) :=
  match capture with
  | None => Some None
  | Some state =>
      state ← (if is_interrupt_set (d0 state)
               then push_bit (with_d0 state (clear_interrupt (d0 state))) false now0
               else Some state);
      state ← (if is_interrupt_set (d1 state)
               then push_bit (with_d1 state (clear_interrupt (d1 state))) true now1
               else Some state);
      Some (Some state)
  end.

(** [None] is a panic, [Some (None, _)] is no frame. *)
Definition take_completed_frame (capture : option CaptureState) (now : Z) :
    option (option V * option CaptureState) :=
  match capture with
  | None => Some (None, None)
  | Some state =>
      match last_edge state with
      | None => Some (None, Some state)
      | Some last =>
          if vec_is_empty (bits state) then Some (None, Some state)
          else
            silence ← instant_since now last;
            if decide (silence < MESSAGE_GAP) then Some (None, Some state)
            else Some (Some (bits state),
                       Some {| d0 := d0 state; d1 := d1 state; bits := vec_new;
                               last_edge := None |})
      end
  end.

(** ** Specification: the state is the last [MAX_BITS] pulses since the last
    completed frame and the time of the last one *)

Definition captured (capture : option CaptureState) : list bool * option Z :=
  match capture with
  | None => ([], None)
  | Some state => (vec_to_list (bits state), last_edge state)
  end.

Definition spec_pulse (s : list bool * option Z) (bit : bool) (now : Z) :
    list bool * option Z :=
  (lastn MAX_BITS (s.1 ++ [bit]), Some now).

Definition spec_poll (s : list bool * option Z) (now : Z) :
    option (list bool) * (list bool * option Z) :=
  match s.2 with
  | Some last =>
      if decide (s.1 <> [] /\ MESSAGE_GAP <= now - last)
      then (Some s.1, ([], None)) else (None, s)
  | None => (None, s)
  end.

Context `{!InputPinLaws I, !HeaplessVecLaws V}.

Lemma push_bit_refines state bit now :
  exists state',
    push_bit state bit now = Some state' /\
    captured (Some state') = spec_pulse (captured (Some state)) bit now /\
    d0 state' = d0 state /\ d1 state' = d1 state.
Proof.
  unfold push_bit. pose proof (vec_capacity (bits state)) as Hcap.
  destruct (vec_is_full (bits state)) eqn:Hfull.
  - apply vec_is_full_iff in Hfull as Hlen.
    destruct (vec_to_list (bits state)) as [|b l] eqn:Hl; [done|].
    destruct (vec_remove_list (bits state) 0 b) as (v' & Hrem & Hdel); [by rewrite Hl|].
    rewrite Hrem. simpl. rewrite Hl in Hdel. simpl in Hdel.
    destruct (vec_push_list v' bit) as (v'' & Hpush & Hl'').
    { destruct (vec_is_full v') eqn:Hf'; [|done].
      apply vec_is_full_iff in Hf'. rewrite Hdel in Hf'. simpl in Hlen. lia. }
    rewrite Hpush. eexists. split_and!; [done| |done..].
    unfold captured, spec_pulse. simpl. rewrite Hl'', Hdel, Hl. f_equal.
    unfold lastn. rewrite length_app, Hlen. change (length [bit]) with 1%nat.
    by replace (MAX_BITS + 1 - MAX_BITS)%nat with 1%nat by lia.
  - destruct (vec_push_list (bits state) bit Hfull) as (v'' & Hpush & Hl'').
    simpl. rewrite Hpush. eexists. split_and!; [done| |done..].
    unfold captured, spec_pulse. simpl. rewrite Hl''. f_equal.
    rewrite lastn_short; [done|].
    assert (length (vec_to_list (bits state)) <> MAX_BITS).
    { intros Hlen. apply vec_is_full_iff in Hlen. congruence. }
    rewrite length_app. simpl. lia.
Qed.

Lemma take_completed_frame_refines capture now frame capture' :
  take_completed_frame capture now = Some (frame, capture') ->
  spec_poll (captured capture) now = (vec_to_list <$> frame, captured capture').
Proof.
  destruct capture as [state|]; [|by intros [= <- <-]]. simpl.
  unfold spec_poll. simpl. destruct (last_edge state) as [last|] eqn:Hlast; simpl.
  - destruct (vec_is_empty (bits state)) eqn:He.
    + intros [= <- <-]. apply vec_is_empty_iff in He as He'.
      rewrite decide_False by naive_solver. simpl. by rewrite Hlast.
    + assert (vec_to_list (bits state) <> []).
      { intros Hn. apply vec_is_empty_iff in Hn. congruence. }
      intros (d & [Hle ->]%instant_since_Some & Ht)%bind_Some. revert Ht.
      case_decide; intros [= <- <-]; case_decide as Hd; try lia; simpl;
        try by rewrite Hlast.
      * by rewrite vec_new_list.
      * naive_solver lia.
  - intros [= <- <-]. simpl. by rewrite Hlast.
Qed.

(** A poll panics only if it reads an instant before the last edge's. *)
Lemma take_completed_frame_total capture now :
  (forall last, (captured capture).2 = Some last -> last <= now) ->
  is_Some (take_completed_frame capture now).
Proof.
  intros Hle. destruct capture as [state|]; [|by eexists]. simpl in *.
  destruct (last_edge state) as [last|]; [|by eexists].
  destruct (vec_is_empty (bits state)); [by eexists|].
  rewrite (proj2 (instant_since_Some _ _ _) (conj (Hle _ eq_refl) eq_refl)). simpl.
  case_decide; by eexists.
Qed.

(** The pins are not touched. *)
Lemma take_completed_frame_pins state now frame capture' :
  take_completed_frame (Some state) now = Some (frame, capture') ->
  exists state', capture' = Some state' /\ d0 state' = d0 state /\ d1 state' = d1 state.
Proof.
  simpl. destruct (last_edge state); [|intros [= <- <-]; by eexists].
  destruct (vec_is_empty _); [intros [= <- <-]; by eexists|].
  intros (d & _ & Ht)%bind_Some. case_decide; simplify_eq; by eexists.
Qed.

(** ** The hardware's events: an edge on a line followed by the handler, and
    the main loop's polls *)

Inductive CaptureEvent :=
| Edge (bit : bool) (now : Z)
| Poll (now : Z).

(** The edge sets the line's interrupt flag. *)
Definition raise_edge (bit : bool) (capture : option CaptureState) :
    option CaptureState :=
  match capture with
  | None => None
  | Some state =>
      Some (if bit then with_d1 state (falling_edge (d1 state))
            else with_d0 state (falling_edge (d0 state)))
  end.

Fixpoint run_capture (capture : option CaptureState) (events : list CaptureEvent) :
    option (list V * option CaptureState) :=
  match events with
  | [] => Some ([], capture)
  | Edge bit now :: events =>
      capture ← on_gpio_interrupt (raise_edge bit capture) now now;
      run_capture capture events
  | Poll now :: events =>
      '(frame, capture) ← take_completed_frame capture now;
      '(frames, capture) ← run_capture capture events;
      Some (option_list frame ++ frames, capture)
  end.

(** No interrupt is pending. *)
Definition quiet (state : CaptureState) : Prop :=
  is_interrupt_set (d0 state) = false /\ is_interrupt_set (d1 state) = false.

(** The bits one run of the handler appends: D0's before D1's. *)
Definition pending (state : CaptureState) (now0 now1 : Z) : list (bool * Z) :=
  (if is_interrupt_set (d0 state) then [(false, now0)] else []) ++
  (if is_interrupt_set (d1 state) then [(true, now1)] else []).

Definition spec_pulses (s : list bool * option Z) (pulses : list (bool * Z)) :
    list bool * option Z :=
  fold_left (fun s '(bit, now) => spec_pulse s bit now) pulses s.

Fixpoint spec_run_capture (s : list bool * option Z) (events : list CaptureEvent) :
    list (list bool) * (list bool * option Z) :=
  match events with
  | [] => ([], s)
  | Edge bit now :: events => spec_run_capture (spec_pulse s bit now) events
  | Poll now :: events =>
      let (frame, s) := spec_poll s now in
      let (frames, s) := spec_run_capture s events in
      (option_list frame ++ frames, s)
  end.

Lemma on_gpio_interrupt_refines state now0 now1 :
  exists state',
    on_gpio_interrupt (Some state) now0 now1 = Some (Some state') /\
    captured (Some state') =
      spec_pulses (captured (Some state)) (pending state now0 now1) /\
    quiet state'.
Proof.
  unfold on_gpio_interrupt, pending, spec_pulses, quiet. rewrite fold_left_app.
  destruct (is_interrupt_set (d0 state)) eqn:H0.
  - destruct (push_bit_refines (with_d0 state (clear_interrupt (d0 state))) false now0)
      as (s1 & -> & Hc1 & Hd0 & Hd1). simpl mbind. rewrite Hd1.
    simpl d1. destruct (is_interrupt_set (d1 state)) eqn:H1.
    + destruct (push_bit_refines (with_d1 s1 (clear_interrupt (d1 state))) true now1)
        as (s2 & -> & Hc2 & Hd0' & Hd1'). cbn [mbind option_bind]. eexists. split; [done|].
      change (captured (Some (with_d1 s1 _))) with (captured (Some s1)) in Hc2.
      rewrite Hc2, Hc1, Hd0', Hd1'. simpl. rewrite Hd0. simpl.
      by rewrite !clear_clears.
    + eexists. split; [done|]. rewrite Hc1, Hd0, Hd1. simpl.
      by rewrite clear_clears.
  - simpl mbind. destruct (is_interrupt_set (d1 state)) eqn:H1.
    + destruct (push_bit_refines (with_d1 state (clear_interrupt (d1 state))) true now1)
        as (s2 & -> & Hc2 & Hd0' & Hd1'). cbn [mbind option_bind]. eexists. split; [done|].
      rewrite Hc2, Hd0', Hd1'. simpl. by rewrite clear_clears, H0.
    + eexists. by split_and!.
Qed.

(** Polls read instants that are not before the last edge's. *)
Fixpoint polls_after (last : option Z) (events : list CaptureEvent) : Prop :=
  match events with
  | [] => True
  | Edge _ now :: events => polls_after (Some now) events
  | Poll now :: events =>
      match last with Some t => t <= now | None => True end /\ polls_after last events
  end.

Lemma polls_after_None last events : polls_after last events -> polls_after None events.
Proof. revert last. induction events as [|[]]; simpl; naive_solver. Qed.

Lemma spec_poll_last s now frame s' :
  spec_poll s now = (frame, s') -> s'.2 = s.2 \/ s'.2 = None.
Proof. unfold spec_poll. repeat case_match; intros; simplify_eq/=; auto. Qed.

Lemma run_capture_refines state events :
  quiet state -> polls_after (captured (Some state)).2 events ->
  exists frames state',
    run_capture (Some state) events = Some (frames, Some state') /\ quiet state' /\
    spec_run_capture (captured (Some state)) events =
      (vec_to_list <$> frames, captured (Some state')).
Proof.
  revert state. induction events as [|[bit now|now] events IH]; intros state Hq Hp.
  - by exists [], state.
  - cbn [run_capture raise_edge polls_after] in *.
    set (state1 := if bit then _ else _).
    destruct (on_gpio_interrupt_refines state1 now now) as (s1 & -> & Hc & Hq1).
    assert (Hpulse : captured (Some s1) = spec_pulse (captured (Some state)) bit now).
    { rewrite Hc. destruct Hq as [H0 H1]. unfold state1, pending.
      destruct bit; simpl; by rewrite ?edge_sets, ?H0, ?H1. }
    simpl mbind. destruct (IH s1 Hq1) as (frames & s2 & -> & Hq2 & Hspec); [by rewrite Hpulse|].
    exists frames, s2. split_and!; [done..|]. cbn [spec_run_capture].
    by rewrite <-Hspec, Hpulse.
  - cbn [run_capture spec_run_capture polls_after] in *. destruct Hp as [Hle Hp].
    destruct (take_completed_frame_total (Some state) now) as [[frame c1] Htake].
    { intros last Hlast. by rewrite Hlast in Hle. }
    pose proof (take_completed_frame_refines _ _ _ _ Htake) as Ht.
    destruct (take_completed_frame_pins _ _ _ _ Htake) as (s1 & -> & H0 & H1).
    rewrite Htake. cbn [mbind option_bind].
    destruct (IH s1) as (frames & s2 & -> & Hq2 & Hspec).
    { unfold quiet in *. by rewrite H0, H1. }
    { destruct (spec_poll_last _ _ _ _ Ht) as [-> | ->]; [done|]. by eapply polls_after_None. }
    rewrite Ht, Hspec. eexists _, s2. split_and!; [done..|].
    rewrite fmap_app. by destruct frame.
Qed.

(** A burst: polls between its edges come within [MESSAGE_GAP] after them. *)
Fixpoint burst (last : option Z) (events : list CaptureEvent) : Prop :=
  match events with
  | [] => True
  | Edge _ now :: events => burst (Some now) events
  | Poll now :: events =>
      match last with Some t => 0 <= now - t < MESSAGE_GAP | None => True end /\
      burst last events
  end.

Lemma burst_polls_after last events : burst last events -> polls_after last events.
Proof.
  revert last. induction events as [|[bit now|now] events IH]; intros last; simpl; [done|auto|].
  intros [Hgap Hb]. split; [|auto]. destruct last; [lia|done].
Qed.

Definition last_edge_of (last : option Z) (events : list CaptureEvent) : option Z :=
  fold_left (fun l e => match e with Edge _ now => Some now | Poll _ => l end)
    events last.

Lemma polls_after_snoc last events now :
  polls_after last events ->
  (forall t, last_edge_of last events = Some t -> t <= now) ->
  polls_after last (events ++ [Poll now]).
Proof.
  revert last. induction events as [|[bit now'|now'] events IH]; intros last; simpl.
  - intros _ Ht. split; [|done]. destruct last; [by apply Ht|done].
  - apply IH.
  - intros [? ?] ?. split; [done|]. by apply IH.
Qed.

Definition bits_of (events : list CaptureEvent) : list bool :=
  omap (fun e => match e with Edge bit _ => Some bit | Poll _ => None end) events.

Lemma spec_burst s events :
  (length s.1 <= MAX_BITS)%nat -> burst s.2 events ->
  spec_run_capture s events =
    ([], (lastn MAX_BITS (s.1 ++ bits_of events), last_edge_of s.2 events)).
Proof.
  revert s. induction events as [|[bit now|now] events IH]; intros [l last] Hcap Hb.
  - simpl. by rewrite app_nil_r, lastn_short.
  - simpl in *. rewrite IH; simpl; [|rewrite length_lastn; lia|done].
    do 2 f_equal. change (bits_of (Edge bit now :: events)) with (bit :: bits_of events).
    replace (l ++ bit :: bits_of events) with ((l ++ [bit]) ++ bits_of events)
      by (by rewrite <-app_assoc).
    symmetry. apply lastn_app.
  - simpl in *. destruct Hb as [Hgap Hb].
    assert (spec_poll (l, last) now = (None, (l, last))) as ->.
    { unfold spec_poll. simpl. destruct last; [|done].
      rewrite decide_False; [done|lia]. }
    by rewrite IH.
Qed.

Lemma spec_run_capture_app s es es' :
  spec_run_capture s (es ++ es') =
  let (frames, s) := spec_run_capture s es in
  let (frames', s) := spec_run_capture s es' in
  (frames ++ frames', s).
Proof.
  revert s. induction es as [|[bit now|now] es IH]; intros s; simpl.
  - by destruct (spec_run_capture s es').
  - apply IH.
  - destruct (spec_poll s now) as [frame s1]. rewrite IH.
    destruct (spec_run_capture s1 es) as [fs s2].
    destruct (spec_run_capture s2 es') as [fs' s3]. by rewrite app_assoc.
Qed.

Lemma spec_burst_then_silence events silence t :
  burst None events -> bits_of events <> [] ->
  last_edge_of None events = Some t -> MESSAGE_GAP <= silence - t ->
  spec_run_capture ([], None) (events ++ [Poll silence]) =
    ([lastn MAX_BITS (bits_of events)], ([], None)).
Proof.
  intros Hb Hne Ht Hgap.
  rewrite spec_run_capture_app, spec_burst by (done || simpl; lia). simpl.
  unfold spec_poll. simpl. rewrite Ht, decide_True; [done|]. split; [|done].
  intros Hnil. apply (f_equal length) in Hnil. rewrite length_lastn in Hnil.
  destruct (bits_of events); [done|]. unfold MAX_BITS in Hnil. simpl in Hnil. lia.
Qed.
End Capture.
Arguments CaptureState : clear implicits.

(** ** Properties *)

Section CaptureTheorems.
Context {I V : Type} `{!InputPin I, !HeaplessVec V}.
Context `{!InputPinLaws I, !HeaplessVecLaws V}.

(** One run of the interrupt handler never panics; it appends the
    pending bits, D0's zero before D1's one, drops the oldest bit instead of
    overflowing the 34-bit buffer, stamps the time of the last bit, and
    leaves no interrupt pending, so no pulse is counted twice. *)
Theorem on_gpio_interrupt_appends_pending (state : CaptureState I V) now0 now1 :
  exists state',
    on_gpio_interrupt (Some state) now0 now1 = Some (Some state') /\
    vec_to_list (bits state') =
      lastn MAX_BITS (vec_to_list (bits state) ++ (pending state now0 now1).*1) /\
    last_edge state' =
      from_option Some (last_edge state) (last (pending state now0 now1).*2) /\
    quiet state'.
Proof.
  destruct (on_gpio_interrupt_refines state now0 now1) as (s' & Hrun & Hc & Hq).
  exists s'. split; [done|].
  assert (Hpulses : forall ps (l : list bool) t, (length l <= MAX_BITS)%nat ->
    spec_pulses (l, t) ps = (lastn MAX_BITS (l ++ ps.*1), from_option Some t (last ps.*2))).
  { induction ps as [|[b t'] ps IH] using rev_ind; intros l t Hl.
    { simpl. by rewrite app_nil_r, lastn_short. }
    unfold spec_pulses in *. rewrite fold_left_app, IH by done. simpl.
    unfold spec_pulse. simpl. rewrite !fmap_app. cbn [fmap list_fmap fst snd].
    rewrite last_snoc. simpl. f_equal. rewrite <-lastn_app. by rewrite app_assoc. }
  unfold captured in Hc. rewrite Hpulses in Hc by apply vec_capacity.
  injection Hc as Hb Ht. done.
Qed.

(** C33. A burst is delivered once and whole: starting from an empty
    capture, edges that come with polls in between (each after the edge
    before it, by less than a full [MESSAGE_GAP]) yield no frame, and the first
    poll after a [MESSAGE_GAP] of silence yields exactly the burst's bits,
    oldest first (the last 34 of them if there are more), after which the
    capture is empty again. *)
Theorem burst_delivered_once (state : CaptureState I V) events silence t :
  quiet state -> captured (Some state) = ([], None) ->
  burst None events -> bits_of events <> [] ->
  last_edge_of None events = Some t -> MESSAGE_GAP <= silence - t ->
  exists frame state',
    run_capture (Some state) (events ++ [Poll silence]) = Some ([frame], Some state') /\
    vec_to_list frame = lastn MAX_BITS (bits_of events) /\
    quiet state' /\ captured (Some state') = ([], None).
Proof.
  intros Hq Hempty Hb Hne Ht Hgap.
  destruct (run_capture_refines state (events ++ [Poll silence]) Hq)
    as (frames & s' & Hrun & Hq' & Hspec).
  { rewrite Hempty. apply polls_after_snoc; [by apply burst_polls_after|].
    cbn [snd]. intros t'. rewrite Ht. intros [= <-]. unfold MESSAGE_GAP in Hgap. lia. }
  rewrite Hempty in Hspec.
  rewrite (spec_burst_then_silence _ _ t) in Hspec by done.
  pose proof (f_equal fst Hspec) as Hf. pose proof (f_equal snd Hspec) as Hc.
  cbn [fst snd] in Hf, Hc. destruct frames as [|frame [|]]; [done| |done].
  exists frame, s'. split_and!; [done| |done|done]. by injection Hf as <-.
Qed.
End CaptureTheorems.

(** ** The interfaces can be implemented: a pin as its interrupt flag, the
    bounded vector as a list with its bound *)

#[export] Instance flag_pin : InputPin bool := {
  listen := id; is_interrupt_set := id; clear_interrupt := fun _ => false;
  falling_edge := fun _ => true
}.
#[export] Instance flag_pin_laws : InputPinLaws bool.
Proof. done. Qed.

(** A list of which only the first [MAX_BITS] elements count. *)
#[export] Instance list_vec : HeaplessVec (list bool) := {
  vec_new := [];
  vec_is_full v := bool_decide (length (take MAX_BITS v) = MAX_BITS);
  vec_is_empty v := bool_decide (take MAX_BITS v = []);
  vec_remove v i :=
    b ← take MAX_BITS v !! i; Some (b, delete i (take MAX_BITS v));
  vec_push v b :=
    if bool_decide (length (take MAX_BITS v) = MAX_BITS) then (Err b, v)
    else (Ok tt, take MAX_BITS v ++ [b]);
  vec_to_list := take MAX_BITS
}.

#[export] Instance list_vec_laws : HeaplessVecLaws (list bool).
Proof.
  split; cbn [vec_new vec_is_full vec_is_empty vec_remove vec_push vec_to_list list_vec].
  - done.
  - intros v. apply bool_decide_eq_true.
  - intros v. apply bool_decide_eq_true.
  - intros v. rewrite length_take. lia.
  - intros v i b Hb. rewrite Hb. eexists. split; [done|].
    apply take_ge. rewrite length_delete by (by eexists). rewrite length_take. lia.
  - intros v b Hfull. rewrite Hfull. eexists. split; [done|].
    apply bool_decide_eq_false in Hfull. apply take_ge.
    assert (length (take MAX_BITS v) <= MAX_BITS)%nat by (rewrite length_take; lia).
    rewrite length_app. change (length [b]) with 1%nat. lia.
Qed.

(** The keypad's digit 5, two milliseconds between bits, with the main loop
    polling every five milliseconds, then silence. *)
Definition key_5_burst : list CaptureEvent :=
  [Edge false 1000; Edge true 3000; Poll 5000; Edge false 5000; Edge true 7000;
   Poll 10000; Poll 15000; Poll 30000].

Lemma burst_delivered_once_witness :
  exists frame state',
    run_capture (install false false None) (key_5_burst ++ [Poll 32000]) =
      Some ([frame], Some state') /\
    (vec_to_list frame : list bool) = [false; true; false; true] /\
    quiet state' /\ captured (Some state') = ([], None).
Proof.
  apply (burst_delivered_once
           (mkCaptureState (I := bool) (V := list bool) false false [] None)
           key_5_burst 32000 7000);
    first [reflexivity | discriminate | split; reflexivity | idtac].
  simpl. unfold MESSAGE_GAP. lia.
Defined.

Lemma on_gpio_interrupt_appends_pending_witness :
  exists state' : CaptureState bool (list bool),
    on_gpio_interrupt (Some (mkCaptureState true true [true] (Some 5))) 7 8 =
      Some (Some state') /\
    vec_to_list (bits state') = [true; false; true] /\ last_edge state' = Some 8.
Proof.
  destruct (on_gpio_interrupt_appends_pending (mkCaptureState true true [true] (Some 5)) 7 8)
    as (state' & Hrun & Hbits & Hlast & _).
  exists state'. split; [exact Hrun|]. split; [exact Hbits|exact Hlast].
Defined.
