(* ===== verification/Clock.v ===== *)
(** * firmware/build.rs and firmware/src/clock.rs: the lock's notion of now

    The build script prints the build's Unix time as a cargo directive; the
    firmware parses that text back at boot and adds the monotonic timer, a sum
    that panics beyond a [u64] in a build with overflow checks and wraps
    around in one without. *)

From S2P Require Import Prelude RustText Lock.
Local Open Scope Z_scope.

(** ** The build script *)

Definition directive : string := "cargo:rustc-env=LOCK_CLIENT_BUILD_EPOCH=".

(** [SystemTime::now()] in whole seconds relative to the Unix epoch; [None] is
    the [expect] on a clock set before it. *)
Definition build_main (system_time : Z) : option string :=
  if decide (0 <= system_time) then Some (directive +:+ to_string system_time)
  else None.

(** The variable cargo sets for [env!] from the directive line. *)
Definition rustc_env (line : string) : option string := strip_prefix directive line.

(** ** The clock *)

Record SystemClock := mkSystemClock { boot_epoch : Z }.

(** [env!(..).parse().expect(..)]. *)
Definition start (env : string) : option SystemClock :=
  match parse_uint 64 env with
  | Ok epoch => Some {| boot_epoch := epoch |}
  | Err _ => None
  end.

(** [Instant::now().duration_since_epoch().as_secs()] on a microsecond timer. *)
Definition as_secs (now : Z) : Z := now / 1000000.

(** The value of the sum: where a build checks for overflow, [clock_panics]
    says when there is none. *)
Definition system_unix_seconds (self : SystemClock) (now : Z) : Z :=
  as_u64 (boot_epoch self + as_secs now).

(** Whether the build has overflow checks: cargo's debug builds do, its release
    builds, which neither Cargo.toml overrides, wrap around instead. *)
Class BuildProfile := overflow_checks : bool.

Definition checked_build : BuildProfile := true.
Definition release_build : BuildProfile := false.

(** The [u64] addition panics. *)
Definition clock_panics `{BuildProfile} (self : SystemClock) (now : Z) : bool :=
  overflow_checks && bool_decide (u64_max < boot_epoch self + as_secs now).

Lemma clock_reads `{BuildProfile} self now :
  (overflow_checks = true -> boot_epoch self + as_secs now <= u64_max) ->
  clock_panics self now = false.
Proof.
  unfold clock_panics. destruct overflow_checks; [|done]. intros Hfit.
  specialize (Hfit eq_refl). apply bool_decide_eq_false. lia.
Qed.

(** The clock as the controller sees it: the struct and the current instant. *)
#[export] Instance system_clock : Clock (SystemClock * Z) :=
  fun '(self, now) => system_unix_seconds self now.

(** ** Properties *)

(** The build epoch survives its trip through text: for every build time
    the script accepts and a [u64] holds, the directive it prints gives an
    environment variable that the firmware parses back to that time, so [start]
    does not panic; from then on the clock reads build time plus whole seconds
    since boot as long as that sum fits, never going backwards. *)
Theorem build_epoch_round_trip t now now' :
  is_uint 64 t -> 0 <= now <= now' -> t + as_secs now' <= u64_max ->
  exists line env,
    build_main t = Some line /\ rustc_env line = Some env /\
    start env = Some {| boot_epoch := t |} /\
    system_unix_seconds {| boot_epoch := t |} now = t + as_secs now /\
    system_unix_seconds {| boot_epoch := t |} now <=
      system_unix_seconds {| boot_epoch := t |} now'.
Proof.
  intros Ht Hnow Hfit. unfold build_main. rewrite decide_True by (by destruct Ht).
  eexists _, _. split; [done|]. split; [apply strip_prefix_app|].
  unfold start. rewrite parse_to_string by (done || lia).
  assert (Hmono : 0 <= as_secs now <= as_secs now').
  { unfold as_secs. split; [apply Z.div_pos; lia|apply Z.div_le_mono; lia]. }
  unfold system_unix_seconds, is_uint, u64_max in *. cbn [boot_epoch].
  rewrite !as_u64_small by (unfold is_uint; lia). split_and!; [done..|lia].
Qed.

Lemma build_epoch_round_trip_witness :
  exists line env,
    build_main 1767225600 = Some line /\ rustc_env line = Some env /\
    start env = Some {| boot_epoch := 1767225600 |} /\
    system_unix_seconds {| boot_epoch := 1767225600 |} 2500000 = 1767225602 /\
    system_unix_seconds {| boot_epoch := 1767225600 |} 2500000 <=
      system_unix_seconds {| boot_epoch := 1767225600 |} 9000000.
Proof.
  apply (build_epoch_round_trip 1767225600 2500000 9000000).
  - split; [discriminate | reflexivity].
  - split; discriminate.
  - discriminate.
Defined.
