(* ===== verification/Firmware.v ===== *)
(** * firmware/src/main.rs and actuator.rs: the lock's main loop

    [boot] is everything [main] does before its loop and [iteration] is the
    loop's body, with the instants each clock call returns as arguments and
    the console lines as output.  The interrupt handler and the loop share
    only the capture state, which the loop touches once per iteration, inside
    one critical section at its start; so every interleaving of the two is a
    sequence of whole [Interrupt] and [Iterate] events.  A clock operation
    that leaves its range panics the whole step ([None]); what keeps instants
    in range is [event_fits], and [ordered] says they are in order. *)

From S2P Require Import Prelude RustText Rfc6238 Sha1 Wiegand PinEntry Totp Lock.
From S2P Require Import Capture Clock.
Local Open Scope Z_scope.

(** ** The relay pin, [esp_hal::gpio::Output] *)

Inductive Level := Low | High.

#[export] Instance Level_eq_dec : EqDecision Level.
Proof. solve_decision. Defined.

Class OutputPin (P : Type) := {
  output_new : Level -> P;
  set_high : P -> P;
  set_low : P -> P;
  (** The level the pin is driven to. *)
  level : P -> Level
}.

Class OutputPinLaws (P : Type) `{OutputPin P} : Prop := {
  level_new l : level (output_new l) = l;
  level_set_high p : level (set_high p) = High;
  level_set_low p : level (set_low p) = Low;
  set_high_again p : level p = High -> set_high p = p;
  set_low_again p : level p = Low -> set_low p = p
}.

(** ** actuator.rs *)

Record BoltActuator (P : Type) := bolt_new { relay : P }.
Arguments bolt_new {P} relay.
Arguments relay {P} b.

#[export] Instance bolt_actuator `{OutputPin P} : Actuator (BoltActuator P) := {
  unlock self := bolt_new (set_high (relay self));
  lock self := bolt_new (set_low (relay self))
}.

(** The bolt keeps the [Actuator] trait's promise. *)
#[export] Instance bolt_actuator_laws `{OutputPinLaws P} :
  ActuatorLaws (BoltActuator P).
Proof.
  split; intros [p]; simpl; f_equal.
  - apply set_high_again, level_set_high.
  - apply set_low_again, level_set_low.
Qed.

(** ** main.rs *)

(** The secret is a constant of the image, so each lock is a build of this
    source with its own: the model is parametric in it. *)
Class LockSecret := SECRET : list Z.

(** The constant as it stands in the repository. *)
Definition placeholder_secret : LockSecret :=
  bytes_of_string "CHANGE ME: provision a real per-lock secret".

Definition SKEW_STEPS : Z := 1.
(** [Duration::from_secs(5)] in microseconds. *)
Definition UNLOCK_DURATION : Z := 5000000.
Definition POLL_INTERVAL_MS : Z := 5.

(** What the clock calls of one iteration return, in the order they happen:
    the poll, the controller's clock, the deadline's start, the relock check. *)
Record Times := mkTimes { t_poll : Z; t_clock : Z; t_granted : Z; t_check : Z }.

(** Whether [on_frame] comes to read the clock. *)
Definition asks_time (self : LockController) (frame : Frame) : bool :=
  match frame_key frame with
  | Some key =>
      match push (entry self) key with
      | Some (Ready _, _) => true
      | _ => false
      end
  | None => false
  end.

Section Firmware.
Context `{!TotpEmbed, !LockSecret, !BuildProfile} {I V P : Type}.
Context `{!InputPin I, !HeaplessVec V, !OutputPin P}.

Record MainState := mkMainState {
  capture : option (CaptureState I V);
  controller : LockController;
  clock : SystemClock;
  actuator : BoltActuator P;
  relock_at : option Z
}.

Definition with_capture (st : MainState) c : MainState :=
  {| capture := c; controller := controller st; clock := clock st;
     actuator := actuator st; relock_at := relock_at st |}.

(** [d0] and [d1] are the two configured input pins, [env] the build epoch's
    text; [None] is a panic. *)
Definition boot (d0 d1 : I) (env : string) : option MainState :=
  clock ← start env;
  Some {| capture := install d0 d1 None;
          controller := Lock.new SECRET SKEW_STEPS;
          clock := clock;
          actuator := bolt_new (output_new Low);
          relock_at := None |}.

(** The body of [if let Some(bits) = take_completed_frame()].  A clock that
    panics ends the call that reads it, so it is as if before it. *)
Definition handle_bits (st : MainState) (bits : list bool) (t_clock t_granted : Z) :
    option (MainState * list string) :=
  frame ← decode_frame bits;
  if asks_time (controller st) frame && clock_panics (clock st) t_clock then None
  else
    '(outcome, controller', actuator') ←
      on_frame (controller st) frame (clock st, t_clock) (actuator st);
    '(relock_at', console) ←
      match outcome with
      | Unlocked =>
          deadline ← instant_plus t_granted UNLOCK_DURATION;
          Some (Some deadline, ["access granted"%string])
      | Rejected => Some (relock_at st, ["access denied"%string])
      | Waiting => Some (relock_at st, [])
      end;
    Some ({| capture := capture st; controller := controller'; clock := clock st;
             actuator := actuator'; relock_at := relock_at' |}, console).

(** The body of [if let Some(at) = relock_at]. *)
Definition relock (st : MainState) (t_check : Z) : MainState * list string :=
  match relock_at st with
  | Some deadline =>
      if decide (deadline <= t_check)
      then ({| capture := capture st; controller := controller st;
               clock := clock st; actuator := lock (actuator st);
               relock_at := None |}, ["re-locked"%string])
      else (st, [])
  | None => (st, [])
  end.

Definition iteration (st : MainState) (ts : Times) :
    option (MainState * list string) :=
  '(frame, capture') ← take_completed_frame (capture st) (t_poll ts);
  let st := with_capture st capture' in
  '(st, console) ←
    match frame with
    | Some bits => handle_bits st (vec_to_list bits) (t_clock ts) (t_granted ts)
    | None => Some (st, [])
    end;
  let (st, console') := relock st (t_check ts) in
  Some (st, console ++ console').

(** ** Histories *)

Inductive Event :=
(** Falling edges on D0 ([false]) and D1 ([true]), then the handler. *)
| Interrupt (edges : list bool) (now0 now1 : Z)
| Iterate (ts : Times).

Definition step (st : MainState) (e : Event) : option (MainState * list string) :=
  match e with
  | Interrupt edges now0 now1 =>
      capture' ← on_gpio_interrupt
                   (fold_left (fun c bit => raise_edge bit c) edges (capture st))
                   now0 now1;
      Some (with_capture st capture', [])
  | Iterate ts => iteration st ts
  end.

Fixpoint run (st : MainState) (events : list Event) :
    option (MainState * list string) :=
  match events with
  | [] => Some (st, [])
  | e :: events =>
      '(st, console) ← step st e;
      '(st, console') ← run st events;
      Some (st, console ++ console')
  end.

(** The frames the loop hands to the controller during a history, each with
    the clock it is judged by. *)
Fixpoint fed (st : MainState) (events : list Event) :
    list (Frame * (SystemClock * Z)) :=
  match events with
  | [] => []
  | e :: events =>
      match e with
      | Interrupt _ _ _ => []
      | Iterate ts =>
          match take_completed_frame (capture st) (t_poll ts) with
          | Some (Some bits, _) =>
              match decode_frame (vec_to_list bits) with
              | Some frame => [(frame, (clock st, t_clock ts))]
              | None => []
              end
          | Some (None, _) | None => []
          end
      end ++
      match step st e with
      | Some (st, _) => fed st events
      | None => []
      end
  end.

(** ** Invariant *)

(** What the lock shows of itself: the relay is driven exactly while a
    deadline is armed. *)
Definition released (st : MainState) : Prop := level (relay (actuator st)) = High.

#[export] Instance released_dec st : Decision (released st).
Proof. unfold released. apply _. Defined.

Definition main_wf (st : MainState) : Prop :=
  wf (entry (controller st)) /\ secret (controller st) = SECRET /\
  skew_steps (controller st) = SKEW_STEPS /\
  (released st <-> is_Some (relock_at st)).

Definition lock_accepts : list Z -> Z -> bool :=
  fun code now => matches SECRET code now SKEW_STEPS.

Definition typed_so_far (st : MainState) : list Z := typed (entry (controller st)).

(** How often the console says that access was granted. *)
Definition grants (console : list string) : nat :=
  length (filter (fun line => line = "access granted"%string) console).

Lemma grants_app c c' : grants (c ++ c') = (grants c + grants c')%nat.
Proof. unfold grants. by rewrite filter_app, length_app. Qed.

Lemma unlocks_app os os' : unlocks (os ++ os') = (unlocks os + unlocks os')%nat.
Proof. unfold unlocks. by rewrite filter_app, length_app. Qed.

(** The deadline after an iteration that granted access [n] times. *)
Definition deadline_after (armed : option Z) (n : nat) (ts : Times) : option Z :=
  let armed := if decide (n = 0%nat) then armed
               else Some (t_granted ts + UNLOCK_DURATION) in
  match armed with
  | Some deadline => if decide (deadline <= t_check ts) then None else armed
  | None => None
  end.

Context `{!InputPinLaws I, !HeaplessVecLaws V, !OutputPinLaws P}.

Lemma boot_wf d0 d1 env st :
  boot d0 d1 env = Some st ->
  main_wf st /\ typed_so_far st = [] /\ relock_at st = None.
Proof.
  unfold boot. intros (c & _ & Hst)%bind_Some. simplify_eq.
  split_and!; [|done..]. split_and!; [apply wf_new|done..|].
  unfold released. simpl. rewrite level_new. split; [done|]. by intros [? ?].
Qed.

(** [asks_time] is what it says: a call that does not ask gives the same
    whatever the clock would have read. *)
Lemma on_frame_without_time {C A : Type} `{!Clock C, !Actuator A} self frame (c c' : C) (a : A) :
  asks_time self frame = false -> on_frame self frame c a = on_frame self frame c' a.
Proof.
  unfold asks_time, on_frame. destruct (frame_key frame) as [key|]; [|done].
  by destruct (push (entry self) key) as [[[|code] entry']|].
Qed.

Lemma handle_bits_spec st bits tc tg st' console :
  main_wf st -> handle_bits st bits tc tg = Some (st', console) ->
  exists frame outcome,
    decode_frame bits = Some frame /\ main_wf st' /\
    capture st' = capture st /\ clock st' = clock st /\
    spec_on_frames lock_accepts (typed_so_far st) [(frame, (clock st, tc))] =
      ([outcome], typed_so_far st') /\
    unlocks [outcome] = grants console /\
    relock_at st' = if decide (outcome = Unlocked)
                    then Some (tg + UNLOCK_DURATION) else relock_at st.
Proof.
  intros (Hwf & Hs & Hk & Hrel). unfold handle_bits.
  destruct (decode_frame_wf bits) as (frame & -> & _). cbn [mbind option_bind].
  destruct (asks_time _ _ && _); [done|].
  destruct (on_frame_refines (controller st) frame (clock st, tc) (actuator st) Hwf)
    as (o & c' & act' & -> & Hwf' & Hs' & Hk' & Hspec & ->). cbn [mbind option_bind].
  unfold accepts in Hspec. rewrite Hs, Hk in Hspec. fold lock_accepts in Hspec.
  intros ([armed con] & Harm & [= <- <-])%bind_Some.
  assert (Hfed : spec_on_frames lock_accepts (typed_so_far st) [(frame, (clock st, tc))] =
            ([o], typed (entry c'))).
  { cbn [spec_on_frames]. unfold typed_so_far. by rewrite Hspec. }
  exists frame, o. unfold typed_so_far at 2. cbn [capture clock controller relock_at].
  destruct o; cbn [mbind option_bind] in Harm; [|apply bind_Some in Harm
    as (deadline & [_ ->]%instant_plus_Some & Harm)|]; simplify_eq;
    (split; [done|]); (split; [|by split_and!]);
    split_and!; simpl; try done; try congruence.
  unfold released. simpl. rewrite level_set_high. by split; eauto.
Qed.

(** The instants an iteration reads, apart from the poll's, leave room for the
    sums made of them. *)
Definition reads_fit (c : SystemClock) (ts : Times) : Prop :=
  t_granted ts + UNLOCK_DURATION <= u64_max /\
  (overflow_checks = true -> boot_epoch c + as_secs (t_clock ts) <= u64_max).

Lemma handle_bits_total st bits ts :
  main_wf st -> reads_fit (clock st) ts ->
  is_Some (handle_bits st bits (t_clock ts) (t_granted ts)).
Proof.
  intros (Hwf & _) [Hg Hc]. unfold handle_bits.
  destruct (decode_frame_wf bits) as (frame & -> & _). cbn [mbind option_bind].
  rewrite clock_reads, andb_false_r by done.
  destruct (on_frame_refines (controller st) frame (clock st, t_clock ts) (actuator st) Hwf)
    as (o & c' & act' & -> & _). cbn [mbind option_bind].
  destruct o; cbn [mbind option_bind]; [by eexists| |by eexists].
  rewrite (proj2 (instant_plus_Some _ _ _) (conj Hg eq_refl)). by eexists.
Qed.

Lemma relock_spec st t :
  main_wf st ->
  let (st', console) := relock st t in
  main_wf st' /\ capture st' = capture st /\ controller st' = controller st /\
  clock st' = clock st /\ grants console = 0%nat /\
  relock_at st' = match relock_at st with
                  | Some deadline => if decide (deadline <= t) then None
                                     else relock_at st
                  | None => None
                  end.
Proof.
  intros Hst. unfold relock. destruct (relock_at st) as [deadline|] eqn:Hd;
    [|by rewrite Hd].
  case_decide; [|by rewrite Hd]. split_and!; try done.
  destruct Hst as (Hwf & Hs & Hk & _). split_and!; try done.
  unfold released. simpl. rewrite level_set_low. split; [done|]. by intros [? ?].
Qed.

Lemma iteration_spec st ts st' console :
  main_wf st -> iteration st ts = Some (st', console) ->
  exists outcomes,
    main_wf st' /\ clock st' = clock st /\
    (exists frame, take_completed_frame (capture st) (t_poll ts) = Some (frame, capture st')) /\
    spec_on_frames lock_accepts (typed_so_far st) (fed st [Iterate ts]) =
      (outcomes, typed_so_far st') /\
    unlocks outcomes = grants console /\
    relock_at st' = deadline_after (relock_at st) (unlocks outcomes) ts.
Proof.
  intros Hst Hit. unfold fed. unfold step. rewrite Hit, app_nil_r. unfold iteration in Hit.
  destruct (take_completed_frame (capture st) (t_poll ts)) as [[[bits|] capture']|];
    [| |done]; cbn [mbind option_bind] in Hit.
  - apply bind_Some in Hit as ([st1 con] & Hh & Hit).
    destruct (handle_bits_spec (with_capture st capture') _ _ _ _ _ Hst Hh)
      as (frame & o & -> & Hst1 & Hcap & Hck & Hspec & Hg & Hr).
    pose proof (relock_spec st1 (t_check ts) Hst1) as Hl.
    destruct (relock st1 (t_check ts)) as [st2 con']. injection Hit as <- <-.
    destruct Hl as (Hst2 & Hcap2 & Hc2 & Hck2 & Hg2 & Hr2).
    exists [o]. split_and!; try done.
    + rewrite Hck2. exact Hck.
    + eexists. by rewrite Hcap2, Hcap.
    + refine (eq_trans Hspec _). unfold typed_so_far. by rewrite Hc2.
    + rewrite grants_app. lia.
    + rewrite Hr2, Hr. unfold deadline_after. by destruct o.
  - pose proof (relock_spec (with_capture st capture') (t_check ts) Hst) as Hl.
    destruct (relock _ (t_check ts)) as [st2 con']. injection Hit as <- <-.
    destruct Hl as (Hst2 & Hcap2 & Hc2 & Hck2 & Hg2 & Hr2).
    exists []. split_and!; try done; [eexists; by rewrite Hcap2|].
    cbn [spec_on_frames]. unfold typed_so_far. by rewrite Hc2.
Qed.

(** What an iteration asks of its instants: the poll's is not before the last
    edge's, and the others fit. *)
Definition iteration_fits (st : MainState) (ts : Times) : Prop :=
  (forall last, (captured (capture st)).2 = Some last -> last <= t_poll ts) /\
  reads_fit (clock st) ts.

Lemma iteration_total st ts :
  main_wf st -> iteration_fits st ts -> is_Some (iteration st ts).
Proof.
  intros Hst [Hle Hfit]. unfold iteration.
  destruct (take_completed_frame_total _ _ Hle) as [[frame capture'] ->].
  cbn [mbind option_bind].
  assert (is_Some match frame with
      | Some bits => handle_bits (with_capture st capture') (vec_to_list bits)
                       (t_clock ts) (t_granted ts)
      | None => Some (with_capture st capture', [])
      end) as [[st1 con] ->].
  { destruct frame; [by apply handle_bits_total|by eexists]. }
  cbn [mbind option_bind]. destruct (relock st1 (t_check ts)). by eexists.
Qed.

Lemma on_gpio_interrupt_total (c : option (CaptureState I V)) now0 now1 :
  exists c', on_gpio_interrupt c now0 now1 = Some c'.
Proof.
  destruct c as [c|]; [|by exists None].
  destruct (on_gpio_interrupt_refines c now0 now1) as (c' & ? & _). by exists (Some c').
Qed.

Lemma step_spec st e st' console :
  main_wf st -> step st e = Some (st', console) ->
  exists outcomes,
    main_wf st' /\ clock st' = clock st /\
    spec_on_frames lock_accepts (typed_so_far st) (fed st [e]) =
      (outcomes, typed_so_far st') /\
    unlocks outcomes = grants console /\
    relock_at st' = match e with
                    | Interrupt _ _ _ => relock_at st
                    | Iterate ts => deadline_after (relock_at st) (unlocks outcomes) ts
                    end.
Proof.
  intros Hst Hstep. destruct e as [edges now0 now1|ts].
  - unfold fed. rewrite Hstep. apply bind_Some in Hstep as (c' & _ & [= <- <-]).
    by exists [].
  - destruct (iteration_spec st ts _ _ Hst Hstep) as (os & Hst' & Hck & _ & Hspec & Hg & Hr).
    by exists os.
Qed.

Lemma step_total st e :
  main_wf st ->
  match e with Interrupt _ _ _ => True | Iterate ts => iteration_fits st ts end ->
  is_Some (step st e).
Proof.
  intros Hst He. destruct e as [edges now0 now1|ts]; [|by apply iteration_total].
  unfold step. destruct (on_gpio_interrupt_total
    (fold_left (fun c bit => raise_edge bit c) edges (capture st)) now0 now1)
    as (c' & ->). by eexists.
Qed.

Lemma fed_cons st e events st' console :
  step st e = Some (st', console) -> fed st (e :: events) = fed st [e] ++ fed st' events.
Proof. intros Hs. cbn [fed]. rewrite Hs. by rewrite app_nil_r. Qed.

Lemma run_spec st events st' console :
  main_wf st -> run st events = Some (st', console) ->
  exists outcomes,
    main_wf st' /\ clock st' = clock st /\
    spec_on_frames lock_accepts (typed_so_far st) (fed st events) =
      (outcomes, typed_so_far st') /\
    unlocks outcomes = grants console.
Proof.
  revert st st' console. induction events as [|e events IH]; intros st st' console Hst.
  { intros [= <- <-]. by exists []. }
  cbn [run]. intros ([st1 con1] & Hs & ([st2 con2] & Hr & [= <- <-])%bind_Some)%bind_Some.
  destruct (step_spec st e _ _ Hst Hs) as (os1 & Hst1 & Hck1 & Hspec1 & Hg1 & _).
  destruct (IH st1 _ _ Hst1 Hr) as (os2 & Hst2 & Hck2 & Hspec2 & Hg2).
  exists (os1 ++ os2). split_and!; [done|congruence| |].
  - rewrite (fed_cons _ _ _ _ _ Hs), spec_on_frames_app, Hspec1.
    cbn iota beta. by rewrite Hspec2.
  - by rewrite unlocks_app, grants_app, Hg1, Hg2.
Qed.

Lemma run_app st events events' :
  run st (events ++ events') =
  '(st, console) ← run st events;
  '(st, console') ← run st events';
  Some (st, console ++ console').
Proof.
  revert st. induction events as [|e events IH]; intros st; simpl.
  - by destruct (run st events') as [[]|].
  - destruct (step st e) as [[st1 con1]|]; simpl; [|done]. rewrite IH.
    destruct (run st1 events) as [[st2 con2]|]; simpl; [|done].
    destruct (run st2 events') as [[st3 con3]|]; simpl; [|done].
    by rewrite app_assoc.
Qed.

Lemma fed_app st events events' st' console :
  run st events = Some (st', console) ->
  fed st (events ++ events') = fed st events ++ fed st' events'.
Proof.
  revert st st' console. induction events as [|e events IH]; intros st st' console.
  { simpl. intros. by simplify_eq. }
  cbn [run app]. intros ([st1 con1] & Hs & ([st2 con2] & Hr & ?)%bind_Some)%bind_Some.
  simplify_eq. rewrite (fed_cons _ _ _ _ _ Hs), (fed_cons _ _ events _ _ Hs).
  rewrite (IH _ _ _ Hr). by rewrite app_assoc.
Qed.

(** Frames fed to the controller carry decimal digits only. *)
Lemma fed_digits st events d :
  PinEntry.Digit d ∈ keys_of (fed st events) -> is_digit d.
Proof.
  unfold keys_of. rewrite list_elem_of_omap. intros (f & Hf & Hk).
  apply list_elem_of_fmap in Hf as ([f' c] & -> & Hf). simpl in Hk.
  revert st Hf. induction events as [|e events IH]; intros st; [by intros ?%elem_of_nil|].
  cbn [fed]. rewrite elem_of_app. intros [Hf|Hf].
  - destruct e as [|ts]; [by apply elem_of_nil in Hf|].
    destruct (take_completed_frame (capture st) (t_poll ts)) as [[[bits|] c']|];
      [|by apply elem_of_nil in Hf..].
    destruct (decode_frame_wf (vec_to_list bits)) as (g & Hg & Hwf).
    rewrite Hg in Hf. apply list_elem_of_singleton in Hf. injection Hf as -> ->.
    destruct g; simplify_eq/=. by destruct Hwf.
  - destruct (step st e) as [[st1 con]|]; [eauto|by apply elem_of_nil in Hf].
Qed.

(** ** Deadlines *)

Definition checks (events : list Event) : list Z :=
  omap (fun e => match e with Iterate ts => Some (t_check ts) | _ => None end) events.

(** Without a new grant the deadline survives exactly the checks before it. *)
Lemma run_deadline st events st' console :
  main_wf st -> run st events = Some (st', console) -> grants console = 0%nat ->
  relock_at st' = match relock_at st with
                  | Some deadline =>
                      if decide (Forall (fun t => t < deadline) (checks events))
                      then Some deadline else None
                  | None => None
                  end.
Proof.
  revert st console. induction events as [|e events IH]; intros st console Hst.
  { cbn [run]. intros [= <- <-] _. destruct (relock_at st); [|done].
    by rewrite decide_True by constructor. }
  cbn [run]. intros ([st1 con1] & Hs & ([st2 con2] & Hr & ?)%bind_Some)%bind_Some Hg.
  simplify_eq. rewrite grants_app in Hg.
  destruct (step_spec st e _ _ Hst Hs) as (os & Hst1 & _ & _ & Hg' & Hd).
  assert (unlocks os = 0%nat) as Hz by lia. rewrite Hz in Hd.
  rewrite (IH _ _ Hst1 Hr), Hd by lia.
  destruct e as [|ts]; [done|]. unfold deadline_after. rewrite decide_True by done.
  destruct (relock_at st) as [deadline|]; [|done].
  change (checks (Iterate ts :: events)) with (t_check ts :: checks events).
  case_decide; [|].
  - rewrite decide_False; [done|]. rewrite Forall_cons. lia.
  - apply decide_ext. rewrite Forall_cons. naive_solver lia.
Qed.

(** ** Histories whose instants are those of one clock *)

(** The edges and polls of a history come in the order of time. *)
Fixpoint ordered (now : Z) (events : list Event) : Prop :=
  match events with
  | [] => True
  | Interrupt _ now0 now1 :: events => now <= now0 <= now1 /\ ordered now1 events
  | Iterate ts :: events => now <= t_poll ts /\ ordered (t_poll ts) events
  end.

Definition moment (now : Z) (e : Event) : Z :=
  match e with
  | Interrupt _ _ now1 => now1
  | Iterate ts => t_poll ts
  end.

(** When the last of them comes. *)
Definition last_moment (now : Z) (events : list Event) : Z := fold_left moment events now.

Lemma raised_edges (edges : list bool) (c : option (CaptureState I V)) :
  captured (fold_left (fun c bit => raise_edge bit c) edges c) = captured c.
Proof.
  revert c. induction edges as [|bit edges IH]; intros c; [done|]. simpl. rewrite IH.
  by destruct c, bit.
Qed.

(** The handler stamps the last edge with one of its two instants. *)
Lemma interrupt_last_edge c now0 now1 (c' : option (CaptureState I V)) l :
  on_gpio_interrupt c now0 now1 = Some c' -> (captured c').2 = Some l ->
  (captured c).2 = Some l \/ l = now0 \/ l = now1.
Proof.
  destruct c as [state|]; [|by intros [= <-]].
  destruct (on_gpio_interrupt_refines state now0 now1) as (state' & Hrun & Hcap & _).
  rewrite Hrun. intros [= <-]. rewrite Hcap. unfold pending, spec_pulses, spec_pulse.
  repeat case_match; simpl; naive_solver.
Qed.

(** What a poll leaves of the last edge. *)
Lemma take_last_edge (c : option (CaptureState I V)) now frame c' :
  take_completed_frame c now = Some (frame, c') ->
  match frame with
  | Some _ => exists l, (captured c).2 = Some l /\ MESSAGE_GAP <= now - l /\ (captured c').2 = None
  | None => captured c' = captured c
  end.
Proof.
  intros Ht%take_completed_frame_refines. revert Ht. unfold spec_poll.
  destruct (captured c) as [l [last|]] eqn:Hc; cbn [fst snd].
  - case_decide as Hd; intros Ht; pose proof (f_equal fst Ht) as Hf;
      apply (f_equal snd) in Ht; cbn [fst snd] in *; destruct frame; try done.
    exists last. rewrite <-Ht. split_and!; [done|apply Hd|done].
  - intros Ht. pose proof (f_equal fst Ht) as Hf.
    apply (f_equal snd) in Ht. by destruct frame.
Qed.

(** The instants a history reads leave room for the sums made of them. *)
Definition event_fits (c : SystemClock) (e : Event) : Prop :=
  match e with
  | Interrupt _ _ _ => True
  | Iterate ts => reads_fit c ts
  end.

#[export] Instance event_fits_dec c e : Decision (event_fits c e).
Proof. destruct e; unfold event_fits, reads_fit; apply _. Defined.

(** The last edge is in the past. *)
Definition edge_before (now : Z) (st : MainState) : Prop :=
  forall last, (captured (capture st)).2 = Some last -> last <= now.

Lemma step_edge_before st e st' console now :
  main_wf st -> step st e = Some (st', console) -> ordered now [e] -> edge_before now st ->
  edge_before (moment now e) st'.
Proof.
  intros Hst Hstep Hord Hlast l Hl. destruct e as [edges now0 now1|ts]; cbn [ordered moment] in *.
  - apply bind_Some in Hstep as (c' & Hc & [= <- <-]).
    eapply interrupt_last_edge in Hc; [|done]. rewrite raised_edges in Hc.
    destruct Hc as [Hc%Hlast|Hc]; lia.
  - destruct (iteration_spec st ts _ _ Hst Hstep) as (_ & _ & _ & (frame & Ht) & _).
    apply take_last_edge in Ht. destruct frame.
    + destruct Ht as (_ & _ & _ & Hn). congruence.
    + rewrite Ht in Hl. apply Hlast in Hl. lia.
Qed.

Lemma ordered_cons now e events :
  ordered now (e :: events) <-> ordered now [e] /\ ordered (moment now e) events.
Proof. destruct e; simpl; tauto. Qed.

Lemma run_total st events now :
  main_wf st -> ordered now events -> edge_before now st ->
  Forall (event_fits (clock st)) events -> is_Some (run st events).
Proof.
  revert st now. induction events as [|e events IH]; intros st now Hst; [by eexists|].
  intros [Hord1 Hord2]%ordered_cons Hlast [He Hfit]%Forall_cons. cbn [run].
  destruct (step_total st e Hst) as [[st1 con1] Hs].
  { destruct e as [|ts]; [done|]. split; [|done]. intros l Hl%Hlast. simpl in Hord1. lia. }
  destruct (step_spec st e _ _ Hst Hs) as (_ & Hst1 & Hck & _).
  destruct (IH st1 (moment now e) Hst1 Hord2) as [[st2 con2] Hr].
  { eapply step_edge_before; [exact Hst|exact Hs|exact Hord1|exact Hlast]. }
  { by rewrite Hck. }
  rewrite Hs. cbn [mbind option_bind]. rewrite Hr. by eexists.
Qed.

(** ** Typing at the keypad *)

(** A history as the capture sees it. *)
Definition captures (e : Event) (c : CaptureEvent) : Prop :=
  match e, c with
  | Interrupt [bit] now0 now1, Edge bit' now => bit = bit' /\ now0 = now /\ now1 = now
  | Iterate ts, Poll now => t_poll ts = now
  | _, _ => False
  end.

(** One key press: the four pulses of its code on the data lines, with any
    number of loop iterations in between, and the iteration that finds the
    lines silent. *)
Record KeyPress := mkKeyPress { key_code : Z; pulses : list Event; silence : Times }.

Definition key_press_ok (k : KeyPress) : Prop :=
  exists ces t,
    Forall2 captures (pulses k) ces /\ burst None ces /\
    bits_of ces = nibble (key_code k) /\ last_edge_of None ces = Some t /\
    MESSAGE_GAP <= t_poll (silence k) - t.

Definition key_events (k : KeyPress) : list Event := pulses k ++ [Iterate (silence k)].

(** The lines are quiet and no bit is buffered. *)
Definition idle (st : MainState) : Prop :=
  exists c, capture st = Some c /\ quiet c /\ captured (Some c) = ([], None).

(** The key a code of the keypad's table stands for. *)
Definition key_frame (v : Z) : Frame :=
  if decide (v = 10) then Wiegand.Cancel
  else if decide (v = 11) then Wiegand.Enter else Wiegand.Digit v.

Lemma decode_key v : 0 <= v <= 11 -> decode_frame (nibble v) = Some (key_frame v).
Proof.
  intros Hv. change (decode_frame (nibble v)) with (Some (decode_nibble (nibble v))).
  rewrite decode_nibble_value, bits_value_nibble by (done || lia). unfold key_frame.
  repeat case_decide; first [done|lia].
Qed.

(** A burst with nothing armed reaches the capture and nothing else. *)
Lemma run_burst st c events ces :
  main_wf st -> relock_at st = None -> capture st = Some c -> quiet c ->
  Forall2 captures events ces -> burst (captured (Some c)).2 ces ->
  exists c', run st events = Some (with_capture st (Some c'), []) /\ quiet c' /\
    fed st events = [] /\
    captured (Some c') = (lastn MAX_BITS ((captured (Some c)).1 ++ bits_of ces),
                          last_edge_of (captured (Some c)).2 ces).
Proof.
  intros Hst Hr Hcap Hq Hces. revert c st Hst Hr Hcap Hq.
  induction Hces as [|e ce events ces He Hces IH]; intros c st Hst Hr Hcap Hq Hb.
  { exists c. destruct st; simpl in *. subst. split_and!; try done.
    rewrite app_nil_r, lastn_short by apply vec_capacity. done. }
  cbn [run fed]. destruct e as [[|bit [|]] now0 now1|ts], ce as [bit' now|now];
    try done; simpl in He.
  - destruct He as (-> & -> & ->). cbn [step fold_left]. rewrite Hcap. cbn [raise_edge].
    set (c1 := if bit' then _ else _).
    destruct (on_gpio_interrupt_refines c1 now now) as (c2 & -> & Hc2 & Hq2).
    assert (Hpulse : captured (Some c2) = spec_pulse (captured (Some c)) bit' now).
    { rewrite Hc2. destruct Hq as [Hp0 Hp1]. unfold c1, pending.
      destruct bit'; simpl; by rewrite ?edge_sets, ?Hp0, ?Hp1. }
    simpl mbind. destruct (IH c2 (with_capture st (Some c2)))
      as (c3 & -> & Hq3 & -> & Hc3); [done..|by rewrite Hpulse|].
    exists c3. split_and!; try done. rewrite Hc3, Hpulse. cbn [spec_pulse fst snd].
    rewrite <-lastn_app, <-app_assoc. done.
  - simpl in Hb. destruct Hb as [Hgap Hb]. subst now.
    unfold step, iteration. rewrite Hcap in *.
    assert (take_completed_frame (Some c) (t_poll ts) = Some (None, Some c)) as Htake.
    { simpl in *. destruct (last_edge c) as [t|]; [|done].
      destruct (vec_is_empty (bits c)); [done|].
      rewrite (proj2 (instant_since_Some (t_poll ts) t _)) by (split; [lia|done]).
      cbn [mbind option_bind]. by rewrite decide_True by lia. }
    rewrite Htake. simpl mbind. unfold relock. cbn [with_capture relock_at].
    rewrite Hr. simpl mbind.
    destruct (IH c (with_capture st (Some c))) as (c3 & -> & Hq3 & -> & Hc3); [done..|].
    by exists c3.
Qed.

(** A key press feeds the controller its one frame, judged by the clock of
    the silent iteration, and leaves the lines idle. *)
Lemma run_key st k :
  main_wf st -> relock_at st = None -> idle st -> key_press_ok k ->
  reads_fit (clock st) (silence k) -> 0 <= key_code k <= 11 ->
  let fed' := [(key_frame (key_code k), (clock st, t_clock (silence k)))] in
  exists outcomes st' console,
    run st (key_events k) = Some (st', console) /\ main_wf st' /\ idle st' /\
    clock st' = clock st /\ fed st (key_events k) = fed' /\
    spec_on_frames lock_accepts (typed_so_far st) fed' = (outcomes, typed_so_far st') /\
    unlocks outcomes = grants console /\
    relock_at st' = deadline_after None (unlocks outcomes) (silence k).
Proof.
  intros Hst Hr (c & Hcap & Hq & Hempty) (ces & t & Hces & Hb & Hbits & Ht & Hgap) Hfit Hk fed'.
  destruct (run_burst st c (pulses k) ces Hst Hr Hcap Hq Hces)
    as (c1 & Hrun & Hq1 & Hfed1 & Hc1); [by rewrite Hempty|].
  rewrite Hempty in Hc1. cbn [fst snd app] in Hc1. rewrite Hbits, Ht in Hc1.
  set (st1 := with_capture st (Some c1)) in *.
  destruct (iteration_total st1 (silence k) Hst) as [[st2 con] Hit].
  { split; [|done]. cbn [st1 with_capture capture]. rewrite Hc1. cbn [snd].
    intros last [= <-]. unfold MESSAGE_GAP in Hgap. lia. }
  destruct (iteration_spec st1 (silence k) _ _ Hst Hit)
    as (os & Hst2 & Hck & (frame & Hcap2) & Hspec & Hg & Hd).
  assert (Hfed2 : fed st1 [Iterate (silence k)] = fed' /\ idle st2).
  { unfold fed, idle. rewrite Hcap2. cbn [st1 with_capture capture] in Hcap2.
    injection Hc1 as Hb1 Ht1. revert Hcap2. simpl take_completed_frame. rewrite Ht1.
    destruct (vec_is_empty (bits c1)) eqn:He.
    { apply vec_is_empty_iff in He. rewrite Hb1 in He. discriminate He. }
    intros (d & [_ ->]%instant_since_Some & Htake)%bind_Some.
    rewrite decide_False in Htake by lia. injection Htake as <- Hc2. rewrite Hb1.
    change (lastn MAX_BITS (nibble (key_code k))) with (nibble (key_code k)).
    rewrite decode_key by done. split.
    - destruct (step _ _) as [[]|]; by rewrite app_nil_r.
    - eexists. split; [done|]. split; [done|]. unfold captured. simpl.
      by rewrite vec_new_list. }
  destruct Hfed2 as [Hfed2 Hidle].
  exists os, st2, con. unfold key_events. rewrite run_app, (fed_app _ _ _ _ _ Hrun).
  rewrite Hrun, Hfed1, Hfed2 in *. cbn [mbind option_bind run step]. rewrite Hit.
  cbn [mbind option_bind app]. rewrite app_nil_r.
  split_and!; try done. by rewrite Hd, <-Hr.
Qed.

(** Several keys in a row, while none of them but the last opens the lock. *)
Lemma run_keys st ks k :
  main_wf st -> relock_at st = None -> idle st ->
  Forall key_press_ok (ks ++ [k]) ->
  Forall (fun k => reads_fit (clock st) (silence k)) (ks ++ [k]) ->
  Forall (fun k => 0 <= key_code k <= 11) (ks ++ [k]) ->
  let frames := (fun k => (key_frame (key_code k), (clock st, t_clock (silence k)))) in
  unlocks (spec_on_frames lock_accepts (typed_so_far st) (frames <$> ks)).1 = 0%nat ->
  exists outcomes st' console,
    run st ((ks ++ [k]) ≫= key_events) = Some (st', console) /\
    main_wf st' /\ idle st' /\ clock st' = clock st /\
    spec_on_frames lock_accepts (typed_so_far st) (frames <$> ks ++ [k]) =
      (outcomes, typed_so_far st') /\
    unlocks outcomes = grants console /\
    relock_at st' = deadline_after None (unlocks outcomes) (silence k).
Proof.
  revert st. induction ks as [|k' ks IH]; intros st Hst Hr Hidle Hok Hfit Hcode frames Hno.
  - cbn [app] in *. rewrite Forall_singleton in Hok, Hfit, Hcode.
    destruct (run_key st k Hst Hr Hidle Hok Hfit Hcode)
      as (os & st' & con & Hrun & Hst' & Hidle' & Hck & _ & Hspec & Hg & Hd).
    exists os, st', con. cbn [mbind list_bind]. by rewrite app_nil_r.
  - cbn [app] in *. rewrite Forall_cons in Hok, Hfit, Hcode.
    destruct Hok as [Hok' Hok], Hfit as [Hfit' Hfit], Hcode as [Hcode' Hcode].
    destruct (run_key st k' Hst Hr Hidle Hok' Hfit' Hcode')
      as (os1 & st1 & con1 & Hrun1 & Hst1 & Hidle1 & Hck1 & _ & Hspec1 & Hg1 & Hd1).
    change (frames <$> k' :: ks) with ([frames k'] ++ (frames <$> ks)) in Hno.
    change (spec_on_frames lock_accepts (typed_so_far st) [frames k'] =
              (os1, typed_so_far st1)) in Hspec1.
    rewrite spec_on_frames_app, Hspec1 in Hno. cbn iota beta in Hno.
    destruct (IH st1) as (os2 & st2 & con2 & Hrun2 & Hst2 & Hidle2 & Hck2 & Hspec2 & Hg2 & Hd2);
      try done; [|by rewrite Hck1| |].
    + destruct (spec_on_frames _ _ (frames <$> ks)) as [os' t'].
      cbn [fst] in Hno. rewrite unlocks_app in Hno.
      rewrite Hd1. unfold deadline_after. by rewrite decide_True by lia.
    + rewrite Hck1. fold frames.
      destruct (spec_on_frames _ _ (frames <$> ks)) as [os' t'].
      cbn [fst] in *. rewrite unlocks_app in Hno. lia.
    + rewrite Hck1 in Hspec2. fold frames in Hspec2.
      destruct (spec_on_frames _ (typed_so_far st1) (frames <$> ks)) as [os' t'] eqn:Hos.
      cbn [fst] in Hno. rewrite unlocks_app in Hno.
      exists (os1 ++ os2), st2, (con1 ++ con2). cbn [mbind list_bind].
      rewrite run_app, Hrun1. cbn [mbind option_bind]. rewrite Hrun2.
      split_and!; try done; try congruence.
      * change (frames <$> k' :: ks ++ [k]) with ([frames k'] ++ (frames <$> ks ++ [k])).
        rewrite spec_on_frames_app, Hspec1. cbn iota beta. by rewrite Hspec2.
      * by rewrite unlocks_app, grants_app, Hg1, Hg2.
      * rewrite Hd2, unlocks_app. by replace (unlocks os1) with 0%nat by lia.
Qed.

(** Ready for a fresh code: locked, lines idle, nothing typed. *)
Definition ready (st : MainState) : Prop :=
  main_wf st /\ relock_at st = None /\ idle st /\ typed_so_far st = [].

(** The six digits of [code] and enter, as key presses, before the lock's
    clocks run out. *)
Definition code_typed (c : SystemClock) (code : Z) (ks : list KeyPress) (k : KeyPress) : Prop :=
  Forall key_press_ok (ks ++ [k]) /\ Forall (fun k => reads_fit c (silence k)) (ks ++ [k]) /\
  key_code <$> ks = digits code /\ key_code k = 11.

Lemma typing_decides st code ks k :
  ready st -> code_typed (clock st) code ks k ->
  t_check (silence k) < t_granted (silence k) + UNLOCK_DURATION ->
  let accepted := lock_accepts (digits code)
                    (unix_seconds (clock st, t_clock (silence k))) in
  exists st' console,
    run st ((ks ++ [k]) ≫= key_events) = Some (st', console) /\
    main_wf st' /\ idle st' /\ typed_so_far st' = [] /\
    grants console = (if accepted then 1%nat else 0%nat) /\
    relock_at st' = if accepted
                    then Some (t_granted (silence k) + UNLOCK_DURATION) else None.
Proof.
  intros (Hst & Hr & Hidle & Hty) (Hok & Hfit & Hcodes & Hk) Hcheck accepted.
  pose proof (decimal_digits_digits 6 code) as Hdig. fold (digits code) in Hdig.
  assert (Hlen : length ks = 6%nat).
  { rewrite <-(length_fmap key_code), Hcodes. apply length_decimal_digits. }
  assert (Hrange : Forall (fun k => 0 <= key_code k <= 11) (ks ++ [k])).
  { apply Forall_app. split; [|apply Forall_singleton; lia].
    rewrite <-Hcodes, Forall_fmap in Hdig. eapply Forall_impl; [exact Hdig|].
    unfold is_digit. simpl. intros. lia. }
  set (clocks := (fun k => (clock st, t_clock (silence k))) <$> ks).
  assert (Hframes : (fun k => (key_frame (key_code k), (clock st, t_clock (silence k)))) <$> ks
          = zip (Wiegand.Digit <$> digits code) clocks).
  { rewrite <-Hcodes in Hdig |- *. unfold clocks. clear -Hdig.
    induction ks as [|k' ks IH]; [done|]. cbn [fmap list_fmap] in *.
    apply Forall_cons in Hdig as [Hd Hds]. rewrite (IH Hds).
    unfold is_digit in Hd. unfold key_frame. rewrite !decide_False by lia. done. }
  assert (Hcl : length clocks = 6%nat) by (unfold clocks; by rewrite length_fmap).
  pose proof (length_decimal_digits 6 code) as Hl6. fold (digits code) in Hl6.
  destruct (run_keys st ks k Hst Hr Hidle Hok Hfit Hrange)
    as (os & st' & con & Hrun & Hst' & Hidle' & _ & Hspec & Hg & Hd).
  { rewrite Hframes, Hty, typed_empty_digits by (unfold PIN_LEN; lia).
    by rewrite Hl6. }
  exists st', con. rewrite fmap_app, Hframes, Hty in Hspec. cbn [fmap list_fmap] in Hspec.
  unfold key_frame in Hspec. rewrite Hk, decide_False, decide_True in Hspec by done.
  pose proof (code_entry_spec lock_accepts code clocks
                (clock st, t_clock (silence k)) Hcl) as Hce.
  unfold frames_for in Hce. rewrite zip_with_app in Hce by (rewrite length_fmap; lia).
  change (zip [Wiegand.Enter] [(clock st, t_clock (silence k))])
    with [(Wiegand.Enter, (clock st, t_clock (silence k)))] in Hce.
  rewrite Hce in Hspec. fold accepted in Hspec. injection Hspec as <- Hty'.
  rewrite <-Hg, Hd. unfold deadline_after.
  split_and!; try done; destruct accepted; try done.
  rewrite decide_False by done. by rewrite decide_False by lia.
Qed.
End Firmware.
Arguments MainState : clear implicits.

(** ** Properties *)

Section FirmwareTheorems.
Context `{!TotpEmbed, !LockSecret, !BuildProfile} {I V P : Type}.
Context `{!InputPin I, !HeaplessVec V, !OutputPin P}.
Context `{!InputPinLaws I, !HeaplessVecLaws V, !OutputPinLaws P}.
Implicit Types st : MainState I V P.

(** C25. The firmware boots on every build epoch the build script can write,
    and from then on no interleaving of interrupts and loop iterations, and
    nothing the keypad sends, makes it panic, in a build with overflow checks
    or without: as long as the instants its clock calls return come in the
    order of the calls, leave room for the five seconds of a grant in the
    timer's range and, where overflow is checked, for the build epoch in the
    range of Unix times.  (An edge after the poll, or a clock beyond those
    ranges, does panic.)  In every state it reaches the relay is driven
    exactly while a relock deadline is armed, so a released bolt always has
    its relocking scheduled. *)
Theorem firmware_never_panics (d0 d1 : I) epoch now (events : list Event) :
  is_uint 64 epoch -> ordered now events ->
  Forall (event_fits (mkSystemClock epoch)) events ->
  exists (st0 : MainState I V P) st' console,
    boot d0 d1 (to_string epoch) = Some st0 /\
    level (relay (actuator st0)) = Low /\
    run st0 events = Some (st', console) /\
    (level (relay (actuator st')) = High <-> is_Some (relock_at st')).
Proof.
  intros He Hord Hfit.
  assert (exists st0 : MainState I V P, boot d0 d1 (to_string epoch) = Some st0 /\
            clock st0 = mkSystemClock epoch /\ edge_before now st0) as (st0 & Hboot & Hck & Hedge).
  { unfold boot, start. rewrite parse_to_string by (done || lia).
    eexists. split; [done|]. by split. }
  destruct (boot_wf _ _ _ _ Hboot) as (Hst & _ & Hr).
  destruct (run_total st0 events now Hst Hord Hedge) as [[st' con] Hrun]; [by rewrite Hck|].
  destruct (run_spec st0 events _ _ Hst Hrun) as (os & Hst' & _).
  exists st0, st', con. split_and!; [done| |done|apply Hst'].
  destruct Hst as (_ & _ & _ & Hrel). unfold released in Hrel.
  destruct (level (relay (actuator st0))); [done|].
  destruct Hrel as [Hrel _]. rewrite Hr in Hrel. by destruct Hrel.
Qed.

(** C3. The bolt is released only by a current code: if after any history
    since boot the relay is driven, or access was granted even once, then the
    loop fed the controller an enter key whose six preceding key presses
    were the digits of the RFC 6238 code of the firmware's secret for a time
    step at most one away from the clock's at that enter. *)
Theorem released_only_by_current_code `{!Hmac, !TotpEmbedLaws _ _}
    (d0 d1 : I) env events (st0 st' : MainState I V P) console :
  boot d0 d1 env = Some st0 -> run st0 events = Some (st', console) ->
  level (relay (actuator st')) = High \/ "access granted"%string ∈ console ->
  exists i now before w,
    fed st0 events !! i = Some (Wiegand.Enter, now) /\
    keys_of (take i (fed st0 events)) =
      before ++ (PinEntry.Digit <$> digits (hotp DIGITS SECRET w)) /\
    accepted_window (unix_seconds now) SKEW_STEPS w.
Proof.
  intros Hboot Hrun Hopen. destruct (boot_wf _ _ _ _ Hboot) as (Hst & Ht & Hr).
  destruct (run_spec st0 events _ _ Hst Hrun) as (os & Hst1 & _ & Hspec & Hg).
  rewrite Ht in Hspec.
  assert (Hgr : grants console <> 0%nat).
  { destruct Hopen as [Hopen|Hin].
    - intros Hz. pose proof (run_deadline _ _ _ _ Hst Hrun Hz) as Hd.
      rewrite Hr in Hd. destruct Hst1 as (_ & _ & _ & Hrel).
      apply Hrel in Hopen. rewrite Hd in Hopen. by destruct Hopen.
    - unfold grants. intros Hz. apply nil_length_inv in Hz.
      assert ("access granted"%string ∈
        filter (fun line => line = "access granted"%string) console) as Hf
        by (by apply list_elem_of_filter).
      rewrite Hz in Hf. by apply elem_of_nil in Hf. }
  assert (exists i, os !! i = Some Unlocked) as (i & Hi).
  { rewrite <-Hg in Hgr. apply list_elem_of_lookup. unfold unlocks in Hgr.
    destruct (filter (fun o => o = Unlocked) os) as [|o os'] eqn:Hf; [done|].
    assert (o ∈ filter (fun o => o = Unlocked) os) as Ho by (rewrite Hf; by left).
    apply list_elem_of_filter in Ho as [-> Ho]. done. }
  destruct (spec_unlocked_origin lock_accepts (fed st0 events) i)
    as (now & before & code & Hfed & Hkeys & Hlen & Hacc); [by rewrite Hspec|].
  assert (Hdig : Forall is_digit code).
  { apply Forall_forall. intros d Hd. apply (fed_digits st0 events).
    unfold keys_of in *. rewrite <-(take_drop i (fed st0 events)).
    rewrite fmap_app, omap_app, Hkeys, !elem_of_app. left. right.
    by apply list_elem_of_fmap_2. }
  assert (Hnow : is_uint 64 (unix_seconds now)) by (destruct now; apply as_u64_uint).
  assert (Hskew : is_uint 8 SKEW_STEPS) by done.
  destruct (proj1 (matches_window SECRET code _ _ Hdig Hlen Hnow Hskew) Hacc)
    as (w & Hw & ->).
  by exists i, now, before, w.
Qed.

(** C32. A grant opens the bolt for [UNLOCK_DURATION] and no longer than the
    loop takes to look: after an iteration that granted access, and as long
    as no further access is granted, the relay stays driven through every
    check made before five seconds have passed since the grant, and is
    released by the first check at or after that, for good. *)
Theorem relay_driven_until_deadline (d0 d1 : I) env before after ts
    (st0 st st1 st2 : MainState I V P) c0 c1 c2 :
  boot d0 d1 env = Some st0 -> run st0 before = Some (st, c0) ->
  iteration st ts = Some (st1, c1) -> grants c1 <> 0%nat ->
  run st1 after = Some (st2, c2) -> grants c2 = 0%nat ->
  level (relay (actuator st2)) = High <->
  Forall (fun t => t < t_granted ts + UNLOCK_DURATION) (t_check ts :: checks after).
Proof.
  intros Hboot Hb Hit Hg1 Ha Hg2. destruct (boot_wf _ _ _ _ Hboot) as (Hst0 & _ & _).
  destruct (run_spec st0 before _ _ Hst0 Hb) as (? & Hst & _).
  destruct (iteration_spec st ts _ _ Hst Hit) as (os & Hst1 & _ & _ & _ & Hu & Hd).
  pose proof (run_deadline _ _ _ _ Hst1 Ha Hg2) as Hd2.
  destruct (run_spec st1 after _ _ Hst1 Ha) as (? & Hst2 & _).
  destruct Hst2 as (_ & _ & _ & Hrel). unfold released in Hrel. rewrite Hrel, Hd2, Hd.
  unfold deadline_after. rewrite decide_False by lia. rewrite Forall_cons.
  case_decide; [split; [by intros [? ?]|lia]|].
  case_decide; [split; [split; [lia|done]|eauto]|].
  split; [by intros [? ?]|naive_solver].
Qed.

(** The box opens for its owner: whenever the lock is ready, six digits
    and enter, sent as the keypad sends them (four pulses per key, the loop
    polling in between, then silence), get exactly one verdict; access is
    granted once and the relay driven when [matches] accepts the code at the
    time of the enter, and the relay stays put otherwise; either way nothing
    of the attempt is left in the buffers. *)
Theorem typed_code_decides st code ks k :
  ready st -> code_typed (clock st) code ks k ->
  t_check (silence k) < t_granted (silence k) + UNLOCK_DURATION ->
  exists st' console,
    run st ((ks ++ [k]) ≫= key_events) = Some (st', console) /\
    let accepted := matches SECRET (digits code)
          (system_unix_seconds (clock st) (t_clock (silence k))) SKEW_STEPS in
    grants console = (if accepted then 1%nat else 0%nat) /\
    (level (relay (actuator st')) = High <-> accepted = true) /\
    idle st' /\ typed_so_far st' = [].
Proof.
  intros Hst Hty Hc.
  destruct (typing_decides st code ks k Hst Hty Hc)
    as (st' & con & Hrun & (_ & _ & _ & Hrel) & Hidle & Hty' & Hg & Hd).
  exists st', con. split; [done|]. split; [done|]. split; [|done].
  unfold released in Hrel. rewrite Hrel, Hd.
  unfold lock_accepts. change (unix_seconds (?a, ?b)) with (system_unix_seconds a b).
  destruct (matches _ _ _ _); [by split; [|eexists]|].
  split; [by intros [? ?]|done].
Qed.
End FirmwareTheorems.

(** ** The relay pin can be implemented, as the level it drives *)

#[export] Instance level_pin : OutputPin Level := {
  output_new := id;
  set_high := fun _ => High;
  set_low := fun _ => Low;
  level := id
}.

#[export] Instance level_pin_laws : OutputPinLaws Level.
Proof. by split. Qed.

(** ** Witnesses: a lock built at the start of 2026, and its keypad *)

#[local] Existing Instances sha1_hmac reference_totp_embed reference_totp_embed_laws
  placeholder_secret checked_build.

Definition new_year : string := to_string 1767225600.

Definition tick (t : Z) : Times := mkTimes t (t + 1) (t + 2) (t + 3).

(** A key press from [t] on: pulses two milliseconds apart with a poll in the
    middle, and the poll that finds the lines silent. *)
Definition press (t v : Z) : KeyPress :=
  let pulse i := match nibble v !! i with
                 | Some bit => let now := t + 2000 * Z.of_nat i in
                               [Interrupt [bit] now now]
                 | None => []
                 end in
  mkKeyPress v (pulse 0%nat ++ pulse 1%nat ++ [Iterate (tick (t + 3000))] ++
                pulse 2%nat ++ pulse 3%nat)
    (tick (t + 40000)).

Lemma press_ok t v : key_press_ok (press t v).
Proof.
  unfold key_press_ok, press. cbn [pulses silence key_code].
  eexists [Edge _ _; Edge _ _; Poll _; Edge _ _; Edge _ _], _.
  split; [repeat (constructor; [by repeat split|]); constructor|].
  split_and!; simpl; try done; unfold MESSAGE_GAP; lia.
Qed.

(** The code of the first time step of 2026, typed from second one on. *)
Definition typed_keys (code : Z) : list KeyPress :=
  imap (fun i d => press (1000000 + 100000 * Z.of_nat i) d) (digits code).
Definition enter_press : KeyPress := press 1600000 11.

(** Any code can be typed so, on a clock with room left. *)
Lemma code_typed_so epoch code :
  0 <= epoch <= 2 ^ 63 -> code_typed (mkSystemClock epoch) code (typed_keys code) enter_press.
Proof.
  intros He. assert (Hlen : length (digits code) = 6%nat) by apply length_decimal_digits.
  assert (Hfit : forall t v, 0 <= t <= 2000000 ->
            reads_fit (mkSystemClock epoch) (silence (press t v))).
  { intros t v Ht. unfold reads_fit, as_secs, UNLOCK_DURATION, u64_max.
    cbn [press silence tick t_granted t_clock boot_epoch]. split; [lia|]. intros _.
    assert ((t + 40000 + 1) / 1000000 <= 3) by (apply Z.div_le_upper_bound; lia). lia. }
  assert (Hall : Forall (fun k => key_press_ok k /\ reads_fit (mkSystemClock epoch) (silence k))
                   (typed_keys code ++ [enter_press])).
  { apply Forall_app. split; [|apply Forall_singleton; split; [apply press_ok|by apply Hfit]].
    apply Forall_forall. intros k (i & d & -> & Hi)%elem_of_lookup_imap.
    apply lookup_lt_Some in Hi. split; [apply press_ok|apply Hfit; lia]. }
  apply Forall_and in Hall as [Hok Hfits]. split_and!; [done|done| |done].
  unfold typed_keys. rewrite fmap_imap. apply list_eq. intros i.
  rewrite list_lookup_imap. by destruct (digits code !! i).
Qed.

Definition booted : option (MainState bool (list bool) Level) :=
  boot false false new_year.

Definition new_year_code : Z := Eval vm_compute in hotp DIGITS SECRET 58907520.

Definition unlocking : list Event := (typed_keys new_year_code ++ [enter_press]) ≫= key_events.

Example unlocking_opens :
  (st ← booted; '(st, console) ← run st unlocking;
   Some (level (relay (actuator st)), console)) = Some (High, ["access granted"%string]).
Proof. vm_compute. reflexivity. Qed.

Example unlocking_relocks :
  (st ← booted;
   '(st, console) ← run st (unlocking ++ [Iterate (tick 6600000); Iterate (tick 6650000)]);
   Some (level (relay (actuator st)), console)) =
  Some (Low, ["access granted"; "re-locked"]%string).
Proof. vm_compute. reflexivity. Qed.

Definition booted_state : MainState bool (list bool) Level :=
  mkMainState (install false false None) (Lock.new SECRET SKEW_STEPS)
    (mkSystemClock 1767225600) (bolt_new Low) None.

Definition after (st : MainState bool (list bool) Level) (events : list Event) :
    MainState bool (list bool) Level :=
  match run st events with
  | Some (st, _) => st
  | None => st
  end.

Definition nearly : list Event := removelast unlocking.
Definition nearly_state : MainState bool (list bool) Level :=
  Eval vm_compute in after booted_state nearly.
Definition unlocked_state : MainState bool (list bool) Level :=
  Eval vm_compute in after booted_state unlocking.

Lemma firmware_never_panics_witness :
  exists (st0 : MainState bool (list bool) Level) st' console,
    boot false false (to_string 1767225600) = Some st0 /\
    level (relay (actuator st0)) = Low /\
    run st0 unlocking = Some (st', console) /\
    (level (relay (actuator st')) = High <-> is_Some (relock_at st')).
Proof.
  apply (firmware_never_panics false false 1767225600 0 unlocking).
  - split; [discriminate|reflexivity].
  - vm_compute. repeat split; discriminate.
  - apply (bool_decide_unpack (Forall (event_fits (mkSystemClock 1767225600)) unlocking)).
    vm_compute. exact I.
Defined.

(** What the hypotheses exclude: an edge later than the poll that follows it, a
    Unix time past [u64] where overflow is checked (a release build judges the
    code by the time wrapped around), a grant at the end of the timer. *)
Example poll_before_edge_panics :
  run booted_state [Interrupt [true] 1000 1000; Iterate (tick 999)] = None.
Proof. vm_compute. reflexivity. Qed.

Definition at_epoch (epoch : Z) : MainState bool (list bool) Level :=
  mkMainState (install false false None) (Lock.new SECRET SKEW_STEPS)
    (mkSystemClock epoch) (bolt_new Low) None.

Example clock_past_u64 :
  run (at_epoch u64_max) unlocking = None /\
  (fun _ : BuildProfile => snd <$> run (at_epoch u64_max) unlocking) release_build =
    Some ["access denied"%string].
Proof. split; vm_compute; reflexivity. Qed.

Example grant_at_end_of_timer :
  handle_bits nearly_state (nibble 11) 1640001 (u64_max - UNLOCK_DURATION + 1) = None.
Proof. vm_compute. reflexivity. Qed.

Lemma released_only_by_current_code_witness :
  exists i now before w,
    fed booted_state unlocking !! i = Some (Wiegand.Enter, now) /\
    keys_of (take i (fed booted_state unlocking)) =
      before ++ (PinEntry.Digit <$> digits (hotp DIGITS SECRET w)) /\
    accepted_window (unix_seconds now) SKEW_STEPS w.
Proof.
  apply (released_only_by_current_code false false new_year unlocking
           booted_state unlocked_state ["access granted"%string]);
    [vm_compute; reflexivity.. | left; reflexivity].
Defined.

Lemma relay_driven_until_deadline_witness :
  level (relay (actuator
    (after unlocked_state [Iterate (tick 6600000); Iterate (tick 6650000)]))) = High <->
  Forall (fun t => t < 1640002 + UNLOCK_DURATION) [1640003; 6600003; 6650003].
Proof.
  apply (relay_driven_until_deadline false false new_year nearly
           [Iterate (tick 6600000); Iterate (tick 6650000)] (tick 1640000)
           booted_state nearly_state unlocked_state _
           [] ["access granted"%string] ["re-locked"%string]);
    first [discriminate | vm_compute; reflexivity].
Defined.

Lemma typed_code_decides_witness :
  exists st' console,
    run booted_state (unlocking) = Some (st', console) /\
    grants console = 1%nat.
Proof.
  destruct (typed_code_decides booted_state new_year_code
              (typed_keys new_year_code) enter_press) as (st' & con & Hrun & Hg & _).
  - split; [|split; [reflexivity|split; [|reflexivity]]].
    + apply (boot_wf false false new_year). vm_compute. reflexivity.
    + eexists. split; [reflexivity|]. split; [split; reflexivity|reflexivity].
  - apply code_typed_so. split; discriminate.
  - vm_compute. reflexivity.
  - exists st', con. split; [exact Hrun|]. rewrite Hg. vm_compute. reflexivity.
Defined.
