(* ===== verification/Simulation.v ===== *)
(** * The simulated keypad, and the firmware in real time

    firmware/sim/wiegand_script.py plays a code at the firmware's pins with
    fixed timing; sim/run_sim_tests.py expects the box to open for five seconds
    exactly when the code is the current one.  Here the script is translated
    and that expectation is a theorem, for every code and every schedule of the
    main loop that polls often enough: the constants of the script, of
    [MESSAGE_GAP] and of the poll interval fit together.

    Times are microseconds, the script's own resolution. *)

From S2P Require Import Prelude RustText Rfc6238 Sha1 Wiegand PinEntry Totp Lock.
From S2P Require Import Capture Clock Firmware.
Local Open Scope Z_scope.

(** ** wiegand_script.py *)

Definition D0_PIN : Z := 2.
Definition D1_PIN : Z := 3.
Definition PULSE_WIDTH : Z := 50.
Definition BIT_INTERVAL : Z := 2000.
Definition INTER_NIBBLE_GAP : Z := 40000.
Definition ENTER : Z := 11.

Definition nibble_bits (value : Z) : list Z :=
  [Z.land (Z.shiftr value 3) 1; Z.land (Z.shiftr value 2) 1;
   Z.land (Z.shiftr value 1) 1; Z.land value 1].

(** [assert len(code) == 6 and code.isdigit()]. *)
Definition keys_for_code (code : string) : option (list Z) :=
  let chars := bytes_of_string code in
  if decide (length chars = 6%nat /\ Forall (fun c => 48 <= c <= 57) chars)
  then Some (((fun c => c - 48) <$> chars) ++ [ENTER])%list
  else None.

(** A line ["{time} gpio {pin} {level}"]. *)
Record Action := mkAction { act_time : Z; act_pin : Z; act_level : Z }.

(** The inner loop: a pulse per bit. *)
Fixpoint pulse_lines (t : Z) (bits : list Z) : list Action * Z :=
  match bits with
  | [] => ([], t)
  | bit :: bits =>
      let pin := if decide (bit = 0) then D0_PIN else D1_PIN in
      let (lines, t') := pulse_lines (t + BIT_INTERVAL) bits in
      (mkAction t pin 0 :: mkAction (t + PULSE_WIDTH) pin 1 :: lines, t')
  end.

(** The outer loop: a nibble per key. *)
Fixpoint key_lines (t : Z) (values : list Z) : list Action * Z :=
  match values with
  | [] => ([], t)
  | value :: values =>
      let (lines, t) := pulse_lines t (nibble_bits value) in
      let (lines', t) := key_lines (t + INTER_NIBBLE_GAP) values in
      (lines ++ lines', t)
  end.

Definition generate (code : string) (start_at : Z) : option (list Action * Z) :=
  values ← keys_for_code code; Some (key_lines start_at values).

(** The falling edges of a script: on D1 or on D0, and when. *)
Definition edges (lines : list Action) : list (bool * Z) :=
  omap (fun a => if decide (act_level a = 0) then Some (bool_decide (act_pin a = D1_PIN), act_time a)
                 else None) lines.

(** ** Playing a script at the firmware *)

(** How late the handler reads its clock, and how far apart two polls of the
    loop may be.  ([POLL_INTERVAL_MS] is 5; what is left is for the body.) *)
Definition LATENCY : Z := 1000.
Definition PERIOD : Z := 15000.

Definition stamp (e : Event) : Z :=
  match e with Interrupt _ now _ => now | Iterate ts => t_poll ts end.

(** A falling edge [edge] of the script, seen as interrupt [e]. *)
Definition seen (edge : bool * Z) (e : Event) : Prop :=
  exists now, e = Interrupt [edge.1] now now /\ edge.2 <= now <= edge.2 + LATENCY.

Definition is_interrupt (e : Event) : bool :=
  match e with Interrupt _ _ _ => true | Iterate _ => false end.

(** The clock calls of an iteration are in order, and done before the next. *)
Definition iteration_ok (e : Event) : Prop :=
  match e with
  | Interrupt _ _ _ => True
  | Iterate ts => t_poll ts <= t_clock ts <= t_granted ts /\
                  t_granted ts <= t_check ts <= t_poll ts + PERIOD
  end.

(** From a poll at [last] on, polls are at most [PERIOD] apart, and do not end
    before [until]. *)
Fixpoint paced (last : Z) (events : list Event) (until : Z) : Prop :=
  match events with
  | [] => until <= last
  | Interrupt _ _ _ :: events => paced last events until
  | Iterate ts :: events => t_poll ts <= last + PERIOD /\ paced (t_poll ts) events until
  end.

(** In the order of time. *)
Fixpoint in_order (from : Z) (events : list Event) : Prop :=
  match events with
  | [] => True
  | e :: events => from <= stamp e /\ in_order (stamp e) events
  end.

(** A history in which exactly a script is played, to a running loop. *)
Record plays (script : list (bool * Z)) (last : Z) (until : Z) (events : list Event) : Prop := {
  play_edges : Forall2 seen script (filter (fun e => is_interrupt e = true) events);
  play_paced : paced last events until;
  play_order : in_order last events;
  play_iterations : Forall iteration_ok events
}.

(** ** Lemmas *)

Definition key_edges (v t : Z) : list (bool * Z) :=
  zip (nibble v) [t; t + 2000; t + 4000; t + 6000].

Lemma edges_app l l' : edges (l ++ l') = edges l ++ edges l'.
Proof. apply omap_app. Qed.

Lemma nibble_bits_spec v :
  0 <= v < 16 -> (fun b => bool_decide (b <> 0)) <$> nibble_bits v = nibble v.
Proof.
  intros Hv.
  assert (Hall : Forall (fun v => (fun b => bool_decide (b <> 0)) <$> nibble_bits v = nibble v)
                   (seqZ 0 16)).
  { by repeat (apply Forall_cons; split; [vm_compute; reflexivity|]). }
  rewrite Forall_forall in Hall. apply Hall, elem_of_seqZ. lia.
Qed.

(** A pulse's falling edge is on the line of its bit. *)
Lemma edges_pulses t bits :
  edges (pulse_lines t bits).1 =
    zip ((fun b => bool_decide (b <> 0)) <$> bits)
        ((fun i => t + BIT_INTERVAL * Z.of_nat i) <$> seq 0 (length bits)) /\
  (pulse_lines t bits).2 = t + BIT_INTERVAL * Z.of_nat (length bits).
Proof.
  revert t. induction bits as [|bit bits IH]; intros t; [split; simpl; [done|lia]|].
  cbn [pulse_lines length]. destruct (IH (t + BIT_INTERVAL)) as [He Ht].
  destruct (pulse_lines (t + BIT_INTERVAL) bits) as [lines t']. cbn [fst snd] in *. subst t'.
  split; [|lia]. unfold edges in *. cbn [omap list_omap act_level act_pin act_time].
  rewrite decide_True by done. rewrite (decide_False (P := 1 = 0)) by done.
  cbn [seq fmap list_fmap zip zip_with]. f_equal.
  - f_equal; [|simpl; lia]. unfold D0_PIN, D1_PIN.
    case_decide; [by rewrite !bool_decide_false by lia|by rewrite !bool_decide_true by done].
  - rewrite He. f_equal. rewrite <-fmap_S_seq, <-list_fmap_compose.
    apply list_fmap_ext. intros i x _. simpl. lia.
Qed.

Lemma edges_keys t v vs :
  0 <= v < 16 ->
  edges (key_lines t (v :: vs)).1 = key_edges v t ++ edges (key_lines (t + 48000) vs).1.
Proof.
  intros Hv. cbn [key_lines]. destruct (edges_pulses t (nibble_bits v)) as [He Ht].
  destruct (pulse_lines t (nibble_bits v)) as [lines t1]. cbn [fst snd] in *. subst t1.
  rewrite nibble_bits_spec in He by done.
  replace (t + BIT_INTERVAL * Z.of_nat (length (nibble_bits v)) + INTER_NIBBLE_GAP)
    with (t + 48000) by (unfold BIT_INTERVAL, INTER_NIBBLE_GAP; simpl; lia).
  destruct (key_lines (t + 48000) vs) as [lines' t2]. cbn [fst].
  rewrite edges_app, He. f_equal. unfold key_edges. f_equal.
  unfold BIT_INTERVAL. simpl. repeat f_equal; lia.
Qed.

Lemma edges_after t vs :
  Forall (fun v => 0 <= v < 16) vs -> Forall (fun e => t <= e.2) (edges (key_lines t vs).1).
Proof.
  revert t. induction vs as [|v vs IH]; intros t; [by constructor|].
  intros [Hv Hvs]%Forall_cons. rewrite edges_keys by done. apply Forall_app. split.
  - unfold key_edges, nibble. simpl. repeat (apply Forall_cons; split; [simpl; lia|]). constructor.
  - eapply Forall_impl; [by apply IH|]. simpl. lia.
Qed.

Lemma in_order_weaken from from' events :
  from' <= from -> in_order from events -> in_order from' events.
Proof. destruct events; [done|]. simpl. intros ? [? ?]. split; [lia|done]. Qed.

Lemma in_order_stamp from events e : in_order from events -> e ∈ events -> from <= stamp e.
Proof.
  revert from. induction events as [|e' events IH]; intros from; [by intros _ ?%elem_of_nil|].
  simpl. intros [Hle Ho] [->|Hin]%elem_of_cons; [done|]. specialize (IH _ Ho Hin). lia.
Qed.

(** A loop that keeps its pace does not skip a whole period. *)
Lemma paced_gap last bound events until :
  in_order bound events -> paced last events until -> last + PERIOD < bound -> last < until ->
  False.
Proof.
  revert bound. induction events as [|[es now0 now1|ts] events IH]; intros bound; simpl.
  - lia.
  - intros [Hb Ho] Hp ? ?. apply (IH _ Ho Hp); lia.
  - lia.
Qed.

(** The next edge is handled at its latest a [LATENCY] late, and what comes
    before it is stamped no later than that. *)
Lemma next_edge_stamp edge script events from :
  Forall2 seen (edge :: script) (filter (fun e => is_interrupt e = true) events) ->
  in_order from events -> from <= edge.2 + LATENCY.
Proof.
  intros Hed Ho. inversion Hed as [|? e ? ? Hseen _ Heq Hf]; subst.
  assert (Hin : e ∈ events).
  { assert (Hin : e ∈ filter (fun e => is_interrupt e = true) events) by (rewrite <-Hf; by left).
    by apply list_elem_of_filter in Hin as [_ Hin]. }
  pose proof (in_order_stamp _ _ _ Ho Hin) as Hst.
  destruct Hseen as (now & -> & Hnow). simpl in Hst. lia.
Qed.

(** The next key cannot begin before a poll that finds the lines silent. *)
Lemma no_early_key later e others events last until bound :
  Forall2 seen later (e :: others) ->
  Forall (fun e => bound <= e.2) later -> in_order (stamp e) events -> paced last events until ->
  last + PERIOD < bound -> last < until -> False.
Proof.
  intros Hed Hlater Ho Hp Hlast Huntil.
  destruct later as [|edge later]; [by apply Forall2_nil_inv_l in Hed|].
  apply Forall2_cons in Hed as [(now & -> & Hnow) _]. simpl in Ho.
  apply Forall_cons in Hlater as [Hb _]. unfold LATENCY in *.
  eapply (paced_gap last now events until Ho Hp); lia.
Qed.

(** The edges of one key, up to the poll that finds the lines silent. *)
Lemma burst_played t until later :
  t + 48000 <= until -> Forall (fun e => t + 48000 <= e.2) later ->
  forall events es le last,
  plays (es ++ later) last until events ->
  Forall (fun e => t <= e.2 <= t + 6000) es ->
  (forall x, le = Some x -> t <= x <= t + 7000 /\ in_order x events) ->
  (es = [] -> exists x, le = Some x /\ last < x + MESSAGE_GAP) ->
  exists pl ts events' ces x,
    events = pl ++ Iterate ts :: events' /\ Forall2 captures pl ces /\ burst le ces /\
    bits_of ces = es.*1 /\ last_edge_of le ces = Some x /\ MESSAGE_GAP <= t_poll ts - x /\
    t_poll ts < t + 48000 /\ iteration_ok (Iterate ts) /\ plays later (t_poll ts) until events'.
Proof.
  intros Huntil Hlater. unfold MESSAGE_GAP.
  induction events as [|e events IH]; intros es le last [Hed Hp Ho Hit] Hes Hle Hlast.
  - cbn [filter] in Hed. apply Forall2_nil_inv_r, app_nil in Hed as [-> ->].
    destruct (Hlast eq_refl) as (x & Hx & ?). destruct (Hle x Hx). simpl in Hp. lia.
  - apply Forall_cons in Hit as [Hite Hit]. destruct Ho as [Hle0 Ho].
    destruct e as [bits now0 now1|ts].
    + rewrite filter_cons_True in Hed by done.
      destruct es as [|edge es].
      * exfalso. destruct (Hlast eq_refl) as (x & Hx & ?). destruct (Hle x Hx) as [? _].
        eapply (no_early_key later); [exact Hed|exact Hlater|exact Ho|exact Hp|unfold PERIOD; lia..].
      * apply Forall2_cons in Hed as [(now & [= -> -> ->] & Hnow) Hed].
        apply Forall_cons in Hes as [He Hes]. simpl in Hle0, Ho, Hp. unfold LATENCY in Hnow.
        destruct (IH es (Some now) last) as (pl & ts & events' & ces & x & -> & Hc & Hb & Hbits & Hx & ?);
          [split; try done; by eapply in_order_weaken|done|intros y [= <-]; split; [lia|done]| |].
        { intros ->. exists now. split; [done|lia]. }
        exists (Interrupt [edge.1] now now :: pl), ts, events', (Edge edge.1 now :: ces), x.
        split; [done|]. split; [by constructor|]. split; [done|].
        split; [|done]. cbn [fmap list_fmap]. by rewrite <-Hbits.
    + rewrite filter_cons_False in Hed by done. destruct Hp as [Hper Hp]. simpl in Hle0, Ho.
      assert (Hafter : forall x, le = Some x -> x <= t_poll ts /\ in_order x events).
      { intros x Hx. destruct (Hle x Hx) as [_ [Hx0 Hx1]]. simpl in Hx0, Hx1.
        split; [done|]. by eapply in_order_weaken. }
      assert (Hcontinue : (forall x, le = Some x -> t_poll ts - x < 25000) ->
        exists pl ts0 events' ces x,
          Iterate ts :: events = pl ++ Iterate ts0 :: events' /\ Forall2 captures pl ces /\
          burst le ces /\ bits_of ces = es.*1 /\ last_edge_of le ces = Some x /\
          25000 <= t_poll ts0 - x /\ t_poll ts0 < t + 48000 /\ iteration_ok (Iterate ts0) /\
          plays later (t_poll ts0) until events').
      { intros Hgap.
        destruct (IH es le (t_poll ts)) as (pl & ts0 & events' & ces & x & -> & Hc & Hb & ?);
          [by split|done| | |].
        { intros x Hx. split; [by apply Hle|by apply Hafter]. }
        { intros ->. destruct (Hlast eq_refl) as (x & Hx & _). exists x. split; [done|].
          specialize (Hgap x Hx). lia. }
        exists (Iterate ts :: pl), ts0, events', (Poll (t_poll ts) :: ces), x.
        split; [done|]. split; [by constructor|]. split; [|done]. split; [|done].
        destruct le as [x'|]; [|done]. specialize (Hgap x' eq_refl).
        destruct (Hafter x' eq_refl) as [Hx' _]. unfold MESSAGE_GAP. lia. }
      destruct es as [|edge es].
      * destruct (Hlast eq_refl) as (x & Hx & ?). pose proof (proj1 (Hle x Hx)). subst le.
        destruct (decide (t_poll ts - x < 25000)) as [Hd|Hd].
        { apply Hcontinue. by intros y [= <-]. }
        exists [], ts, events, [], x. unfold PERIOD in *. split_and!; try done; lia.
      * apply Hcontinue. intros x Hx. pose proof (proj1 (Hle x Hx)).
        apply Forall_cons in Hes as [He _].
        pose proof (next_edge_stamp edge _ events _ Hed Ho). unfold LATENCY in *. lia.
Qed.

(** One key of the script is one key press. *)
Lemma key_played v vs t last until events :
  Forall (fun v => 0 <= v < 16) (v :: vs) -> t + 48000 <= until ->
  plays (edges (key_lines t (v :: vs)).1) last until events ->
  exists k events', events = key_events k ++ events' /\ key_press_ok k /\ key_code k = v /\
    iteration_ok (Iterate (silence k)) /\ t_poll (silence k) < t + 48000 /\
    plays (edges (key_lines (t + 48000) vs).1) (t_poll (silence k)) until events'.
Proof.
  intros [Hv Hvs]%Forall_cons Huntil Hplay. rewrite edges_keys in Hplay by done.
  destruct (burst_played t until (edges (key_lines (t + 48000) vs).1) Huntil
              (edges_after _ _ Hvs) events (key_edges v t) None last)
    as (pl & ts & events' & ces & x & -> & Hc & Hb & Hbits & Hx & Hgap & ? & ? & ?); [done|..].
  - unfold key_edges, nibble. simpl. repeat (apply Forall_cons; split; [simpl; lia|]). constructor.
  - done.
  - done.
  - exists (mkKeyPress v pl ts), events'. unfold key_events. cbn [pulses silence key_code].
    rewrite <-app_assoc. split_and!; try done. exists ces, x. split_and!; try done.
Qed.

Lemma keys_played vs vs' t last until events :
  Forall (fun v => 0 <= v < 16) (vs ++ vs') -> t + 48000 * Z.of_nat (length vs) <= until ->
  plays (edges (key_lines t (vs ++ vs')).1) last until events ->
  exists ks events' last', events = (ks ≫= key_events) ++ events' /\ Forall key_press_ok ks /\
    key_code <$> ks = vs /\
    plays (edges (key_lines (t + 48000 * Z.of_nat (length vs)) vs').1) last' until events'.
Proof.
  revert t last events. induction vs as [|v vs IH]; intros t last events Hvs Huntil Hplay.
  { exists [], events, last. rewrite Z.mul_0_r, Z.add_0_r. split_and!; try done; constructor. }
  cbn [length app] in *.
  destruct (key_played v (vs ++ vs') t last until events Hvs)
    as (k & events1 & -> & Hk & Hc & _ & _ & Hplay1); [lia|done|].
  apply Forall_cons in Hvs as [_ Hvs].
  destruct (IH (t + 48000) _ events1 Hvs ltac:(lia) Hplay1)
    as (ks & events2 & last' & -> & Hks & Hcs & Hplay2).
  exists (k :: ks), events2, last'. cbn [mbind list_bind fmap list_fmap].
  rewrite <-app_assoc.
  replace (t + 48000 * Z.of_nat (S (length vs))) with (t + 48000 + 48000 * Z.of_nat (length vs))
    by lia.
  split_and!; try done; [by constructor|by rewrite Hc, Hcs].
Qed.

Lemma key_lines_end t vs : (key_lines t vs).2 = t + 48000 * Z.of_nat (length vs).
Proof.
  revert t. induction vs as [|v vs IH]; intros t; cbn [key_lines length]; [simpl; lia|].
  destruct (edges_pulses t (nibble_bits v)) as [_ Ht].
  destruct (pulse_lines t (nibble_bits v)) as [lines t1]. cbn [snd] in Ht. subst t1.
  specialize (IH (t + BIT_INTERVAL * Z.of_nat (length (nibble_bits v)) + INTER_NIBBLE_GAP)).
  destruct (key_lines _ vs) as [lines' t2]. cbn [snd] in *. rewrite IH.
  unfold BIT_INTERVAL, INTER_NIBBLE_GAP. simpl. lia.
Qed.

(** The loop is still there at the end. *)
Lemma paced_last last events until :
  paced last events until -> last < until ->
  exists ts, Iterate ts ∈ events /\ until <= t_poll ts.
Proof.
  revert last. induction events as [|[es now0 now1|ts] events IH]; intros last; simpl; [lia|..].
  - intros Hp Hl. destruct (IH last Hp Hl) as (ts & ? & ?). exists ts. split; [by right|done].
  - intros [_ Hp] Hl. destruct (decide (until <= t_poll ts)) as [|Hu].
    { exists ts. split; [by left|done]. }
    destruct (IH (t_poll ts) Hp) as (ts' & ? & ?); [lia|]. exists ts'. split; [by right|done].
Qed.

(** The digits of a code's text. *)
Definition code_digits (code : string) : list Z := (fun c => c - 48) <$> bytes_of_string code.

Lemma keys_for_code_Some code values :
  keys_for_code code = Some values ->
  values = code_digits code ++ [ENTER] /\ length (code_digits code) = 6%nat /\
  Forall is_digit (code_digits code).
Proof.
  unfold keys_for_code, code_digits. case_decide as Hc; [|done]. destruct Hc as [Hlen Hdig].
  intros [= <-]. rewrite length_fmap. split_and!; [done..|]. apply Forall_fmap.
  eapply Forall_impl; [exact Hdig|]. unfold is_digit. simpl. lia.
Qed.

Section Simulation.
Context `{!TotpEmbed, !LockSecret, !BuildProfile} {I V P : Type}.
Context `{!InputPin I, !HeaplessVec V, !OutputPin P}.
Context `{!InputPinLaws I, !HeaplessVecLaws V, !OutputPinLaws P}.
Implicit Types st : MainState I V P.

(** Iterations of an idle lock feed the controller nothing, and go on
    whatever the time. *)
Lemma idle_run st events :
  main_wf st -> idle st -> Forall (fun e => is_interrupt e = false) events ->
  is_Some (run st events) /\ fed st events = [].
Proof.
  revert st. induction events as [|e events IH]; intros st Hst Hidle; [by split; [eexists|]|].
  intros [He Hall]%Forall_cons. destruct e as [|ts]; [done|].
  destruct Hidle as (c & Hcap & Hq & Hempty). pose proof Hempty as [= Hbits Hlast].
  assert (Htake : take_completed_frame (capture st) (t_poll ts) = Some (None, Some c)).
  { rewrite Hcap. simpl. by rewrite Hlast. }
  assert (exists st1 con, iteration st ts = Some (st1, con)) as (st1 & con & Hrun).
  { unfold iteration. rewrite Htake. cbn [mbind option_bind].
    destruct (relock _ _). by eexists _, _. }
  destruct (iteration_spec st ts _ _ Hst Hrun) as (os & Hst1 & _ & (frame & Hcap1) & _).
  rewrite Htake in Hcap1. injection Hcap1 as _ Hcap1.
  destruct (IH st1 Hst1) as [[[st2 con2] Hr] Hf]; [by exists c|done|].
  cbn [run fed step]. rewrite Htake, Hrun. cbn [mbind option_bind].
  split; [rewrite Hr; by eexists|done].
Qed.

Lemma script_typed code start last until events script end_at :
  generate code start = Some (script, end_at) -> end_at <= until ->
  plays (edges script) last until events ->
  exists ks k rest,
    events = ((ks ++ [k]) ≫= key_events) ++ rest /\
    (forall c, Forall (event_fits c) events ->
       code_typed c (decimal_value (code_digits code)) ks k) /\
    iteration_ok (Iterate (silence k)) /\ t_poll (silence k) < end_at /\
    plays [] (t_poll (silence k)) until rest.
Proof.
  unfold generate. intros (values & Hkeys & Hscript)%bind_Some Huntil Hplay.
  injection Hscript as Hscript.
  destruct (keys_for_code_Some code values Hkeys) as (-> & Hlen & Hdig).
  pose proof (key_lines_end start (code_digits code ++ [ENTER])) as Hend.
  rewrite Hscript, length_app in Hend. cbn [snd length] in Hend.
  assert (Hrange : Forall (fun v => 0 <= v < 16) (code_digits code ++ [ENTER])).
  { apply Forall_app. split; [|by apply Forall_singleton].
    eapply Forall_impl; [exact Hdig|]. unfold is_digit. simpl. lia. }
  assert (Hplay' : plays (edges (key_lines start (code_digits code ++ [ENTER])).1) last until events)
    by by rewrite Hscript.
  destruct (keys_played (code_digits code) [ENTER] start last until events Hrange)
    as (ks & events1 & last1 & -> & Hks & Hcodes & Hplay1); [lia|done|].
  destruct (key_played ENTER [] (start + 48000 * Z.of_nat (length (code_digits code))) last1
              until events1 ltac:(by apply Forall_singleton))
    as (k & rest & -> & Hk & Hkc & Hit & Hpoll & Hplay2); [lia|exact Hplay1|].
  exists ks, k, rest. rewrite bind_app. cbn [mbind list_bind]. rewrite app_nil_r, <-app_assoc.
  split_and!; try done; [|lia]. intros c Hfit. split; [|split; [|split; [|done]]].
  - apply Forall_app. split; [done|by apply Forall_singleton].
  - rewrite app_assoc in Hfit. apply Forall_app in Hfit as [Hfit _].
    apply Forall_forall. intros k' Hk'. rewrite Forall_forall in Hfit.
    apply (Hfit (Iterate (silence k'))). apply elem_of_app.
    apply elem_of_app in Hk' as [Hin| ->%list_elem_of_singleton].
    + left. apply list_elem_of_bind. exists k'. split; [|done].
      unfold key_events. apply elem_of_app. right. by left.
    + right. unfold key_events. apply elem_of_app. right. by left.
  - unfold digits. by rewrite <-Hlen, decimal_digits_value.
Qed.

Lemma generated_digits code start script end_at :
  generate code start = Some (script, end_at) ->
  digits (decimal_value (code_digits code)) = code_digits code.
Proof.
  unfold generate. intros (values & Hkeys & _)%bind_Some.
  destruct (keys_for_code_Some code values Hkeys) as (_ & Hlen & Hdig).
  unfold digits. by rewrite <-Hlen, decimal_digits_value.
Qed.

(** After the script there are only iterations, and they find nothing. *)
Lemma rest_idle st last until rest :
  main_wf st -> idle st -> plays [] last until rest ->
  exists st' console,
    run st rest = Some (st', console) /\ main_wf st' /\ grants console = 0%nat.
Proof.
  intros Hst Hidle [Hed _ _ _].
  assert (Hquiet : Forall (fun e => is_interrupt e = false) rest).
  { apply Forall2_nil_inv_l in Hed.
    apply Forall_forall. intros e He. destruct (is_interrupt e) eqn:Hi; [|done].
    assert (Hin : e ∈ filter (fun e => is_interrupt e = true) rest)
      by by apply list_elem_of_filter.
    rewrite Hed in Hin. by apply elem_of_nil in Hin. }
  destruct (idle_run st rest Hst Hidle Hquiet) as [[[st2 con2] Hrun2] Hfed].
  destruct (run_spec st rest _ _ Hst Hrun2) as (os & Hst2 & _ & Hspec & Hg2).
  rewrite Hfed in Hspec. cbn [spec_on_frames] in Hspec. injection Hspec as <- _.
  by exists st2, con2.
Qed.

(** A loop that runs past [deadline] looks at the clock then. *)
Lemma checked_by script last until events deadline :
  plays script last until events -> last < until -> deadline <= until ->
  ~ Forall (fun t => t < deadline) (checks events).
Proof.
  intros [_ Hpaced _ Hits] Hlt Hover Hall.
  destruct (paced_last _ _ _ Hpaced Hlt) as (ts & Hin & Hts).
  pose proof (proj1 (Forall_forall _ _) Hits _ Hin) as Hit. simpl in Hit.
  assert (Hck : t_check ts ∈ checks events).
  { unfold checks. apply list_elem_of_omap. by exists (Iterate ts). }
  pose proof (proj1 (Forall_forall _ _) Hall _ Hck). simpl in *. lia.
Qed.

(** C4. The box in real time: a ready lock at whose keypad a six-digit code is
    played with the script's timing, by a loop that polls at least every 15
    milliseconds and an interrupt handler at most one millisecond late, in
    any interleaving, gives one verdict before the entry ends: access is
    granted, once, exactly when the code is accepted at the time of that
    iteration; and from then on the relay is driven exactly until the first
    look at the clock that finds five seconds have passed, so that it is not
    driven once the loop has run that long.  (The lock's timer and clock must
    have room left, as in C25.) *)
Theorem played_code_decides st code start last until events script end_at :
  ready st -> generate code start = Some (script, end_at) -> end_at <= until ->
  plays (edges script) last until events -> Forall (event_fits (clock st)) events ->
  exists before ts rest st' console,
    events = before ++ Iterate ts :: rest /\ t_poll ts < end_at /\
    run st events = Some (st', console) /\
    let accepted := matches SECRET (code_digits code)
          (system_unix_seconds (clock st) (t_clock ts)) SKEW_STEPS in
    let deadline := t_granted ts + UNLOCK_DURATION in
    grants console = (if accepted then 1%nat else 0%nat) /\
    (level (relay (actuator st')) = High <->
       accepted = true /\ Forall (fun t => t < deadline) (checks (Iterate ts :: rest))) /\
    (deadline <= until -> level (relay (actuator st')) = Low).
Proof.
  intros Hst Hgen Huntil Hplay Hfit.
  destruct (script_typed code start last until events script end_at Hgen Huntil Hplay)
    as (ks & k & rest & -> & Hty & Hit & Hpoll & Hrest). specialize (Hty _ Hfit).
  simpl in Hit. unfold PERIOD in Hit.
  assert (Hsoon : t_check (silence k) < t_granted (silence k) + UNLOCK_DURATION)
    by (unfold UNLOCK_DURATION; lia).
  destruct (typing_decides st _ ks k Hst Hty Hsoon)
    as (st1 & con1 & Hrun1 & Hst1 & Hidle1 & _ & Hg1 & Hd1).
  rewrite (generated_digits code start script end_at Hgen) in *.
  destruct (rest_idle st1 _ _ rest Hst1 Hidle1 Hrest) as (st2 & con2 & Hrun2 & Hst2 & Hg2).
  pose proof (run_deadline st1 rest st2 con2 Hst1 Hrun2 Hg2) as Hd2.
  exists ((ks ≫= key_events) ++ pulses k), (silence k), rest, st2, (con1 ++ con2).
  split_and!; [..|rewrite run_app, Hrun1; cbn [mbind option_bind]; by rewrite Hrun2|].
  { rewrite bind_app. cbn [mbind list_bind]. unfold key_events.
    rewrite app_nil_r, <-!app_assoc. done. }
  { done. }
  intros accepted deadline.
  change (lock_accepts (code_digits code) (unix_seconds (clock st, t_clock (silence k))))
    with accepted in Hg1, Hd1.
  change (t_granted (silence k) + UNLOCK_DURATION) with deadline in Hd1. clearbody accepted.
  assert (Hhigh : level (relay (actuator st2)) = High <->
            accepted = true /\ Forall (fun t => t < deadline) (checks (Iterate (silence k) :: rest))).
  { destruct Hst2 as (_ & _ & _ & Hrel). unfold released in Hrel. rewrite Hrel, Hd2, Hd1.
    change (checks (Iterate (silence k) :: rest)) with (t_check (silence k) :: checks rest).
    rewrite Forall_cons. destruct accepted; [|split; [by intros [? ?]|by intros [? _]]].
    case_decide; [split; [done|by eexists]|]. split; [by intros [? ?]|tauto]. }
  split; [rewrite grants_app, Hg1; lia|]. split; [done|]. intros Hover.
  destruct (level (relay (actuator st2))) eqn:Hl; [done|].
  destruct (proj1 Hhigh eq_refl) as [_ Hall]. exfalso.
  change (checks (Iterate (silence k) :: rest)) with (t_check (silence k) :: checks rest) in Hall.
  apply Forall_cons in Hall as [_ Hall].
  eapply (checked_by [] _ until rest deadline); [exact Hrest| |exact Hover|exact Hall].
  unfold deadline, UNLOCK_DURATION in *. lia.
Qed.
End Simulation.

(** ** run_sim_tests.py *)

#[local] Existing Instances sha1_hmac reference_totp_embed reference_totp_embed_laws
  placeholder_secret checked_build.

(** The harness's own [totp]. *)
Definition totp (secret : list Z) (unix_time : Z) : string :=
  zero_padded 6 (rfc6238 30 6 secret unix_time).

(** A schedule of the firmware: a poll every [gap] microseconds from [t] on,
    and an interrupt at each edge. *)
Fixpoint schedule (fuel : nat) (gap t : Z) (script : list (bool * Z)) (stop : Z) : list Event :=
  match fuel with
  | O => []
  | S fuel =>
      match script with
      | (bit, at_) :: script' =>
          if decide (at_ <= t)
          then Interrupt [bit] at_ at_ :: schedule fuel gap t script' stop
          else Iterate (tick t) :: schedule fuel gap (t + gap) script stop
      | [] =>
          if decide (stop < t) then []
          else Iterate (tick t) :: schedule fuel gap (t + gap) [] stop
      end
  end.

(** The waveform of the relay: when its level changes, and to what. *)
Fixpoint transitions (st : MainState bool (list bool) Level) (events : list Event) :
    list (Z * Level) :=
  match events with
  | [] => []
  | e :: events =>
      match step st e with
      | None => []
      | Some (st', _) =>
          let before := level (relay (actuator st)) in
          let now := level (relay (actuator st')) in
          (if decide (before = now) then [] else [(stamp e, now)]) ++ transitions st' events
      end
  end.

(** [run_emulator]: the console and the waveform of a run from power-on. *)
Definition emulate (build_epoch : Z) (code : string) (start_at stop_at : Z) :
    option (list string * list (Z * Level)) :=
  '(script, _) ← generate code start_at;
  st ← boot false false (to_string build_epoch);
  let events := schedule 3000 5000 0 (edges script) stop_at in
  '(_, console) ← run st events;
  Some (console, transitions st events).

(** [main], with [secret] and the build epoch as the harness extracts them. *)
Definition sim_main (build_epoch : Z) : option bool :=
  let correct_code := totp SECRET (build_epoch + 1) in
  let wrong_code := zero_padded 6 ((rfc6238 30 6 SECRET (build_epoch + 1) + 1) mod 10 ^ 6) in
  '(output, relay) ← emulate build_epoch correct_code 500000 (500000 + 1000000 + UNLOCK_DURATION + 1000000);
  '(output', relay') ← emulate build_epoch wrong_code 500000 3000000;
  Some (bool_decide ("access granted"%string ∈ output) &&
        match relay with
        | [(opened, High); (closed, Low)] =>
            bool_decide (Z.abs (closed - opened - UNLOCK_DURATION) <= 50000)
        | _ => false
        end &&
        bool_decide ("access denied"%string ∈ output') &&
        bool_decide ("access granted"%string ∉ output') && bool_decide (relay' = [])).

Example sim_passes : sim_main 1767225600 = Some true.
Proof. vm_compute. reflexivity. Qed.

(** ** Witness: a slow loop, and the code of the first step of 2026 *)

Definition played_code : string := Eval vm_compute in totp SECRET 1767225601.
Definition played_script : list Action :=
  match generate played_code 500000 with Some (script, _) => script | None => [] end.
Definition played_events : list Event := schedule 200 14000 495000 (edges played_script) 860000.

Lemma played_schedule : plays (edges played_script) 490000 840000 played_events.
Proof.
  split.
  - assert (Hf : filter (fun e => is_interrupt e = true) played_events =
              (fun edge => Interrupt [edge.1] edge.2 edge.2) <$> edges played_script)
      by (vm_compute; reflexivity).
    rewrite Hf. clear Hf. induction (edges played_script) as [|[bit t] l IH]; constructor; [|done].
    exists t. simpl. unfold LATENCY. split; [done|lia].
  - vm_compute. repeat split; discriminate.
  - vm_compute. repeat split; discriminate.
  - assert (Hf : forall fuel gap t script stop, Forall iteration_ok (schedule fuel gap t script stop)).
    { induction fuel as [|fuel IH]; intros gap t script stop; [constructor|]. simpl.
      destruct script as [|[bit at_] script]; case_decide; try constructor; try done;
        simpl; unfold PERIOD; lia. }
    apply Hf.
Qed.

Lemma booted_ready : ready booted_state.
Proof.
  assert (Hboot : boot false false new_year = Some booted_state) by (vm_compute; reflexivity).
  apply boot_wf in Hboot as (Hwf & Hty & Hr). split_and!; [exact Hwf|done| |done].
  eexists. split; [reflexivity|]. split; [split; reflexivity|reflexivity].
Qed.

Lemma played_code_decides_witness :
  matches SECRET (code_digits played_code) 1767225601 SKEW_STEPS = true /\
  exists before ts rest st' console,
    played_events = before ++ Iterate ts :: rest /\ t_poll ts < 836000 /\
    run booted_state played_events = Some (st', console) /\
    grants console = (if matches SECRET (code_digits played_code)
      (system_unix_seconds (clock booted_state) (t_clock ts)) SKEW_STEPS then 1%nat else 0%nat).
Proof.
  split; [vm_compute; reflexivity|].
  destruct (played_code_decides booted_state played_code 500000 490000 840000 played_events
              played_script 836000 booted_ready)
    as (before & ts & rest & st' & console & Hev & Hpoll & Hrun & Hg & _).
  - vm_compute. reflexivity.
  - discriminate.
  - exact played_schedule.
  - apply (bool_decide_unpack (Forall (event_fits (clock booted_state)) played_events)).
    vm_compute. exact I.
  - exists before, ts, rest, st', console. split; [exact Hev|]. split; [exact Hpoll|].
    split; [exact Hrun|exact Hg].
Defined.
