(* ===== verification/Guessing.v ===== *)
(** * How hard the lock is to guess

    The lock counts no failures.  What stands between a keypad and the bolt is
    that few of the million codes are accepted at a time, and that a code takes
    seven frames, each ended by a [MESSAGE_GAP] of silence: bounds on both,
    the second for every window of every run of the firmware. *)

From S2P Require Import Prelude RustText Rfc6238 Sha1 Wiegand PinEntry Totp Lock.
From S2P Require Import Capture Clock Firmware Simulation.
Local Open Scope Z_scope.

(** ** Codes *)

Section Codes.
Context `{!Hmac, !TotpEmbed, !TotpEmbedLaws _ _}.

(** The codes of the window, with repetitions. *)
Definition window_codes (secret : list Z) (now skew_steps : Z) : list (list Z) :=
  (fun w => digits (hotp DIGITS secret w)) <$>
    seqZ (now / STEP_SECONDS - skew_steps) (2 * skew_steps + 1).

Lemma accepted_in_window secret entered now skew_steps :
  Forall is_digit entered -> length entered = 6%nat ->
  is_uint 64 now -> is_uint 8 skew_steps ->
  matches secret entered now skew_steps = true -> entered ∈ window_codes secret now skew_steps.
Proof.
  intros Hd Hlen Hn Hs Hm. apply matches_window in Hm as (w & Hw & ->); [|done..].
  apply list_elem_of_fmap. exists w. split; [done|]. apply elem_of_seqZ.
  unfold accepted_window in Hw. lia.
Qed.
End Codes.

(** ** The rate *)

Section Rate.
Context `{!TotpEmbed, !LockSecret, !BuildProfile} {I V P : Type}.
Context `{!InputPin I, !HeaplessVec V, !OutputPin P}.
Context `{!InputPinLaws I, !HeaplessVecLaws V, !OutputPinLaws P}.
Implicit Types st : MainState I V P.

(** How often the console gives a verdict on a code. *)
Definition verdicts (console : list string) : nat :=
  length (filter (fun line => line = "access granted"%string \/ line = "access denied"%string)
            console).

Lemma verdicts_app c c' : verdicts (c ++ c') = (verdicts c + verdicts c')%nat.
Proof. unfold verdicts. by rewrite filter_app, length_app. Qed.

(** A verdict takes six typed digits and a frame; a frame types one digit. *)
Lemma handle_bits_verdicts st bits tc tg st' console :
  main_wf st -> handle_bits st bits tc tg = Some (st', console) ->
  (7 * verdicts console + length (typed_so_far st') <= 1 + length (typed_so_far st))%nat.
Proof.
  intros (Hwf & _) Hrun. unfold handle_bits in Hrun.
  apply bind_Some in Hrun as (frame & _ & Hrun).
  destruct (asks_time _ _ && _); [done|].
  destruct (on_frame_refines (controller st) frame (clock st, tc) (actuator st) Hwf)
    as (outcome & c' & act' & Hon & _ & _ & _ & Hspec & _).
  rewrite Hon in Hrun. cbn [mbind option_bind] in Hrun.
  apply bind_Some in Hrun as ([armed con] & Harm & [= <- <-]).
  assert (Hcon : con = match outcome with Unlocked => ["access granted"%string]
                       | Rejected => ["access denied"%string] | Waiting => [] end).
  { destruct outcome; [by simplify_eq| |by simplify_eq].
    by apply bind_Some in Harm as (? & _ & [= _ <-]). }
  clear Harm. subst con. unfold typed_so_far. unfold spec_on_frame in Hspec.
  destruct (frame_key frame) as [[d| |]|];
    cbn [spec_push] in Hspec; repeat case_decide; repeat case_match; simplify_eq/=;
    repeat match goal with H : _ = typed (entry c') |- _ => rewrite <-H end;
    rewrite ?length_app; unfold PIN_LEN in *; simpl; lia.
Qed.

Lemma relock_verdicts st t : verdicts (relock st t).2 = 0%nat.
Proof. unfold relock. by repeat case_match. Qed.

(** [since] is when the last frame came, or when the one now due became so. *)
Definition since_ok (since now : Z) st : Prop :=
  since <= now /\
  forall l, (captured (capture st)).2 = Some l -> since <= l \/ since + MESSAGE_GAP <= now.

Lemma step_verdicts st e st' console since now :
  main_wf st -> step st e = Some (st', console) -> ordered now [e] -> since_ok since now st ->
  exists frames : nat,
    (7 * verdicts console + length (typed_so_far st') <= frames + length (typed_so_far st))%nat /\
    since_ok (since + MESSAGE_GAP * Z.of_nat frames) (moment now e) st'.
Proof.
  intros Hwf Hstep Hord [Hnow Hlast]. destruct e as [edges now0 now1|ts]; cbn [step ordered moment] in *.
  - apply bind_Some in Hstep as (c' & Hc & [= <- <-]). exists 0%nat. split; [unfold typed_so_far; simpl; lia|].
    split; [lia|]. intros l Hl. cbn [with_capture capture] in Hl.
    eapply interrupt_last_edge in Hc; [|done]. rewrite raised_edges in Hc.
    destruct Hc as [Hc%Hlast|Hc]; lia.
  - unfold iteration in Hstep. pose proof (take_last_edge (capture st) (t_poll ts)) as Ht.
    destruct (take_completed_frame (capture st) (t_poll ts)) as [[[bits|] c']|];
      [| |done]; specialize (Ht _ _ eq_refl); cbn [mbind option_bind] in Hstep.
    + destruct Ht as (l & Hl%Hlast & Hgap & Hnone).
      apply bind_Some in Hstep as ([st1 con] & Hh & Hrest).
      pose proof (handle_bits_verdicts (with_capture st c') _ _ _ _ _ Hwf Hh) as Hv.
      destruct (handle_bits_spec (with_capture st c') _ _ _ _ _ Hwf Hh)
        as (frame & o & _ & Hwf1 & Hcap & _).
      pose proof (relock_spec st1 (t_check ts) Hwf1) as Hl1.
      pose proof (relock_verdicts st1 (t_check ts)) as Hv1.
      destruct (relock st1 (t_check ts)) as [st2 con']. injection Hrest as <- <-.
      destruct Hl1 as (_ & Hcap2 & Hctl & _). exists 1%nat. split.
      * rewrite verdicts_app. unfold typed_so_far in *. rewrite Hctl. simpl in *. lia.
      * split; [lia|]. rewrite Hcap2, Hcap. simpl. rewrite Hnone. done.
    + pose proof (relock_spec (with_capture st c') (t_check ts) Hwf) as Hl1.
      pose proof (relock_verdicts (with_capture st c') (t_check ts)) as Hv1.
      destruct (relock (with_capture st c') (t_check ts)) as [st2 con']. injection Hstep as <- <-.
      destruct Hl1 as (_ & Hcap2 & Hctl & _). exists 0%nat. split.
      * unfold typed_so_far in *. rewrite Hctl. simpl in *. lia.
      * split; [lia|]. intros l. rewrite Hcap2. simpl. rewrite Ht. intros [?|?]%Hlast; lia.
Qed.

Lemma run_verdicts st events st' console since now :
  main_wf st -> run st events = Some (st', console) -> ordered now events -> since_ok since now st ->
  exists frames : nat,
    (7 * verdicts console + length (typed_so_far st') <= frames + length (typed_so_far st))%nat /\
    since + MESSAGE_GAP * Z.of_nat frames <= last_moment now events.
Proof.
  revert st console since now. induction events as [|e events IH]; intros st console since now Hwf Hrun Hord Hs.
  { injection Hrun as <- <-. exists 0%nat. split; [simpl; lia|]. destruct Hs. simpl. lia. }
  cbn [run] in Hrun. apply bind_Some in Hrun as ([st1 con1] & Hstep & Hrun).
  apply bind_Some in Hrun as ([st2 con2] & Hrun & [= <- <-]).
  apply ordered_cons in Hord as [Hord1 Hord2].
  destruct (step_verdicts st e st1 con1 since now Hwf Hstep Hord1 Hs) as (n1 & Hv1 & Hs1).
  destruct (step_spec st e _ _ Hwf Hstep) as (_ & Hwf1 & _).
  destruct (IH st1 con2 _ _ Hwf1 Hrun Hord2 Hs1) as (n2 & Hv2 & Hlast).
  exists (n1 + n2)%nat. rewrite verdicts_app. split; [lia|].
  unfold last_moment in *. simpl. lia.
Qed.
End Rate.

(** ** Properties *)

(** C21. At any moment the lock accepts at most [2 * skew_steps + 1] of the
    million codes: three, as the firmware is built. *)
Theorem few_codes_accepted `{!Hmac, !TotpEmbed, !TotpEmbedLaws _ _}
    secret (codes : list (list Z)) now skew_steps :
  is_uint 64 now -> is_uint 8 skew_steps -> NoDup codes ->
  Forall (fun code => Forall is_digit code /\ length code = 6%nat /\
                      matches secret code now skew_steps = true) codes ->
  Z.of_nat (length codes) <= 2 * skew_steps + 1.
Proof.
  intros Hn Hs Hnodup Hcodes.
  assert (Hsub : codes ⊆+ window_codes secret now skew_steps).
  { apply NoDup_submseteq; [done|]. intros code Hin. rewrite Forall_forall in Hcodes.
    destruct (Hcodes code Hin) as (Hd & Hlen & Hm). by apply accepted_in_window. }
  apply submseteq_length in Hsub. unfold window_codes in Hsub.
  rewrite length_fmap, length_seqZ in Hsub. destruct Hs. lia.
Qed.

(** C20. Guessing takes time: in any stretch of any history of the lock since
    boot, [n] verdicts on codes, granted or denied, take at least [n - 1]
    times seven [MESSAGE_GAP]s, from the stretch's beginning to its last
    edge or poll, whatever the keypad sends. *)
Theorem guesses_take_time `{!TotpEmbed, !LockSecret, !BuildProfile} {I V P : Type}
    `{!InputPin I, !HeaplessVec V, !OutputPin P}
    `{!InputPinLaws I, !HeaplessVecLaws V, !OutputPinLaws P}
    (d0 d1 : I) env before events now (st0 st st' : MainState I V P) c0 console :
  boot d0 d1 env = Some st0 -> run st0 before = Some (st, c0) ->
  run st events = Some (st', console) -> ordered now events ->
  7 * MESSAGE_GAP * (Z.of_nat (verdicts console) - 1) <= last_moment now events - now.
Proof.
  intros Hboot Hbefore Hrun Hord. destruct (boot_wf _ _ _ _ Hboot) as (Hwf0 & _).
  destruct (run_spec st0 before _ _ Hwf0 Hbefore) as (_ & Hwf & _).
  assert (Hs : since_ok (now - MESSAGE_GAP) now st).
  { split; [unfold MESSAGE_GAP; lia|]. intros l _. right. lia. }
  destruct (run_verdicts st events st' console _ _ Hwf Hrun Hord Hs) as (frames & Hv & Hlast).
  pose proof (length_typed (entry (controller st)) (proj1 Hwf)) as Htyped.
  destruct (proj1 Hwf) as [_ Hlen]. unfold typed_so_far, PIN_LEN, MESSAGE_GAP in *. lia.
Qed.

(** ** Witnesses: the three codes of a window; keys as fast as they are read *)

#[local] Existing Instances sha1_hmac reference_totp_embed reference_totp_embed_laws
  placeholder_secret checked_build.

Definition three_codes : list (list Z) := Eval vm_compute in window_codes rfc_secret 1111111109 1.

Lemma few_codes_accepted_witness :
  Forall (fun code => matches rfc_secret code 1111111109 1 = true) three_codes /\
  Z.of_nat (length three_codes) <= 3.
Proof.
  split; [repeat constructor; vm_compute; reflexivity|].
  apply (few_codes_accepted rfc_secret three_codes 1111111109 1).
  - split; [discriminate|reflexivity].
  - split; [discriminate|reflexivity].
  - apply (bool_decide_unpack (NoDup three_codes)). vm_compute. exact I.
  - apply (bool_decide_unpack (Forall (fun code => Forall is_digit code /\
      length code = 6%nat /\ matches rfc_secret code 1111111109 1 = true) three_codes)).
    vm_compute. exact I.
Defined.

(** The [i]-th key of a keypad that leaves exactly a gap between keys. *)
Definition fast_key (i : nat) (v : Z) : list Event :=
  let t := MESSAGE_GAP * Z.of_nat i in
  ((fun bit => Interrupt [bit] t t) <$> nibble v) ++ [Iterate (Firmware.tick (t + MESSAGE_GAP))].

Definition two_guesses : list Event :=
  concat (imap fast_key [0; 0; 0; 0; 0; 0; 11; 0; 0; 0; 0; 0; 1; 11]).

Lemma two_guesses_denied :
  (st ← booted; snd <$> run st two_guesses) = Some ["access denied"; "access denied"]%string.
Proof. vm_compute. reflexivity. Qed.

Lemma guesses_take_time_witness :
  exists (st st' : MainState bool (list bool) Level) console,
    run st two_guesses = Some (st', console) /\ verdicts console = 2%nat /\
    175000 <= last_moment 0 two_guesses - 0.
Proof.
  pose proof two_guesses_denied as Hd. destruct booted as [st|] eqn:Hboot; [|discriminate].
  cbn [mbind option_bind] in Hd. apply fmap_Some in Hd as ([st' console] & Hrun & Hc).
  exists st, st', console. cbn [snd] in Hc. subst console.
  split; [exact Hrun|]. split; [reflexivity|].
  apply (guesses_take_time false false new_year [] two_guesses 0 st st st' []
           ["access denied"; "access denied"]%string Hboot eq_refl Hrun).
  vm_compute. repeat split; discriminate.
Defined.
