(* ===== verification/Base32.v ===== *)
(** * Base32, for examples

    RFC 4648 without padding: how the [totp_rs] crate writes a secret, and how
    the end-to-end test reads it back.  Different bytes have different texts.
    Used only by stand-ins for that crate. *)

From S2P Require Import Prelude RustText.
Local Open Scope Z_scope.

Definition alphabet : list Z := bytes_of_string "ABCDEFGHIJKLMNOPQRSTUVWXYZ234567".

(** The [w] low bits of a number, the highest first, and back. *)
Definition bits_of (w : nat) (b : Z) : list bool :=
  (fun i => Z.testbit b (Z.of_nat i)) <$> rev (seq 0 w).
Definition of_bits (bits : list bool) : Z := foldl (fun acc b => 2 * acc + Z.b2z b) 0 bits.

(** Groups of [w] bits; the last one is filled up with zeros, or dropped. *)
Fixpoint groups (fuel w : nat) (fill : bool) (bits : list bool) : list (list bool) :=
  match fuel, bits with
  | O, _ | _, [] => []
  | S fuel, _ =>
      let group := take w bits in
      if decide (length group = w) then group :: groups fuel w fill (drop w bits)
      else if fill then [group ++ replicate (w - length group) false] else []
  end.

Definition base32_encode (bytes : list Z) : string :=
  let bits := bytes ≫= bits_of 8 in
  string_of_bytes ((fun g => alphabet !!! Z.to_nat (of_bits g)) <$> groups (length bits) 5 true bits).

Definition base32_decode (s : string) : option (list Z) :=
  digits ← mapM (fun c => fst <$> list_find (fun a => a = c) alphabet) (bytes_of_string s);
  let bits := digits ≫= (fun d => bits_of 5 (Z.of_nat d)) in
  Some (of_bits <$> groups (length bits) 8 false bits).

(** Test vectors of the RFC. *)
Example base32_vectors :
  base32_encode <$> [bytes_of_string "f"; bytes_of_string "foobar"] = ["MY"; "MZXW6YTBOI"]%string /\
  base32_decode "MZXW6YTBOI" = Some (bytes_of_string "foobar") /\
  base32_decode "MY" = Some (bytes_of_string "f").
Proof. split_and!; vm_compute; reflexivity. Qed.

(** ** The text determines the bytes *)

(** What a character stands for. *)
Definition group_of (c : Z) : list bool :=
  match list_find (fun a => a = c) alphabet with
  | Some (i, _) => bits_of 5 (Z.of_nat i)
  | None => []
  end.

Lemma character_of_group (g : list bool) :
  length g = 5%nat ->
  let c := alphabet !!! Z.to_nat (of_bits g) in is_uint 8 c /\ group_of c = g.
Proof.
  destruct g as [|b0 [|b1 [|b2 [|b3 [|b4 [|]]]]]]; try discriminate. intros _.
  destruct b0, b1, b2, b3, b4; (split; [split; [discriminate|reflexivity]|vm_compute; reflexivity]).
Qed.

(** The groups are the bits, filled up by less than a group. *)
Lemma groups_concat w fuel bits :
  (0 < w)%nat -> (length bits <= fuel)%nat ->
  Forall (fun g => length g = w) (groups fuel w true bits) /\
  exists k, (k < w)%nat /\ concat (groups fuel w true bits) = bits ++ replicate k false.
Proof.
  intros Hw. revert bits. induction fuel as [|fuel IH]; intros bits Hlen.
  { destruct bits; [|simpl in Hlen; lia]. split; [constructor|]. by exists 0%nat. }
  destruct bits as [|b bits]; [split; [constructor|]; by exists 0%nat|].
  cbn [groups]. set (l := b :: bits) in *. pose proof (length_take l w) as Ht.
  case_decide as Hd.
  - destruct (IH (drop w l)) as [Hall (k & Hk & Hc)].
    { rewrite length_drop. subst l. simpl in *. lia. }
    split; [by constructor|]. exists k. split; [done|]. cbn [concat].
    by rewrite Hc, app_assoc, take_drop.
  - split; [apply Forall_singleton; rewrite length_app, length_replicate; lia|].
    exists (w - length (take w l))%nat. cbn [concat]. rewrite app_nil_r. split.
    + subst l. simpl in *. lia.
    + by rewrite (take_ge l w) by lia.
Qed.

Lemma length_bits_of w b : length (bits_of w b) = w.
Proof. unfold bits_of. by rewrite length_fmap, length_rev, length_seq. Qed.

Lemma of_bits_byte b : 0 <= b < 256 -> of_bits (bits_of 8 b) = b.
Proof.
  intros Hb. assert (Hall : Forall (fun b => of_bits (bits_of 8 b) = b) (seqZ 0 256)).
  { apply (bool_decide_unpack _). vm_compute. exact I. }
  rewrite Forall_forall in Hall. apply Hall, elem_of_seqZ. lia.
Qed.

Lemma length_byte_bits bytes : length (bytes ≫= bits_of 8) = (8 * length bytes)%nat.
Proof.
  induction bytes as [|b bytes IH]; [done|]. rewrite bind_cons, length_app, length_bits_of, IH.
  simpl. lia.
Qed.

Lemma byte_bits_inj bytes bytes' :
  Forall (is_uint 8) bytes -> Forall (is_uint 8) bytes' ->
  bytes ≫= bits_of 8 = bytes' ≫= bits_of 8 -> bytes = bytes'.
Proof.
  revert bytes'. induction bytes as [|b bytes IH]; intros [|b' bytes'] Hb Hb' Heq; try done.
  rewrite !bind_cons in Heq. apply Forall_cons in Hb as [Hb Hbs], Hb' as [Hb' Hbs'].
  apply app_inj_1 in Heq as [Heq Hrest]; [|by rewrite !length_bits_of].
  f_equal; [|by apply IH]. rewrite <-(of_bits_byte b), <-(of_bits_byte b') by done.
  by rewrite Heq.
Qed.

Lemma base32_encode_inj bytes bytes' :
  Forall (is_uint 8) bytes -> Forall (is_uint 8) bytes' ->
  base32_encode bytes = base32_encode bytes' -> bytes = bytes'.
Proof.
  intros Hb Hb' Heq. apply byte_bits_inj; [done..|]. unfold base32_encode in Heq.
  set (bits := bytes ≫= bits_of 8) in *. set (bits' := bytes' ≫= bits_of 8) in *.
  destruct (groups_concat 5 (length bits) bits ltac:(lia) (le_n _)) as [Hg (k & Hk & Hc)].
  destruct (groups_concat 5 (length bits') bits' ltac:(lia) (le_n _)) as [Hg' (k' & Hk' & Hc')].
  set (gs := groups (length bits) 5 true bits) in *.
  set (gs' := groups (length bits') 5 true bits') in *.
  assert (Hchars : forall gs, Forall (fun g => length g = 5%nat) gs ->
    group_of <$> bytes_of_string (string_of_bytes
      ((fun g => alphabet !!! Z.to_nat (of_bits g)) <$> gs)) = gs).
  { intros l Hl. rewrite bytes_of_string_of_bytes.
    - rewrite <-list_fmap_compose. rewrite <-(list_fmap_id l) at 2. apply list_fmap_ext.
      intros i g Hi. rewrite Forall_forall in Hl.
      apply list_elem_of_lookup_2 in Hi. by destruct (character_of_group g (Hl _ Hi)).
    - apply Forall_fmap. eapply Forall_impl; [exact Hl|]. intros g Hlen.
      by destruct (character_of_group g Hlen). }
  assert (Hgs : gs = gs') by (by rewrite <-(Hchars gs), <-(Hchars gs'), Heq).
  rewrite Hgs, Hc' in Hc. pose proof (f_equal length Hc) as Hlen.
  rewrite !length_app, !length_replicate in Hlen.
  assert (length bits = length bits').
  { unfold bits, bits' in *. rewrite !length_byte_bits in *. lia. }
  symmetry in Hc. by apply app_inj_1 in Hc as [Hc _].
Qed.
