(* ===== verification/AppError.v ===== *)
(** * totp-server/src/error.rs: errors and what the client sees of them

    [anyhow] and [sqlx] errors are carried as their debug text, which is all
    the server ever does with them: log it. *)

From S2P Require Import Prelude.
Local Open Scope Z_scope.
Local Open Scope string_scope.

Inductive AppError :=
| Unauthorized
| Forbidden
| NotFound
| RateLimited
| IntrospectionUnavailable (source : string)
| Internal (source : string).

#[export] Instance AppError_eq_dec : EqDecision AppError.
Proof. solve_decision. Defined.

(** The [#[error("..")]] texts of [thiserror]. *)
Definition app_error_to_string (self : AppError) : string :=
  match self with
  | Unauthorized => "unauthorized"
  | Forbidden => "forbidden"
  | NotFound => "no TOTP secret registered for this user"
  | RateLimited => "too many requests"
  | IntrospectionUnavailable _ => "token introspection is temporarily unavailable"
  | Internal _ => "internal server error"
  end.

Record ErrorBody := mkErrorBody { error : string }.

(** A [tracing] event: level, message and fields. *)
Inductive LogLevel := Debug | Info | Warn | Error.

Record LogLine := mkLogLine {
  log_level : LogLevel;
  message : string;
  fields : list (string * string)
}.

Definition status_code (self : AppError) : Z :=
  match self with
  | Unauthorized => 401
  | Forbidden => 403
  | NotFound => 404
  | RateLimited => 429
  | IntrospectionUnavailable _ => 503
  | Internal _ => 500
  end.

Definition log_of (self : AppError) : LogLine :=
  match self with
  | IntrospectionUnavailable source =>
      mkLogLine Error "token introspection failed" [("error", source)]
  | Internal source => mkLogLine Error "internal error" [("error", source)]
  | other => mkLogLine Debug "request rejected" [("error", app_error_to_string other)]
  end.

(** What is logged, the status, and the JSON body. *)
Definition into_response (self : AppError) : LogLine * (Z * ErrorBody) :=
  (log_of self, (status_code self, {| error := app_error_to_string self |})).

(** [impl From<sqlx::Error>]. *)
Definition from_sqlx (err : string) : AppError := Internal err.

(** [AppResult<T>]. *)
Notation AppResult T := (result T AppError).

(** ** Lemmas *)

Lemma status_code_is_error e : 400 <= status_code e < 600.
Proof. destruct e; simpl; lia. Qed.

Lemma status_code_too_many e : status_code e = 429 <-> e = RateLimited.
Proof. by destruct e. Qed.

(** The constructor an error is built with, without its cause. *)
Definition kind (e : AppError) : AppError :=
  match e with
  | IntrospectionUnavailable _ => IntrospectionUnavailable ""
  | Internal _ => Internal ""
  | e => e
  end.

Lemma response_of_kind e : (into_response e).2 = (into_response (kind e)).2.
Proof. by destruct e. Qed.

Lemma kind_of_status e e' : status_code e = status_code e' <-> kind e = kind e'.
Proof. by destruct e, e'. Qed.

(** ** Properties *)

(** A client learns which of the six kinds of error happened and nothing
    else: two errors are answered alike exactly when they are of the same
    kind, whatever database or upstream text they carry, always with an error
    status; the carried text of the internal kinds goes to the log instead. *)
Theorem into_response_is_opaque (e e' : AppError) :
  ((into_response e).2 = (into_response e').2 <-> kind e = kind e') /\
  400 <= (into_response e).2.1 < 600 /\
  (forall source, e = Internal source \/ e = IntrospectionUnavailable source ->
     fields (into_response e).1 = [("error", source)]).
Proof.
  split_and!.
  - split.
    + intros Heq. apply kind_of_status. by injection Heq.
    + intros Hk. by rewrite (response_of_kind e), (response_of_kind e'), Hk.
  - apply status_code_is_error.
  - apply status_code_is_error.
  - by intros source [->| ->].
Qed.
