(* ===== verification/Effects.v ===== *)
(** * The server's effects

    A handler is a program [Prog T]: it returns a value or performs one effect
    on something outside the code (database, clocks, randomness, Keycloak,
    the rate limiter's store, the log) and continues with the answer.  Programs
    have two readings.  [wp] ranges over every answer the outside can give at
    every point, so what it establishes holds under any interleaving with
    other requests.  [exec] runs a program alone against a [World] (the two
    database tables with the meaning of the SQL statements, the log, the
    limiter) and an [Oracle] for what the world does not determine: failures,
    clocks, randomness, and Keycloak's replies. *)

From S2P Require Import Prelude AppError.
Local Open Scope Z_scope.

(** ** What passes between the server and the outside *)

(** [auth/introspection.rs]: the body serde accepts. *)
Inductive Audience :=
| One (value : string)
| Many (values : list string).

Record RealmAccess := mkRealmAccess { roles : list string }.

Record IntrospectionResponse := mkIntrospectionResponse {
  active : bool;
  sub : option string;
  aud : option Audience;
  exp : option Z;
  realm_access : option RealmAccess
}.

(** What an introspection request gets: a transport error, or a status and
    the body, parsed or not. *)
Inductive HttpReply :=
| Unreachable (err : string)
| Reply (status : Z) (body : result IntrospectionResponse string).

(** [.post(url).basic_auth(id, secret).form([("token", token)])]. *)
Record Post := mkPost {
  post_url : string;
  post_client_id : string;
  post_client_secret : string;
  post_token : string
}.

(** [auth/mod.rs]. *)
Record AuthenticatedUser := mkAuthenticatedUser {
  subject : string;
  realm_roles : list string
}.

#[export] Instance AuthenticatedUser_eq_dec : EqDecision AuthenticatedUser.
Proof. solve_decision. Defined.

Definition has_role (self : AuthenticatedUser) (role : string) : bool :=
  existsb (fun r => bool_decide (r = role)) (realm_roles self).

(** [auth/introspection.rs]: the result that is broadcast. *)
Inductive IntrospectionOutcome :=
| Active (user : AuthenticatedUser)
| Inactive
| WrongAudience
| Unavailable (reason : string).

#[export] Instance IntrospectionOutcome_eq_dec : EqDecision IntrospectionOutcome.
Proof. solve_decision. Defined.

(** What a database call fails with.  The code sees the text; whether the
    statement took effect all the same (an acknowledgement that got lost) is
    the outside's to know, and is kept for the proofs. *)
Record DbError := mkDbError { db_text : string; took_effect : bool }.

(** A statement that took effect, whatever its caller was told. *)
Definition applied {T} (r : result T DbError) : bool :=
  match r with
  | Ok _ => true
  | Err err => took_effect err
  end.

(** A receiver of a broadcast channel. *)
Definition Receiver : Type := nat.

(** ** Effects and programs *)

Inductive Eff : Type -> Type :=
(** [select encrypted_secret, nonce from totp_secrets where subject = $1] *)
| SelectSecret (subject : string) : Eff (result (option (list Z * list Z)) DbError)
(** [insert into totp_secrets .. on conflict (subject) do update ..] *)
| UpsertSecret (subject : string) (encrypted_secret nonce : list Z) : Eff (result unit DbError)
(** [update totp_secrets set last_used_at = now() where subject = $1] *)
| TouchSecret (subject : string) : Eff (result unit DbError)
(** [insert into request_log (id, subject, result) values ($1, $2, $3)] *)
| InsertLog (id : Z) (subject : option string) (res : string) : Eff (result unit DbError)
(** [Nonce::generate()], [Uuid::new_v4()], [Secret::generate()] *)
| GenerateNonce : Eff (list Z)
| NewUuid : Eff Z
| GenerateSecret : Eff (list Z)
(** Seconds since the Unix epoch, negative before it. *)
| ReadClock : Eff Z
| SendPost (post : Post) : Eff HttpReply
(** The in-flight map, one critical section each.  Look the key up: subscribe
    to its sender, or insert a new sender. *)
| JoinInflight (key : list Z) : Eff (option Receiver)
(** [rx.recv()]: a message, or an error once no sender is left. *)
| Receive (rx : Receiver) : Eff (result IntrospectionOutcome unit)
(** Look the key up again and, if it is there, send on its channel. *)
| SendInflight (key : list Z) (outcome : IntrospectionOutcome) : Eff unit
(** [InflightGuard]'s [drop]: remove the key, and with it the sender. *)
| LeaveInflight (key : list Z) : Eff unit
(** The limiter's decision on one more request for a key. *)
| CheckLimit (key : string) : Eff bool
| Trace (line : LogLine) : Eff unit
(** A failed [expect]: never answered. *)
| Panic : Eff Empty_set.

Inductive Prog (T : Type) : Type :=
| Ret (value : T)
| Do {A : Type} (e : Eff A) (k : A -> Prog T).
Arguments Ret {T} value.
Arguments Do {T A} e k.

Definition perform {A} (e : Eff A) : Prog A := Do e Ret.

#[export] Instance prog_ret : MRet Prog := @Ret.
#[export] Instance prog_bind : MBind Prog := fun A B f =>
  fix bind (p : Prog A) : Prog B :=
    match p with
    | Ret v => f v
    | Do e k => Do e (fun a => bind (k a))
    end.

(** Programs that may fail, composed with [?]. *)
Notation ProgR T := (Prog (AppResult T)).

Definition try_bind {T U} (p : ProgR T) (f : T -> ProgR U) : ProgR U :=
  r ← p;
  match r with
  | Ok v => f v
  | Err e => mret (Err e)
  end.

Notation "'let!' x ':=' m 'in' k" := (try_bind m (fun x => k))
  (at level 10, x pattern, m at level 100, k at level 200) : rust_scope.

(** [.await?] on a database operation. *)
Definition from_db {T} (r : result T DbError) : AppResult T :=
  match r with
  | Ok v => Ok v
  | Err e => Err (from_sqlx (db_text e))
  end.

(** ** Every answer, at every point *)

Section Wp.
Context (phi : forall A, Eff A -> Prop) (rho : forall A, Eff A -> A -> Prop).

(** If every answer satisfies [rho], then every effect satisfies [phi] and
    every result satisfies [Q]. *)
Fixpoint wp {T} (p : Prog T) (Q : T -> Prop) : Prop :=
  match p with
  | Ret v => Q v
  | Do e k => phi _ e /\ forall a, rho _ e a -> wp (k a) Q
  end.

Lemma wp_bind {T U} (p : Prog T) (f : T -> Prog U) Q :
  wp (p ≫= f) Q <-> wp p (fun v => wp (f v) Q).
Proof.
  induction p as [v|A e k IH]; [done|]. simpl.
  split; intros [He Hk]; (split; [done|]); intros a Ha; by apply IH, Hk.
Qed.

Lemma wp_mono {T} (p : Prog T) (Q Q' : T -> Prop) :
  (forall v, Q v -> Q' v) -> wp p Q -> wp p Q'.
Proof.
  intros HQ. induction p as [v|A e k IH]; simpl; [apply HQ|].
  intros [He Hk]. split; [done|]. intros a Ha. by apply IH, Hk.
Qed.
End Wp.

(** ** Running alone *)

Record SecretRow := mkSecretRow {
  encrypted_secret : list Z;
  row_nonce : list Z;
  created_at : Z;
  last_used_at : option Z
}.

Record LogRow := mkLogRow {
  row_id : Z;
  row_subject : option string;
  requested_at : Z;
  row_result : string
}.

(** The rate limiter's store ([governor]): external.  It reads a monotonic
    clock of its own, in nanoseconds. *)
Class Governor (L : Type) := governor_check : L -> string -> Z -> bool * L.

Record World (L : Type) := mkWorld {
  totp_secrets : gmap string SecretRow;
  request_log : list LogRow;
  traces : list LogLine;
  posts : list Post;
  limiter : L;
  (** Keys of the in-flight map. *)
  inflight : gset (list Z);
  (** How many effects have happened. *)
  tick : nat
}.
Arguments mkWorld {L}.
Arguments totp_secrets {L}.
Arguments request_log {L}.
Arguments traces {L}.
Arguments posts {L}.
Arguments limiter {L}.
Arguments inflight {L}.
Arguments tick {L}.

(** What happens at each tick. *)
Record Oracle := mkOracle {
  db_error : nat -> option DbError;
  (** The system's clock, in seconds, and the limiter's, in nanoseconds. *)
  clock : nat -> Z;
  monotonic : nat -> Z;
  random_nonce : nat -> list Z;
  random_uuid : nat -> Z;
  random_secret : nat -> list Z;
  keycloak : nat -> Post -> HttpReply;
  (** What another request's leader broadcasts. *)
  broadcast : nat -> result IntrospectionOutcome unit
}.

Section Exec.
Context {L : Type} `{!Governor L} (o : Oracle).
Implicit Types w : World L.

Definition ticked w : World L :=
  mkWorld (totp_secrets w) (request_log w) (traces w) (posts w) (limiter w) (inflight w) (S (tick w)).
Definition with_secrets w t : World L :=
  mkWorld t (request_log w) (traces w) (posts w) (limiter w) (inflight w) (tick w).
Definition with_log w l : World L :=
  mkWorld (totp_secrets w) l (traces w) (posts w) (limiter w) (inflight w) (tick w).
Definition with_traces w l : World L :=
  mkWorld (totp_secrets w) (request_log w) l (posts w) (limiter w) (inflight w) (tick w).
Definition with_posts w l : World L :=
  mkWorld (totp_secrets w) (request_log w) (traces w) l (limiter w) (inflight w) (tick w).
Definition with_limiter w l : World L :=
  mkWorld (totp_secrets w) (request_log w) (traces w) (posts w) l (inflight w) (tick w).

Definition with_inflight w m : World L :=
  mkWorld (totp_secrets w) (request_log w) (traces w) (posts w) (limiter w) m (tick w).

(** A database statement takes effect, or fails as the oracle says: before it
    took effect, or after, the answer being lost. *)
Definition db {T} w (statement : World L -> result T DbError * World L) :
    result T DbError * World L :=
  match db_error o (tick w) with
  | Some err =>
      if took_effect err then
        let (r, w') := statement w in
        (Err {| db_text := db_text err; took_effect := applied r |}, ticked w')
      else (Err err, ticked w)
  | None => let (r, w') := statement w in (r, ticked w')
  end.

Definition upserted now (encrypted_secret nonce : list Z) (old : option SecretRow) :
    option SecretRow :=
  Some {| encrypted_secret := encrypted_secret; row_nonce := nonce;
          created_at := now; last_used_at := None |}.

Definition touched now (row : SecretRow) : SecretRow :=
  {| encrypted_secret := encrypted_secret row; row_nonce := row_nonce row;
     created_at := created_at row; last_used_at := Some now |}.

Definition exec_eff {A} (e : Eff A) w : option A * World L :=
  match e in Eff A return option A * World L with
  | SelectSecret subject =>
      let (r, w) := db w (fun w =>
        (Ok ((fun row => (encrypted_secret row, row_nonce row)) <$>
               totp_secrets w !! subject), w)) in
      (Some r, w)
  | UpsertSecret subject encrypted_secret nonce =>
      let (r, w) := db w (fun w =>
        (Ok tt, with_secrets w
           (partial_alter (upserted (clock o (tick w)) encrypted_secret nonce) subject
              (totp_secrets w)))) in
      (Some r, w)
  | TouchSecret subject =>
      let (r, w) := db w (fun w =>
        (Ok tt, with_secrets w
           (alter (touched (clock o (tick w))) subject (totp_secrets w)))) in
      (Some r, w)
  | InsertLog id subject res =>
      let (r, w) := db w (fun w =>
        if decide (id ∈ row_id <$> request_log w)
        then (Err (mkDbError "duplicate key value violates unique constraint" false), w)
        else (Ok tt, with_log w
                (request_log w ++ [mkLogRow id subject (clock o (tick w)) res]))) in
      (Some r, w)
  | GenerateNonce => (Some (random_nonce o (tick w)), ticked w)
  | NewUuid => (Some (random_uuid o (tick w)), ticked w)
  | GenerateSecret => (Some (random_secret o (tick w)), ticked w)
  | ReadClock => (Some (clock o (tick w)), ticked w)
  | SendPost post =>
      (Some (keycloak o (tick w) post), ticked (with_posts w (posts w ++ [post])))
  | JoinInflight key =>
      if decide (key ∈ inflight w) then (Some (Some (tick w)), ticked w)
      else (Some None, ticked (with_inflight w ({[key]} ∪ inflight w)))
  | Receive _ => (Some (broadcast o (tick w)), ticked w)
  | SendInflight _ _ => (Some tt, ticked w)
  | LeaveInflight key => (Some tt, ticked (with_inflight w (inflight w ∖ {[key]})))
  | CheckLimit key =>
      let (allowed, l) := governor_check (limiter w) key (monotonic o (tick w)) in
      (Some allowed, ticked (with_limiter w l))
  | Trace line => (Some tt, ticked (with_traces w (traces w ++ [line])))
  | Panic => (None, w)
  end.

(** [None] is a panic; what was done before it stays done. *)
Fixpoint exec {T} (p : Prog T) w : option T * World L :=
  match p with
  | Ret v => (Some v, w)
  | Do e k =>
      let (a, w) := exec_eff e w in
      match a with
      | Some a => exec (k a) w
      | None => (None, w)
      end
  end.

Lemma exec_bind {T U} (p : Prog T) (f : T -> Prog U) w :
  exec (p ≫= f) w =
  let (v, w) := exec p w in
  match v with
  | Some v => exec (f v) w
  | None => (None, w)
  end.
Proof.
  revert w. induction p as [v|A e k IH]; intros w; [done|]. simpl.
  destruct (exec_eff e w) as [[a|] w']; [|done]. apply IH.
Qed.

Lemma exec_ret {T} (v : T) w : exec (mret v) w = (Some v, w).
Proof. done. Qed.

Lemma exec_try_bind {T U} (p : ProgR T) (f : T -> ProgR U) w :
  exec (try_bind p f) w =
  let (v, w) := exec p w in
  match v with
  | Some (Ok v) => exec (f v) w
  | Some (Err e) => (Some (Err e), w)
  | None => (None, w)
  end.
Proof.
  unfold try_bind. etrans; [apply exec_bind|].
  by destruct (exec p w) as [[[v|e]|] w1].
Qed.

(** [wp] covers every run: its postcondition holds of whatever is returned,
    provided the oracle's answers are among those it ranges over. *)
Lemma wp_exec phi rho {T} (p : Prog T) (Q : T -> Prop) w v w' :
  (forall A (e : Eff A) w a, phi A e -> (exec_eff e w).1 = Some a -> rho A e a) ->
  wp phi rho p Q -> exec p w = (Some v, w') -> Q v.
Proof.
  intros Hrho. revert w. induction p as [u|A e k IH]; intros w; simpl.
  { by intros ? [= <- <-]. }
  intros [He Hk]. pose proof (Hrho A e w) as Ha.
  destruct (exec_eff e w) as [[a|] w1]; [|done]. apply IH, Hk. by apply Ha.
Qed.

(** A relation on worlds that every permitted effect keeps is kept by a run. *)
Lemma wp_exec_rel phi rho (R : World L -> World L -> Prop) {T} (p : Prog T) Q w :
  Reflexive R -> Transitive R ->
  (forall A (e : Eff A) w a, phi A e -> (exec_eff e w).1 = Some a -> rho A e a) ->
  (forall A (e : Eff A) w, phi A e -> R w (exec_eff e w).2) ->
  wp phi rho p Q -> R w (exec p w).2.
Proof.
  intros Hr Ht Hrho He. revert w. induction p as [u|A e k IH]; intros w; simpl; [done|].
  intros [Hphi Hk]. pose proof (He A e w Hphi) as Hw. pose proof (Hrho A e w) as Ha.
  destruct (exec_eff e w) as [[a|] w1]; [|done]. simpl in Hw.
  etrans; [done|]. apply IH, Hk. by apply Ha.
Qed.
End Exec.

(** ** A concrete outside, for examples *)

(** A limiter that counts requests and allows the first six per key. *)
#[export] Instance counting_governor : Governor (gmap string nat) :=
  fun l key _ => let n := default 0%nat (l !! key) in
                 (bool_decide (n < 6)%nat, <[key := S n]> l).

(** A database that never fails, a clock one second before a step ends, a
    millisecond between ticks, and fresh nonces, ids and secrets at every
    tick. *)
Definition calm (keycloak : nat -> Post -> HttpReply) : Oracle := {|
  db_error := fun _ => None;
  clock := fun _ => 1111111109;
  monotonic := fun n => 1000000 * Z.of_nat n;
  random_nonce := fun n => replicate 12 (Z.of_nat n);
  random_uuid := Z.of_nat;
  random_secret := fun n => replicate 20 (as_u8 (Z.of_nat n));
  keycloak := keycloak;
  broadcast := fun _ => Err tt
|}.

Definition fresh_world : World (gmap string nat) := mkWorld ∅ [] [] [] ∅ ∅ 0.
