(* ===== verification/Base64.v ===== *)
(** * Base64, the interface [config.rs] uses and an implementation of it

    The server decodes its key with the [base64] crate's [STANDARD] engine: an
    external library, so an interface here, with its round trip as the law.
    The implementation below is RFC 4648 with canonical padding; it shows the
    interface can be met and lets examples be evaluated. *)

From S2P Require Import Prelude RustText Rfc6238.
Local Open Scope Z_scope.

Class Base64 := {
  (** [STANDARD.decode], [None] for any of its errors. *)
  base64_decode : string -> option (list Z);
  base64_encode : list Z -> string
}.

(** An encoding has no white space and no colon, so it survives [trim] and is
    not mistaken for one with a [base64:] prefix. *)
Class Base64Laws `(Base64) : Prop := {
  base64_round_trip bytes :
    Forall is_byte bytes -> base64_decode (base64_encode bytes) = Some bytes;
  base64_decode_bytes s bytes : base64_decode s = Some bytes -> Forall is_byte bytes;
  base64_alphabet bytes b :
    b ∈ bytes_of_string (base64_encode bytes) -> 33 <= b <= 126 /\ b <> 58
}.

(** ** RFC 4648 *)

Definition alphabet : list Z :=
  bytes_of_string "ABCDEFGHIJKLMNOPQRSTUVWXYZabcdefghijklmnopqrstuvwxyz0123456789+/".

Definition sextet_char (v : Z) : Z := alphabet !!! Z.to_nat v.

Definition char_sextet (c : Z) : option Z :=
  '(i, _) ← list_find (fun d => d = c) alphabet; Some (Z.of_nat i).

Fixpoint encode (l : list Z) : list Z :=
  match l with
  | a :: b :: c :: l =>
      sextet_char (a / 4) :: sextet_char (a mod 4 * 16 + b / 16) ::
      sextet_char (b mod 16 * 4 + c / 64) :: sextet_char (c mod 64) :: encode l
  | [a; b] =>
      [sextet_char (a / 4); sextet_char (a mod 4 * 16 + b / 16);
       sextet_char (b mod 16 * 4); 61]
  | [a] => [sextet_char (a / 4); sextet_char (a mod 4 * 16); 61; 61]
  | [] => []
  end.

(** A final group of one or two bytes is padded; its unused bits are zero. *)
Definition decode_padded (x y z : Z) : option (list Z) :=
  x ← char_sextet x; y ← char_sextet y;
  if decide (z = 61) then
    if decide (y mod 16 = 0) then Some [x * 4 + y / 16] else None
  else
    z ← char_sextet z;
    if decide (z mod 4 = 0)
    then Some [x * 4 + y / 16; y mod 16 * 16 + z / 4] else None.

Fixpoint decode (l : list Z) : option (list Z) :=
  match l with
  | [] => Some []
  | x :: y :: z :: t :: l =>
      if decide (t = 61 /\ l = []) then decode_padded x y z
      else
        x ← char_sextet x; y ← char_sextet y; z ← char_sextet z; t ← char_sextet t;
        bytes ← decode l;
        Some (x * 4 + y / 16 :: y mod 16 * 16 + z / 4 :: z mod 4 * 64 + t :: bytes)
  | _ => None
  end.

Lemma char_sextet_char v : 0 <= v < 64 -> char_sextet (sextet_char v) = Some v.
Proof.
  intros Hv. assert (Hall : Forall (fun v => char_sextet (sextet_char v) = Some v) (seqZ 0 64)).
  { by vm_compute; repeat constructor. }
  rewrite Forall_forall in Hall. apply Hall, elem_of_seqZ. lia.
Qed.

Lemma sextet_char_range v : 0 <= v < 64 ->
  33 <= sextet_char v <= 126 /\ sextet_char v <> 58 /\ sextet_char v <> 61.
Proof.
  intros Hv. assert (Hall : Forall (fun v => 33 <= sextet_char v <= 126 /\
    sextet_char v <> 58 /\ sextet_char v <> 61) (seqZ 0 64)).
  { vm_compute. repeat (constructor; [by split_and!|]). constructor. }
  rewrite Forall_forall in Hall. apply Hall, elem_of_seqZ. lia.
Qed.

Lemma char_sextet_range c v : char_sextet c = Some v -> 0 <= v < 64.
Proof.
  unfold char_sextet. intros ([i x] & Hf & ?)%bind_Some. simplify_eq.
  apply list_find_Some in Hf as (Hi & _ & _). apply lookup_lt_Some in Hi.
  change (length alphabet) with 64%nat in Hi. lia.
Qed.

(** Induction three bytes at a time. *)
Lemma bytes_ind (P : list Z -> Prop) :
  P [] -> (forall a, P [a]) -> (forall a b, P [a; b]) ->
  (forall a b c l, P l -> P (a :: b :: c :: l)) -> forall l, P l.
Proof.
  intros H0 H1 H2 H3. fix IH 1. intros [|a [|b [|c l]]]; [done|apply H1|apply H2|].
  apply H3, IH.
Qed.

Lemma encode_range l : Forall is_byte l ->
  Forall (fun b => 33 <= b <= 126 /\ b <> 58) (encode l).
Proof.
  assert (Hs : forall v, 0 <= v < 64 -> 33 <= sextet_char v <= 126 /\ sextet_char v <> 58).
  { intros v Hv. by apply sextet_char_range in Hv as (? & ? & _). }
  induction l as [|a|a b|a b c l IH] using bytes_ind; intros Hl; cbn [encode];
    rewrite ?Forall_cons in Hl; unfold is_byte, is_uint in Hl;
    change (2 ^ 8) with 256 in Hl; destruct_and?;
    repeat (apply Forall_cons; split);
    first [by apply IH | apply Forall_nil_2 | split; lia | apply Hs; div_lia].
Qed.

Lemma decode_encode l : Forall is_byte l -> decode (encode l) = Some l.
Proof.
  induction l as [|a|a b|a b c l IH] using bytes_ind; intros Hl; cbn [encode decode];
    [done|..]; rewrite ?Forall_cons in Hl; unfold is_byte, is_uint in Hl;
    change (2 ^ 8) with 256 in Hl; destruct_and?.
  - rewrite decide_True by done. unfold decode_padded.
    rewrite !char_sextet_char by div_lia. cbn [mbind option_bind].
    rewrite decide_True by done. rewrite decide_True by div_lia.
    f_equal. f_equal. div_lia.
  - rewrite decide_True by done. unfold decode_padded.
    rewrite !char_sextet_char by div_lia. cbn [mbind option_bind].
    rewrite decide_False by (apply sextet_char_range; div_lia).
    rewrite decide_True by div_lia.
    f_equal. f_equal; [div_lia|]. f_equal. div_lia.
  - rewrite decide_False.
    2: { intros [Hc _]. revert Hc. apply sextet_char_range. div_lia. }
    rewrite !char_sextet_char by div_lia. cbn [mbind option_bind].
    rewrite IH by done. cbn [mbind option_bind].
    f_equal. f_equal; [div_lia|]. f_equal; [div_lia|]. f_equal. div_lia.
Qed.

(** Induction four characters at a time. *)
Lemma chars_ind (P : list Z -> Prop) :
  P [] -> (forall x, P [x]) -> (forall x y, P [x; y]) -> (forall x y z, P [x; y; z]) ->
  (forall x y z t l, P l -> P (x :: y :: z :: t :: l)) -> forall l, P l.
Proof.
  intros H0 H1 H2 H3 H4. fix IH 1.
  intros [|x [|y [|z [|t l]]]]; [done|apply H1|apply H2|apply H3|]. apply H4, IH.
Qed.

Lemma decode_padded_bytes x y z bytes :
  decode_padded x y z = Some bytes -> Forall is_byte bytes.
Proof.
  unfold decode_padded, is_byte, is_uint. change (2 ^ 8) with 256.
  intros (a & Ha%char_sextet_range & (b & Hb%char_sextet_range & Hd)%bind_Some)%bind_Some.
  destruct (decide (z = 61)).
  - case_decide; simplify_eq. repeat constructor; div_lia.
  - apply bind_Some in Hd as (c & Hc%char_sextet_range & Hd).
    case_decide; simplify_eq. repeat constructor; div_lia.
Qed.

Lemma decode_bytes l bytes : decode l = Some bytes -> Forall is_byte bytes.
Proof.
  revert bytes.
  induction l as [|x|x y|x y z|x y z t l IH] using chars_ind; intros bytes;
    cbn [decode]; try done; [intros [= <-]; constructor|].
  case_decide; [apply decode_padded_bytes|].
  intros (a & Ha%char_sextet_range & (b & Hb%char_sextet_range &
    (c & Hc%char_sextet_range & (d & Hd%char_sextet_range & (bs & Hbs%IH &
     ?)%bind_Some)%bind_Some)%bind_Some)%bind_Some)%bind_Some.
  simplify_eq. unfold is_byte, is_uint. change (2 ^ 8) with 256.
  repeat (apply Forall_cons; split); [div_lia..|done].
Qed.

(** ** The instance *)

Definition standard_base64 : Base64 := {|
  base64_decode s := decode (bytes_of_string s);
  base64_encode l := string_of_bytes (encode (as_u8 <$> l))
|}.

Lemma as_u8_byte l : Forall is_byte (as_u8 <$> l).
Proof. apply Forall_fmap, Forall_true. intros x. apply Z.mod_pos_bound. done. Qed.

Lemma bytes_of_encoding l :
  bytes_of_string (base64_encode (Base64 := standard_base64) l) = encode (as_u8 <$> l).
Proof.
  cbn [base64_encode standard_base64]. apply bytes_of_string_of_bytes.
  eapply Forall_impl; [apply encode_range, as_u8_byte|].
  unfold is_uint. intros x. simpl. lia.
Qed.

Lemma standard_base64_laws : Base64Laws standard_base64.
Proof.
  split.
  - intros bytes Hb. cbn [base64_decode standard_base64]. rewrite bytes_of_encoding.
    assert (as_u8 <$> bytes = bytes) as ->.
    { rewrite <-list_fmap_id. apply list_fmap_ext. intros i x Hx.
      apply as_u8_small. by eapply Forall_lookup_1 in Hb. }
    by apply decode_encode.
  - intros s bytes. apply decode_bytes.
  - intros bytes b. rewrite bytes_of_encoding. intros Hin.
    pose proof (encode_range _ (as_u8_byte bytes)) as Hr.
    rewrite Forall_forall in Hr. by apply Hr.
Qed.
