(* ===== verification/Config.v ===== *)
(** * totp-server/src/config.rs: configuration from the environment

    An environment is the map of its variables with UTF-8 values (for any
    other variable [env::var] fails the same way as for a missing one).  The
    [.env] file loader and the base64 decoder are external.  An error is its
    top-level message. *)

From Stdlib Require Import Ascii.
From S2P Require Import Prelude RustText Rfc6238 Base64.
Local Open Scope Z_scope.
Local Open Scope string_scope.
Local Open Scope rust_scope.

(** What loading a [.env] file, if there is one, makes of an environment. *)
Class Dotenv := dotenv : gmap string string -> gmap string string.

(** ** Data *)

Definition ENCRYPTION_KEY_LEN : nat := 32.

Record Config := mkConfig {
  database_url : string;
  host : string;
  port : Z;
  keycloak_issuer : string;
  keycloak_client_id : string;
  keycloak_client_secret : string;
  expected_audience : string;
  admin_role : string;
  encryption_key : list Z;
  totp_skew_steps : Z;
  rate_limit_max_requests : Z;
  rate_limit_window_seconds : Z
}.

(** ** Reading variables *)

Definition required (env : gmap string string) (key : string) : result string string :=
  ok_or (env !! key) (key +:+ " must be set").

(** [Display] of [ParseIntError]. *)
Definition parse_error_text (e : IntErrorKind) : string :=
  match e with
  | Empty => "cannot parse integer from empty string"
  | InvalidDigit => "invalid digit found in string"
  | PosOverflow => "number too large to fit in target type"
  end.

(** [optional_parse::<uW>]. *)
Definition optional_parse (env : gmap string string) (w : Z) (key : string)
    (default : Z) : result Z string :=
  match env !! key with
  | None => Ok default
  | Some raw =>
      match parse_uint w (trim raw) with
      | Ok n => Ok n
      | Err e => Err (key +:+ " is not a valid value: " +:+ parse_error_text e)
      end
  end.

Section Config.
Context `{!Base64, !Dotenv}.

Definition not_base64 : string :=
  "TOTP_ENCRYPTION_KEY must be valid base64 (optionally `base64:`-prefixed)".

Definition wrong_key_length (len : nat) : string :=
  "TOTP_ENCRYPTION_KEY must decode to exactly 32 bytes, got " +:+ to_string (Z.of_nat len).

Definition parse_encryption_key (raw : string) : result (list Z) string :=
  let raw := trim raw in
  let encoded := unwrap_or (strip_prefix "base64:" raw) raw in
  let? bytes := ok_or (base64_decode encoded) not_base64 in
  let len := length bytes in
  if decide (len = ENCRYPTION_KEY_LEN) then Ok bytes else Err (wrong_key_length len).

Definition from_env (env : gmap string string) : result Config string :=
  let env := dotenv env in
  let? raw_key := required env "TOTP_ENCRYPTION_KEY" in
  let? encryption_key := parse_encryption_key raw_key in
  let? rate_limit_max_requests := optional_parse env 32 "RATE_LIMIT_MAX_REQUESTS" 6 in
  if decide (rate_limit_max_requests = 0)
  then Err "RATE_LIMIT_MAX_REQUESTS must be at least 1" else
  let? rate_limit_window_seconds := optional_parse env 64 "RATE_LIMIT_WINDOW_SECONDS" 300 in
  if decide (rate_limit_window_seconds = 0)
  then Err "RATE_LIMIT_WINDOW_SECONDS must be at least 1" else
  let? database_url := required env "DATABASE_URL" in
  let host := unwrap_or (env !! "HOST") "0.0.0.0" in
  let? port := optional_parse env 16 "PORT" 3000 in
  let? issuer := required env "KEYCLOAK_ISSUER" in
  let? keycloak_client_id := required env "TOTP_SERVER_KEYCLOAK_CLIENT_ID" in
  let? keycloak_client_secret := required env "TOTP_SERVER_KEYCLOAK_CLIENT_SECRET" in
  let expected_audience := unwrap_or (env !! "TOTP_EXPECTED_AUDIENCE") "totp-server" in
  let admin_role := unwrap_or (env !! "TOTP_ADMIN_ROLE") "totp-admin" in
  let? totp_skew_steps := optional_parse env 8 "TOTP_SKEW_STEPS" 1 in
  Ok {| database_url := database_url; host := host; port := port;
        keycloak_issuer := trim_end_matches "/"%char issuer;
        keycloak_client_id := keycloak_client_id;
        keycloak_client_secret := keycloak_client_secret;
        expected_audience := expected_audience; admin_role := admin_role;
        encryption_key := encryption_key; totp_skew_steps := totp_skew_steps;
        rate_limit_max_requests := rate_limit_max_requests;
        rate_limit_window_seconds := rate_limit_window_seconds |}.
End Config.

Definition server_address (self : Config) : string :=
  host self +:+ ":" +:+ to_string (port self).

Definition introspection_url (self : Config) : string :=
  keycloak_issuer self +:+ "/protocol/openid-connect/token/introspect".

(** ** Specification *)

(** What the rest of the server relies on. *)
Definition config_wf (c : Config) : Prop :=
  Forall is_byte (encryption_key c) /\
  length (encryption_key c) = ENCRYPTION_KEY_LEN /\
  1 <= rate_limit_max_requests c < 2 ^ 32 /\
  1 <= rate_limit_window_seconds c < 2 ^ 64 /\
  is_uint 16 (port c) /\ is_uint 8 (totp_skew_steps c) /\
  (forall l, bytes_of_string (keycloak_issuer c) <> (l ++ [47])%list).

(** A numeric setting: absent and defaulted, or present and parsed. *)
Definition setting (env : gmap string string) (w : Z) (key : string) (default v : Z) :
    Prop :=
  match env !! key with
  | None => v = default
  | Some raw => parse_uint w (trim raw) = Ok v
  end.

(** Each field and the variable it comes from. *)
Definition config_of `{!Base64} (env : gmap string string) (c : Config) : Prop :=
  (exists raw, env !! "TOTP_ENCRYPTION_KEY" = Some raw /\
     base64_decode (unwrap_or (strip_prefix "base64:" (trim raw)) (trim raw)) =
       Some (encryption_key c)) /\
  env !! "DATABASE_URL" = Some (database_url c) /\
  (exists issuer, env !! "KEYCLOAK_ISSUER" = Some issuer /\
     keycloak_issuer c = trim_end_matches "/"%char issuer) /\
  env !! "TOTP_SERVER_KEYCLOAK_CLIENT_ID" = Some (keycloak_client_id c) /\
  env !! "TOTP_SERVER_KEYCLOAK_CLIENT_SECRET" = Some (keycloak_client_secret c) /\
  setting env 32 "RATE_LIMIT_MAX_REQUESTS" 6 (rate_limit_max_requests c) /\
  setting env 64 "RATE_LIMIT_WINDOW_SECONDS" 300 (rate_limit_window_seconds c) /\
  setting env 16 "PORT" 3000 (port c) /\
  setting env 8 "TOTP_SKEW_STEPS" 1 (totp_skew_steps c) /\
  host c = unwrap_or (env !! "HOST") "0.0.0.0" /\
  expected_audience c = unwrap_or (env !! "TOTP_EXPECTED_AUDIENCE") "totp-server" /\
  admin_role c = unwrap_or (env !! "TOTP_ADMIN_ROLE") "totp-admin".

(** ** Lemmas *)

Lemma optional_parse_ok env w key default v :
  optional_parse env w key default = Ok v <-> setting env w key default v.
Proof.
  unfold optional_parse, setting. destruct (env !! key) as [raw|]; [|naive_solver].
  destruct (parse_uint w (trim raw)); naive_solver.
Qed.

Lemma setting_uint env w key default v :
  0 <= w -> is_uint w default -> setting env w key default v -> is_uint w v.
Proof.
  unfold setting. intros Hw Hd. destruct (env !! key); [|by intros ->].
  by apply parse_uint_bounds.
Qed.

Lemma trim_clean s :
  Forall (fun b => 33 <= b <= 126) (bytes_of_string s) -> trim s = s.
Proof.
  intros Hs. rewrite Forall_forall in Hs.
  assert (Hclean : forall p, p ∈ white_space ->
            exists b l, (p = b :: l \/ p = (l ++ [b])%list) /\ ~ (33 <= b <= 126)).
  { intros p Hp. unfold white_space in Hp.
    repeat (apply elem_of_cons in Hp as [->|Hp];
            [eexists _, _; split; [by left|lia]|]).
    by apply elem_of_nil in Hp. }
  unfold trim. rewrite trim_start_free, trim_end_free.
  - apply string_of_bytes_of_string.
  - intros p l Hp Hl. destruct (Hclean p Hp) as (b & l' & [-> | ->] & Hb);
      apply Hb, Hs; rewrite Hl, ?elem_of_app, ?elem_of_cons; set_solver.
  - intros p l Hp Hl. destruct (Hclean p Hp) as (b & l' & [-> | ->] & Hb);
      apply Hb, Hs; rewrite Hl, ?elem_of_app, ?elem_of_cons; set_solver.
Qed.


Section KeyLemmas.
Context `{!Base64, !Base64Laws _}.

Lemma parse_encryption_key_ok raw key :
  parse_encryption_key raw = Ok key <->
  base64_decode (unwrap_or (strip_prefix "base64:" (trim raw)) (trim raw)) = Some key /\
  length key = ENCRYPTION_KEY_LEN.
Proof.
  unfold parse_encryption_key. rewrite result_bind_ok. split.
  - intros (bytes & Hb%ok_or_ok & Hk). case_decide; naive_solver.
  - intros [Hd Hl]. exists key. rewrite Hd. by rewrite decide_True.
Qed.
End KeyLemmas.

(** ** Properties *)

Section ConfigTheorems.
Context `{!Base64, !Dotenv, !Base64Laws _}.

(** C38. The key parser inverts the encoder: the base64 text of a key, bare or
    with the [base64:] prefix, parses to that key if it has 32 bytes, and is
    refused with its length otherwise. *)
Theorem parse_encryption_key_round_trip key :
  Forall is_byte key ->
  forall raw, raw ∈ [base64_encode key; "base64:" +:+ base64_encode key] ->
  parse_encryption_key raw =
    if decide (length key = 32%nat) then Ok key else Err (wrong_key_length (length key)).
Proof.
  intros Hkey raw Hraw.
  assert (Henc : Forall (fun b => 33 <= b <= 126) (bytes_of_string (base64_encode key))).
  { apply Forall_forall. intros b Hb. by apply base64_alphabet in Hb as [? _]. }
  assert (Htrim : trim raw = raw).
  { apply trim_clean. repeat (apply elem_of_cons in Hraw as [->|Hraw]); [done| |].
    - rewrite bytes_of_string_app. apply Forall_app. split; [|done].
      vm_compute. repeat (constructor; [done|]). constructor.
    - by apply elem_of_nil in Hraw. }
  unfold parse_encryption_key. rewrite Htrim.
  assert (unwrap_or (strip_prefix "base64:" raw) raw = base64_encode key) as ->.
  { repeat (apply elem_of_cons in Hraw as [->|Hraw]).
    - destruct (strip_prefix "base64:" (base64_encode key)) as [t|] eqn:Ht; [|done].
      apply strip_prefix_Some in Ht.
      assert (58 ∈ bytes_of_string (base64_encode key)) as Hb.
      { rewrite Ht, bytes_of_string_app, elem_of_app. left.
        apply (list_elem_of_lookup_2 _ 6). reflexivity. }
      by apply base64_alphabet in Hb as [_ Hb].
    - by rewrite strip_prefix_app.
    - by apply elem_of_nil in Hraw. }
  by rewrite base64_round_trip.
Qed.

Lemma from_env_spec env c :
  from_env env = Ok c <-> config_of (dotenv env) c /\ config_wf c.
Proof.
  unfold from_env. generalize (dotenv env). clear env. intros env. cbn zeta. split.
  - intros (raw & Hraw%ok_or_ok & Hc)%result_bind_ok.
    apply result_bind_ok in Hc as (key & [Hkey Hlen]%parse_encryption_key_ok & Hc).
    apply result_bind_ok in Hc as (maxr & Hmax%optional_parse_ok & Hc).
    case_decide; [done|].
    apply result_bind_ok in Hc as (window & Hwindow%optional_parse_ok & Hc).
    case_decide; [done|].
    apply result_bind_ok in Hc as (url & Hurl%ok_or_ok & Hc).
    apply result_bind_ok in Hc as (port & Hport%optional_parse_ok & Hc).
    apply result_bind_ok in Hc as (issuer & Hissuer%ok_or_ok & Hc).
    apply result_bind_ok in Hc as (id & Hid%ok_or_ok & Hc).
    apply result_bind_ok in Hc as (secret & Hsecret%ok_or_ok & Hc).
    apply result_bind_ok in Hc as (skew & Hskew%optional_parse_ok & Hc).
    simplify_eq. split; [by split_and!; eauto|].
    pose proof (setting_uint _ 32 _ 6 _ ltac:(done) ltac:(done) Hmax).
    pose proof (setting_uint _ 64 _ 300 _ ltac:(done) ltac:(done) Hwindow).
    unfold is_uint in *. split; [by eapply base64_decode_bytes|].
    split; [done|]. cbn [rate_limit_max_requests rate_limit_window_seconds].
    split; [lia|]. split; [lia|].
    split; [by apply (setting_uint env 16 "PORT" 3000)|].
    split; [by apply (setting_uint env 8 "TOTP_SKEW_STEPS" 1)|].
    intros l. apply trim_end_matches_free.
  - intros [Hof Hwf].
    destruct Hof as ((raw & Hraw & Hkey) & Hurl & (issuer & Hissuer & Hi) & Hid &
      Hsecret & Hmax & Hwindow & Hport & Hskew & Hhost & Haud & Hrole).
    destruct Hwf as (_ & Hlen & Hmax1 & Hwindow1 & _).
    unfold required. rewrite Hraw, Hurl, Hissuer, Hid, Hsecret. cbn [ok_or result_bind].
    rewrite (proj2 (parse_encryption_key_ok _ _) (conj Hkey Hlen)). cbn [result_bind].
    rewrite <-optional_parse_ok in Hmax, Hwindow, Hport, Hskew.
    rewrite Hmax, Hwindow, Hport, Hskew. cbn [result_bind].
    rewrite !decide_False by lia. rewrite <-Hi, <-Hhost, <-Haud, <-Hrole. by destruct c.
Qed.

(** C37. A server that starts has a complete and usable configuration: if
    [from_env] succeeds, every field is what its variable says (or the
    documented default where the variable is optional and absent), the key
    is 32 bytes, the rate limit and its window are at least one, every
    number fits its type, and the issuer has no trailing slash; and every
    environment that meets those conditions is accepted. *)
Theorem from_env_ok_iff env c :
  from_env env = Ok c <-> config_of (dotenv env) c /\ config_wf c.
Proof. apply from_env_spec. Qed.
End ConfigTheorems.

(** ** Witnesses *)

#[local] Existing Instances standard_base64 standard_base64_laws.
#[local] Instance no_dotenv_file : Dotenv := id.

Definition demo_env : gmap string string := list_to_map
  [("TOTP_ENCRYPTION_KEY", " base64:KioqKioqKioqKioqKioqKioqKioqKioqKioqKioqKio= ");
   ("DATABASE_URL", "postgres://totp@localhost/totp");
   ("KEYCLOAK_ISSUER", "http://keycloak:8080/realms/lock-demo//");
   ("TOTP_SERVER_KEYCLOAK_CLIENT_ID", "totp-server");
   ("TOTP_SERVER_KEYCLOAK_CLIENT_SECRET", "s3cret");
   ("RATE_LIMIT_WINDOW_SECONDS", " 60 ")].

Definition demo_config : Config := {|
  database_url := "postgres://totp@localhost/totp"; host := "0.0.0.0"; port := 3000;
  keycloak_issuer := "http://keycloak:8080/realms/lock-demo";
  keycloak_client_id := "totp-server"; keycloak_client_secret := "s3cret";
  expected_audience := "totp-server"; admin_role := "totp-admin";
  encryption_key := replicate 32 42; totp_skew_steps := 1;
  rate_limit_max_requests := 6; rate_limit_window_seconds := 60 |}.

Lemma parse_encryption_key_round_trip_witness :
  base64_encode (replicate 16 7) = "BwcHBwcHBwcHBwcHBwcHBw==" /\
  parse_encryption_key "base64:BwcHBwcHBwcHBwcHBwcHBw==" = Err (wrong_key_length 16).
Proof.
  split; [vm_compute; reflexivity|].
  apply (parse_encryption_key_round_trip (replicate 16 7)).
  - apply Forall_replicate. split; [discriminate|reflexivity].
  - change (base64_encode (replicate 16 7)) with "BwcHBwcHBwcHBwcHBwcHBw==".
    right. left.
Defined.

Lemma from_env_ok_iff_witness :
  config_of demo_env demo_config /\ config_wf demo_config.
Proof.
  change (config_of demo_env demo_config) with (config_of (dotenv demo_env) demo_config).
  apply (from_env_ok_iff demo_env demo_config). vm_compute. reflexivity.
Defined.

Example missing_key : from_env (delete "TOTP_ENCRYPTION_KEY" demo_env) =
  Err "TOTP_ENCRYPTION_KEY must be set".
Proof. vm_compute. reflexivity. Qed.

Example zero_limit : from_env (<["RATE_LIMIT_MAX_REQUESTS" := "0"]> demo_env) =
  Err "RATE_LIMIT_MAX_REQUESTS must be at least 1".
Proof. vm_compute. reflexivity. Qed.
