(* ===== verification/Crypto.v ===== *)
(** * totp-server/src/crypto.rs: TOTP secrets at rest

    AES-256-GCM is the [aes-gcm] crate's: the interface [Aead], whose law is
    that decryption with the same key and nonce undoes encryption.  The
    nonce [encrypt] draws is an effect of the program. *)

From S2P Require Import Prelude RustText Rfc6238 AppError Effects.
Local Open Scope Z_scope.
Local Open Scope string_scope.

(** Key, nonce, text; [None] is the opaque error. *)
Class Aead := {
  aead_encrypt : list Z -> list Z -> list Z -> option (list Z);
  aead_decrypt : list Z -> list Z -> list Z -> option (list Z)
}.

(** The length of [Nonce::<Aes256Gcm>]. *)
Definition NONCE_LEN : nat := 12.

Class AeadLaws `(Aead) : Prop :=
  aead_round_trip key nonce plaintext ciphertext :
    length key = 32%nat -> length nonce = NONCE_LEN ->
    aead_encrypt key nonce plaintext = Some ciphertext ->
    aead_decrypt key nonce ciphertext = Some plaintext.

Record Crypto := mkCrypto { cipher : list Z }.

(** [Crypto::new]. *)
Definition crypto_new (key : list Z) : Crypto := {| cipher := key |}.

(** [Debug]: the formatter's output does not depend on the key. *)
Definition crypto_fmt (_ : Crypto) : string := "Crypto(<redacted>)".

Section Crypto.
Context `{!Aead}.

(** What [encrypt] does with the nonce it drew. *)
Definition encrypt_with (self : Crypto) (nonce plaintext : list Z) :
    AppResult (list Z * list Z) :=
  match aead_encrypt (cipher self) nonce plaintext with
  | Some ciphertext => Ok (ciphertext, nonce)
  | None => Err (Internal "failed to encrypt secret")
  end.

Definition encrypt (self : Crypto) (plaintext : list Z) : ProgR (list Z * list Z) :=
  nonce ← perform GenerateNonce;
  mret (encrypt_with self nonce plaintext).

Definition decrypt (self : Crypto) (ciphertext nonce : list Z) : AppResult (list Z) :=
  if decide (length nonce = NONCE_LEN) then
    match aead_decrypt (cipher self) nonce ciphertext with
    | Some plaintext => Ok plaintext
    | None => Err (Internal "failed to decrypt stored secret")
    end
  else Err (Internal ("stored nonce has the wrong length: " +:+
                      to_string (Z.of_nat (length nonce)))).

(** [decrypt] fails with internal errors only. *)
Lemma decrypt_err self ciphertext nonce e :
  decrypt self ciphertext nonce = Err e -> exists source, e = Internal source.
Proof. unfold decrypt. intros. repeat case_match; simplify_eq; eauto. Qed.

Lemma encrypt_decrypt `{!AeadLaws _} self nonce plaintext ciphertext nonce' :
  length (cipher self) = 32%nat -> length nonce = NONCE_LEN ->
  encrypt_with self nonce plaintext = Ok (ciphertext, nonce') ->
  nonce' = nonce /\ decrypt self ciphertext nonce' = Ok plaintext.
Proof.
  unfold encrypt_with, decrypt. intros Hkey Hn He.
  destruct (aead_encrypt _ _ _) as [ct|] eqn:Hct; [|done]. injection He as <- <-.
  rewrite decide_True by done. by rewrite (aead_round_trip _ _ _ _ Hkey Hn Hct).
Qed.
End Crypto.

(** ** The interface can be implemented

    A stand-in for examples, in no way secure: the key and nonce as a tag in
    front of the text, checked on the way back. *)

Definition tagging_aead : Aead := {|
  aead_encrypt key nonce plaintext := Some (key ++ nonce ++ plaintext)%list;
  aead_decrypt key nonce ciphertext :=
    if decide (take (length key + length nonce) ciphertext = (key ++ nonce)%list)
    then Some (drop (length key + length nonce) ciphertext) else None
|}.

Lemma tagging_aead_laws : AeadLaws tagging_aead.
Proof.
  intros key nonce plaintext ciphertext _ _ [= <-].
  cbn [aead_decrypt tagging_aead]. rewrite app_assoc, <-length_app.
  by rewrite take_app_length, drop_app_length, decide_True.
Qed.
