(* ===== verification/TotpGen.v ===== *)
(** * totp-server/src/totp/mod.rs: generating PINs and minting secrets

    The generator is the [totp_rs] crate's: the interface [TotpRs].  Its laws
    are what its documentation says: building succeeds for a secret of at
    least 128 bits with an issuer and an account name free of colons, and a
    built generator's token is the RFC 6238 code in its number of digits; the
    Base32 text of a secret determines it. *)

From Stdlib Require Import Ascii.
From S2P Require Import Prelude RustText Rfc6238 Sha1 Base32 AppError Effects.
Local Open Scope Z_scope.
Local Open Scope string_scope.
Local Open Scope rust_scope.

Inductive Algorithm := SHA1.

Definition ALGORITHM : Algorithm := SHA1.
Definition DIGITS : Z := 6.
Definition STEP_SECONDS : Z := 30.
Definition ISSUER : string := "urheilulaatikko".

(** ** The interface *)

(** What the builder was given. *)
Record TotpParams := mkTotpParams {
  algorithm : Algorithm;
  digits : Z;
  step_duration : Z;
  secret : list Z;
  issuer : option string;
  account_name : string
}.

Class TotpRs := {
  Totp : Type;
  build : TotpParams -> result Totp string;
  totp_generate : Totp -> Z -> string;
  to_url : Totp -> result string string;
  to_base32 : list Z -> string
}.

(** Names that fit an [otpauth] label. *)
Definition no_colon (name : string) : Prop := split_once ":"%char name = None.

Class TotpRsLaws (T : TotpRs) (H : Hmac) : Prop := {
  build_ok params :
    6 <= digits params <= 8 -> 1 <= step_duration params ->
    (16 <= length (secret params))%nat ->
    from_option no_colon True (issuer params) -> no_colon (account_name params) ->
    exists totp, build params = Ok totp;
  totp_generate_rfc6238 params totp t :
    build params = Ok totp -> 0 <= digits params -> is_uint 64 t ->
    totp_generate totp t =
      zero_padded (Z.to_nat (digits params))
        (rfc6238 (step_duration params) (digits params) (secret params) t);
  (** The text of RFC 4648 determines the bytes. *)
  to_base32_inj bytes bytes' :
    Forall (is_uint 8) bytes -> Forall (is_uint 8) bytes' ->
    to_base32 bytes = to_base32 bytes' -> bytes = bytes'
}.

(** ** Operations *)

Record GeneratedPin := mkGeneratedPin { pin : string; valid_for_seconds : Z }.

Record ProvisionedSecret := mkProvisionedSecret {
  raw : list Z;
  secret_base32 : string;
  otpauth_url : string
}.

Section TotpGen.
Context `{!TotpRs}.

Definition generator (secret : list Z) (account_name : string) : AppResult Totp :=
  match build {| algorithm := ALGORITHM; digits := DIGITS; step_duration := STEP_SECONDS;
                 secret := secret; issuer := Some ISSUER;
                 account_name := account_name |} with
  | Ok totp => Ok totp
  | Err e => Err (Internal ("invalid TOTP parameters: " +:+ e))
  end.

Definition generate_at (secret : list Z) (now : Z) : AppResult GeneratedPin :=
  let? totp := generator secret "user" in
  Ok {| pin := totp_generate totp now;
        valid_for_seconds := STEP_SECONDS - now mod STEP_SECONDS |}.

(** [expect] on a clock before the epoch. *)
Definition unix_now : Prog Z :=
  now ← perform ReadClock;
  if decide (0 <= now) then mret (as_u64 now)
  else absurd ← perform Panic; match absurd : Empty_set with end.

Definition generate (secret : list Z) : ProgR GeneratedPin :=
  now ← unix_now;
  mret (generate_at secret now).

Definition provision (account_name : string) : ProgR ProvisionedSecret :=
  raw ← perform GenerateSecret;
  mret (let? totp := generator raw account_name in
        match to_url totp with
        | Err e => Err (Internal ("could not build the otpauth URL: " +:+ e))
        | Ok otpauth_url =>
            Ok {| secret_base32 := to_base32 raw; otpauth_url := otpauth_url;
                  raw := raw |}
        end).

(** ** Lemmas *)

Context `{!Hmac, !TotpRsLaws _ _}.

(** The code as a number. *)
Definition pin_value (secret : list Z) (now : Z) : Z :=
  rfc6238 STEP_SECONDS DIGITS secret now.

Lemma generate_at_ok secret now :
  (16 <= length secret)%nat -> is_uint 64 now ->
  generate_at secret now =
    Ok {| pin := zero_padded 6 (pin_value secret now);
          valid_for_seconds := 30 - now mod 30 |}.
Proof.
  intros Hs Hn. unfold generate_at, generator.
  set (params := mkTotpParams _ _ _ _ _ _).
  destruct (build_ok params) as (totp & Hb); [done| done|done|done|done|].
  rewrite Hb. cbn [result_bind].
  by rewrite (totp_generate_rfc6238 params totp now Hb).
Qed.

(** A PIN that was made is the code, however long the secret. *)
Lemma generate_at_made secret now p :
  generate_at secret now = Ok p -> is_uint 64 now ->
  p = {| pin := zero_padded 6 (pin_value secret now); valid_for_seconds := 30 - now mod 30 |}.
Proof.
  unfold generate_at, generator. set (params := mkTotpParams _ _ _ _ _ _). intros Hgen Hn.
  destruct (build params) as [totp|e] eqn:Hb; [|done]. injection Hgen as <-.
  by rewrite (totp_generate_rfc6238 params totp now Hb).
Qed.

Lemma generate_at_err secret now e :
  generate_at secret now = Err e -> exists source, e = Internal source.
Proof.
  unfold generate_at, generator. destruct (build _); simpl; [done|].
  intros [= <-]. eauto.
Qed.
End TotpGen.

(** ** Properties *)

(** C36. For every secret of at least 128 bits and every time, the server
    issues a PIN: exactly six decimal digits, leading zeros kept, that spell
    the RFC 6238 code of the current step; it announces 1 to 30 remaining
    seconds, and the PIN stays the same for exactly that long: at every
    second of the rest of the step the same PIN is issued, and the announced
    end is the first second of the next step. *)
Theorem generate_at_correct `{!TotpRs, !Hmac, !TotpRsLaws _ _} secret now :
  (16 <= length secret)%nat -> 0 <= now -> is_uint 64 (now + 30) ->
  exists p,
    generate_at secret now = Ok p /\
    (exists ds, length ds = 6%nat /\ Forall is_digit ds /\ pin p = digits_to_string ds /\
                decimal_value ds = hotp 6 secret (now / 30)) /\
    1 <= valid_for_seconds p <= 30 /\
    (now + valid_for_seconds p) mod 30 = 0 /\
    (forall later, now <= later < now + valid_for_seconds p ->
       pin <$> (match generate_at secret later with Ok q => Some q | Err _ => None end) =
         Some (pin p)).
Proof.
  intros Hs Hpos Hn. unfold is_uint in Hn.
  eexists. split; [apply generate_at_ok; [done|unfold is_uint; lia]|].
  cbn [pin valid_for_seconds]. split_and!.
  - exists (decimal_digits 6 (hotp 6 secret (now / 30))).
    split_and!; [apply length_decimal_digits|apply decimal_digits_digits|done|].
    rewrite decimal_value_digits. apply Z.mod_small. by apply hotp_bounds.
  - div_lia.
  - div_lia.
  - div_lia.
  - intros later Hl. rewrite generate_at_ok by (unfold is_uint; lia || done || div_lia).
    simpl. do 2 f_equal. apply rfc6238_window. unfold STEP_SECONDS. div_lia.
Qed.

(** ** The interface can be implemented: RFC 6238 itself *)

#[local] Existing Instance sha1_hmac.

(** A generator is its parameters; the URL has the Key URI format, the
    defaults left out and names written as they are. *)
Definition reference_totp_rs : TotpRs := {|
  Totp := TotpParams;
  build params :=
    if decide (6 <= digits params <= 8 /\ 1 <= step_duration params)
    then if decide (16 <= length (secret params))%nat
         then match split_once ":"%char (account_name params) with
              | None => Ok params
              | Some _ => Err "account name contains a colon"
              end
         else Err "secret too short"
    else Err "bad parameters";
  totp_generate params t :=
    zero_padded (Z.to_nat (digits params))
      (rfc6238 (step_duration params) (digits params) (secret params) t);
  to_url params :=
    let issuer := unwrap_or (issuer params) "" in
    Ok ("otpauth://totp/" +:+ issuer +:+ ":" +:+ account_name params +:+
        "?secret=" +:+ base32_encode (secret params) +:+ "&issuer=" +:+ issuer);
  to_base32 := base32_encode
|}.

Lemma reference_totp_rs_laws : TotpRsLaws reference_totp_rs sha1_hmac.
Proof.
  split; cbn [build totp_generate Totp reference_totp_rs].
  - intros params Hd Hs Hl _ Hc. exists params.
    rewrite !decide_True by done. unfold no_colon in Hc. by rewrite Hc.
  - intros params totp t Hb _ _. by repeat case_match; simplify_eq.
  - apply base32_encode_inj.
Qed.

#[local] Existing Instances reference_totp_rs reference_totp_rs_laws.

Lemma generate_at_correct_witness :
  generate_at rfc_secret 1111111109 =
    Ok {| pin := "081804"; valid_for_seconds := 1 |} /\
  exists p, generate_at rfc_secret 59 = Ok p /\ 1 <= valid_for_seconds p <= 30.
Proof.
  split; [vm_compute; reflexivity|].
  destruct (generate_at_correct rfc_secret 59) as (p & Hp & _ & Hv & _).
  - apply Nat.leb_le. reflexivity.
  - discriminate.
  - split; [discriminate|reflexivity].
  - exists p. split; assumption.
Defined.
