(* ===== verification/SecretStore.v ===== *)
(** * totp-server/src/totp/secret_store.rs: encrypted secrets and the audit log

    The statements themselves are effects, whose meaning on the two tables is
    [exec_eff]; this file has what the code does around them. *)

From S2P Require Import Prelude RustText Rfc6238 AppError Effects Crypto.
Local Open Scope Z_scope.
Local Open Scope string_scope.
Local Open Scope rust_scope.

Inductive RequestResult :=
| Issued
| DeniedInactiveToken
| DeniedNoSecret
| RateLimited
| Provisioned.

#[export] Instance RequestResult_eq_dec : EqDecision RequestResult.
Proof. solve_decision. Defined.

Definition as_str (self : RequestResult) : string :=
  match self with
  | Issued => "issued"
  | DeniedInactiveToken => "denied_inactive_token"
  | DeniedNoSecret => "denied_no_secret"
  | RateLimited => "rate_limited"
  | Provisioned => "provisioned"
  end.

#[export] Instance as_str_inj : Inj (=) (=) as_str.
Proof. by intros [] []. Qed.

(** The pool is the world's database. *)
Record SecretStore := mkSecretStore { crypto : Crypto }.

Section SecretStore.
Context `{!Aead}.

Definition get (self : SecretStore) (subject : string) : ProgR (option (list Z)) :=
  row ← perform (SelectSecret subject);
  mret (let? row := from_db row in
        match row with
        | None => Ok None
        | Some (encrypted_secret, nonce) =>
            let? secret := decrypt (crypto self) encrypted_secret nonce in
            Ok (Some secret)
        end).

Definition upsert (self : SecretStore) (subject : string) (secret : list Z) :
    ProgR unit :=
  let! (encrypted_secret, nonce) := encrypt (crypto self) secret in
  r ← perform (UpsertSecret subject encrypted_secret nonce);
  mret (from_db r).

Definition touch_last_used (subject : string) : ProgR unit :=
  r ← perform (TouchSecret subject);
  mret (from_db r).

(** The line that reports a lost audit row. *)
Definition audit_failure (subject : option string) (res : RequestResult) (err : string) :
    LogLine :=
  mkLogLine Error "failed to write the audit log entry"
    [("subject", unwrap_or subject "<unauthenticated>");
     ("result", as_str res); ("error", err)].

Definition log_request (subject : option string) (res : RequestResult) : Prog unit :=
  id ← perform NewUuid;
  outcome ← perform (InsertLog id subject (as_str res));
  match outcome with
  | Ok _ => mret tt
  | Err err => perform (Trace (audit_failure subject res (db_text err)))
  end.
End SecretStore.

(** ** Running alone *)

Section Run.
Context `{!Aead} {L : Type} `{!Governor L} (o : Oracle).
Implicit Types w : World L.

(** The audit row a [log_request] at [w] writes, when the database lets it:
    its second effect is the statement. *)
Definition audit_row w (subject : option string) (res : RequestResult) : LogRow :=
  mkLogRow (random_uuid o (tick w)) subject (clock o (S (tick w))) (as_str res).

(** Whether a statement at this tick takes effect. *)
Definition takes_effect (n : nat) : bool := from_option took_effect true (db_error o n).

(** Whether it does, and whether the code is told so. *)
Definition audit_written w : Prop :=
  takes_effect (S (tick w)) = true /\ random_uuid o (tick w) ∉ row_id <$> request_log w.
Definition audit_confirmed w : Prop :=
  db_error o (S (tick w)) = None /\ random_uuid o (tick w) ∉ row_id <$> request_log w.

#[export] Instance audit_written_dec w : Decision (audit_written w).
Proof. unfold audit_written. apply _. Defined.
#[export] Instance audit_confirmed_dec w : Decision (audit_confirmed w).
Proof. unfold audit_confirmed. apply _. Defined.

Lemma audit_confirmed_written w : audit_confirmed w -> audit_written w.
Proof. intros [Hdb Hid]. split; [|done]. unfold takes_effect. by rewrite Hdb. Qed.

(** What the insert answers otherwise. *)
Definition insert_error w : string :=
  match db_error o (S (tick w)) with
  | Some err => db_text err
  | None => "duplicate key value violates unique constraint"
  end.

Lemma exec_get self subject w :
  exec o (get self subject) w =
  (Some match db_error o (tick w) with
        | Some err => Err (Internal (db_text err))
        | None =>
            match totp_secrets w !! subject with
            | None => Ok None
            | Some row =>
                let? secret := decrypt (crypto self) (encrypted_secret row) (row_nonce row) in
                Ok (Some secret)
            end
        end, ticked w).
Proof.
  unfold get. rewrite exec_bind. simpl. unfold db.
  destruct (db_error o (tick w)) as [[text []]|]; [done..|]. simpl.
  by destruct (totp_secrets w !! subject).
Qed.

Lemma exec_touch subject w :
  exec o (touch_last_used subject) w =
  (Some match db_error o (tick w) with
        | Some err => Err (Internal (db_text err))
        | None => Ok tt
        end,
   ticked (if takes_effect (tick w)
           then with_secrets w (alter (touched (clock o (tick w))) subject (totp_secrets w))
           else w)).
Proof.
  unfold touch_last_used, takes_effect. rewrite exec_bind. simpl. unfold db.
  by destruct (db_error o (tick w)) as [[text []]|].
Qed.

(** Same secrets, posts and limiter. *)
Definition only_logs w w' : Prop :=
  totp_secrets w' = totp_secrets w /\ posts w' = posts w /\ limiter w' = limiter w.

Lemma exec_log_request subject res w :
  exists w',
    exec o (log_request subject res) w = (Some tt, w') /\ only_logs w w' /\
    (tick w + 2 <= tick w')%nat /\
    request_log w' =
      (request_log w ++ if decide (audit_written w) then [audit_row w subject res] else [])%list /\
    traces w' =
      (traces w ++ if decide (audit_confirmed w) then []
                   else [audit_failure subject res (insert_error w)])%list.
Proof.
  unfold log_request, insert_error. rewrite exec_bind. simpl. unfold db. simpl.
  destruct (decide (audit_written w)) as [Hw|Hw], (decide (audit_confirmed w)) as [Hc|Hc];
    unfold audit_written, audit_confirmed, takes_effect in *;
    destruct (db_error o (S (tick w))) as [[text []]|]; simpl in *;
    try (case_decide as Hid; [|]); try solve [naive_solver];
    eexists; (split; [reflexivity|]); simpl; rewrite ?app_nil_r;
    split_and!; done || lia.
Qed.

(** The row an [upsert] at [w] writes: two effects, a nonce and a statement. *)
Lemma exec_upsert self subject secret w :
  exec o (upsert self subject secret) w =
  match encrypt_with (crypto self) (random_nonce o (tick w)) secret with
  | Err e => (Some (Err e), ticked w)
  | Ok (ciphertext, nonce) =>
      (Some match db_error o (S (tick w)) with
            | Some err => Err (Internal (db_text err))
            | None => Ok tt
            end,
       ticked (ticked (if takes_effect (S (tick w))
         then with_secrets w
           (<[subject := mkSecretRow ciphertext nonce (clock o (S (tick w))) None]>
              (totp_secrets w))
         else w)))
  end.
Proof.
  unfold upsert. rewrite exec_try_bind. simpl.
  destruct (encrypt_with _ _ _) as [[ct n]|e]; [|done]. simpl.
  unfold db, takes_effect. simpl. by destruct (db_error o (S (tick w))) as [[text []]|].
Qed.

End Run.

(** ** Properties *)

Section StoreTheorems.
Context `{!Aead, !AeadLaws _} {L : Type} `{!Governor L} (o : Oracle).
Implicit Types w : World L.

(** What is stored for a subject, timestamps aside. *)
Definition stored w (subject : string) : option (list Z * list Z) :=
  (fun row => (encrypted_secret row, row_nonce row)) <$> totp_secrets w !! subject.

(** What provisioning stores is what a PIN request reads: after a
    successful [upsert], in every later world in which that subject's
    ciphertext and nonce are still the stored ones (using the row, which
    stamps it, and anything done to other subjects keep them), [get] returns
    exactly the secret; the upsert itself changes no other subject's row,
    resets the row's last use and writes no audit row of its own. *)
Theorem upsert_get_round_trip self subject secret w w1 :
  length (cipher (crypto self)) = 32%nat ->
  (forall n, length (random_nonce o n) = NONCE_LEN) ->
  exec o (upsert self subject secret) w = (Some (Ok tt), w1) ->
  (forall w2, stored w2 subject = stored w1 subject -> db_error o (tick w2) = None ->
     (exec o (get self subject) w2).1 = Some (Ok (Some secret)) /\
     stored (exec o (touch_last_used subject) w2).2 subject = stored w1 subject) /\
  (exists row, totp_secrets w1 !! subject = Some row /\ last_used_at row = None) /\
  (forall other, other <> subject -> totp_secrets w1 !! other = totp_secrets w !! other) /\
  request_log w1 = request_log w.
Proof.
  intros Hkey Hnonce. rewrite exec_upsert.
  destruct (encrypt_with _ _ _) as [[ct n]|] eqn:He; [|done].
  unfold takes_effect. destruct (db_error o (S (tick w))) eqn:Hdb; [done|]. cbn [from_option]. intros [= <-].
  destruct (encrypt_decrypt _ _ _ _ _ Hkey (Hnonce _) He) as [_ Hd]. split_and!.
  - intros w2 Hw2 Hdb2. rewrite exec_get, exec_touch. unfold takes_effect. rewrite Hdb2.
    unfold stored in *. simpl.
    cbn [fst snd totp_secrets ticked with_secrets] in *.
    rewrite lookup_insert_eq, lookup_alter_eq in *.
    destruct (totp_secrets w2 !! subject) as [row|]; simplify_eq/=. by rewrite Hd.
  - eexists. simpl. by rewrite lookup_insert_eq.
  - intros other Ho. simpl. by rewrite lookup_insert_ne.
  - done.
Qed.

(** The audit log only grows and never fails a request: [log_request]
    always returns, touches neither the secrets nor the limiter, and appends
    exactly one row, with the given subject and the outcome's text, when the
    insert takes effect under a fresh id; otherwise it leaves the table as it
    was.  Unless the database confirmed the row, a failure is reported on the
    server's log, so no row is lost without a report. *)
Theorem log_request_appends_or_reports subject res w :
  exists w',
    exec o (log_request subject res) w = (Some tt, w') /\
    totp_secrets w' = totp_secrets w /\ limiter w' = limiter w /\
    (audit_written o w ->
       request_log w' = (request_log w ++ [audit_row o w subject res])%list) /\
    (~ audit_written o w -> request_log w' = request_log w) /\
    (audit_confirmed o w -> audit_written o w /\ traces w' = traces w) /\
    (~ audit_confirmed o w ->
       traces w' = (traces w ++ [audit_failure subject res (insert_error o w)])%list).
Proof.
  destruct (exec_log_request o subject res w) as (w' & Hrun & (Hs & _ & Hl) & _ & Hlog & Ht).
  exists w'. split_and!; try done; intros Ha; rewrite ?Hlog, ?Ht;
    try (rewrite decide_False by done); try (rewrite decide_True by done);
    rewrite ?app_nil_r; try done. split; [by apply audit_confirmed_written|done].
Qed.
End StoreTheorems.

(** ** Witnesses *)

#[local] Existing Instances tagging_aead tagging_aead_laws.

Definition demo_store : SecretStore :=
  {| crypto := crypto_new (replicate 32 42) |}.
Definition quiet : Oracle := calm (fun _ _ => Unreachable "no network").

Definition stored_world : World (gmap string nat) :=
  (exec quiet (upsert demo_store "alice" [1; 2; 3]) fresh_world).2.

Lemma upsert_get_round_trip_witness :
  (exec quiet (get demo_store "alice") stored_world).1 = Some (Ok (Some [1; 2; 3])) /\
  request_log stored_world = [].
Proof.
  destruct (upsert_get_round_trip quiet demo_store "alice" [1; 2; 3] fresh_world
              stored_world) as (Hget & _ & _ & Hlog).
  - reflexivity.
  - reflexivity.
  - vm_compute. reflexivity.
  - split; [|exact Hlog]. apply Hget; reflexivity.
Defined.

Lemma log_request_appends_or_reports_witness :
  request_log (exec quiet (log_request (Some "alice") Issued) stored_world).2 =
    [mkLogRow 2 (Some "alice") 1111111109 "issued"].
Proof.
  destruct (log_request_appends_or_reports quiet (Some "alice") Issued stored_world)
    as (w' & Hrun & _ & _ & Hlog & _).
  rewrite Hrun. apply Hlog.
  split; [reflexivity|]. vm_compute. intros Hin. inversion Hin.
Defined.
