(* ===== verification/Introspection.v ===== *)
(** * totp-server/src/auth/introspection.rs: asking Keycloak about a token

    [evaluate], [call], [introspect] and [authenticate], as programs.  What
    concurrent requests make of the in-flight map is in Dedup.v; here a
    request runs alone and the oracle speaks for other leaders. *)

From S2P Require Import Prelude RustText AppError Effects Config.
Local Open Scope Z_scope.
Local Open Scope string_scope.

(** [Sha256::digest]. *)
Class Sha256 := sha256 : list Z -> list Z.
(** [Display] of [http::StatusCode]: the number and its reason phrase. *)
Class StatusText := status_text : Z -> string.

Record IntrospectionClient := mkIntrospectionClient {
  url : string;
  client_id : string;
  client_secret : string;
  client_expected_audience : string
}.

(** [IntrospectionClient::new]; the in-flight map is the world's. *)
Definition client_new (config : Config) : IntrospectionClient :=
  {| url := introspection_url config; client_id := keycloak_client_id config;
     client_secret := keycloak_client_secret config;
     client_expected_audience := expected_audience config |}.

Definition contains (self : Audience) (expected : string) : bool :=
  match self with
  | One value => bool_decide (value = expected)
  | Many values => existsb (fun v => bool_decide (v = expected)) values
  end.

(** [impl From<IntrospectionOutcome> for Result<AuthenticatedUser, AppError>]. *)
Definition into_result (outcome : IntrospectionOutcome) : AppResult AuthenticatedUser :=
  match outcome with
  | Active user => Ok user
  | Inactive => Err Unauthorized
  | WrongAudience => Err Forbidden
  | Unavailable reason => Err (IntrospectionUnavailable reason)
  end.

Definition evaluate (self : IntrospectionClient) (body : IntrospectionResponse) :
    Prog IntrospectionOutcome :=
  if negb (active body) then mret Inactive else
  expired ← match exp body with
            | Some exp => now ← perform ReadClock; mret (bool_decide (exp <= now))
            | None => mret false
            end;
  if (expired : bool) then mret Inactive else
  let audience_matches :=
    match aud body with
    | Some aud => contains aud (client_expected_audience self)
    | None => false
    end in
  if negb audience_matches then mret WrongAudience else
  match sub body with
  | None => mret (Unavailable "introspection response omitted the `sub` claim")
  | Some subject =>
      mret (Active {| subject := subject;
                      realm_roles := match realm_access body with
                                     | Some r => roles r
                                     | None => []
                                     end |})
  end.

Definition introspection_post (self : IntrospectionClient) (token : string) : Post :=
  mkPost (url self) (client_id self) (client_secret self) token.

(** [StatusCode::is_success]. *)
Definition is_success (status : Z) : bool := bool_decide (200 <= status < 300).

Definition call `{!StatusText} (self : IntrospectionClient) (token : string) : Prog IntrospectionOutcome :=
  response ← perform (SendPost (introspection_post self token));
  match response with
  | Unreachable err =>
      mret (Unavailable ("could not reach the introspection endpoint: " +:+ err))
  | Reply status body =>
      if negb (is_success status)
      then mret (Unavailable ("introspection endpoint returned HTTP " +:+ status_text status))
      else
        match body with
        | Err err =>
            mret (Unavailable ("could not parse the introspection response: " +:+ err))
        | Ok body => evaluate self body
        end
  end.

Section Introspect.
Context `{!Sha256, !StatusText}.

Definition token_key (token : string) : list Z := sha256 (bytes_of_string token).

Definition introspect (self : IntrospectionClient) (token : string) :
    Prog IntrospectionOutcome :=
  let key := token_key token in
  follower ← perform (JoinInflight key);
  match follower with
  | Some rx =>
      message ← perform (Receive rx);
      match message with
      | Ok outcome => mret outcome
      | Err _ => call self token
      end
  | None =>
      outcome ← call self token;
      _ ← perform (SendInflight key outcome);
      _ ← perform (LeaveInflight key);
      mret outcome
  end.

Definition authenticate (self : IntrospectionClient) (token : string) :
    ProgR AuthenticatedUser :=
  outcome ← introspect self token;
  mret (into_result outcome).
End Introspect.

(** ** Specification *)

(** The token's audience names the server. *)
Definition names_audience (a : option Audience) (expected : string) : Prop :=
  match a with
  | None => False
  | Some (One value) => value = expected
  | Some (Many values) => expected ∈ values
  end.

(** A reply that vouches for [user] at time [now]. *)
Definition vouches (expected : string) (reply : HttpReply) (now : Z)
    (user : AuthenticatedUser) : Prop :=
  exists status body,
    reply = Reply status (Ok body) /\ 200 <= status < 300 /\ active body = true /\
    (forall e, exp body = Some e -> now < e) /\
    names_audience (aud body) expected /\ sub body = Some (subject user) /\
    realm_roles user = from_option roles [] (realm_access body).

(** What [evaluate] and [call] decide, as a function of the reply and the
    time. *)
Definition body_outcome (expected : string) (body : IntrospectionResponse) (now : Z) :
    IntrospectionOutcome :=
  if negb (active body) then Inactive
  else if from_option (fun e => bool_decide (e <= now)) false (exp body) then Inactive
  else if negb (from_option (fun a => contains a expected) false (aud body))
  then WrongAudience
  else match sub body with
       | None => Unavailable "introspection response omitted the `sub` claim"
       | Some s => Active {| subject := s;
                             realm_roles := from_option roles [] (realm_access body) |}
       end.

Definition reply_outcome `{!StatusText} (expected : string) (reply : HttpReply) (now : Z) :
    IntrospectionOutcome :=
  match reply with
  | Unreachable err => Unavailable ("could not reach the introspection endpoint: " +:+ err)
  | Reply status body =>
      if negb (is_success status)
      then Unavailable ("introspection endpoint returned HTTP " +:+ status_text status)
      else match body with
           | Err err => Unavailable ("could not parse the introspection response: " +:+ err)
           | Ok body => body_outcome expected body now
           end
  end.

(** ** Lemmas *)

Lemma contains_spec a expected :
  contains a expected = true <-> names_audience (Some a) expected.
Proof.
  destruct a as [v|vs]; simpl; [by rewrite bool_decide_eq_true|].
  rewrite existsb_exists. setoid_rewrite bool_decide_eq_true.
  setoid_rewrite <-list_elem_of_In. naive_solver.
Qed.

Lemma body_outcome_active expected body now user :
  body_outcome expected body now = Active user <->
  active body = true /\ (forall e, exp body = Some e -> now < e) /\
  names_audience (aud body) expected /\ sub body = Some (subject user) /\
  realm_roles user = from_option roles [] (realm_access body).
Proof.
  unfold body_outcome. destruct (active body); [|naive_solver]. simpl negb. cbn iota.
  assert (Hexp : from_option (fun e => bool_decide (e <= now)) false (exp body) = false <->
                 forall e, exp body = Some e -> now < e).
  { destruct (exp body) as [e|]; simpl; [|naive_solver].
    rewrite bool_decide_eq_false. naive_solver lia. }
  destruct (from_option _ false (exp body)); [naive_solver|].
  assert (Haud : from_option (fun a => contains a expected) false (aud body) = true <->
                 names_audience (aud body) expected).
  { destruct (aud body) as [a|]; [apply contains_spec|done]. }
  destruct (from_option _ false (aud body)); [|naive_solver]. simpl.
  destruct (sub body) as [s|]; [|naive_solver]. destruct user. naive_solver.
Qed.

Section Replies.
Context `{!StatusText}.

Lemma reply_outcome_active expected reply now user :
  reply_outcome expected reply now = Active user <-> vouches expected reply now user.
Proof.
  unfold vouches. destruct reply as [err|status [body|err]]; simpl; [naive_solver|..];
    unfold is_success; case_bool_decide; simpl; try naive_solver.
  rewrite body_outcome_active. naive_solver.
Qed.

(** The clock was read as [now], if the reply is one whose expiry is looked
    at. *)
Definition clocked (rho : forall A, Eff A -> A -> Prop) (reply : HttpReply) (now : Z) : Prop :=
  match reply with
  | Reply status (Ok body) =>
      is_success status = true -> active body = true -> is_Some (exp body) ->
      rho _ ReadClock now
  | _ => True
  end.

Lemma wp_evaluate (phi : forall A, Eff A -> Prop) rho self body :
  phi _ ReadClock ->
  wp phi rho (evaluate self body) (fun outcome => exists now,
    (active body = true -> is_Some (exp body) -> rho _ ReadClock now) /\
    outcome = body_outcome (client_expected_audience self) body now).
Proof.
  intros Hclock. unfold evaluate, body_outcome.
  destruct (active body); [|by exists 0]. destruct (exp body) as [e|]; simpl.
  - split; [done|]. intros now Hnow.
    destruct (bool_decide (e <= now)) eqn:He; simpl; [exists now; by rewrite He|].
    destruct (aud body) as [a|]; simpl; [|exists now; by rewrite He].
    destruct (contains a _); simpl; [|exists now; by rewrite He].
    destruct (sub body), (realm_access body); simpl; exists now; by rewrite He.
  - assert (Hnone : True -> @is_Some Z None -> rho _ ReadClock 0) by (intros _ []; done).
    destruct (aud body) as [a|]; simpl; [|exists 0; auto].
    destruct (contains a _); simpl; [|exists 0; auto].
    destruct (sub body), (realm_access body); simpl; exists 0; auto.
Qed.

(** [outcome] is what Keycloak's reply about [token] comes to. *)
Definition answered_with (rho : forall A, Eff A -> A -> Prop) (self : IntrospectionClient)
    (token : string) (outcome : IntrospectionOutcome) : Prop :=
  exists reply now,
    rho _ (SendPost (introspection_post self token)) reply /\ clocked rho reply now /\
    outcome = reply_outcome (client_expected_audience self) reply now.

(** Whatever the answers, [call] returns the outcome of a reply and a time. *)
Lemma wp_call (phi : forall A, Eff A -> Prop) rho self token :
  phi _ (SendPost (introspection_post self token)) -> phi _ ReadClock ->
  wp phi rho (call self token) (answered_with rho self token).
Proof.
  intros Hpost Hclock. unfold call, answered_with. simpl. split; [done|]. intros reply Hreply.
  destruct reply as [err|status [body|err]]; simpl.
  - by eexists _, 0.
  - destruct (is_success status) eqn:Hs; simpl.
    + eapply wp_mono; [|by apply wp_evaluate]. intros outcome (now & Hnow & ->).
      eexists _, now. split_and!; [done|by intros _|]. simpl. by rewrite Hs.
    + eexists _, 0. split_and!; [done|simpl; congruence|]. simpl. by rewrite Hs.
  - destruct (is_success status) eqn:Hs; simpl; (eexists _, 0; split_and!; [done..|]);
      simpl; by rewrite Hs.
Qed.
End Replies.

(** ** Running alone *)

Section Run.
Context `{!Sha256, !StatusText} {L : Type} `{!Governor L} (o : Oracle).
Implicit Types w : World L.

(** Everything but posts, the in-flight map and the clock of ticks. *)
Definition same_store w w' : Prop :=
  totp_secrets w' = totp_secrets w /\ request_log w' = request_log w /\
  traces w' = traces w /\ limiter w' = limiter w.

(** What Keycloak says if asked at [w]. *)
Definition answer_at (self : IntrospectionClient) token w : IntrospectionOutcome :=
  reply_outcome (client_expected_audience self)
    (keycloak o (tick w) (introspection_post self token)) (clock o (S (tick w))).

Lemma exec_evaluate self body w :
  exists w',
    exec o (evaluate self body) w =
      (Some (body_outcome (client_expected_audience self) body (clock o (tick w))), w') /\
    same_store w w' /\ posts w' = posts w /\ inflight w' = inflight w /\
    (tick w <= tick w')%nat.
Proof.
  unfold evaluate, body_outcome. destruct (active body); [|by exists w].
  destruct (exp body) as [e|]; simpl.
  - exists (ticked w). split; [|split_and!; try done; simpl; lia].
    destruct (bool_decide (e <= clock o (tick w))); simpl; [done|].
    destruct (aud body) as [a|]; simpl; [|done].
    destruct (contains a _); simpl; [|done].
    by destruct (sub body), (realm_access body).
  - exists w. split; [|done].
    destruct (aud body) as [a|]; simpl; [|done].
    destruct (contains a _); simpl; [|done].
    by destruct (sub body), (realm_access body).
Qed.

Lemma exec_call self token w :
  exists w',
    exec o (call self token) w = (Some (answer_at self token w), w') /\
    same_store w w' /\ posts w' = (posts w ++ [introspection_post self token])%list /\
    inflight w' = inflight w /\ (tick w < tick w')%nat.
Proof.
  unfold call, answer_at, reply_outcome. simpl.
  destruct (keycloak o (tick w) _) as [err|status body]; simpl.
  { eexists. split_and!; first [done | simpl; lia]. }
  destruct (is_success status); simpl; [|eexists; split_and!; first [done | simpl; lia]].
  destruct body as [body|err]; [|eexists; split_and!; first [done | simpl; lia]].
  destruct (exec_evaluate self body
    (ticked (with_posts w (posts w ++ [introspection_post self token])%list)))
    as (w' & Hrun & Hs & Hp & Hi & Ht).
  exists w'. split; [exact Hrun|]. split_and!; [apply Hs..|done|done|]. simpl in Ht. lia.
Qed.

(** A request that finds no other in flight for its token leads. *)
Lemma exec_introspect_alone self token w :
  token_key token ∉ inflight w ->
  exists w',
    exec o (introspect self token) w = (Some (answer_at self token (ticked w)), w') /\
    same_store w w' /\ posts w' = (posts w ++ [introspection_post self token])%list /\
    inflight w' = inflight w /\ (tick w < tick w')%nat.
Proof.
  intros Hkey. unfold introspect. rewrite exec_bind.
  cbn [perform exec exec_eff]. rewrite decide_False by done. cbn iota beta.
  set (w1 := ticked (with_inflight w _)).
  destruct (exec_call self token w1) as (w2 & Hrun & (Hs1 & Hs2 & Hs3 & Hs4) & Hp & Hi & Ht).
  eexists. split.
  { rewrite exec_bind, Hrun. reflexivity. }
  subst w1. cbn in Hs1, Hs2, Hs3, Hs4, Hp, Hi, Ht.
  split_and!; simpl; try done; [|lia]. rewrite Hi. set_solver.
Qed.
End Run.

(** ** Properties *)

(** The reply is no usable answer. *)
Definition no_answer (reply : HttpReply) : Prop :=
  match reply with
  | Unreachable _ => True
  | Reply status body => ~ (200 <= status < 300) \/ is_ok body = false
  end.

(** C24. Introspection decides and never fails open: a request with no other
    in flight for its token asks Keycloak exactly once, with the client's
    credentials and this token, and is authenticated as [user] exactly when
    the reply vouches for that user now: status 2xx, a body that parses and
    says active, an expiry, if any, still ahead, an audience that names this
    server, and a subject.  Without a usable answer the error is the 503
    one.  Nothing is stored, and the in-flight map is left as it was. *)
Theorem authenticate_decides `{!Sha256, !StatusText, !Governor L} (o : Oracle)
    self token (w : World L) :
  token_key token ∉ inflight w ->
  let reply := keycloak o (S (tick w)) (introspection_post self token) in
  let now := clock o (S (S (tick w))) in
  exists r w',
    exec o (authenticate self token) w = (Some r, w') /\
    (forall user, r = Ok user <-> vouches (client_expected_audience self) reply now user) /\
    (no_answer reply -> exists e, r = Err e /\ status_code e = 503) /\
    posts w' = (posts w ++ [introspection_post self token])%list /\
    same_store w w' /\ inflight w' = inflight w.
Proof.
  intros Hkey reply now.
  destruct (exec_introspect_alone o self token w Hkey)
    as (w' & Hrun & Hs & Hp & Hi & _).
  eexists _, w'. split; [unfold authenticate; rewrite exec_bind, Hrun; done|].
  change (answer_at o self token (ticked w)) with
    (reply_outcome (client_expected_audience self) reply now).
  split; [|split; [|done]].
  - intros user. rewrite <-reply_outcome_active.
    destruct (reply_outcome _ _ _); simpl; naive_solver.
  - unfold no_answer, reply_outcome. destruct reply as [err|status body]; [by eexists|].
    unfold is_success. case_bool_decide; simpl; [|by eexists].
    destruct body; [by intros [?|]|by eexists].
Qed.

(** ** Witnesses *)

Definition identity_hash : Sha256 := id.
Definition no_text : StatusText := fun _ => "".
#[local] Existing Instances identity_hash no_text.

Definition demo_client : IntrospectionClient :=
  mkIntrospectionClient "http://keycloak/introspect" "totp-server" "s3cret" "totp-server".

(** Keycloak knows one live token. *)
Definition demo_keycloak (_ : nat) (post : Post) : HttpReply :=
  if decide (post_token post = "alice-token")
  then Reply 200 (Ok {| active := true; sub := Some "alice";
                        aud := Some (Many ["account"; "totp-server"]);
                        exp := Some 1111111400;
                        realm_access := Some (mkRealmAccess ["user"]) |})
  else Reply 200 (Ok {| active := false; sub := None; aud := None; exp := None;
                        realm_access := None |}).

Lemma authenticate_decides_witness :
  (exec (calm demo_keycloak) (authenticate demo_client "alice-token") fresh_world).1 =
    Some (Ok (mkAuthenticatedUser "alice" ["user"])) /\
  (exec (calm demo_keycloak) (authenticate demo_client "stolen") fresh_world).1 =
    Some (Err Unauthorized).
Proof.
  split; [|vm_compute; reflexivity].
  destruct (authenticate_decides (calm demo_keycloak) demo_client "alice-token" fresh_world)
    as (r & w' & Hrun & Hiff & _).
  - apply not_elem_of_empty.
  - rewrite Hrun. cbn [fst]. f_equal. apply Hiff.
    eexists 200, _. split; [reflexivity|]. split; [split; [discriminate|reflexivity]|].
    split; [reflexivity|]. split; [intros e [= <-]; reflexivity|].
    split; [right; left|]. split; reflexivity.
Defined.
