(* ===== verification/Dedup.v ===== *)
(** * The in-flight map: concurrent introspections of one token

    Introspection.v has [introspect] as a program; here any number of its runs
    interleave.  A task is where a run stands between two effects ([Stage],
    tied to the program by [prog_of]); [step] is the effects' meaning on the
    shared map and its broadcast channels:
    - a channel is [tokio::sync::broadcast] with room for the one message it
      ever carries; its only sender lives in the map, so it is open exactly as
      long as its entry is there; a receiver gets what is sent after it
      subscribed, or an error once the channel is closed;
    - a request's future can be dropped at its awaits (waiting for a message
      or for Keycloak); the leader's guard then removes its entry. *)

From S2P Require Import Prelude RustText AppError Effects Config Introspection.
Local Open Scope nat_scope.

(** ** Tasks *)

(** A leader remembers which channel it inserted: only for the proofs. *)
Inductive Stage :=
| Start
| Leading (chan : Receiver)
| Publishing (chan : Receiver) (outcome : IntrospectionOutcome)
| Leaving (chan : Receiver) (outcome : IntrospectionOutcome)
| Waiting (rx : Receiver) (mail : option IntrospectionOutcome)
| Fallback
| Finished (outcome : IntrospectionOutcome)
| Cancelled.

Section Dedup.
Context `{!Sha256, !StatusText} (self : IntrospectionClient).

(** What is left of [introspect] at a stage. *)
Definition prog_of (token : string) (stage : Stage) : Prog IntrospectionOutcome :=
  let key := token_key token in
  let leave outcome := _ ← perform (LeaveInflight key); mret outcome in
  let publish outcome := _ ← perform (SendInflight key outcome); leave outcome in
  match stage with
  | Start | Cancelled => introspect self token
  | Leading _ => call self token ≫= publish
  | Publishing _ outcome => publish outcome
  | Leaving _ outcome => leave outcome
  | Waiting rx _ =>
      message ← perform (Receive rx);
      match message with
      | Ok outcome => mret outcome
      | Err _ => call self token
      end
  | Fallback => call self token
  | Finished outcome => mret outcome
  end.

(** ** The shared state *)

Record Sys := mkSys {
  (** Key to channel. *)
  entries : gmap (list Z) Receiver;
  next_chan : Receiver;
  tasks : list (string * Stage);
  (** The introspection calls that were answered, oldest first. *)
  calls : list (string * IntrospectionOutcome)
}.

Definition set_stage (i : nat) (token : string) (stage : Stage) (sys : Sys) : Sys :=
  mkSys (entries sys) (next_chan sys) (<[i := (token, stage)]> (tasks sys)) (calls sys).

Definition with_entries (m : gmap (list Z) Receiver) (sys : Sys) : Sys :=
  mkSys m (next_chan sys) (tasks sys) (calls sys).

Definition with_call (token : string) (outcome : IntrospectionOutcome) (sys : Sys) : Sys :=
  mkSys (entries sys) (next_chan sys) (tasks sys) (calls sys ++ [(token, outcome)]).

(** [tx.send]: a message for everyone subscribed now. *)
Definition deliver_to (chan : Receiver) (outcome : IntrospectionOutcome)
    (task : string * Stage) : string * Stage :=
  match task with
  | (token, Waiting rx None) =>
      if decide (rx = chan) then (token, Waiting rx (Some outcome)) else task
  | _ => task
  end.

Definition send (chan : Receiver) (outcome : IntrospectionOutcome) (sys : Sys) : Sys :=
  mkSys (entries sys) (next_chan sys) (deliver_to chan outcome <$> tasks sys) (calls sys).

(** No sender is left. *)
Definition closed (chan : Receiver) (sys : Sys) : Prop :=
  forall key, entries sys !! key <> Some chan.

(** [JoinInflight], [Receive], [SendInflight] and [LeaveInflight], and a call
    that Keycloak answers. *)
Inductive run_step (sys : Sys) (i : nat) : Sys -> Prop :=
| step_lead token :
    tasks sys !! i = Some (token, Start) -> entries sys !! token_key token = None ->
    run_step sys i
      (set_stage i token (Leading (next_chan sys))
         (mkSys (<[token_key token := next_chan sys]> (entries sys)) (S (next_chan sys))
            (tasks sys) (calls sys)))
| step_follow token chan :
    tasks sys !! i = Some (token, Start) -> entries sys !! token_key token = Some chan ->
    run_step sys i (set_stage i token (Waiting chan None) sys)
| step_call token chan outcome :
    tasks sys !! i = Some (token, Leading chan) ->
    run_step sys i (set_stage i token (Publishing chan outcome) (with_call token outcome sys))
| step_publish token own chan outcome :
    tasks sys !! i = Some (token, Publishing own outcome) ->
    entries sys !! token_key token = Some chan ->
    run_step sys i (set_stage i token (Leaving own outcome) (send chan outcome sys))
| step_publish_gone token own outcome :
    tasks sys !! i = Some (token, Publishing own outcome) ->
    entries sys !! token_key token = None ->
    run_step sys i (set_stage i token (Leaving own outcome) sys)
| step_leave token chan outcome :
    tasks sys !! i = Some (token, Leaving chan outcome) ->
    run_step sys i (set_stage i token (Finished outcome)
                      (with_entries (delete (token_key token) (entries sys)) sys))
| step_receive token rx outcome :
    tasks sys !! i = Some (token, Waiting rx (Some outcome)) ->
    run_step sys i (set_stage i token (Finished outcome) sys)
| step_closed token rx :
    tasks sys !! i = Some (token, Waiting rx None) -> closed rx sys ->
    run_step sys i (set_stage i token Fallback sys)
| step_own_call token outcome :
    tasks sys !! i = Some (token, Fallback) ->
    run_step sys i (set_stage i token (Finished outcome) (with_call token outcome sys)).

Inductive step (sys : Sys) : Sys -> Prop :=
| step_arrive token :
    step sys (mkSys (entries sys) (next_chan sys) (tasks sys ++ [(token, Start)]) (calls sys))
| step_run i sys' : run_step sys i sys' -> step sys sys'
| step_cancel_leader i token chan :
    tasks sys !! i = Some (token, Leading chan) ->
    step sys (set_stage i token Cancelled
                (with_entries (delete (token_key token) (entries sys)) sys))
| step_cancel_waiting i token rx mail :
    tasks sys !! i = Some (token, Waiting rx mail) ->
    step sys (set_stage i token Cancelled sys)
| step_cancel_fallback i token :
    tasks sys !! i = Some (token, Fallback) -> step sys (set_stage i token Cancelled sys).

Definition initial : Sys := mkSys ∅ 0 [] [].
Definition reachable : Sys -> Prop := rtc step initial.

(** ** Stages follow the program *)

(** The program at [stage] performs [e] next, and each answer takes it to the
    program at the given stage. *)
Definition performs {A} (token : string) (stage : Stage) (e : Eff A) (next : A -> Stage) :
    Prop :=
  exists k, prog_of token stage = Do e k /\ forall a, k a = prog_of token (next a).

(** ** Invariant *)

(** The channel a leader holds. *)
Definition leads (stage : Stage) : option Receiver :=
  match stage with
  | Leading chan | Publishing chan _ | Leaving chan _ => Some chan
  | _ => None
  end.

(** Some call for a token with this key was answered with [outcome]. *)
Definition answered (sys : Sys) (key : list Z) (outcome : IntrospectionOutcome) : Prop :=
  exists token, token_key token = key /\ (token, outcome) ∈ calls sys.

Definition stage_ok (sys : Sys) (token : string) (stage : Stage) : Prop :=
  match stage with
  | Leading chan => entries sys !! token_key token = Some chan
  | Publishing chan outcome | Leaving chan outcome =>
      entries sys !! token_key token = Some chan /\ answered sys (token_key token) outcome
  | Waiting rx mail =>
      rx < next_chan sys /\
      (forall key, entries sys !! key = Some rx -> key = token_key token) /\
      (forall outcome, mail = Some outcome -> answered sys (token_key token) outcome)
  | Finished outcome => answered sys (token_key token) outcome
  | Start | Fallback | Cancelled => True
  end.

Record sys_ok (sys : Sys) : Prop := {
  ok_stages i token stage :
    tasks sys !! i = Some (token, stage) -> stage_ok sys token stage;
  ok_leader key chan :
    entries sys !! key = Some chan ->
    exists i token stage, tasks sys !! i = Some (token, stage) /\
      token_key token = key /\ leads stage = Some chan;
  ok_unique i j token token' stage stage' chan :
    tasks sys !! i = Some (token, stage) -> tasks sys !! j = Some (token', stage') ->
    leads stage = Some chan -> leads stage' = Some chan -> i = j;
  ok_fresh key chan : entries sys !! key = Some chan -> chan < next_chan sys;
  ok_injective key key' chan :
    entries sys !! key = Some chan -> entries sys !! key' = Some chan -> key = key'
}.

(** Leaders hold channels of the map, one each. *)
Lemma leader_entry sys i token stage chan :
  sys_ok sys -> tasks sys !! i = Some (token, stage) -> leads stage = Some chan ->
  entries sys !! token_key token = Some chan.
Proof.
  intros Hok Hi Hl. pose proof (ok_stages _ Hok _ _ _ Hi) as Hs.
  destruct stage; simplify_eq/=; tauto.
Qed.

Lemma answered_mono sys sys' key outcome :
  calls sys ⊆ calls sys' -> answered sys key outcome -> answered sys' key outcome.
Proof. intros Hc (t & Hk & Ht). exists t. auto. Qed.

(** A stage stays sound when calls are added and entries kept. *)
Lemma stage_ok_mono sys sys' token stage :
  calls sys ⊆ calls sys' -> entries sys' = entries sys -> next_chan sys' = next_chan sys ->
  stage_ok sys token stage -> stage_ok sys' token stage.
Proof.
  intros Hc He Hn. pose proof (answered_mono sys sys' (token_key token)).
  destruct stage; simpl; rewrite ?He, ?Hn; naive_solver.
Qed.

Lemma task_cases (l : list (string * Stage)) i x j token stage :
  <[i := x]> l !! j = Some (token, stage) ->
  i = j /\ x = (token, stage) \/ i <> j /\ l !! j = Some (token, stage).
Proof. intros [(-> & <- & _)|[Hne Hj]]%list_lookup_insert_Some; auto. Qed.

(** A task moves on without touching the map's entries. *)
Lemma ok_move sys i token stage stage' cs :
  sys_ok sys -> tasks sys !! i = Some (token, stage) -> leads stage' = leads stage ->
  calls sys ⊆ cs ->
  let sys' := mkSys (entries sys) (next_chan sys) (<[i := (token, stage')]> (tasks sys)) cs in
  stage_ok sys' token stage' -> sys_ok sys'.
Proof.
  intros Hok Hi Hl Hc sys' Hs.
  assert (Hold : forall j t s, tasks sys' !! j = Some (t, s) ->
            exists s0, tasks sys !! j = Some (t, s0) /\ leads s0 = leads s).
  { intros j t s [[-> Hx]|[_ Hj]]%task_cases; [|by exists s].
    injection Hx as <- <-. by exists stage. }
  split.
  - intros j t s [[-> Hx]|[_ Hj]]%task_cases; [by injection Hx as <- <-|].
    eapply (stage_ok_mono sys); [done..|]. by apply (ok_stages _ Hok j).
  - intros key chan Hk. destruct (ok_leader _ Hok _ _ Hk) as (j & t & s & Hj & Htk & Hls).
    destruct (decide (i = j)) as [->|Hne].
    + rewrite Hi in Hj. injection Hj as <- <-. exists j, token, stage'.
      split_and!; [|done|congruence]. apply list_lookup_insert_eq. by eapply lookup_lt_Some.
    + exists j, t, s. split_and!; [|done..]. simpl. by rewrite list_lookup_insert_ne.
  - intros j j' t t' s s' chan (s0 & Hj & <-)%Hold (s1 & Hj' & <-)%Hold.
    by apply (ok_unique _ Hok j j' t t' s0 s1 chan).
  - apply Hok.
  - apply Hok.
Qed.

Lemma deliver_leads chan outcome task token stage :
  deliver_to chan outcome task = (token, stage) ->
  exists stage0, task = (token, stage0) /\ leads stage0 = leads stage.
Proof.
  destruct task as [t []]; simpl; intros; repeat case_match; simplify_eq/=; eauto.
Qed.

Lemma ok_send sys key chan outcome :
  sys_ok sys -> entries sys !! key = Some chan -> answered sys key outcome ->
  sys_ok (send chan outcome sys).
Proof.
  intros Hok Hk Ha.
  assert (Hold : forall j t s, tasks (send chan outcome sys) !! j = Some (t, s) ->
            exists s0, tasks sys !! j = Some (t, s0) /\ leads s0 = leads s /\
                       (t, s) = deliver_to chan outcome (t, s0)).
  { intros j t s. unfold send. simpl. rewrite list_lookup_fmap.
    intros (x & Hj & Hx)%fmap_Some. destruct (deliver_leads _ _ _ _ _ (eq_sym Hx)) as (s0 & -> & Hl).
    by exists s0. }
  split.
  - intros j t s (s0 & Hj & _ & Hd)%Hold.
    pose proof (stage_ok_mono sys (send chan outcome sys) t s0 ltac:(done) eq_refl eq_refl
                  (ok_stages _ Hok _ _ _ Hj)) as Hs0.
    destruct s0 as [| | | |rx [mail|]| | |]; simpl in Hd; repeat case_decide;
      injection Hd as ->; try exact Hs0.
    subst. destruct Hs0 as (Hlt & Hkey & _). split_and!; [done..|].
    intros o [= <-]. rewrite (Hkey key Hk) in Ha. done.
  - intros key' chan' Hk'. destruct (ok_leader _ Hok _ _ Hk') as (j & t & s & Hj & Ht & Hl).
    exists j, t, s. split_and!; [|done..]. unfold send. simpl.
    rewrite list_lookup_fmap, Hj. by destruct s.
  - intros j j' t t' s s' c (s0 & Hj & <- & _)%Hold (s1 & Hj' & <- & _)%Hold.
    by apply (ok_unique _ Hok j j' t t' s0 s1 c).
  - apply Hok.
  - apply Hok.
Qed.

(** A leader's entry is removed when it leaves. *)
Lemma ok_drop sys i token stage stage' chan :
  sys_ok sys -> tasks sys !! i = Some (token, stage) -> leads stage = Some chan ->
  leads stage' = None ->
  let sys' := set_stage i token stage'
                (with_entries (delete (token_key token) (entries sys)) sys) in
  stage_ok sys' token stage' -> sys_ok sys'.
Proof.
  intros Hok Hi Hl Hl' sys' Hs.
  pose proof (leader_entry sys i token stage chan Hok Hi Hl) as He.
  assert (Hdel : forall key c, entries sys' !! key = Some c ->
            key <> token_key token /\ entries sys !! key = Some c).
  { intros key c Hc.
    change (delete (token_key token) (entries sys) !! key = Some c) in Hc.
    apply lookup_delete_Some in Hc as [Hne Hc]. auto. }
  assert (Hother : forall j t s c, i <> j -> tasks sys !! j = Some (t, s) ->
            leads s = Some c -> entries sys' !! token_key t = Some c).
  { intros j t s c Hne Hj Hls.
    change (delete (token_key token) (entries sys) !! token_key t = Some c).
    apply lookup_delete_Some.
    pose proof (leader_entry sys j t s c Hok Hj Hls) as Hc. split; [|done].
    intros Heq. rewrite <-Heq, He in Hc. injection Hc as <-. apply Hne.
    by apply (ok_unique _ Hok i j token t stage s chan). }
  split.
  - intros j t s [[-> Hx]|[Hne Hj]]%task_cases; [by injection Hx as <- <-|].
    pose proof (ok_stages _ Hok _ _ _ Hj) as Hsj.
    destruct s as [|c|c o|c o|rx mail| |o|]; cbn [stage_ok] in *; try done.
    + by apply (Hother j t (Leading c)).
    + destruct Hsj as [_ Ha]. split; [by apply (Hother j t (Publishing c o))|exact Ha].
    + destruct Hsj as [_ Ha]. split; [by apply (Hother j t (Leaving c o))|exact Ha].
    + destruct Hsj as (Hlt & Hkey & Ha). split_and!; [done| |exact Ha].
      intros key [_ Hk]%Hdel. by apply Hkey.
  - intros key c [Hne Hk]%Hdel.
    destruct (ok_leader _ Hok _ _ Hk) as (j & t & s & Hj & Ht & Hls).
    exists j, t, s. split_and!; [|done..]. unfold sys', set_stage. simpl.
    rewrite list_lookup_insert_ne; [done|]. intros ->. congruence.
  - intros j j' t t' s s' c [[<- Hx]|[Hne Hj]]%task_cases
      [[<- Hx']|[Hne' Hj']]%task_cases; try done.
    + injection Hx as <- <-. congruence.
    + injection Hx' as <- <-. congruence.
    + by apply (ok_unique _ Hok j j' t t' s s' c).
  - intros key c [_ Hk]%Hdel. by apply (ok_fresh _ Hok key).
  - intros key key' c [_ Hk]%Hdel [_ Hk']%Hdel. by apply (ok_injective _ Hok key key' c).
Qed.

(** Becoming the leader of a key no one leads. *)
Lemma ok_lead sys i token :
  sys_ok sys -> tasks sys !! i = Some (token, Start) ->
  entries sys !! token_key token = None ->
  sys_ok (set_stage i token (Leading (next_chan sys))
    (mkSys (<[token_key token := next_chan sys]> (entries sys)) (S (next_chan sys))
       (tasks sys) (calls sys))).
Proof.
  intros Hok Hi Hnone. set (c0 := next_chan sys).
  set (m' := <[token_key token := c0]> (entries sys)).
  assert (Hm' : forall key c, m' !! key = Some c ->
    key = token_key token /\ c = c0 \/ entries sys !! key = Some c /\ c < c0).
  { intros key c [[<- <-]|[_ Hk]]%lookup_insert_Some; [by left|right].
    split; [done|]. by apply (ok_fresh _ Hok key). }
  assert (Hkeep : forall key c, entries sys !! key = Some c -> m' !! key = Some c).
  { intros key c Hk. apply lookup_insert_Some. right. split; [|done]. congruence. }
  split; cbn [set_stage tasks entries next_chan].
  - intros j t s [[-> Hx]|[Hne Hj]]%task_cases.
    { injection Hx as <- <-. apply lookup_insert_eq. }
    pose proof (ok_stages _ Hok _ _ _ Hj) as Hs.
    destruct s as [|c|c o|c o|rx mail| |o|]; cbn [stage_ok entries] in *; try done.
    + by apply Hkeep.
    + destruct Hs as [Hc Ha]. split; [by apply Hkeep|exact Ha].
    + destruct Hs as [Hc Ha]. split; [by apply Hkeep|exact Ha].
    + destruct Hs as (Hlt & Hkey & Ha). split_and!; [simpl; fold c0 in Hlt; lia| |exact Ha].
      intros key [[_ ->]|[Hk _]]%Hm'; [unfold c0 in Hlt; lia|by apply Hkey].
  - intros key c [[-> ->]|[Hk _]]%Hm'.
    + exists i, token, (Leading c0). split_and!; [|done..].
      apply list_lookup_insert_eq. by eapply lookup_lt_Some.
    + destruct (ok_leader _ Hok _ _ Hk) as (j & t & s & Hj & Ht & Hls).
      exists j, t, s. split_and!; [|done..]. rewrite list_lookup_insert_ne; [done|].
      intros ->. rewrite Hi in Hj. by injection Hj as <- <-.
  - assert (Hold : forall j t s, tasks sys !! j = Some (t, s) -> leads s <> Some c0).
    { intros j t s Hj Hls. pose proof (leader_entry _ _ _ _ _ Hok Hj Hls) as Hc.
      apply (ok_fresh _ Hok) in Hc. unfold c0 in Hc. lia. }
    intros j j' t t' s s' c [[<- Hx]|[Hne Hj]]%task_cases
      [[<- Hx']|[Hne' Hj']]%task_cases Hl Hl'; try done.
    + injection Hx as <- <-. injection Hl as <-. by destruct (Hold _ _ _ Hj').
    + injection Hx' as <- <-. injection Hl' as <-. by destruct (Hold _ _ _ Hj).
    + by apply (ok_unique _ Hok j j' t t' s s' c).
  - intros key c [[_ ->]|[_ Hlt]]%Hm'; unfold c0 in *; lia.
  - intros key key' c [[-> ->]|[Hk Hlt]]%Hm' [[-> ?]|[Hk' Hlt']]%Hm'; try done; try lia.
    by apply (ok_injective _ Hok key key' c).
Qed.

Lemma ok_arrive sys token :
  sys_ok sys ->
  sys_ok (mkSys (entries sys) (next_chan sys) (tasks sys ++ [(token, Start)]) (calls sys)).
Proof.
  intros Hok.
  assert (Hold : forall j t s, (tasks sys ++ [(token, Start)]) !! j = Some (t, s) ->
            tasks sys !! j = Some (t, s) \/ s = Start).
  { intros j t s [Hj|[_ Hj]]%lookup_app_Some; [by left|].
    apply list_lookup_singleton_Some in Hj as [_ Hj]. by right; injection Hj. }
  split; cbn [tasks entries next_chan]; try apply Hok.
  - intros j t s [Hj| ->]%Hold; [|done].
    eapply (stage_ok_mono sys); [done..|]. by apply (ok_stages _ Hok j).
  - intros key c Hk. destruct (ok_leader _ Hok _ _ Hk) as (j & t & s & Hj & Ht & Hls).
    exists j, t, s. split_and!; [by apply lookup_app_l_Some|done..].
  - intros j j' t t' s s' c [Hj| ->]%Hold [Hj'| ->]%Hold Hl Hl'; try done.
    by apply (ok_unique _ Hok j j' t t' s s' c).
Qed.

Lemma ok_run sys i sys' : sys_ok sys -> run_step sys i sys' -> sys_ok sys'.
Proof.
  intros Hok Hstep. destruct Hstep as
    [token Hi He|token c Hi He|token c o Hi|token c0 c o Hi He|token c o Hi He
    |token c o Hi|token rx o Hi|token rx Hi Hc|token o Hi];
    pose proof (ok_stages _ Hok _ _ _ Hi) as Hs.
  - by apply ok_lead.
  - apply (ok_move sys i token Start); [done..|]. simpl. split_and!; [| |done].
    + by apply (ok_fresh _ Hok (token_key token)).
    + intros key Hk. by apply (ok_injective _ Hok key _ c).
  - apply (ok_move sys i token (Leading c)); [done..|set_solver|].
    simpl in *. split; [done|]. exists token. set_solver.
  - destruct Hs as [He' Ha]. rewrite He in He'. injection He' as ->.
    apply (ok_move (send c0 o sys) i token (Publishing c0 o)).
    + by apply (ok_send sys (token_key token)).
    + unfold send. simpl. by rewrite list_lookup_fmap, Hi.
    + done.
    + done.
    + by split.
  - destruct Hs as [He' _]. congruence.
  - apply (ok_drop sys i token (Leaving c o) _ c); [done..|]. apply Hs.
  - apply (ok_move sys i token (Waiting rx (Some o))); [done..|].
    destruct Hs as (_ & _ & Ha). by apply Ha.
  - by apply (ok_move sys i token (Waiting rx None)).
  - apply (ok_move sys i token Fallback); [done..|set_solver|].
    exists token. set_solver.
Qed.

Lemma ok_step sys sys' : sys_ok sys -> step sys sys' -> sys_ok sys'.
Proof.
  intros Hok [token|i sys1 Hrun|i token c Hi|i token rx mail Hi|i token Hi].
  - by apply ok_arrive.
  - by eapply ok_run.
  - by apply (ok_drop sys i token (Leading c) _ c).
  - by apply (ok_move sys i token (Waiting rx mail)).
  - by apply (ok_move sys i token Fallback).
Qed.

Lemma ok_initial : sys_ok initial.
Proof. split; naive_solver. Qed.

Lemma reachable_ok sys : reachable sys -> sys_ok sys.
Proof.
  assert (Hrtc : forall s s', rtc step s s' -> sys_ok s -> sys_ok s').
  { induction 1 as [|s1 s2 s3 Hs _ IH]; [done|]. intros Hok. by eapply IH, ok_step. }
  intros Hr. eapply Hrtc; [exact Hr|apply ok_initial].
Qed.

(** ** Progress *)

Definition weight (stage : Stage) : nat :=
  match stage with
  | Start => 4
  | Leading _ => 3
  | Publishing _ _ | Waiting _ None => 2
  | Leaving _ _ | Waiting _ (Some _) | Fallback => 1
  | Finished _ | Cancelled => 0
  end.

Definition work (l : list (string * Stage)) : nat := sum_list_with (fun t => weight t.2) l.

Definition ended (stage : Stage) : Prop := weight stage = 0.

Definition any_run (sys sys' : Sys) : Prop := exists i, run_step sys i sys'.

Lemma work_insert l i token stage token' stage' :
  l !! i = Some (token, stage) ->
  work (<[i := (token', stage')]> l) + weight stage = work l + weight stage'.
Proof.
  revert i. induction l as [|x l IH]; intros [|i] Hi; try done; simpl in *.
  - injection Hi as ->. simpl. lia.
  - specialize (IH i Hi). lia.
Qed.

Lemma work_deliver chan outcome l : work (deliver_to chan outcome <$> l) <= work l.
Proof.
  induction l as [|[t s] l IH]; [done|]. cbn [fmap list_fmap]. unfold work in *.
  cbn [sum_list_with snd]. assert (weight (deliver_to chan outcome (t, s)).2 <= weight s); [|lia].
  destruct s as [| | | |rx [m|]| | |]; simpl; try lia. case_decide; simpl; lia.
Qed.

Lemma work_bound l : work l <= 4 * length l.
Proof.
  induction l as [|[t s] l IH]; [done|]. unfold work in *. cbn [sum_list_with length].
  assert (weight s <= 4) by (destruct s as [| | | |? []| | |]; simpl; lia).
  cbn [snd]. lia.
Qed.

Lemma run_step_work sys i sys' :
  run_step sys i sys' ->
  S (work (tasks sys')) <= work (tasks sys) /\ length (tasks sys') = length (tasks sys).
Proof.
  intros [token Hi He|token c Hi He|token c o Hi|token c0 c o Hi He|token c o Hi He
    |token c o Hi|token rx o Hi|token rx Hi Hc|token o Hi];
    cbn [set_stage send with_entries with_call tasks]; rewrite length_insert.
  4: { assert (Hd : (deliver_to c o <$> tasks sys) !! i = Some (token, Publishing c0 o))
         by (by rewrite list_lookup_fmap, Hi).
       pose proof (work_insert _ _ _ _ token (Leaving c0 o) Hd) as Hw.
       pose proof (work_deliver c o (tasks sys)). rewrite length_fmap.
       simpl in Hw. split; [lia|done]. }
  all: match goal with Hi : _ !! ?i = Some (?t, _) |- context [<[?i := (_, ?s')]> _] =>
         pose proof (work_insert _ _ _ _ t s' Hi) as Hw end;
       simpl in Hw; split; [lia|done].
Qed.

(** A task that has not ended can go on, or the leader it waits for can. *)
Lemma run_possible sys i token stage :
  sys_ok sys -> tasks sys !! i = Some (token, stage) -> ~ ended stage ->
  exists j sys', run_step sys j sys'.
Proof.
  intros Hok Hi Hs.
  assert (Hlead : forall j t s c, tasks sys !! j = Some (t, s) -> leads s = Some c ->
            exists j sys', run_step sys j sys').
  { intros j t s c Hj Hl. destruct s; try done; simplify_eq/=.
    - eexists _, _. by apply (step_call _ _ _ _ Inactive Hj).
    - pose proof (ok_stages _ Hok _ _ _ Hj) as [He _].
      eexists _, _. by eapply step_publish.
    - eexists _, _. by eapply step_leave. }
  destruct stage as [|c|c o|c o|rx [m|]| |o|];
    try (by destruct Hs); try (by eapply Hlead).
  - destruct (entries sys !! token_key token) as [c|] eqn:He; eexists _, _;
      [by eapply step_follow|by eapply step_lead].
  - eexists _, _. by eapply step_receive.
  - destruct (decide (map_Exists (fun _ c => c = rx) (entries sys))) as [Hex|Hno].
    + destruct Hex as (key & c & Hk & ->).
      destruct (ok_leader _ Hok _ _ Hk) as (j & t & s & Hj & _ & Hl). by eapply Hlead.
    + eexists _, _. eapply step_closed; [done|]. intros key Hk. apply Hno.
      by exists key, rx.
  - eexists _, _. by apply (step_own_call _ _ _ Inactive Hi).
Qed.

(** ** After a leader published *)

Definition settled (rx : Receiver) (outcome : IntrospectionOutcome) (stage : Stage) : Prop :=
  stage = Waiting rx (Some outcome) \/ stage = Finished outcome \/ stage = Cancelled.

Lemma settled_step sys sys' j token rx outcome stage :
  tasks sys !! j = Some (token, stage) -> settled rx outcome stage -> step sys sys' ->
  exists stage', tasks sys' !! j = Some (token, stage') /\ settled rx outcome stage'.
Proof.
  intros Hj Hs Hstep.
  assert (Hmove : forall i t s s', tasks sys !! i = Some (t, s) ->
    (settled rx outcome s -> settled rx outcome s') ->
    exists stage', <[i := (t, s')]> (tasks sys) !! j = Some (token, stage') /\
      settled rx outcome stage').
  { intros i t s s' Hi Hss. destruct (decide (i = j)) as [->|Hne].
    - rewrite Hj in Hi. injection Hi as -> ->. exists s'. split; [|auto].
      apply list_lookup_insert_eq. by eapply lookup_lt_Some.
    - exists stage. by rewrite list_lookup_insert_ne. }
  unfold settled in *. destruct Hstep as [t|i sys1 Hrun|i t c Hi|i t rx' mail Hi|i t Hi].
  - exists stage. split; [by apply lookup_app_l_Some|done].
  - destruct Hrun as [t Hi He|t c Hi He|t c o Hi|t c0 c o Hi He|t c o Hi He
      |t c o Hi|t rx' o Hi|t rx' Hi Hc|t o Hi]; cbn [set_stage with_entries with_call send tasks];
      try (eapply (Hmove i t); [exact Hi|]; naive_solver).
    destruct (decide (i = j)) as [->|Hne]; [rewrite Hj in Hi; naive_solver|].
    exists stage. rewrite list_lookup_insert_ne, list_lookup_fmap, Hj by done.
    split; [|done]. simpl. by destruct Hs as [->|[->| ->]].
  - eapply (Hmove i t); [exact Hi|]; naive_solver.
  - eapply (Hmove i t); [exact Hi|]; naive_solver.
  - eapply (Hmove i t); [exact Hi|]; naive_solver.
Qed.
(** ** Everyone can be stopped *)

(** A leader that has published leaves; everyone else is cancelled. *)
Definition halted (stage : Stage) : Stage :=
  match stage with
  | Leaving _ outcome | Finished outcome => Finished outcome
  | _ => Cancelled
  end.

Definition haltable (stage : Stage) : Prop :=
  match stage with Start | Publishing _ _ => False | _ => True end.

Lemma halt_task sys i token stage :
  tasks sys !! i = Some (token, stage) -> haltable stage ->
  exists sys', rtc step sys sys' /\ next_chan sys' = next_chan sys /\
    tasks sys' = <[i := (token, halted stage)]> (tasks sys).
Proof.
  intros Hi Hs. destruct stage as [|chan|chan outcome|chan outcome|rx message| |outcome|]; try done.
  - eexists. split; [by eapply rtc_once, step_cancel_leader|done].
  - eexists. split; [by eapply rtc_once, step_run, step_leave|done].
  - eexists. split; [by eapply rtc_once, step_cancel_waiting|done].
  - eexists. split; [by eapply rtc_once, step_cancel_fallback|done].
  - exists sys. split_and!; [apply rtc_refl|done|]. symmetry. by apply list_insert_id.
  - exists sys. split_and!; [apply rtc_refl|done|]. symmetry. by apply list_insert_id.
Qed.

Lemma halt_all sys :
  Forall (fun task => haltable task.2) (tasks sys) ->
  exists sys', rtc step sys sys' /\ next_chan sys' = next_chan sys /\
    tasks sys' = prod_map id halted <$> tasks sys.
Proof.
  intros Hall. cut (forall n, n <= length (tasks sys) -> exists sys',
    rtc step sys sys' /\ next_chan sys' = next_chan sys /\
    tasks sys' = (prod_map id halted <$> take n (tasks sys)) ++ drop n (tasks sys)).
  { intros Hn. destruct (Hn _ (le_n _)) as (sys' & Hr & Hc & Ht). exists sys'.
    by rewrite Ht, firstn_all, drop_all, app_nil_r. }
  induction n as [|n IH]; intros Hn; [exists sys; by split_and!; [apply rtc_refl|..]|].
  destruct IH as (sys1 & Hr & Hc & Ht); [lia|].
  destruct (lookup_lt_is_Some_2 (tasks sys) n) as [[token stage] Hi]; [lia|].
  assert (Hlen : length (prod_map id halted <$> take n (tasks sys)) = n)
    by (rewrite length_fmap, length_take; lia).
  rewrite (drop_S _ _ _ Hi) in Ht.
  destruct (halt_task sys1 n token stage) as (sys2 & Hr2 & Hc2 & Ht2).
  { by rewrite Ht, list_lookup_middle. }
  { by apply (Forall_lookup_1 _ _ _ _ Hall Hi). }
  exists sys2. split_and!; [by etrans|congruence|].
  rewrite Ht2, Ht, insert_app_r_alt by lia. rewrite Hlen, Nat.sub_diag. simpl.
  by rewrite (take_S_r _ _ _ Hi), fmap_app, <-app_assoc.
Qed.

(** Once everyone is stopped the map is empty. *)
Lemma halted_entries sys :
  reachable sys -> (forall i token stage, tasks sys !! i = Some (token, stage) -> leads stage = None) ->
  entries sys = ∅.
Proof.
  intros Hok%reachable_ok Hno. apply map_empty. intros key.
  destruct (entries sys !! key) as [chan|] eqn:Hk; [|done].
  destruct (ok_leader _ Hok _ _ Hk) as (i & token & stage & Hi & _ & Hl).
  by rewrite (Hno i token stage Hi) in Hl.
Qed.
End Dedup.

(** ** Properties *)

Section DedupTheorems.
Context `{!Sha256, !StatusText}.

(** The stages are the program's: [introspect] starts by joining the
    in-flight map and then leads or waits; a leader makes the call, sends its
    outcome, leaves and returns it; a waiting follower returns the message,
    or makes its own call if the channel closed. *)
Theorem stages_follow_the_program self token :
  prog_of self token Start = introspect self token /\
  performs self token Start (JoinInflight (token_key token))
    (fun rx => match rx with Some rx => Waiting rx None | None => Leading 0 end) /\
  (forall chan, prog_of self token (Leading chan) =
     (call self token ≫= fun outcome => prog_of self token (Publishing chan outcome))) /\
  (forall chan outcome,
     performs self token (Publishing chan outcome)
       (SendInflight (token_key token) outcome) (fun _ => Leaving chan outcome) /\
     performs self token (Leaving chan outcome)
       (LeaveInflight (token_key token)) (fun _ => Finished outcome)) /\
  (forall rx mail, performs self token (Waiting rx mail) (Receive rx)
     (fun message => match message with Ok outcome => Finished outcome | Err _ => Fallback end)) /\
  prog_of self token Fallback = call self token /\
  (forall outcome, prog_of self token (Finished outcome) = Ret outcome).
Proof.
  unfold performs. split_and!; try done.
  - eexists. split; [reflexivity|]. by intros [rx|].
  - intros chan outcome. split; (eexists; split; [reflexivity|]; by intros []).
  - intros rx mail. eexists. split; [reflexivity|]. by intros [outcome|[]].
Qed.

(** Single flight: however requests arrive, interleave and are cancelled,
    no two of them are ever asking Keycloak as leaders for the same token
    key, and the in-flight map holds a key exactly while its one leader is
    at work, so a leader that finished or was dropped never wedges the
    requests after it. *)
Theorem at_most_one_leader sys :
  reachable sys ->
  (forall i j token token' stage stage' chan chan',
     tasks sys !! i = Some (token, stage) -> tasks sys !! j = Some (token', stage') ->
     leads stage = Some chan -> leads stage' = Some chan' ->
     token_key token = token_key token' -> i = j) /\
  (forall key, is_Some (entries sys !! key) <->
     exists i token stage chan, tasks sys !! i = Some (token, stage) /\
       leads stage = Some chan /\ token_key token = key).
Proof.
  intros Hok%reachable_ok. split.
  - intros i j t t' s s' c c' Hi Hj Hl Hl' Hk.
    pose proof (leader_entry _ _ _ _ _ Hok Hi Hl) as Hc.
    pose proof (leader_entry _ _ _ _ _ Hok Hj Hl') as Hc'.
    rewrite Hk, Hc' in Hc. injection Hc as ->.
    by apply (ok_unique _ Hok i j t t' s s' c).
  - intros key. split.
    + intros [c Hc]. destruct (ok_leader _ Hok _ _ Hc) as (i & t & s & Hi & Ht & Hl).
      by exists i, t, s, c.
    + intros (i & t & s & c & Hi & Hl & <-). exists c. by apply (leader_entry _ i t s).
Qed.

(** Sharing never changes what is decided: every outcome a request ends
    with is the answer of an introspection call made for its own token (for
    a token with the same SHA-256 key, and so for the same token unless the
    hash collides among the tokens asked about). *)
Theorem outcomes_are_answers sys i token outcome :
  reachable sys -> tasks sys !! i = Some (token, Finished outcome) ->
  (forall token' o, (token', o) ∈ calls sys -> token_key token' = token_key token ->
     token' = token) ->
  (token, outcome) ∈ calls sys.
Proof.
  intros Hok%reachable_ok Hi Hinj.
  destruct (ok_stages _ Hok _ _ _ Hi) as (t & Hk & Hc).
  by rewrite <-(Hinj t outcome Hc Hk).
Qed.

(** No request hangs and none wedges another: in every reachable state,
    also after cancellations at the worst moment, as long as some request
    has not ended some request can take its next step, and without new
    arrivals there are at most four steps per request before all have
    ended. *)
Theorem requests_finish sys :
  reachable sys ->
  ((forall sys', ~ any_run sys sys') <->
     forall i token stage, tasks sys !! i = Some (token, stage) -> ended stage) /\
  (forall n sys', nsteps any_run n sys sys' -> n <= 4 * length (tasks sys)).
Proof.
  intros Hok%reachable_ok. split; [split|].
  - intros Hstuck i t s Hi. destruct (decide (weight s = 0)) as [|Hs]; [done|].
    destruct (run_possible _ _ _ _ Hok Hi Hs) as (j & sys' & Hrun).
    destruct (Hstuck sys'). by exists j.
  - intros Hall sys' (i & Hrun).
    destruct Hrun as [t Hi He|t c Hi He|t c o Hi|t c0 c o Hi He|t c o Hi He
      |t c o Hi|t rx o Hi|t rx Hi Hc|t o Hi]; apply Hall in Hi; unfold ended in Hi;
      simpl in Hi; lia.
  - intros n sys' Hn. assert (n + work (tasks sys') <= work (tasks sys)) as Hw.
    { clear Hok. induction Hn as [|n s1 s2 s3 [i Hs] _ IH]; [lia|].
      apply run_step_work in Hs. lia. }
    pose proof (work_bound (tasks sys)). lia.
Qed.

(** C30. Followers cost Keycloak nothing: once a leader publishes, every request
    that was waiting on its channel has the leader's outcome in its mailbox,
    no call was made in between, and in every later state, whatever else
    happens, that request still has it, has ended with it, or was itself
    cancelled; it never makes a call of its own. *)
Theorem followers_share_the_answer sys sys' i j leader token chan outcome :
  reachable sys -> run_step sys i sys' ->
  tasks sys !! i = Some (leader, Publishing chan outcome) ->
  tasks sys !! j = Some (token, Waiting chan None) ->
  calls sys' = calls sys /\
  tasks sys' !! j = Some (token, Waiting chan (Some outcome)) /\
  (forall later, rtc step sys' later ->
     exists stage, tasks later !! j = Some (token, stage) /\
       settled chan outcome stage).
Proof.
  intros Hok%reachable_ok Hrun Hi Hj.
  destruct (ok_stages _ Hok _ _ _ Hi) as [He _].
  assert (Hne : i <> j) by (intros ->; congruence).
  assert (Hpub : calls sys' = calls sys /\
            tasks sys' !! j = Some (token, Waiting chan (Some outcome))).
  { destruct Hrun; simplify_eq; simpl. split; [done|].
    rewrite list_lookup_insert_ne, list_lookup_fmap, Hj by done. simpl.
    by rewrite decide_True. }
  destruct Hpub as [Hc Hj']. split_and!; [done..|]. intros later Hl.
  assert (Hs : settled chan outcome (Waiting chan (Some outcome))) by (by left).
  revert Hj' Hs. generalize (Waiting chan (Some outcome)). clear -Hl.
  induction Hl as [s|s1 s2 s3 Hstep _ IH]; intros stage Hj Hs; [by exists stage|].
  destruct (settled_step _ _ _ _ _ _ _ Hj Hs Hstep) as (stage' & Hj' & Hs'). eauto.
Qed.

(** What sharing does cost: a request that arrives after the leader's
    introspection was answered, but before the leader has published, ends
    with that earlier answer and without a call of its own; so a token
    revoked between the answer and the arrival is still accepted once. *)
Theorem late_joiner_gets_earlier_answer token user :
  exists sys sys',
    reachable sys /\ calls sys = [(token, Active user)] /\
    rtc step (mkSys (entries sys) (next_chan sys) (tasks sys ++ [(token, Start)]) (calls sys))
      sys' /\
    calls sys' = calls sys /\
    tasks sys' !! length (tasks sys) = Some (token, Finished (Active user)).
Proof.
  set (k := token_key token).
  exists (mkSys {[k := 0]} 1 [(token, Publishing 0 (Active user))] [(token, Active user)]).
  eexists. split_and!; [|done| | |].
  - eapply rtc_l; [apply (step_arrive _ token)|].
    eapply rtc_l; [eapply step_run, (step_lead _ 0 token); [done|apply lookup_empty]|].
    eapply rtc_l; [eapply step_run, (step_call _ 0 token 0 (Active user)); done|].
    apply rtc_refl.
  - simpl.
    eapply rtc_l; [eapply step_run, (step_follow _ 1 token 0); [done|apply lookup_singleton_eq]|].
    eapply rtc_l; [eapply step_run, (step_publish _ 0 token 0 0 (Active user));
                   [done|apply lookup_singleton_eq]|].
    simpl.
    eapply rtc_l; [eapply step_run, (step_receive _ 1 token 0 (Active user)); done|].
    apply rtc_refl.
  - done.
  - done.
Qed.
End DedupTheorems.

(** ** Witnesses: two requests with one token, the leader about to publish *)

#[local] Instance plain_key : Sha256 := id.

Definition demo_key : list Z := token_key "token".
Definition demo_sys : Sys :=
  mkSys {[demo_key := 0]} 1 [("token"%string, Publishing 0 Inactive);
                             ("token"%string, Waiting 0 None)]
    [("token"%string, Inactive)].
Definition demo_published : Sys :=
  mkSys {[demo_key := 0]} 1 [("token"%string, Leaving 0 Inactive);
                             ("token"%string, Waiting 0 (Some Inactive))]
    [("token"%string, Inactive)].
Definition demo_ended : Sys :=
  mkSys ∅ 1 [("token"%string, Finished Inactive); ("token"%string, Waiting 0 (Some Inactive))]
    [("token"%string, Inactive)].

Lemma demo_reachable : reachable demo_sys.
Proof.
  eapply rtc_l; [apply (step_arrive _ "token")|].
  eapply rtc_l; [eapply step_run, (step_lead _ 0 "token"); [done|apply lookup_empty]|].
  eapply rtc_l; [apply (step_arrive _ "token")|].
  eapply rtc_l; [eapply step_run, (step_follow _ 1 "token" 0); [done|apply lookup_insert_eq]|].
  eapply rtc_l; [eapply step_run, (step_call _ 0 "token" 0 Inactive); done|].
  apply rtc_refl.
Qed.

Lemma demo_publish : run_step demo_sys 0 demo_published.
Proof. apply (step_publish demo_sys 0 "token" 0 0 Inactive); [done|apply lookup_insert_eq]. Qed.

Lemma demo_ended_reachable : reachable demo_ended.
Proof.
  apply (rtc_r initial demo_published).
  - apply (rtc_r initial demo_sys); [apply demo_reachable|].
    eapply step_run, demo_publish.
  - eapply step_run.
    assert (demo_ended = set_stage 0 "token" (Finished Inactive)
      (with_entries (delete demo_key (entries demo_published)) demo_published)) as ->.
    { unfold set_stage, with_entries. simpl. by rewrite delete_singleton_eq. }
    by apply (step_leave demo_published 0 "token" 0 Inactive).
Qed.

Lemma at_most_one_leader_witness :
  exists i token stage chan, tasks demo_sys !! i = Some (token, stage) /\
    leads stage = Some chan /\ token_key token = demo_key.
Proof.
  apply (at_most_one_leader demo_sys demo_reachable). exists 0. reflexivity.
Defined.

Lemma outcomes_are_answers_witness : ("token"%string, Inactive) ∈ calls demo_ended.
Proof.
  apply (outcomes_are_answers demo_ended 0 "token" Inactive demo_ended_reachable eq_refl).
  intros token' o Hin _. apply list_elem_of_singleton in Hin. injection Hin as -> _.
  reflexivity.
Defined.

Lemma requests_finish_witness :
  nsteps any_run 1 demo_sys demo_published /\ 1 <= 4 * length (tasks demo_sys).
Proof.
  assert (Hone : nsteps any_run 1 demo_sys demo_published).
  { apply nsteps_once. exists 0. apply demo_publish. }
  split; [exact Hone|]. apply (requests_finish demo_sys demo_reachable) in Hone. exact Hone.
Defined.

Lemma followers_share_the_answer_witness :
  tasks demo_published !! 1 = Some ("token"%string, Waiting 0 (Some Inactive)).
Proof.
  destruct (followers_share_the_answer demo_sys demo_published 0 1 "token" "token" 0 Inactive
              demo_reachable demo_publish eq_refl eq_refl) as (_ & Hmail & _).
  exact Hmail.
Defined.
