(* ===== verification/Middleware.v ===== *)
(** * totp-server/src/auth/middleware.rs and state.rs: requests, responses and
      the two middlewares

    A middleware gets the rest of the stack as [next].  [axum]'s request is
    its headers, the extension the authentication middleware sets, and what
    the [Json] extractor makes of the body.  [HeaderValue::to_str] is
    external. *)

From Stdlib Require Import Ascii.
From S2P Require Import Prelude RustText Rfc6238 AppError Effects Config Crypto.
From S2P Require Import SecretStore Introspection.
Local Open Scope Z_scope.
Local Open Scope string_scope.
Local Open Scope rust_scope.

(** ** Requests and responses *)

Record PinResponse := mkPinResponse { pin : string; valid_for_seconds : Z }.

Record ProvisionRequest := mkProvisionRequest { payload_subject : string }.

Record ProvisionResponse := mkProvisionResponse {
  secret_base32 : string;
  otpauth_url : string
}.

Record HealthResponse := mkHealthResponse {
  health_status : string;
  algorithm : string;
  digits : Z;
  step_seconds : Z;
  skew_steps : Z
}.

Inductive Body :=
| BodyError (body : ErrorBody)
| BodyPin (body : PinResponse)
| BodyProvision (body : ProvisionResponse)
| BodyHealth (body : HealthResponse)
(** Plain text from a library. *)
| BodyText (text : string).

Record Response := mkResponse { status : Z; body : Body }.

Record Request := mkRequest {
  (** Names in lower case, as [http] keeps them. *)
  headers : list (string * list Z);
  (** The extension [Extension<AuthenticatedUser>]. *)
  extension : option AuthenticatedUser;
  (** [Json<ProvisionRequest>]: the payload or axum's rejection. *)
  json : result ProvisionRequest Response
}.

Definition with_user (request : Request) (user : AuthenticatedUser) : Request :=
  {| headers := headers request; extension := Some user; json := json request |}.

(** [HeaderValue::to_str]: [None] for a value it refuses. *)
Class HeaderText := header_to_str : list Z -> option string.

(** The first value of a header. *)
Definition header_get (name : string) (hs : list (string * list Z)) : option (list Z) :=
  snd <$> (snd <$> list_find (fun h => h.1 = name) hs).

(** ** state.rs *)

Record AppState := mkAppState {
  config : Config;
  introspection : IntrospectionClient;
  secrets : SecretStore
}.

(** [AppState::new], once the HTTP client is built. *)
Definition app_state_new (config : Config) : AppState :=
  {| config := config; introspection := client_new config;
     secrets := {| crypto := crypto_new (encryption_key config) |} |}.

(** [IntoResponse] of a handler's result: the error is logged, its opaque body
    is sent. *)
Definition respond (r : AppResult Response) : Prog Response :=
  match r with
  | Ok response => mret response
  | Err e =>
      let (line, reply) := into_response e in
      _ ← perform (Trace line);
      mret {| status := reply.1; body := BodyError reply.2 |}
  end.

(** ** auth/middleware.rs *)

Section Middleware.
Context `{!HeaderText, !Sha256, !StatusText}.

Definition bearer_token (request : Request) : option string :=
  value ← header_get "authorization" (headers request);
  value ← header_to_str value;
  '(scheme, token) ← split_once " "%char value;
  if negb (eq_ignore_ascii_case scheme "bearer") then None else
  let token := trim token in
  if decide (token = "") then None else Some token.

Definition require_authentication (state : AppState) (request : Request)
    (next : Request -> Prog Response) : ProgR Response :=
  match bearer_token request with
  | None =>
      _ ← log_request None DeniedInactiveToken;
      mret (Err Unauthorized)
  | Some token =>
      r ← authenticate (introspection state) token;
      match r with
      | Ok user =>
          _ ← perform (Trace (mkLogLine Debug "request authenticated"
                                [("subject", subject user)]));
          response ← next (with_user request user);
          mret (Ok response)
      | Err err =>
          _ ← (match err with
               | Unauthorized | Forbidden => log_request None DeniedInactiveToken
               | _ => mret tt
               end);
          mret (Err err)
      end
  end.

Definition audit_rate_limited (request : Request) (next : Request -> Prog Response) :
    Prog Response :=
  let subject := subject <$> extension request in
  response ← next request;
  if decide (status response = 429) then
    _ ← perform (Trace (mkLogLine Warn "rate limit exceeded"
                          [("subject", unwrap_or subject "<unknown>")]));
    _ ← log_request subject RateLimited;
    mret response
  else mret response.
End Middleware.

(** ** Specification of the header *)

(** The credential a header value carries: a scheme that is [bearer] in any
    case, one space, and a token that is not empty once trimmed. *)
Definition carries (value token : string) : Prop :=
  exists scheme rest,
    value = scheme +:+ String " " rest /\
    to_ascii_lowercase <$> bytes_of_string scheme = bytes_of_string "bearer" /\
    token = trim rest /\ token <> "".

(** ** Lemmas *)

Lemma split_once_Some c s before after :
  split_once c s = Some (before, after) -> s = before +:+ String c after.
Proof.
  revert before after. induction s as [|a s IH]; intros before after; [done|].
  cbn [split_once]. case_decide as Ha.
  - intros [= <- <-]. by subst.
  - intros ([b a'] & Hs & [= <- <-])%bind_Some. apply IH in Hs. by rewrite Hs.
Qed.

Lemma split_once_first c before after :
  c ∉ String.list_ascii_of_string before ->
  split_once c (before +:+ String c after) = Some (before, after).
Proof.
  induction before as [|a before IH]; intros Hc.
  - change ("" +:+ String c after) with (String c after). cbn [split_once].
    by rewrite decide_True.
  - cbn [String.list_ascii_of_string] in Hc. apply not_elem_of_cons in Hc as [Hne Hc].
    change (String a before +:+ String c after) with
      (String a (before +:+ String c after)).
    cbn [split_once]. rewrite decide_False by done. by rewrite IH.
Qed.

(** A scheme that reads [bearer] has no space in it. *)
Lemma bearer_no_space scheme :
  to_ascii_lowercase <$> bytes_of_string scheme = bytes_of_string "bearer" ->
  " "%char ∉ String.list_ascii_of_string scheme.
Proof.
  intros Hs Hin. unfold bytes_of_string at 1 in Hs.
  assert (to_ascii_lowercase (byte_of_ascii " ") ∈ bytes_of_string "bearer") as Hb.
  { rewrite <-Hs. by do 2 apply list_elem_of_fmap_2. }
  vm_compute in Hb. repeat (apply elem_of_cons in Hb as [Hb|Hb]; [done|]).
  by apply elem_of_nil in Hb.
Qed.

(** ** Under any answers *)

Section Gate.
Context `{!HeaderText, !Sha256, !StatusText}.
Context (phi : forall A, Eff A -> Prop) (rho : forall A, Eff A -> A -> Prop).

(** The answers let [user] pass for the bearer of [token]: Keycloak's reply to
    the introspection of that token vouches for it, or a leader broadcasts
    it. *)
Definition vouched_for (self : IntrospectionClient) (token : string)
    (user : AuthenticatedUser) : Prop :=
  (exists reply now, rho _ (SendPost (introspection_post self token)) reply /\
     clocked rho reply now /\ vouches (client_expected_audience self) reply now user) \/
  (exists rx, rho _ (JoinInflight (token_key token)) (Some rx) /\
     rho _ (Receive rx) (Ok (Active user))).

(** What authentication itself may do: introspect this token, share only the
    outcome of its own call, listen only where it subscribed, and record a
    denial without a subject. *)
Definition gate_effects (self : IntrospectionClient) (request : Request) : Prop :=
  (forall token, bearer_token request = Some token ->
     phi _ (SendPost (introspection_post self token)) /\
     phi _ (JoinInflight (token_key token)) /\
     (forall outcome, answered_with rho self token outcome ->
        phi _ (SendInflight (token_key token) outcome)) /\
     phi _ (LeaveInflight (token_key token)) /\
     (forall rx, rho _ (JoinInflight (token_key token)) (Some rx) -> phi _ (Receive rx))) /\
  phi _ ReadClock /\ phi _ NewUuid /\
  (forall id, phi _ (InsertLog id None "denied_inactive_token")) /\
  (forall id err, rho _ (InsertLog id None "denied_inactive_token") (Err err) ->
     phi _ (Trace (audit_failure None DeniedInactiveToken (db_text err)))) /\
  (forall token user, bearer_token request = Some token -> vouched_for self token user ->
     phi _ (Trace (mkLogLine Debug "request authenticated" [("subject", subject user)]))).

(** Why a request is turned away at the gate: there is no token, or the
    outcome of its introspection says so. *)
Definition gate_error (self : IntrospectionClient) (request : Request) (e : AppError) : Prop :=
  e = Unauthorized \/
  exists token outcome, bearer_token request = Some token /\ into_result outcome = Err e /\
    (answered_with rho self token outcome \/ exists rx, rho _ (Receive rx) (Ok outcome)).

Lemma wp_log_request subject res Q :
  phi _ NewUuid -> (forall id, phi _ (InsertLog id subject (as_str res))) ->
  (forall id err, rho _ (InsertLog id subject (as_str res)) (Err err) ->
     phi _ (Trace (audit_failure subject res (db_text err)))) -> Q tt ->
  wp phi rho (log_request subject res) Q.
Proof.
  intros Hid Hin Htr HQ. simpl. split; [done|]. intros id _. split; [done|].
  intros [[]|err] Herr; simpl; [done|]. split; [by eapply Htr|]. by intros [] _.
Qed.

Lemma wp_authenticate self request token :
  gate_effects self request -> bearer_token request = Some token ->
  wp phi rho (authenticate self token)
    (fun r => match r with
              | Ok user => vouched_for self token user
              | Err e => gate_error self request e
              end).
Proof.
  intros (Hpost & Hclock & _) Ht. destruct (Hpost token Ht) as (Hp & Hj & Hs & Hl & Hrx).
  pose proof (wp_call phi rho self token Hp Hclock) as Hcall.
  assert (Hok : forall outcome, answered_with rho self token outcome ->
    match into_result outcome with
    | Ok user => vouched_for self token user
    | Err e => gate_error self request e
    end).
  { intros outcome Ho. destruct (into_result outcome) as [user|e] eqn:Hu.
    - left. destruct Ho as (reply & now & Hr & Hc & ->). exists reply, now.
      split_and!; [done..|]. apply reply_outcome_active.
      by destruct (reply_outcome _ _ _); simplify_eq/=.
    - right. exists token, outcome. auto. }
  unfold authenticate. rewrite wp_bind. unfold introspect. rewrite wp_bind.
  cbn [perform wp]. split; [done|]. intros [rx|] Hrho; cbn iota beta.
  - simpl. split; [by apply Hrx|]. intros [outcome|err] Hr.
    + simpl. destruct (into_result outcome) as [user|e] eqn:Hu.
      * right. exists rx. by destruct outcome; simplify_eq/=.
      * right. exists token, outcome. eauto.
    + eapply wp_mono; [|exact Hcall]. intros outcome Ho. simpl. by apply Hok.
  - rewrite wp_bind. eapply wp_mono; [|exact Hcall]. intros outcome Ho. simpl.
    split; [by apply Hs|]. intros _ _. split; [done|]. intros _ _. by apply Hok.
Qed.

(** The rest of the stack runs only with a user the answers vouch for. *)
Lemma wp_require_authentication state request next (Q : AppResult Response -> Prop) :
  gate_effects (introspection state) request ->
  (forall token user, bearer_token request = Some token ->
     vouched_for (introspection state) token user ->
     wp phi rho (next (with_user request user)) (fun response => Q (Ok response))) ->
  (forall e, gate_error (introspection state) request e -> Q (Err e)) ->
  wp phi rho (require_authentication state request next) Q.
Proof.
  intros Hg Hnext Herr. pose proof Hg as (_ & _ & Huuid & Hden & Hlost & Hauth).
  unfold require_authentication. destruct (bearer_token request) as [token|] eqn:Ht.
  - rewrite wp_bind. eapply wp_mono; [|by eapply wp_authenticate].
    intros [user|e] Hu.
    + simpl. split; [by eapply Hauth|]. intros _ _. rewrite wp_bind.
      eapply wp_mono; [|apply (Hnext token); auto]. done.
    + rewrite wp_bind. destruct e; try by apply Herr.
      all: apply wp_log_request; [done..|by apply Herr].
  - rewrite wp_bind. apply wp_log_request; [done..|]. apply Herr. by left.
Qed.
End Gate.

(** ** Properties *)

(** C40. The credential is exactly what the Authorization header carries: given
    the header's first value as text, [bearer_token] finds a token precisely
    when the value is the scheme [bearer] in any case, a space, and a token
    that is not blank, and then it is that token without the white space
    around it; a request without the header, or with a value that is not
    text, has none. *)
Theorem bearer_token_iff `{!HeaderText} request token :
  bearer_token request = Some token <->
  exists raw value,
    header_get "authorization" (headers request) = Some raw /\
    header_to_str raw = Some value /\ carries value token.
Proof.
  unfold bearer_token, carries. split.
  - intros (raw & Hraw & (value & Hv & ([scheme rest] & Hs & Ht)%bind_Some)%bind_Some)%bind_Some.
    destruct (eq_ignore_ascii_case scheme "bearer") eqn:He; [|done]. simpl in Ht.
    case_decide as Hne; [done|]. injection Ht as <-.
    exists raw, value. split; [done|]. split; [done|]. exists scheme, rest.
    apply split_once_Some in Hs. split; [done|]. split; [|done].
    by apply bool_decide_eq_true in He.
  - intros (raw & value & -> & Hv & scheme & rest & -> & Hscheme & -> & Hne).
    simpl. rewrite Hv. cbn [mbind option_bind].
    rewrite split_once_first by by apply bearer_no_space.
    cbn [mbind option_bind]. unfold eq_ignore_ascii_case.
    rewrite Hscheme, bool_decide_eq_true_2 by done. simpl. by rewrite decide_False.
Qed.
