(* ===== verification/RateLimit.v ===== *)
(** * totp-server/src/rate_limit.rs: one token bucket per subject

    The limiter is [tower_governor]'s; the builder is the interface
    [GovernorBuilder] and the keyed store is [Governor] of Effects.v, with the
    laws the server relies on: what the builder refuses, and that keys do not
    share state.  [Gcra] is the crate's algorithm, in nanoseconds; a key it has
    seen and that is idle again is allowed one request more than a new one. *)

From S2P Require Import Prelude RustText Rfc6238 AppError Effects Config Middleware.
Local Open Scope Z_scope.

Inductive GovernorError :=
| TooManyRequests (wait_time : Z)
| UnableToExtractKey.

(** [SubjectKeyExtractor::name]. *)
Definition name : string := "authenticated subject".

(** [SubjectKeyExtractor::extract]. *)
Definition extract (req : Request) : result string GovernorError :=
  ok_or (subject <$> extension req) UnableToExtractKey.

(** [SubjectKeyExtractor::key_name]. *)
Definition key_name (key : string) : option string := Some key.

(** [GovernorConfigBuilder .. .finish()]: a period in milliseconds and a burst
    size to an empty store. *)
Class GovernorBuilder (L : Type) := governor_finish : Z -> Z -> option L.

Class GovernorBuilderLaws (L : Type) `{GovernorBuilder L} : Prop :=
  governor_finish_none period burst :
    0 <= period -> 0 <= burst ->
    governor_finish period burst = None <-> period = 0 \/ burst = 0.

(** The store has a bucket per key, and a check is a matter of its key's
    bucket. *)
Class KeyedGovernor (L : Type) `{Governor L} := {
  bucket : Type;
  view : L -> string -> bucket;
  check_bucket : L -> bucket -> Z -> bool * bucket
}.

Class KeyedGovernorLaws (L : Type) `{KeyedGovernor L} : Prop := {
  check_own l key t :
    let (allowed, l') := governor_check l key t in
    (allowed, view l' key) = check_bucket l (view l key) t;
  check_other l key t other :
    other <> key -> view (governor_check l key t).2 other = view l other;
  check_quota l key t : check_bucket (governor_check l key t).2 = check_bucket l
}.

(** [Duration::from_millis(window * 1000 / max)], the product in a [u64]. *)
Definition refill_millis (config : Config) : Z :=
  as_u64 (rate_limit_window_seconds config * 1000) / rate_limit_max_requests config.

Definition rate_limit_config `{GovernorBuilder L} (config : Config) : result L string :=
  let refill := refill_millis config in
  ok_or (governor_finish refill (rate_limit_max_requests config))
    "invalid rate limit configuration"%string.

(** ** A sequence of checks *)

Fixpoint run_checks `{Governor L} (l : L) (checks : list (string * Z)) : list bool :=
  match checks with
  | [] => []
  | (key, t) :: checks =>
      let (allowed, l) := governor_check l key t in allowed :: run_checks l checks
  end.

(** Those of one key. *)
Definition of_key {A} (key : string) (checks : list (string * Z)) (l : list A) : list A :=
  snd <$> filter (fun x => x.1.1 = key) (zip checks l).

Section Keyed.
Context `{KeyedGovernorLaws L}.

Lemma run_checks_own key l l' checks :
  view l key = view l' key -> check_bucket l = check_bucket l' ->
  of_key key checks (run_checks l checks) =
  run_checks l' (filter (fun c => c.1 = key) checks).
Proof.
  revert l l'. induction checks as [|[k t] checks IH]; intros l l' Hv Hq; [done|].
  cbn [run_checks]. pose proof (check_own l k t) as Hown.
  pose proof (check_quota l k t) as Hquota.
  destruct (governor_check l k t) as [b l1] eqn:Hl. simpl in Hquota.
  unfold of_key. cbn [zip zip_with]. rewrite !filter_cons. cbn [fst].
  destruct (decide (k = key)) as [->|Hk].
  - cbn [fmap list_fmap snd run_checks].
    pose proof (check_own l' key t) as Hown'. pose proof (check_quota l' key t) as Hquota'.
    destruct (governor_check l' key t) as [b' l1']. simpl in Hquota'.
    rewrite Hv, Hq in Hown. rewrite <-Hown' in Hown. injection Hown as -> Hv1.
    f_equal. apply IH; congruence.
  - apply IH; [|congruence].
    pose proof (check_other l k t key (not_eq_sym Hk)) as Ho. rewrite Hl in Ho.
    simpl in Ho. congruence.
Qed.
End Keyed.

(** ** The documented algorithm *)

(** [Quota]'s period of one cell is a [Duration] of so many milliseconds; the
    limiter counts in nanoseconds. *)
Definition nanoseconds (millis : Z) : Z := 1000000 * millis.

(** A theoretical arrival time per key, in nanoseconds.  A key not seen before
    starts one period ahead; one that was idle does not, and so can make one
    request more than the burst. *)
Record Gcra := mkGcra { period : Z; burst : Z; tats : gmap string Z }.

Definition gcra_check (period burst : Z) (tat : option Z) (now : Z) : bool * option Z :=
  let tat0 := default (now + nanoseconds period) tat in
  if decide (tat0 - nanoseconds period * burst <= now)
  then (true, Some (Z.max tat0 now + nanoseconds period)) else (false, tat).

#[export] Instance gcra_governor : Governor Gcra := fun l key t =>
  let (allowed, tat) := gcra_check (period l) (burst l) (tats l !! key) t in
  (allowed, mkGcra (period l) (burst l) (partial_alter (fun _ => tat) key (tats l))).

#[export] Instance gcra_builder : GovernorBuilder Gcra := fun period burst =>
  if decide (period = 0 \/ burst = 0) then None else Some (mkGcra period burst ∅).

#[export] Instance gcra_builder_laws : GovernorBuilderLaws Gcra.
Proof.
  intros p b _ _. unfold governor_finish, gcra_builder. by case_decide; split.
Qed.

#[export] Instance gcra_keyed : KeyedGovernor Gcra := {
  bucket := option Z;
  view l key := tats l !! key;
  check_bucket l tat t := gcra_check (period l) (burst l) tat t
}.

#[export] Instance gcra_keyed_laws : KeyedGovernorLaws Gcra.
Proof.
  split; unfold governor_check, gcra_governor; cbn [view check_bucket gcra_keyed].
  - intros l key t. destruct (gcra_check _ _ _ _) as [b tat]. simpl.
    by rewrite lookup_partial_alter_eq.
  - intros l key t other Ho. destruct (gcra_check _ _ _ _) as [b tat]. simpl.
    by rewrite lookup_partial_alter_ne.
  - intros l key t. by destruct (gcra_check _ _ _ _).
Qed.

(** The counting limiter of the examples. *)
#[export] Instance counting_builder : GovernorBuilder (gmap string nat) := fun period burst =>
  if decide (period = 0 \/ burst = 0) then None else Some ∅.

(** ** Properties *)

(** Two people never share a budget: in any interleaving of requests the
    decisions on one subject's requests are exactly those the same requests
    would get if no one else ever made one, whatever the bucket algorithm. *)
Theorem subjects_do_not_share_budget `{KeyedGovernorLaws L} (l : L) subject
    (checks : list (string * Z)) :
  of_key subject checks (run_checks l checks) =
  run_checks l (filter (fun c => c.1 = subject) checks).
Proof. by apply run_checks_own. Qed.

(** C39. When the limiter is built, and at what rate it refills, for every
    configuration that loads: the window is taken in milliseconds modulo
    2^64; building fails exactly if there are more requests than that many
    milliseconds (each refill would take no time), and otherwise [max]
    refills take at most that long, and less than [max] milliseconds short
    of it.  For a window that fits a [u64] of milliseconds that is the
    configured one; a longer one is not refused, but refills faster than
    configured, at whatever rate the remainder gives. *)
Theorem rate_limit_config_ok_iff `{GovernorBuilderLaws L} (c : Config) :
  config_wf c ->
  let configured := rate_limit_window_seconds c * 1000 in
  let window := configured mod 2 ^ 64 in
  let max := rate_limit_max_requests c in
  (is_ok (rate_limit_config c : result L string) = true <-> max <= window) /\
  refill_millis c * max <= window < refill_millis c * max + max /\
  (configured <= u64_max -> window = configured) /\
  (u64_max < configured -> refill_millis c * max < configured).
Proof.
  intros (_ & _ & Hmax & Hwin & _) configured window max.
  assert (Hrefill : refill_millis c = window / max) by done.
  assert (Hdiv : window / max * max <= window < window / max * max + max).
  { pose proof (Z.div_mod window max ltac:(lia)) as Hdm.
    pose proof (Z.mod_pos_bound window max ltac:(lia)). lia. }
  assert (Hpos : 0 <= window < 2 ^ 64) by by apply Z.mod_pos_bound.
  rewrite Hrefill. split; [|split; [exact Hdiv|split; intros Hc]].
  2: { apply Z.mod_small. unfold u64_max in Hc. subst configured. lia. }
  2: { unfold u64_max in Hc. lia. }
  unfold rate_limit_config. rewrite Hrefill.
  pose proof (governor_finish_none (L := L) (window / max) max
    ltac:(apply Z.div_pos; lia) ltac:(lia)) as Hnone.
  fold max. destruct (governor_finish (window / max) max) as [l|]; simpl.
  - split; [|done]. intros _. destruct (decide (max <= window)); [done|].
    exfalso. assert (window / max = 0) by (apply Z.div_small; lia). naive_solver.
  - split; [done|]. intros Hle. exfalso.
    assert (1 <= window / max) by (apply Z.div_le_lower_bound; lia).
    destruct (proj1 Hnone eq_refl); lia.
Qed.

(** A window too long for a [u64] of milliseconds is not refused but wraps:
    the loaded configuration below asks for six requests in half a billion
    years and gets a refill every 64 milliseconds. *)
Theorem huge_window_wraps (c : Config) :
  rate_limit_window_seconds c = 18446744073709552 -> rate_limit_max_requests c = 6 ->
  refill_millis c = 64.
Proof. unfold refill_millis. by intros -> ->. Qed.

(** The bucket admits more than the configured budget within one window:
    with the documented algorithm and the default six requests per 300
    seconds, eleven requests of a new subject are admitted within 251
    seconds, the burst first and then one for each token refilled. *)
Theorem burst_plus_refill_exceeds_budget (c : Config) (l : Gcra) :
  rate_limit_window_seconds c = 300 -> rate_limit_max_requests c = 6 ->
  rate_limit_config c = Ok l ->
  run_checks l ((fun t => ("alice"%string, nanoseconds (1000 * t))) <$>
                  [0; 0; 0; 0; 0; 0; 50; 100; 150; 200; 250]) =
  replicate 11 true.
Proof.
  unfold rate_limit_config, refill_millis. intros -> ->. intros [= <-].
  vm_compute. reflexivity.
Qed.

(** ** Witnesses *)

Lemma subjects_do_not_share_budget_witness :
  let checks := [("alice", 0); ("bob", 0); ("alice", 1); ("alice", 2); ("bob", 2)]%string in
  of_key "bob" checks (run_checks (mkGcra 50000 2 ∅) checks) = [true; true] /\
  run_checks (mkGcra 50000 2 ∅) checks = [true; true; true; false; true].
Proof.
  intros checks. split; [|vm_compute; reflexivity].
  rewrite (subjects_do_not_share_budget (mkGcra 50000 2 ∅) "bob" checks).
  vm_compute. reflexivity.
Defined.

Definition with_limit (max window : Z) : Config := {|
  database_url := ""; host := "0.0.0.0"; port := 3000; keycloak_issuer := "";
  keycloak_client_id := "totp-server"; keycloak_client_secret := "s3cret";
  expected_audience := "totp-server"; admin_role := "totp-admin";
  encryption_key := replicate 32 42; totp_skew_steps := 1;
  rate_limit_max_requests := max; rate_limit_window_seconds := window |}.

Lemma with_limit_wf max window :
  1 <= max < 2 ^ 32 -> 1 <= window < 2 ^ 64 -> config_wf (with_limit max window).
Proof.
  intros Hmax Hwin. split; [apply Forall_replicate; split; [discriminate|reflexivity]|].
  split; [reflexivity|]. split; [exact Hmax|]. split; [exact Hwin|].
  split; [split; [discriminate|reflexivity]|].
  split; [split; [discriminate|reflexivity]|].
  intros l Hl. destruct l; discriminate Hl.
Qed.

(** The defaults, and a window that does not fit. *)
Lemma rate_limit_config_ok_iff_witness :
  is_ok (rate_limit_config (with_limit 6 300) : result Gcra string) = true /\
  refill_millis (with_limit 6 18446744073709552) = 64 /\
  refill_millis (with_limit 6 18446744073709552) * 6 < 18446744073709552 * 1000.
Proof.
  split; [|split; [reflexivity|]].
  - apply (rate_limit_config_ok_iff (L := Gcra) (with_limit 6 300)); [|discriminate].
    by apply with_limit_wf.
  - apply (rate_limit_config_ok_iff (L := Gcra) (with_limit 6 18446744073709552)); [|done].
    by apply with_limit_wf.
Defined.

Lemma huge_window_wraps_witness :
  refill_millis (with_limit 6 18446744073709552) = 64.
Proof. apply (huge_window_wraps (with_limit 6 18446744073709552)); reflexivity. Defined.

Lemma burst_plus_refill_exceeds_budget_witness :
  run_checks (mkGcra 50000 6 ∅)
    ((fun t => ("alice"%string, nanoseconds (1000 * t))) <$>
       [0; 0; 0; 0; 0; 0; 50; 100; 150; 200; 250]) =
  replicate 11 true.
Proof.
  apply (burst_plus_refill_exceeds_budget (with_limit 6 300)); reflexivity.
Defined.
