(* ===== verification/Routes.v ===== *)
(** * totp-server/src/routes: the handlers and the layer stack around them

    [create_router] composes, outermost first, authentication, the audit of
    rate-limited requests, the rate limiter and the handler.  What the
    libraries answer by themselves ([tower_governor]'s 429 and 500, axum's
    rejection of a request without the extension) is a parameter. *)

From S2P Require Import Prelude RustText Rfc6238 AppError Effects Config Crypto TotpGen.
From S2P Require Import SecretStore Introspection Middleware RateLimit.
Local Open Scope Z_scope.
Local Open Scope string_scope.
Local Open Scope rust_scope.

Class LibraryReplies := {
  too_many_requests : Response;
  unable_to_extract_key : Response;
  missing_extension : Response
}.

Class LibraryRepliesLaws `(LibraryReplies) : Prop := {
  too_many_status : status too_many_requests = 429;
  unable_status : status unable_to_extract_key = 500;
  missing_status : status missing_extension = 500
}.

(** The methods and paths under authentication. *)
Inductive Route := RequestPin | Provision.

Section Routes.
Context `{!HeaderText, !Sha256, !StatusText, !Aead, !TotpRs, !LibraryReplies}.

(** ** routes/totp.rs *)

Definition request_pin (state : AppState) (user : AuthenticatedUser) :
    ProgR PinResponse :=
  let! secret := get (secrets state) (subject user) in
  match secret with
  | None =>
      _ ← log_request (Some (subject user)) DeniedNoSecret;
      mret (Err NotFound)
  | Some secret =>
      let! generated := generate secret in
      let! _ := touch_last_used (subject user) in
      _ ← log_request (Some (subject user)) Issued;
      _ ← perform (Trace (mkLogLine Info "issued a PIN" [("subject", subject user)]));
      mret (Ok {| Middleware.pin := TotpGen.pin generated;
                  Middleware.valid_for_seconds := TotpGen.valid_for_seconds generated |})
  end.

(** ** routes/provision.rs *)

Definition provision (state : AppState) (admin : AuthenticatedUser)
    (payload : ProvisionRequest) : ProgR ProvisionResponse :=
  if negb (has_role admin (admin_role (config state))) then
    _ ← perform (Trace (mkLogLine Warn
          "rejected a provisioning attempt from a caller without the admin role"
          [("subject", subject admin)]));
    mret (Err Forbidden)
  else
  let subject := trim (payload_subject payload) in
  if decide (subject = "") then mret (Err Forbidden) else
  let! provisioned := TotpGen.provision subject in
  let! _ := upsert (secrets state) subject (raw provisioned) in
  _ ← log_request (Some subject) Provisioned;
  _ ← perform (Trace (mkLogLine Info "provisioned a TOTP secret"
        [("subject", subject); ("provisioned_by", Effects.subject admin)]));
  mret (Ok {| Middleware.secret_base32 := TotpGen.secret_base32 provisioned;
              Middleware.otpauth_url := TotpGen.otpauth_url provisioned |}).

(** ** routes/health.rs *)

Definition healthz (state : AppState) : HealthResponse := {|
  health_status := "ok"; algorithm := "SHA1"; digits := TotpGen.DIGITS;
  step_seconds := TotpGen.STEP_SECONDS; skew_steps := totp_skew_steps (config state)
|}.

(** ** routes/mod.rs *)

(** [Ok(Json(..))]. *)
Definition json_ok {T} (inject : T -> Body) (r : AppResult T) : AppResult Response :=
  let? v := r in Ok {| status := 200; body := inject v |}.

(** A route's handler behind its extractors, in their order. *)
Definition handler (state : AppState) (route : Route) (request : Request) :
    Prog Response :=
  match extension request with
  | None => mret missing_extension
  | Some user =>
      match route with
      | RequestPin => r ← request_pin state user; respond (json_ok BodyPin r)
      | Provision =>
          match json request with
          | Err rejection => mret rejection
          | Ok payload =>
              r ← provision state user payload; respond (json_ok BodyProvision r)
          end
      end
  end.

(** [GovernorLayer]: key, check, then the rest of the stack or an error. *)
Definition governor_layer (request : Request) (next : Request -> Prog Response) :
    Prog Response :=
  match extract request with
  | Err _ => mret unable_to_extract_key
  | Ok key =>
      allowed ← perform (CheckLimit key);
      if (allowed : bool) then next request else mret too_many_requests
  end.

Definition protected (state : AppState) (route : Route) (request : Request) :
    Prog Response :=
  r ← require_authentication state request (fun request =>
        audit_rate_limited request (fun request =>
          governor_layer request (handler state route)));
  respond r.

(** The router: what serves a method and path. *)
Definition routes (state : AppState) (method path : string) :
    option (Request -> Prog Response) :=
  if decide (method = "GET" /\ path = "/healthz")
  then Some (fun _ => mret {| status := 200; body := BodyHealth (healthz state) |})
  else if decide (method = "POST" /\ path = "/v1/totp/request")
  then Some (protected state RequestPin)
  else if decide (method = "POST" /\ path = "/v1/totp/provision")
  then Some (protected state Provision)
  else None.

(** The limiter's store and the router. *)
Definition create_router `{GovernorBuilder L} (state : AppState) :
    result (L * (string -> string -> option (Request -> Prog Response))) string :=
  let? governor := (rate_limit_config (config state) : result L string) in
  Ok (governor, routes state).
End Routes.

(** ** Under any answers: who touches which secret *)

Section Access.
Context `{!HeaderText, !Sha256, !StatusText, !Aead, !TotpRs, !LibraryReplies}.
Context (rho : forall A, Eff A -> A -> Prop) (state : AppState).

(** A user the answers vouch for as the bearer of the request's token. *)
Definition bearer (request : Request) (user : AuthenticatedUser) : Prop :=
  exists token, bearer_token request = Some token /\
    vouched_for rho (introspection state) token user.

(** The access policy: a secret is read, and its use stamped, only for its own
    subject asking for a PIN; it is written only for an administrator
    asking to provision that subject; the limiter is charged to the bearer;
    nothing is asked of Keycloak but the request's own token. *)
Definition permitted (route : Route) (request : Request) (A : Type) (e : Eff A) : Prop :=
  match e with
  | SelectSecret s | TouchSecret s =>
      route = RequestPin /\ exists user, bearer request user /\ subject user = s
  | UpsertSecret s _ _ =>
      route = Provision /\ exists user payload, bearer request user /\
        has_role user (admin_role (config state)) = true /\
        json request = Ok payload /\ s = trim (payload_subject payload) /\ s <> ""
  | CheckLimit s => exists user, bearer request user /\ subject user = s
  | SendPost post => exists token, bearer_token request = Some token /\
                       post = introspection_post (introspection state) token
  | _ => True
  end.

(** Runs through a program: every effect is permitted outright or by a
    hypothesis, every answer is considered, every result satisfies the
    postcondition. *)
Ltac wp_go HQ :=
  repeat first
    [ progress simpl
    | apply HQ
    | match goal with |- forall _ : Empty_set, _ => intros [] end
    | split; [first [exact I | assumption]|]
    | intros ? _
    | case_match ].

Lemma wp_respond (phi : forall A, Eff A -> Prop) r Q :
  (forall line, phi _ (Trace line)) -> (forall response, Q response) ->
  wp phi rho (respond r) Q.
Proof.
  intros Htr HQ. destruct r; simpl; [apply HQ|]. split; [done|]. intros _ _. apply HQ.
Qed.

Lemma wp_request_pin request user Q :
  bearer request user -> (forall r, Q r) ->
  wp (permitted RequestPin request) rho (request_pin state user) Q.
Proof.
  intros Hu HQ.
  assert (Hrow : RequestPin = RequestPin /\
            exists u, bearer request u /\ subject u = subject user) by eauto.
  wp_go HQ.
Qed.

Lemma wp_provision request user payload Q :
  bearer request user -> json request = Ok payload -> (forall r, Q r) ->
  wp (permitted Provision request) rho (provision state user payload) Q.
Proof.
  intros Hu Hj HQ. unfold provision.
  destruct (has_role user (admin_role (config state))) eqn:Hrole; [|wp_go HQ].
  simpl negb. cbn iota. case_decide as Hs; [apply HQ|].
  assert (Hrow : Provision = Provision /\ exists u payload', bearer request u /\
    has_role u (admin_role (config state)) = true /\ json request = Ok payload' /\
    trim (payload_subject payload) = trim (payload_subject payload') /\
    trim (payload_subject payload) <> "") by (split; [done|]; by exists user, payload).
  wp_go HQ.
Qed.

Lemma wp_protected route request :
  wp (permitted route request) rho (protected state route request) (fun _ => True).
Proof.
  unfold protected. rewrite wp_bind. apply wp_require_authentication.
  - split; [|done]. intros token Ht. split; [by exists token|done].
  - intros token user Ht Hv. assert (Hu : bearer request user) by (by exists token).
    unfold audit_rate_limited. rewrite wp_bind.
    eapply wp_mono with (Q := fun _ => True).
    { intros response _. wp_go I. }
    unfold governor_layer, extract.
    cbn [extension with_user fmap option_fmap option_map ok_or].
    rewrite wp_bind. cbn [perform wp]. split; [naive_solver|].
    intros [] _; [|done]. unfold handler. cbn [extension with_user json].
    destruct route; [|destruct (json request) eqn:Hj; [|done]]; rewrite wp_bind.
    + apply wp_request_pin; [done|]. intros r. by apply wp_respond.
    + apply wp_provision; [done..|]. intros r. by apply wp_respond.
  - intros e _. by apply wp_respond.
Qed.
End Access.

(** ** Properties *)

(** Access control that no interleaving can break: whatever the database,
    Keycloak, the clocks and other requests answer at any point ([rho] says
    which answers are possible), a request to either protected route reads
    or stamps a secret only of a subject for which those answers vouch as
    the bearer of this request's token, and only to issue a PIN; writes one
    only for a vouched-for user with the admin role, for the subject named
    in the payload; charges the limiter to the bearer; and asks Keycloak
    about no other token. *)
Theorem secrets_touched_only_as_permitted
    `{!HeaderText, !Sha256, !StatusText, !Aead, !TotpRs, !LibraryReplies}
    (rho : forall A, Eff A -> A -> Prop) state route request :
  wp (permitted rho state route request) rho (protected state route request)
    (fun _ => True).
Proof. apply wp_protected. Qed.
