(* ===== verification/Provenance.v ===== *)
(** * Where every answer comes from

    The logic of Routes.v made quantitative: for the routes under
    authentication, every effect and every 200 answer is traced to the answers
    it was computed from.  [rho] is read as a record of what was answered:
    Pool.v instantiates it with the history of a run, so what is shown here
    for one program holds of every request in any interleaving. *)

From S2P Require Import Prelude RustText Rfc6238 AppError Effects Config Crypto TotpGen.
From S2P Require Import SecretStore Introspection Middleware RateLimit Routes.
Local Open Scope Z_scope.
Local Open Scope string_scope.
Local Open Scope rust_scope.

(** ** What may be logged

    The text of an error is put together from what the outside answered. *)

Section Causes.
Context `{!StatusText, !TotpRs} (rho : forall A, Eff A -> A -> Prop).

(** A database's error text, or a library's, or the code's own. *)
Inductive internal : string -> Prop :=
| internal_database {T} (e : Eff (result T DbError)) err :
    rho _ e (Err err) -> internal (db_text err)
| internal_encrypt : internal "failed to encrypt secret"
| internal_decrypt : internal "failed to decrypt stored secret"
| internal_nonce n : internal ("stored nonce has the wrong length: " +:+ to_string n)
| internal_params params err :
    build params = Err err -> internal ("invalid TOTP parameters: " +:+ err)
| internal_url totp err :
    to_url totp = Err err -> internal ("could not build the otpauth URL: " +:+ err).

(** What came, or did not come, from Keycloak: never the body itself. *)
Inductive upstream : string -> Prop :=
| upstream_unreachable post err :
    rho _ (SendPost post) (Unreachable err) ->
    upstream ("could not reach the introspection endpoint: " +:+ err)
| upstream_status post status body :
    rho _ (SendPost post) (Reply status body) ->
    upstream ("introspection endpoint returned HTTP " +:+ status_text status)
| upstream_parse post status err :
    rho _ (SendPost post) (Reply status (Err err)) ->
    upstream ("could not parse the introspection response: " +:+ err)
| upstream_no_subject : upstream "introspection response omitted the `sub` claim".

(** A follower's error is the one its leader broadcast. *)
Definition cause (e : AppError) : Prop :=
  match e with
  | Internal text => internal text
  | IntrospectionUnavailable text =>
      upstream text \/ exists rx, rho _ (Receive rx) (Ok (Unavailable text))
  | _ => True
  end.

Lemma answered_upstream self token text :
  answered_with rho self token (Unavailable text) -> upstream text.
Proof.
  intros (reply & now & Hpost & _ & Htext). destruct reply as [err|status body]; simpl in Htext.
  { simplify_eq. by eapply upstream_unreachable. }
  destruct (is_success status); simplify_eq/=; [|by eapply upstream_status].
  destruct body as [body|err]; simplify_eq/=; [|by eapply upstream_parse].
  unfold body_outcome in Htext. repeat case_match; simplify_eq. apply upstream_no_subject.
Qed.

Lemma gate_error_cause `{!Sha256} self `{!HeaderText} request e :
  gate_error rho self request e -> cause e.
Proof.
  intros [->|(token & outcome & _ & He & Ho)]; [done|].
  destruct outcome as [user| | |text]; simplify_eq/=; try done.
  destruct Ho as [Ho|[rx Ho]]; [|by right; exists rx]. left. by eapply answered_upstream.
Qed.

(** A result with [P], or an error with a cause. *)
Definition explained {T} (P : T -> Prop) (r : AppResult T) : Prop :=
  match r with Ok v => P v | Err e => cause e end.
End Causes.

Section Logic.
Context `{!StatusText}.
Context (phi : forall A, Eff A -> Prop) (rho : forall A, Eff A -> A -> Prop).

Lemma wp_weaken (psi : forall A, Eff A -> Prop) {T} (p : Prog T) (Q Q' : T -> Prop) :
  (forall A (e : Eff A), phi A e -> psi A e) -> (forall v, Q v -> Q' v) ->
  wp phi rho p Q -> wp psi rho p Q'.
Proof.
  intros Hphi HQ. induction p as [v|A e k IH]; simpl; [apply HQ|].
  intros [He Hk]. split; [by apply Hphi|]. intros a Ha. by apply IH, Hk.
Qed.

Lemma wp_try_bind {T U} (p : ProgR T) (f : T -> ProgR U) Q :
  wp phi rho p (fun r => match r with Ok v => wp phi rho (f v) Q | Err e => Q (Err e) end) ->
  wp phi rho (try_bind p f) Q.
Proof. intros Hp. unfold try_bind. rewrite wp_bind. eapply wp_mono; [|exact Hp]. by intros []. Qed.

(** An audit row was asked for, and its loss reported if it was not confirmed. *)
Definition recorded (s : option string) (res : RequestResult) : Prop :=
  exists id answer, rho _ (InsertLog id s (as_str res)) answer /\
    forall err, answer = Err err -> rho _ (Trace (audit_failure s res (db_text err))) tt.

Lemma wp_record s res (Q : unit -> Prop) :
  phi _ NewUuid -> (forall id, phi _ (InsertLog id s (as_str res))) ->
  (forall id err, rho _ (InsertLog id s (as_str res)) (Err err) ->
     phi _ (Trace (audit_failure s res (db_text err)))) -> (recorded s res -> Q tt) ->
  wp phi rho (log_request s res) Q.
Proof.
  intros Hid Hin Htr HQ. simpl. split; [done|]. intros id _. split; [done|].
  intros [[]|err] Ha; simpl; [apply HQ; by exists id, (Ok tt)|].
  split; [by eapply Htr|]. intros [] Ht. apply HQ. exists id, (Err err). split; [done|].
  by intros e [= <-].
Qed.

(** A secret that was read and decrypted. *)
Definition read_secret `{!Aead} (store : SecretStore) (s : string) (secret : list Z) : Prop :=
  exists ciphertext nonce,
    rho _ (SelectSecret s) (Ok (Some (ciphertext, nonce))) /\
    decrypt (crypto store) ciphertext nonce = Ok secret.

Lemma wp_get `{!Aead, !TotpRs} store s Q :
  phi _ (SelectSecret s) ->
  (forall r, explained rho (fun row => forall secret, row = Some secret ->
               read_secret store s secret) r -> Q r) ->
  wp phi rho (get store s) Q.
Proof.
  intros Hphi HQ. simpl. split; [done|]. intros row Hrow. apply HQ.
  destruct row as [[[ct nonce]|]|err]; [|done|by eapply internal_database]. simpl.
  destruct (decrypt _ ct nonce) as [x|e] eqn:Hd; simpl; [intros ? [= <-]; by exists ct, nonce|].
  unfold decrypt in Hd. repeat case_match; simplify_eq; constructor.
Qed.

Lemma wp_touch `{!TotpRs} s Q :
  phi _ (TouchSecret s) ->
  (forall r, explained rho (fun _ => rho _ (TouchSecret s) (Ok tt)) r -> Q r) ->
  wp phi rho (touch_last_used s) Q.
Proof.
  intros Hphi HQ. simpl. split; [done|]. intros [[]|err] Hr; apply HQ; [done|].
  by eapply internal_database.
Qed.

(** A code computed at a time that was read. *)
Definition computed_pin `{!TotpRs} (secret : list Z) (generated : GeneratedPin) : Prop :=
  exists now, rho _ ReadClock now /\ 0 <= now /\
    generate_at secret (as_u64 now) = Ok generated.

Lemma wp_generate `{!TotpRs} secret Q :
  phi _ ReadClock -> phi _ Panic ->
  (forall r, explained rho (computed_pin secret) r -> Q r) ->
  wp phi rho (generate secret) Q.
Proof.
  intros Hc Hp HQ. unfold generate, unix_now. simpl. split; [done|]. intros now Hnow.
  case_decide; simpl; [|split; [done|by intros []]]. apply HQ.
  destruct (generate_at secret (as_u64 now)) as [g|e] eqn:Hg; simpl; [by exists now|].
  unfold generate_at, generator in Hg. destruct (build _) eqn:Hb; simplify_eq/=.
  by eapply internal_params.
Qed.

(** A secret that was drawn, and its encryption under a nonce that was. *)
Definition drawn_and_encrypted `{!Aead} (store : SecretStore)
    (secret ciphertext nonce : list Z) : Prop :=
  exists drawn, rho _ GenerateSecret secret /\ rho _ GenerateNonce drawn /\
    encrypt_with (crypto store) drawn secret = Ok (ciphertext, nonce).
End Logic.

(** ** The law of the protected routes *)

Section Provenance.
Context `{!HeaderText, !Sha256, !StatusText, !Aead, !TotpRs, !LibraryReplies}.
Context (rho : forall A, Eff A -> A -> Prop) (state : AppState).

(** Whom an audit row or a log line may name. *)
Definition named (request : Request) (who : option string) : Prop :=
  who = None \/
  (exists user, bearer rho state request user /\ who = Some (subject user)) \/
  exists payload, json request = Ok payload /\ who = Some (trim (payload_subject payload)).

(** The log lines of a request, given who may be its bearer, what may explain
    an error, and which rows were refused: constants, subjects, and texts of
    errors. *)
Inductive logged (is_bearer : AuthenticatedUser -> Prop) (may_fail : AppError -> Prop)
    (refused : option string -> string -> string -> Prop) (request : Request) :
    LogLine -> Prop :=
| logged_authenticated user : is_bearer user ->
    logged is_bearer may_fail refused request
      (mkLogLine Debug "request authenticated" [("subject", subject user)])
| logged_limited user : is_bearer user ->
    logged is_bearer may_fail refused request
      (mkLogLine Warn "rate limit exceeded" [("subject", subject user)])
| logged_issued user : is_bearer user ->
    logged is_bearer may_fail refused request
      (mkLogLine Info "issued a PIN" [("subject", subject user)])
| logged_refused user : is_bearer user ->
    logged is_bearer may_fail refused request
      (mkLogLine Warn "rejected a provisioning attempt from a caller without the admin role"
         [("subject", subject user)])
| logged_provisioned user payload : is_bearer user -> json request = Ok payload ->
    logged is_bearer may_fail refused request
      (mkLogLine Info "provisioned a TOTP secret"
         [("subject", trim (payload_subject payload)); ("provisioned_by", subject user)])
| logged_lost who res err : refused who (as_str res) err ->
    logged is_bearer may_fail refused request (audit_failure who res err)
| logged_rejected e : may_fail e ->
    logged is_bearer may_fail refused request (log_of e).

(** An audit row that the database did not confirm. *)
Definition refused (who : option string) (res err : string) : Prop :=
  exists id answer, rho _ (InsertLog id who res) (Err answer) /\ err = db_text answer.

(** What an effect of a request owes to earlier answers, beyond [permitted]. *)
Definition owed (route : Route) (request : Request) {A} (e : Eff A) : Prop :=
  match e with
  | SelectSecret s => rho _ (CheckLimit s) true
  | UpsertSecret _ ciphertext nonce =>
      exists secret, drawn_and_encrypted rho (secrets state) secret ciphertext nonce
  | JoinInflight key | LeaveInflight key =>
      exists token, bearer_token request = Some token /\ key = token_key token
  | SendInflight key outcome =>
      exists token, bearer_token request = Some token /\ key = token_key token /\
        answered_with rho (introspection state) token outcome
  | Receive rx =>
      exists token, bearer_token request = Some token /\
        rho _ (JoinInflight (token_key token)) (Some rx)
  | Trace line => logged (bearer rho state request) (cause rho) refused request line
  | InsertLog _ s res =>
      named request s /\ res ∈ as_str <$> [Issued; DeniedInactiveToken; DeniedNoSecret;
                                           SecretStore.RateLimited; Provisioned] /\
      (res = as_str Issued -> exists user, s = Some (subject user) /\
         bearer rho state request user /\ rho _ (TouchSecret (subject user)) (Ok tt)) /\
      (res = as_str Provisioned -> exists who ciphertext nonce, s = Some who /\
         rho _ (UpsertSecret who ciphertext nonce) (Ok tt))
  | _ => True
  end.

Definition lawful (route : Route) (request : Request) (A : Type) (e : Eff A) : Prop :=
  permitted rho state route request A e /\ owed route request e.

(** What a PIN that leaves the server is made of. *)
Definition pin_earned (request : Request) (p : PinResponse) : Prop :=
  exists user secret generated,
    bearer rho state request user /\
    read_secret rho (secrets state) (subject user) secret /\
    computed_pin rho secret generated /\
    p = {| Middleware.pin := TotpGen.pin generated;
           Middleware.valid_for_seconds := TotpGen.valid_for_seconds generated |} /\
    rho _ (TouchSecret (subject user)) (Ok tt) /\
    recorded rho (Some (subject user)) Issued.

(** What the answer to a provisioning is made of. *)
Definition provision_earned (request : Request) (p : ProvisionResponse) : Prop :=
  exists admin payload secret ciphertext nonce,
    let s := trim (payload_subject payload) in
    bearer rho state request admin /\
    has_role admin (admin_role (config state)) = true /\
    json request = Ok payload /\ s <> "" /\
    drawn_and_encrypted rho (secrets state) secret ciphertext nonce /\
    rho _ (UpsertSecret s ciphertext nonce) (Ok tt) /\
    Middleware.secret_base32 p = to_base32 secret /\
    recorded rho (Some s) Provisioned.

(** Requests whose body axum does not refuse with a success. *)
Definition honest (request : Request) : Prop :=
  forall rejection, json request = Err rejection -> status rejection <> 200.

Definition earned (route : Route) (request : Request) (response : Response) : Prop :=
  (route = Provision -> honest request) -> status response = 200 ->
  match route with
  | RequestPin => exists p, body response = BodyPin p /\ pin_earned request p
  | Provision => exists p, body response = BodyProvision p /\ provision_earned request p
  end.

Lemma trace_lawful route request line :
  logged (bearer rho state request) (cause rho) refused request line ->
  lawful route request _ (Trace line).
Proof. by split. Qed.

Lemma lost_lawful route request who res :
  forall id err, rho _ (InsertLog id who (as_str res)) (Err err) ->
    lawful route request _ (Trace (audit_failure who res (db_text err))).
Proof. intros id err Hr. apply trace_lawful, logged_lost. by exists id, err. Qed.

(** A row that claims neither a PIN nor a provisioning. *)
Lemma denial_lawful route request who res :
  named request who -> res ∉ [Issued; Provisioned] ->
  forall id, lawful route request _ (InsertLog id who (as_str res)).
Proof.
  intros Hn Hres id. split; [done|]. split; [done|]. split; [destruct res; set_solver|].
  split; intros ->%as_str_inj; set_solver.
Qed.

Lemma wp_respond_earned route request r :
  explained rho (earned route request) r ->
  wp (lawful route request) rho (respond r) (earned route request).
Proof.
  intros Hr. destruct r as [response|e]; simpl; [done|].
  split; [by apply trace_lawful, logged_rejected|].
  intros _ _ _ Hs. simpl in Hs. pose proof (status_code_is_error e). lia.
Qed.

Lemma wp_request_pin_earned request user :
  bearer rho state request user -> rho _ (CheckLimit (subject user)) true ->
  wp (lawful RequestPin request) rho (request_pin state user)
    (explained rho (pin_earned request)).
Proof.
  intros Hu Hallowed.
  assert (Hrow : RequestPin = RequestPin /\
            exists u, bearer rho state request u /\ subject u = subject user) by eauto.
  assert (Hnamed : named request (Some (subject user))) by (right; left; by exists user).
  unfold request_pin. apply wp_try_bind. refine (wp_get _ _ _ _ _ _ _); [done|].
  intros [[secret|]|e] Hsecret; cbn beta iota; [|..|done].
  2: { rewrite wp_bind. apply wp_record; [done| |apply lost_lawful|done].
       apply denial_lawful; [done|set_solver]. }
  apply wp_try_bind. refine (wp_generate _ _ _ _ _ _ _); [done..|]. intros [generated|e] Hpin; [|done].
  cbn beta iota. apply wp_try_bind. refine (wp_touch _ _ _ _ _ _); [done|]. intros [[]|err] Htouch; [|done].
  cbn beta iota. rewrite wp_bind. apply wp_record; [done| |apply lost_lawful|].
  { intros id. split; [done|]. split; [done|]. split; [set_solver|].
    split; [|done]. intros _. by exists user. }
  intros Hrec. simpl. split; [by apply trace_lawful, logged_issued|]. intros _ _.
  exists user, secret, generated. split_and!; auto.
Qed.

Lemma wp_provision_earned request user payload :
  bearer rho state request user -> json request = Ok payload ->
  wp (lawful Provision request) rho (provision state user payload)
    (explained rho (provision_earned request)).
Proof.
  intros Hu Hj. unfold provision.
  destruct (has_role user (admin_role (config state))) eqn:Hrole;
    [|simpl; split; [by apply trace_lawful, logged_refused|done]].
  simpl negb. cbn iota. case_decide as Hs; [done|].
  apply wp_try_bind. simpl. split; [done|]. intros secret Hsecret.
  destruct (generator secret _) as [totp|e] eqn:Hgen; simpl.
  2: { unfold generator in Hgen. destruct (build _) eqn:Hb; simplify_eq/=.
       by eapply internal_params. }
  destruct (to_url totp) as [url|] eqn:Hurl; simpl; [|by eapply internal_url].
  split; [done|]. intros drawn Hdrawn.
  destruct (encrypt_with _ drawn secret) as [[ct nonce]|e] eqn:Henc; simpl.
  2: { unfold encrypt_with in Henc. case_match; simplify_eq. constructor. }
  assert (Henc' : drawn_and_encrypted rho (secrets state) secret ct nonce) by by exists drawn.
  split.
  { split; [|by exists secret]. split; [done|]. by exists user, payload. }
  intros [[]|err] Hup; simpl; [|by eapply internal_database].
  change (wp (lawful Provision request) rho
    (_ ← log_request (Some (trim (payload_subject payload))) Provisioned;
     _ ← perform (Trace (mkLogLine Info "provisioned a TOTP secret"
           [("subject", trim (payload_subject payload)); ("provisioned_by", subject user)]));
     mret (Ok {| Middleware.secret_base32 := to_base32 secret;
                 Middleware.otpauth_url := url |}))
    (explained rho (provision_earned request))).
  rewrite wp_bind. apply wp_record; [done| |apply lost_lawful|].
  { intros id. split; [done|]. split; [by right; right; exists payload|]. split; [set_solver|].
    split; [done|]. intros _. by eexists _, ct, nonce. }
  intros Hrec. simpl. split; [by apply trace_lawful, logged_provisioned|]. intros _ _.
  by exists user, payload, secret, ct, nonce.
Qed.

Lemma gate_lawful route request :
  gate_effects (lawful route request) rho (introspection state) request.
Proof.
  split.
  { intros token Ht. split_and!.
    - split; [by exists token|done].
    - split; [done|by exists token].
    - intros outcome Ho. split; [done|by exists token].
    - split; [done|by exists token].
    - intros rx Hrx. split; [done|by exists token]. }
  split_and!; [done..| | |].
  - apply (denial_lawful _ _ _ DeniedInactiveToken); [by left|set_solver].
  - apply (lost_lawful _ _ _ DeniedInactiveToken).
  - intros token user Ht Hv. apply trace_lawful, logged_authenticated. by exists token.
Qed.

Lemma wp_handler_earned route request user :
  bearer rho state request user -> rho _ (CheckLimit (subject user)) true ->
  wp (lawful route request) rho (handler state route (with_user request user))
    (earned route request).
Proof.
  intros Hu Hallowed. unfold handler. cbn [extension with_user json].
  destruct route; [|destruct (json request) as [payload|rejection] eqn:Hj].
  - rewrite wp_bind. eapply wp_mono; [|by apply wp_request_pin_earned].
    intros r Hp. apply wp_respond_earned. destruct r as [p|e]; [|done]. intros _ _. by exists p.
  - rewrite wp_bind. eapply wp_mono; [|by apply wp_provision_earned].
    intros r Hp. apply wp_respond_earned. destruct r as [p|e]; [|done]. intros _ _. by exists p.
  - simpl. intros Hh Hs. by destruct (Hh eq_refl rejection Hj).
Qed.

(** The whole stack: every effect lawful, every success earned. *)
Lemma wp_protected_earned `{!LibraryRepliesLaws _} route request :
  wp (lawful route request) rho (protected state route request) (earned route request).
Proof.
  unfold protected. rewrite wp_bind.
  eapply wp_mono with (Q := explained rho (earned route request)).
  { intros r Hr. by apply wp_respond_earned. }
  apply wp_require_authentication; [apply gate_lawful| |].
  2: { intros e He. by eapply gate_error_cause. }
  intros token user Ht Hv. assert (Hu : bearer rho state request user) by by exists token.
  unfold audit_rate_limited. rewrite wp_bind.
  eapply wp_mono with (Q := earned route request).
  { intros response Hr. case_decide as H429; [|done]. cbn [extension with_user fmap option_fmap option_map].
    cbn [perform mbind prog_bind wp]. split; [by apply trace_lawful, logged_limited|]. intros _ _.
    rewrite wp_bind. apply wp_record; [done| |apply lost_lawful|done].
    apply (denial_lawful _ _ _ SecretStore.RateLimited); [|set_solver].
    right; left. by exists user. }
  unfold governor_layer, extract.
  cbn [extension with_user fmap option_fmap option_map ok_or].
  rewrite wp_bind. cbn [perform wp]. split; [split; [|done]; naive_solver|].
  intros [] Hallowed; [by apply wp_handler_earned|].
  intros _ Hs. by rewrite too_many_status in Hs.
Qed.
End Provenance.
