(* ===== verification/Pool.v ===== *)
(** * The server under load: any number of requests at once

    tokio runs each request's future between its awaits; requests share the
    database, the limiter, the log and the in-flight map.  Here a server is a
    pool of tasks, each the rest of its [protected] program; a [Choice] is
    what happens next (a request arrives, a task performs its next effect, a
    client goes away, the process ends and is started again), and a run is
    any sequence of choices.  The in-flight map is the real one: channels,
    mailboxes, and the guard that a dropped leader leaves to its destructor.
    The history of effects and answers is kept only for the proofs. *)

From S2P Require Import Prelude RustText Rfc6238 AppError Effects Config Crypto TotpGen.
From S2P Require Import SecretStore Introspection Middleware RateLimit Routes.
Local Open Scope nat_scope.

(** An effect and its answer. *)
Inductive Event :=
| Happened {A : Type} (e : Eff A) (a : A).

Record Task := mkTask {
  task_route : Route;
  task_request : Request;
  (** What is left to do. *)
  rest : Prog Response;
  (** The subscription a follower holds, with the message sent to it. *)
  mailbox : option (Receiver * option IntrospectionOutcome);
  (** The key the task's [InflightGuard] removes. *)
  guard : option (list Z);
  dropped : bool
}.

Record Server (L : Type) := mkServer {
  world : World L;
  (** The in-flight map: key to channel. *)
  channels : gmap (list Z) Receiver;
  next_channel : Receiver;
  requests : list Task;
  history : list (nat * Event)
}.
Arguments mkServer {L}.
Arguments world {L}.
Arguments channels {L}.
Arguments next_channel {L}.
Arguments requests {L}.
Arguments history {L}.

Definition with_rest (p : Prog Response) (t : Task) : Task :=
  mkTask (task_route t) (task_request t) p (mailbox t) (guard t) (dropped t).
Definition with_mailbox m (t : Task) : Task :=
  mkTask (task_route t) (task_request t) (rest t) m (guard t) (dropped t).
Definition with_guard g (t : Task) : Task :=
  mkTask (task_route t) (task_request t) (rest t) (mailbox t) g (dropped t).
Definition gone (t : Task) : Task :=
  mkTask (task_route t) (task_request t) (rest t) (mailbox t) None true.

(** Where a future can be dropped: at its awaits. *)
Definition awaits {A} (e : Eff A) : bool :=
  match e with
  | SelectSecret _ | UpsertSecret _ _ _ | TouchSecret _ | InsertLog _ _ _
  | SendPost _ | Receive _ => true
  | _ => false
  end.

Inductive Choice :=
| Arrive (route : Route) (request : Request)
| Advance (i : nat)
(** The client of task [i] goes away while the task awaits; what it awaits
    has, or has not, already taken effect. *)
| GoAway (i : nat) (reached : bool)
(** The process ends at this moment, and [main] is run again. *)
| Restart.

(** What comes of performing an effect: the task cannot go on yet, or it
    panics, or there is an answer, with what it does to the task and to the
    rest of the server. *)
Inductive Attempt (L A : Type) :=
| Blocked
| Panicked
| Answers (a : A) (task : Task) (server : Server L).
Arguments Blocked {L A}.
Arguments Panicked {L A}.
Arguments Answers {L A} a task server.

Section Pool.
Context `{!HeaderText, !Sha256, !StatusText, !Aead, !TotpRs, !LibraryReplies}.
Context {L : Type} `{!Governor L, !GovernorBuilder L} (o : Oracle) (state : AppState).
Implicit Types s : Server L.

Definition with_world (w : World L) s : Server L :=
  mkServer w (channels s) (next_channel s) (requests s) (history s).
Definition with_channels m s : Server L :=
  mkServer (world s) m (next_channel s) (requests s) (history s).
Definition with_requests ts s : Server L :=
  mkServer (world s) (channels s) (next_channel s) ts (history s).
Definition record_event i (ev : Event) s : Server L :=
  mkServer (world s) (channels s) (next_channel s) (requests s) (history s ++ [(i, ev)]).

(** [inflight.insert(key, tx)] with a new channel. *)
Definition open_channel (key : list Z) s : Server L :=
  mkServer (world s) (<[key := next_channel s]> (channels s)) (S (next_channel s))
    (requests s) (history s).

(** [map.remove(&key)], and with the sender the channel closes. *)
Definition close_channel (key : list Z) s : Server L :=
  with_channels (delete key (channels s)) s.

(** [tx.send(outcome)]: a message for every subscriber without one. *)
Definition deliver_to (chan : Receiver) (outcome : IntrospectionOutcome) (t : Task) : Task :=
  match mailbox t with
  | Some (rx, None) =>
      if decide (rx = chan) then with_mailbox (Some (rx, Some outcome)) t else t
  | _ => t
  end.

Definition deliver (chan : Receiver) (outcome : IntrospectionOutcome) s : Server L :=
  with_requests (deliver_to chan outcome <$> requests s) s.

(** The message waiting at a receiver. *)
Definition mail (rx : Receiver) (t : Task) : option IntrospectionOutcome :=
  match mailbox t with
  | Some (rx', message) => if decide (rx' = rx) then message else None
  | None => None
  end.

(** No sender of the channel is left. *)
Definition closed (rx : Receiver) s : Prop := map_Forall (fun _ chan => chan <> rx) (channels s).

#[export] Instance closed_dec rx s : Decision (closed rx s).
Proof. unfold closed. apply _. Defined.

Definition attempt {A} (e : Eff A) (t : Task) s : Attempt L A :=
  match e in Eff A return Attempt L A with
  | JoinInflight key =>
      match channels s !! key with
      | Some rx => Answers (Some rx) (with_mailbox (Some (rx, None)) t) s
      | None => Answers None (with_guard (Some key) t) (open_channel key s)
      end
  | Receive rx =>
      match mail rx t with
      | Some outcome => Answers (Ok outcome) (with_mailbox (Some (rx, None)) t) s
      | None => if decide (closed rx s) then Answers (Err tt) t s else Blocked
      end
  | SendInflight key outcome =>
      Answers tt t (match channels s !! key with
                    | Some chan => deliver chan outcome s
                    | None => s
                    end)
  | LeaveInflight key => Answers tt (with_guard None t) (close_channel key s)
  | e =>
      match exec_eff o e (world s) with
      | (Some a, w) => Answers a t (with_world w s)
      | (None, _) => Panicked
      end
  end.

Definition set_task (i : nat) (t : Task) s : Server L :=
  with_requests (<[i := t]> (requests s)) s.

(** The future is dropped, and with it the guard. *)
Definition drop_task (i : nat) (t : Task) s : Server L :=
  let s := set_task i (gone t) s in
  match guard t with
  | Some key => close_channel key s
  | None => s
  end.

(** What is in memory is gone: every future, and with it its guard, and the
    in-flight map; the limiter's store is new.  The database stays, and so
    does what was logged and sent. *)
Definition restarted (governor : L) s : Server L :=
  mkServer (with_limiter (world s) governor) ∅ (next_channel s) (gone <$> requests s) (history s).

Definition pool_step s (c : Choice) : option (Server L) :=
  match c with
  | Arrive route request =>
      Some (with_requests (requests s ++
              [mkTask route request (protected state route request) None None false]) s)
  | Advance i =>
      t ← requests s !! i;
      if dropped t then None else
      match rest t with
      | Ret _ => None
      | Do e k =>
          match attempt e t s with
          | Blocked => None
          | Panicked => Some (drop_task i t s)
          | Answers a t' s' =>
              Some (record_event i (Happened e a) (set_task i (with_rest (k a) t') s'))
          end
      end
  | GoAway i reached =>
      t ← requests s !! i;
      if dropped t then None else
      match rest t with
      | Ret _ => None
      | Do e k =>
          if negb (awaits e) then None
          else if (reached : bool) then
            match attempt e t s with
            | Answers a t' s' => Some (record_event i (Happened e a) (drop_task i t' s'))
            | _ => None
            end
          else Some (drop_task i t s)
      end
  | Restart =>
      match rate_limit_config (config state) with
      | Ok governor => Some (restarted governor s)
      | Err _ => None
      end
  end.

(** A run is any sequence of choices. *)
Fixpoint pool_run s (choices : list Choice) : option (Server L) :=
  match choices with
  | [] => Some s
  | c :: choices => s' ← pool_step s c; pool_run s' choices
  end.

(** A server just started on a database, and what it can come to. *)
Definition started (w : World L) : Server L := mkServer w ∅ 0 [] [].
Definition reachable (w : World L) s : Prop :=
  exists choices, pool_run (started w) choices = Some s.

(** A run of a concrete schedule, checked by evaluation. *)
Definition runs s (choices : list Choice) : bool := bool_decide (is_Some (pool_run s choices)).

Definition run_to s (choices : list Choice) : Server L := default s (pool_run s choices).

Lemma runs_to s choices : runs s choices = true -> pool_run s choices = Some (run_to s choices).
Proof. unfold runs, run_to. by intros [s' ->]%bool_decide_eq_true. Qed.

Lemma runs_reachable w choices :
  runs (started w) choices = true -> reachable w (run_to (started w) choices).
Proof. intros Hruns. exists choices. by apply runs_to. Qed.

(** ** Steps as a relation *)

Inductive stepped s : Server L -> Prop :=
| stepped_arrive route request :
    stepped s (with_requests (requests s ++
      [mkTask route request (protected state route request) None None false]) s)
| stepped_drop i t {A} (e : Eff A) k :
    requests s !! i = Some t -> dropped t = false -> rest t = Do e k ->
    stepped s (drop_task i t s)
| stepped_event i t {A} (e : Eff A) k a t1 s1 s' :
    requests s !! i = Some t -> dropped t = false -> rest t = Do e k ->
    attempt e t s = Answers a t1 s1 ->
    s' = set_task i (with_rest (k a) t1) s1 \/ s' = drop_task i t1 s1 ->
    stepped s (record_event i (Happened e a) s')
| stepped_restart governor :
    rate_limit_config (config state) = Ok governor -> stepped s (restarted governor s).

(** Not a step of a request, but a new one or a new start. *)
Definition arrival (c : Choice) : bool :=
  match c with Arrive _ _ | Restart => true | _ => false end.

(** Any other choice drops a task or performs its next effect. *)
Lemma pool_step_task s c s' :
  pool_step s c = Some s' -> arrival c = false ->
  exists i t A (e : Eff A) k,
    requests s !! i = Some t /\ dropped t = false /\ rest t = Do e k /\
    (s' = drop_task i t s \/
     exists a t1 s1 s2, attempt e t s = Answers a t1 s1 /\
       (s2 = set_task i (with_rest (k a) t1) s1 \/ s2 = drop_task i t1 s1) /\
       s' = record_event i (Happened e a) s2).
Proof.
  destruct c as [route request|i|i reached|]; intros Hs Hno; [done|..|done];
    apply bind_Some in Hs as (t & Hi & Hs); destruct (dropped t) eqn:Hd; try done;
    destruct (rest t) as [|A e k] eqn:Hr; try done; exists i, t, A, e, k; (split_and!; [done..|]).
  - destruct (attempt e t s) as [| |a t1 s1] eqn:Ha; simplify_eq; [by left|].
    right. eexists a, t1, s1, _. eauto.
  - destruct (awaits e); [|done]. simpl in Hs. destruct reached; [|simplify_eq; by left].
    destruct (attempt e t s) as [| |a t1 s1] eqn:Ha; simplify_eq.
    right. eexists a, t1, s1, _. eauto.
Qed.

Lemma pool_step_stepped s c s' : pool_step s c = Some s' -> stepped s s'.
Proof.
  intros Hs. destruct (arrival c) eqn:Hc.
  - destruct c; try done; simpl in Hs.
    + injection Hs as <-. constructor.
    + destruct (rate_limit_config (config state)) as [governor|] eqn:Hg; [|done].
      injection Hs as <-. by apply stepped_restart.
  - destruct (pool_step_task s c s' Hs Hc)
      as (i & t & A & e & k & Hi & Hd & Hr & [->|(a & t1 & s1 & s2 & Ha & Hs2 & ->)]).
    + by eapply stepped_drop.
    + by eapply stepped_event.
Qed.

Lemma pool_run_app s choices choices' :
  pool_run s (choices ++ choices') = (pool_run s choices ≫= fun s' => pool_run s' choices').
Proof.
  revert s. induction choices as [|c choices IH]; intros s; [done|]. simpl.
  destruct (pool_step s c); [apply IH|done].
Qed.

(** Induction over runs, the last step first. *)
Lemma reachable_inv w (P : Server L -> Prop) :
  P (started w) ->
  (forall s s', reachable w s -> P s -> stepped s s' -> P s') ->
  forall s, reachable w s -> P s.
Proof.
  intros Hstart HS s [choices Hrun]. revert s Hrun.
  induction choices as [|c choices IH] using rev_ind; intros s; [by intros [= <-]|].
  rewrite pool_run_app. intros (s1 & Hrun & Hs)%bind_Some. simpl in Hs.
  destruct (pool_step s1 c) as [s2|] eqn:Hc; [|done]. injection Hs as <-.
  eapply HS; [by exists choices|by apply IH|by eapply pool_step_stepped].
Qed.

(** ** Frames *)

(** The same request at the same point. *)
Definition same_work (t t' : Task) : Prop :=
  task_route t' = task_route t /\ task_request t' = task_request t /\
  rest t' = rest t /\ dropped t' = dropped t.

Lemma same_work_refl t : same_work t t.
Proof. done. Qed.

Lemma deliver_to_work chan outcome t :
  same_work t (deliver_to chan outcome t) /\ guard (deliver_to chan outcome t) = guard t.
Proof. unfold deliver_to. repeat case_match; done. Qed.

(** What performing an effect leaves alone. *)
Lemma attempt_frame {A} (e : Eff A) t s a t1 s1 :
  attempt e t s = Answers a t1 s1 ->
  same_work t t1 /\ history s1 = history s /\
  length (requests s1) = length (requests s) /\
  (forall j t', requests s1 !! j = Some t' ->
     exists t0, requests s !! j = Some t0 /\ same_work t0 t' /\ guard t' = guard t0).
Proof.
  assert (Hself : forall j t', requests s !! j = Some t' ->
     exists t0, requests s !! j = Some t0 /\ same_work t0 t' /\ guard t' = guard t0).
  { intros j t' Hj. by exists t'. }
  intros Ha.
  destruct e; cbn [attempt] in Ha; repeat case_match; simplify_eq; try done;
    try (split_and!; [done..|exact Hself]).
  split_and!; [done..|by simpl; rewrite length_fmap|].
  intros j t' Hj. simpl in Hj. rewrite list_lookup_fmap in Hj.
  apply fmap_Some in Hj as (t0 & Hj & ->). exists t0. split; [done|]. apply deliver_to_work.
Qed.

Lemma drop_task_requests i t s : requests (drop_task i t s) = <[i := gone t]> (requests s).
Proof. unfold drop_task. by destruct (guard t). Qed.
Lemma drop_task_history i t s : history (drop_task i t s) = history s.
Proof. unfold drop_task. by destruct (guard t). Qed.
Lemma drop_task_world i t s : world (drop_task i t s) = world s.
Proof. unfold drop_task. by destruct (guard t). Qed.

(** A step either is no effect, and then at most the limiter is new, or is one
    effect of one task. *)
Lemma stepped_effect s s' :
  stepped s s' ->
  (history s' = history s /\ exists governor, world s' = with_limiter (world s) governor) \/
  exists i t A (e : Eff A) k a t1 s1,
    requests s !! i = Some t /\ dropped t = false /\ rest t = Do e k /\
    attempt e t s = Answers a t1 s1 /\
    history s' = history s ++ [(i, Happened e a)] /\ world s' = world s1.
Proof.
  assert (Hsame : forall v : World L, exists governor, v = with_limiter v governor).
  { intros v. exists (limiter v). by destruct v. }
  intros [route request|i t A e k Hi Hd Hr|i t A e k a t1 s1 s2 Hi Hd Hr Ha Hs2|governor Hg].
  - by left.
  - left. by rewrite drop_task_history, drop_task_world.
  - right. exists i, t, A, e, k, a, t1, s1.
    destruct (attempt_frame e t s a t1 s1 Ha) as (_ & Hh & _).
    destruct Hs2 as [-> | ->]; cbn [record_event history world];
      rewrite ?drop_task_history, ?drop_task_world; cbn [set_task with_requests history world];
      by rewrite Hh.
  - left. split; [done|]. by exists governor.
Qed.

(** Where a task of the next state comes from. *)
Inductive came_from s (j : nat) (t' : Task) (h' : list (nat * Event)) : Prop :=
| from_arrival :
    requests s !! j = None ->
    t' = mkTask (task_route t') (task_request t')
           (protected state (task_route t') (task_request t')) None None false ->
    came_from s j t' h'
| from_same t :
    requests s !! j = Some t -> task_route t' = task_route t ->
    task_request t' = task_request t -> rest t' = rest t -> came_from s j t' h'
| from_event t {A} (e : Eff A) k a :
    requests s !! j = Some t -> task_route t' = task_route t ->
    task_request t' = task_request t -> rest t = Do e k -> rest t' = k a ->
    (j, Happened e a) ∈ h' -> came_from s j t' h'.

Lemma stepped_tasks s s' j t' :
  stepped s s' -> requests s' !! j = Some t' -> came_from s j t' (history s').
Proof.
  intros Hs Hj.
  destruct Hs as [route request|i t A e k Hi Hd Hr|i t A e k a t1 s1 s2 Hi Hd Hr Ha Hs2|governor Hg].
  - simpl in Hj. apply lookup_snoc_Some in Hj as [[Hlt Hj]|[-> <-]]; [by apply (from_same _ _ _ _ t')|].
    apply from_arrival; [by apply lookup_ge_None|done].
  - rewrite drop_task_requests in Hj.
    apply list_lookup_insert_Some in Hj as [(-> & <- & _)|[_ Hj]]; by eapply from_same.
  - destruct (attempt_frame e t s a t1 s1 Ha) as ((Hw1 & Hw2 & Hw3 & _) & Hh & _ & Hf).
    assert (Hother : requests s1 !! j = Some t' -> came_from s j t' (history (record_event i (Happened e a) s2))).
    { intros (t0 & Hj0 & (? & ? & ? & _) & _)%Hf. by eapply from_same. }
    destruct Hs2 as [-> | ->].
    + simpl in Hj. apply list_lookup_insert_Some in Hj as [(-> & <- & _)|[_ Hj]]; [|by apply Hother].
      eapply (from_event _ _ _ _ t e k a); try done. simpl. set_solver.
    + cbn [record_event requests] in Hj. rewrite drop_task_requests in Hj.
      apply list_lookup_insert_Some in Hj as [(-> & <- & _)|[_ Hj]]; [|by apply Hother].
      by eapply from_same.
  - simpl in Hj. rewrite list_lookup_fmap in Hj.
    apply fmap_Some in Hj as (t0 & Hj & ->). by eapply from_same.
Qed.
End Pool.
