(* ===== verification/History.v ===== *)
(** * What the history of a run shows

    Every task of a reachable server obeys the law of its route with respect
    to the answers it was given, at every moment; the tables and logs are what
    the recorded statements made of them; and every message a follower gets
    was sent by the leader of the channel it subscribed to. *)

From S2P Require Import Prelude RustText Rfc6238 AppError Effects Config Crypto TotpGen.
From S2P Require Import SecretStore Introspection Middleware RateLimit Routes Provenance Pool.
Local Open Scope nat_scope.

(** The answers task [i] was given. *)
Definition heard (h : list (nat * Event)) (i : nat) (A : Type) (e : Eff A) (a : A) : Prop :=
  (i, Happened e a) ∈ h.

Lemma heard_mono h h' i A (e : Eff A) a : h ⊆ h' -> heard h i A e a -> heard h' i A e a.
Proof. intros Hh. apply Hh. Qed.

(** The effect of an event is what a program does next. *)
Definition next_effect {T} (p : Prog T) (ev : Event) : Prop :=
  match ev with Happened e _ => exists k, p = Do e k end.

(** ** Replaying the statements *)

(** What an upsert that took effect wrote. *)
Definition upsert_of (ev : Event) : option (string * (list Z * list Z)) :=
  match ev with
  | Happened e a =>
      match e in Eff A return A -> option (string * (list Z * list Z)) with
      | UpsertSecret subject ciphertext nonce => fun r =>
          if applied r then Some (subject, (ciphertext, nonce)) else None
      | _ => fun _ => None
      end a
  end.

(** Subjects to ciphertext and nonce. *)
Notation Columns := (gmap string (list Z * list Z)).

Definition after_event (m : Columns) (ev : Event) : Columns :=
  match upsert_of ev with
  | Some (subject, row) => <[subject := row]> m
  | None => m
  end.

Definition replay (m : Columns) (h : list (nat * Event)) : Columns :=
  foldl after_event m (snd <$> h).

Lemma replay_snoc m h i ev : replay m (h ++ [(i, ev)]) = after_event (replay m h) ev.
Proof. unfold replay. by rewrite fmap_app, foldl_app. Qed.

(** No upsert of [subject] took effect in between. *)
Definition untouched (subject : string) (h : list (nat * Event)) : Prop :=
  forall i ev, (i, ev) ∈ h -> forall row, upsert_of ev <> Some (subject, row).

(** A row is there since the start or since the last upsert of its subject. *)
Lemma replay_lookup m h subject row :
  replay m h !! subject = Some row ->
  (m !! subject = Some row /\ untouched subject h) \/
  exists h1 j ev h2, h = h1 ++ (j, ev) :: h2 /\ upsert_of ev = Some (subject, row) /\
    untouched subject h2.
Proof.
  induction h as [|[j ev] h IH] using rev_ind.
  { intros Hm. left. split; [done|]. intros i ev Hin. by apply elem_of_nil in Hin. }
  assert (Hkeep : forall h', untouched subject h' -> (forall r, upsert_of ev <> Some (subject, r)) ->
    untouched subject (h' ++ [(j, ev)])).
  { intros h' Hh Hev i x [Hin|Hin]%elem_of_app; [by eapply Hh|].
    apply list_elem_of_singleton in Hin. by injection Hin as -> ->. }
  assert (Hext : (forall r, upsert_of ev <> Some (subject, r)) ->
    replay m h !! subject = Some row ->
    (m !! subject = Some row /\ untouched subject (h ++ [(j, ev)])) \/
    exists h1 k ev' h2, h ++ [(j, ev)] = h1 ++ (k, ev') :: h2 /\
      upsert_of ev' = Some (subject, row) /\ untouched subject h2).
  { intros Hev [[Hm Hu]|(h1 & k & x & h2 & -> & Hx & Hu)]%IH; [by left; auto|right].
    exists h1, k, x, (h2 ++ [(j, ev)]). rewrite <-app_assoc. auto. }
  rewrite replay_snoc. unfold after_event.
  destruct (upsert_of ev) as [[subject' row']|] eqn:Hev; [|by apply Hext].
  destruct (decide (subject' = subject)) as [->|Hne].
  - rewrite lookup_insert_eq. intros [= ->]. right.
    exists h, j, ev, []. split_and!; [done|done|]. intros i x Hin. by apply elem_of_nil in Hin.
  - rewrite lookup_insert_ne by done. apply Hext. congruence.
Qed.

(** The last write that took effect is what is there. *)
Lemma replay_last m h1 j ev h2 subject row :
  upsert_of ev = Some (subject, row) -> untouched subject h2 ->
  replay m (h1 ++ (j, ev) :: h2) !! subject = Some row.
Proof.
  intros Hev. induction h2 as [|[k x] h2 IH] using rev_ind; intros Hu.
  - rewrite replay_snoc. unfold after_event. by rewrite Hev, lookup_insert_eq.
  - rewrite app_comm_cons, app_assoc, replay_snoc. unfold after_event.
    assert (Hx : forall r, upsert_of x <> Some (subject, r)).
    { intros r. apply (Hu k). apply elem_of_app. right. by apply list_elem_of_singleton. }
    assert (Hh2 : replay m (h1 ++ (j, ev) :: h2) !! subject = Some row).
    { apply IH. intros i y Hy. apply (Hu i). apply elem_of_app. by left. }
    destruct (upsert_of x) as [[subject' row']|] eqn:Hux; [|done].
    rewrite lookup_insert_ne; [done|]. intros ->. by apply (Hx row').
Qed.

Section History.
Context `{!HeaderText, !Sha256, !StatusText, !Aead, !TotpRs, !LibraryReplies}.
Context {L : Type} `{!Governor L, !GovernorBuilder L} (o : Oracle) (state : AppState) (w : World L).
Implicit Types s : Server L.

Definition attempted (t : Task) s (ev : Event) : Prop :=
  match ev with Happened e a => exists t1 s1, attempt o e t s = Answers a t1 s1 end.

Lemma stepped_history_grows s s' : stepped o state s s' -> history s `prefix_of` history s'.
Proof.
  intros [[-> _]|(i & t & A & e & k & a & t1 & s1 & _ & _ & _ & _ & -> & _)]%stepped_effect;
    [done|by eexists].
Qed.

Lemma pool_run_grows s choices s1 :
  pool_run o state s choices = Some s1 -> history s `prefix_of` history s1.
Proof.
  revert s. induction choices as [|c choices IH]; intros s; simpl; [by intros [= <-]|].
  intros (s2 & Hc & Hrun)%bind_Some. etrans; [|by apply IH].
  by eapply stepped_history_grows, pool_step_stepped.
Qed.

Lemma stepped_keeps s s' i t :
  stepped o state s s' -> requests s !! i = Some t ->
  exists t', requests s' !! i = Some t' /\
    task_route t' = task_route t /\ task_request t' = task_request t.
Proof.
  intros Hs Hi.
  assert (Hlen : length (requests s) <= length (requests s')).
  { destruct Hs as [route request|j t0 A e k Hj Hd Hr|j t0 A e k a t1 s1 s2 Hj Hd Hr Ha Hs2|g Hg];
      simpl; rewrite ?length_app, ?drop_task_requests, ?length_insert, ?length_fmap; [lia..| |lia].
    destruct (attempt_frame o e t0 s a t1 s1 Ha) as (_ & _ & Hl & _).
    destruct Hs2 as [-> | ->]; [simpl|rewrite drop_task_requests]; rewrite length_insert; lia. }
  destruct (lookup_lt_is_Some_2 (requests s') i) as [t' Hi'].
  { apply lookup_lt_Some in Hi. lia. }
  exists t'. split; [done|].
  by destruct (stepped_tasks o state s s' i t' Hs Hi'); simplify_eq.
Qed.

(** ** Tasks obey the law of their route *)

Lemma rest_lawful `{!LibraryRepliesLaws _} s (R : nat -> forall A, Eff A -> A -> Prop) :
  reachable o state w s ->
  (forall i A (e : Eff A) a, (i, Happened e a) ∈ history s -> R i A e a) ->
  forall i t, requests s !! i = Some t ->
    wp (lawful (R i) state (task_route t) (task_request t)) (R i) (rest t)
       (earned (R i) state (task_route t) (task_request t)).
Proof.
  intros Hreach. revert s Hreach R. apply (reachable_inv o state w
    (fun s => forall R, _ -> forall i t, requests s !! i = Some t -> _)); [done|].
  intros s s' _ IH Hs R HR i t' Hi'.
  assert (HR0 : forall j A (e : Eff A) a, (j, Happened e a) ∈ history s -> R j A e a).
  { intros j A e a Hin. apply HR. destruct (stepped_history_grows s s' Hs) as [h ->].
    apply elem_of_app. by left. }
  destruct (stepped_tasks o state s s' i t' Hs Hi')
    as [Hno Ht'|t Hi Hro Hre Hrest|t A e k a Hi Hro Hre Hrest Hrest' Hin].
  - apply (f_equal rest) in Ht'. cbn [rest] in Ht'. rewrite Ht'. by apply wp_protected_earned.
  - rewrite Hro, Hre, Hrest. by apply IH.
  - specialize (IH R HR0 i t Hi). rewrite Hrest in IH. destruct IH as [_ Hk].
    rewrite Hro, Hre, Hrest'. apply Hk. by apply HR.
Qed.

(** An event was the next effect of its task in a reachable server whose
    history is what precedes the event. *)
Lemma history_at s h1 i ev h2 :
  reachable o state w s -> history s = h1 ++ (i, ev) :: h2 ->
  exists s1 t t', reachable o state w s1 /\ history s1 = h1 /\
    requests s1 !! i = Some t /\ dropped t = false /\ next_effect (rest t) ev /\
    attempted t s1 ev /\ requests s !! i = Some t' /\
    task_route t' = task_route t /\ task_request t' = task_request t.
Proof.
  intros Hreach. revert s Hreach h1 i ev h2. apply (reachable_inv o state w
    (fun s => forall h1 i ev h2, history s = h1 ++ (i, ev) :: h2 -> _)).
  { intros h1 i ev h2 Hh. by destruct h1. }
  intros s s' Hreach IH Hs h1 i ev h2 Hh.
  assert (Hold : forall h3, history s = h1 ++ (i, ev) :: h3 -> _) by (intros h3; apply (IH h1 i ev h3)).
  assert (Hkeep : forall t', requests s !! i = Some t' -> exists t2, requests s' !! i = Some t2 /\
            task_route t2 = task_route t' /\ task_request t2 = task_request t')
    by (intros t'; apply stepped_keeps; done).
  destruct (stepped_effect o state s s' Hs)
    as [[He _]|(j & t & A & e & k & a & t1 & s1 & Hj & Hd & Hr & Ha & He & _)]; rewrite He in Hh.
  - destruct (Hold h2 Hh) as (s0 & t & t' & ? & ? & ? & ? & ? & ? & Hi & Hro & Hre).
    destruct (Hkeep t' Hi) as (t2 & ? & ? & ?). exists s0, t, t2. split_and!; congruence || done.
  - destruct (exists_last (l := (i, ev) :: h2)) as (l' & x & Hx); [done|].
    rewrite Hx, app_assoc in Hh. apply app_inj_tail in Hh as [Hh <-].
    destruct l' as [|y l'].
    + injection Hx as Hij Hev _. subst i. rewrite app_nil_r in Hh.
      destruct (Hkeep t Hj) as (t2 & ? & ? & ?). exists s, t, t2.
      split_and!; try done; rewrite Hev.
      * by exists k.
      * by exists t1, s1.
    + injection Hx as <- _.
      destruct (Hold l' Hh) as (s0 & t0 & t' & ? & ? & ? & ? & ? & ? & Hi & Hro & Hre).
      destruct (Hkeep t' Hi) as (t2 & ? & ? & ?). exists s0, t0, t2. split_and!; congruence || done.
Qed.

(** Every effect in the history is lawful with respect to what its task had
    heard before. *)
Lemma event_lawful `{!LibraryRepliesLaws _} s h1 i A (e : Eff A) a h2 :
  reachable o state w s -> history s = h1 ++ (i, Happened e a) :: h2 ->
  exists t, requests s !! i = Some t /\
    lawful (heard h1 i) state (task_route t) (task_request t) A e.
Proof.
  intros Hreach Hh.
  destruct (history_at s h1 i _ h2 Hreach Hh)
    as (s1 & t & t' & Hreach1 & Hh1 & Hi & _ & (k & Hk) & _ & Hi' & Hro & Hre).
  exists t'. split; [done|].
  pose proof (rest_lawful s1 (heard h1) Hreach1) as Hlaw.
  specialize (Hlaw ltac:(rewrite Hh1; done) i t Hi). rewrite Hk in Hlaw.
  rewrite Hro, Hre. apply Hlaw.
Qed.

Lemma response_earned `{!LibraryRepliesLaws _} s i t response :
  reachable o state w s -> requests s !! i = Some t -> rest t = Ret response ->
  earned (heard (history s) i) state (task_route t) (task_request t) response.
Proof.
  intros Hreach Hi Hr. pose proof (rest_lawful s (heard (history s)) Hreach) as Hlaw.
  specialize (Hlaw ltac:(done) i t Hi). by rewrite Hr in Hlaw.
Qed.

(** ** The tables and logs *)

(** The ciphertexts and nonces of the secrets table. *)
Definition columns (v : World L) : Columns :=
  (fun row => (encrypted_secret row, row_nonce row)) <$> totp_secrets v.

(** What an event leaves behind in the world for good. *)
Definition left_behind (v : World L) (ev : Event) : Prop :=
  match ev with
  | Happened e a =>
      match e in Eff A return A -> Prop with
      | InsertLog id subject res => fun r => applied r = true ->
          exists row, row ∈ request_log v /\ row_id row = id /\
            row_subject row = subject /\ row_result row = res
      | Trace line => fun _ => line ∈ traces v
      | SendPost post => fun _ => post ∈ posts v
      | _ => fun _ => True
      end a
  end.

(** Logs only grow. *)
Definition logs_grow (v v' : World L) : Prop :=
  request_log v `prefix_of` request_log v' /\ traces v `prefix_of` traces v' /\
  posts v `prefix_of` posts v'.

Lemma logs_grow_refl v : logs_grow v v.
Proof. done. Qed.

Lemma logs_grow_trans v1 v2 v3 : logs_grow v1 v2 -> logs_grow v2 v3 -> logs_grow v1 v3.
Proof. intros (? & ? & ?) (? & ? & ?). split_and!; by etrans. Qed.

Lemma left_behind_mono v v' ev : logs_grow v v' -> left_behind v ev -> left_behind v' ev.
Proof.
  intros ([l Hl] & [l' Ht] & [l'' Hp]). destruct ev as [A e a]. destruct e; simpl; auto.
  - intros Hr Hok. destruct (Hr Hok) as (row & Hin & ?). exists row. rewrite Hl, elem_of_app. auto.
  - rewrite Hp, elem_of_app. auto.
  - rewrite Ht, elem_of_app. auto.
Qed.

Lemma columns_upserted v v' now subject ciphertext nonce :
  totp_secrets v' = partial_alter (upserted now ciphertext nonce) subject (totp_secrets v) ->
  columns v' = <[subject := (ciphertext, nonce)]> (columns v).
Proof.
  intros Hv. unfold columns. rewrite Hv. apply map_eq. intros x. rewrite lookup_fmap.
  destruct (decide (subject = x)) as [<-|Hne].
  - rewrite lookup_partial_alter_eq, lookup_insert_eq. reflexivity.
  - rewrite lookup_partial_alter_ne, lookup_insert_ne by done. by rewrite lookup_fmap.
Qed.

Lemma columns_touched v v' now subject :
  totp_secrets v' = alter (touched now) subject (totp_secrets v) -> columns v' = columns v.
Proof.
  intros Hv. unfold columns. rewrite Hv. apply map_eq. intros x. rewrite !lookup_fmap.
  destruct (decide (subject = x)) as [<-|Hne].
  - rewrite lookup_alter_eq. by destruct (totp_secrets v !! subject).
  - by rewrite lookup_alter_ne.
Qed.

Lemma attempt_world {A} (e : Eff A) t s a t1 s1 :
  attempt o e t s = Answers a t1 s1 ->
  columns (world s1) = after_event (columns (world s)) (Happened e a) /\
  logs_grow (world s) (world s1) /\ left_behind (world s1) (Happened e a).
Proof.
  intros Ha. unfold logs_grow.
  destruct e; cbn [attempt exec_eff] in Ha; unfold db in Ha; repeat case_match; simplify_eq/=;
    try (split_and!; try done; by eexists);
    unfold after_event; cbn [upsert_of applied took_effect];
    try match goal with H : took_effect _ = _ |- _ => rewrite ?H end;
    split_and!; try done; try (by eexists); try (by eapply columns_upserted);
    try (by eapply columns_touched); try set_solver;
    intros _; exists (mkLogRow id subject (clock o (tick (world s))) res); set_solver.
Qed.

(** The tables are what the recorded statements made of the initial ones, and
    nothing logged is ever lost. *)
Lemma reachable_world s :
  reachable o state w s ->
  columns (world s) = replay (columns w) (history s) /\ logs_grow w (world s) /\
  forall i ev, (i, ev) ∈ history s -> left_behind (world s) ev.
Proof.
  revert s. apply (reachable_inv o state w (fun s =>
    columns (world s) = replay (columns w) (history s) /\ logs_grow w (world s) /\
    forall i ev, (i, ev) ∈ history s -> left_behind (world s) ev)).
  { split_and!; [done|apply logs_grow_refl|]. intros i ev Hin. by apply elem_of_nil in Hin. }
  intros s0 s' _ (Hc & Hg & Hl) Hs.
  destruct (stepped_effect o state s0 s' Hs)
    as [(-> & governor & ->)|(i & t & A & e & k & a & t1 & s1 & _ & _ & _ & Ha & -> & ->)].
  - done.
  - destruct (attempt_world e t s0 a t1 s1 Ha) as (Hc1 & Hg1 & Hl1). split_and!.
    + by rewrite replay_snoc, Hc1, Hc.
    + by eapply logs_grow_trans.
    + intros j ev [Hin|Hin]%elem_of_app; [by eapply left_behind_mono, Hl|].
      apply list_elem_of_singleton in Hin. by injection Hin as -> ->.
Qed.

(** A read returns the row of the replayed table. *)
Lemma select_answer s h1 i subject r h2 :
  reachable o state w s ->
  history s = h1 ++ (i, Happened (SelectSecret subject) (Ok r)) :: h2 ->
  r = replay (columns w) h1 !! subject.
Proof.
  intros Hreach Hh.
  destruct (history_at s h1 i _ h2 Hreach Hh)
    as (s1 & t & t' & Hreach1 & Hh1 & _ & _ & _ & (t1 & s2 & Ha) & _).
  destruct (reachable_world s1 Hreach1) as (Hc & _). rewrite <-Hh1, <-Hc.
  cbn [attempt exec_eff] in Ha. unfold db in Ha.
  destruct (db_error o (tick (world s1))) as [[text []]|]; simplify_eq/=. unfold columns. by rewrite lookup_fmap.
Qed.
End History.
