(* ===== verification/Protocol.v ===== *)
(** * Protocols: in what order, and how often, a request performs its effects

    A protocol is a state machine over effects and answers; a program follows
    it from a state if it never performs an effect the machine refuses there,
    whatever the answers.  Two of them matter to the server: the discipline of
    the in-flight map (join once, leave exactly if the guard is held, never
    wait while holding it), and budgets (how often an effect may happen). *)

From S2P Require Import Prelude RustText Rfc6238 AppError Effects Config Crypto TotpGen.
From S2P Require Import SecretStore Introspection Middleware RateLimit Routes.
Local Open Scope nat_scope.

(** The successor state, depending on the answer; [None] refuses. *)
Definition Protocol (S : Type) : Type := forall A, Eff A -> S -> option (A -> S).

Section Follows.
Context {S : Type} (delta : Protocol S).

Fixpoint follows {T} (st : S) (p : Prog T) (Q : S -> T -> Prop) : Prop :=
  match p with
  | Ret v => Q st v
  | Do e k =>
      match delta _ e st with
      | Some next => forall a, follows (next a) (k a) Q
      | None => False
      end
  end.

Lemma follows_bind {T U} (p : Prog T) (f : T -> Prog U) st Q :
  follows st (p ≫= f) Q <-> follows st p (fun st' v => follows st' (f v) Q).
Proof.
  revert st. induction p as [v|A e k IH]; intros st; [done|]. simpl.
  destruct (delta A e st); [|done]. split; intros Hk a; by apply IH, Hk.
Qed.

Lemma follows_mono {T} (p : Prog T) st (Q Q' : S -> T -> Prop) :
  (forall st' v, Q st' v -> Q' st' v) -> follows st p Q -> follows st p Q'.
Proof.
  intros HQ. revert st. induction p as [v|A e k IH]; intros st; simpl; [apply HQ|].
  destruct (delta A e st); [|done]. intros Hk a. by apply IH, Hk.
Qed.

Lemma follows_try_bind {T U} (p : ProgR T) (f : T -> ProgR U) st Q :
  follows st p (fun st' r => match r with
                             | Ok v => follows st' (f v) Q
                             | Err e => Q st' (Err e)
                             end) ->
  follows st (try_bind p f) Q.
Proof.
  intros Hp. unfold try_bind. rewrite follows_bind. eapply follows_mono; [|exact Hp].
  by intros ? [].
Qed.
End Follows.

(** ** The in-flight map *)

(** The state is the key of the guard that is held. *)
Definition flight : Protocol (option (list Z)) := fun A e g =>
  match e in Eff A return option (A -> option (list Z)) with
  | JoinInflight key =>
      if decide (g = None)
      then Some (fun follower => match follower with Some _ => None | None => Some key end)
      else None
  | SendInflight key _ => if decide (g = Some key) then Some (fun _ => g) else None
  | LeaveInflight key => if decide (g = Some key) then Some (fun _ => None) else None
  | Receive _ => if decide (g = None) then Some (fun _ => g) else None
  | _ => Some (fun _ => g)
  end.

(** ** Budgets *)

(** [sel] says which effects count; the state is how many more may happen. *)
Definition budget (sel : forall A, Eff A -> bool) : Protocol nat := fun A e n =>
  if sel A e then match n with 0 => None | S n => Some (fun _ => n) end
  else Some (fun _ => n).

Definition any_effect (A : Type) (e : Eff A) : bool := true.
Definition is_post (A : Type) (e : Eff A) : bool :=
  match e with SendPost _ => true | _ => false end.
Definition is_upsert (A : Type) (e : Eff A) : bool :=
  match e with UpsertSecret _ _ _ => true | _ => false end.
Definition is_select (A : Type) (e : Eff A) : bool :=
  match e with SelectSecret _ => true | _ => false end.

(** A larger budget is followed as well, and keeps what it has more. *)
Lemma budget_more sel {T} (p : Prog T) n m (Q : nat -> T -> Prop) :
  follows (budget sel) n p Q ->
  follows (budget sel) (m + n) p (fun n' v => exists n0, n' = m + n0 /\ Q n0 v).
Proof.
  revert n. induction p as [v|A e k IH]; intros n; simpl; [by exists n|].
  unfold budget. destruct (sel A e).
  - destruct n as [|n]; [done|]. replace (m + S n) with (S (m + n)) by lia.
    intros Hk a. by apply IH, Hk.
  - intros Hk a. by apply IH, Hk.
Qed.

(** ** The routes follow them *)

(** Symbolic execution: every answer, every branch. *)
Ltac follows_go :=
  repeat first
    [ progress simpl
    | match goal with |- forall _ : Empty_set, _ => intros [] end
    | match goal with |- forall _ : _, _ => intros ? end
    | rewrite decide_True by done
    | case_match ];
  try done; try (simpl; lia).

Section Routes.
Context `{!HeaderText, !Sha256, !StatusText, !Aead, !TotpRs, !LibraryReplies}.
Context (state : AppState).

Lemma flight_call self token g :
  follows flight g (call self token) (fun g' _ => g' = g).
Proof. unfold call, evaluate. follows_go. Qed.

Lemma flight_authenticate self token :
  follows flight None (authenticate self token) (fun g' _ => g' = None).
Proof.
  unfold authenticate. rewrite follows_bind. unfold introspect. rewrite follows_bind.
  cbn [perform follows flight]. rewrite decide_True by done. intros [rx|].
  - rewrite follows_bind. cbn [perform follows flight]. rewrite decide_True by done.
    intros [outcome|err]; [done|]. eapply follows_mono; [|apply flight_call]. by intros g' v ->.
  - rewrite follows_bind. eapply follows_mono; [|apply flight_call]. intros g' v ->.
    simpl. rewrite !decide_True by done. by intros _ _.
Qed.

Lemma flight_handler route request :
  follows flight None (handler state route request) (fun g _ => g = None).
Proof.
  unfold handler. destruct (extension request) as [user|]; [|done].
  destruct route; [|destruct (json request); [|done]]; rewrite follows_bind.
  - unfold request_pin, respond, json_ok. follows_go.
  - unfold provision, respond, json_ok. follows_go.
Qed.

(** A request enters and leaves the in-flight map by the rules, and holds no
    guard at its end. *)
Lemma flight_protected route request :
  follows flight None (protected state route request) (fun g _ => g = None).
Proof.
  unfold protected, respond, require_authentication. rewrite follows_bind.
  destruct (bearer_token request) as [token|]; [|follows_go].
  rewrite follows_bind. eapply follows_mono; [|apply flight_authenticate].
  intros g [user|e] ->; [|follows_go]. rewrite !follows_bind. cbn [perform follows flight].
  intros _. rewrite follows_bind. unfold audit_rate_limited. rewrite follows_bind.
  unfold governor_layer, extract. cbn [extension with_user fmap option_fmap option_map ok_or].
  rewrite follows_bind. cbn [perform follows flight]. intros [].
  - eapply follows_mono; [|apply flight_handler]. intros g v ->. follows_go.
  - follows_go.
Qed.

(** ** How much a request may do *)

Lemma budget_authenticate self token :
  follows (budget any_effect) 5 (authenticate self token) (fun _ _ => True) /\
  follows (budget is_post) 1 (authenticate self token) (fun _ _ => True) /\
  follows (budget is_upsert) 0 (authenticate self token) (fun _ _ => True) /\
  follows (budget is_select) 0 (authenticate self token) (fun _ _ => True).
Proof. unfold authenticate, introspect, call, evaluate. split_and!; follows_go. Qed.

Lemma budget_handler route request :
  follows (budget any_effect) 8 (handler state route request) (fun _ _ => True) /\
  follows (budget is_post) 0 (handler state route request) (fun _ _ => True) /\
  follows (budget is_upsert) 1 (handler state route request) (fun _ _ => True) /\
  follows (budget is_select) 1 (handler state route request) (fun _ _ => True).
Proof.
  unfold handler, request_pin, provision, respond, json_ok. split_and!; follows_go.
Qed.

(** Through the layers: [m] is left over by authentication, and [m'] of that
    by the handler, whose own budget is [h]. *)
Ltac through_stack m Hauth m' h Hhandler :=
  unfold protected, respond, require_authentication; rewrite follows_bind;
  destruct (bearer_token _) as [token|]; [|follows_go];
  rewrite follows_bind; eapply follows_mono; [|eapply (budget_more _ _ _ m), Hauth];
  intros n [user|e] (n0 & -> & _); [|follows_go];
  rewrite !follows_bind; cbn [perform follows]; simpl (budget _ _ _ _); intros _;
  rewrite follows_bind; unfold audit_rate_limited; rewrite follows_bind;
  unfold governor_layer, extract;
  cbn [extension with_user fmap option_fmap option_map ok_or];
  rewrite follows_bind; cbn [perform follows]; simpl (budget _ _ _ _); intros [];
  [ match goal with |- follows _ ?st _ _ => replace st with ((m' + n0) + h) by lia end;
    eapply follows_mono; [|eapply (budget_more _ _ _ (m' + n0)), Hhandler];
    intros n' response (n1 & -> & _); follows_go
  | follows_go ].

(** At most twenty effects, one question to Keycloak, and one write to the
    secrets table and one read of it. *)
Lemma budget_protected route request :
  follows (budget any_effect) 20 (protected state route request) (fun _ _ => True) /\
  follows (budget is_post) 1 (protected state route request) (fun _ _ => True) /\
  follows (budget is_upsert) 1 (protected state route request) (fun _ _ => True) /\
  follows (budget is_select) 1 (protected state route request) (fun _ _ => True).
Proof.
  pose proof (fun token => budget_authenticate (introspection state) token) as Ha.
  pose proof (fun request => budget_handler route request) as Hh.
  split_and!.
  - through_stack 15 (fun token => proj1 (Ha token)) 5 8 (fun request => proj1 (Hh request)).
  - through_stack 0 (fun token => proj1 (proj2 (Ha token))) 0 0
      (fun request => proj1 (proj2 (Hh request))).
  - through_stack 1 (fun token => proj1 (proj2 (proj2 (Ha token)))) 0 1
      (fun request => proj1 (proj2 (proj2 (Hh request)))).
  - through_stack 1 (fun token => proj2 (proj2 (proj2 (Ha token)))) 0 1
      (fun request => proj2 (proj2 (proj2 (Hh request)))).
Qed.
End Routes.
