(* ===== verification/Flights.v ===== *)
(** * The in-flight map of a running server

    The invariant of channels, subscriptions and guards over any interleaving
    and cancellation: a channel is open exactly while one live task holds its
    guard, every message in a mailbox was sent for the key its receiver
    subscribed to, and so no task waits for a message that cannot come. *)

From S2P Require Import Prelude RustText Rfc6238 AppError Effects Config Crypto TotpGen.
From S2P Require Import SecretStore Introspection Middleware RateLimit Routes Provenance.
From S2P Require Import Protocol Pool History.
Local Open Scope nat_scope.

Notation Channels := (gmap (list Z) Receiver).
Notation Recorded := (list (nat * Event)).

(** A mailbox belongs to a subscription, and its message to the key that was
    subscribed to. *)
Definition mail_ok (ch : Channels) (n : Receiver) (h : Recorded) (i : nat) (t : Task) : Prop :=
  forall rx message, mailbox t = Some (rx, message) ->
    exists key, heard h i _ (JoinInflight key) (Some rx) /\ rx < n /\
      (forall key', ch !! key' = Some rx -> key' = key) /\
      (forall outcome, message = Some outcome ->
         exists leader, heard h leader _ (SendInflight key outcome) tt).

(** A live task follows the discipline from the guard it holds; a dropped one
    holds none. *)
Definition guard_ok (t : Task) : Prop :=
  if dropped t then guard t = None
  else follows flight (guard t) (rest t) (fun g _ => g = None).

Record flights_ok (ch : Channels) (n : Receiver) (ts : list Task) (h : Recorded) : Prop := {
  fl_fresh key chan : ch !! key = Some chan -> chan < n;
  fl_inj key key' chan : ch !! key = Some chan -> ch !! key' = Some chan -> key = key';
  fl_mail i t : ts !! i = Some t -> mail_ok ch n h i t;
  fl_guard i t : ts !! i = Some t -> guard_ok t;
  fl_held i t key : ts !! i = Some t -> guard t = Some key -> is_Some (ch !! key);
  fl_holder key : is_Some (ch !! key) -> exists i t, ts !! i = Some t /\ guard t = Some key;
  fl_unique i j t t' key : ts !! i = Some t -> ts !! j = Some t' ->
    guard t = Some key -> guard t' = Some key -> i = j
}.

(** No channel gains a key except a new one. *)
Definition extends (ch : Channels) (n : Receiver) (h : Recorded)
    (ch' : Channels) (n' : Receiver) (h' : Recorded) : Prop :=
  n <= n' /\ h ⊆ h' /\
  forall key rx, rx < n -> ch' !! key = Some rx -> ch !! key = Some rx.

Lemma mail_ok_extends ch n h ch' n' h' i t :
  extends ch n h ch' n' h' -> mail_ok ch n h i t -> mail_ok ch' n' h' i t.
Proof.
  intros (Hn & Hh & Hch) Hm rx message Hbox.
  destruct (Hm rx message Hbox) as (key & Hj & Hlt & Hkey & Hsent).
  exists key. split_and!; [by apply Hh|lia|auto|].
  intros outcome Ho. destruct (Hsent outcome Ho) as [l Hl]. exists l. by apply Hh.
Qed.

Lemma extends_history ch n h h' : h ⊆ h' -> extends ch n h ch n h'.
Proof. by intros Hh. Qed.

(** One task, its guard and the map change together. *)
Lemma flights_update ch n ts h ch' n' h' i t t' :
  flights_ok ch n ts h -> ts !! i = Some t ->
  extends ch n h ch' n' h' ->
  (forall key chan, ch' !! key = Some chan -> chan < n') ->
  (forall key key' chan, ch' !! key = Some chan -> ch' !! key' = Some chan -> key = key') ->
  mail_ok ch' n' h' i t' -> guard_ok t' ->
  (forall key, is_Some (ch' !! key) <->
     guard t' = Some key \/ is_Some (ch !! key) /\ guard t <> Some key) ->
  (forall key, guard t' = Some key -> guard t = Some key \/ ch !! key = None) ->
  flights_ok ch' n' (<[i := t']> ts) h'.
Proof.
  intros Hok Hi Hext Hfresh Hinj Hmail Hguard Hdom Hnew.
  assert (Hlen : i < length ts) by by eapply lookup_lt_Some.
  assert (Hcases : forall j x, <[i := t']> ts !! j = Some x ->
            j = i /\ x = t' \/ j <> i /\ ts !! j = Some x).
  { intros j x [(-> & <- & _)|[Hne Hj]]%list_lookup_insert_Some; auto. }
  split.
  - done.
  - done.
  - intros j x [[-> ->]|[_ Hj]]%Hcases; [done|].
    eapply mail_ok_extends; [done|]. by apply (fl_mail _ _ _ _ Hok).
  - intros j x [[-> ->]|[_ Hj]]%Hcases; [done|]. by apply (fl_guard _ _ _ _ Hok j).
  - intros j x key [[-> ->]|[Hne Hj]]%Hcases Hg; apply Hdom; [by left|right].
    split; [by apply (fl_held _ _ _ _ Hok j x)|]. intros Hg'. apply Hne.
    by apply (fl_unique _ _ _ _ Hok j i x t key).
  - intros key [Hg|[Hs Hg]]%Hdom.
    + exists i, t'. by rewrite list_lookup_insert_eq.
    + destruct (fl_holder _ _ _ _ Hok key Hs) as (j & x & Hj & Hgx). exists j, x.
      rewrite list_lookup_insert_ne; [done|]. intros ->. congruence.
  - assert (Hmine : forall j x key, j <> i -> ts !! j = Some x -> guard x = Some key ->
              guard t' = Some key -> False).
    { intros j x key Hne Hj Hg [Hg'|Hno]%Hnew.
      - apply Hne. by apply (fl_unique _ _ _ _ Hok j i x t key).
      - destruct (fl_held _ _ _ _ Hok j x key Hj Hg) as [c Hc]. congruence. }
    intros j j' x x' key [[-> ->]|[Hne Hj]]%Hcases [[-> ->]|[Hne' Hj']]%Hcases Hg Hg'.
    + done.
    + by destruct (Hmine j' x' key).
    + by destruct (Hmine j x key).
    + by apply (fl_unique _ _ _ _ Hok j j' x x' key).
Qed.

(** A task goes on without touching the map. *)
Lemma flights_move ch n ts h h' i t t' :
  flights_ok ch n ts h -> ts !! i = Some t -> h ⊆ h' -> guard t' = guard t ->
  mail_ok ch n h' i t' -> guard_ok t' -> flights_ok ch n (<[i := t']> ts) h'.
Proof.
  intros Hok Hi Hh Hg Hm Hgo. eapply flights_update; try done; [apply Hok..| |rewrite Hg; auto].
  intros key. rewrite Hg. split; [|intros [Hk|[Hs _]]; [by apply (fl_held _ _ _ _ Hok i t)|done]].
  intros Hs. destruct (decide (guard t = Some key)); auto.
Qed.

(** A guard is dropped, and its entry with it. *)
Lemma flights_release ch n ts h h' i t t' key :
  flights_ok ch n ts h -> ts !! i = Some t -> h ⊆ h' -> guard t = Some key ->
  guard t' = None -> mail_ok ch n h' i t' -> guard_ok t' ->
  flights_ok (delete key ch) n (<[i := t']> ts) h'.
Proof.
  intros Hok Hi Hh Hg Hg' Hm Hgo.
  assert (Hdel : forall key' c, delete key ch !! key' = Some c -> key <> key' /\ ch !! key' = Some c).
  { intros key' c Hc. by apply lookup_delete_Some in Hc. }
  assert (Hext : extends ch n h' (delete key ch) n h').
  { split_and!; [done..|]. intros key' rx _ [_ Hc]%Hdel. done. }
  eapply flights_update; try done.
  - split_and!; [done..|]. intros key' rx _ [_ Hc]%Hdel. done.
  - intros key' c [_ Hc]%Hdel. by apply (fl_fresh _ _ _ _ Hok key').
  - intros k k' c [_ Hk]%Hdel [_ Hk']%Hdel. by apply (fl_inj _ _ _ _ Hok k k' c).
  - by eapply (mail_ok_extends ch n h').
  - intros key'. rewrite Hg'. split.
    + intros [c [Hne Hc]%Hdel]. right. split; [by exists c|]. congruence.
    + intros [|[[c Hc] Hne]]; [done|]. exists c. apply lookup_delete_Some. split; congruence.
  - intros key'. by rewrite Hg'.
Qed.

(** A key without an entry gets a channel and a guard. *)
Lemma flights_lead ch n ts h h' i t t' key :
  flights_ok ch n ts h -> ts !! i = Some t -> h ⊆ h' -> guard t = None ->
  ch !! key = None -> guard t' = Some key -> mail_ok ch n h' i t' -> guard_ok t' ->
  flights_ok (<[key := n]> ch) (S n) (<[i := t']> ts) h'.
Proof.
  intros Hok Hi Hh Hg Hno Hg' Hm Hgo.
  assert (Hext : forall h0, h0 ⊆ h' -> extends ch n h0 (<[key := n]> ch) (S n) h').
  { intros h0 Hh0. split_and!; [lia|done|].
    intros key' rx Hlt [[_ <-]|[_ Hc]]%lookup_insert_Some; [lia|done]. }
  eapply flights_update; try done.
  - by apply Hext.
  - intros key' c [[_ <-]|[_ Hc]]%lookup_insert_Some; [lia|].
    apply (fl_fresh _ _ _ _ Hok) in Hc. lia.
  - intros k k' c [[<- <-]|[_ Hk]]%lookup_insert_Some [[<- Hc]|[_ Hk']]%lookup_insert_Some;
      try done; subst.
    + apply (fl_fresh _ _ _ _ Hok) in Hk'. lia.
    + apply (fl_fresh _ _ _ _ Hok) in Hk. lia.
    + by apply (fl_inj _ _ _ _ Hok k k' c).
  - eapply (mail_ok_extends ch n h'); [by apply Hext|done].
  - intros key'. rewrite Hg, Hg', lookup_insert_is_Some. split.
    + intros [->|[_ Hs]]; auto.
    + intros [[= ->]|[Hs _]]; [by left|]. destruct (decide (key = key')); auto.
  - intros key'. rewrite Hg'. intros [= <-]. by right.
Qed.

(** A message to everyone subscribed. *)
Lemma flights_deliver ch n ts h key chan outcome leader :
  flights_ok ch n ts h -> ch !! key = Some chan ->
  heard h leader _ (SendInflight key outcome) tt ->
  flights_ok ch n (deliver_to chan outcome <$> ts) h.
Proof.
  intros Hok Hk Hsent.
  assert (Hcases : forall j x, (deliver_to chan outcome <$> ts) !! j = Some x ->
            exists x0, ts !! j = Some x0 /\ x = deliver_to chan outcome x0).
  { intros j x. rewrite list_lookup_fmap. intros (x0 & Hj & ->)%fmap_Some. eauto. }
  split; try apply Hok.
  - intros j x (x0 & Hj & ->)%Hcases. pose proof (fl_mail _ _ _ _ Hok j x0 Hj) as Hm.
    unfold deliver_to. destruct (mailbox x0) as [[rx [m|]]|] eqn:Hbox; try done.
    case_decide as Hrx; [|done]. subst rx. intros rx m [= <- <-].
    destruct (Hm chan None Hbox) as (key' & Hj' & Hlt & Hkey & _).
    exists key'. split_and!; [done..|]. intros o [= <-]. exists leader.
    by rewrite <-(Hkey key Hk).
  - intros j x (x0 & Hj & ->)%Hcases. pose proof (fl_guard _ _ _ _ Hok j x0 Hj) as Hg.
    destruct (deliver_to_work chan outcome x0) as ((_ & _ & Hr & Hd) & Hg').
    unfold guard_ok in *. by rewrite Hr, Hd, Hg'.
  - intros j x k (x0 & Hj & ->)%Hcases.
    destruct (deliver_to_work chan outcome x0) as (_ & ->). by apply (fl_held _ _ _ _ Hok j).
  - intros k Hs. destruct (fl_holder _ _ _ _ Hok k Hs) as (j & x & Hj & Hg).
    exists j, (deliver_to chan outcome x). rewrite list_lookup_fmap, Hj. split; [done|].
    by destruct (deliver_to_work chan outcome x) as (_ & ->).
  - intros j j' x x' k (x0 & Hj & ->)%Hcases (x0' & Hj' & ->)%Hcases.
    destruct (deliver_to_work chan outcome x0) as (_ & ->).
    destruct (deliver_to_work chan outcome x0') as (_ & ->).
    by apply (fl_unique _ _ _ _ Hok j j' x0 x0' k).
Qed.

(** A request arrives. *)
Lemma flights_arrive ch n ts h t :
  flights_ok ch n ts h -> mailbox t = None -> guard t = None -> guard_ok t ->
  flights_ok ch n (ts ++ [t]) h.
Proof.
  intros Hok Hm Hg Hgo.
  assert (Hcases : forall j x, (ts ++ [t]) !! j = Some x -> ts !! j = Some x \/ x = t).
  { intros j x [[_ Hj]|[_ ->]]%lookup_snoc_Some; auto. }
  split; try apply Hok.
  - intros j x [Hj| ->]%Hcases; [by apply (fl_mail _ _ _ _ Hok)|]. intros rx m. by rewrite Hm.
  - intros j x [Hj| ->]%Hcases; [by apply (fl_guard _ _ _ _ Hok j)|done].
  - intros j x k [Hj| ->]%Hcases; [by apply (fl_held _ _ _ _ Hok j)|]. by rewrite Hg.
  - intros k Hs. destruct (fl_holder _ _ _ _ Hok k Hs) as (j & x & Hj & Hgx).
    exists j, x. split; [|done]. by apply lookup_app_l_Some.
  - intros j j' x x' k Hj Hj' Hgx Hgx'.
    apply lookup_snoc_Some in Hj as [[_ Hj]|[_ <-]]; [|congruence].
    apply lookup_snoc_Some in Hj' as [[_ Hj']|[_ <-]]; [|congruence].
    by apply (fl_unique _ _ _ _ Hok j j' x x' k).
Qed.

(** The process is started again: no channels, no futures, no guards. *)
Lemma flights_restart ch n ts h :
  flights_ok ch n ts h -> flights_ok ∅ n (gone <$> ts) h.
Proof.
  intros Hok.
  assert (Hcases : forall j x, (gone <$> ts) !! j = Some x -> exists x0, ts !! j = Some x0 /\ x = gone x0).
  { intros j x. rewrite list_lookup_fmap. intros (x0 & Hj & ->)%fmap_Some. eauto. }
  split.
  - intros key chan. by rewrite lookup_empty.
  - intros key key' chan. by rewrite lookup_empty.
  - intros j x (x0 & Hj & ->)%Hcases. apply (mail_ok_extends ch n h _ _ _ _ x0).
    { split_and!; [done..|]. intros key rx _. by rewrite lookup_empty. }
    by apply (fl_mail _ _ _ _ Hok).
  - by intros j x (x0 & _ & ->)%Hcases.
  - by intros j x key (x0 & _ & ->)%Hcases.
  - intros key. rewrite lookup_empty. by intros [].
  - by intros i j x x' key (x0 & _ & ->)%Hcases.
Qed.

Section Reachable.
Context `{!HeaderText, !Sha256, !StatusText, !Aead, !TotpRs, !LibraryReplies}.
Context {L : Type} `{!Governor L, !GovernorBuilder L} (o : Oracle) (state : AppState).
Implicit Types s : Server L.

Definition server_ok s : Prop :=
  flights_ok (channels s) (next_channel s) (requests s) (history s).

Lemma recorded_subset (h : Recorded) x : h ⊆ h ++ [x].
Proof. intros y Hy. apply elem_of_app. by left. Qed.

Lemma mail_ok_keep ch n h h' i t t' :
  h ⊆ h' -> mailbox t' = mailbox t -> mail_ok ch n h i t -> mail_ok ch n h' i t'.
Proof.
  intros Hh Hbox Hm. assert (Hm' : mail_ok ch n h' i t) by (eapply mail_ok_extends; [|done]; done).
  intros rx m. rewrite Hbox. apply Hm'.
Qed.

(** The history after an effect of task [i]. *)
Notation after h i e a := (h ++ [(i, Happened e a)]).

(** A task goes on, with the map as it was. *)
Lemma moves_ok {A} (e : Eff A) a p box s i t :
  server_ok s -> requests s !! i = Some t -> dropped t = false ->
  mail_ok (channels s) (next_channel s) (after (history s) i e a) i (with_rest p (with_mailbox box t)) ->
  follows flight (guard t) p (fun g _ => g = None) ->
  flights_ok (channels s) (next_channel s)
    (<[i := with_rest p (with_mailbox box t)]> (requests s)) (after (history s) i e a).
Proof.
  intros Hok Hi Hd Hbox Hp. eapply flights_move; [done..|apply recorded_subset|done|done|].
  unfold guard_ok. cbn [dropped with_rest with_mailbox guard rest]. by rewrite Hd.
Qed.

(** Its mailbox as it was, too. *)
Lemma quiet_ok {A} (e : Eff A) a p s i t :
  server_ok s -> requests s !! i = Some t -> dropped t = false ->
  follows flight (guard t) p (fun g _ => g = None) ->
  flights_ok (channels s) (next_channel s)
    (<[i := with_rest p t]> (requests s)) (after (history s) i e a).
Proof.
  intros Hok Hi Hd Hp. pose proof (fl_mail _ _ _ _ Hok i t Hi) as Hm.
  destruct t as [ro re q box gd dr]. apply (moves_ok e a p box s i _ Hok Hi Hd); [|done].
  eapply mail_ok_keep; [apply recorded_subset|done|exact Hm].
Qed.

Lemma join_ok key a k s i t t1 s1 :
  server_ok s -> requests s !! i = Some t -> dropped t = false -> guard t = None ->
  (forall a, follows flight (match a with Some _ => None | None => Some key end) (k a)
     (fun g (_ : Response) => g = None)) ->
  attempt o (JoinInflight key) t s = Answers a t1 s1 ->
  server_ok (record_event i (Happened (JoinInflight key) a) (set_task i (with_rest (k a) t1) s1)).
Proof.
  intros Hok Hi Hd Hnone Hk Ha. cbn [attempt] in Ha.
  pose proof (fl_mail _ _ _ _ Hok i t Hi) as Hm.
  destruct (channels s !! key) as [rx|] eqn:Hkey; injection Ha as <- <- <-.
  - apply (moves_ok (JoinInflight key) (Some rx) (k (Some rx)) (Some (rx, None)) s i t);
      try done; [|rewrite Hnone; apply (Hk (Some rx))]. intros rx' m [= <- <-].
    exists key. split_and!; [unfold heard; set_solver| |intros key' Hk'|done].
    + by apply (fl_fresh _ _ _ _ Hok key).
    + by apply (fl_inj _ _ _ _ Hok key' key rx).
  - eapply flights_lead; try done; [apply recorded_subset| |].
    + eapply mail_ok_keep; [apply recorded_subset|done|exact Hm].
    + unfold guard_ok. cbn [dropped with_rest with_guard guard rest]. rewrite Hd. apply (Hk None).
Qed.

Lemma receive_ok rx a k s i t t1 s1 :
  server_ok s -> requests s !! i = Some t -> dropped t = false ->
  (forall a, follows flight (guard t) (k a) (fun g (_ : Response) => g = None)) ->
  attempt o (Receive rx) t s = Answers a t1 s1 ->
  server_ok (record_event i (Happened (Receive rx) a) (set_task i (with_rest (k a) t1) s1)).
Proof.
  intros Hok Hi Hd Hk Ha. cbn [attempt] in Ha.
  destruct (mail rx t) as [outcome|] eqn:Hmail; [|case_decide; [|done]; injection Ha as <- <- <-; exact (quiet_ok _ _ _ s i t Hok Hi Hd (Hk _))].
  injection Ha as <- <- <-.
  apply (moves_ok (Receive rx) (Ok outcome) (k (Ok outcome)) (Some (rx, None)) s i t); try done.
  unfold mail in Hmail.
  destruct (mailbox t) as [[rx' m]|] eqn:Hbox; [|done]. case_decide; [|done]. subst rx'.
  intros rx' m' [= <- <-].
  destruct (fl_mail _ _ _ _ Hok i t Hi rx m Hbox) as (key & Hj & Hlt & Hkey & _).
  exists key. split_and!; [by apply recorded_subset|done..].
Qed.

Lemma send_ok key outcome a k s i t t1 s1 :
  server_ok s -> requests s !! i = Some t -> dropped t = false ->
  (forall a, follows flight (guard t) (k a) (fun g (_ : Response) => g = None)) ->
  attempt o (SendInflight key outcome) t s = Answers a t1 s1 ->
  server_ok (record_event i (Happened (SendInflight key outcome) a)
               (set_task i (with_rest (k a) t1) s1)).
Proof.
  intros Hok Hi Hd Hk Ha. cbn [attempt] in Ha. injection Ha as <- <- <-.
  destruct (channels s !! key) as [chan|] eqn:Hkey; [|exact (quiet_ok _ _ _ s i t Hok Hi Hd (Hk _))].
  set (h' := after (history s) i (SendInflight key outcome) ()).
  assert (Hh : history s ⊆ h') by apply recorded_subset.
  assert (Hok' : flights_ok (channels s) (next_channel s) (requests s) h').
  { destruct Hok. split; try done. intros j x Hj. eapply mail_ok_keep; [done..|]. by eauto. }
  apply (flights_deliver _ _ _ _ key chan outcome i) in Hok'; [|done|subst h'; unfold heard; set_solver].
  destruct (deliver_to_work chan outcome t) as [_ Hgt].
  eapply flights_move; [done| |done|by rewrite Hgt| |].
  - cbn [deliver with_requests requests]. by rewrite list_lookup_fmap, Hi.
  - eapply (mail_ok_keep _ _ (history s) _ _ t); [exact Hh|done|]. by apply (fl_mail _ _ _ _ Hok).
  - unfold guard_ok. cbn [dropped with_rest guard rest]. rewrite Hd. apply (Hk tt).
Qed.

Lemma leave_ok key a k s i t t1 s1 :
  server_ok s -> requests s !! i = Some t -> dropped t = false -> guard t = Some key ->
  (forall a, follows flight None (k a) (fun g (_ : Response) => g = None)) ->
  attempt o (LeaveInflight key) t s = Answers a t1 s1 ->
  server_ok (record_event i (Happened (LeaveInflight key) a) (set_task i (with_rest (k a) t1) s1)).
Proof.
  intros Hok Hi Hd Hheld Hk Ha. cbn [attempt] in Ha. injection Ha as <- <- <-.
  eapply flights_release; try done; [apply recorded_subset| |].
  - eapply (mail_ok_keep _ _ (history s) _ _ t); [apply recorded_subset|done|]. by apply (fl_mail _ _ _ _ Hok).
  - unfold guard_ok. cbn [dropped with_rest with_guard guard rest]. rewrite Hd. apply (Hk tt).
Qed.

Lemma attempt_ok {A} (e : Eff A) k s i t a t1 s1 :
  server_ok s -> requests s !! i = Some t -> dropped t = false -> rest t = Do e k ->
  attempt o e t s = Answers a t1 s1 ->
  server_ok (record_event i (Happened e a) (set_task i (with_rest (k a) t1) s1)).
Proof.
  intros Hok Hi Hd Hr Ha.
  pose proof (fl_guard _ _ _ _ Hok i t Hi) as Hg. unfold guard_ok in Hg.
  rewrite Hd, Hr in Hg. cbn [follows] in Hg.
  destruct e; cbn [flight] in Hg;
    try (cbn [attempt exec_eff] in Ha; unfold db in Ha; repeat case_match; try done;
         injection Ha as <- <- <-; exact (quiet_ok _ _ _ s i t Hok Hi Hd (Hg _))).
  - case_decide; [|done]. by eapply join_ok.
  - case_decide; [|done]. by eapply receive_ok.
  - case_decide; [|done]. by eapply send_ok.
  - case_decide; [|done]. by eapply leave_ok.
Qed.

Lemma drop_flights ch n ts h i t t' :
  flights_ok ch n ts h -> ts !! i = Some t ->
  dropped t' = true -> guard t' = None -> mailbox t' = mailbox t ->
  flights_ok (match guard t with Some key => delete key ch | None => ch end) n
    (<[i := t']> ts) h.
Proof.
  intros Hok Hi Hd Hg Hbox.
  assert (Hgo : guard_ok t') by (unfold guard_ok; by rewrite Hd).
  assert (Hm : mail_ok ch n h i t').
  { eapply mail_ok_keep; [done..|]. by apply (fl_mail _ _ _ _ Hok). }
  destruct (guard t) as [key|] eqn:Hgt.
  - by eapply flights_release.
  - eapply flights_move; try done. by rewrite Hg.
Qed.

Lemma stepped_ok w s s' :
  reachable o state w s -> server_ok s -> stepped o state s s' -> server_ok s'.
Proof.
  intros _ Hok Hs.
  destruct Hs as [route request|i t A e k Hi Hd Hr|i t A e k a t1 s1 s2 Hi Hd Hr Ha Hs2|governor Hg].
  - apply flights_arrive; try done. apply flight_protected.
  - pose proof (drop_flights _ _ _ _ i t (gone t) Hok Hi eq_refl eq_refl eq_refl) as Hdrop.
    unfold server_ok, drop_task. by destruct (guard t).
  - pose proof (attempt_ok e k s i t a t1 s1 Hok Hi Hd Hr Ha) as Hok2.
    destruct Hs2 as [-> | ->]; [exact Hok2|].
    unfold server_ok in Hok2. cbn in Hok2.
    destruct (attempt_frame o e t s a t1 s1 Ha) as (_ & _ & Hlen & _).
    eapply (drop_flights _ _ _ _ i (with_rest (k a) t1) (gone t1)) in Hok2; try done.
    2: { apply list_lookup_insert_eq. rewrite Hlen. by eapply lookup_lt_Some. }
    rewrite list_insert_insert_eq in Hok2. unfold server_ok, drop_task.
    cbn [with_rest guard] in Hok2. by destruct (guard t1).
  - by eapply flights_restart.
Qed.

Lemma reachable_server_ok w s : reachable o state w s -> server_ok s.
Proof.
  revert s. apply (reachable_inv o state w server_ok).
  - split; try done. intros key. cbn [channels started]. rewrite lookup_empty. by intros [].
  - apply stepped_ok.
Qed.

(** ** Messages come from the leader of the same key *)

Lemma receive_answer w s h1 i rx outcome h2 :
  reachable o state w s ->
  history s = h1 ++ (i, Happened (Receive rx) (Ok outcome)) :: h2 ->
  exists key leader,
    heard h1 i _ (JoinInflight key) (Some rx) /\
    heard h1 leader _ (SendInflight key outcome) tt.
Proof.
  intros Hreach Hh.
  destruct (history_at o state w s h1 i _ h2 Hreach Hh)
    as (s1 & t & t' & Hreach1 & <- & Hi & _ & _ & (t1 & s2 & Ha) & _).
  pose proof (fl_mail _ _ _ _ (reachable_server_ok w s1 Hreach1) i t Hi) as Hm.
  cbn [attempt] in Ha. unfold mail in Ha.
  destruct (mailbox t) as [[rx' m]|] eqn:Hbox; [|by case_decide].
  case_decide as Hrx; [|by case_decide]. subst rx'.
  destruct m as [outcome'|]; [|by case_decide]. simplify_eq.
  destruct (Hm rx (Some outcome) Hbox) as (key & Hj & _ & _ & Hsent).
  destruct (Hsent outcome eq_refl) as [leader Hl]. by exists key, leader.
Qed.

(** ** Someone can always go on *)

Lemma attempt_not_blocked {A} (e : Eff A) k t s g Q :
  follows flight (Some g) (Do e k : Prog Response) Q -> attempt o e t s <> Blocked.
Proof.
  destruct e; cbn [follows flight attempt]; intros Hf; try (repeat case_match; done).
Qed.

Lemma advance_possible w s i t :
  reachable o state w s -> requests s !! i = Some t -> dropped t = false ->
  (forall response, rest t <> Ret response) ->
  exists j s', pool_step o state s (Advance j) = Some s'.
Proof.
  intros Hreach Hi Hd Hrest. pose proof (reachable_server_ok w s Hreach) as Hok.
  assert (Hgo : forall j x A (e : Eff A) k, requests s !! j = Some x -> dropped x = false ->
    rest x = Do e k -> attempt o e x s <> Blocked ->
    exists j s', pool_step o state s (Advance j) = Some s').
  { intros j x A e k Hj Hdx Hr Hnb. exists j. simpl. rewrite Hj. simpl. rewrite Hdx, Hr.
    destruct (attempt o e x s); [done|by eexists..]. }
  destruct (rest t) as [response|A e k] eqn:Hr; [by destruct (Hrest response)|].
  destruct (attempt o e t s) eqn:Ha; [|by eapply Hgo; rewrite ?Ha..].
  (* A blocked task waits on an open channel, whose holder is not blocked. *)
  assert (Hopen : exists key rx, channels s !! key = Some rx).
  { destruct e; cbn [attempt] in Ha; repeat case_match; try done.
    destruct (decide (channels s = ∅)) as [He|(key & c & Hc)%map_choose]; [|by exists key, c].
    match goal with H : ~ closed _ _ |- _ => destruct H end.
    unfold closed. rewrite He. apply map_Forall_empty. }
  destruct Hopen as (key & rx & Hkey).
  destruct (fl_holder _ _ _ _ Hok key) as (j & x & Hj & Hgx); [by exists rx|].
  pose proof (fl_guard _ _ _ _ Hok j x Hj) as Hg. unfold guard_ok in Hg.
  destruct (dropped x) eqn:Hdx; [congruence|]. rewrite Hgx in Hg.
  destruct (rest x) as [response|B e' k'] eqn:Hrx; [done|].
  by eapply Hgo; [..|eapply attempt_not_blocked].
Qed.
End Reachable.
