(* ===== verification/Serving.v ===== *)
(** * Serving requests: what comes back, what changes, what is audited

    The layer stack of Routes.v run alone against a world in which no other
    request is in flight, decided on every branch. *)

From S2P Require Import Prelude RustText Rfc6238 Sha1 AppError Effects Config Crypto TotpGen.
From S2P Require Import SecretStore Introspection Middleware RateLimit Routes.
Local Open Scope Z_scope.
Local Open Scope rust_scope.
Local Open Scope string_scope.
Local Open Scope list_scope.

Section Serving.
Context `{!HeaderText, !Sha256, !StatusText, !Aead, !TotpRs, !LibraryReplies}.
Context {L : Type} `{!Governor L} (o : Oracle).
Implicit Types w : World L.

(** ** The audit row of a request *)

(** One row is appended, unless its insert has no effect. *)
Definition logged w w' (s : option string) (res : RequestResult) : Prop :=
  exists wx : World L, request_log wx = request_log w /\
    request_log w' =
      request_log w ++ (if decide (audit_written o wx) then [audit_row o wx s res] else []).

(** What the oracle must grant for rows never to be refused. *)
Definition audit_up w : Prop :=
  (forall n, db_error o n = None) /\
  (forall n, random_uuid o n ∉ row_id <$> request_log w).

(** The subject and result columns. *)
Definition audit_columns (rows : list LogRow) : list (option string * string) :=
  (fun row => (row_subject row, row_result row)) <$> rows.

Lemma logged_up w w' s res :
  audit_up w -> logged w w' s res ->
  exists rows, request_log w' = request_log w ++ rows /\
    audit_columns rows = [(s, as_str res)].
Proof.
  intros [Hdb Hid] (wx & Hx & ->). eexists. split; [done|].
  rewrite decide_True; [done|]. split; [|by rewrite Hx]. unfold takes_effect. by rewrite Hdb.
Qed.

Lemma exec_log_logged w wx s res :
  request_log wx = request_log w ->
  exists w', exec o (log_request s res) wx = (Some tt, w') /\
    totp_secrets w' = totp_secrets wx /\ limiter w' = limiter wx /\ logged w w' s res.
Proof.
  intros Hx. destruct (exec_log_request o s res wx) as (w' & Hr & (Hs & _ & Hl) & _ & Hlog & _).
  exists w'. split_and!; try done. exists wx. by rewrite <-Hx.
Qed.

(** ** request_pin *)

(** Why a PIN request for [s] may end in an internal error. *)
Definition pin_fault (state : AppState) (s : string) w : Prop :=
  (exists n, db_error o n <> None) \/
  exists row, totp_secrets w !! s = Some row /\
    match decrypt (crypto (secrets state)) (encrypted_secret row) (row_nonce row) with
    | Err _ => True
    | Ok secret => exists n, is_ok (generate_at secret (as_u64 (clock o n))) = false
    end.

(** The handler's contract. *)
Inductive pin_handled (state : AppState) (s : string) w :
    option (AppResult PinResponse) -> World L -> Prop :=
| pin_no_secret w' :
    totp_secrets w !! s = None -> totp_secrets w' = totp_secrets w ->
    logged w w' (Some s) DeniedNoSecret ->
    pin_handled state s w (Some (Err NotFound)) w'
| pin_internal source w' :
    pin_fault state s w ->
    totp_secrets w' = totp_secrets w \/
      (exists m err, db_error o m = Some err /\ took_effect err = true /\
         totp_secrets w' = alter (touched (clock o m)) s (totp_secrets w)) ->
    request_log w' = request_log w ->
    pin_handled state s w (Some (Err (Internal source))) w'
| pin_panic n w' :
    clock o n < 0 -> totp_secrets w' = totp_secrets w -> request_log w' = request_log w ->
    pin_handled state s w None w'
| pin_issued row secret generated n m w' :
    totp_secrets w !! s = Some row ->
    decrypt (crypto (secrets state)) (encrypted_secret row) (row_nonce row) = Ok secret ->
    0 <= clock o n -> generate_at secret (as_u64 (clock o n)) = Ok generated ->
    totp_secrets w' = alter (touched (clock o m)) s (totp_secrets w) ->
    logged w w' (Some s) Issued ->
    pin_handled state s w
      (Some (Ok {| Middleware.pin := TotpGen.pin generated;
                   Middleware.valid_for_seconds := TotpGen.valid_for_seconds generated |})) w'.

Lemma exec_generate secret w :
  exec o (generate secret) w =
  if decide (0 <= clock o (tick w))
  then (Some (generate_at secret (as_u64 (clock o (tick w)))), ticked w)
  else (None, ticked w).
Proof. unfold generate, unix_now. simpl. by case_decide. Qed.

Lemma exec_issue state s secret generated n w w1 row :
  totp_secrets w !! s = Some row ->
  decrypt (crypto (secrets state)) (encrypted_secret row) (row_nonce row) = Ok secret ->
  0 <= clock o n -> generate_at secret (as_u64 (clock o n)) = Ok generated ->
  totp_secrets w1 = totp_secrets w -> request_log w1 = request_log w ->
  limiter w1 = limiter w ->
  let rest :=
    (let! _ := touch_last_used s in
     _ ← log_request (Some s) Issued;
     _ ← perform (Trace (mkLogLine Info "issued a PIN" [("subject"%string, s)]));
     mret (Ok {| Middleware.pin := TotpGen.pin generated;
                 Middleware.valid_for_seconds := TotpGen.valid_for_seconds generated |}))%rust in
  exists r w', exec o rest w1 = (r, w') /\ limiter w' = limiter w /\
    pin_handled state s w r w'.
Proof.
  intros Hrow Hdec Hclock Hgen Hs Hlog Hlim rest. unfold rest.
  rewrite exec_try_bind, exec_touch.
  unfold takes_effect. destruct (db_error o (tick w1)) as [err|] eqn:Hdb; cbn [from_option].
  { eexists _, _. split; [done|].
    split; [by destruct (took_effect err)|]. apply pin_internal.
    - left. exists (tick w1). by rewrite Hdb.
    - destruct (took_effect err) eqn:Hte; [right|left; by rewrite <-Hs].
      exists (tick w1), err. split_and!; [done..|]. cbn [totp_secrets ticked with_secrets].
      by rewrite Hs.
    - by destruct (took_effect err). }
  set (w2 := ticked _). rewrite exec_bind.
  destruct (exec_log_logged w w2 (Some s) Issued Hlog) as (w3 & -> & Hs3 & Hl3 & Hlogged).
  simpl. eexists _, _. split; [done|]. split; [simpl; by rewrite Hl3|].
  eapply pin_issued; [done..| |].
  - simpl. rewrite Hs3. simpl. by rewrite Hs.
  - destruct Hlogged as (wx & Hx & Hl). by exists wx.
Qed.

Lemma exec_request_pin state user w :
  exists r w', exec o (request_pin state user) w = (r, w') /\ limiter w' = limiter w /\
    pin_handled state (subject user) w r w'.
Proof.
  unfold request_pin. rewrite exec_try_bind, exec_get.
  destruct (db_error o (tick w)) eqn:Hdb.
  { eexists _, _. split; [done|]. split; [done|]. apply pin_internal; [|by left|done].
    left. exists (tick w). by rewrite Hdb. }
  destruct (totp_secrets w !! subject user) as [row|] eqn:Hrow.
  - destruct (decrypt _ _ _) as [secret|e] eqn:Hdec; cbn [result_bind].
    + rewrite exec_try_bind, exec_generate.
      destruct (decide (0 <= clock o (tick (ticked w)))) as [Hc|Hc].
      * destruct (generate_at _ _) as [generated|e] eqn:Hgen.
        -- by apply (exec_issue state (subject user) secret generated (tick (ticked w)) w _ row).
        -- destruct (generate_at_err _ _ _ Hgen) as (source & ->).
           eexists _, _. split; [done|]. split; [done|]. apply pin_internal; [|by left|done].
           right. exists row. split; [done|]. rewrite Hdec.
           exists (tick (ticked w)). by rewrite Hgen.
      * eexists _, _. split; [done|]. split; [done|].
        eapply pin_panic; [|done..]. apply Z.nle_gt, Hc.
    + destruct (decrypt_err _ _ _ _ Hdec) as (source & ->).
      eexists _, _. split; [done|]. split; [done|]. apply pin_internal; [|by left|done].
      right. exists row. split; [done|]. by rewrite Hdec.
  - rewrite exec_bind.
    destruct (exec_log_logged w (ticked w) (Some (subject user)) DeniedNoSecret)
      as (w' & -> & Hs & Hl & Hlogged); [done|].
    eexists _, _. split; [done|]. split; [done|]. by apply pin_no_secret.
Qed.

(** ** provision *)

(** The handler's contract: it stores one fresh secret and answers with it, or
    changes nothing, or the answer of the write that stored it is lost. *)
Inductive provision_handled (state : AppState) (admin : AuthenticatedUser)
    (payload : ProvisionRequest) w : AppResult ProvisionResponse -> World L -> Prop :=
| provision_refused w' :
    has_role admin (admin_role (config state)) = false \/
      trim (payload_subject payload) = ""%string ->
    totp_secrets w' = totp_secrets w -> request_log w' = request_log w ->
    provision_handled state admin payload w (Err Forbidden) w'
| provision_failed source w' :
    totp_secrets w' = totp_secrets w \/
      (exists m err, db_error o m = Some err /\ took_effect err = true) ->
    request_log w' = request_log w ->
    provision_handled state admin payload w (Err (Internal source)) w'
| provision_stored n m k p ct nonce w' :
    let s := trim (payload_subject payload) in
    has_role admin (admin_role (config state)) = true -> s <> ""%string ->
    raw p = random_secret o n -> TotpGen.secret_base32 p = to_base32 (raw p) ->
    encrypt_with (crypto (secrets state)) (random_nonce o m) (raw p) = Ok (ct, nonce) ->
    totp_secrets w' = <[s := mkSecretRow ct nonce (clock o k) None]> (totp_secrets w) ->
    logged w w' (Some s) Provisioned ->
    provision_handled state admin payload w
      (Ok (mkProvisionResponse (TotpGen.secret_base32 p) (TotpGen.otpauth_url p))) w'.

Lemma exec_mint s w :
  exists r, exec o (TotpGen.provision s) w = (Some r, ticked w) /\
    match r with
    | Ok p => raw p = random_secret o (tick w) /\
              TotpGen.secret_base32 p = to_base32 (raw p)
    | Err e => exists source, e = Internal source
    end.
Proof.
  unfold TotpGen.provision, generator. rewrite exec_bind. cbn [perform exec exec_eff].
  eexists. split; [apply exec_ret|].
  destruct (build _); cbn [result_bind]; [|by eexists].
  by destruct (to_url _); [|eexists].
Qed.

Lemma exec_provision state admin payload w :
  exists r w', exec o (provision state admin payload) w = (Some r, w') /\
    provision_handled state admin payload w r w'.
Proof.
  unfold provision. destruct (has_role admin (admin_role (config state))) eqn:Hrole.
  2: { eexists _, _. split; [done|]. apply provision_refused; [by left|done..]. }
  simpl negb. cbn iota.
  destruct (decide (trim (payload_subject payload) = ""%string)) as [Hs|Hs].
  { eexists _, _. split; [done|]. apply provision_refused; [by right|done..]. }
  set (s := trim (payload_subject payload)) in *. rewrite exec_try_bind.
  destruct (exec_mint s w) as ([p|e] & -> & Hp).
  2: { destruct Hp as (source & ->). eexists _, _. split; [done|].
       apply provision_failed; [by left|done]. }
  rewrite exec_try_bind, exec_upsert. destruct Hp as [Hraw Hb32].
  destruct (encrypt_with _ _ _) as [[ct nonce]|e] eqn:He.
  2: { unfold encrypt_with in He. destruct (aead_encrypt _ _ _); simplify_eq.
       eexists _, _. split; [done|]. apply provision_failed; [by left|done]. }
  unfold takes_effect. destruct (db_error o _) as [err|] eqn:Hdb; cbn [from_option].
  { eexists _, _. split; [done|]. apply provision_failed.
    - destruct (took_effect err) eqn:Hte; [right|by left]. by eexists _, err.
    - by destruct (took_effect err). }
  set (w2 := ticked (ticked _)). rewrite exec_bind.
  destruct (exec_log_logged w w2 (Some s) Provisioned eq_refl)
    as (w3 & -> & Hs3 & _ & Hlog). cbn iota beta. rewrite exec_bind.
  cbn [perform exec exec_eff]. eexists _, _. split; [apply exec_ret|].
  eapply provision_stored; try done. exact Hs3.
Qed.

(** ** The layers *)

Definition error_response (e : AppError) : Response :=
  {| status := status_code e; body := BodyError {| error := app_error_to_string e |} |}.

Lemma exec_respond r w :
  exists w', exec o (respond r) w =
      (Some (match r with Ok response => response | Err e => error_response e end), w') /\
    totp_secrets w' = totp_secrets w /\ request_log w' = request_log w /\
    limiter w' = limiter w.
Proof. destruct r; by eexists. Qed.

Lemma exec_authenticate_alone self token w :
  token_key token ∉ inflight w ->
  exists w',
    exec o (authenticate self token) w =
      (Some (into_result (answer_at o self token (ticked w))), w') /\ same_store w w'.
Proof.
  intros Hkey. destruct (exec_introspect_alone o self token w Hkey) as (w' & Hr & Hs & _).
  exists w'. split; [|done]. unfold authenticate. by rewrite exec_bind, Hr.
Qed.

(** No handler answers 429 by itself, unless axum's extractor does. *)
Definition json_not_429 (route : Route) (request : Request) : Prop :=
  forall rejection, route = Provision -> json request = Err rejection ->
  status rejection <> 429.

Definition anything (A : Type) (_ : Eff A) : Prop := True.
Definition any_answer (A : Type) (_ : Eff A) (_ : A) : Prop := True.

Lemma wp_anything {T} (p : Prog T) : wp anything any_answer p (fun _ => True).
Proof. induction p as [|A e k IH]; simpl; [done|]. split; [done|]. intros a _. apply IH. Qed.

Lemma respond_not_429 {T} (inject : T -> Body) (p : ProgR T) :
  wp anything any_answer p (fun r => r <> Err AppError.RateLimited) ->
  wp anything any_answer (r ← p; respond (json_ok inject r))
    (fun response => status response <> 429).
Proof.
  intros Hp. rewrite wp_bind. eapply wp_mono; [|exact Hp].
  intros [v|e] He; simpl; [done|]. split; [done|]. intros _ _.
  rewrite status_code_too_many. congruence.
Qed.

Notation not_limited p := (wp anything any_answer p (fun r => r <> Err AppError.RateLimited)).

Lemma not_limited_try {T U} (p : ProgR T) (f : T -> ProgR U) :
  not_limited p -> (forall v, not_limited (f v)) -> not_limited (try_bind p f).
Proof.
  intros Hp Hf. unfold try_bind. rewrite wp_bind. eapply wp_mono; [|exact Hp].
  intros [v|e] He; [apply Hf|]. simpl. intros [= ->]. done.
Qed.

Lemma not_limited_then {T U} (p : Prog T) (f : T -> ProgR U) :
  (forall v, not_limited (f v)) -> not_limited (p ≫= f).
Proof.
  intros Hf. rewrite wp_bind. eapply wp_mono; [|apply wp_anything]. intros v _. apply Hf.
Qed.

Lemma not_limited_ret {T} (r : AppResult T) :
  (forall e, r = Err e -> exists source, e = Internal source) -> not_limited (mret r).
Proof. intros He Hr. simpl in Hr. by destruct (He _ Hr). Qed.

Lemma from_db_internal {T} (r : result T DbError) e :
  from_db r = Err e -> exists source, e = Internal source.
Proof. destruct r; simpl; [done|]. intros [= <-]. by eexists. Qed.

Lemma get_not_limited store s : not_limited (get store s).
Proof.
  unfold get. apply not_limited_then. intros r. apply not_limited_ret. intros e.
  rewrite result_bind_err. intros [Hr|(row & _ & He)]; [by eapply from_db_internal|].
  destruct row as [[ct n]|]; [|done]. apply result_bind_err in He as [He|(? & _ & ?)]; [|done].
  by eapply decrypt_err.
Qed.

Lemma request_pin_not_limited state user : not_limited (request_pin state user).
Proof.
  unfold request_pin. apply not_limited_try; [apply get_not_limited|]. intros [secret|].
  - apply not_limited_try.
    { unfold generate. apply not_limited_then. intros now. apply not_limited_ret.
      intros e. apply generate_at_err. }
    intros generated. apply not_limited_try.
    { unfold touch_last_used. apply not_limited_then. intros r. apply not_limited_ret.
      intros e. apply from_db_internal. }
    intros _. by do 2 (apply not_limited_then; intros _).
  - by apply not_limited_then.
Qed.

Lemma provision_not_limited state admin payload : not_limited (provision state admin payload).
Proof.
  unfold provision. destruct (has_role _ _); simpl negb; cbn iota;
    [|by apply not_limited_then].
  case_decide; [done|]. apply not_limited_try.
  { unfold TotpGen.provision, generator. apply not_limited_then. intros raw.
    apply not_limited_ret. intros e.
    destruct (build _); simpl; [|intros [= <-]; by eexists].
    destruct (to_url _); [done|]. intros [= <-]. by eexists. }
  intros provisioned. apply not_limited_try.
  { unfold upsert. apply not_limited_try.
    - unfold encrypt. apply not_limited_then. intros nonce. apply not_limited_ret.
      intros e. unfold encrypt_with. destruct (aead_encrypt _ _ _); [done|].
      intros [= <-]. by eexists.
    - intros [ct n]. apply not_limited_then. intros r. apply not_limited_ret.
      intros e. apply from_db_internal. }
  intros _. by do 2 (apply not_limited_then; intros _).
Qed.

Lemma handler_not_429 state route request user :
  extension request = Some user -> json_not_429 route request ->
  wp anything any_answer (handler state route request)
    (fun response => status response <> 429).
Proof.
  intros Hext Hj. unfold handler. rewrite Hext. destruct route.
  - apply respond_not_429, request_pin_not_limited.
  - destruct (json request) as [payload|rejection] eqn:Hjson; [|by apply Hj].
    apply respond_not_429, provision_not_limited.
Qed.

Lemma exec_handler_not_429 state route request user w response w' :
  extension request = Some user -> json_not_429 route request ->
  exec o (handler state route request) w = (Some response, w') -> status response <> 429.
Proof.
  intros Hext Hj.
  apply (wp_exec o anything any_answer _ (fun response => status response <> 429));
    [done|by eapply handler_not_429].
Qed.

(** ** The whole stack *)

(** What authentication decides about the bearer of a token. *)
Definition verdict (state : AppState) (token : string) w : AppResult AuthenticatedUser :=
  into_result (answer_at o (introspection state) token (ticked w)).

Definition is_denial (e : AppError) : bool :=
  match e with
  | Unauthorized | Forbidden => true
  | _ => false
  end.

Inductive served (state : AppState) (route : Route) (request : Request) w :
    option Response -> World L -> Prop :=
| served_no_token w' :
    bearer_token request = None -> totp_secrets w' = totp_secrets w ->
    limiter w' = limiter w -> logged w w' None DeniedInactiveToken ->
    served state route request w (Some (error_response Unauthorized)) w'
| served_denied token e w' :
    bearer_token request = Some token -> verdict state token w = Err e ->
    totp_secrets w' = totp_secrets w -> limiter w' = limiter w ->
    (if is_denial e then logged w w' None DeniedInactiveToken
     else request_log w' = request_log w) ->
    served state route request w (Some (error_response e)) w'
| served_limited token user n w' :
    bearer_token request = Some token -> verdict state token w = Ok user ->
    (governor_check (limiter w) (subject user) (monotonic o n)).1 = false ->
    totp_secrets w' = totp_secrets w -> logged w w' (Some (subject user)) RateLimited ->
    served state route request w (Some too_many_requests) w'
| served_handled token user n w1 r w' :
    bearer_token request = Some token -> verdict state token w = Ok user ->
    (governor_check (limiter w) (subject user) (monotonic o n)).1 = true ->
    totp_secrets w1 = totp_secrets w -> request_log w1 = request_log w ->
    exec o (handler state route (with_user request user)) w1 = (r, w') ->
    served state route request w r w'.

Context `{!LibraryRepliesLaws _}.

(** Past authentication: the audit layer, the limiter and the handler. *)
Lemma exec_stack state route request user w w1 :
  json_not_429 route request -> extension request = Some user ->
  totp_secrets w1 = totp_secrets w -> request_log w1 = request_log w ->
  limiter w1 = limiter w ->
  exists n r w',
    exec o (audit_rate_limited request
              (fun request => governor_layer request (handler state route))) w1 = (r, w') /\
    if (governor_check (limiter w) (subject user) (monotonic o n)).1
    then exists w2, totp_secrets w2 = totp_secrets w /\ request_log w2 = request_log w /\
           exec o (handler state route request) w2 = (r, w')
    else r = Some too_many_requests /\ totp_secrets w' = totp_secrets w /\
         logged w w' (Some (subject user)) RateLimited.
Proof.
  intros Hj Hext Hs Hlog Hlim. exists (tick w1).
  unfold audit_rate_limited, governor_layer, extract. rewrite Hext.
  cbn [fmap option_fmap option_map ok_or]. rewrite exec_bind, exec_bind.
  cbn [perform exec exec_eff]. rewrite Hlim.
  destruct (governor_check _ _ _) as [[] l]; cbn [fst].
  - set (w2 := ticked _).
    destruct (exec o (handler state route request) w2) as [r w'] eqn:Hrun.
    exists r, w'. split.
    + destruct r as [response|]; [|done]. cbn iota beta.
      rewrite decide_False; [done|].
      by eapply exec_handler_not_429.
    + by exists w2.
  - cbn iota beta. rewrite exec_ret. cbn iota beta.
    rewrite too_many_status, decide_True, exec_bind by done.
    cbn [perform exec exec_eff]. rewrite exec_bind.
    set (w2 := ticked _).
    destruct (exec_log_logged w w2 (Some (subject user)) RateLimited)
      as (w' & Hr & Hs' & _ & Hl); [done|].
    cbn [fmap option_fmap option_map]. rewrite Hr. cbn iota beta.
    eexists _, w'. split; [done|]. split; [done|]. split; [|done]. by rewrite Hs'.
Qed.

Lemma exec_denied state route request w e wd :
  (exists w', exec o (require_authentication state request (fun request =>
        audit_rate_limited request (fun request =>
          governor_layer request (handler state route)))) w = (Some (Err e), w') /\
     totp_secrets w' = totp_secrets wd /\ limiter w' = limiter wd /\
     request_log w' = request_log wd) ->
  exists w', exec o (protected state route request) w = (Some (error_response e), w') /\
    totp_secrets w' = totp_secrets wd /\ limiter w' = limiter wd /\
    request_log w' = request_log wd.
Proof.
  intros (w1 & Hr & Hs & Hl & Hlog). unfold protected. rewrite exec_bind, Hr.
  destruct (exec_respond (Err e) w1) as (w' & Hrun & Hs' & Hlog' & Hl').
  exists w'. split; [exact Hrun|]. split_and!; congruence.
Qed.

Lemma logged_eq w w' w'' s res :
  request_log w'' = request_log w' -> logged w w' s res -> logged w w'' s res.
Proof. intros Heq (wx & Hx & Hl). exists wx. by rewrite Heq. Qed.

(** Every run of the stack is one of the four. *)
Lemma exec_protected state route request w :
  json_not_429 route request -> inflight w = ∅ ->
  exists r w', exec o (protected state route request) w = (r, w') /\
    served state route request w r w'.
Proof.
  intros Hj Hfree. destruct (bearer_token request) as [token|] eqn:Ht.
  - destruct (exec_authenticate_alone (introspection state) token w)
      as (w1 & Hauth & Hs1 & Hlog1 & Htr1 & Hl1); [rewrite Hfree; set_solver|].
    fold (verdict state token w) in Hauth.
    destruct (verdict state token w) as [user|e] eqn:Hv.
    + set (w2 := ticked (with_traces w1
        (traces w1 ++ [mkLogLine Debug "request authenticated" [("subject", subject user)]]))).
      destruct (exec_stack state route (with_user request user) user w w2)
        as (n & r & w' & Hrun & Hcase); [done..|].
      exists r, w'. split.
      * unfold protected, require_authentication. rewrite Ht, exec_bind, exec_bind, Hauth.
        cbn iota beta. rewrite exec_bind. cbn [perform exec exec_eff]. fold w2.
        rewrite exec_bind, Hrun. by destruct r.
      * destruct (governor_check _ _ _).1 eqn:Hc.
        -- destruct Hcase as (w3 & Hs3 & Hlog3 & Hh). by eapply served_handled.
        -- destruct Hcase as (-> & Hs' & Hl'). by eapply served_limited.
    + destruct (exec_log_logged w w1 None DeniedInactiveToken Hlog1)
        as (w2 & Hlogrun & Hs2 & Hl2 & Hlogged).
      set (wd := if is_denial e then w2 else w1).
      destruct (exec_denied state route request w e wd) as (w' & Hrun & Hs' & Hl' & Hlog').
      { unfold require_authentication. rewrite Ht, exec_bind, Hauth. cbn iota beta.
        exists wd. split; [|done]. rewrite exec_bind. unfold wd.
        destruct e; cbn [is_denial]; rewrite ?Hlogrun; done. }
      exists (Some (error_response e)), w'. split; [done|].
      eapply served_denied; [done..| | |].
      * rewrite Hs'. unfold wd. destruct (is_denial e); congruence.
      * rewrite Hl'. unfold wd. destruct (is_denial e); congruence.
      * unfold wd in Hlog'. destruct (is_denial e); [by eapply logged_eq|congruence].
  - destruct (exec_log_logged w w None DeniedInactiveToken eq_refl)
      as (w1 & Hlogrun & Hs1 & Hl1 & Hlogged).
    destruct (exec_denied state route request w Unauthorized w1)
      as (w' & Hrun & Hs' & Hl' & Hlog').
    { unfold require_authentication. rewrite Ht. exists w1. split; [|done].
      rewrite exec_bind, Hlogrun. done. }
    exists (Some (error_response Unauthorized)), w'. split; [done|].
    apply served_no_token; [done|congruence..|by eapply logged_eq].
Qed.
End Serving.

(** ** Properties *)

Section ServingTheorems.
Context `{!HeaderText, !Sha256, !StatusText, !Aead, !TotpRs, !LibraryReplies}.
Context `{!LibraryRepliesLaws _} {L : Type} `{!Governor L} (o : Oracle).
Implicit Types w : World L.

(** What Keycloak answers to this request's introspection, and when. *)
Definition vouched_at (state : AppState) (token : string) w (user : AuthenticatedUser) :
    Prop :=
  vouches (client_expected_audience (introspection state))
    (keycloak o (S (tick w)) (introspection_post (introspection state) token))
    (clock o (S (S (tick w)))) user.

Lemma verdict_ok state token w user :
  verdict o state token w = Ok user <-> vouched_at state token w user.
Proof.
  unfold verdict, vouched_at, answer_at. rewrite <-reply_outcome_active. simpl.
  destruct (reply_outcome _ _ _); simpl; naive_solver.
Qed.

(** What introspection can deny a request with. *)
Lemma verdict_err state token w e :
  verdict o state token w = Err e ->
  e = Unauthorized \/ e = Forbidden \/ exists source, e = IntrospectionUnavailable source.
Proof. unfold verdict. destruct (answer_at _ _ _ _); simpl; intros; simplify_eq; eauto. Qed.

Lemma pin_not_429 request : json_not_429 RequestPin request.
Proof. by intros ? ?. Qed.

Lemma exec_pin_handler state request user w r w' :
  exec o (handler state RequestPin (with_user request user)) w = (r, w') ->
  exists r0 w0, pin_handled o state (subject user) w r0 w0 /\
    totp_secrets w' = totp_secrets w0 /\ request_log w' = request_log w0 /\
    r = (fun v => match json_ok BodyPin v with
                  | Ok response => response
                  | Err e => error_response e
                  end) <$> r0.
Proof.
  unfold handler. cbn [extension with_user]. rewrite exec_bind.
  destruct (exec_request_pin o state user w) as (r0 & w0 & -> & _ & Hh).
  destruct r0 as [v|]; [|intros [= <- <-]; by exists None, w0].
  destruct (exec_respond o (json_ok BodyPin v) w0) as (w1 & -> & Hs & Hl & _).
  intros [= <- <-]. by exists (Some v), w0.
Qed.

(** A PIN is handed out only to its owner: whenever the answer to a PIN
    request is 200, the request carried a bearer token for which Keycloak
    vouched at that moment, the PIN is the current code of the secret stored
    for the vouched-for subject, whose limiter bucket had room, no one
    else's row changed, that subject's ciphertext and nonce are untouched,
    and the issue is recorded under that subject. *)
Theorem issued_pin_is_earned state request w response w' :
  inflight w = ∅ ->
  exec o (protected state RequestPin request) w = (Some response, w') ->
  status response = 200 ->
  exists token user row secret n m p,
    bearer_token request = Some token /\ vouched_at state token w user /\
    totp_secrets w !! subject user = Some row /\
    decrypt (crypto (secrets state)) (encrypted_secret row) (row_nonce row) = Ok secret /\
    generate_at secret (as_u64 (clock o n)) = Ok p /\ 0 <= clock o n /\
    body response = BodyPin (mkPinResponse (TotpGen.pin p) (TotpGen.valid_for_seconds p)) /\
    (governor_check (limiter w) (subject user) (monotonic o m)).1 = true /\
    (forall s, s <> subject user -> totp_secrets w' !! s = totp_secrets w !! s) /\
    stored w' (subject user) = stored w (subject user) /\
    logged o w w' (Some (subject user)) Issued.
Proof.
  intros Hfree Hrun Hstatus.
  destruct (exec_protected o state RequestPin request w (pin_not_429 request) Hfree)
    as (r & w1 & Hrun' & Hserved).
  rewrite Hrun in Hrun'.
  destruct Hserved as [| |? user n ? ? ? Hc|token user m w2 r w1 Ht Hv Hc Hs1 Hl1 Hh];
    injection Hrun' as ? ?; subst.
  - done.
  - simpl in Hstatus. pose proof (status_code_is_error e). lia.
  - rewrite too_many_status in Hstatus. done.
  - apply exec_pin_handler in Hh as (r0 & w0 & Hh & Hs0 & Hl0 & Hr).
    destruct Hh as [? Hn|source ? Hf|n ? Hn|row secret p n m' w0 Hrow Hdec Hclock Hgen Hs Hlog];
      simplify_eq/=; try done.
    exists token, user, row, secret, n, m, p.
    rewrite Hs1 in Hrow, Hs. split_and!; try done.
    + by apply verdict_ok.
    + intros s Hne. rewrite Hs0, Hs. by rewrite lookup_alter_ne.
    + unfold stored. rewrite Hs0, Hs, lookup_alter_eq, Hrow. done.
    + destruct Hlog as (wx & Hx & Hl). exists wx. by rewrite Hx, Hl0, Hl, Hl1.
Qed.

Lemma pin_for_entitled `{!Hmac, !TotpRsLaws _ _} state request w token user row secret :
  inflight w = ∅ -> bearer_token request = Some token -> vouched_at state token w user ->
  (forall t, (governor_check (limiter w) (subject user) t).1 = true) ->
  totp_secrets w !! subject user = Some row ->
  decrypt (crypto (secrets state)) (encrypted_secret row) (row_nonce row) = Ok secret ->
  (16 <= length secret)%nat ->
  (forall n, db_error o n = None) -> (forall n, is_uint 64 (clock o n)) ->
  exists response w' n,
    exec o (protected state RequestPin request) w = (Some response, w') /\
    status response = 200 /\
    body response = BodyPin (mkPinResponse
      (zero_padded 6 (rfc6238 30 6 secret (clock o n))) (30 - clock o n mod 30)).
Proof.
  intros Hfree Ht Hv Hroom Hrow Hdec Hlen Hdb Hclock.
  destruct (exec_protected o state RequestPin request w (pin_not_429 request) Hfree)
    as (r & w' & Hrun & Hserved). apply verdict_ok in Hv.
  destruct Hserved as [? Hn|? ? ? Ht' Hv'|? user' n ? Ht' Hv' Hc|? user' m w1 ? ? Ht' Hv' _ Hs1 Hl1 Hh];
    simplify_eq; [congruence|assert (user' = user) as -> by congruence..].
  - by rewrite Hroom in Hc.
  - apply exec_pin_handler in Hh as (r0 & w0 & Hh & Hs0 & Hl0 & Hr).
    assert (Hgen : forall n, generate_at secret (as_u64 (clock o n)) =
              Ok (mkGeneratedPin (zero_padded 6 (rfc6238 30 6 secret (clock o n)))
                    (30 - clock o n mod 30))).
    { intros n. rewrite as_u64_small by done. by apply generate_at_ok. }
    destruct Hh as [? Hn|source ? Hf|n ? Hn|row' secret' p n m' w0 Hrow' Hdec' _ Hg Hs Hlog];
      rewrite ?Hs1 in *; simplify_eq.
    + destruct Hf as [[n Hn]|(row' & Hrow' & Hf)]; [by rewrite Hdb in Hn|].
      rewrite Hs1 in Hrow'. simplify_eq. rewrite Hdec in Hf. destruct Hf as [n Hn].
      by rewrite Hgen in Hn.
    + destruct (Hclock n). lia.
    + assert (secret' = secret) as -> by congruence.
      rewrite Hgen in Hg. injection Hg as <-. by eexists _, _, n.
Qed.

(** Whoever is entitled gets a PIN: a bearer Keycloak vouches for, with
    room in the bucket and a stored secret of at least 128 bits that
    decrypts, on a server whose database answers and whose clock is past the
    epoch, is answered 200 with the six-digit RFC 6238 code of that secret
    at the server's time, valid for the rest of the step. *)
Theorem entitled_user_gets_pin `{!Hmac, !TotpRsLaws _ _} state request w token user row secret :
  inflight w = ∅ -> bearer_token request = Some token -> vouched_at state token w user ->
  (forall t, (governor_check (limiter w) (subject user) t).1 = true) ->
  totp_secrets w !! subject user = Some row ->
  decrypt (crypto (secrets state)) (encrypted_secret row) (row_nonce row) = Ok secret ->
  (16 <= length secret)%nat ->
  (forall n, db_error o n = None) -> (forall n, is_uint 64 (clock o n)) ->
  exists response w' n,
    exec o (protected state RequestPin request) w = (Some response, w') /\
    status response = 200 /\
    body response = BodyPin (mkPinResponse
      (zero_padded 6 (rfc6238 30 6 secret (clock o n))) (30 - clock o n mod 30)).
Proof. apply pin_for_entitled. Qed.

(** The subject and result columns a PIN request adds, by its status. *)
Definition audit_of (status : Z) (who : string) : list (option string * string) :=
  if decide (status = 200) then [(Some who, "issued")]
  else if decide (status = 404) then [(Some who, "denied_no_secret")]
  else if decide (status = 429) then [(Some who, "rate_limited")]
  else if decide (status = 401 \/ status = 403) then [(None, "denied_inactive_token")]
  else [].

(** C26. The audit trail of PIN requests, complete and exact: while the
    database accepts rows, every answered request adds the row its status
    calls for, under the subject Keycloak vouched for or under none: one row
    for each of 200, 404, 429, 401 and 403, and no row at all for the only
    other answers, 500 and 503. *)
Theorem audit_trail_of_pin_requests state request w response w' :
  inflight w = ∅ -> audit_up o w ->
  exec o (protected state RequestPin request) w = (Some response, w') ->
  exists rows who,
    request_log w' = request_log w ++ rows /\
    audit_columns rows = audit_of (status response) who /\
    status response ∈ [200; 401; 403; 404; 429; 500; 503] /\
    (status response ∈ [200; 404; 429] -> exists token user,
       bearer_token request = Some token /\ vouched_at state token w user /\
       subject user = who).
Proof.
  intros Hfree Hup Hrun.
  destruct (exec_protected o state RequestPin request w (pin_not_429 request) Hfree)
    as (r & w1 & Hrun' & Hserved).
  rewrite Hrun in Hrun'.
  destruct Hserved as [? Hn ? ? Hlog|token e ? Ht Hv ? ? Hlog|token user n ? Ht Hv Hc ? Hlog
                      |token user m w2 r w1 Ht Hv Hc Hs1 Hl1 Hh];
    injection Hrun' as ? ?; subst.
  - destruct (logged_up o _ _ _ _ Hup Hlog) as (rows & Hr & Hcols).
    exists rows, ""%string. split_and!; [done|done|simpl; set_solver|simpl; set_solver].
  - destruct (verdict_err _ _ _ _ Hv) as [->|[->|(source & ->)]]; cbn [is_denial] in Hlog.
    + destruct (logged_up o _ _ _ _ Hup Hlog) as (rows & Hr & Hcols).
      exists rows, ""%string. split_and!; [done|done|simpl; set_solver|simpl; set_solver].
    + destruct (logged_up o _ _ _ _ Hup Hlog) as (rows & Hr & Hcols).
      exists rows, ""%string. split_and!; [done|done|simpl; set_solver|simpl; set_solver].
    + exists [], ""%string. rewrite app_nil_r.
      split_and!; [done|done|simpl; set_solver|simpl; set_solver].
  - destruct (logged_up o _ _ _ _ Hup Hlog) as (rows & Hr & Hcols).
    exists rows, (subject user). rewrite too_many_status. apply verdict_ok in Hv.
    split_and!; [done|done|set_solver|]. intros _. by exists token, user.
  - apply verdict_ok in Hv. apply exec_pin_handler in Hh as (r0 & w0 & Hh & Hs0 & Hl0 & Hr).
    assert (Hwho : forall rows, request_log w1 = request_log w ++ rows ->
      audit_columns rows = audit_of (status response) (subject user) ->
      status response ∈ [200; 401; 403; 404; 429; 500; 503] ->
      exists rows who, request_log w1 = request_log w ++ rows /\
        audit_columns rows = audit_of (status response) who /\
        status response ∈ [200; 401; 403; 404; 429; 500; 503] /\
        (status response ∈ [200; 404; 429] -> exists token user,
           bearer_token request = Some token /\ vouched_at state token w user /\
           subject user = who)).
    { intros rows ? ? ?. exists rows, (subject user). eauto 10. }
    assert (Hup1 : audit_up o w2) by (unfold audit_up; by rewrite Hl1).
    destruct Hh as [? ? ? Hlog|source ? Hf ? Hlog|n ? Hn|row secret p n m' w0 ? ? ? ? ? Hlog];
      simplify_eq/=.
    + destruct (logged_up o _ _ _ _ Hup1 Hlog) as (rows & Hr & Hcols).
      apply (Hwho rows); [congruence|done|set_solver].
    + apply (Hwho []); [rewrite app_nil_r; congruence|done|set_solver].
    + destruct (logged_up o _ _ _ _ Hup1 Hlog) as (rows & Hr & Hcols).
      apply (Hwho rows); [congruence|done|set_solver].
Qed.

Lemma exec_provision_handler state request admin w r w' :
  exec o (handler state Provision (with_user request admin)) w = (r, w') ->
  (exists rejection, json request = Err rejection /\ r = Some rejection /\ w' = w) \/
  exists payload v w0, json request = Ok payload /\
    provision_handled o state admin payload w v w0 /\
    totp_secrets w' = totp_secrets w0 /\ request_log w' = request_log w0 /\
    r = Some match json_ok BodyProvision v with
             | Ok response => response
             | Err e => error_response e
             end.
Proof.
  unfold handler. cbn [extension with_user json].
  destruct (json request) as [payload|rejection].
  2: { intros [= <- <-]. left. by eexists. }
  rewrite exec_bind.
  destruct (exec_provision o state admin payload w) as (v & w0 & -> & Hh).
  destruct (exec_respond o (json_ok BodyProvision v) w0) as (w1 & -> & Hs & Hl & _).
  intros [= <- <-]. right. by exists payload, v, w0.
Qed.

(** Secrets are minted for administrators only, and all or nothing: a
    provisioning request that is not answered 200 leaves the secrets table
    exactly as it was, if no statement takes effect whose answer is lost; one that is carried a token Keycloak vouches for, of
    a user with the admin role, and named a subject that is not blank; then
    exactly that (trimmed) subject's row is new, it decrypts to the very
    secret whose base32 text is in the answer, and the provisioning is
    recorded under that subject. *)
Theorem provisioning_is_admin_only `{!AeadLaws _} state request w response w' :
  inflight w = ∅ -> json_not_429 Provision request ->
  (forall rejection, json request = Err rejection -> status rejection <> 200) ->
  exec o (protected state Provision request) w = (Some response, w') ->
  (status response <> 200 ->
   (forall n err, db_error o n = Some err -> took_effect err = false) ->
   totp_secrets w' = totp_secrets w) /\
  (status response = 200 -> exists token admin payload n,
     let s := trim (payload_subject payload) in
     bearer_token request = Some token /\ vouched_at state token w admin /\
     has_role admin (admin_role (config state)) = true /\
     json request = Ok payload /\ s <> ""%string /\
     (exists url, body response =
        BodyProvision (mkProvisionResponse (to_base32 (random_secret o n)) url)) /\
     (exists row, totp_secrets w' = <[s := row]> (totp_secrets w) /\
        (length (cipher (crypto (secrets state))) = 32%nat ->
         (forall m, length (random_nonce o m) = NONCE_LEN) ->
         decrypt (crypto (secrets state)) (encrypted_secret row) (row_nonce row) =
           Ok (random_secret o n))) /\
     logged o w w' (Some s) Provisioned).
Proof.
  intros Hfree Hj Hj200 Hrun.
  destruct (exec_protected o state Provision request w Hj Hfree)
    as (r & w1 & Hrun' & Hserved).
  rewrite Hrun in Hrun'.
  destruct Hserved as [|? e| |token admin m w2 r w1 Ht Hv Hc Hs1 Hl1 Hh];
    injection Hrun' as ? ?; subst.
  - done.
  - split; [done|]. simpl. pose proof (status_code_is_error e). lia.
  - split; [done|]. by rewrite too_many_status.
  - apply exec_provision_handler in Hh
      as [(rejection & Hrej & Hr & ->)|(payload & v & w0 & Hpay & Hh & Hs0 & Hl0 & Hr)].
    { simplify_eq. split; [done|]. intros H200. by destruct (Hj200 _ Hrej). }
    destruct Hh as [? _ Hs Hl|source ? Hs Hl|n k t p ct nonce w0 s Hrole Hne Hraw Hb32 He Hs Hlog];
      simplify_eq/=; (split; [intros Hnot Hdb|]); try done; try congruence.
    { destruct Hs as [Hs|(n0 & err & Herr & Hte)]; [congruence|by rewrite (Hdb _ _ Herr) in Hte]. }
    intros _. exists token, admin, payload, n. apply verdict_ok in Hv. rewrite <-Hraw.
    split_and!; try done.
    + eexists. by rewrite Hb32.
    + eexists. split; [by rewrite Hs0, Hs, Hs1|]. intros Hkey Hnonce.
      by destruct (encrypt_decrypt _ _ _ _ _ Hkey (Hnonce _) He) as [_ Hd].
    + destruct Hlog as (wx & Hx & Hl). exists wx. by rewrite Hx, Hl0, Hl, Hl1.
Qed.
End ServingTheorems.

(** ** Witnesses: a server with one user, and a Keycloak that knows her token *)

#[local] Existing Instances sha1_hmac tagging_aead tagging_aead_laws
  reference_totp_rs reference_totp_rs_laws identity_hash no_text.

Definition latin_headers : HeaderText := fun raw => Some (string_of_bytes raw).
Definition plain_replies : LibraryReplies := {|
  too_many_requests := mkResponse 429 (BodyText "Too Many Requests!");
  unable_to_extract_key := mkResponse 500 (BodyText "Unable To Extract Key!");
  missing_extension := mkResponse 500 (BodyText "Missing request extension")
|}.
Lemma plain_replies_laws : LibraryRepliesLaws plain_replies.
Proof. by split. Qed.
#[local] Existing Instances latin_headers plain_replies plain_replies_laws.

Definition demo_state : AppState := app_state_new (with_limit 6 300).
Definition bearer_request (token : string) : Request := {|
  headers := [("host", [])%string; ("authorization", bytes_of_string ("bearer  " +:+ token))%string];
  extension := None;
  json := Ok (mkProvisionRequest " bob ")
|}.

Definition world_with (secret : list Z) : World (gmap string nat) :=
  with_secrets fresh_world
    {["alice"%string := mkSecretRow (replicate 32 42 ++ replicate 12 0 ++ secret)
                          (replicate 12 0) 1111110000 None]}.

Definition serve (route : Route) (token : string) : option Response * World (gmap string nat) :=
  exec (calm demo_keycloak) (protected demo_state route (bearer_request token))
    (world_with rfc_secret).

Definition issued_response : Response := mkResponse 200 (BodyPin (mkPinResponse "081804" 1)).

Lemma alice_vouched :
  vouched_at (calm demo_keycloak) demo_state "alice-token" (world_with rfc_secret)
    (mkAuthenticatedUser "alice" ["user"%string]).
Proof.
  eexists 200, _. split; [reflexivity|]. split; [split; [discriminate|reflexivity]|].
  split; [reflexivity|]. split; [intros e [= <-]; reflexivity|].
  split; [right; left|]. split; reflexivity.
Qed.

Lemma issued_pin_is_earned_witness :
  status issued_response = 200 /\
  exists token user, bearer_token (bearer_request "alice-token") = Some token /\
    vouched_at (calm demo_keycloak) demo_state token (world_with rfc_secret) user.
Proof.
  split; [reflexivity|].
  destruct (issued_pin_is_earned (calm demo_keycloak) demo_state (bearer_request "alice-token")
              (world_with rfc_secret) issued_response (serve RequestPin "alice-token").2)
    as (token & user & row & secret & n & m & p & Ht & Hv & _).
  - reflexivity.
  - vm_compute. reflexivity.
  - reflexivity.
  - exists token, user. split; assumption.
Defined.

Lemma entitled_user_gets_pin_witness :
  exists response w' n,
    exec (calm demo_keycloak) (protected demo_state RequestPin (bearer_request "alice-token"))
      (world_with rfc_secret) = (Some response, w') /\
    status response = 200 /\
    body response = BodyPin (mkPinResponse
      (zero_padded 6 (rfc6238 30 6 rfc_secret (clock (calm demo_keycloak) n)))
      (30 - clock (calm demo_keycloak) n mod 30)).
Proof.
  apply (entitled_user_gets_pin (calm demo_keycloak) demo_state (bearer_request "alice-token")
           (world_with rfc_secret) "alice-token" (mkAuthenticatedUser "alice" ["user"%string])
           (mkSecretRow (replicate 32 42 ++ replicate 12 0 ++ rfc_secret)
              (replicate 12 0) 1111110000 None)).
  - reflexivity.
  - vm_compute. reflexivity.
  - apply alice_vouched.
  - intros t. reflexivity.
  - reflexivity.
  - vm_compute. reflexivity.
  - apply Nat.leb_le. reflexivity.
  - intros n. reflexivity.
  - intros n. split; [discriminate|reflexivity].
Defined.

Lemma audit_trail_of_pin_requests_witness :
  (audit_columns <$> Some (request_log (serve RequestPin "alice-token").2)) =
    Some [(Some "alice", "issued")]%string /\
  exists rows who,
    request_log (serve RequestPin "stolen").2 = [] ++ rows /\
    audit_columns rows = audit_of 401 who.
Proof.
  split; [vm_compute; reflexivity|].
  destruct (audit_trail_of_pin_requests (calm demo_keycloak) demo_state
              (bearer_request "stolen") (world_with rfc_secret)
              (error_response Unauthorized) (serve RequestPin "stolen").2)
    as (rows & who & Hrows & Hcols & _).
  - reflexivity.
  - split; [intros n; reflexivity|]. intros n Hin. inversion Hin.
  - vm_compute. reflexivity.
  - exists rows, who. split; [exact Hrows|exact Hcols].
Defined.

Lemma provisioning_is_admin_only_witness :
  option_map status (serve Provision "alice-token").1 = Some 403 /\
  totp_secrets (serve Provision "alice-token").2 = totp_secrets (world_with rfc_secret).
Proof.
  split; [vm_compute; reflexivity|].
  destruct (provisioning_is_admin_only (calm demo_keycloak) demo_state
              (bearer_request "alice-token") (world_with rfc_secret)
              (error_response Forbidden) (serve Provision "alice-token").2) as [Hno _].
  - reflexivity.
  - intros rejection _ Hrej. discriminate Hrej.
  - intros rejection Hrej. discriminate Hrej.
  - vm_compute. reflexivity.
  - apply Hno; [discriminate|]. intros n err Herr. discriminate Herr.
Defined.
