(* ===== verification/Startup.v ===== *)
(** * totp-server/src/main.rs and db.rs: from an environment to a serving server

    [main] is a sequence of steps each of which may end it with an error.  A
    [Boot] computation takes the steps done so far and returns its result with
    the steps done after it, so the order of side effects is part of what is
    proved.  What the operating system, sqlx, reqwest and axum answer is a
    [Platform]. *)

From S2P Require Import Prelude RustText Rfc6238 AppError Effects Base64 Config Crypto TotpGen.
From S2P Require Import SecretStore Introspection Middleware RateLimit Routes Serving.
Local Open Scope Z_scope.
Local Open Scope string_scope.

(** ** Steps *)

Inductive BootStep (L : Type) :=
| InitTracing (filter : string)
| LogInfo (line : LogLine)
| ConnectPool (max_connections : Z) (url : string)
| RunMigrations
| BuildHttpClient (timeout_seconds : Z)
| BindListener (address : string)
(** [axum::serve]: the limiter's store and the router's state. *)
| Serve (governor : L) (state : AppState).
Arguments InitTracing {L}.
Arguments LogInfo {L}.
Arguments ConnectPool {L}.
Arguments RunMigrations {L}.
Arguments BuildHttpClient {L}.
Arguments BindListener {L}.
Arguments Serve {L}.

(** What the outside answers; an error is its text. *)
Record Platform := mkPlatform {
  environment : gmap string string;
  (** [EnvFilter::try_from_default_env()]. *)
  rust_log : option string;
  connect : Z -> string -> result unit string;
  migrate : result unit string;
  build_client : Z -> result unit string;
  bind_to : string -> result unit string;
  (** How serving ends. *)
  serve_end : result unit string
}.

(** ** The monad *)

Definition Boot (L T : Type) : Type :=
  list (BootStep L) -> result T string * list (BootStep L).

#[export] Instance boot_ret L : MRet (Boot L) := fun T v steps => (Ok v, steps).
#[export] Instance boot_bind L : MBind (Boot L) := fun T U f p steps =>
  match p steps with
  | (Ok v, steps) => f v steps
  | (Err e, steps) => (Err e, steps)
  end.

(** A step, and what the outside answers. *)
Definition step_with {L T} (s : BootStep L) (r : result T string) : Boot L T :=
  fun steps => (r, steps ++ [s])%list.
Definition pure {L T} (r : result T string) : Boot L T := fun steps => (r, steps).

(** [.context(message)]: the top-level message of the error. *)
Definition context {T} (message : string) (r : result T string) : result T string :=
  match r with
  | Ok v => Ok v
  | Err _ => Err message
  end.

(** [INTROSPECTION_TIMEOUT]. *)
Definition INTROSPECTION_TIMEOUT : Z := 5.

Section Startup.
Context `{!HeaderText, !Sha256, !StatusText, !Aead, !TotpRs, !LibraryReplies}.
Context `{!Base64, !Dotenv} {L : Type} `{!Governor L, !GovernorBuilder L}.
Context (p : Platform).

(** ** db.rs *)

Definition create_pool (database_url : string) : Boot L unit :=
  step_with (ConnectPool 10 database_url)
    (context "could not connect to the database" (connect p 10 database_url)).

Definition run_migrations : Boot L unit :=
  step_with RunMigrations (context "database migrations failed" (migrate p)).

(** ** state.rs: [AppState::new], with the client it builds *)

Definition new_state (config : Config) : Boot L AppState :=
  _ ← step_with (BuildHttpClient INTROSPECTION_TIMEOUT)
        (build_client p INTROSPECTION_TIMEOUT);
  mret (app_state_new config).

(** ** main.rs *)

Definition main : Boot L unit :=
  _ ← step_with (InitTracing (unwrap_or (rust_log p) "info,totp_server=debug")) (Ok tt);
  config ← pure (from_env (environment p));
  _ ← step_with (LogInfo (mkLogLine Info "starting the TOTP server"
        [("issuer", keycloak_issuer config)])) (Ok tt);
  _ ← create_pool (database_url config);
  _ ← run_migrations;
  _ ← step_with (LogInfo (mkLogLine Info "database migrations applied" [])) (Ok tt);
  let address := server_address config in
  state ← new_state config;
  router ← pure (create_router state);
  _ ← step_with (BindListener address) (bind_to p address);
  _ ← step_with (LogInfo (mkLogLine Info "listening" [("address", address)])) (Ok tt);
  step_with (Serve router.1 state) (serve_end p).

(** ** Specification: the stages, in order *)

(** The steps before serving. *)
Definition preparation (config : Config) : list (BootStep L) := [
  InitTracing (unwrap_or (rust_log p) "info,totp_server=debug");
  LogInfo (mkLogLine Info "starting the TOTP server" [("issuer", keycloak_issuer config)]);
  ConnectPool 10 (database_url config);
  RunMigrations;
  LogInfo (mkLogLine Info "database migrations applied" []);
  BuildHttpClient INTROSPECTION_TIMEOUT;
  BindListener (server_address config);
  LogInfo (mkLogLine Info "listening" [("address", server_address config)])
].

(** The outcomes that let a start go on, in the order they are needed. *)
Definition stages (config : Config) : list (nat * result unit string) := [
  (3%nat, context "could not connect to the database" (connect p 10 (database_url config)));
  (4%nat, context "database migrations failed" (migrate p));
  (6%nat, build_client p INTROSPECTION_TIMEOUT);
  (6%nat, match (rate_limit_config config : result L string) with
          | Ok _ => Ok tt
          | Err e => Err e
          end);
  (7%nat, bind_to p (server_address config))
].

(** The first stage that fails: how many steps were done, and the error. *)
Fixpoint first_failure (l : list (nat * result unit string)) : option (nat * string) :=
  match l with
  | [] => None
  | (n, Err e) :: _ => Some (n, e)
  | (_, Ok _) :: l => first_failure l
  end.

(** What [main] must come to. *)
Definition startup_spec : result unit string * list (BootStep L) :=
  match from_env (environment p) with
  | Err e => (Err e, [InitTracing (unwrap_or (rust_log p) "info,totp_server=debug")])
  | Ok config =>
      match first_failure (stages config) with
      | Some (n, e) => (Err e, take n (preparation config))
      | None =>
          match (rate_limit_config config : result L string) with
          | Ok governor =>
              (serve_end p, (preparation config ++ [Serve governor (app_state_new config)])%list)
          | Err e => (Err e, [])
          end
      end
  end.

Lemma main_spec : main [] = startup_spec.
Proof.
  unfold main, startup_spec, stages, create_pool, run_migrations, new_state, create_router,
    mbind, boot_bind, mret, boot_ret, step_with, pure.
  destruct (from_env (environment p)) as [config|e]; [|done]. cbn.
  destruct (connect p 10 (database_url config)) as [[]|e]; [|done]. cbn.
  destruct (migrate p) as [[]|e]; [|done]. cbn.
  destruct (build_client p INTROSPECTION_TIMEOUT) as [[]|e]; [|done]. cbn.
  destruct (rate_limit_config config) as [governor|e]; [|done]. cbn.
  by destruct (bind_to p (server_address config)) as [[]|e].
Qed.

Lemma first_failure_none l :
  first_failure l = None <-> Forall (fun stage => is_ok stage.2 = true) l.
Proof.
  induction l as [|[n [[]|e]] l IH]; simpl; [done| |].
  - rewrite Forall_cons, IH. naive_solver.
  - split; [done|]. by intros [? _]%Forall_cons.
Qed.

(** ** Properties *)

Context `{!Base64Laws _}.

(** What is served was prepared. *)
Lemma served governor state :
  Serve governor state ∈ (main []).2 ->
  exists config,
    config_of (dotenv (environment p)) config /\ config_wf config /\
    connect p 10 (database_url config) = Ok tt /\ migrate p = Ok tt /\
    build_client p INTROSPECTION_TIMEOUT = Ok tt /\
    rate_limit_config config = Ok governor /\
    bind_to p (server_address config) = Ok tt /\
    state = app_state_new config /\ length (cipher (crypto (secrets state))) = 32%nat /\
    main [] = (serve_end p, (preparation config ++ [Serve governor state])%list).
Proof.
  rewrite main_spec. unfold startup_spec.
  destruct (from_env (environment p)) as [config|e] eqn:Henv.
  2: { intros [|Hin]%elem_of_cons; [done|]. by apply elem_of_nil in Hin. }
  assert (Hno : forall n, Serve governor state ∉ take n (preparation config)).
  { intros n Hin. apply elem_of_take in Hin as (i & Hi & _).
    unfold preparation in Hi. do 9 (destruct i as [|i]; [done|]). done. }
  destruct (first_failure (stages config)) as [[n e]|] eqn:Hff; [intros Hin; by destruct (Hno n)|].
  apply first_failure_none in Hff. unfold stages in Hff. rewrite !Forall_cons in Hff.
  destruct Hff as (Hdb & Hmig & Hhttp & Hlim & Hbind & _). cbn [fst snd] in *.
  destruct (rate_limit_config config) as [g|e] eqn:Hg; [|done].
  intros [Hin|Hin]%elem_of_app.
  { destruct (Hno 8%nat). exact Hin. }
  apply list_elem_of_singleton in Hin. injection Hin as -> ->.
  apply from_env_spec in Henv as [Hof Hwf].
  destruct (connect p _ _) as [[]|] eqn:?; [|done].
  destruct (migrate p) as [[]|] eqn:?; [|done].
  destruct (build_client p _) as [[]|] eqn:?; [|done].
  destruct (bind_to p _) as [[]|] eqn:?; [|done].
  exists config. split_and!; try done. apply Hwf.
Qed.

(** What the theorems about the running server ask of its state. *)
Lemma served_state governor state :
  Serve governor state ∈ (main []).2 ->
  config_wf (config state) /\ rate_limit_config (config state) = Ok governor /\
  length (cipher (crypto (secrets state))) = 32%nat.
Proof. intros (c & _ & ? & _ & _ & _ & ? & _ & -> & ? & _)%served. by split_and!. Qed.

(** A list that ends in serving serves. *)
Lemma serve_last (l : list (BootStep L)) governor state :
  Serve governor state ∈ (l ++ [Serve governor state])%list.
Proof. apply elem_of_app. right. by left. Qed.

(** When everything answers, no stage fails. *)
Lemma all_stages_pass config governor :
  connect p 10 (database_url config) = Ok tt -> migrate p = Ok tt ->
  build_client p INTROSPECTION_TIMEOUT = Ok tt ->
  rate_limit_config config = Ok governor ->
  bind_to p (server_address config) = Ok tt ->
  first_failure (stages config) = None.
Proof.
  intros Hdb Hmig Hhttp Hlim Hbind. apply first_failure_none. unfold stages.
  rewrite Hdb, Hmig, Hhttp, Hlim, Hbind. by repeat constructor.
Qed.

(** What [main] comes to once nothing fails. *)
Lemma main_when_ready config governor :
  from_env (environment p) = Ok config ->
  first_failure (stages config) = None ->
  rate_limit_config config = Ok governor ->
  main [] = (serve_end p, (preparation config ++ [Serve governor (app_state_new config)])%list).
Proof. intros Henv Hff Hlim. rewrite main_spec. unfold startup_spec. by rewrite Henv, Hff, Hlim. Qed.

(** C27. The server serves exactly when everything it needs is in place: the
    configuration is complete and usable, the database answers, the
    migrations run, the HTTP client is built, the limiter's parameters are
    accepted and the address can be bound.  Nothing else can keep it from
    serving, and none of these can be missing.  When it serves, [main] has
    done all of the preparation, in its order and once each, and nothing but
    that before the first request, and the key in use has 32 bytes. *)
Theorem serves_exactly_when_ready governor state :
  (Serve governor state ∈ (main []).2 <->
   exists config,
     config_of (dotenv (environment p)) config /\ config_wf config /\
     connect p 10 (database_url config) = Ok tt /\ migrate p = Ok tt /\
     build_client p INTROSPECTION_TIMEOUT = Ok tt /\
     rate_limit_config config = Ok governor /\
     bind_to p (server_address config) = Ok tt /\
     state = app_state_new config) /\
  (Serve governor state ∈ (main []).2 ->
   exists config,
     from_env (environment p) = Ok config /\
     main [] = (serve_end p, (preparation config ++ [Serve governor state])%list) /\
     length (cipher (crypto (secrets state))) = 32%nat).
Proof.
  split; [split|].
  - intros (c & ? & ? & ? & ? & ? & ? & ? & ? & _)%served. by exists c.
  - intros (c & Hof & Hwf & Hdb & Hmig & Hhttp & Hlim & Hbind & ->).
    rewrite (main_when_ready c governor); [apply serve_last| |by eapply all_stages_pass|done].
    by apply from_env_spec.
  - intros (c & Hof & Hwf & ? & ? & ? & ? & ? & -> & Hlen & Hrun)%served.
    exists c. split; [|done]. by apply from_env_spec.
Qed.

(** C28. A start that fails says why and leaves nothing listening: with a bad
    configuration [main] ends with the configuration's error before anything
    is connected; otherwise with the message of the first stage that failed,
    having done exactly the steps before it, so that a database that does not
    answer, or whose migrations fail, is never served. *)
Theorem failed_start_reports_first_failure :
  (forall e, from_env (environment p) = Err e ->
     main [] = (Err e, [InitTracing (unwrap_or (rust_log p) "info,totp_server=debug")])) /\
  (forall config n e, from_env (environment p) = Ok config ->
     first_failure (stages config) = Some (n, e) ->
     main [] = (Err e, take n (preparation config)) /\
     (forall governor state, Serve governor state ∉ (main []).2)).
Proof.
  rewrite main_spec. unfold startup_spec. split.
  - by intros e ->.
  - intros config n e -> ->. split; [done|]. intros governor state Hin.
    apply elem_of_take in Hin as (i & Hi & _).
    unfold preparation in Hi. do 9 (destruct i as [|i]; [done|]). done.
Qed.
End Startup.

(** ** Witnesses: the demo environment, with and without a database *)

#[local] Existing Instances latin_headers identity_hash no_text tagging_aead reference_totp_rs
  plain_replies standard_base64 standard_base64_laws.
#[local] Instance no_dotenv_file : Dotenv := id.

Definition platform_with (database : result unit string) : Platform := {|
  environment := demo_env; rust_log := None; connect := fun _ _ => database;
  migrate := Ok tt; build_client := fun _ => Ok tt; bind_to := fun _ => Ok tt;
  serve_end := Ok tt
|}.

Lemma serves_exactly_when_ready_witness :
  exists governor : Gcra,
    Serve governor (app_state_new demo_config) ∈ (main (platform_with (Ok tt)) []).2 /\
    length (cipher (crypto (secrets (app_state_new demo_config)))) = 32%nat.
Proof.
  destruct (rate_limit_config (L := Gcra) demo_config) as [governor|e] eqn:Hg;
    [|vm_compute in Hg; discriminate].
  exists governor.
  destruct (serves_exactly_when_ready (platform_with (Ok tt)) governor
              (app_state_new demo_config)) as [Hiff Hdone].
  assert (Hin : Serve governor (app_state_new demo_config)
                  ∈ (main (platform_with (Ok tt)) []).2).
  { apply Hiff. exists demo_config. destruct (proj1 (from_env_spec demo_env demo_config))
      as [Hof Hwf]; [vm_compute; reflexivity|].
    split_and!; [exact Hof|exact Hwf|reflexivity|reflexivity|reflexivity|exact Hg
                |reflexivity|reflexivity]. }
  split; [exact Hin|]. destruct (Hdone Hin) as (_ & _ & _ & Hlen). exact Hlen.
Defined.

Example no_database_no_server :
  main (L := Gcra) (platform_with (Err "connection refused")) [] =
    (Err "could not connect to the database",
     [InitTracing "info,totp_server=debug";
      LogInfo (mkLogLine Info "starting the TOTP server"
                 [("issuer", keycloak_issuer demo_config)]);
      ConnectPool 10 (database_url demo_config)]).
Proof. vm_compute. reflexivity. Qed.

Lemma failed_start_reports_first_failure_witness :
  main (L := Gcra) (platform_with (Err "connection refused")) [] =
    (Err "could not connect to the database",
     take 3 (preparation (L := Gcra) (platform_with (Err "connection refused")) demo_config)).
Proof.
  destruct (failed_start_reports_first_failure (L := Gcra)
              (platform_with (Err "connection refused"))) as [_ Hfail].
  apply (Hfail demo_config 3%nat "could not connect to the database").
  - vm_compute. reflexivity.
  - reflexivity.
Defined.
