(* ===== verification/Concurrent.v ===== *)
(** * Theorems about the server under load

    For every sequence of arrivals, steps and departures, every database
    failure, clock, random draw and answer of Keycloak ([Oracle]), and every
    initial database. *)

From S2P Require Import Prelude RustText Rfc6238 Sha1 AppError Effects Config Crypto TotpGen.
From S2P Require Import SecretStore Introspection Middleware RateLimit Routes Provenance.
From S2P Require Import Protocol Pool History Flights Serving.
Local Open Scope nat_scope.

(** ** Counting *)

Definition counts (sel : forall A, Eff A -> bool) (ev : Event) : bool :=
  match ev with Happened e _ => sel _ e end.

(** How many counted effects task [i] has performed. *)
Definition spent (sel : forall A, Eff A -> bool) (i : nat) (h : Recorded) : nat :=
  length (filter (fun x => x.1 = i /\ counts sel x.2 = true) h).

Lemma spent_snoc sel i h j ev :
  spent sel i (h ++ [(j, ev)]) =
    spent sel i h + (if decide (j = i /\ counts sel ev = true) then 1 else 0).
Proof.
  unfold spent. rewrite filter_app, length_app, filter_cons. simpl. by case_decide.
Qed.

Lemma spent_two sel i h1 ev h2 ev' h3 :
  counts sel ev = true -> counts sel ev' = true ->
  2 <= spent sel i (h1 ++ (i, ev) :: h2 ++ (i, ev') :: h3).
Proof.
  intros He He'. unfold spent.
  rewrite filter_app, filter_cons_True by done. rewrite filter_app, filter_cons_True by done.
  rewrite !length_app. simpl. rewrite length_app. simpl. lia.
Qed.

(** Two events a budget of one allows are the same event. *)
Lemma spent_once sel i h ev ev' :
  spent sel i h <= 1 -> counts sel ev = true -> counts sel ev' = true ->
  (i, ev) ∈ h -> (i, ev') ∈ h -> ev = ev'.
Proof.
  intros Hone He He' (h1 & h2 & ->)%list_elem_of_split [Hin|[Heq|Hin]%elem_of_cons]%elem_of_app.
  - apply list_elem_of_split in Hin as (g1 & g2 & ->). rewrite <-app_assoc in Hone. simpl in Hone.
    pose proof (spent_two sel i g1 ev' g2 ev h2 He' He). lia.
  - by injection Heq.
  - apply list_elem_of_split in Hin as (g1 & g2 & ->).
    pose proof (spent_two sel i h1 ev g1 ev' g2 He He'). lia.
Qed.

Definition alive (t : Task) : bool := negb (dropped t).

Section Concurrent.
Context `{!HeaderText, !Sha256, !StatusText, !Aead, !TotpRs, !LibraryReplies}.
Context {L : Type} `{!Governor L, !GovernorBuilder L} (o : Oracle) (state : AppState) (w : World L).
Implicit Types s : Server L.

(** ** Budgets over whole runs *)

Lemma event_has_task s i ev :
  reachable o state w s -> (i, ev) ∈ history s -> exists t, requests s !! i = Some t.
Proof.
  intros Hreach (h1 & h2 & Hh)%list_elem_of_split.
  destruct (history_at o state w s h1 i ev h2 Hreach Hh)
    as (_ & _ & t & _ & _ & _ & _ & _ & _ & Ht & _). by exists t.
Qed.

Lemma spent_none sel s i :
  reachable o state w s -> requests s !! i = None -> spent sel i (history s) = 0.
Proof.
  intros Hreach Hi. unfold spent.
  destruct (filter _ (history s)) as [|[j ev] l] eqn:Hf; [done|].
  assert (Hin : (j, ev) ∈ (j, ev) :: l) by by left.
  rewrite <-Hf in Hin. apply list_elem_of_filter in Hin as [[Hj _] Hin]. simpl in Hj. subst j.
  destruct (event_has_task s i ev Hreach Hin). congruence.
Qed.

(** What is left of a budget, and that the rest of the program keeps to it. *)
Lemma budget_left sel n s i t :
  (forall route request,
     follows (budget sel) n (protected state route request) (fun _ _ => True)) ->
  reachable o state w s -> requests s !! i = Some t ->
  exists left, left + spent sel i (history s) = n /\
    (dropped t = false -> follows (budget sel) left (rest t) (fun _ _ => True)).
Proof.
  intros Hn Hreach. revert s Hreach i t. apply (reachable_inv o state w (fun s =>
    forall i t, requests s !! i = Some t -> _)); [done|].
  intros s s' Hreach IH Hs j t' Hj.
  destruct Hs as [route request|i t A e k Hi Hd Hr|i t A e k a t1 s1 s2 Hi Hd Hr Ha Hs2|governor Hg].
  - simpl in Hj. apply lookup_snoc_Some in Hj as [[_ Hj]|[-> <-]]; [by apply IH|].
    exists n. simpl. rewrite (spent_none sel s) by (done || by apply lookup_ge_None).
    split; [lia|]. intros _. apply Hn.
  - rewrite drop_task_requests in Hj. rewrite drop_task_history.
    apply list_lookup_insert_Some in Hj as [(-> & <- & _)|[_ Hj]]; [|by apply IH].
    destruct (IH _ _ Hi) as (left & Hl & _). by exists left.
  - destruct (attempt_frame o e t s a t1 s1 Ha) as ((_ & _ & Hr1 & Hd1) & Hh & _ & Hf).
    assert (Hhist : history (record_event i (Happened e a) s2) = history s ++ [(i, Happened e a)]).
    { cbn [record_event history]. destruct Hs2 as [-> | ->]; [simpl|rewrite drop_task_history]; by rewrite Hh. }
    rewrite Hhist, spent_snoc. clear Hhist.
    assert (Hother : i <> j -> requests s1 !! j = Some t' -> exists left,
      left + (spent sel j (history s) +
                (if decide (i = j /\ counts sel (Happened e a) = true) then 1 else 0)) = n /\
      (dropped t' = false -> follows (budget sel) left (rest t') (fun _ _ => True))).
    { intros Hne (t0 & Hj0 & (_ & _ & Hr0 & Hd0) & _)%Hf. rewrite decide_False by tauto.
      rewrite Hr0, Hd0. destruct (IH _ _ Hj0) as (left & Hl & Hgo). exists left. split; [lia|done]. }
    assert (Hmine : exists left, left + (spent sel i (history s) +
                (if decide (i = i /\ counts sel (Happened e a) = true) then 1 else 0)) = n /\
                follows (budget sel) left (k a) (fun _ _ => True)).
    { destruct (IH _ _ Hi) as (left & Hl & Hgo). specialize (Hgo Hd). rewrite Hr in Hgo.
      cbn [follows budget counts] in *. unfold budget in Hgo. destruct (sel A e).
      - destruct left as [|left]; [done|]. exists left. rewrite decide_True by done. split; [lia|apply Hgo].
      - exists left. rewrite decide_False by (by intros []). split; [lia|apply Hgo]. }
    destruct Hmine as (left & Hl & Hgo).
    destruct Hs2 as [-> | ->]; cbn [record_event requests set_task with_requests] in Hj;
      rewrite ?drop_task_requests in Hj;
      apply list_lookup_insert_Some in Hj as [(-> & <- & _)|[Hne Hj]];
      first [by apply Hother | by exists left].
  - simpl in Hj. rewrite list_lookup_fmap in Hj. apply fmap_Some in Hj as (t0 & Hj & ->).
    destruct (IH _ _ Hj) as (left & Hl & _). by exists left.
Qed.

Lemma budget_kept sel n s i :
  (forall route request,
     follows (budget sel) n (protected state route request) (fun _ _ => True)) ->
  reachable o state w s -> spent sel i (history s) <= n.
Proof.
  intros Hn Hreach. destruct (requests s !! i) as [t|] eqn:Hi.
  - destruct (budget_left sel n s i t Hn Hreach Hi) as (left & Hl & _). lia.
  - rewrite spent_none by done. lia.
Qed.

(** The events of the first [n] tasks, at most [m] each. *)
Lemma events_below m n (h : Recorded) :
  (forall i, spent any_effect i h <= m) -> length (filter (fun x => x.1 < n) h) <= m * n.
Proof.
  intros Hm. induction n as [|n IH].
  { clear Hm. rewrite Nat.mul_0_r. induction h as [|[j ev] h IHh]; [done|].
    by rewrite filter_cons_False by (simpl; lia). }
  assert (Hsplit : length (filter (fun x => x.1 < S n) h) =
            length (filter (fun x => x.1 < n) h) + spent any_effect n h).
  { clear. unfold spent. induction h as [|[j ev] h IHh]; [done|]. destruct ev as [A e a].
    rewrite !filter_cons. cbn [fst snd counts any_effect].
    repeat case_decide; simpl in *; try lia; exfalso; naive_solver lia. }
  rewrite Hsplit. specialize (Hm n). lia.
Qed.

Lemma history_bounded s : reachable o state w s -> length (history s) <= 20 * length (requests s).
Proof.
  intros Hreach. rewrite <-(events_below 20 (length (requests s)) (history s)).
  - clear -Hreach. assert (Hall : forall i ev, (i, ev) ∈ history s -> i < length (requests s)).
    { intros i ev Hin. destruct (event_has_task s i ev Hreach Hin) as [t Ht].
      by eapply lookup_lt_Some. }
    induction (history s) as [|[j ev] h IH]; [done|]. rewrite filter_cons_True.
    + simpl. apply le_n_S, IH. intros i x Hin. apply (Hall i x). by right.
    + simpl. apply (Hall j ev). by left.
  - intros i. apply budget_kept; [|done]. intros route request. apply budget_protected.
Qed.

(** Departures are counted and never undone. *)
Definition trues (l : list bool) : nat := length (filter (fun b => b = true) l).
Definition departed s : nat := trues (dropped <$> requests s).

Lemma departed_bounded s : departed s <= length (requests s).
Proof. unfold departed, trues. etrans; [apply length_filter|]. by rewrite length_fmap. Qed.

Lemma trues_insert l i : l !! i = Some false -> trues (<[i := true]> l) = S (trues l).
Proof.
  unfold trues. revert i. induction l as [|b l IH]; intros [|i]; simpl; try done.
  - intros [= ->]. done.
  - intros Hi. rewrite !filter_cons. specialize (IH i Hi). case_decide; simpl; lia.
Qed.

Lemma attempt_dropped {A} (e : Eff A) t s a t1 s1 :
  attempt o e t s = Answers a t1 s1 -> dropped <$> requests s1 = dropped <$> requests s.
Proof.
  intros Ha. destruct (attempt_frame o e t s a t1 s1 Ha) as (_ & _ & Hlen & Hf).
  apply list_eq. intros j. rewrite !list_lookup_fmap.
  destruct (requests s1 !! j) as [t'|] eqn:Hj.
  - destruct (Hf j t' Hj) as (t0 & -> & (_ & _ & _ & Hd) & _). simpl. by rewrite Hd.
  - apply lookup_ge_None in Hj. rewrite Hlen in Hj. by rewrite (proj2 (lookup_ge_None _ _) Hj).
Qed.

Lemma pool_step_length s c s' :
  pool_step o state s c = Some s' -> arrival c = false ->
  length (requests s') = length (requests s).
Proof.
  intros Hc Hno. destruct (pool_step_task o state s c s' Hc Hno)
    as (i & t & A & e & k & _ & _ & _ & [->|(a & t1 & s1 & s2 & Ha & Hs2 & ->)]).
  { by rewrite drop_task_requests, length_insert. }
  destruct (attempt_frame o e t s a t1 s1 Ha) as (_ & _ & <- & _).
  destruct Hs2 as [-> | ->]; cbn [record_event requests set_task with_requests];
    by rewrite ?drop_task_requests, length_insert.
Qed.

(** A step without an arrival adds an event or a departure. *)
Lemma pool_step_measure s c s' :
  pool_step o state s c = Some s' -> arrival c = false ->
  length (history s) + departed s < length (history s') + departed s'.
Proof.
  intros Hc Hno.
  assert (Hgone : forall (l : list Task) i (t t' : Task), l !! i = Some t -> dropped t = false ->
            dropped t' = dropped t ->
            trues (dropped <$> <[i := t']> l) = trues (dropped <$> l) /\
            trues (dropped <$> <[i := gone t']> l) = S (trues (dropped <$> l))).
  { intros l i t t' Hi Hd Hd'. rewrite !list_fmap_insert. rewrite Hd'. split.
    - f_equal. apply list_insert_id. by rewrite list_lookup_fmap, Hi.
    - apply trues_insert. by rewrite list_lookup_fmap, Hi, <-Hd. }
  destruct (pool_step_task o state s c s' Hc Hno)
    as (i & t & A & e & k & Hi & Hd & Hr & [->|(a & t1 & s1 & s2 & Ha & Hs2 & ->)]).
  - unfold departed. rewrite drop_task_history, drop_task_requests.
    destruct (Hgone (requests s) i t t Hi Hd eq_refl) as [_ ->]. lia.
  - destruct (attempt_frame o e t s a t1 s1 Ha) as ((_ & _ & _ & Hd1) & Hh & Hl & Hf).
    assert (Hi1 : exists t0, requests s1 !! i = Some t0 /\ dropped t0 = false).
    { destruct (lookup_lt_is_Some_2 (requests s1) i) as [t0 Ht0].
      { rewrite Hl. by eapply lookup_lt_Some. }
      exists t0. split; [done|]. destruct (Hf i t0 Ht0) as (t2 & ? & (_ & _ & _ & ->) & _). congruence. }
    destruct Hi1 as (t0 & Hi0 & Hd0).
    destruct (Hgone (requests s1) i t0 t1 Hi0 Hd0 ltac:(congruence)) as [_ Hg].
    destruct (Hgone (requests s1) i t0 (with_rest (k a) t1) Hi0 Hd0 ltac:(simpl; congruence)) as [Hs _].
    unfold departed. rewrite <-(attempt_dropped e t s a t1 s1 Ha).
    cbn [record_event history requests]. rewrite length_app. simpl.
    destruct Hs2 as [-> | ->]; [cbn [set_task with_requests requests history]; rewrite Hs, Hh|
      rewrite drop_task_history, drop_task_requests, Hg, Hh]; lia.
Qed.

Lemma pool_run_measure s choices s' :
  pool_run o state s choices = Some s' -> Forall (fun c => arrival c = false) choices ->
  length choices + length (history s) + departed s <= length (history s') + departed s' /\
  length (requests s') = length (requests s).
Proof.
  revert s. induction choices as [|c choices IH]; intros s.
  { intros [= ->]. done. }
  simpl. intros (s1 & Hc & Hrun)%bind_Some [Hno Hall]%Forall_cons.
  pose proof (pool_step_measure s c s1 Hc Hno). pose proof (pool_step_length s c s1 Hc Hno).
  destruct (IH s1 Hrun Hall). lia.
Qed.

Lemma reachable_run s choices s' :
  reachable o state w s -> pool_run o state s choices = Some s' -> reachable o state w s'.
Proof.
  intros [before Hb] Hrun. exists (before ++ choices). by rewrite pool_run_app, Hb.
Qed.

(** ** Grounding what a request heard *)

(** In the history, Keycloak vouches for [user] as the bearer of [request]'s
    token: some request that carried it (or a token with the same SHA-256
    key) asked and was answered. *)
Definition vouched_in s (h : Recorded) (request : Request) (user : AuthenticatedUser) : Prop :=
  exists token leader lt token' reply now,
    bearer_token request = Some token /\
    requests s !! leader = Some lt /\ bearer_token (task_request lt) = Some token' /\
    token_key token' = token_key token /\
    heard h leader _ (SendPost (introspection_post (introspection state) token')) reply /\
    clocked (heard h leader) reply now /\
    vouches (client_expected_audience (introspection state)) reply now user.

Lemma clocked_mono (R R' : forall A, Eff A -> A -> Prop) reply now :
  (forall a, R _ ReadClock a -> R' _ ReadClock a) -> clocked R reply now -> clocked R' reply now.
Proof. intros HR. destruct reply as [|? [body|]]; simpl; auto. Qed.

Lemma bearer_grounded `{!LibraryRepliesLaws _} s h1 h2 i t user :
  reachable o state w s -> history s = h1 ++ h2 -> requests s !! i = Some t ->
  bearer (heard h1 i) state (task_request t) user -> vouched_in s h1 (task_request t) user.
Proof.
  intros Hreach Hh Hi (token & Ht & [(reply & now & Hpost & Hc & Hv)|(rx & Hjoin & Hrecv)]).
  { exists token, i, t, token, reply, now. done. }
  apply list_elem_of_split in Hrecv as (g1 & g2 & Hg). subst h1.
  rewrite <-app_assoc in Hh. simpl in Hh.
  destruct (receive_answer o state w s g1 i rx _ _ Hreach Hh) as (key & leader & Hjoin' & Hsend).
  (* The key it subscribed to is its own token's. *)
  apply list_elem_of_split in Hjoin' as (j1 & j2 & Hj).
  assert (Hown : key = token_key token).
  { rewrite Hj, <-app_assoc in Hh.
    destruct (event_lawful o state w s j1 i _ _ _ _ Hreach Hh) as (t' & Hi' & _ & tok & Htok & ->).
    assert (t' = t) as -> by congruence. congruence. }
  clear j1 j2 Hj. subst key.
  (* The leader's message is the outcome of its own call. *)
  apply list_elem_of_split in Hsend as (l1 & l2 & Hl).
  pose proof Hh as Hh'. rewrite Hl, <-app_assoc in Hh'.
  destruct (event_lawful o state w s l1 leader _ _ _ _ Hreach Hh')
    as (lt & Hlt & _ & token' & Htok' & Hkey & (reply & now & Hpost & Hc & Hact)).
  exists token, leader, lt, token', reply, now.
  assert (Hsub : forall x, x ∈ l1 -> x ∈ g1 ++ (i, Happened (Receive rx) (Ok (Active user))) :: g2).
  { intros x Hx. rewrite Hl. apply elem_of_app. left. apply elem_of_app. by left. }
  split_and!; try done.
  - by apply Hsub.
  - eapply clocked_mono; [|exact Hc]. intros a Ha. by apply Hsub.
  - by apply reply_outcome_active.
Qed.

Lemma vouched_mono s h h' request user :
  h ⊆ h' -> vouched_in s h request user -> vouched_in s h' request user.
Proof.
  intros Hh (token & leader & lt & token' & reply & now & ? & ? & ? & ? & Hp & Hc & ?).
  exists token, leader, lt, token', reply, now. split_and!; try done; [by apply Hh|].
  eapply clocked_mono; [|exact Hc]. intros a Ha. by apply Hh.
Qed.

(** ** Liveness *)

Definition settled_task (t : Task) : Prop :=
  dropped t = true \/ exists response, rest t = Ret response.

Lemma settled_task_dec t : settled_task t \/ dropped t = false /\ forall r, rest t <> Ret r.
Proof.
  unfold settled_task. destruct (dropped t); [auto|]. destruct (rest t); [eauto|]. right. done.
Qed.

(** C7. No request hangs, and none wedges another: in every reachable state,
    after any failures, departures and restarts, as long as some request is
    neither answered nor gone, some request can take its next step; and
    without new arrivals or restarts there are at most 21 steps per request
    before all are settled, whatever the order. *)
Theorem server_never_wedges s :
  reachable o state w s ->
  ((forall i s', pool_step o state s (Advance i) <> Some s') <->
     forall i t, requests s !! i = Some t -> settled_task t) /\
  (forall choices s', Forall (fun c => arrival c = false) choices ->
     pool_run o state s choices = Some s' -> length choices <= 21 * length (requests s)).
Proof.
  intros Hreach. split; [split|].
  - intros Hstuck i t Hi. destruct (settled_task_dec t) as [|[Hd Hr]]; [done|].
    destruct (advance_possible o state w s i t Hreach Hi Hd Hr) as (j & s' & Hs).
    by destruct (Hstuck j s').
  - intros Hall i s'. simpl. destruct (requests s !! i) as [t|] eqn:Hi; [|done]. simpl.
    destruct (Hall i t Hi) as [-> |[response ->]]; [done|]. by destruct (dropped t).
  - intros choices s' Hno Hrun. destruct (pool_run_measure s choices s' Hrun Hno) as [Hm Hlen].
    pose proof (history_bounded s' (reachable_run s choices s' Hreach Hrun)).
    pose proof (departed_bounded s'). lia.
Qed.

(** C29. Bounded work: in any interleaving a request performs at most twenty
    effects, asks Keycloak at most once, also when it falls back from a
    leader that was cancelled, and writes at most one secret. *)
Theorem requests_are_bounded s i :
  reachable o state w s ->
  spent any_effect i (history s) <= 20 /\ spent is_post i (history s) <= 1 /\
  spent is_upsert i (history s) <= 1.
Proof.
  intros Hreach. split_and!; apply budget_kept; try done;
    intros route request; apply budget_protected.
Qed.

(** ** Safety *)

(** The subject whose secret an effect reads, stamps or writes. *)
Definition touches (ev : Event) : option string :=
  match ev with
  | Happened e _ =>
      match e with
      | SelectSecret s | TouchSecret s | UpsertSecret s _ _ => Some s
      | _ => None
      end
  end.

(** What entitles a user to have a request touch a secret. *)
Definition entitled (t : Task) (user : AuthenticatedUser) (who : string) : Prop :=
  match task_route t with
  | RequestPin => who = subject user
  | Provision => has_role user (admin_role (config state)) = true /\
      exists payload, json (task_request t) = Ok payload /\
        who = trim (payload_subject payload) /\ who <> ""%string
  end.

Lemma touch_grounded `{!LibraryRepliesLaws _} s h1 i ev h2 who :
  reachable o state w s -> history s = h1 ++ (i, ev) :: h2 -> touches ev = Some who ->
  exists t user,
    requests s !! i = Some t /\ vouched_in s h1 (task_request t) user /\ entitled t user who.
Proof.
  intros Hreach Hh Hev. destruct ev as [A e a].
  destruct (event_lawful o state w s h1 i A e a h2 Hreach Hh) as (t & Hi & Hp & _).
  exists t. destruct e; simplify_eq/=;
    [destruct Hp as (Hro & user & Hb & Hs)
    |destruct Hp as (Hro & user & payload & Hb & Hadmin & Hj & Hs & Hne)
    |destruct Hp as (Hro & user & Hb & Hs)];
    exists user; unfold entitled; rewrite Hro; (split; [done|]);
    (split; [by eapply bearer_grounded|]); eauto.
Qed.

(** C5. Access control of the running server: whenever a secret was read,
    stamped or written, then before that Keycloak had vouched for the bearer
    of the token on that very request (asked by it or by the request it
    joined, for a token with the same SHA-256 key), the reply being active,
    meant for this server and not expired when the clock was read; and the
    secret was that bearer's own on the PIN route, or the bearer was an
    administrator naming its subject on the provisioning route. *)
Theorem secrets_touched_only_for_vouched_clients `{!LibraryRepliesLaws _} s h1 i ev h2 who :
  reachable o state w s -> history s = h1 ++ (i, ev) :: h2 -> touches ev = Some who ->
  exists t user,
    requests s !! i = Some t /\ vouched_in s h1 (task_request t) user /\
    match task_route t with
    | RequestPin => who = subject user
    | Provision => has_role user (admin_role (config state)) = true /\
        exists payload, json (task_request t) = Ok payload /\
          who = trim (payload_subject payload) /\ who <> ""%string
    end.
Proof. apply touch_grounded. Qed.

(** ** PINs and provisioning *)

(** The one write of a task. *)
Lemma upsert_unique s j who ct nonce who' ct' nonce' r r' :
  reachable o state w s ->
  heard (history s) j _ (UpsertSecret who ct nonce) r ->
  heard (history s) j _ (UpsertSecret who' ct' nonce') r' ->
  Happened (UpsertSecret who ct nonce) r = Happened (UpsertSecret who' ct' nonce') r'.
Proof.
  intros Hreach Hin Hin'.
  assert (Hone : spent is_upsert j (history s) <= 1).
  { apply budget_kept; [|done]. intros route request. apply budget_protected. }
  by apply (spent_once is_upsert j (history s)).
Qed.

(** The one read of a task. *)
Lemma select_unique s i who who' r r' :
  reachable o state w s ->
  heard (history s) i _ (SelectSecret who) r -> heard (history s) i _ (SelectSecret who') r' ->
  Happened (SelectSecret who) r = Happened (SelectSecret who') r'.
Proof.
  intros Hreach Hin Hin'.
  assert (Hone : spent is_select i (history s) <= 1).
  { apply budget_kept; [|done]. intros route request. apply budget_protected. }
  by apply (spent_once is_select i (history s)).
Qed.

Context `{!AeadLaws _}.

(** What AES-GCM needs of the configuration and of the random source. *)
Definition cipher_ready : Prop :=
  length (cipher (crypto (secrets state))) = 32 /\
  forall n, length (random_nonce o n) = NONCE_LEN.

Lemma drawn_nonce s i drawn :
  cipher_ready -> reachable o state w s ->
  heard (history s) i _ GenerateNonce drawn -> length drawn = NONCE_LEN.
Proof.
  intros [_ Hn] Hreach (h1 & h2 & Hh)%list_elem_of_split.
  destruct (history_at o state w s h1 i _ h2 Hreach Hh)
    as (s1 & t & _ & _ & _ & _ & _ & _ & (t1 & s2 & Ha) & _).
  cbn [attempt exec_eff] in Ha. injection Ha as <- _ _. apply Hn.
Qed.

(** An encryption under a drawn nonce is undone by [decrypt]. *)
Lemma drawn_decrypts s i secret ct nonce :
  cipher_ready -> reachable o state w s ->
  drawn_and_encrypted (heard (history s) i) (secrets state) secret ct nonce ->
  decrypt (crypto (secrets state)) ct nonce = Ok secret.
Proof.
  intros Hready Hreach (drawn & _ & Hdrawn & Henc).
  pose proof (drawn_nonce s i drawn Hready Hreach Hdrawn) as Hlen.
  by destruct (encrypt_decrypt _ _ _ _ _ (proj1 Hready) Hlen Henc).
Qed.

Lemma shown_secret `{!LibraryRepliesLaws _} s j t response :
  cipher_ready -> reachable o state w s -> requests s !! j = Some t ->
  rest t = Ret response -> task_route t = Provision -> honest (task_request t) ->
  status response = 200%Z ->
  exists p payload secret ct nonce,
    body response = BodyProvision p /\ Middleware.secret_base32 p = to_base32 secret /\
    json (task_request t) = Ok payload /\
    heard (history s) j _ GenerateSecret secret /\
    decrypt (crypto (secrets state)) ct nonce = Ok secret /\
    (forall ev row, (j, ev) ∈ history s -> upsert_of ev = Some row ->
       row = (trim (payload_subject payload), (ct, nonce))) /\
    heard (history s) j _ (UpsertSecret (trim (payload_subject payload)) ct nonce) (Ok tt).
Proof.
  intros Hready Hreach Hj Hr Hro Hh Hs.
  pose proof (response_earned o state w s j t response Hreach Hj Hr) as He.
  rewrite Hro in He. destruct (He (fun _ => Hh) Hs) as (p & Hb & Hp).
  destruct Hp as (admin & payload & secret & ct & nonce & _ & _ & Hjson & _ & Hd & Hup & H32 & _).
  exists p, payload, secret, ct, nonce. split_and!; try done.
  - by destruct Hd as (drawn & Hsecret & _).
  - by eapply drawn_decrypts.
  - intros ev row Hin Hev. destruct ev as [A e a]. destruct e; try done.
    pose proof (upsert_unique s j _ _ _ _ _ _ _ _ Hreach Hup Hin) as Heq.
    apply (f_equal upsert_of) in Heq. rewrite Hev in Heq. simpl in Heq. congruence.
Qed.

(** C18. The secret an administrator is shown is the one that is stored: when a
    provisioning was answered 200, its request wrote exactly one row, for the
    subject it named, and that row decrypts to the secret whose base32 text
    is in the answer, freshly drawn for this request. *)
Theorem shown_secret_is_the_stored_one `{!LibraryRepliesLaws _} s j t response :
  cipher_ready -> reachable o state w s -> requests s !! j = Some t ->
  rest t = Ret response -> task_route t = Provision -> honest (task_request t) ->
  status response = 200%Z ->
  exists p payload secret ct nonce,
    body response = BodyProvision p /\ Middleware.secret_base32 p = to_base32 secret /\
    json (task_request t) = Ok payload /\
    heard (history s) j _ GenerateSecret secret /\
    decrypt (crypto (secrets state)) ct nonce = Ok secret /\
    (forall ev row, (j, ev) ∈ history s -> upsert_of ev = Some row ->
       row = (trim (payload_subject payload), (ct, nonce))) /\
    heard (history s) j _ (UpsertSecret (trim (payload_subject payload)) ct nonce) (Ok tt).
Proof. apply shown_secret. Qed.

(** A PIN [p] that request [i] of [user] was given at the time [now] is the
    code of [secret], which request [j] had provisioned [user] with. *)
Record issued_from s (i : nat) (t : Task) (p : PinResponse) (user : AuthenticatedUser)
    (secret : list Z) (now : Z) (j : nat) (tj : Task) : Prop := {
  issued_to_bearer : vouched_in s (history s) (task_request t) user;
  (** The last write of the subject before the read was [j]'s. *)
  issued_after_last_write : exists h1 ct nonce r h2 h3,
    history s = h1 ++ (j, Happened (UpsertSecret (subject user) ct nonce) r)
      :: h2 ++ (i, Happened (SelectSecret (subject user)) (Ok (Some (ct, nonce)))) :: h3 /\
    applied r = true /\ untouched (subject user) h2 /\ heard h1 j _ GenerateSecret secret;
  (** [j] was an administrator's request to provision that subject. *)
  issued_provisioner : requests s !! j = Some tj /\ task_route tj = Provision /\
    exists admin payload, vouched_in s (history s) (task_request tj) admin /\
      has_role admin (admin_role (config state)) = true /\
      json (task_request tj) = Ok payload /\ trim (payload_subject payload) = subject user;
  (** The code. *)
  issued_code : heard (history s) i _ ReadClock now /\ (0 <= now)%Z /\
    exists generated, generate_at secret (as_u64 now) = Ok generated /\
      p = {| Middleware.pin := TotpGen.pin generated;
             Middleware.valid_for_seconds := TotpGen.valid_for_seconds generated |};
  (** What the administrator was shown. *)
  issued_shown shown : rest tj = Ret shown -> status shown = 200%Z ->
    honest (task_request tj) -> exists q,
      body shown = BodyProvision q /\ Middleware.secret_base32 q = to_base32 secret
}.

Lemma pin_issued_from `{!LibraryRepliesLaws _} s i t response :
  cipher_ready -> totp_secrets w = ∅ -> reachable o state w s -> requests s !! i = Some t ->
  rest t = Ret response -> task_route t = RequestPin -> status response = 200%Z ->
  exists p user secret now j tj,
    body response = BodyPin p /\ issued_from s i t p user secret now j tj.
Proof.
  intros Hready Hempty Hreach Hi Hr Hro Hs.
  pose proof (response_earned o state w s i t response Hreach Hi Hr) as He.
  rewrite Hro in He. destruct (He ltac:(done) Hs) as (p & Hb & user & secret & generated & Hbearer &
    (ct & nonce & Hread & Hdec) & (now & Hnow & Hpos & Hgen) & Hp & _ & _).
  apply list_elem_of_split in Hread as (g1 & h3 & Hh).
  (* The row was written by the last upsert before the read. *)
  pose proof (select_answer o state w s g1 i _ _ h3 Hreach Hh) as Hrow. symmetry in Hrow.
  apply replay_lookup in Hrow as [[Hw _]|(h1 & j & ev & h2 & -> & Hev & Hun)].
  { unfold columns in Hw. by rewrite Hempty, fmap_empty, lookup_empty in Hw. }
  rewrite <-app_assoc in Hh. simpl in Hh. destruct ev as [A e a]. destruct e; try done.
  cbn [upsert_of] in Hev. destruct (applied a) eqn:Happ; [|done]. injection Hev as -> -> ->.
  (* Which was lawful. *)
  destruct (event_lawful o state w s h1 j _ _ _ _ Hreach Hh)
    as (tj & Hj & (Hroj & admin & payload & Hbj & Hadmin & Hjson & Hsub & _) & secret' & Henc).
  assert (Hsub1 : forall x, x ∈ h1 -> x ∈ history s).
  { intros x Hx. rewrite Hh. apply elem_of_app. by left. }
  assert (Hdec' : decrypt (crypto (secrets state)) ct nonce = Ok secret').
  { apply (drawn_decrypts s j); [done..|]. destruct Henc as (drawn & ? & ? & ?).
    exists drawn. split_and!; [by apply Hsub1..|done]. }
  assert (secret' = secret) as -> by congruence.
  exists p, user, secret, now, j, tj. split; [done|]. split.
  - eapply bearer_grounded; [done|symmetry; apply app_nil_r|done|exact Hbearer].
  - exists h1, ct, nonce, a, h2, h3. split_and!; [done..|].
    by destruct Henc as (drawn & Hsecret & _).
  - split_and!; [done..|]. exists admin, payload. split_and!; try done.
    eapply vouched_mono; [|by eapply bearer_grounded]. done.
  - split_and!; [done..|]. by exists generated.
  - intros shown Hrj Hsj Hhon.
    destruct (shown_secret s j tj shown Hready Hreach Hj Hrj Hroj Hhon Hsj)
      as (q & payload' & secret' & ct' & nonce' & Hq & H32 & _ & _ & Hdec2 & Hone & _).
    exists q. split; [done|]. rewrite H32. f_equal.
    assert (Hin : (j, Happened (UpsertSecret (subject user) ct nonce) a) ∈ history s).
    { rewrite Hh. apply elem_of_app. right. by left. }
    specialize (Hone _ (subject user, (ct, nonce)) Hin).
    cbn [upsert_of] in Hone. rewrite Happ in Hone. specialize (Hone eq_refl). congruence.
Qed.

(** Two requests, linked by the row: what [j] showed its administrator is what
    [i]'s PIN was computed from, if [j]'s write was the last before [i]'s read. *)
Lemma pin_of_shown_secret `{!LibraryRepliesLaws _} s i ti response j tj shown q who
    h1 ct nonce r h2 a h3 :
  cipher_ready -> reachable o state w s ->
  requests s !! j = Some tj -> rest tj = Ret shown -> task_route tj = Provision ->
  honest (task_request tj) -> status shown = 200%Z -> body shown = BodyProvision q ->
  requests s !! i = Some ti -> rest ti = Ret response -> task_route ti = RequestPin ->
  status response = 200%Z ->
  history s = h1 ++ (j, Happened (UpsertSecret who ct nonce) r)
    :: h2 ++ (i, Happened (SelectSecret who) a) :: h3 -> untouched who h2 ->
  exists user secret now generated,
    vouched_in s (history s) (task_request ti) user /\ subject user = who /\
    heard (history s) j _ GenerateSecret secret /\ Middleware.secret_base32 q = to_base32 secret /\
    heard (history s) i _ ReadClock now /\ (0 <= now)%Z /\
    generate_at secret (as_u64 now) = Ok generated /\
    body response = BodyPin {| Middleware.pin := TotpGen.pin generated;
      Middleware.valid_for_seconds := TotpGen.valid_for_seconds generated |}.
Proof.
  intros Hready Hreach Hj Hrj Hroj Hhon Hsj Hq Hi Hri Hroi Hsi Hh Hun.
  destruct (shown_secret s j tj shown Hready Hreach Hj Hrj Hroj Hhon Hsj)
    as (q' & payload & secret & ct' & nonce' & Hq' & H32 & _ & Hdrawn & Hdec & _ & Hup).
  assert (q' = q) as -> by congruence.
  assert (Hwrite : heard (history s) j _ (UpsertSecret who ct nonce) r).
  { unfold heard. rewrite Hh. apply elem_of_app. right. by left. }
  pose proof (upsert_unique s j _ _ _ _ _ _ _ _ Hreach Hup Hwrite) as Heq.
  apply (f_equal upsert_of) in Heq. cbn [upsert_of applied] in Heq.
  assert (Hev : upsert_of (Happened (UpsertSecret who ct nonce) r) = Some (who, (ct', nonce'))).
  { cbn [upsert_of]. destruct (applied r); [congruence|done]. }
  pose proof (response_earned o state w s i ti response Hreach Hi Hri) as He.
  rewrite Hroi in He. destruct (He ltac:(done) Hsi) as (p & Hb & user & secret' & generated &
    Hbearer & (ct2 & nonce2 & Hread & Hdec2) & (now & Hnow & Hpos & Hgen) & Hp & _ & _).
  assert (Hselect : heard (history s) i _ (SelectSecret who) a).
  { unfold heard. rewrite Hh, app_comm_cons, app_assoc. apply elem_of_app. right. by left. }
  pose proof (select_unique s i _ _ _ _ Hreach Hread Hselect) as Hsel.
  assert (Hwho : touches (Happened (SelectSecret (subject user)) (Ok (Some (ct2, nonce2)))) =
            touches (Happened (SelectSecret who) a)) by (by rewrite Hsel).
  injection Hwho as Hwho. rewrite app_comm_cons, app_assoc in Hh.
  rewrite <-Hsel, Hwho in Hh.
  pose proof (select_answer o state w s _ i _ _ _ Hreach Hh) as Hrow.
  rewrite (replay_last _ _ _ _ _ _ _ Hev Hun) in Hrow. injection Hrow as -> ->.
  assert (secret' = secret) as -> by congruence.
  exists user, secret, now, generated. split_and!; try done; [|by rewrite Hb, Hp].
  eapply bearer_grounded; [done|symmetry; apply app_nil_r|done|exact Hbearer].
Qed.

(** C6. Whatever else happens at the same time, and however often the server is
    started again, a PIN that leaves the server is the code, at a time the
    server read, of the secret its user was last provisioned with: the last
    write of that subject to take effect before the request read the row (none
    came in between, and whether its answer reached the server or was lost), made by a provisioning request of a vouched-for
    administrator naming that subject, of a secret freshly drawn for it; and
    if that administrator was answered 200, the answer showed exactly this
    secret. *)
Theorem pin_is_of_last_provisioning `{!LibraryRepliesLaws _} s i t response :
  cipher_ready -> totp_secrets w = ∅ -> reachable o state w s -> requests s !! i = Some t ->
  rest t = Ret response -> task_route t = RequestPin -> status response = 200%Z ->
  exists p user secret now j tj,
    body response = BodyPin p /\ issued_from s i t p user secret now j tj.
Proof. apply pin_issued_from. Qed.

(** ** The audit log *)

Lemma attempt_log {A} (e : Eff A) t s a t1 s1 row :
  attempt o e t s = Answers a t1 s1 -> row ∈ request_log (world s1) ->
  row ∈ request_log (world s) \/
  exists r, applied r = true /\
    Happened e a = Happened (InsertLog (row_id row) (row_subject row) (row_result row)) r.
Proof.
  intros Ha. destruct e; cbn [attempt exec_eff] in Ha; unfold db in Ha; repeat case_match;
    simplify_eq/=; try (by left);
    (intros [Hin|Hin]%elem_of_app; [by left|right]);
    apply list_elem_of_singleton in Hin; subst row; eexists; (split; [|reflexivity]); done.
Qed.

(** Every row was there from the start or was inserted by a request. *)
Lemma log_rows s row :
  reachable o state w s -> row ∈ request_log (world s) ->
  row ∈ request_log w \/
  exists i r, applied r = true /\
    heard (history s) i _ (InsertLog (row_id row) (row_subject row) (row_result row)) r.
Proof.
  intros Hreach. revert s Hreach row. apply (reachable_inv o state w (fun s =>
    forall row, row ∈ request_log (world s) -> _)); [by left|].
  intros s s' _ IH Hs row Hin.
  assert (Hold : row ∈ request_log (world s) -> row ∈ request_log w \/ exists i r,
    applied r = true /\
    heard (history s') i _ (InsertLog (row_id row) (row_subject row) (row_result row)) r).
  { intros [?|(i & r & Hr & Hi)]%IH; [by left|right]. exists i, r. split; [done|].
    destruct (stepped_history_grows o state s s' Hs) as [h ->]. apply elem_of_app. by left. }
  destruct (stepped_effect o state s s' Hs)
    as [(_ & governor & Hw)|(i & t & A & e & k & a & t1 & s1 & _ & _ & _ & Ha & Hh & Hw)];
    rewrite Hw in Hin.
  - by apply Hold.
  - destruct (attempt_log e t s a t1 s1 row Ha Hin) as [?|(r & Happ & Hev)]; [by apply Hold|].
    right. exists i, r. split; [done|]. unfold heard. rewrite <-Hev, Hh.
    apply elem_of_app. right. by apply list_elem_of_singleton.
Qed.

(** Ids of rows are used once. *)
Lemma insert_ids_differ s h1 i id who res r h2 j who' res' r' :
  reachable o state w s ->
  history s = h1 ++ (i, Happened (InsertLog id who res) r) :: h2 ->
  heard h1 j _ (InsertLog id who' res') r' -> applied r = true -> applied r' = true -> False.
Proof.
  intros Hreach Hh Hj Hr Hr'.
  destruct (history_at o state w s h1 i _ h2 Hreach Hh)
    as (s1 & t & _ & Hreach1 & <- & _ & _ & _ & (t1 & s2 & Ha) & _).
  destruct (reachable_world o state w s1 Hreach1) as (_ & _ & Hleft).
  destruct (Hleft _ _ Hj Hr') as (row & Hin & Hid & _).
  cbn [attempt exec_eff] in Ha. unfold db in Ha.
  rewrite decide_True in Ha by (rewrite <-Hid; by apply list_elem_of_fmap_2).
  destruct (db_error o (tick (world s1))) as [[text []]|]; injection Ha as <- _ _; simpl in Hr; congruence.
Qed.

(** C8. No PIN leaves unaudited: for every 200 on the PIN route an "issued" row
    for the user Keycloak vouched for was inserted by that very request, or
    the loss of the row was reported on the server's log with the reason;
    rows are never overwritten or removed, and no two requests share a row. *)
Theorem every_pin_is_audited `{!LibraryRepliesLaws _} s i t response :
  reachable o state w s -> requests s !! i = Some t -> rest t = Ret response ->
  task_route t = RequestPin -> status response = 200%Z ->
  exists user id answer,
    vouched_in s (history s) (task_request t) user /\
    heard (history s) i _ (InsertLog id (Some (subject user)) "issued") answer /\
    match answer with
    | Ok _ =>
        (exists row, row ∈ request_log (world s) /\ row_id row = id /\
           row_subject row = Some (subject user) /\ row_result row = "issued"%string) /\
        (forall j who res r, heard (history s) j _ (InsertLog id who res) r ->
           applied r = true -> j = i)
    | Err err => audit_failure (Some (subject user)) Issued (db_text err) ∈ traces (world s)
    end.
Proof.
  intros Hreach Hi Hr Hro Hs.
  pose proof (response_earned o state w s i t response Hreach Hi Hr) as He.
  rewrite Hro in He. destruct (He ltac:(done) Hs)
    as (p & _ & user & secret & generated & Hb & _ & _ & _ & _ & (id & answer & Hin & Hlost)).
  destruct (reachable_world o state w s Hreach) as (_ & _ & Hleft).
  exists user, id, answer. split_and!; [|done|].
  { eapply bearer_grounded; [done|symmetry; apply app_nil_r|done|exact Hb]. }
  destruct answer as [[]|err]; [split|].
  - by apply (Hleft i _ Hin).
  - intros j who res r Hj Happ. apply list_elem_of_split in Hin as (h1 & h2 & Hh).
    pose proof Hj as Hj'. unfold heard in Hj'. rewrite Hh in Hj'.
    apply elem_of_app in Hj' as [Hj'|[Heq|Hj']%elem_of_cons].
    + by destruct (insert_ids_differ s h1 i id _ _ _ h2 j who res r Hreach Hh).
    + exact (f_equal fst Heq).
    + apply list_elem_of_split in Hj' as (g1 & g2 & ->).
      rewrite app_comm_cons, app_assoc in Hh.
      destruct (insert_ids_differ s _ j id who res r g2 i (Some (subject user)) "issued" (Ok tt)
                  Hreach Hh); [|done..].
      apply elem_of_app. right. by left.
  - by apply (Hleft i _ (Hlost err eq_refl)).
Qed.

(** C9. The audit log never claims more than happened: every "issued" row added
    since the start was inserted by a PIN request of the subject it names,
    whom Keycloak had vouched for, after its secret's use was stamped; every
    "provisioned" row by a request that had written that subject's secret
    for a vouched-for administrator. *)
Theorem audit_log_is_truthful `{!LibraryRepliesLaws _} s row :
  reachable o state w s -> row ∈ request_log (world s) -> row ∉ request_log w ->
  exists i t, requests s !! i = Some t /\
    (row_result row = "issued"%string -> exists user,
       row_subject row = Some (subject user) /\
       vouched_in s (history s) (task_request t) user /\
       task_route t = RequestPin /\
       heard (history s) i _ (TouchSecret (subject user)) (Ok tt)) /\
    (row_result row = "provisioned"%string -> exists who ct nonce admin,
       row_subject row = Some who /\ task_route t = Provision /\
       heard (history s) i _ (UpsertSecret who ct nonce) (Ok tt) /\
       vouched_in s (history s) (task_request t) admin /\
       has_role admin (admin_role (config state)) = true).
Proof.
  intros Hreach Hrow Hnew. destruct (log_rows s row Hreach Hrow) as [|(i & r & _ & Hin)]; [done|].
  apply list_elem_of_split in Hin as (h1 & h2 & Hh).
  destruct (event_lawful o state w s h1 i _ _ _ _ Hreach Hh)
    as (t & Hi & _ & _ & _ & Hiss & Hprov).
  assert (Hground : forall g1 g2 user, h1 = g1 ++ g2 ->
    bearer (heard g1 i) state (task_request t) user ->
    vouched_in s (history s) (task_request t) user).
  { intros g1 g2 user -> Hb.
    eapply bearer_grounded; [done|symmetry; apply app_nil_r|done|].
    destruct Hb as (token & Ht & Hv). exists token. split; [done|].
    assert (Hsub : forall x, x ∈ g1 -> x ∈ history s).
    { intros x Hx. rewrite Hh. apply elem_of_app. left. apply elem_of_app. by left. }
    destruct Hv as [(reply & now & Hp & Hc & Hv)|(rx & Hjn & Hrc)]; [left|right].
    - exists reply, now. split_and!; [by apply Hsub| |done].
      eapply clocked_mono; [|exact Hc]. intros a Ha. by apply Hsub.
    - exists rx. split; by apply Hsub. }
  assert (Hmid : forall g1 g2 x, h1 = g1 ++ x :: g2 -> x ∈ history s).
  { intros g1 g2 x ->. rewrite Hh. apply elem_of_app. left. apply elem_of_app. right. by left. }
  exists i, t. split; [done|]. split.
  - intros Hres. destruct (Hiss Hres) as (user & Hs & Hb & Htouch). exists user.
    apply list_elem_of_split in Htouch as (g1 & g2 & Hg). pose proof Hh as Hh'.
    rewrite Hg, <-app_assoc in Hh'.
    destruct (event_lawful o state w s g1 i _ _ _ _ Hreach Hh') as (t' & Hi' & (Hro & _) & _).
    assert (t' = t) as -> by congruence.
    split_and!; [done| |done|].
    + apply (Hground h1 []); [by rewrite app_nil_r|exact Hb].
    + by apply (Hmid g1 g2).
  - intros Hres. destruct (Hprov Hres) as (who & ct & nonce & Hs & Hup).
    apply list_elem_of_split in Hup as (g1 & g2 & Hg). pose proof Hh as Hh'.
    rewrite Hg, <-app_assoc in Hh'.
    destruct (event_lawful o state w s g1 i _ _ _ _ Hreach Hh')
      as (t' & Hi' & (Hro & admin & payload & Hb & Hadmin & _) & _).
    assert (t' = t) as -> by congruence.
    exists who, ct, nonce, admin. split_and!; try done.
    + by apply (Hmid g1 g2).
    + by apply (Hground g1 _ admin Hg).
Qed.
End Concurrent.

(** ** Witnesses: an administrator provisions himself, the server is started
    again, then he asks twice at once *)

#[local] Existing Instances sha1_hmac tagging_aead tagging_aead_laws
  reference_totp_rs reference_totp_rs_laws identity_hash no_text
  latin_headers plain_replies plain_replies_laws.

Definition root_keycloak (_ : nat) (post : Post) : HttpReply :=
  Reply 200 (Ok {| active := bool_decide (post_token post = "root-token"%string);
                   sub := Some "bob"%string; aud := Some (One "totp-server"%string);
                   exp := Some 1111111400%Z;
                   realm_access := Some (mkRealmAccess ["totp-admin"%string]) |}).

Definition demo_schedule : list Choice :=
  [Arrive Provision (bearer_request "root-token")] ++ replicate 13 (Advance 0) ++
  [Restart; Arrive RequestPin (bearer_request "root-token");
   Arrive RequestPin (bearer_request "root-token"); Advance 1; Advance 2] ++
  replicate 12 (Advance 1) ++ replicate 9 (Advance 2) ++
  [Arrive RequestPin (bearer_request "root-token"); Advance 3; GoAway 3 false].

Definition demo_server : Server (gmap string nat) :=
  run_to (calm root_keycloak) demo_state (started fresh_world) demo_schedule.

Lemma load_reachable : reachable (calm root_keycloak) demo_state fresh_world demo_server.
Proof. apply runs_reachable. vm_compute. reflexivity. Qed.

(** A request's place, route and answer. *)
Definition answer_of (s : Server (gmap string nat)) (i : nat) : option (Route * option Response) :=
  (fun t => (task_route t, match rest t with Ret r => Some r | Do _ _ => None end)) <$> requests s !! i.

Lemma answered_task s i route response :
  answer_of s i = Some (route, Some response) ->
  exists t, requests s !! i = Some t /\ task_route t = route /\ rest t = Ret response.
Proof.
  unfold answer_of. intros (t & Ht & [= Hro Hr])%fmap_Some. exists t.
  destruct (rest t) eqn:E; [|done]. by injection Hr as ->.
Qed.

Definition demo_pin : Response :=
  mkResponse 200 (BodyPin (mkPinResponse "118229" 1)).
Definition demo_shown : Response :=
  mkResponse 200 (BodyProvision (mkProvisionResponse
    "AQCAIBAEAQCAIBAEAQCAIBAEAQCAIBAE"
    "otpauth://totp/urheilulaatikko:bob?secret=AQCAIBAEAQCAIBAEAQCAIBAEAQCAIBAE&issuer=urheilulaatikko")).

Lemma demo_pin_answer i : i = 1 \/ i = 2 -> answer_of demo_server i = Some (RequestPin, Some demo_pin).
Proof. intros [-> | ->]; vm_compute; reflexivity. Qed.

Lemma demo_shown_answer : answer_of demo_server 0 = Some (Provision, Some demo_shown).
Proof. vm_compute. reflexivity. Qed.

Lemma demo_ready : cipher_ready (calm root_keycloak) demo_state.
Proof. split; [reflexivity|]. intros n. apply length_replicate. Qed.

Definition demo_cipher : list Z := replicate 32 42%Z ++ replicate 12 5%Z ++ replicate 20 4%Z.

Lemma demo_read : history demo_server !! 21 =
  Some (1, Happened (SelectSecret "bob") (Ok (Some (demo_cipher, replicate 12 5%Z)))).
Proof. vm_compute. reflexivity. Qed.

Definition demo_arrived : Server (gmap string nat) :=
  mkServer fresh_world ∅ 0
    [mkTask Provision (bearer_request "root-token")
       (protected demo_state Provision (bearer_request "root-token")) None None false] [].

Lemma demo_arrived_reachable : reachable (calm root_keycloak) demo_state fresh_world demo_arrived.
Proof. by exists [Arrive Provision (bearer_request "root-token")]. Qed.

Lemma demo_first_steps :
  exists s, pool_run (calm root_keycloak) demo_state demo_arrived (replicate 13 (Advance 0)) = Some s.
Proof. eexists. apply runs_to. vm_compute. reflexivity. Qed.

Lemma server_never_wedges_witness :
  length (replicate 13 (Advance 0)) <= 21 * length (requests demo_arrived).
Proof.
  destruct demo_first_steps as [s Hs].
  destruct (server_never_wedges (calm root_keycloak) demo_state fresh_world demo_arrived
              demo_arrived_reachable) as [_ Hbound].
  apply (Hbound _ s); [|exact Hs]. apply Forall_replicate. reflexivity.
Defined.

Lemma requests_are_bounded_witness :
  spent any_effect 1 (history demo_server) = 13 /\
  spent is_post 2 (history demo_server) <= 1.
Proof.
  split; [vm_compute; reflexivity|].
  apply (requests_are_bounded (calm root_keycloak) demo_state fresh_world demo_server 2
           load_reachable).
Defined.

Lemma secrets_touched_only_for_vouched_clients_witness :
  exists t user, requests demo_server !! 1 = Some t /\
    vouched_in demo_state demo_server (take 21 (history demo_server)) (task_request t) user.
Proof.
  destruct (secrets_touched_only_for_vouched_clients (calm root_keycloak) demo_state fresh_world
              demo_server (take 21 (history demo_server)) 1
              (Happened (SelectSecret "bob") (Ok (Some (demo_cipher, replicate 12 5%Z))))
              (drop 22 (history demo_server)) "bob"%string)
    as (t & user & Ht & Hv & _).
  - exact load_reachable.
  - symmetry. apply take_drop_middle, demo_read.
  - reflexivity.
  - exists t, user. split; assumption.
Defined.

Lemma shown_secret_is_the_stored_one_witness :
  exists p secret, body demo_shown = BodyProvision p /\
    Middleware.secret_base32 p = to_base32 secret.
Proof.
  destruct (answered_task demo_server 0 Provision demo_shown demo_shown_answer)
    as (t & Ht & Hro & Hr).
  destruct (shown_secret_is_the_stored_one (calm root_keycloak) demo_state fresh_world
              demo_server 0 t demo_shown) as (p & payload & secret & ct & nonce & Hb & H32 & _).
  - exact demo_ready.
  - exact load_reachable.
  - exact Ht.
  - exact Hr.
  - exact Hro.
  - assert (Hreq : task_request <$> requests demo_server !! 0 = Some (bearer_request "root-token"))
      by (vm_compute; reflexivity).
    rewrite Ht in Hreq. injection Hreq as ->. intros rejection Hrej. discriminate Hrej.
  - reflexivity.
  - exists p, secret. split; assumption.
Defined.

Lemma pin_is_of_last_provisioning_witness :
  exists t p user secret now j tj,
    body demo_pin = BodyPin p /\
    issued_from demo_state demo_server 2 t p user secret now j tj.
Proof.
  destruct (answered_task demo_server 2 RequestPin demo_pin (demo_pin_answer 2 (or_intror eq_refl)))
    as (t & Ht & Hro & Hr).
  exists t.
  apply (pin_is_of_last_provisioning (calm root_keycloak) demo_state fresh_world demo_server 2 t
           demo_pin demo_ready eq_refl load_reachable Ht Hr Hro eq_refl).
Defined.

Lemma every_pin_is_audited_witness :
  exists user id answer,
    heard (history demo_server) 1 _ (InsertLog id (Some (subject user)) "issued") answer.
Proof.
  destruct (answered_task demo_server 1 RequestPin demo_pin (demo_pin_answer 1 (or_introl eq_refl)))
    as (t & Ht & Hro & Hr).
  destruct (every_pin_is_audited (calm root_keycloak) demo_state fresh_world demo_server 1 t
              demo_pin load_reachable Ht Hr Hro eq_refl) as (user & id & answer & _ & Hin & _).
  exists user, id, answer. exact Hin.
Defined.

Lemma audit_log_is_truthful_witness :
  exists i t, requests demo_server !! i = Some t /\ task_route t = RequestPin.
Proof.
  destruct (audit_log_is_truthful (calm root_keycloak) demo_state fresh_world demo_server
              (mkLogRow 17 (Some "bob"%string) 1111111109 "issued"))
    as (i & t & Hi & Hiss & _).
  - exact load_reachable.
  - vm_compute. right. left.
  - intros Hin. inversion Hin.
  - destruct (Hiss eq_refl) as (user & _ & _ & Hro & _). exists i, t. split; assumption.
Defined.
