(* ===== verification/SingleFlight.v ===== *)
(** * The running server implements the sharing of introspections

    Dedup.v describes how introspections of one token are shared, apart from
    everything else a request does.  Here every step of the running server
    (Pool.v: whole requests, the real map, cancellation) is matched by steps
    of that description, so what holds of the description holds of the
    server.  The link is a protocol that says in which phase of the sharing
    a request's program is. *)

From S2P Require Import Prelude RustText Rfc6238 Sha1 AppError Effects Config Crypto TotpGen.
From S2P Require Import SecretStore Introspection Middleware RateLimit Routes.
From S2P Require Dedup.
From S2P Require Import Provenance Protocol Pool History Flights Serving Concurrent.
Local Open Scope nat_scope.

(** ** Phases of a request *)

Inductive Phase :=
| Outside
(** It leads and has not sent an outcome. *)
| Asking
| Sent (outcome : IntrospectionOutcome)
| Listening (rx : Receiver)
(** Its channel closed without a message. *)
| Alone
| Settled (outcome : IntrospectionOutcome).

#[export] Instance Phase_eq_dec : EqDecision Phase.
Proof. solve_decision. Defined.

(** Effects that have nothing to do with the sharing happen in every phase
    but one: between sending and leaving there is nothing else. *)
Definition elsewhere {A} (phase : Phase) : option (A -> Phase) :=
  match phase with
  | Sent _ => None
  | _ => Some (fun _ => phase)
  end.

Section Sharing.
Context `{!Sha256}.

(** The phases of a request that carries this token, or none. *)
Definition sharing (token : option string) : Protocol Phase := fun A e phase =>
  match e in Eff A return option (A -> Phase) with
  | JoinInflight key =>
      if decide (phase = Outside /\ key = token_key (default ""%string token))
      then Some (fun follower => match follower with Some rx => Listening rx | None => Asking end)
      else None
  | SendPost post =>
      if decide ((phase = Asking \/ phase = Alone) /\ token = Some (post_token post))
      then Some (fun _ => phase) else None
  | Receive rx =>
      if decide (phase = Listening rx)
      then Some (fun message => match message with Ok outcome => Settled outcome | Err _ => Alone end)
      else None
  | SendInflight key outcome =>
      if decide (phase = Asking /\ key = token_key (default ""%string token))
      then Some (fun _ => Sent outcome) else None
  | LeaveInflight key =>
      match phase with
      | Sent outcome => if decide (key = token_key (default ""%string token))
                        then Some (fun _ => Settled outcome) else None
      | _ => None
      end
  | _ => elsewhere phase
  end.
End Sharing.

Section Programs.
Context `{!HeaderText, !Sha256, !StatusText, !Aead, !TotpRs, !LibraryReplies}.
Context (state : AppState).

(** The sharing is over. *)
Definition over (phase : Phase) : Prop :=
  phase = Alone \/ exists outcome, phase = Settled outcome.

Ltac sharing_go :=
  unfold perform; rewrite ?decide_True by auto; follows_go; rewrite ?decide_True by auto; follows_go.

Lemma sharing_call self token phase :
  phase = Asking \/ phase = Alone ->
  follows (sharing (Some token)) phase (call self token) (fun phase' _ => phase' = phase).
Proof.
  intros Hphase. unfold call, evaluate. cbn [perform follows mbind prog_bind sharing].
  rewrite decide_True by done. destruct Hphase as [-> | ->]; follows_go.
Qed.

Lemma sharing_introspect self token :
  follows (sharing (Some token)) Outside (introspect self token)
    (fun phase v => phase = Settled v \/ phase = Alone).
Proof.
  unfold introspect. cbn [perform follows mbind prog_bind sharing].
  rewrite decide_True by done. intros [rx|].
  - cbn [follows sharing]. rewrite decide_True by done. intros [outcome|err]; [by left|].
    eapply follows_mono; [|apply sharing_call; auto]. by right.
  - apply follows_bind. eapply follows_mono; [|apply sharing_call; auto].
    intros ? v ->. cbn [perform follows mbind prog_bind sharing].
    rewrite decide_True by done. intros _. rewrite decide_True by done. intros _. by left.
Qed.

Lemma sharing_handler token phase route request :
  over phase -> follows (sharing token) phase (handler state route request) (fun phase' _ => phase' = phase).
Proof.
  intros Hover. unfold handler. destruct (extension request) as [user|]; [|done].
  assert (Hel : forall A, @elsewhere A phase = Some (fun _ => phase)).
  { by destruct Hover as [-> |[? ->]]. }
  destruct route; [|destruct (json request); [|done]]; rewrite follows_bind;
    unfold request_pin, provision, respond, json_ok;
    destruct Hover as [-> |[? ->]]; follows_go.
Qed.

(** A whole request shares the introspection of its own token, and no other. *)
Lemma sharing_protected route request :
  follows (sharing (bearer_token request)) Outside (protected state route request)
    (fun _ _ => True).
Proof.
  unfold protected, respond, require_authentication. rewrite follows_bind.
  destruct (bearer_token request) as [token|]; [|follows_go].
  rewrite follows_bind. unfold authenticate. rewrite follows_bind.
  eapply follows_mono; [|apply sharing_introspect].
  intros phase outcome Hphase.
  assert (Hover : over phase) by (unfold over; destruct Hphase as [-> | ->]; eauto). clear Hphase.
  destruct (into_result outcome) as [user|e];
    [|destruct Hover as [-> |[? ->]]; follows_go].
  cbn [mret prog_ret follows]. rewrite !follows_bind. cbn [perform follows].
  assert (Hel : @elsewhere unit phase = Some (fun _ => phase)) by by destruct Hover as [-> |[? ->]].
  cbn [sharing]. rewrite Hel. intros _. rewrite follows_bind. unfold audit_rate_limited.
  rewrite follows_bind. unfold governor_layer, extract.
  cbn [extension with_user fmap option_fmap option_map ok_or].
  rewrite follows_bind. cbn [perform follows sharing].
  destruct Hover as [-> |[? ->]]; cbn [elsewhere]; intros [];
    try (eapply follows_mono; [|apply sharing_handler; unfold over; eauto]; intros ? ? ->);
    follows_go.
Qed.
End Programs.

(** ** The simulation *)

Section Simulates.
Context `{!HeaderText, !Sha256, !StatusText, !Aead, !TotpRs, !LibraryReplies}.
Context {L : Type} `{!Governor L, !GovernorBuilder L} (o : Oracle) (state : AppState).
Implicit Types s : Server L.
Implicit Types sys : Dedup.Sys.

Definition token_of (t : Task) : string := default ""%string (bearer_token (task_request t)).

(** The program is in the given phase. *)
Definition in_phase (phase : Phase) (t : Task) : Prop :=
  follows (sharing (bearer_token (task_request t))) phase (rest t) (fun _ _ => True).

(** The request holds this guard and is in this phase, unless it was
    dropped, and then it holds none. *)
Definition working (g : option (list Z)) (phase : Phase) (t : Task) : Prop :=
  dropped t = false /\ guard t = g /\ in_phase phase t.
Definition past (phase : Phase) (t : Task) : Prop :=
  guard t = None /\ (dropped t = true \/ in_phase phase t).

(** What a stage of Dedup.v means for a request of the server.  A request is
    first seen when it joins, and its call is taken to be answered when it
    publishes the answer. *)
Definition at_stage (stage : Dedup.Stage) (t : Task) : Prop :=
  match stage with
  | Dedup.Start | Dedup.Publishing _ _ => False
  | Dedup.Leading _ => working (Some (token_key (token_of t))) Asking t
  | Dedup.Leaving _ outcome => working (Some (token_key (token_of t))) (Sent outcome) t
  | Dedup.Waiting rx message => working None (Listening rx) t /\ mailbox t = Some (rx, message)
  | Dedup.Fallback => past Alone t
  | Dedup.Finished outcome => past (Settled outcome) t
  | Dedup.Cancelled => guard t = None /\ dropped t = true
  end.

(** What the history says of a request at a stage. *)
Definition evidence (h : list (nat * Event)) (i : nat) (key : list Z)
    (stage : Dedup.Stage) : Prop :=
  match stage with
  | Dedup.Fallback => exists rx, heard h i _ (Receive rx) (Err tt)
  | Dedup.Leaving _ outcome => heard h i _ (SendInflight key outcome) tt
  | Dedup.Finished outcome =>
      heard h i _ (SendInflight key outcome) tt \/ exists rx, heard h i _ (Receive rx) (Ok outcome)
  | _ => True
  end.

Lemma evidence_mono h h' i key stage : h ⊆ h' -> evidence h i key stage -> evidence h' i key stage.
Proof. unfold evidence, heard. intros Hh. destruct stage; naive_solver. Qed.

(** [joined] lists the requests that entered the map, in that order: its
    [d]-th element is the request that is task [d] of Dedup.v. *)
Record simulates s sys (joined : list nat) : Prop := {
  sim_entries : Dedup.entries sys = channels s;
  sim_next : Dedup.next_chan sys = next_channel s;
  sim_once : NoDup joined;
  sim_length : length joined = length (Dedup.tasks sys);
  sim_joined d i : joined !! d = Some i ->
    exists t stage, requests s !! i = Some t /\
      Dedup.tasks sys !! d = Some (token_of t, stage) /\ at_stage stage t /\
      evidence (history s) i (token_key (token_of t)) stage;
  sim_outside i t : requests s !! i = Some t -> i ∉ joined -> past Outside t
}.

(** A request moves on with its task. *)
Lemma sim_move s sys joined d i t t' stage stage' s' sys' :
  simulates s sys joined -> joined !! d = Some i -> requests s !! i = Some t ->
  Dedup.tasks sys !! d = Some (token_of t, stage) ->
  token_of t' = token_of t -> at_stage stage' t' ->
  evidence (history s') i (token_key (token_of t)) stage' ->
  requests s' = <[i := t']> (requests s) -> history s ⊆ history s' ->
  Dedup.tasks sys' = <[d := (token_of t, stage')]> (Dedup.tasks sys) ->
  Dedup.entries sys' = channels s' -> Dedup.next_chan sys' = next_channel s' ->
  simulates s' sys' joined.
Proof.
  intros Hsim Hd Hi Ht Htok Hat Hev Hreq Hh Htasks He Hn.
  split; [done|done|apply Hsim|by rewrite Htasks, length_insert; apply Hsim| |].
  - intros d' i' Hd'. rewrite Hreq, Htasks. destruct (decide (d = d')) as [<-|Hne].
    + assert (i' = i) as -> by congruence. exists t', stage'. rewrite Htok.
      split_and!; [| |done|done]; apply list_lookup_insert_eq; by eapply lookup_lt_Some.
    + assert (i <> i').
      { intros <-. apply Hne. eapply NoDup_lookup; [apply Hsim|done..]. }
      rewrite !list_lookup_insert_ne by done.
      destruct (sim_joined _ _ _ Hsim d' i' Hd') as (x & st & ? & ? & ? & ?).
      exists x, st. split_and!; [done..|by eapply evidence_mono].
  - intros i' x Hx Hout. rewrite Hreq, list_lookup_insert_ne in Hx.
    + by apply (sim_outside _ _ _ Hsim i').
    + intros ->. apply Hout. by eapply list_elem_of_lookup_2.
Qed.

(** A request that has not joined moves on. *)
Lemma sim_stay s sys joined i t' s' :
  simulates s sys joined -> i ∉ joined -> past Outside t' ->
  requests s' = <[i := t']> (requests s) -> history s ⊆ history s' ->
  channels s' = channels s -> next_channel s' = next_channel s -> simulates s' sys joined.
Proof.
  intros Hsim Hi Hpast Hreq Hh Hch Hn. split; try rewrite ?Hch, ?Hn; try apply Hsim.
  - intros d j Hd. rewrite Hreq, list_lookup_insert_ne.
    { destruct (sim_joined _ _ _ Hsim d j Hd) as (x & st & ? & ? & ? & ?).
      exists x, st. split_and!; [done..|by eapply evidence_mono]. }
    intros ->. apply Hi. by eapply list_elem_of_lookup_2.
  - intros j x Hx Hj. rewrite Hreq in Hx.
    apply list_lookup_insert_Some in Hx as [(-> & <- & _)|[_ Hx]]; [done|].
    by apply (sim_outside _ _ _ Hsim j).
Qed.

(** A request joins: its task arrives and takes its first step. *)
Lemma sim_join s sys joined i t t' stage s' sys' :
  simulates s sys joined -> i ∉ joined -> requests s !! i = Some t ->
  token_of t' = token_of t -> at_stage stage t' ->
  evidence (history s') i (token_key (token_of t)) stage ->
  requests s' = <[i := t']> (requests s) -> history s ⊆ history s' ->
  Dedup.tasks sys' = Dedup.tasks sys ++ [(token_of t, stage)] ->
  Dedup.entries sys' = channels s' -> Dedup.next_chan sys' = next_channel s' ->
  simulates s' sys' (joined ++ [i]).
Proof.
  intros Hsim Hout Hi Htok Hat Hev Hreq Hh Htasks He Hn.
  pose proof (sim_length _ _ _ Hsim) as Hlen.
  split; [done|done| | | |].
  - apply NoDup_app. split_and!; [apply Hsim|set_solver|apply NoDup_singleton].
  - rewrite Htasks, !length_app. simpl. lia.
  - intros d j Hd. rewrite Hreq, Htasks.
    apply lookup_snoc_Some in Hd as [[Hlt Hd]|[-> <-]].
    + assert (i <> j) by (intros ->; apply Hout; by eapply list_elem_of_lookup_2).
      rewrite list_lookup_insert_ne by done. rewrite lookup_app_l by lia.
      destruct (sim_joined _ _ _ Hsim d j Hd) as (x & st & ? & ? & ? & ?).
      exists x, st. split_and!; [done..|by eapply evidence_mono].
    + exists t', stage. rewrite Htok, Hlen, list_lookup_middle by done.
      split_and!; [|done..]. apply list_lookup_insert_eq. by eapply lookup_lt_Some.
  - intros j x Hx Hj. rewrite Hreq in Hx. rewrite elem_of_app, list_elem_of_singleton in Hj.
    rewrite list_lookup_insert_ne in Hx by (intros ->; tauto).
    apply (sim_outside _ _ _ Hsim j); tauto.
Qed.

(** A message is delivered on both sides. *)
Lemma sim_deliver s sys joined chan outcome :
  simulates s sys joined ->
  simulates (deliver chan outcome s) (Dedup.send chan outcome sys) joined.
Proof.
  intros Hsim. split; try apply Hsim.
  - simpl. rewrite length_fmap. apply Hsim.
  - intros d i Hd. destruct (sim_joined _ _ _ Hsim d i Hd) as (t & stage & Hi & Ht & Hat & Hev).
    simpl. rewrite !list_lookup_fmap, Hi, Ht. simpl.
    destruct (deliver_to_work chan outcome t) as ((_ & Hq & Hr & Hdr) & Hg).
    assert (Htok : token_of (deliver_to chan outcome t) = token_of t) by (unfold token_of; by rewrite Hq).
    exists (deliver_to chan outcome t). rewrite Htok.
    assert (Hkeep : forall g phase, working g phase t -> working g phase (deliver_to chan outcome t)).
    { unfold working, in_phase. by rewrite Hq, Hr, Hdr, Hg. }
    assert (Hpast : forall phase, past phase t -> past phase (deliver_to chan outcome t)).
    { unfold past, in_phase. by rewrite Hq, Hr, Hdr, Hg. }
    destruct stage as [|c|c out|c out|rx message| |out|]; cbn [at_stage] in *;
      try (eexists; split_and!; [done|reflexivity|simpl; rewrite ?Htok; eauto; by rewrite ?Hg, ?Hdr|done]); try done.
    destruct Hat as [Hw Hbox]. destruct message as [message|].
    + exists (Dedup.Waiting rx (Some message)). split_and!; [done..| |done]. split; [by apply Hkeep|].
      unfold deliver_to. by rewrite Hbox.
    + simpl. unfold deliver_to. rewrite Hbox. case_decide.
      * eexists. split_and!; [done..| |done]. split; [|done]. unfold working.
        specialize (Hkeep _ _ Hw). by destruct t.
      * eexists. split_and!; [done..| |done]. by split.
  - intros i t' Hi Hout. simpl in Hi. rewrite list_lookup_fmap in Hi.
    apply fmap_Some in Hi as (t & Hi & ->).
    destruct (deliver_to_work chan outcome t) as ((_ & Hq & Hr & Hdr) & Hg).
    pose proof (sim_outside _ _ _ Hsim i t Hi Hout) as Hp.
    unfold past, in_phase, token_of in *. by rewrite Hq, Hr, Hdr, Hg.
Qed.

(** ** Steps *)

Lemma history_event (h : list (nat * Event)) i ev : h ⊆ h ++ [(i, ev)].
Proof. intros x Hx. apply elem_of_app. by left. Qed.

Lemma last_heard (h : list (nat * Event)) i A (e : Eff A) a : heard (h ++ [(i, Happened e a)]) i A e a.
Proof. apply elem_of_app. right. by apply list_elem_of_singleton. Qed.

(** The side conditions of [sim_move] and its like. *)
Ltac sim_sides Hsim := try done; try apply Hsim; try match goal with |- _ ⊆ _ => apply history_event end;
  try first [ apply last_heard | eexists; apply last_heard | right; eexists; apply last_heard ].

(** Effects that are not on the in-flight map. *)
Definition apart {A} (e : Eff A) : bool :=
  match e with
  | JoinInflight _ | Receive _ | SendInflight _ _ | LeaveInflight _ => false
  | _ => true
  end.

Lemma apart_attempt {A} (e : Eff A) t s a t1 s1 :
  apart e = true -> attempt o e t s = Answers a t1 s1 ->
  t1 = t /\ exists w, s1 = with_world w s.
Proof.
  destruct e; intros He Ha; try done; cbn [attempt] in Ha; repeat case_match; simplify_eq; eauto.
Qed.

(** The next phase, whatever the answer. *)
Lemma in_phase_next {A} (e : Eff A) k phase t :
  in_phase phase t -> rest t = Do e k ->
  exists next, sharing (bearer_token (task_request t)) A e phase = Some next /\
    forall a t', task_request t' = task_request t -> rest t' = k a -> in_phase (next a) t'.
Proof.
  unfold in_phase. intros Hp Hr. rewrite Hr in Hp. cbn [follows] in Hp.
  destruct (sharing (bearer_token (task_request t)) A e phase) as [next|]; [|done].
  exists next. split; [done|]. intros a t' -> ->. apply Hp.
Qed.

Lemma in_phase_apart {A} (e : Eff A) k phase t a :
  apart e = true -> in_phase phase t -> rest t = Do e k -> in_phase phase (with_rest (k a) t).
Proof.
  intros He Hp Hr. destruct (in_phase_next e k phase t Hp Hr) as (next & Hs & Hn).
  replace phase with (next a); [by apply Hn|].
  destruct e; try done; cbn [sharing] in Hs; unfold elsewhere in Hs; repeat case_match; by simplify_eq.
Qed.

Lemma at_stage_apart {A} (e : Eff A) k stage t a :
  apart e = true -> dropped t = false -> rest t = Do e k ->
  at_stage stage t -> at_stage stage (with_rest (k a) t).
Proof.
  intros He Hd Hr.
  assert (Hw : forall g phase, working g phase t -> working g phase (with_rest (k a) t)).
  { intros g phase (? & ? & ?). split_and!; [done..|by eapply in_phase_apart]. }
  assert (Hp : forall phase, past phase t -> past phase (with_rest (k a) t)).
  { intros phase (? & [?|?]); split; try done; [congruence|right; by eapply in_phase_apart]. }
  destruct stage; cbn [at_stage]; try apply Hw; try apply Hp; try done.
  intros [? ?]. split; [by apply Hw|done].
Qed.

(** An effect elsewhere is no step of the sharing. *)
Lemma sim_apart {A} (e : Eff A) k s sys joined i t a t1 s1 :
  simulates s sys joined -> requests s !! i = Some t -> dropped t = false ->
  rest t = Do e k -> apart e = true -> attempt o e t s = Answers a t1 s1 ->
  simulates (record_event i (Happened e a) (set_task i (with_rest (k a) t1) s1)) sys joined.
Proof.
  intros Hsim Hi Hd Hr He Ha. destruct (apart_attempt e t s a t1 s1 He Ha) as (-> & w & ->).
  destruct (decide (i ∈ joined)) as [[d Hj]%list_elem_of_lookup|Hout].
  - destruct (sim_joined _ _ _ Hsim d i Hj) as (x & stage & Hx & Ht & Hat & Hev).
    assert (x = t) as -> by congruence.
    eapply (sim_move s sys joined d i t (with_rest (k a) t) stage stage); sim_sides Hsim.
    + by apply (at_stage_apart e k stage t a).
    + eapply evidence_mono; [|done]. apply history_event.
    + by rewrite list_insert_id.
  - eapply sim_stay; sim_sides Hsim.
    destruct (sim_outside _ _ _ Hsim i t Hi Hout) as (Hg & [Hdr|Hp]); [congruence|].
    split; [done|]. right. by eapply in_phase_apart.
Qed.

(** A request is dropped: its task is cancelled, unless it was done with the
    sharing. *)
Lemma sim_drop s sys joined i t t' s' :
  simulates s sys joined -> requests s !! i = Some t -> dropped t = false ->
  (forall outcome, ~ in_phase (Sent outcome) t) ->
  token_of t' = token_of t -> guard t' = None -> dropped t' = true ->
  requests s' = <[i := t']> (requests s) -> history s ⊆ history s' ->
  next_channel s' = next_channel s ->
  channels s' = match guard t with Some key => delete key (channels s) | None => channels s end ->
  exists sys', rtc Dedup.step sys sys' /\ simulates s' sys' joined.
Proof.
  intros Hsim Hi Hd Hsent Htok Hg Hd' Hreq Hh Hn Hch.
  pose proof (sim_entries _ _ _ Hsim) as He. pose proof (sim_next _ _ _ Hsim) as Hnx.
  destruct (decide (i ∈ joined)) as [[d Hj]%list_elem_of_lookup|Hout].
  2: { exists sys. split; [apply rtc_refl|].
       destruct (sim_outside _ _ _ Hsim i t Hi Hout) as (Hgt & _). rewrite Hgt in Hch.
       eapply sim_stay; try done. split; [done|by left]. }
  destruct (sim_joined _ _ _ Hsim d i Hj) as (x & stage & Hx & Ht & Hat & Hev).
  assert (x = t) as -> by congruence. clear Hx.
  assert (Hkeep : guard t = None -> at_stage stage t' -> simulates s' sys joined).
  { intros Hgt Hat'. rewrite Hgt in Hch.
    eapply (sim_move s sys joined d i t t' stage stage); try done; try congruence;
      [by eapply evidence_mono|by rewrite list_insert_id]. }
  destruct stage as [|c|c out|c out|rx message| |out|]; cbn [at_stage] in Hat; try done.
  - destruct Hat as (_ & Hgt & _). rewrite Hgt in Hch. eexists. split.
    + apply rtc_once. by apply (Dedup.step_cancel_leader sys d (token_of t) c).
    + eapply (sim_move s sys joined d i t t' (Dedup.Leading c) Dedup.Cancelled); try done; simpl; congruence.
  - destruct (Hsent out). apply Hat.
  - destruct Hat as ((_ & Hgt & _) & _). rewrite Hgt in Hch. eexists. split.
    + apply rtc_once. by apply (Dedup.step_cancel_waiting sys d (token_of t) rx message).
    + eapply (sim_move s sys joined d i t t' (Dedup.Waiting rx message) Dedup.Cancelled); try done; simpl; congruence.
  - exists sys. split; [apply rtc_refl|]. destruct Hat. apply Hkeep; [done|]. split; auto.
  - exists sys. split; [apply rtc_refl|]. destruct Hat. apply Hkeep; [done|]. split; auto.
  - destruct Hat. congruence.
Qed.

(** What a phase says about the next effect on the map. *)
Lemma joins_outside key k phase t :
  in_phase phase t -> rest t = Do (JoinInflight key) k ->
  phase = Outside /\ key = token_key (token_of t) /\
  forall follower t', task_request t' = task_request t -> rest t' = k follower ->
    in_phase (match follower with Some rx => Listening rx | None => Asking end) t'.
Proof.
  intros Hp Hr. destruct (in_phase_next _ _ _ _ Hp Hr) as (next & Hs & Hn).
  cbn [sharing] in Hs. case_decide as Hc; [|done]. destruct Hc. by simplify_eq.
Qed.

Lemma receives_listening rx k phase t :
  in_phase phase t -> rest t = Do (Receive rx) k ->
  phase = Listening rx /\
  forall message t', task_request t' = task_request t -> rest t' = k message ->
    in_phase (match message with Ok outcome => Settled outcome | Err _ => Alone end) t'.
Proof.
  intros Hp Hr. destruct (in_phase_next _ _ _ _ Hp Hr) as (next & Hs & Hn).
  cbn [sharing] in Hs. case_decide as Hc; [|done]. by simplify_eq.
Qed.

Lemma sends_asking key outcome k phase t :
  in_phase phase t -> rest t = Do (SendInflight key outcome) k ->
  phase = Asking /\ key = token_key (token_of t) /\
  forall a t', task_request t' = task_request t -> rest t' = k a -> in_phase (Sent outcome) t'.
Proof.
  intros Hp Hr. destruct (in_phase_next _ _ _ _ Hp Hr) as (next & Hs & Hn).
  cbn [sharing] in Hs. case_decide as Hc; [|done]. destruct Hc. by simplify_eq.
Qed.

Lemma leaves_sent key k phase t :
  in_phase phase t -> rest t = Do (LeaveInflight key) k ->
  exists outcome, phase = Sent outcome /\ key = token_key (token_of t) /\
  forall a t', task_request t' = task_request t -> rest t' = k a -> in_phase (Settled outcome) t'.
Proof.
  intros Hp Hr. destruct (in_phase_next _ _ _ _ Hp Hr) as (next & Hs & Hn).
  cbn [sharing] in Hs. repeat case_match; simplify_eq. eauto.
Qed.

(** Where a live request stands. *)
Lemma sim_where s sys joined i t :
  simulates s sys joined -> requests s !! i = Some t -> dropped t = false ->
  (i ∉ joined /\ guard t = None /\ in_phase Outside t) \/
  exists d stage, joined !! d = Some i /\
    Dedup.tasks sys !! d = Some (token_of t, stage) /\ at_stage stage t /\
    evidence (history s) i (token_key (token_of t)) stage.
Proof.
  intros Hsim Hi Hd. destruct (decide (i ∈ joined)) as [[d Hj]%list_elem_of_lookup|Hout].
  - right. destruct (sim_joined _ _ _ Hsim d i Hj) as (x & stage & Hx & Ht & Hat & Hev).
    assert (x = t) as -> by congruence. eauto 10.
  - left. destruct (sim_outside _ _ _ Hsim i t Hi Hout) as (Hg & [Hdr|Hp]); [congruence|done].
Qed.

(** A stage of a live request that is not over determines the phase. *)
Lemma at_stage_phase stage t :
  dropped t = false -> at_stage stage t ->
  match stage with
  | Dedup.Start | Dedup.Publishing _ _ | Dedup.Cancelled => False
  | Dedup.Leading _ => guard t = Some (token_key (token_of t)) /\ in_phase Asking t
  | Dedup.Leaving _ outcome =>
      guard t = Some (token_key (token_of t)) /\ in_phase (Sent outcome) t
  | Dedup.Waiting rx message =>
      guard t = None /\ in_phase (Listening rx) t /\ mailbox t = Some (rx, message)
  | Dedup.Fallback => guard t = None /\ in_phase Alone t
  | Dedup.Finished outcome => guard t = None /\ in_phase (Settled outcome) t
  end.
Proof. unfold at_stage, working, past. destruct stage; naive_solver congruence. Qed.

(** [at_stage] after an effect. *)
Ltac stage_done :=
  cbn [at_stage]; unfold working, past; cbn [with_rest with_mailbox with_guard dropped guard mailbox];
  unfold token_of in *; cbn [with_rest with_mailbox with_guard task_request];
  split_and!; try done; auto.

Lemma sim_joins key k s sys joined i t a t1 s1 :
  simulates s sys joined -> requests s !! i = Some t -> dropped t = false ->
  rest t = Do (JoinInflight key) k -> attempt o (JoinInflight key) t s = Answers a t1 s1 ->
  exists sys' joined', rtc Dedup.step sys sys' /\ joined `prefix_of` joined' /\
    simulates (record_event i (Happened (JoinInflight key) a) (set_task i (with_rest (k a) t1) s1))
      sys' joined'.
Proof.
  intros Hsim Hi Hd Hr Ha.
  destruct (sim_where s sys joined i t Hsim Hi Hd) as [(Hout & Hg & Hp)|(d & stage & _ & _ & Hat & _)].
  2: { apply (at_stage_phase _ _ Hd) in Hat.
       destruct stage; try done; destruct_and?;
         match goal with H : in_phase _ t |- _ => by destruct (joins_outside key k _ t H Hr) end. }
  destruct (joins_outside key k _ t Hp Hr) as (_ & -> & Hn).
  assert (Harr : Dedup.step sys (Dedup.mkSys (Dedup.entries sys) (Dedup.next_chan sys)
    (Dedup.tasks sys ++ [(token_of t, Dedup.Start)]) (Dedup.calls sys))) by constructor.
  assert (Hnew : (Dedup.tasks sys ++ [(token_of t, Dedup.Start)]) !! length (Dedup.tasks sys)
    = Some (token_of t, Dedup.Start)) by by apply list_lookup_middle.
  assert (Hset : forall stage, <[length (Dedup.tasks sys) := (token_of t, stage)]>
    (Dedup.tasks sys ++ [(token_of t, Dedup.Start)]) = Dedup.tasks sys ++ [(token_of t, stage)]).
  { intros stage. rewrite insert_app_r_alt, Nat.sub_diag by lia. done. }
  cbn [attempt] in Ha. destruct (channels s !! token_key (token_of t)) as [rx|] eqn:Hch; injection Ha as <- <- <-.
  - eexists _, (joined ++ [i]). split_and!; [|by apply prefix_app_r|].
    + eapply rtc_l; [exact Harr|]. apply rtc_once, (Dedup.step_run _ (length (Dedup.tasks sys))).
      apply (Dedup.step_follow _ _ (token_of t) rx); [exact Hnew|]. simpl.
      by rewrite (sim_entries _ _ _ Hsim).
    + eapply (sim_join s sys joined i t (with_rest (k (Some rx)) (with_mailbox (Some (rx, None)) t))
                (Dedup.Waiting rx None)); try done; [|apply history_event|apply Hset|apply Hsim..].
      pose proof (Hn (Some rx) (with_rest (k (Some rx)) (with_mailbox (Some (rx, None)) t)) eq_refl eq_refl).
      stage_done.
  - eexists _, (joined ++ [i]). split_and!; [|by apply prefix_app_r|].
    + eapply rtc_l; [exact Harr|]. apply rtc_once, (Dedup.step_run _ (length (Dedup.tasks sys))).
      apply (Dedup.step_lead _ _ (token_of t)); [exact Hnew|]. simpl.
      by rewrite (sim_entries _ _ _ Hsim).
    + set (t' := with_rest (k None) (with_guard (Some (token_key (token_of t))) t)).
      eapply (sim_join s sys joined i t t' (Dedup.Leading (Dedup.next_chan sys))); try done;
        [|apply history_event|apply Hset|simpl|simpl]; rewrite ?(sim_entries _ _ _ Hsim), ?(sim_next _ _ _ Hsim); try done.
      pose proof (Hn None t' eq_refl eq_refl). stage_done.
Qed.

(** The task of a request that performs an effect on the map after joining:
    only the stage of the right phase is left. *)
Ltac the_stage Hsim Hi Hd lemma :=
  destruct (sim_where _ _ _ _ _ Hsim Hi Hd) as [(Hout & Hg & Hp)|(d & stage & Hj & Ht & Hat & Hev)];
  [apply lemma in Hp; [|done]; destruct_and?; naive_solver|];
  pose proof (at_stage_phase _ _ Hd Hat) as Hphase;
  destruct stage; try done; destruct_and?;
  match goal with H : in_phase _ _ |- _ => eapply lemma in H; [|done] end;
  destruct_and?; try naive_solver.

Lemma sim_receives rx k s sys joined i t a t1 s1 :
  simulates s sys joined -> requests s !! i = Some t -> dropped t = false ->
  rest t = Do (Receive rx) k -> attempt o (Receive rx) t s = Answers a t1 s1 ->
  exists sys', rtc Dedup.step sys sys' /\
    simulates (record_event i (Happened (Receive rx) a) (set_task i (with_rest (k a) t1) s1))
      sys' joined.
Proof.
  intros Hsim Hi Hd Hr Ha. the_stage Hsim Hi Hd (receives_listening rx k).
  match goal with H : Listening _ = _, H' : forall _ _, _ |- _ => injection H as ->; rename H' into Hn end.
  cbn [attempt] in Ha. unfold Pool.mail in Ha.
  match goal with H : mailbox t = _ |- _ => rewrite H in Ha end.
  rewrite decide_True in Ha by done. destruct mail as [outcome|].
  - injection Ha as <- <- <-. set (t' := with_rest (k (Ok outcome)) (with_mailbox (Some (rx, None)) t)).
    eexists. split.
    + apply rtc_once, (Dedup.step_run _ d), (Dedup.step_receive _ _ (token_of t) rx outcome Ht).
    + eapply (sim_move s sys joined d i t t' _ (Dedup.Finished outcome)); sim_sides Hsim.
      pose proof (Hn (Ok outcome) t' eq_refl eq_refl). stage_done.
  - case_decide as Hclosed; [|done]. injection Ha as <- <- <-.
    set (t' := with_rest (k (Err ())) t). eexists. split.
    + apply rtc_once, (Dedup.step_run _ d), (Dedup.step_closed _ _ (token_of t) rx Ht).
      intros key. rewrite (sim_entries _ _ _ Hsim). intros Hkey. by apply (Hclosed key rx Hkey).
    + eapply (sim_move s sys joined d i t t' _ Dedup.Fallback); sim_sides Hsim.
      pose proof (Hn (Err ()) t' eq_refl eq_refl). stage_done.
Qed.

Lemma sim_sends key outcome k s sys joined i t a t1 s1 :
  simulates s sys joined -> requests s !! i = Some t -> dropped t = false ->
  rest t = Do (SendInflight key outcome) k ->
  attempt o (SendInflight key outcome) t s = Answers a t1 s1 ->
  exists sys', rtc Dedup.step sys sys' /\
    simulates (record_event i (Happened (SendInflight key outcome) a)
                 (set_task i (with_rest (k a) t1) s1)) sys' joined.
Proof.
  intros Hsim Hi Hd Hr Ha. the_stage Hsim Hi Hd (sends_asking key outcome k).
  match goal with H : forall _ _, task_request _ = _ -> _ |- _ => rename H into Hn end. subst key.
  cbn [attempt] in Ha. injection Ha as <- <- <-. set (t' := with_rest (k ()) t).
  assert (Hat' : at_stage (Dedup.Leaving chan outcome) t').
  { pose proof (Hn () t' eq_refl eq_refl). stage_done. }
  (* The call is answered, and the answer is published. *)
  set (sys1 := Dedup.set_stage d (token_of t) (Dedup.Publishing chan outcome)
                 (Dedup.with_call (token_of t) outcome sys)).
  assert (Hcall : rtc Dedup.step sys sys1).
  { apply rtc_once, (Dedup.step_run _ d). by apply Dedup.step_call. }
  assert (Ht1 : Dedup.tasks sys1 !! d = Some (token_of t, Dedup.Publishing chan outcome)).
  { apply list_lookup_insert_eq. by eapply lookup_lt_Some. }
  destruct (channels s !! token_key (token_of t)) as [c|] eqn:Hch; eexists; (split;
    [eapply rtc_r; [exact Hcall|]; apply (Dedup.step_run _ d)|]).
  - apply (Dedup.step_publish _ _ (token_of t) chan c outcome Ht1).
    simpl. by rewrite (sim_entries _ _ _ Hsim).
  - pose proof (sim_deliver _ _ _ c outcome Hsim) as Hsim2.
    assert (Htok : token_of (deliver_to c outcome t) = token_of t).
    { unfold token_of, deliver_to. by repeat case_match. }
    eapply (sim_move _ _ joined d i (deliver_to c outcome t) t' (Dedup.Leading chan)
              (Dedup.Leaving chan outcome) _ _ Hsim2); sim_sides Hsim.
    + simpl. by rewrite list_lookup_fmap, Hi.
    + simpl. by rewrite list_lookup_fmap, Ht, Htok.
    + rewrite Htok. apply last_heard.
    + simpl. by rewrite list_fmap_insert, list_insert_insert_eq, Htok.
  - apply (Dedup.step_publish_gone _ _ (token_of t) chan outcome Ht1).
    simpl. by rewrite (sim_entries _ _ _ Hsim).
  - eapply (sim_move s sys joined d i t t' _ (Dedup.Leaving chan outcome)); sim_sides Hsim.
    simpl. by rewrite list_insert_insert_eq.
Qed.

Lemma sim_leaves key k s sys joined i t a t1 s1 :
  simulates s sys joined -> requests s !! i = Some t -> dropped t = false ->
  rest t = Do (LeaveInflight key) k -> attempt o (LeaveInflight key) t s = Answers a t1 s1 ->
  exists sys', rtc Dedup.step sys sys' /\
    simulates (record_event i (Happened (LeaveInflight key) a) (set_task i (with_rest (k a) t1) s1))
      sys' joined.
Proof.
  intros Hsim Hi Hd Hr Ha. the_stage Hsim Hi Hd (leaves_sent key k).
  match goal with H : exists _, _ |- _ => destruct H as (out & [= ->] & -> & Hn) end.
  cbn [attempt] in Ha. injection Ha as <- <- <-.
  set (t' := with_rest (k ()) (with_guard None t)). eexists. split.
  - apply rtc_once, (Dedup.step_run _ d), (Dedup.step_leave _ _ (token_of t) chan out Ht).
  - eapply (sim_move s sys joined d i t t' _ (Dedup.Finished out)); sim_sides Hsim.
    2: { left. apply history_event, Hev. }
    + pose proof (Hn () t' eq_refl eq_refl). stage_done.
    + simpl. by rewrite (sim_entries _ _ _ Hsim).
Qed.

Lemma sim_attempt {A} (e : Eff A) k s sys joined i t a t1 s1 :
  simulates s sys joined -> requests s !! i = Some t -> dropped t = false ->
  rest t = Do e k -> attempt o e t s = Answers a t1 s1 ->
  exists sys' joined', rtc Dedup.step sys sys' /\ joined `prefix_of` joined' /\
    simulates (record_event i (Happened e a) (set_task i (with_rest (k a) t1) s1)) sys' joined'.
Proof.
  intros Hsim Hi Hd Hr Ha. destruct (apart e) eqn:He.
  { exists sys, joined. split_and!; [apply rtc_refl|done|by eapply sim_apart]. }
  destruct e; try done.
  - by eapply sim_joins.
  - destruct (sim_receives rx k s sys joined i t a t1 s1) as (sys' & ? & ?); eauto.
  - destruct (sim_sends key outcome k s sys joined i t a t1 s1) as (sys' & ? & ?); eauto.
  - destruct (sim_leaves key k s sys joined i t a t1 s1) as (sys' & ? & ?); eauto.
Qed.

(** Between sending and leaving a request cannot be dropped. *)
Lemma not_sent {A} (e : Eff A) k t s :
  rest t = Do e k -> awaits e = true \/ attempt o e t s = Panicked ->
  forall outcome, ~ in_phase (Sent outcome) t.
Proof.
  intros Hr Hdrop outcome Hp. destruct (in_phase_next e k _ t Hp Hr) as (next & Hs & _).
  destruct e; cbn [sharing elsewhere] in Hs; repeat case_decide; try done; destruct Hdrop; naive_solver.
Qed.

(** What happens at an await leaves the map and the other requests alone. *)
Lemma await_frame {A} (e : Eff A) t s a t1 s1 :
  awaits e = true -> attempt o e t s = Answers a t1 s1 ->
  token_of t1 = token_of t /\ guard t1 = guard t /\ requests s1 = requests s /\
  channels s1 = channels s /\ next_channel s1 = next_channel s /\ history s1 = history s.
Proof.
  destruct e; intros He Ha; try done; cbn [attempt] in Ha; repeat case_match; by simplify_eq.
Qed.

(** A request that arrives has not joined. *)
Lemma sim_arrive s sys joined route request :
  simulates s sys joined ->
  simulates (with_requests (requests s ++
    [mkTask route request (protected state route request) None None false]) s) sys joined.
Proof.
  intros Hsim. split; try apply Hsim.
  - intros d i Hd. destruct (sim_joined _ _ _ Hsim d i Hd) as (t & stage & Hi & Ht & Hat & Hev).
    exists t, stage. split_and!; try done. by apply lookup_app_l_Some.
  - intros i t Hi Hout. apply lookup_snoc_Some in Hi as [[_ Hi]|[_ <-]].
    + by apply (sim_outside _ _ _ Hsim i).
    + split; [done|]. right. apply sharing_protected.
Qed.

(** The process ends: every task of Dedup.v is stopped. *)
Lemma at_stage_gone stage t : at_stage stage t -> at_stage (Dedup.halted stage) (gone t).
Proof. intros Hat. destruct stage; try done; by split; [|left]. Qed.

Lemma evidence_halted h i key stage :
  evidence h i key stage -> evidence h i key (Dedup.halted stage).
Proof. destruct stage; simpl; auto. Qed.

Lemma sim_restart s sys joined governor :
  Dedup.reachable sys -> simulates s sys joined ->
  exists sys', rtc Dedup.step sys sys' /\ simulates (restarted governor s) sys' joined.
Proof.
  intros Hreach Hsim.
  assert (Hstage : forall d token stage, Dedup.tasks sys !! d = Some (token, stage) ->
            exists t, at_stage stage t).
  { intros d token stage Hd. destruct (lookup_lt_is_Some_2 joined d) as [i Hi].
    { rewrite (sim_length _ _ _ Hsim). by eapply lookup_lt_Some. }
    destruct (sim_joined _ _ _ Hsim d i Hi) as (t & stage' & _ & Hd' & Hat & _).
    exists t. congruence. }
  destruct (Dedup.halt_all sys) as (sys' & Hr & Hn & Ht).
  { apply Forall_lookup_2. intros d [token stage] Hd.
    destruct (Hstage d token stage Hd) as [t Hat]. by destruct stage. }
  exists sys'. split; [done|]. split; cbn [restarted channels next_channel requests history].
  - apply Dedup.halted_entries; [unfold Dedup.reachable; by etrans|]. intros d token stage.
    rewrite Ht, list_lookup_fmap. intros ([token' stage'] & _ & [= -> ->])%fmap_Some.
    by destruct stage'.
  - rewrite Hn. apply Hsim.
  - apply Hsim.
  - rewrite Ht, length_fmap. apply Hsim.
  - intros d i Hd. destruct (sim_joined _ _ _ Hsim d i Hd) as (t & stage & Hi & Htask & Hat & Hev).
    exists (gone t), (Dedup.halted stage). rewrite Ht, !list_lookup_fmap, Hi, Htask.
    split_and!; [done|done|by apply at_stage_gone|by apply evidence_halted].
  - intros i t. rewrite list_lookup_fmap. intros (t0 & Hi & ->)%fmap_Some Hout.
    split; [done|by left].
Qed.

Lemma sim_step s c s' sys joined :
  Dedup.reachable sys -> simulates s sys joined -> pool_step o state s c = Some s' ->
  exists sys' joined', rtc Dedup.step sys sys' /\ joined `prefix_of` joined' /\
    simulates s' sys' joined'.
Proof.
  intros Hsys Hsim. destruct c as [route request|i|i reached|]; simpl.
  - intros [= <-]. exists sys, joined. split_and!; [apply rtc_refl|done|by apply sim_arrive].
  - intros (t & Hi & Hs)%bind_Some. destruct (dropped t) eqn:Hd; [done|].
    destruct (rest t) as [|A e k] eqn:Hr; [done|].
    destruct (attempt o e t s) as [| |a t1 s1] eqn:Ha; simplify_eq.
    + destruct (sim_drop s sys joined i t (gone t) (drop_task i t s)) as (sys' & ? & ?); eauto.
      * apply (not_sent e k t s); auto.
      * apply drop_task_requests.
      * by rewrite drop_task_history.
      * unfold drop_task. by destruct (guard t).
      * unfold drop_task. by destruct (guard t).
    + by eapply sim_attempt.
  - intros (t & Hi & Hs)%bind_Some. destruct (dropped t) eqn:Hd; [done|].
    destruct (rest t) as [|A e k] eqn:Hr; [done|].
    destruct (awaits e) eqn:Haw; [|done]. simpl in Hs.
    assert (Hdrop : forall t' s', token_of t' = token_of t -> guard t' = None -> dropped t' = true ->
      requests s' = <[i := t']> (requests s) -> history s ⊆ history s' ->
      next_channel s' = next_channel s ->
      channels s' = match guard t with Some key => delete key (channels s) | None => channels s end ->
      exists sys' joined', rtc Dedup.step sys sys' /\ joined `prefix_of` joined' /\
        simulates s' sys' joined').
    { intros t' s2 ? ? ? ? ? ? ?.
      destruct (sim_drop s sys joined i t t' s2) as (sys' & ? & ?); eauto.
      apply (not_sent e k t s); auto. }
    destruct reached; [destruct (attempt o e t s) as [| |a t1 s1] eqn:Ha; try done|]; simplify_eq.
    + destruct (await_frame e t s a t1 s1 Haw Ha) as (Htok & Hg & Hreq & Hch & Hn & Hh).
      assert (Hgrow : history s ⊆ history (record_event i (Happened e a) (drop_task i t1 s1))).
      { simpl. rewrite drop_task_history, Hh. apply history_event. }
      apply (Hdrop (gone t1)); try done; unfold drop_task; rewrite Hg;
        destruct (guard t); simpl; congruence.
    + apply (Hdrop (gone t)); try done; unfold drop_task; by destruct (guard t).
  - destruct (rate_limit_config (config state)) as [governor|]; [|done]. intros [= <-].
    destruct (sim_restart s sys joined governor Hsys Hsim) as (sys' & ? & ?). eauto.
Qed.

Lemma sim_started w : simulates (started w) Dedup.initial [].
Proof. split; try done. constructor. Qed.

Lemma sim_run s sys joined choices s' :
  Dedup.reachable sys -> simulates s sys joined -> pool_run o state s choices = Some s' ->
  exists sys' joined', rtc Dedup.step sys sys' /\ joined `prefix_of` joined' /\
    simulates s' sys' joined'.
Proof.
  revert s sys joined. induction choices as [|c choices IH]; simpl; intros s sys joined Hsys Hsim.
  - intros [= <-]. exists sys, joined. by split_and!; [apply rtc_refl|..].
  - intros (s1 & Hc & Hrun)%bind_Some.
    destruct (sim_step s c s1 sys joined Hsys Hsim Hc) as (sys1 & j1 & Hr1 & Hp1 & Hsim1).
    destruct (IH s1 sys1 j1 (transitivity (R := rtc Dedup.step) Hsys Hr1) Hsim1 Hrun) as (sys2 & j2 & Hr2 & Hp2 & Hsim2).
    exists sys2, j2. split_and!; [by etrans..|done].
Qed.
End Simulates.

(** ** Properties *)

Section Theorems.
Context `{!HeaderText, !Sha256, !StatusText, !Aead, !TotpRs, !LibraryReplies}.
Context {L : Type} `{!Governor L, !GovernorBuilder L} (o : Oracle) (state : AppState).

(** A live request that is about to ask Keycloak leads, or is on its own
    because its channel closed; it asks about its own token. *)
Lemma asking_stage (s : Server L) sys joined i t post k :
  simulates s sys joined -> requests s !! i = Some t -> dropped t = false ->
  rest t = Do (SendPost post) k ->
  bearer_token (task_request t) = Some (post_token post) /\
  exists d stage, joined !! d = Some i /\
    Dedup.tasks sys !! d = Some (token_of t, stage) /\
    (is_Some (Dedup.leads stage) \/ exists rx, heard (history s) i _ (Receive rx) (Err tt)).
Proof.
  intros Hsim Hi Hd Hr.
  assert (Hphase : forall phase, in_phase phase t ->
            (phase = Asking \/ phase = Alone) /\
            bearer_token (task_request t) = Some (post_token post)).
  { intros phase Hp. destruct (in_phase_next _ _ _ _ Hp Hr) as (next & Hs & _).
    cbn [sharing] in Hs. by case_decide. }
  destruct (sim_where s sys joined i t Hsim Hi Hd) as [(_ & _ & Hp)|(d & stage & Hj & Ht & Hat & Hev)].
  { by destruct (Hphase _ Hp) as [[|] _]. }
  pose proof (at_stage_phase stage t Hd Hat) as Hst.
  destruct stage; try done; destruct_and?;
    match goal with H : in_phase _ t |- _ => destruct (Hphase _ H) as [[?|?] Hpost]; try done end;
    (split; [done|]); eexists _, _; (split_and!; [done..|]); [left; by eexists|by right].
Qed.

(** C15. However requests arrive, interleave and are cancelled, and however often
    the process is started again, Keycloak is asked about a token once at a
    time: of two live requests with the same token
    key that are both about to ask, one has waited for another's answer and
    found its channel closed without one. Each asks about its own token
    only. And the in-flight map holds a key exactly while a live request
    holds its guard, so no key stays behind a leader that finished, failed
    or was dropped. *)
Theorem keycloak_asked_once_per_token w (s : Server L) :
  reachable o state w s ->
  (forall i j t t' post post' k k',
     requests s !! i = Some t -> dropped t = false -> rest t = Do (SendPost post) k ->
     requests s !! j = Some t' -> dropped t' = false -> rest t' = Do (SendPost post') k' ->
     i <> j -> token_key (post_token post) = token_key (post_token post') ->
     exists x rx, (x = i \/ x = j) /\ heard (history s) x _ (Receive rx) (Err tt)) /\
  (forall i t post k, requests s !! i = Some t -> dropped t = false ->
     rest t = Do (SendPost post) k -> bearer_token (task_request t) = Some (post_token post)) /\
  (forall key, is_Some (channels s !! key) <->
     exists i t, requests s !! i = Some t /\ dropped t = false /\ guard t = Some key).
Proof.
  intros Hreach. pose proof (reachable_server_ok o state w s Hreach) as Hok.
  assert (exists sys joined, Dedup.reachable sys /\ simulates s sys joined)
    as (sys & joined & Hsys & Hsim).
  { destruct Hreach as [choices Hrun].
    destruct (sim_run o state _ _ _ choices s (@rtc_refl _ Dedup.step _) (sim_started w) Hrun) as (sys & joined & ? & _ & ?).
    by exists sys, joined. }
  apply Dedup.reachable_ok in Hsys. split_and!.
  - intros i j t t' post post' k k' Hi Hd Hr Hj Hd' Hr' Hne Hkey.
    destruct (asking_stage s sys joined i t post k Hsim Hi Hd Hr)
      as (Hp & di & sti & Hdi & Hti & [[c Hc]|[rx Hrx]]); [|by exists i, rx; auto].
    destruct (asking_stage s sys joined j t' post' k' Hsim Hj Hd' Hr')
      as (Hp' & dj & stj & Hdj & Htj & [[c' Hc']|[rx Hrx]]); [|by exists j, rx; auto].
    destruct Hne. unfold token_of in *. rewrite Hp in Hti. rewrite Hp' in Htj. simpl in *.
    pose proof (Dedup.leader_entry _ _ _ _ _ Hsys Hti Hc) as He.
    pose proof (Dedup.leader_entry _ _ _ _ _ Hsys Htj Hc') as He'.
    assert (c = c') as <- by congruence.
    assert (di = dj) as <- by by eapply (Dedup.ok_unique _ Hsys di dj). congruence.
  - intros i t post k Hi Hd Hr. by destruct (asking_stage s sys joined i t post k Hsim Hi Hd Hr).
  - intros key. split.
    + intros (i & t & Hi & Hg)%(fl_holder _ _ _ _ Hok). exists i, t. split_and!; try done.
      pose proof (fl_guard _ _ _ _ Hok i t Hi) as Hgo. unfold guard_ok in Hgo.
      destruct (dropped t); [congruence|done].
    + intros (i & t & Hi & _ & Hg). by apply (fl_held _ _ _ _ Hok i t).
Qed.

(** C16. The server implements the sharing of Dedup.v: whatever it has done so
    far, from its start, is what tasks of Dedup.v did ([joined] says which
    request is which task, [at_stage] what a request holds and has left to
    do, [evidence] what it has done), and whatever it does next, be it
    arrivals, steps of any request, panics, clients going away or the
    process starting anew, their steps can match. *)
Theorem server_implements_sharing w (s : Server L) :
  reachable o state w s ->
  exists sys joined, Dedup.reachable sys /\ simulates s sys joined /\
    forall choices s', pool_run o state s choices = Some s' ->
      exists sys' joined', rtc Dedup.step sys sys' /\ joined `prefix_of` joined' /\
        simulates s' sys' joined'.
Proof.
  intros [choices Hrun].
  destruct (sim_run o state _ _ _ choices s (@rtc_refl _ Dedup.step _) (sim_started w) Hrun) as (sys & joined & ? & _ & Hsim).
  exists sys, joined. split_and!; [done..|].
  intros choices' s' Hrun'. by eapply sim_run.
Qed.
End Theorems.

(** ** Witnesses: the client of a leader goes away; a follower and a new leader ask *)

#[local] Existing Instances sha1_hmac tagging_aead tagging_aead_laws
  reference_totp_rs reference_totp_rs_laws identity_hash no_text
  latin_headers plain_replies plain_replies_laws.

Definition abandoned_schedule : list Choice :=
  [Arrive RequestPin (bearer_request "root-token"); Arrive RequestPin (bearer_request "root-token");
   Advance 0; Advance 1; GoAway 0 false; Advance 1;
   Arrive RequestPin (bearer_request "root-token"); Advance 2].

Definition abandoned_server : Server (gmap string nat) :=
  run_to (calm root_keycloak) demo_state (started fresh_world) abandoned_schedule.

Lemma abandoned_reachable :
  reachable (calm root_keycloak) demo_state fresh_world abandoned_server.
Proof. apply runs_reachable. vm_compute. reflexivity. Qed.

(** The post a live request is about to make. *)
Definition about_to_post (s : Server (gmap string nat)) (i : nat) : option Post :=
  t ← requests s !! i;
  if dropped t then None else
  match rest t with
  | Do e _ => match e with SendPost post => Some post | _ => None end
  | Ret _ => None
  end.

Lemma about_to_post_task s i post :
  about_to_post s i = Some post ->
  exists t k, requests s !! i = Some t /\ dropped t = false /\ rest t = Do (SendPost post) k.
Proof.
  unfold about_to_post. intros (t & Ht & Hp)%bind_Some. exists t.
  destruct (dropped t), (rest t) as [|A e k]; try done.
  destruct e; try done. injection Hp as ->. by exists k.
Qed.

Lemma both_ask :
  about_to_post abandoned_server 1 = Some (introspection_post (introspection demo_state) "root-token") /\
  about_to_post abandoned_server 2 = Some (introspection_post (introspection demo_state) "root-token").
Proof. split; vm_compute; reflexivity. Qed.

Lemma keycloak_asked_once_per_token_witness :
  exists x rx, (x = 1 \/ x = 2) /\ heard (history abandoned_server) x _ (Receive rx) (Err tt).
Proof.
  destruct both_ask as [(t & k & Hi & Hd & Hr)%about_to_post_task
                        (t' & k' & Hj & Hd' & Hr')%about_to_post_task].
  destruct (keycloak_asked_once_per_token (calm root_keycloak) demo_state fresh_world
              abandoned_server abandoned_reachable) as [Honce _].
  apply (Honce 1 2 t t' (introspection_post (introspection demo_state) "root-token")
           (introspection_post (introspection demo_state) "root-token") k k'); try assumption;
    [discriminate|reflexivity].
Defined.

Lemma server_implements_sharing_witness :
  exists sys joined, Dedup.reachable sys /\ simulates abandoned_server sys joined.
Proof.
  destruct (server_implements_sharing (calm root_keycloak) demo_state fresh_world
              abandoned_server abandoned_reachable) as (sys & joined & ? & ? & _).
  exists sys, joined. split; assumption.
Defined.
