(* ===== verification/Tables.v ===== *)
(** * The two tables stay well-formed

    What migrations/0001_init.sql and the statements of secret_store.rs keep
    true of the data, whatever requests do at the same time: ids of audit rows
    are unique, the audit log is in the order of time, and a secret is never
    stamped as used before it was created. *)

From stdpp Require Import sorting.
From S2P Require Import Prelude RustText Rfc6238 Sha1 AppError Effects Config Crypto TotpGen.
From S2P Require Import SecretStore Introspection Middleware RateLimit Routes Provenance.
From S2P Require Import Protocol Pool History Flights Serving Concurrent.
Local Open Scope Z_scope.




Section Tables.
Context {L : Type} `{!Governor L, !GovernorBuilder L} (o : Oracle).
Context (Hclock : forall n m, (n <= m)%nat -> clock o n <= clock o m).
Implicit Types v : World L.







End Tables.

(** ** Property *)


#[local] Existing Instances sha1_hmac tagging_aead reference_totp_rs identity_hash no_text
  latin_headers plain_replies.


