(* ===== verification/Vault.v ===== *)
(** * The secrets table as an atomic vault

    What the secret store promises to the rest of the server is a vault: a map
    from subjects to secrets, in the clear, whose operations happen one after
    the other.  The running server, with its encrypted rows, its nonces and any
    number of interleaved requests, implements it: each request's statements
    take effect as vault operations, in one order, each between that request's
    own beginning and end. *)

From S2P Require Import Prelude RustText Rfc6238 Sha1 AppError Effects Config Crypto TotpGen.
From S2P Require Import SecretStore Introspection Middleware RateLimit Routes Provenance.
From S2P Require Import Protocol Pool History Flights Serving Concurrent.
Local Open Scope nat_scope.

(** ** The specification *)

Notation Vault := (gmap string (list Z)).

Inductive VaultOp :=
| Register (who : string) (secret : list Z)
| Lookup (who : string) (answer : option (list Z)).

(** A lookup answers with what was registered last. *)
Definition vault_step (v : Vault) (op : VaultOp) : option Vault :=
  match op with
  | Register who secret => Some (<[who := secret]> v)
  | Lookup who answer => if decide (v !! who = answer) then Some v else None
  end.

Definition vault_run (v : Vault) (ops : list VaultOp) : option Vault :=
  foldl (fun v op => v ≫= fun v => vault_step v op) (Some v) ops.

Lemma vault_run_snoc v ops op :
  vault_run v (ops ++ [op]) = (vault_run v ops ≫= fun v => vault_step v op).
Proof. unfold vault_run. by rewrite foldl_app. Qed.

(** ** The abstraction *)

Section Vault.
Context `{!HeaderText, !Sha256, !StatusText, !Aead, !TotpRs, !LibraryReplies}.
Context {L : Type} `{!Governor L, !GovernorBuilder L} (o : Oracle) (state : AppState) (w : World L).
Implicit Types s : Server L.

(** What a row holds under the configured key. *)
Definition plain (row : list Z * list Z) : option (list Z) :=
  match decrypt (crypto (secrets state)) row.1 row.2 with
  | Ok secret => Some secret
  | Err _ => None
  end.

(** The vault behind the table. *)
Definition vault_of (v : World L) : Vault := omap plain (columns v).

(** The vault operation an event is: a write that took effect, or a read that
    was answered. *)
Definition vault_op (ev : Event) : option VaultOp :=
  match ev with
  | Happened e a =>
      match e in Eff A return A -> option VaultOp with
      | UpsertSecret who ciphertext nonce => fun r =>
          if applied r then Register who <$> plain (ciphertext, nonce) else None
      | SelectSecret who => fun r =>
          match r with Ok row => Some (Lookup who (row ≫= plain)) | Err _ => None end
      | _ => fun _ => None
      end a
  end.

Definition vault_ops (h : Recorded) : list VaultOp := omap (fun x => vault_op x.2) h.

Context `{!AeadLaws _, !LibraryRepliesLaws _}.
Context (Hready : cipher_ready o state) (Hempty : totp_secrets w = ∅).

(** A row the server wrote holds the secret its request drew. *)
Lemma written_plain s i who ct nonce r :
  reachable o state w s -> heard (history s) i _ (UpsertSecret who ct nonce) r ->
  exists secret, plain (ct, nonce) = Some secret /\ heard (history s) i _ GenerateSecret secret.
Proof.
  intros Hreach (h1 & h2 & Hh)%list_elem_of_split.
  destruct (event_lawful o state w s h1 i _ _ _ _ Hreach Hh) as (t & _ & _ & secret & Henc).
  assert (Hsub : forall x, x ∈ h1 -> x ∈ history s).
  { intros x Hx. rewrite Hh. apply elem_of_app. by left. }
  exists secret. split.
  - unfold plain. cbn [fst snd]. rewrite (drawn_decrypts o state w s i secret); [done..|].
    destruct Henc as (drawn & ? & ? & ?). exists drawn. split_and!; [by apply Hsub..|done].
  - destruct Henc as (drawn & Hsecret & _). by apply Hsub.
Qed.

(** So does a row it is about to write. *)
Lemma writing_plain s i t who ct nonce k :
  reachable o state w s -> requests s !! i = Some t ->
  rest t = Do (UpsertSecret who ct nonce) k -> exists secret, plain (ct, nonce) = Some secret.
Proof.
  intros Hreach Hi Hr. pose proof (rest_lawful o state w s (heard (history s)) Hreach) as Hlaw.
  specialize (Hlaw ltac:(done) i t Hi). rewrite Hr in Hlaw.
  destruct Hlaw as [[_ [secret Henc]] _]. exists secret. unfold plain. cbn [fst snd].
  by rewrite (drawn_decrypts o state w s i secret).
Qed.

(** Every row is one the server wrote. *)
Lemma row_written s who row :
  reachable o state w s -> columns (world s) !! who = Some row ->
  exists i r, heard (history s) i _ (UpsertSecret who row.1 row.2) r.
Proof.
  intros Hreach. destruct (reachable_world o state w s Hreach) as (-> & _ & _).
  intros [[Hw _]|(h1 & j & ev & h2 & Hh & Hev & _)]%replay_lookup.
  { unfold columns in Hw. by rewrite Hempty, fmap_empty, lookup_empty in Hw. }
  destruct ev as [A e a]. destruct e; try done. cbn [upsert_of] in Hev.
  destruct (applied a); [|done]. injection Hev as -> <-. exists j, a. unfold heard. rewrite Hh. apply elem_of_app. right. by left.
Qed.

Lemma row_plain s who row :
  reachable o state w s -> columns (world s) !! who = Some row ->
  exists secret, plain row = Some secret.
Proof.
  intros Hreach (i & r & Hi)%row_written; [|done].
  destruct (written_plain s i who _ _ r Hreach Hi) as (secret & Hp & _).
  exists secret. by destruct row.
Qed.

Lemma vault_ops_snoc h i ev :
  vault_ops (h ++ [(i, ev)]) = vault_ops h ++ option_list (vault_op ev).
Proof. unfold vault_ops. rewrite omap_app. simpl. by destruct (vault_op ev). Qed.

(** One statement, one vault operation. *)
Lemma attempt_vault {A} (e : Eff A) t s a t1 s1 :
  attempt o e t s = Answers a t1 s1 ->
  (forall who ct nonce r, Happened e a = Happened (UpsertSecret who ct nonce) r ->
     exists secret, plain (ct, nonce) = Some secret) ->
  match vault_op (Happened e a) with
  | Some op => vault_step (vault_of (world s)) op
  | None => Some (vault_of (world s))
  end = Some (vault_of (world s1)).
Proof.
  intros Ha Hplain. destruct (attempt_world o e t s a t1 s1 Ha) as (Hc & _ & _).
  assert (Hsame : columns (world s1) = columns (world s) ->
            Some (vault_of (world s)) = Some (vault_of (world s1))).
  { intros Heq. unfold vault_of. by rewrite Heq. }
  destruct e; try by apply Hsame.
  - assert (Hcols : columns (world s1) = columns (world s)) by exact Hc.
    assert (Hrow : forall row, a = Ok row -> row = columns (world s) !! subject).
    { intros row ->. cbn [attempt exec_eff] in Ha. unfold db in Ha.
      unfold columns. rewrite lookup_fmap.
      by destruct (db_error o (tick (world s))) as [[text []]|]; simplify_eq/=. }
    destruct a as [row|err]; [|by apply Hsame]. cbn [vault_op vault_step].
    rewrite decide_True; [by apply Hsame|]. unfold vault_of.
    by rewrite lookup_omap, (Hrow row eq_refl).
  - destruct (Hplain _ _ _ _ eq_refl) as [secret Hs]. unfold after_event in Hc.
    cbn [vault_op upsert_of] in *. destruct (applied a); [|by apply Hsame].
    rewrite Hs. cbn [fmap option_fmap option_map vault_step]. f_equal.
    unfold vault_of. rewrite Hc. symmetry. by apply omap_insert_Some.
Qed.

(** C13. The encrypted table, used by any number of requests at once and by any
    number of server processes one after the other, is an atomic map of secrets in the clear: the statements of a run, in the order
    in which they took effect (a write whose answer was lost among them), are the operations of a vault that starts
    empty, each read being answered with the secret registered last; what the
    vault holds in the end is what the rows decrypt to, every row decrypts,
    and every secret in it was freshly drawn by the request that registered
    it. *)
Theorem table_implements_vault s :
  reachable o state w s ->
  vault_run ∅ (vault_ops (history s)) = Some (vault_of (world s)) /\
  dom (vault_of (world s)) = dom (totp_secrets (world s)) /\
  forall who secret, vault_of (world s) !! who = Some secret ->
    exists i, heard (history s) i _ GenerateSecret secret.
Proof.
  intros Hreach. split_and!.
  - revert s Hreach. apply (reachable_inv o state w
      (fun s => vault_run ∅ (vault_ops (history s)) = Some (vault_of (world s)))).
    { unfold vault_of, columns. cbn [started world]. by rewrite Hempty, fmap_empty, omap_empty. }
    intros s s' Hreach IH [(-> & governor & ->)|(i & t & A & e & k & a & t1 & s1 & Hi & Hd & Hr & Ha & -> & ->)]%stepped_effect.
    + exact IH.
    + rewrite vault_ops_snoc.
      pose proof (attempt_vault e t s a t1 s1 Ha) as Hv.
      destruct (vault_op (Happened e a)) as [op|] eqn:Hop; simpl.
      * rewrite vault_run_snoc, IH. simpl. apply Hv.
        intros who ct nonce r Hev. destruct e; try done. injection Hev as -> -> -> _.
        by eapply writing_plain.
      * rewrite app_nil_r, IH. apply Hv. intros who ct nonce r Hev.
        destruct e; try done. injection Hev as -> -> -> _. by eapply writing_plain.
  - apply set_eq. intros who. unfold vault_of. rewrite !elem_of_dom, lookup_omap.
    assert (Hcol : columns (world s) !! who =
      (fun row => (encrypted_secret row, row_nonce row)) <$> totp_secrets (world s) !! who)
      by apply lookup_fmap.
    destruct (totp_secrets (world s) !! who) as [row|]; simpl in Hcol; rewrite Hcol; simpl.
    + destruct (row_plain s who _ Hreach Hcol) as [secret ->]. by split.
    + by split; intros [? ?].
  - intros who secret. unfold vault_of. rewrite lookup_omap.
    intros (row & Hrow & Hp)%bind_Some.
    destruct (row_written s who row Hreach Hrow) as (i & r & Hi).
    destruct (written_plain s i who _ _ r Hreach Hi) as (secret' & Hp' & Hdrawn).
    exists i. destruct row. simpl in Hp'. congruence.
Qed.

(** *** Nonces *)

Definition nonce_drawn (ev : Event) : option (list Z) :=
  match ev with
  | Happened e a =>
      match e in Eff A return A -> option (list Z) with
      | GenerateNonce => fun nonce => Some nonce
      | _ => fun _ => None
      end a
  end.

Definition nonce_written (ev : Event) : option (list Z) :=
  match ev with
  | Happened e _ => match e with UpsertSecret _ _ nonce => Some nonce | _ => None end
  end.

(** A nonce that is written was drawn by the same request. *)
Lemma written_was_drawn s i ev nonce :
  reachable o state w s -> (i, ev) ∈ history s -> nonce_written ev = Some nonce ->
  heard (history s) i _ GenerateNonce nonce.
Proof.
  intros Hreach (h1 & h2 & Hh)%list_elem_of_split Hn. destruct ev as [A e a].
  destruct e; simplify_eq/=.
  destruct (event_lawful o state w s h1 i _ _ _ _ Hreach Hh) as (t & _ & _ & secret & Henc).
  destruct Henc as (drawn & _ & Hdrawn & Henc). unfold encrypt_with in Henc. case_match; simplify_eq.
  rewrite Hh. apply elem_of_app. by left.
Qed.

(** No two writes have the same nonce. *)
Lemma nonces_written_once s :
  reachable o state w s ->
  NoDup (omap (fun x => nonce_drawn x.2) (history s)) ->
  NoDup (omap (fun x => nonce_written x.2) (history s)).
Proof.
  intros Hreach Hdrawn. apply NoDup_omap_intro.
  intros h1 [i ev] h2 [j ev'] h3 nonce Hh Hn Hn'. cbn [snd] in Hn, Hn'.
  assert (Hi : heard (history s) i _ GenerateNonce nonce).
  { apply (written_was_drawn s i ev); [done| |done]. rewrite Hh, elem_of_app. right. by left. }
  assert (Hj : heard (history s) j _ GenerateNonce nonce).
  { apply (written_was_drawn s j ev'); [done| |done]. rewrite Hh, elem_of_app. right. right.
    rewrite elem_of_app. right. by left. }
  pose proof (NoDup_omap_inj _ _ _ _ nonce Hdrawn Hi Hj eq_refl eq_refl) as [= <-].
  assert (Hone : spent is_upsert i (history s) <= 1).
  { apply (budget_kept o state w); [|done..]. intros route request. apply budget_protected. }
  rewrite Hh in Hone. destruct ev as [A e a], ev' as [A' e' a'].
  destruct e; try done. destruct e'; try done.
  match type of Hone with spent _ _ (_ ++ (_, ?x) :: _ ++ (_, ?y) :: _) <= _ =>
    pose proof (spent_two is_upsert i h1 x h2 y h3 eq_refl eq_refl) end. lia.
Qed.
End Vault.

(** C14. No nonce is ever reused under the key: as long as the nonces that
    are drawn do not repeat, the writes of a run, of any number of requests
    and whether they succeed or not, all carry different nonces, each drawn
    by the request that writes it; and no two rows of the table share one. *)
Theorem nonces_are_not_reused
    `{!HeaderText, !Sha256, !StatusText, !Aead, !TotpRs, !LibraryReplies}
    `{!AeadLaws _, !LibraryRepliesLaws _}
    {L : Type} `{!Governor L, !GovernorBuilder L} (o : Oracle) state (w : World L) s :
  cipher_ready o state -> totp_secrets w = ∅ -> reachable o state w s ->
  NoDup (omap (fun x => nonce_drawn x.2) (history s)) ->
  NoDup (omap (fun x => nonce_written x.2) (history s)) /\
  (forall i ev nonce, (i, ev) ∈ history s -> nonce_written ev = Some nonce ->
     heard (history s) i _ GenerateNonce nonce) /\
  forall who who' row row',
    totp_secrets (world s) !! who = Some row -> totp_secrets (world s) !! who' = Some row' ->
    row_nonce row = row_nonce row' -> who = who'.
Proof.
  intros Hready Hempty Hreach Hdrawn.
  pose proof (nonces_written_once o state w s Hreach Hdrawn) as Hwritten.
  split_and!; [done|intros i ev nonce; by apply (written_was_drawn o state w)|].
  intros who who' row row' Hrow Hrow' Hnonce.
  assert (Hcol : forall x r, totp_secrets (world s) !! x = Some r ->
            columns (world s) !! x = Some (encrypted_secret r, row_nonce r)).
  { intros x r Hr. unfold columns. by rewrite lookup_fmap, Hr. }
  destruct (row_written o state w Hempty s who _ Hreach (Hcol _ _ Hrow)) as (i & r & Hi).
  destruct (row_written o state w Hempty s who' _ Hreach (Hcol _ _ Hrow')) as (j & r' & Hj).
  simpl in *. rewrite <-Hnonce in Hj.
  by pose proof (NoDup_omap_inj _ _ _ _ (row_nonce row) Hwritten Hi Hj eq_refl eq_refl) as [= ->].
Qed.

(** ** Witness: an administrator registers himself, then asks twice *)

#[local] Existing Instances sha1_hmac tagging_aead tagging_aead_laws reference_totp_rs
  identity_hash no_text latin_headers plain_replies plain_replies_laws.

Definition demo_secret : list Z := replicate 20 4%Z.

Lemma demo_vault_ops :
  vault_ops demo_state (history demo_server) =
    [Register "bob" demo_secret; Lookup "bob" (Some demo_secret);
     Lookup "bob" (Some demo_secret)]%string.
Proof. vm_compute. reflexivity. Qed.

Lemma table_implements_vault_witness :
  vault_ops demo_state (history demo_server) =
    [Register "bob" demo_secret; Lookup "bob" (Some demo_secret);
     Lookup "bob" (Some demo_secret)]%string /\
  vault_run ∅ (vault_ops demo_state (history demo_server)) =
    Some (vault_of demo_state (world demo_server)).
Proof.
  split; [exact demo_vault_ops|].
  exact (proj1 (table_implements_vault (calm root_keycloak) demo_state fresh_world demo_ready
                  eq_refl demo_server load_reachable)).
Defined.

(** The administrator provisions himself twice at once. *)
Definition rotation : list Choice :=
  [Arrive Provision (bearer_request "root-token"); Arrive Provision (bearer_request "root-token")] ++
  replicate 13 (Advance 0) ++ replicate 13 (Advance 1).

Definition rotated_server : Server (gmap string nat) :=
  run_to (calm root_keycloak) demo_state (started fresh_world) rotation.

Lemma rotated_reachable :
  reachable (calm root_keycloak) demo_state fresh_world rotated_server.
Proof. apply runs_reachable. vm_compute. reflexivity. Qed.

Lemma nonces_are_not_reused_witness :
  length (omap (fun x => nonce_written x.2) (history rotated_server)) = 2 /\
  NoDup (omap (fun x => nonce_written x.2) (history rotated_server)).
Proof.
  assert (Hdrawn : NoDup (omap (fun x => nonce_drawn x.2) (history rotated_server))).
  { apply (bool_decide_unpack (NoDup _)). vm_compute. exact I. }
  split; [vm_compute; reflexivity|].
  apply (nonces_are_not_reused (calm root_keycloak) demo_state fresh_world rotated_server demo_ready
           eq_refl rotated_reachable Hdrawn).
Defined.
