(* ===== verification/Quota.v ===== *)
(** * How many PINs a subject can be given

    [rate_limit.rs] configures the limiter and [routes/mod.rs] puts it in
    front of the handlers.  Here the two are put together with what the
    limiter promises on its own nanosecond clock (a burst and one request per
    period from its start, and one more in any later window), a promise [Gcra]
    keeps, and the running server: a bound on the PINs a subject is given,
    however requests interleave and however often the server restarts. *)

From S2P Require Import Prelude RustText Rfc6238 Sha1 AppError Effects Config Crypto TotpGen.
From S2P Require Import SecretStore Introspection Middleware RateLimit Routes Provenance.
From S2P Require Import Protocol Pool History Flights Serving Concurrent.
Local Open Scope Z_scope.

(** ** What the limiter promises *)

(** Checks at times that do not decrease, from [lo] to [hi]. *)
Fixpoint timed (lo : Z) (checks : list (string * Z)) (hi : Z) : Prop :=
  match checks with
  | [] => lo <= hi
  | (_, t) :: checks => lo <= t /\ timed t checks hi
  end.

Lemma timed_weaken lo lo' checks hi : lo' <= lo -> timed lo checks hi -> timed lo' checks hi.
Proof. destruct checks as [|[key t] checks]; simpl; [lia|]. intros ? [? ?]. split; [lia|done]. Qed.

Lemma timed_le lo checks hi : timed lo checks hi -> lo <= hi.
Proof.
  revert lo. induction checks as [|[key t] checks IH]; intros lo; [done|].
  simpl. intros [? ?%IH]. lia.
Qed.

(** How many checks of a key were allowed. *)
Definition allowed `{Governor L} (l : L) (key : string) (checks : list (string * Z)) : nat :=
  trues (of_key key checks (run_checks l checks)).

(** A limiter with a quota: a period in milliseconds and a burst.  From its
    making each key is allowed the burst and one more request for every period
    that passes; taken up at any later moment, one request more than that (the
    cell that a key which was idle has in store). *)
Class QuotaGovernor (L : Type) `{Governor L, GovernorBuilder L} :=
  has_quota : L -> Z -> Z -> Prop.

Class QuotaGovernorLaws (L : Type) `{QuotaGovernor L} : Prop := {
  finish_quota period burst l :
    0 <= period -> 0 <= burst -> governor_finish period burst = Some l -> has_quota l period burst;
  check_keeps_quota l period burst key t :
    has_quota l period burst -> has_quota (governor_check l key t).2 period burst;
  fresh_bound period burst l key lo checks hi :
    0 <= period -> 0 <= burst -> governor_finish period burst = Some l -> timed lo checks hi ->
    Z.of_nat (allowed l key checks) * nanoseconds period <=
      burst * nanoseconds period + (hi - lo);
  quota_bound l period burst key lo checks hi :
    has_quota l period burst -> timed lo checks hi ->
    Z.of_nat (allowed l key checks) * nanoseconds period <=
      (burst + 1) * nanoseconds period + (hi - lo)
}.

Lemma allowed_cons `{Governor L} (l : L) key k t checks :
  allowed l key ((k, t) :: checks) =
    ((if decide (k = key) then if (governor_check l k t).1 then 1 else 0 else 0) +
     allowed (governor_check l k t).2 key checks)%nat.
Proof.
  unfold allowed, of_key. cbn [run_checks].
  destruct (governor_check l k t) as [b l']. cbn [zip zip_with fst snd].
  rewrite filter_cons. cbn [fst snd]. case_decide; [|done].
  unfold trues. cbn [fmap list_fmap snd]. rewrite filter_cons. by destruct b.
Qed.

Definition after_checks `{Governor L} (l : L) (checks : list (string * Z)) : L :=
  foldl (fun l c => (governor_check l c.1 c.2).2) l checks.

Lemma allowed_app `{Governor L} (l : L) key checks checks' :
  allowed l key (checks ++ checks') =
    (allowed l key checks + allowed (after_checks l checks) key checks')%nat.
Proof.
  revert l. induction checks as [|[k t] checks IH]; intros l; [done|].
  rewrite <-app_comm_cons, !allowed_cons, IH. simpl. lia.
Qed.

Lemma timed_app lo checks mid checks' hi :
  timed lo checks mid -> timed mid checks' hi -> timed lo (checks ++ checks') hi.
Proof.
  revert lo. induction checks as [|[k t] checks IH]; intros lo; simpl.
  - apply timed_weaken.
  - intros [? ?] ?. split; [done|]. by apply IH.
Qed.

(** *** GCRA keeps the promise *)

#[export] Instance gcra_quota : QuotaGovernor Gcra := fun l p b =>
  period l = p /\ burst l = b /\ 0 < p /\ 0 < b.

(** The time up to which a key has used its allowance: at least now. *)
Definition used_up (l : Gcra) (key : string) (t : Z) : Z :=
  Z.max (default (t + nanoseconds (period l)) (tats l !! key)) t.

(** Every allowed request pushes it back by a period, and none is allowed
    while it is more than a burst away. *)
Lemma gcra_potential l p b key lo checks hi :
  has_quota l p b -> timed lo checks hi ->
  allowed l key checks = 0%nat \/
  used_up l key lo + Z.of_nat (allowed l key checks) * nanoseconds p <=
    hi + (b + 1) * nanoseconds p.
Proof.
  revert l lo. induction checks as [|[k t] checks IH]; intros l lo Hq Ht; [by left|].
  destruct Ht as [Hlo Ht]. rewrite allowed_cons. pose proof (timed_le t checks hi Ht) as Hhi.
  destruct Hq as (Hp & Hb & Hp0 & Hb0).
  assert (Hq' : has_quota (governor_check l k t).2 p b).
  { unfold governor_check, gcra_governor. by destruct (gcra_check _ _ _ _). }
  specialize (IH _ t Hq' Ht). clear Hq'.
  assert (Hmono : used_up l key lo <= used_up l key t).
  { unfold used_up. destruct (tats l !! key); simpl; lia. }
  assert (Hpos : 0 < nanoseconds p) by (unfold nanoseconds; lia).
  revert IH. unfold governor_check, gcra_governor.
  destruct (gcra_check (period l) (burst l) (tats l !! k) t) as [ok tat] eqn:Hc.
  cbn [fst snd]. unfold used_up at 1. cbn [tats period]. rewrite Hp in *. intros IH.
  case_decide as Hk; [subst k|rewrite lookup_partial_alter_ne in IH by done;
    unfold used_up in *; rewrite Hp in *; destruct IH; [by left|right; lia]].
  rewrite lookup_partial_alter_eq in IH. unfold gcra_check in Hc. rewrite Hb in Hc.
  unfold used_up in *. rewrite Hp in *. set (n := nanoseconds p) in *. clearbody n.
  destruct (tats l !! key) as [x|]; cbn [default from_option] in *;
    case_decide; simplify_eq/=; destruct IH; try (by left); right; nia.
Qed.

#[export] Instance gcra_quota_laws : QuotaGovernorLaws Gcra.
Proof.
  assert (Hnew : forall p b l, 0 <= p -> 0 <= b -> governor_finish p b = Some l ->
            has_quota l p b /\ tats l = ∅).
  { intros p b l Hp Hb. unfold governor_finish, gcra_builder. case_decide; [done|].
    intros [= <-]. unfold has_quota, gcra_quota. simpl. split; [lia|done]. }
  split.
  - intros p b l Hp Hb Hl. by apply Hnew.
  - intros l p b key t Hq. unfold governor_check, gcra_governor.
    by destruct (gcra_check _ _ _ _).
  - intros p b l key lo checks hi Hp Hb Hl Ht. pose proof (timed_le lo checks hi Ht).
    destruct (Hnew p b l Hp Hb Hl) as [Hq Htats].
    pose proof (gcra_potential l p b key lo checks hi Hq Ht) as Hpot.
    unfold used_up in Hpot. rewrite Htats, lookup_empty in Hpot.
    destruct Hq as (Heq & _ & ? & ?). rewrite Heq in Hpot. simpl in Hpot.
    unfold nanoseconds in *. destruct Hpot as [-> | Hpot]; nia.
  - intros l p b key lo checks hi Hq Ht. pose proof (timed_le lo checks hi Ht).
    assert (lo <= used_up l key lo) by (unfold used_up; lia).
    pose proof (gcra_potential l p b key lo checks hi Hq Ht) as Hpot.
    destruct Hq as (_ & _ & ? & ?). unfold nanoseconds in *. destruct Hpot as [-> | Hpot]; nia.
Qed.

(** The bounds are met: a new key is allowed the burst at once, and one more
    once it has been idle. *)
Example idle_key_has_one_more :
  let later := (fun t => ("alice"%string, t)) <$> replicate 4 (nanoseconds 1000000) in
  run_checks (mkGcra 50000 2 ∅) later = [true; true; false; false] /\
  run_checks (mkGcra 50000 2 ∅) (("alice"%string, 0) :: later) =
    [true; true; true; true; false].
Proof. split; vm_compute; reflexivity. Qed.

(** ** The running server *)

(** A check that was allowed. *)
Definition granted (key : string) (ev : Event) : bool :=
  match ev with
  | Happened e a =>
      match e in Eff A return A -> bool with
      | CheckLimit k => fun ok => bool_decide (k = key) && ok
      | _ => fun _ => false
      end a
  end.

Definition grants (key : string) (h : Recorded) : nat :=
  length (filter (fun x => granted key x.2 = true) h).

Lemma grants_of_app key h h' : grants key (h ++ h') = (grants key h + grants key h')%nat.
Proof. unfold grants. by rewrite filter_app, length_app. Qed.

(** Distinct tasks that were each granted something. *)
Lemma tasks_of_grants key (h : Recorded) (tasks : list nat) :
  NoDup tasks -> Forall (fun i => (i, Happened (CheckLimit key) true) ∈ h) tasks ->
  (length tasks <= grants key h)%nat.
Proof.
  intros Hnd Hall. unfold grants. rewrite <-(length_fmap fst).
  apply submseteq_length, NoDup_submseteq; [done|]. intros i Hi.
  rewrite Forall_forall in Hall. apply list_elem_of_fmap.
  exists (i, Happened (CheckLimit key) true). split; [done|].
  apply list_elem_of_filter. split; [|by apply Hall]. simpl. by rewrite bool_decide_true.
Qed.

(** The process was started again. *)
Definition is_restart (c : Choice) : bool := match c with Restart => true | _ => false end.
Definition restarts (choices : list Choice) : nat := trues (is_restart <$> choices).

Lemma restarts_cons c choices :
  restarts (c :: choices) = ((if is_restart c then 1 else 0) + restarts choices)%nat.
Proof. unfold restarts, trues. rewrite fmap_cons, filter_cons. by destruct (is_restart c). Qed.

Section Quota.
Context `{!HeaderText, !Sha256, !StatusText, !Aead, !TotpRs, !LibraryReplies}.
Context {L : Type} `{QuotaGovernorLaws L} (o : Oracle) (state : AppState) (w : World L).
Implicit Types s : Server L.

Context (Hclock : forall n m, (n <= m)%nat -> monotonic o n <= monotonic o m).

(** What happened to the limiter between two moments, [h] being the events in
    between: checks, some granted. *)
Definition limiter_between (key : string) s s1 (h : Recorded) : Prop :=
  exists checks, timed (monotonic o (tick (world s))) checks (monotonic o (tick (world s1))) /\
    grants key h = allowed (limiter (world s)) key checks /\
    limiter (world s1) = after_checks (limiter (world s)) checks.

Lemma limiter_between_trans key s s1 s2 h h' :
  limiter_between key s s1 h -> limiter_between key s1 s2 h' ->
  limiter_between key s s2 (h ++ h').
Proof.
  intros (c & Ht & Hg & Hl) (c' & Ht' & Hg' & Hl'). exists (c ++ c').
  rewrite grants_of_app, allowed_app, Hg, Hg', Hl', Hl. split_and!; [|done|].
  - by eapply timed_app.
  - unfold after_checks. by rewrite foldl_app.
Qed.

Lemma limiter_idle key s s1 (h : Recorded) :
  limiter (world s1) = limiter (world s) -> (tick (world s) <= tick (world s1))%nat ->
  grants key h = 0%nat -> limiter_between key s s1 h.
Proof. intros Hl Ht Hg. exists []. split; [by apply Hclock|]. by rewrite Hg. Qed.

Lemma attempt_limiter key i {A} (e : Eff A) t s a t1 s1 :
  attempt o e t s = Answers a t1 s1 -> limiter_between key s s1 [(i, Happened e a)].
Proof.
  intros Ha. destruct e; try (cbn [attempt exec_eff] in Ha; unfold db in Ha; repeat case_match;
    simplify_eq/=; apply limiter_idle; simpl; try done; lia).
  cbn [attempt exec_eff] in Ha.
  destruct (governor_check (limiter (world s)) key0 (monotonic o (tick (world s)))) as [ok l] eqn:Hg.
  simplify_eq. exists [(key0, monotonic o (tick (world s)))]. split_and!; simpl.
  - split; [lia|]. apply Hclock. lia.
  - rewrite allowed_cons, Hg. unfold grants. rewrite filter_cons. simpl.
    destruct (decide (key0 = key)) as [->|Hne];
      [rewrite bool_decide_true by done|rewrite bool_decide_false by done]; by destruct a.
  - by rewrite Hg.
Qed.

(** The events of a step that is not a restart. *)
Lemma step_limiter key s c s' :
  pool_step o state s c = Some s' -> is_restart c = false ->
  exists h, history s' = history s ++ h /\ limiter_between key s s' h.
Proof.
  intros Hc Hno. destruct (arrival c) eqn:Harr.
  { destruct c; try done. injection Hc as <-. exists []. rewrite app_nil_r.
    split; [done|]. by apply limiter_idle. }
  destruct (pool_step_task o state s c s' Hc Harr)
    as (i & t & A & e & k & _ & _ & _ & [->|(a & t1 & s1 & s2 & Ha & Hs2 & ->)]).
  - exists []. rewrite app_nil_r, drop_task_history. split; [done|].
    apply limiter_idle; by rewrite ?drop_task_world.
  - exists [(i, Happened e a)]. destruct (attempt_frame o e t s a t1 s1 Ha) as (_ & Hh & _).
    assert (Hw : world s2 = world s1) by (destruct Hs2 as [-> | ->]; [done|apply drop_task_world]).
    split.
    + cbn [record_event history]. destruct Hs2 as [-> | ->]; [simpl|rewrite drop_task_history]; by rewrite Hh.
    + unfold limiter_between. cbn [record_event world]. rewrite Hw. by eapply attempt_limiter.
Qed.

Lemma step_restart s c s' :
  pool_step o state s c = Some s' -> is_restart c = true ->
  exists governor, rate_limit_config (config state) = Ok governor /\ s' = restarted governor s.
Proof.
  destruct c; try done. simpl. destruct (rate_limit_config (config state)); [|done].
  intros [= <-] _. eauto.
Qed.

Lemma after_checks_quota (l : L) p b checks : has_quota l p b -> has_quota (after_checks l checks) p b.
Proof.
  revert l. induction checks as [|[k t] checks IH]; intros l Hq; [done|]. simpl.
  by apply IH, check_keeps_quota.
Qed.

(** *** Windows of a run *)

Section Windows.
Context (period burst : Z).
Context (Hnew : forall governor, rate_limit_config (config state) = Ok governor ->
                governor_finish period burst = Some governor).
Context (Hperiod : 0 <= period) (Hburst : 0 <= burst).

(** Every limiter of the run has the quota. *)
Lemma quota_kept s choices s' :
  has_quota (limiter (world s)) period burst -> pool_run o state s choices = Some s' ->
  has_quota (limiter (world s')) period burst.
Proof.
  revert s. induction choices as [|c choices IH]; intros s Hq; [by intros [= <-]|].
  simpl. intros (s1 & Hc & Hrun)%bind_Some. apply (IH s1); [|done].
  destruct (is_restart c) eqn:Hre.
  - destruct (step_restart s c s1 Hc Hre) as (governor & Hg & ->). apply finish_quota; [done..|]. by apply Hnew.
  - destruct (step_limiter ""%string s c s1 Hc Hre) as (_ & _ & checks & _ & _ & ->).
    by apply after_checks_quota.
Qed.

(** The checks up to the first restart, and what is granted after it. *)
Lemma run_segments key s choices s' :
  pool_run o state s choices = Some s' ->
  exists checks mid h h',
    history s' = history s ++ h ++ h' /\
    timed (monotonic o (tick (world s))) checks mid /\
    grants key h = allowed (limiter (world s)) key checks /\
    Z.of_nat (grants key h') * nanoseconds period <=
      Z.of_nat (restarts choices) * (burst * nanoseconds period) +
      (monotonic o (tick (world s')) - mid).
Proof.
  revert s. induction choices as [|c choices IH]; intros s.
  { intros [= <-]. exists [], (monotonic o (tick (world s))), [], []. rewrite !app_nil_r.
    split_and!; [done|simpl; lia|done|]. change (restarts []) with 0%nat. change (grants key []) with 0%nat. lia. }
  simpl. intros (s1 & Hc & Hrun)%bind_Some.
  destruct (IH s1 Hrun) as (checks & mid & h & h' & Hh & Ht & Hg & Hr).
  rewrite restarts_cons. destruct (is_restart c) eqn:Hre.
  - destruct (step_restart s c s1 Hc Hre) as (governor & Hok & ->).
    exists [], (monotonic o (tick (world s))), [], (h ++ h').
    split_and!; [done|simpl; lia|done|]. rewrite grants_of_app.
    pose proof (fresh_bound period burst governor key _ _ _ Hperiod Hburst (Hnew governor Hok) Ht) as Hb.
    simpl in Hg. rewrite <-Hg in Hb. simpl in Hb. lia.
  - destruct (step_limiter key s c s1 Hc Hre) as (h0 & Hh0 & checks0 & Ht0 & Hg0 & Hl0).
    exists (checks0 ++ checks), mid, (h0 ++ h), h'. rewrite grants_of_app, allowed_app, <-Hl0, Hg, Hg0.
    split_and!; [by rewrite Hh, Hh0, <-!app_assoc|by eapply timed_app|done|done].
Qed.

(** The allowance of a key over a window of a run, from what the limiter the
    window begins with allows. *)
Lemma granted_in_window extra key s choices s' h :
  (forall checks hi, timed (monotonic o (tick (world s))) checks hi ->
     Z.of_nat (allowed (limiter (world s)) key checks) * nanoseconds period <=
       (burst + extra) * nanoseconds period + (hi - monotonic o (tick (world s)))) ->
  pool_run o state s choices = Some s' -> history s' = history s ++ h ->
  Z.of_nat (grants key h) * nanoseconds period <=
    (1 + Z.of_nat (restarts choices)) * (burst * nanoseconds period) +
    extra * nanoseconds period +
    (monotonic o (tick (world s')) - monotonic o (tick (world s))).
Proof.
  intros Hfirst Hrun Hh.
  destruct (run_segments key s choices s' Hrun) as (checks & mid & h1 & h2 & Hh' & Ht & Hg & Hr).
  rewrite Hh in Hh'. apply app_inv_head in Hh' as ->. rewrite grants_of_app, Hg.
  pose proof (Hfirst _ _ Ht). lia.
Qed.

End Windows.

(** ** PINs *)

(** Request [i] was answered with a PIN of [who]'s secret. *)
Definition gave_pin s (who : string) (i : nat) : Prop :=
  exists t response row, requests s !! i = Some t /\ task_route t = RequestPin /\
    rest t = Ret response /\ status response = 200 /\
    heard (history s) i _ (SelectSecret who) (Ok (Some row)).

Lemma gave_pin_granted `{!LibraryRepliesLaws _} s who i :
  reachable o state w s -> gave_pin s who i -> (i, Happened (CheckLimit who) true) ∈ history s.
Proof.
  intros Hreach (t & response & row & _ & _ & _ & _ & (h1 & h2 & Hh)%list_elem_of_split).
  destruct (event_lawful o state w s h1 i _ _ _ _ Hreach Hh) as (t' & _ & _ & Hgrant).
  rewrite Hh. apply elem_of_app. by left.
Qed.

Lemma config_quota : config_wf (config state) ->
  0 <= refill_millis (config state) /\ 0 <= rate_limit_max_requests (config state) /\
  forall governor, rate_limit_config (config state) = Ok governor ->
    governor_finish (refill_millis (config state)) (rate_limit_max_requests (config state)) =
      Some governor.
Proof.
  intros (_ & _ & Hmax & _). split; [|split; [lia|]].
  - unfold refill_millis, as_u64. apply Z.div_pos; [|lia]. by apply Z.mod_pos_bound.
  - intros governor Hok. unfold rate_limit_config, ok_or in Hok. by case_match; simplify_eq.
Qed.

(** PINs of one subject's secret given over a window are no more than the
    checks granted in it. *)
Lemma pins_are_granted `{!LibraryRepliesLaws _} s s' h who tasks :
  reachable o state w s' -> history s' = history s ++ h -> NoDup tasks ->
  Forall (fun i => gave_pin s' who i /\ (i, Happened (CheckLimit who) true) ∉ history s) tasks ->
  (length tasks <= grants who h)%nat.
Proof.
  intros Hreach' Hh Hnd Hall. apply tasks_of_grants; [done|].
  eapply Forall_impl; [exact Hall|]. intros i [Hg Hn].
  apply (gave_pin_granted s' who i Hreach') in Hg. rewrite Hh in Hg.
  by apply elem_of_app in Hg as [?|?].
Qed.

(** C10. The budget is kept under any interleaving: every PIN that leaves the
    server is of the secret of the user Keycloak vouched for; and whatever
    else happens at the same time, since the server was started the requests
    that end with a PIN of one subject's secret number no more than the
    configured maximum plus one for every refill period that has passed on
    the limiter's own clock, which does not go back.  The same holds of any
    later window of the run, by the requests admitted in it, with one request
    more.  The limiter's store is in memory: each restart of the server
    within the window allows the maximum once more. *)
Theorem pins_are_rate_limited `{!LibraryRepliesLaws _} s s' before choices :
  config_wf (config state) -> rate_limit_config (config state) = Ok (limiter w) ->
  pool_run o state (started w) before = Some s -> pool_run o state s choices = Some s' ->
  let refill := nanoseconds (refill_millis (config state)) in
  let max := rate_limit_max_requests (config state) in
  let time s := monotonic o (tick (world s)) in
  (forall i t response, requests s' !! i = Some t -> task_route t = RequestPin ->
     rest t = Ret response -> status response = 200 ->
     exists user, vouched_in state s' (history s') (task_request t) user /\
       gave_pin s' (subject user) i) /\
  (forall who tasks, NoDup tasks -> Forall (gave_pin s who) tasks ->
     Z.of_nat (length tasks) * refill <=
       (1 + Z.of_nat (restarts before)) * (max * refill) + (time s - time (started w))) /\
  forall who tasks, NoDup tasks ->
    Forall (fun i => gave_pin s' who i /\ (i, Happened (CheckLimit who) true) ∉ history s) tasks ->
    Z.of_nat (length tasks) * refill <=
      (1 + Z.of_nat (restarts choices)) * (max * refill) + refill + (time s' - time s).
Proof.
  intros Hwf Hok Hbefore Hrun refill max time.
  assert (Hreach : reachable o state w s) by (by eexists).
  pose proof (reachable_run o state w s choices s' Hreach Hrun) as Hreach'.
  destruct (config_quota Hwf) as (Hper & Hburst & Hnew).
  assert (Hpos : 0 <= refill) by (unfold refill, nanoseconds; lia). split_and!.
  - intros i t response Hi Hro Hr Hs.
    pose proof (response_earned o state w s' i t response Hreach' Hi Hr) as He.
    rewrite Hro in He. destruct (He ltac:(done) Hs)
      as (p & _ & user & secret & generated & Hb & (ct & nonce & Hread & _) & _).
    exists user. split; [|by exists t, response, (ct, nonce)].
    eapply (bearer_grounded o state w); [done|symmetry; apply app_nil_r|done|exact Hb].
  - intros who tasks Hnd Hall.
    assert (Hlen : (length tasks <= grants who (history s))%nat).
    { apply (pins_are_granted (started w) s); [done|done|done|].
      eapply Forall_impl; [exact Hall|]. intros i Hi. split; [done|]. apply not_elem_of_nil. }
    pose proof (granted_in_window _ _ Hnew Hper Hburst 0 who (started w) before s (history s)) as Hb.
    specialize (Hb ltac:(intros checks hi Ht; rewrite Z.add_0_r;
      by apply (fresh_bound _ _ (limiter w) who _ checks hi Hper Hburst (Hnew _ Hok)))).
    specialize (Hb Hbefore eq_refl). subst refill max time. nia.
  - intros who tasks Hnd Hall.
    destruct (pool_run_grows o state s choices s' Hrun) as [h Hh].
    pose proof (pins_are_granted s s' h who tasks Hreach' Hh Hnd Hall) as Hlen.
    assert (Hq : has_quota (limiter (world s)) (refill_millis (config state))
                   (rate_limit_max_requests (config state))).
    { apply (quota_kept _ _ Hnew Hper Hburst (started w) before); [|done].
      apply finish_quota; [done..|]. by apply Hnew. }
    pose proof (granted_in_window _ _ Hnew Hper Hburst 1 who s choices s' h) as Hb.
    specialize (Hb ltac:(intros checks hi Ht; by apply quota_bound)).
    specialize (Hb Hrun Hh). subst refill max time. nia.
Qed.
End Quota.

(** ** Witness: two requests for a PIN, one budgeted *)

#[local] Existing Instances sha1_hmac tagging_aead reference_totp_rs identity_hash no_text
  latin_headers plain_replies plain_replies_laws.

Definition tight_state : AppState := app_state_new (with_limit 1 300).
Definition budgeted_world : World Gcra :=
  mkWorld {["alice"%string := mkSecretRow (replicate 32 42 ++ replicate 12 0 ++ rfc_secret)
                                (replicate 12 0) 1111110000 None]}
    [] [] [] (mkGcra 300000 1 ∅) ∅ 0.
Definition two_requests : list Choice :=
  [Arrive RequestPin (bearer_request "alice-token"); Arrive RequestPin (bearer_request "alice-token")] ++
  replicate 13 (Advance 0) ++ replicate 10 (Advance 1).
Definition budgeted_server : Server Gcra :=
  run_to (calm demo_keycloak) tight_state (started budgeted_world) two_requests.

(** The first is given a PIN, the second is turned away. *)
Lemma budgeted_answers :
  (fun t => match rest t with Ret r => Some (status r) | Do _ _ => None end) <$>
    requests budgeted_server = [Some 200; Some 429].
Proof. vm_compute. reflexivity. Qed.

(** The store is in memory: after a restart the budget is whole again. *)
Example restart_refills :
  (fun t => match rest t with Ret r => Some (status r) | Do _ _ => None end) <$>
    requests (run_to (calm demo_keycloak) tight_state budgeted_server
      ([Restart; Arrive RequestPin (bearer_request "alice-token")] ++ replicate 13 (Advance 2))) =
  [Some 200; Some 429; Some 200].
Proof. vm_compute. reflexivity. Qed.

Lemma budgeted_run :
  pool_run (calm demo_keycloak) tight_state (started budgeted_world) two_requests =
    Some budgeted_server.
Proof. apply runs_to. vm_compute. reflexivity. Qed.

Lemma budgeted_pin : gave_pin budgeted_server "alice" 0.
Proof.
  assert (Hpin : (t ← requests budgeted_server !! 0%nat;
                  match rest t with Ret r => Some (task_route t, status r) | Do _ _ => None end) =
                 Some (RequestPin, 200)) by (vm_compute; reflexivity).
  apply bind_Some in Hpin as (t & Ht & Hr). destruct (rest t) as [r|] eqn:Hrest; [|done].
  injection Hr as Hro Hs. eexists t, r, _. split_and!; [done..|].
  apply (list_elem_of_lookup_2 _ 7). vm_compute. reflexivity.
Qed.

Lemma tight_wf : config_wf (config tight_state).
Proof.
  split; [apply Forall_replicate; split; [discriminate|reflexivity]|].
  split_and!; try reflexivity; try discriminate; try (split; [discriminate|reflexivity]).
  intros l Hl. destruct l; discriminate Hl.
Qed.

(** One PIN by the end of the run, the budget of one being full from the
    start. *)
Lemma pins_are_rate_limited_witness :
  gave_pin budgeted_server "alice" 0 /\
  1 * nanoseconds 300000 <= (1 + 0) * (1 * nanoseconds 300000) + 17000000.
Proof.
  split; [exact budgeted_pin|].
  assert (Hok : rate_limit_config (config tight_state) = Ok (limiter budgeted_world))
    by (vm_compute; reflexivity).
  assert (Hmono : forall n m, (n <= m)%nat ->
            monotonic (calm demo_keycloak) n <= monotonic (calm demo_keycloak) m)
    by (intros n m Hle; simpl; lia).
  destruct (pins_are_rate_limited (calm demo_keycloak) tight_state budgeted_world
              Hmono budgeted_server budgeted_server two_requests [] tight_wf Hok budgeted_run
              eq_refl) as (_ & Hbound & _).
  assert (Htime : tick (world budgeted_server) = 17%nat) by (vm_compute; reflexivity).
  specialize (Hbound "alice"%string [0%nat] ltac:(apply NoDup_singleton)).
  specialize (Hbound ltac:(apply Forall_singleton; exact budgeted_pin)).
  rewrite Htime in Hbound. exact Hbound.
Defined.
