(* ===== verification/Secrecy.v ===== *)
(** * What the server writes down does not depend on its secrets

    Two installations of the server differ in everything that is secret: the
    encryption key, the client secret and the database's URL in the
    environment, the secrets stored for the users (and so the ciphertexts),
    and those that will be drawn.  Relations between their programs, worlds
    and servers say so ([lockstep] is the one on programs: the same effects in
    the same order, except for what is encrypted), every step keeps them, and
    so whatever one logs, audits or answers, the other does too, PINs and
    provisioning replies apart. *)

From S2P Require Import Prelude RustText Rfc6238 Sha1 Base32 AppError Effects Base64 Config Crypto.
From S2P Require Import TotpGen SecretStore Introspection Middleware RateLimit Routes.
From S2P Require Import Pool Serving Startup Concurrent.
Local Open Scope nat_scope.

(** ** What the libraries' errors may depend on *)

Definition with_secret (secret : list Z) (params : TotpParams) : TotpParams :=
  mkTotpParams (TotpGen.algorithm params) (TotpGen.digits params) (step_duration params)
    secret (issuer params) (account_name params).

(** An encryption fails for the length of its text ([aes-gcm]), a generator or
    its URL for the length of its secret ([totp_rs]): no error tells more of
    either. *)
Class BlindErrors (A : Aead) (T : TotpRs) : Prop := {
  encrypt_blind key key' nonce text text' :
    length key' = length key -> length text' = length text ->
    aead_encrypt key nonce text = None -> aead_encrypt key' nonce text' = None;
  build_blind params secret' e :
    length secret' = length (TotpGen.secret params) ->
    build params = Err e -> build (with_secret secret' params) = Err e;
  to_url_blind params secret' totp totp' e :
    length secret' = length (TotpGen.secret params) ->
    build params = Ok totp -> build (with_secret secret' params) = Ok totp' ->
    to_url totp = Err e -> to_url totp' = Err e
}.

Lemma stand_in_errors : BlindErrors tagging_aead reference_totp_rs.
Proof.
  split; [done| |done]. intros params secret' e Hlen Hb. cbn in *.
  rewrite Hlen. by repeat case_match.
Qed.

(** ** Alike *)

(** The other installation's configuration. *)
Definition with_credentials (database client : string) (key : list Z) (c : Config) : Config := {|
  database_url := database; host := host c; port := port c;
  keycloak_issuer := keycloak_issuer c; keycloak_client_id := keycloak_client_id c;
  keycloak_client_secret := client; expected_audience := expected_audience c;
  admin_role := admin_role c; encryption_key := key;
  totp_skew_steps := totp_skew_steps c;
  rate_limit_max_requests := rate_limit_max_requests c;
  rate_limit_window_seconds := rate_limit_window_seconds c
|}.

(** Questions to Keycloak, but for the server's own credentials. *)
Definition alike_posts (post post' : Post) : Prop :=
  post' = mkPost (post_url post) (post_client_id post) (post_client_secret post') (post_token post).

(** Answers to a client, but for a PIN and for what provisioning shows. *)
Definition alike_bodies (b b' : Body) : Prop :=
  match b, b' with
  | BodyPin p, BodyPin p' => Middleware.valid_for_seconds p' = Middleware.valid_for_seconds p
  | BodyProvision _, BodyProvision _ => True
  | _, _ => b' = b
  end.

Definition alike_responses (r r' : Response) : Prop :=
  status r' = status r /\ alike_bodies (body r) (body r').

(** The outside of both: only the secrets drawn differ; Keycloak takes either
    server's credentials. *)
Record alike_oracles (o o' : Oracle) : Prop := {
  same_errors n : db_error o' n = db_error o n;
  same_clock n : clock o' n = clock o n;
  same_monotonic n : monotonic o' n = monotonic o n;
  same_nonces n : random_nonce o' n = random_nonce o n;
  same_uuids n : random_uuid o' n = random_uuid o n;
  same_broadcasts n : broadcast o' n = broadcast o n;
  same_keycloak n post post' : alike_posts post post' -> keycloak o' n post' = keycloak o n post;
  nonce_length n : length (random_nonce o n) = NONCE_LEN;
  secret_length n : length (random_secret o' n) = length (random_secret o n)
}.

Section Secrecy.
Context `{!HeaderText, !Sha256, !StatusText, !Aead, !TotpRs, !LibraryReplies}.
Context (config : Config) (database client : string) (key : list Z).
Let config' := with_credentials database client key config.
Let state := app_state_new config.
Let state' := app_state_new config'.

(** What the two keys make of two rows: secrets of one length, or the same
    error. *)
Definition alike_texts (r r' : list Z * list Z) : Prop :=
  match decrypt (crypto_new (encryption_key config)) r.1 r.2, decrypt (crypto_new key) r'.1 r'.2 with
  | Ok secret, Ok secret' => length secret' = length secret
  | Err e, Err e' => e' = e
  | _, _ => False
  end.

(** The same effect, or two that differ in what is secret. *)
Definition public {A} (e : Eff A) : bool :=
  match e with
  | UpsertSecret _ _ _ | SendPost _ => false
  | _ => true
  end.

Inductive alike_effects : forall A, Eff A -> Eff A -> Prop :=
| alike_public A (e : Eff A) : public e = true -> alike_effects A e e
| alike_upsert who ct nonce ct' nonce' :
    alike_texts (ct, nonce) (ct', nonce') ->
    alike_effects _ (UpsertSecret who ct nonce) (UpsertSecret who ct' nonce')
| alike_post post post' :
    alike_posts post post' -> alike_effects _ (SendPost post) (SendPost post').

Definition alike_reads (r r' : result (option (list Z * list Z)) DbError) : Prop :=
  match r, r' with
  | Ok row, Ok row' => option_Forall2 alike_texts row row'
  | Err err, Err err' => err' = err
  | _, _ => False
  end.

Definition alike_answers {A} (e : Eff A) : A -> A -> Prop :=
  match e with
  | SelectSecret _ => alike_reads
  | GenerateSecret => fun secret secret' => length secret' = length secret
  | GenerateNonce => fun nonce nonce' => nonce' = nonce /\ length nonce = NONCE_LEN
  | _ => fun a a' => a' = a
  end.

(** Programs that stay together while their answers are alike. *)
Inductive lockstep {T} (Q : T -> T -> Prop) : Prog T -> Prog T -> Prop :=
| lockstep_ret v v' : Q v v' -> lockstep Q (Ret v) (Ret v')
| lockstep_do A (e e' : Eff A) k k' :
    alike_effects A e e' ->
    (forall a a', alike_answers e a a' -> lockstep Q (k a) (k' a')) ->
    lockstep Q (Do e k) (Do e' k').

Lemma lockstep_bind {T U} (R : T -> T -> Prop) (Q : U -> U -> Prop) p p' (f f' : T -> Prog U) :
  lockstep R p p' -> (forall v v', R v v' -> lockstep Q (f v) (f' v')) ->
  lockstep Q (p ≫= f) (p' ≫= f').
Proof.
  intros Hp Hf. induction Hp as [v v' Hv|A e e' k k' He _ IH]; [by apply Hf|].
  by apply (lockstep_do Q A e e').
Qed.

Lemma lockstep_public {A T} (Q : T -> T -> Prop) (e : Eff A) (k k' : A -> Prog T) :
  public e = true -> (forall a a', alike_answers e a a' -> lockstep Q (k a) (k' a')) ->
  lockstep Q (Do e k) (Do e k').
Proof. intros He Hk. by apply lockstep_do; [constructor|]. Qed.

Lemma lockstep_then {A T} (Q : T -> T -> Prop) (e : Eff A) (f f' : A -> Prog T) :
  public e = true -> (forall a a', alike_answers e a a' -> lockstep Q (f a) (f' a')) ->
  lockstep Q (perform e ≫= f) (perform e ≫= f').
Proof. apply lockstep_public. Qed.

(** ** The two programs *)

(** Results that are values alike, or the same error. *)
Definition alike_results {T} (Q : T -> T -> Prop) (r r' : AppResult T) : Prop :=
  match r, r' with
  | Ok v, Ok v' => Q v v'
  | Err e, Err e' => e' = e
  | _, _ => False
  end.

Lemma lockstep_try {T U} (R : T -> T -> Prop) (Q : AppResult U -> AppResult U -> Prop)
    p p' (f f' : T -> ProgR U) :
  lockstep (alike_results R) p p' -> (forall e, Q (Err e) (Err e)) ->
  (forall v v', R v v' -> lockstep Q (f v) (f' v')) ->
  lockstep Q (try_bind p f) (try_bind p' f').
Proof.
  intros Hp He Hf. eapply lockstep_bind; [exact Hp|].
  intros [v|e] [v'|e'] Hr; try done; [by apply Hf|]. simpl in Hr. subst e'. by apply lockstep_ret.
Qed.

(** Runs through the effects both programs perform. *)
Ltac together :=
  repeat first
    [ apply lockstep_public; [reflexivity|]; simpl; intros ? ? ?; simplify_eq
    | apply lockstep_ret; done
    | case_match ].

Lemma lockstep_log_request who res : lockstep eq (log_request who res) (log_request who res).
Proof. unfold log_request. simpl. together. Qed.

Lemma lockstep_respond r r' :
  alike_results alike_responses r r' -> lockstep alike_responses (respond r) (respond r').
Proof.
  destruct r as [v|e], r' as [v'|e']; try done; simpl; [by apply lockstep_ret|].
  intros ->. together.
Qed.

(** Introspection: nothing but the credentials it sends. *)
Lemma lockstep_call token :
  lockstep eq (call (introspection state) token) (call (introspection state') token).
Proof.
  unfold call. simpl. apply lockstep_do; [by constructor|].
  intros reply reply' Hr. simpl in Hr. subst reply'.
  destruct reply as [err|status [body|err]]; simpl; together.
  unfold evaluate. simpl. destruct (exp body); simpl; together.
Qed.

Lemma lockstep_authenticate token :
  lockstep eq (authenticate (introspection state) token)
    (authenticate (introspection state') token).
Proof.
  unfold authenticate, introspect. apply (lockstep_bind eq).
  2: { intros outcome ? ->. by apply lockstep_ret. }
  apply lockstep_then; [done|].
  intros follower ? ->. destruct follower as [rx|].
  - apply lockstep_then; [done|]. intros message ? ->.
    destruct message as [outcome|]; [by apply lockstep_ret|apply lockstep_call].
  - apply (lockstep_bind eq); [apply lockstep_call|]. intros outcome ? ->. simpl. together.
Qed.

(** Reading and writing a secret, under either key. *)
Lemma lockstep_get who :
  lockstep (alike_results (option_Forall2 (fun secret secret' => length secret' = length secret)))
    (get (secrets state) who) (get (secrets state') who).
Proof.
  unfold get. apply lockstep_then; [done|]. intros r r' Hr. apply lockstep_ret.
  destruct r as [row|err], r' as [row'|err']; try done; simpl in Hr; [|by subst err'].
  destruct Hr as [[ct nonce] [ct' nonce'] Ht|]; [|by constructor].
  unfold alike_texts in Ht. simpl in *.
  destruct (decrypt _ ct nonce), (decrypt _ ct' nonce'); try done. by constructor.
Qed.

Context `{!BlindErrors _ _, !AeadLaws _}.
Context (Hkey : length (encryption_key config) = 32) (Hkey' : length key = 32).

Lemma lockstep_upsert who secret secret' :
  length secret' = length secret ->
  lockstep (alike_results eq) (upsert (secrets state) who secret) (upsert (secrets state') who secret').
Proof.
  intros Hlen. unfold upsert, encrypt.
  apply (lockstep_try (fun c c' => alike_texts c c')); [|done|].
  - apply lockstep_then; [done|]. intros nonce ? [-> Hn]. apply lockstep_ret.
    unfold encrypt_with. simpl.
    destruct (aead_encrypt (encryption_key config) nonce secret) as [ct|] eqn:He,
      (aead_encrypt key nonce secret') as [ct'|] eqn:He'; simpl.
    + unfold alike_texts, decrypt. simpl. rewrite !decide_True by done.
      by rewrite (aead_round_trip _ _ _ _ Hkey Hn He), (aead_round_trip _ _ _ _ Hkey' Hn He').
    + by rewrite (encrypt_blind key (encryption_key config) nonce secret' secret) in He by congruence.
    + by rewrite (encrypt_blind (encryption_key config) key nonce secret secret') in He' by congruence.
    + done.
  - intros [ct nonce] [ct' nonce'] Ht. simpl.
    apply lockstep_do; [by constructor|]. intros r ? ->. apply lockstep_ret.
    by destruct (from_db r).
Qed.

(** The generator's errors are blind, and how long a PIN lasts is the clock's. *)
Lemma generator_blind secret secret' name :
  length secret' = length secret ->
  alike_results (fun totp totp' => forall e,
      to_url totp = Err e <-> to_url totp' = Err e)
    (generator secret name) (generator secret' name).
Proof.
  intros Hlen. unfold generator.
  set (params := mkTotpParams ALGORITHM DIGITS STEP_SECONDS secret (Some ISSUER) name).
  change (mkTotpParams ALGORITHM DIGITS STEP_SECONDS secret' (Some ISSUER) name)
    with (with_secret secret' params).
  set (params' := with_secret secret' params).
  destruct (build params) as [totp|e] eqn:Hb, (build params') as [totp'|e'] eqn:Hb'; simpl.
  - intros e. split.
    + by apply (to_url_blind params secret').
    + by apply (to_url_blind params' secret).
  - assert (build params = Err e') by by apply (build_blind params' secret). congruence.
  - assert (build params' = Err e) by by apply build_blind. congruence.
  - assert (build params' = Err e) by by apply build_blind. congruence.
Qed.

Lemma lockstep_generate secret secret' :
  length secret' = length secret ->
  lockstep (alike_results (fun p p' => TotpGen.valid_for_seconds p' = TotpGen.valid_for_seconds p))
    (generate secret) (generate secret').
Proof.
  intros Hlen. unfold generate. apply (lockstep_bind eq).
  { unfold unix_now. apply lockstep_then; [done|]. intros now ? ->.
    case_decide; [by apply lockstep_ret|]. apply lockstep_then; [done|]. intros []. }
  intros now ? ->. apply lockstep_ret. unfold generate_at.
  pose proof (generator_blind secret secret' "user" Hlen) as Hg.
  by destruct (generator secret "user"), (generator secret' "user"); simplify_eq/=.
Qed.

Lemma lockstep_provision_secret name :
  lockstep (alike_results (fun s s' => length (raw s') = length (raw s)))
    (TotpGen.provision name) (TotpGen.provision name).
Proof.
  unfold TotpGen.provision. apply lockstep_then; [done|]. intros secret secret' Hlen.
  apply lockstep_ret. pose proof (generator_blind secret secret' name Hlen) as Hg.
  destruct (generator secret name) as [totp|], (generator secret' name) as [totp'|]; try done.
  simpl in *. destruct (to_url totp) as [url|e] eqn:Hu, (to_url totp') as [url'|e'] eqn:Hu'; simpl.
  - done.
  - by pose proof (proj2 (Hg e') eq_refl).
  - by pose proof (proj1 (Hg e) eq_refl).
  - pose proof (proj1 (Hg e) eq_refl). congruence.
Qed.

(** The handlers and the layers around them. *)
Lemma lockstep_request_pin user :
  lockstep (alike_results (fun p p' =>
      Middleware.valid_for_seconds p' = Middleware.valid_for_seconds p))
    (request_pin state user) (request_pin state' user).
Proof.
  unfold request_pin. eapply lockstep_try; [apply lockstep_get|done|].
  intros secret secret' [? ? Hlen|].
  - eapply lockstep_try; [by apply lockstep_generate|done|]. intros p p' Hp.
    apply (lockstep_try eq); [|done|].
    + unfold touch_last_used. apply lockstep_then; [done|]. intros r ? ->.
      apply lockstep_ret. by destruct (from_db r).
    + intros _ _ _. eapply lockstep_bind; [apply lockstep_log_request|]. intros _ _ _.
      simpl. together.
  - eapply lockstep_bind; [apply lockstep_log_request|]. intros _ _ _. by apply lockstep_ret.
Qed.

Lemma lockstep_provision admin payload :
  lockstep (alike_results (fun _ _ => True))
    (provision state admin payload) (provision state' admin payload).
Proof.
  unfold provision.
  change (Middleware.config state') with config'. change (Middleware.config state) with config.
  change (admin_role config') with (admin_role config).
  destruct (has_role admin (admin_role config)); cbn [negb]; [|simpl; together].
  case_decide; [by apply lockstep_ret|].
  eapply lockstep_try; [apply lockstep_provision_secret|done|]. intros s s' Hlen.
  eapply lockstep_try; [by apply lockstep_upsert|done|]. intros _ _ _.
  eapply lockstep_bind; [apply lockstep_log_request|]. intros _ _ _. simpl. together.
Qed.

Lemma alike_responses_refl r : alike_responses r r.
Proof. split; [done|]. by destruct (body r). Qed.

Lemma lockstep_handler route request :
  lockstep alike_responses (handler state route request) (handler state' route request).
Proof.
  unfold handler. destruct (extension request) as [user|];
    [|apply lockstep_ret, alike_responses_refl].
  destruct route.
  - eapply lockstep_bind; [apply lockstep_request_pin|]. intros r r' Hr. apply lockstep_respond.
    by destruct r, r'.
  - destruct (json request); [|apply lockstep_ret, alike_responses_refl].
    eapply lockstep_bind; [apply lockstep_provision|]. intros r r' Hr. apply lockstep_respond.
    by destruct r, r'.
Qed.

Lemma lockstep_layers route request :
  lockstep alike_responses
    (audit_rate_limited request (fun r => governor_layer r (handler state route)))
    (audit_rate_limited request (fun r => governor_layer r (handler state' route))).
Proof.
  unfold audit_rate_limited. apply (lockstep_bind alike_responses).
  - unfold governor_layer. destruct (extract request); [|apply lockstep_ret, alike_responses_refl].
    apply lockstep_then; [done|]. intros allowed ? ->.
    destruct allowed; [apply lockstep_handler|apply lockstep_ret, alike_responses_refl].
  - intros r r' Hr. pose proof Hr as [-> _]. case_decide; [|by apply lockstep_ret].
    apply lockstep_then; [done|]. intros _ _ _.
    eapply lockstep_bind; [apply lockstep_log_request|]. intros _ _ _. by apply lockstep_ret.
Qed.

Lemma lockstep_protected route request :
  lockstep alike_responses (protected state route request) (protected state' route request).
Proof.
  unfold protected. apply (lockstep_bind (alike_results alike_responses));
    [|by intros r r'; apply lockstep_respond].
  unfold require_authentication. destruct (bearer_token request) as [token|].
  2: { eapply lockstep_bind; [apply lockstep_log_request|]. intros _ _ _. by apply lockstep_ret. }
  eapply lockstep_bind; [apply lockstep_authenticate|]. intros r ? <-. destruct r as [user|e].
  - apply lockstep_then; [done|]. intros _ _ _.
    eapply lockstep_bind; [apply lockstep_layers|]. intros r r' Hr. by apply lockstep_ret.
  - apply (lockstep_bind eq).
    + destruct e; try (by apply lockstep_ret); apply lockstep_log_request.
    + intros _ _ _. by apply lockstep_ret.
Qed.

(** ** The two worlds *)

Definition alike_rows (row row' : SecretRow) : Prop :=
  alike_texts (encrypted_secret row, row_nonce row) (encrypted_secret row', row_nonce row') /\
  created_at row' = created_at row /\ last_used_at row' = last_used_at row.

Context {L : Type} `{!Governor L, !GovernorBuilder L}.
Implicit Types (v : World L) (s : Server L).

Record alike_worlds v v' : Prop := {
  worlds_rows who : option_Forall2 alike_rows (totp_secrets v !! who) (totp_secrets v' !! who);
  worlds_log : request_log v' = request_log v;
  worlds_traces : traces v' = traces v;
  worlds_posts : Forall2 alike_posts (posts v) (posts v');
  worlds_limiter : limiter v' = limiter v;
  worlds_inflight : inflight v' = inflight v;
  worlds_tick : tick v' = tick v
}.

Context (o o' : Oracle) (Ho : alike_oracles o o').

Lemma alike_rows_upsert v v' who x x' :
  alike_worlds v v' -> alike_rows x x' -> forall other,
  option_Forall2 alike_rows (partial_alter (fun _ => Some x) who (totp_secrets v) !! other)
    (partial_alter (fun _ => Some x') who (totp_secrets v') !! other).
Proof.
  intros Hv Hx other. rewrite !lookup_partial_alter.
  case_decide; [by constructor|by apply worlds_rows].
Qed.

Lemma alike_rows_touch v v' now who :
  alike_worlds v v' -> forall other,
  option_Forall2 alike_rows (alter (touched now) who (totp_secrets v) !! other)
    (alter (touched now) who (totp_secrets v') !! other).
Proof.
  intros Hv other. rewrite !lookup_alter. case_decide as Hwho; [subst other|by apply worlds_rows].
  by destruct (worlds_rows _ _ Hv who) as [row row' (Ht & Hc & _)|]; constructor.
Qed.

Lemma alike_read v v' who :
  alike_worlds v v' ->
  option_Forall2 alike_texts
    ((fun row => (encrypted_secret row, row_nonce row)) <$> totp_secrets v !! who)
    ((fun row => (encrypted_secret row, row_nonce row)) <$> totp_secrets v' !! who).
Proof.
  intros Hv. by destruct (worlds_rows _ _ Hv who) as [row row' (Ht & _)|]; constructor.
Qed.

Lemma alike_table v v' m m' :
  alike_worlds v v' -> (forall who, option_Forall2 alike_rows (m !! who) (m' !! who)) ->
  alike_worlds (ticked (with_secrets v m)) (ticked (with_secrets v' m')).
Proof. intros [] Hm. split; simpl; try done; congruence. Qed.

(** Both answer alike, and stay alike. *)
Lemma exec_eff_lockstep A (e e' : Eff A) v v' :
  alike_effects A e e' -> alike_worlds v v' ->
  match exec_eff o e v, exec_eff o' e' v' with
  | (Some a, v1), (Some a', v1') => alike_answers e a a' /\ alike_worlds v1 v1'
  | (None, _), (None, _) => True
  | _, _ => False
  end.
Proof.
  intros He Hv. pose proof Hv as [Hrows Hlog Htr Hposts Hlim Hinf Htick].
  destruct He as [A e He|who ct nonce ct' nonce' Ht|post post' Hp]; [destruct e; try done|..];
    cbn [exec_eff]; unfold db;
    rewrite ?Htick, ?(same_errors _ _ Ho), ?(same_clock _ _ Ho), ?(same_monotonic _ _ Ho),
      ?(same_nonces _ _ Ho), ?(same_uuids _ _ Ho), ?(same_broadcasts _ _ Ho), ?Hlog, ?Hlim, ?Hinf.
  all: repeat case_match; simplify_eq/=; try done.
  all: (split; [try done|]); try (split; simpl; try done; congruence).
  - by apply alike_read.
  - apply alike_table; [done|]. by apply alike_rows_touch.
  - apply alike_table; [done|]. by apply alike_rows_touch.
  - split; [done|]. apply (nonce_length _ _ Ho).
  - apply (secret_length _ _ Ho).
  - apply alike_table; [done|]. by apply alike_rows_upsert.
  - apply alike_table; [done|]. by apply alike_rows_upsert.
  - by apply (same_keycloak _ _ Ho).
  - split; simpl; try done; [|congruence]. apply Forall2_app; [done|]. by constructor.
Qed.

(** ** The two servers *)

Record alike_tasks (t t' : Task) : Prop := {
  tasks_route : task_route t' = task_route t;
  tasks_request : task_request t' = task_request t;
  tasks_rest : lockstep alike_responses (rest t) (rest t');
  tasks_mailbox : mailbox t' = mailbox t;
  tasks_guard : guard t' = guard t;
  tasks_dropped : dropped t' = dropped t
}.

Record alike_servers s s' : Prop := {
  servers_world : alike_worlds (world s) (world s');
  servers_channels : channels s' = channels s;
  servers_next : next_channel s' = next_channel s;
  servers_tasks : Forall2 alike_tasks (requests s) (requests s')
}.

Lemma alike_gone t t' : alike_tasks t t' -> alike_tasks (gone t) (gone t').
Proof. by intros []. Qed.

Lemma alike_with_rest p p' t t' :
  alike_tasks t t' -> lockstep alike_responses p p' ->
  alike_tasks (with_rest p t) (with_rest p' t').
Proof. by intros []. Qed.

Lemma alike_with_world s s' v v' :
  alike_servers s s' -> alike_worlds v v' -> alike_servers (with_world v s) (with_world v' s').
Proof. by intros []. Qed.

Lemma alike_with_requests s s' ts ts' :
  alike_servers s s' -> Forall2 alike_tasks ts ts' ->
  alike_servers (with_requests ts s) (with_requests ts' s').
Proof. by intros []. Qed.

Lemma alike_record i i' ev ev' s s' :
  alike_servers s s' -> alike_servers (record_event i ev s) (record_event i' ev' s').
Proof. by intros []. Qed.

Lemma alike_open k s s' : alike_servers s s' -> alike_servers (open_channel k s) (open_channel k s').
Proof. intros [? Hc Hn ?]. split; simpl; try done; congruence. Qed.

Lemma alike_close k s s' : alike_servers s s' -> alike_servers (close_channel k s) (close_channel k s').
Proof. intros [? Hc Hn ?]. split; simpl; try done; congruence. Qed.

Lemma alike_deliver chan outcome s s' :
  alike_servers s s' -> alike_servers (deliver chan outcome s) (deliver chan outcome s').
Proof.
  intros Hs. apply alike_with_requests; [done|]. apply Forall2_fmap.
  eapply Forall2_impl; [by apply servers_tasks|]. intros t t' Ht.
  unfold deliver_to. rewrite (tasks_mailbox _ _ Ht).
  destruct (mailbox t) as [[rx [message|]]|]; [done| |done]. case_decide; [|done]. by destruct Ht.
Qed.

Lemma alike_set_task i t t' s s' :
  alike_tasks t t' -> alike_servers s s' -> alike_servers (set_task i t s) (set_task i t' s').
Proof. intros Ht Hs. apply alike_with_requests; [done|]. by apply Forall2_insert; [apply Hs|]. Qed.

Lemma alike_drop i t t' s s' :
  alike_tasks t t' -> alike_servers s s' -> alike_servers (drop_task i t s) (drop_task i t' s').
Proof.
  intros Ht Hs. unfold drop_task. rewrite (tasks_guard _ _ Ht).
  destruct (guard t); [apply alike_close|]; by apply alike_set_task; [apply alike_gone|].
Qed.

Inductive alike_attempts {A} (e : Eff A) : Attempt L A -> Attempt L A -> Prop :=
| both_blocked : alike_attempts e Blocked Blocked
| both_panicked : alike_attempts e Panicked Panicked
| both_answered a a' t t' s s' :
    alike_answers e a a' -> alike_tasks t t' -> alike_servers s s' ->
    alike_attempts e (Answers a t s) (Answers a' t' s').

Lemma attempt_lockstep A (e e' : Eff A) t t' s s' :
  alike_effects A e e' -> alike_tasks t t' -> alike_servers s s' ->
  alike_attempts e (attempt o e t s) (attempt o' e' t' s').
Proof.
  intros He Ht Hs. pose proof (exec_eff_lockstep A e e' _ _ He (servers_world _ _ Hs)) as Hx.
  assert (Houter : alike_attempts e
    (match exec_eff o e (world s) with
     | (Some a, w) => Answers a t (with_world w s) | (None, _) => Panicked end)
    (match exec_eff o' e' (world s') with
     | (Some a, w) => Answers a t' (with_world w s') | (None, _) => Panicked end)).
  { destruct (exec_eff o e (world s)) as [[a|] v], (exec_eff o' e' (world s')) as [[a'|] v'];
      try done; constructor; try done; [apply Hx|]. by apply alike_with_world; [|apply Hx]. }
  pose proof (servers_channels _ _ Hs) as Hch. pose proof (servers_next _ _ Hs) as Hn.
  destruct He as [A e Hpub| |]; [|exact Houter..].
  destruct e; try exact Houter; try done; clear Houter Hx; cbn [attempt]; rewrite ?Hch.
  - destruct (channels s !! key0); constructor; try done; [by destruct Ht| |].
    + by destruct Ht.
    + by apply alike_open.
  - unfold mail. rewrite (tasks_mailbox _ _ Ht).
    assert (Hclosed : closed rx s' <-> closed rx s) by (unfold closed; by rewrite Hch).
    rewrite (decide_ext _ _ _ _ Hclosed).
    destruct (mailbox t) as [[rx' message]|]; repeat case_match; constructor; try done; by destruct Ht.
  - constructor; [done..|]. destruct (channels s !! key0); [by apply alike_deliver|done].
  - constructor; [done|by destruct Ht|by apply alike_close].
Qed.

(** ** Runs *)

(** A task that does something next has a counterpart that does the like. *)
Lemma alike_next A (e : Eff A) k t t' :
  alike_tasks t t' -> rest t = Do e k ->
  exists (e' : Eff A) k', rest t' = Do e' k' /\ alike_effects A e e' /\ awaits e' = awaits e /\
    forall a a', alike_answers e a a' -> lockstep alike_responses (k a) (k' a').
Proof.
  intros [_ _ Hrest _ _ _] Hr. rewrite Hr in Hrest. revert Hrest.
  generalize (rest t') as p'. intros p' Hrest.
  change (match Do e k with
    | Ret _ => True
    | @Do _ B f g => exists (e' : Eff B) g', p' = Do e' g' /\ alike_effects B f e' /\
        awaits e' = awaits f /\
        forall a a', alike_answers f a a' -> lockstep alike_responses (g a) (g' a')
    end).
  destruct Hrest as [|B f f' g g' He Hg]; [done|].
  exists f', g'. split_and!; [done|done| |done]. by destruct He.
Qed.

Lemma pool_step_lockstep s c s1 s' :
  pool_step o state s c = Some s1 -> alike_servers s s' ->
  exists s1', pool_step o' state' s' c = Some s1' /\ alike_servers s1 s1'.
Proof.
  intros Hstep Hs.
  assert (Htask : forall i t, requests s !! i = Some t ->
            exists t', requests s' !! i = Some t' /\ alike_tasks t t').
  { intros i t Hi. destruct (Forall2_lookup_l _ _ _ i t (servers_tasks _ _ Hs) Hi)
      as (t' & ? & ?). by exists t'. }
  destruct c as [route request|i|i reached|]; simpl in *.
  - injection Hstep as <-. eexists. split; [done|]. apply alike_with_requests; [done|].
    apply Forall2_app; [apply Hs|]. constructor; [|done]. split; try done. apply lockstep_protected.
  - apply bind_Some in Hstep as (t & Hi & Hstep). destruct (Htask i t Hi) as (t' & -> & Ht).
    simpl. rewrite (tasks_dropped _ _ Ht). destruct (dropped t); [done|].
    destruct (rest t) as [|A e k] eqn:Hr; [done|].
    destruct (alike_next A e k t t' Ht Hr) as (e' & k' & -> & He & _ & Hk).
    pose proof (attempt_lockstep A e e' t t' s s' He Ht Hs) as Ha.
    destruct Ha as [| |a a' t1 t1' s2 s2' Ha Ht1 Hs2]; [done| |]; injection Hstep as <-;
      (eexists; split; [done|]); [by apply alike_drop|].
    apply alike_record, alike_set_task; [|done]. apply alike_with_rest; auto.
  - apply bind_Some in Hstep as (t & Hi & Hstep). destruct (Htask i t Hi) as (t' & -> & Ht).
    simpl. rewrite (tasks_dropped _ _ Ht). destruct (dropped t); [done|].
    destruct (rest t) as [|A e k] eqn:Hr; [done|].
    destruct (alike_next A e k t t' Ht Hr) as (e' & k' & -> & He & -> & Hk).
    destruct (awaits e); [|done]. simpl in *.
    destruct reached; [|injection Hstep as <-; eexists; split; [done|]; by apply alike_drop].
    pose proof (attempt_lockstep A e e' t t' s s' He Ht Hs) as Ha.
    destruct Ha as [| |a a' t1 t1' s2 s2' Ha Ht1 Hs2]; [done..|]; injection Hstep as <-.
    eexists. split; [done|]. by apply alike_record, alike_drop.
  - change (rate_limit_config config') with (rate_limit_config (L := L) config).
    destruct (rate_limit_config config) as [governor|]; [|done]. injection Hstep as <-.
    eexists. split; [done|]. destruct Hs as [[] ? ? Hts]. split; simpl; try done.
    apply Forall2_fmap. by eapply Forall2_impl; [|apply alike_gone].
Qed.

Lemma pool_run_lockstep s choices s1 s' :
  pool_run o state s choices = Some s1 -> alike_servers s s' ->
  exists s1', pool_run o' state' s' choices = Some s1' /\ alike_servers s1 s1'.
Proof.
  revert s s'. induction choices as [|c choices IH]; intros s s'; simpl.
  - intros [= <-] Hs. by exists s'.
  - intros (s2 & Hc & Hrun)%bind_Some Hs.
    destruct (pool_step_lockstep s c s2 s' Hc Hs) as (s2' & -> & Hs2). by apply (IH s2 s2').
Qed.

(** A response given is given by both. *)
Lemma alike_responded s s' i t response :
  alike_servers s s' -> requests s !! i = Some t -> rest t = Ret response ->
  exists t' response', requests s' !! i = Some t' /\ task_request t' = task_request t /\
    rest t' = Ret response' /\ alike_responses response response'.
Proof.
  intros Hs Hi Hr. destruct (Forall2_lookup_l _ _ _ i t (servers_tasks _ _ Hs) Hi)
    as (t' & Hi' & Ht). pose proof (tasks_rest _ _ Ht) as Hrest. rewrite Hr in Hrest.
  inversion Hrest as [? response' Hresp Hnow Hr'|]. exists t', response'.
  split_and!; [done|apply Ht|done|done].
Qed.
End Secrecy.

(** ** Starting *)

(** The lines among the steps of a start. *)
Definition lines_of {L} (steps : list (BootStep L)) : list LogLine :=
  omap (fun step => match step with LogInfo line => Some line | _ => None end) steps.

(** Platforms on which both start alike, with either's database. *)
Record alike_platforms (p p' : Platform) (database database' : string) : Prop := {
  same_database : connect p' 10 database' = connect p 10 database;
  same_migrations : migrate p' = migrate p;
  same_http n : build_client p' n = build_client p n;
  same_bind address : bind_to p' address = bind_to p address
}.

Section Property.
Context `{!HeaderText, !Sha256, !StatusText, !Aead, !TotpRs, !LibraryReplies}.
Context `{!BlindErrors _ _, !AeadLaws _, !Base64, !Dotenv, !Base64Laws _}.
Context {L : Type} `{!Governor L, !GovernorBuilder L}.

Lemma start_alike (p p' : Platform) config database client key :
  from_env (environment p) = Ok config ->
  from_env (environment p') = Ok (with_credentials database client key config) ->
  alike_platforms p p' (database_url config) database ->
  lines_of (main (L := L) p' []).2 = lines_of (main (L := L) p []).2.
Proof.
  intros Henv Henv' [Hdb Hmig Hhttp Hbind]. rewrite !main_spec. unfold startup_spec.
  rewrite Henv, Henv'. unfold stages. simpl. rewrite Hdb, Hmig, Hhttp.
  change (rate_limit_config (with_credentials _ _ _ _)) with (rate_limit_config (L := L) config).
  change (server_address (with_credentials _ _ _ _)) with (server_address config). rewrite Hbind.
  by repeat case_match; simplify_eq/=.
Qed.

(** C11. Nothing secret influences what the server writes down: take two
    installations that differ in their encryption keys, their client
    credentials, the URLs of their databases, the secrets stored under those
    keys (of the same lengths) and the secrets they will draw, on the same
    otherwise: the database fails alike, the clocks agree, Keycloak answers
    the credentials of either.  Then their starts log the same lines, and any
    run of one, whatever happens at once and whatever fails, can be made by
    the other, with exactly the same lines on the log and the same audit
    rows; Keycloak is asked the same but for the credentials; and every
    client gets the same status and the same body, but for the PIN and for
    what a provisioning shows.  So no line, no audit row and no error tells
    anything of a secret, a ciphertext, a key or a PIN. *)
Theorem nothing_secret_is_written_down (p p' : Platform) config database client key
    (o o' : Oracle) (w w' : World L) choices s :
  from_env (environment p) = Ok config ->
  from_env (environment p') = Ok (with_credentials database client key config) ->
  alike_platforms p p' (database_url config) database ->
  alike_oracles o o' -> alike_worlds config key w w' ->
  pool_run o (app_state_new config) (started w) choices = Some s ->
  lines_of (main (L := L) p' []).2 = lines_of (main (L := L) p []).2 /\
  exists s',
    pool_run o' (app_state_new (with_credentials database client key config)) (started w') choices =
      Some s' /\
    traces (world s') = traces (world s) /\ request_log (world s') = request_log (world s) /\
    Forall2 alike_posts (posts (world s)) (posts (world s')) /\
    (forall i t response, requests s !! i = Some t -> rest t = Ret response ->
       exists t' response', requests s' !! i = Some t' /\ task_request t' = task_request t /\
         rest t' = Ret response' /\ alike_responses response response').
Proof.
  intros Henv Henv' Hp Ho Hw Hrun. split; [by eapply start_alike|].
  apply from_env_spec in Henv as [_ (_ & Hkey & _)], Henv' as [_ (_ & Hkey' & _)].
  destruct (pool_run_lockstep config database client key Hkey Hkey' o o' Ho (started w) choices s
              (started w')) as (s' & Hrun' & Hs); [done|by split|].
  exists s'. pose proof (servers_world _ _ _ _ Hs) as Hws.
  split_and!; [done|apply Hws..|]. intros i t response. by eapply alike_responded.
Qed.
End Property.

(** ** Witness: the demonstration server, and one with other secrets *)

#[local] Existing Instances sha1_hmac tagging_aead tagging_aead_laws reference_totp_rs
  stand_in_errors identity_hash no_text latin_headers plain_replies standard_base64
  standard_base64_laws.
#[local] Instance nothing_in_dotenv : Dotenv := id.

Definition other_key : list Z := replicate 32 7%Z.

Definition elsewhere : Platform := {|
  environment := <["TOTP_ENCRYPTION_KEY" := base64_encode other_key]>
    (<["TOTP_SERVER_KEYCLOAK_CLIENT_SECRET" := "hunter2"]>
      (<["DATABASE_URL" := "postgres://totp:secret@db/totp"]> demo_env))%string;
  rust_log := Some "debug"%string; connect := fun _ _ => Ok tt;
  migrate := Ok tt; build_client := fun _ => Ok tt; bind_to := fun _ => Ok tt;
  serve_end := Ok tt
|}.

Definition elsewhere_config : Config :=
  with_credentials "postgres://totp:secret@db/totp" "hunter2" other_key demo_config.

(** Other secrets will be drawn. *)
Definition drawn_elsewhere : Oracle := {|
  db_error := fun _ => None;
  clock := fun _ => 1111111109%Z;
  monotonic := fun n => (1000000 * Z.of_nat n)%Z;
  random_nonce := fun n => replicate 12 (Z.of_nat n);
  random_uuid := Z.of_nat;
  random_secret := fun n => replicate 20 (as_u8 (Z.of_nat n + 1));
  keycloak := root_keycloak;
  broadcast := fun _ => Err tt
|}.

Lemma drawn_alike : alike_oracles (calm root_keycloak) drawn_elsewhere.
Proof. split; try done. by intros n post post' ->. Qed.

(** Alice's row, with another secret under the other key. *)
Definition world_elsewhere : World (gmap string nat) :=
  with_secrets fresh_world
    {["alice"%string := mkSecretRow (other_key ++ replicate 12 0%Z ++ replicate 20 9%Z)
                          (replicate 12 0%Z) 1111110000 None]}.

Lemma rows_alike : alike_worlds demo_config other_key (world_with rfc_secret) world_elsewhere.
Proof.
  split; try done. intros who. unfold world_with, world_elsewhere.
  cbn [with_secrets totp_secrets]. destruct (decide (who = "alice"%string)) as [->|Hne].
  - rewrite !lookup_singleton_eq. constructor. split; [vm_compute; reflexivity|done].
  - rewrite !lookup_singleton_ne by done. constructor.
Qed.

Definition beside : Server (gmap string nat) :=
  run_to (calm root_keycloak) (app_state_new demo_config) (started (world_with rfc_secret))
    demo_schedule.

Lemma beside_run :
  pool_run (calm root_keycloak) (app_state_new demo_config) (started (world_with rfc_secret))
    demo_schedule = Some beside.
Proof. apply runs_to. vm_compute. reflexivity. Qed.

Lemma nothing_secret_is_written_down_witness :
  traces (world beside) !! 3 = Some (mkLogLine Info "issued a PIN" [("subject", "bob")])%string /\
  exists s',
    pool_run drawn_elsewhere (app_state_new elsewhere_config) (started world_elsewhere)
      demo_schedule = Some s' /\
    traces (world s') = traces (world beside) /\
    request_log (world s') = request_log (world beside).
Proof.
  split; [vm_compute; reflexivity|].
  destruct (nothing_secret_is_written_down (platform_with (Ok tt)) elsewhere demo_config
              "postgres://totp:secret@db/totp" "hunter2" other_key (calm root_keycloak)
              drawn_elsewhere (world_with rfc_secret) world_elsewhere demo_schedule beside)
    as (_ & s' & Hrun & Htr & Hlog & _).
  - vm_compute. reflexivity.
  - vm_compute. reflexivity.
  - split; reflexivity.
  - exact drawn_alike.
  - exact rows_alike.
  - exact beside_run.
  - exists s'. split; [exact Hrun|]. split; assumption.
Defined.

(** The two do differ: the PINs they issue. *)
Example other_pins :
  answer_of beside 1 = Some (RequestPin, Some demo_pin) /\
  exists other, other <> demo_pin /\
    answer_of (run_to drawn_elsewhere (app_state_new elsewhere_config) (started world_elsewhere)
                 demo_schedule) 1 = Some (RequestPin, Some other).
Proof.
  split; [vm_compute; reflexivity|].
  eexists. split; [|vm_compute; reflexivity]. discriminate.
Qed.
