(* ===== verification/Isolation.v ===== *)
(** * Users do not interfere through the secrets table

    A run of the server depends only on the rows it touches, and leaves every
    other row as it was.  Two worlds are [alike] up to a set of hidden
    subjects if they differ at most in those subjects' rows; a run that
    touches no hidden row goes the same way from both, with the same answers,
    log lines and audit rows (the unwinding argument of noninterference).
    With the access control of Concurrent.v: a secret has no influence on
    what anybody sees until its own user, or an administrator naming him,
    makes a request. *)

From S2P Require Import Prelude RustText Rfc6238 Sha1 AppError Effects Config Crypto TotpGen.
From S2P Require Import SecretStore Introspection Middleware RateLimit Routes Provenance.
From S2P Require Import Protocol Pool History Flights Serving Concurrent.
Local Open Scope nat_scope.

(** ** Worlds that differ in hidden rows only *)

Section Alike.
Context {L : Type} (hidden : gset string).
Implicit Types v : World L.

Definition alike v v' : Prop :=
  v' = with_secrets v (totp_secrets v') /\
  forall who, who ∉ hidden -> totp_secrets v' !! who = totp_secrets v !! who.

#[export] Instance alike_equivalence : Equivalence alike.
Proof.
  split.
  - intros v. by split; [destruct v|].
  - intros v v' [Hv Hrow]. rewrite Hv. split; [by destruct v|]. intros who Hwho.
    symmetry. by rewrite <-Hrow, Hv.
  - intros v v' v'' [Hv Hrow] [Hv' Hrow']. split.
    + rewrite Hv', Hv. done.
    + intros who Hwho. by rewrite Hrow', Hrow.
Qed.

Lemma alike_secrets v v' m m' :
  alike v v' -> (forall who, who ∉ hidden -> m' !! who = m !! who) ->
  alike (with_secrets v m) (with_secrets v' m').
Proof. intros [Hv _] Hm. split; [by rewrite Hv|done]. Qed.

(** What does not depend on the secrets. *)
Lemma alike_tick v v' : alike v v' -> tick v' = tick v.
Proof. by intros [-> _]. Qed.
Lemma alike_request_log v v' : alike v v' -> request_log v' = request_log v.
Proof. by intros [-> _]. Qed.
Lemma alike_traces v v' : alike v v' -> traces v' = traces v.
Proof. by intros [-> _]. Qed.
Lemma alike_posts v v' : alike v v' -> posts v' = posts v.
Proof. by intros [-> _]. Qed.
Lemma alike_limiter v v' : alike v v' -> limiter v' = limiter v.
Proof. by intros [-> _]. Qed.
Lemma alike_inflight v v' : alike v v' -> inflight v' = inflight v.
Proof. by intros [-> _]. Qed.

#[export] Instance ticked_alike : Proper (alike ==> alike) ticked.
Proof. intros v v' [Hv Hrow]. by split; [rewrite Hv|]. Qed.
#[export] Instance with_log_alike : Proper (alike ==> (=) ==> alike) with_log.
Proof. intros v v' [Hv Hrow] l l' <-. by split; [rewrite Hv|]. Qed.
#[export] Instance with_traces_alike : Proper (alike ==> (=) ==> alike) with_traces.
Proof. intros v v' [Hv Hrow] l l' <-. by split; [rewrite Hv|]. Qed.
#[export] Instance with_posts_alike : Proper (alike ==> (=) ==> alike) with_posts.
Proof. intros v v' [Hv Hrow] l l' <-. by split; [rewrite Hv|]. Qed.
#[export] Instance with_limiter_alike : Proper (alike ==> (=) ==> alike) with_limiter.
Proof. intros v v' [Hv Hrow] l l' <-. by split; [rewrite Hv|]. Qed.
#[export] Instance with_inflight_alike : Proper (alike ==> (=) ==> alike) with_inflight.
Proof. intros v v' [Hv Hrow] m m' <-. by split; [rewrite Hv|]. Qed.
End Alike.

(** ** Effects *)

(** The effect touches no hidden row. *)
Definition avoids {A} (hidden : gset string) (e : Eff A) : Prop :=
  match e with
  | SelectSecret who | TouchSecret who | UpsertSecret who _ _ => who ∉ hidden
  | _ => True
  end.

Lemma touches_avoids {A} hidden (e : Eff A) a :
  (forall who, touches (Happened e a) = Some who -> who ∉ hidden) -> avoids hidden e.
Proof. destruct e; simpl; auto. Qed.

Section Unwinding.
Context {L : Type} `{!Governor L, !GovernorBuilder L} (o : Oracle) (hidden : gset string).
Implicit Types v : World L.

(** Both worlds answer alike, and stay alike. *)
Lemma exec_eff_alike {A} (e : Eff A) v v' :
  avoids hidden e -> alike hidden v v' ->
  (exec_eff o e v').1 = (exec_eff o e v).1 /\
  alike hidden (exec_eff o e v).2 (exec_eff o e v').2.
Proof.
  intros Havoid Hv. pose proof Hv as [_ Hrow].
  destruct e; cbn [exec_eff]; unfold db;
    rewrite ?(alike_tick hidden v v'), ?(alike_request_log hidden v v'),
      ?(alike_traces hidden v v'), ?(alike_posts hidden v v'),
      ?(alike_limiter hidden v v'), ?(alike_inflight hidden v v') by done;
    repeat case_match; simplify_eq/=; (split; [try done; by rewrite Hrow|]); try by repeat f_equiv.
  all: apply ticked_alike, alike_secrets; [done|]; intros x Hx;
    rewrite ?lookup_partial_alter, ?lookup_alter; case_decide; [done || by rewrite Hrow|by rewrite Hrow].
Qed.

(** Hidden rows stay as they are. *)
Lemma exec_eff_keeps {A} (e : Eff A) v who :
  avoids hidden e -> who ∈ hidden ->
  totp_secrets (exec_eff o e v).2 !! who = totp_secrets v !! who.
Proof.
  intros Havoid Hwho.
  destruct e; cbn [exec_eff]; unfold db; repeat case_match; simplify_eq/=; try done.
  all: first [rewrite lookup_partial_alter_ne | rewrite lookup_alter_ne]; [done|]; by intros ->.
Qed.

Implicit Types s : Server L.

(** Servers that differ in hidden rows only. *)
Definition alike_servers s s' : Prop :=
  s' = with_world (world s') s /\ alike hidden (world s) (world s').

#[export] Instance alike_servers_equivalence : Equivalence alike_servers.
Proof.
  split.
  - intros s. by split; [destruct s|].
  - intros s s' [Hs Hv]. rewrite Hs. split; [by destruct s|by symmetry].
  - intros s s' s'' [Hs Hv] [Hs' Hv']. split; [by rewrite Hs', Hs|by etrans].
Qed.

Lemma alike_servers_intro s v v' :
  alike hidden v v' -> alike_servers (with_world v s) (with_world v' s).
Proof. by split. Qed.

Lemma alike_requests s s' : alike_servers s s' -> requests s' = requests s.
Proof. by intros [-> _]. Qed.
Lemma alike_history s s' : alike_servers s s' -> history s' = history s.
Proof. by intros [-> _]. Qed.

#[export] Instance with_requests_alike : Proper ((=) ==> alike_servers ==> alike_servers) with_requests.
Proof. intros ts ? <- s s' [Hs Hv]. by split; [rewrite Hs|]. Qed.
#[export] Instance with_channels_alike : Proper ((=) ==> alike_servers ==> alike_servers) with_channels.
Proof. intros m ? <- s s' [Hs Hv]. by split; [rewrite Hs|]. Qed.
#[export] Instance open_channel_alike : Proper ((=) ==> alike_servers ==> alike_servers) open_channel.
Proof. intros key ? <- s s' [Hs Hv]. by split; [rewrite Hs|]. Qed.
#[export] Instance record_event_alike :
  Proper ((=) ==> (=) ==> alike_servers ==> alike_servers) record_event.
Proof. intros i ? <- ev ? <- s s' [Hs Hv]. by split; [rewrite Hs|]. Qed.
#[export] Instance close_channel_alike : Proper ((=) ==> alike_servers ==> alike_servers) close_channel.
Proof. intros key ? <- s s' [Hs Hv]. by split; [rewrite Hs|]. Qed.
#[export] Instance deliver_alike :
  Proper ((=) ==> (=) ==> alike_servers ==> alike_servers) deliver.
Proof. intros chan ? <- outcome ? <- s s' [Hs Hv]. by split; [rewrite Hs|]. Qed.
#[export] Instance set_task_alike :
  Proper ((=) ==> (=) ==> alike_servers ==> alike_servers) set_task.
Proof. intros i ? <- t ? <- s s' [Hs Hv]. by split; [rewrite Hs|]. Qed.
#[export] Instance drop_task_alike :
  Proper ((=) ==> (=) ==> alike_servers ==> alike_servers) drop_task.
Proof.
  intros i ? <- t ? <- s s' Hs. unfold drop_task. by destruct (guard t); repeat f_equiv.
Qed.

#[export] Instance restarted_alike :
  Proper ((=) ==> alike_servers ==> alike_servers) restarted.
Proof.
  intros governor ? <- s s' [Hs Hv]. split; [by rewrite Hs|].
  by apply (with_limiter_alike hidden (world s) (world s') Hv).
Qed.

(** Attempts that come to the same. *)
Inductive alike_attempts {A} : Attempt L A -> Attempt L A -> Prop :=
| alike_blocked : alike_attempts Blocked Blocked
| alike_panicked : alike_attempts Panicked Panicked
| alike_answers a t s s' :
    alike_servers s s' -> alike_attempts (Answers a t s) (Answers a t s').

Lemma attempt_alike {A} (e : Eff A) t s s' :
  avoids hidden e -> alike_servers s s' ->
  alike_attempts (attempt o e t s) (attempt o e t s').
Proof.
  intros Havoid Hs. pose proof Hs as [Heq Hv].
  pose proof (exec_eff_alike e (world s) (world s') Havoid Hv) as [Ha Hw].
  assert (Hch : channels s' = channels s) by by rewrite Heq.
  assert (Hn : next_channel s' = next_channel s) by by rewrite Heq.
  assert (Houter : alike_attempts
    (match exec_eff o e (world s) with
     | (Some a, w) => Answers a t (with_world w s) | (None, _) => Panicked end)
    (match exec_eff o e (world s') with
     | (Some a, w) => Answers a t (with_world w s') | (None, _) => Panicked end)).
  { destruct (exec_eff o e (world s)) as [[a|] v], (exec_eff o e (world s')) as [[a'|] v'];
      simplify_eq/=; constructor. rewrite Heq. by apply (alike_servers_intro s). }
  destruct e; try exact Houter; cbn [attempt]; clear Houter; rewrite ?Hch.
  - destruct (channels s !! key); constructor; [done|by repeat f_equiv].
  - destruct (mail rx t); [by constructor|].
    assert (Hclosed : closed rx s' <-> closed rx s) by (unfold closed; by rewrite Hch).
    rewrite (decide_ext _ _ _ _ Hclosed). case_decide; by constructor.
  - constructor. destruct (channels s !! key); [by repeat f_equiv|done].
  - constructor. by repeat f_equiv.
Qed.

Lemma attempt_keeps {A} (e : Eff A) t s a t1 s1 who :
  avoids hidden e -> who ∈ hidden -> attempt o e t s = Answers a t1 s1 ->
  totp_secrets (world s1) !! who = totp_secrets (world s) !! who.
Proof.
  intros Havoid Hwho Ha. pose proof (exec_eff_keeps e (world s) who Havoid Hwho) as Hk.
  assert (Houter : match exec_eff o e (world s) with
     | (Some a, w) => Answers a t (with_world w s) | (None, _) => Panicked end = Answers a t1 s1 ->
     totp_secrets (world s1) !! who = totp_secrets (world s) !! who).
  { destruct (exec_eff o e (world s)) as [[a'|] v]; intros; by simplify_eq/=. }
  destruct e; try exact (Houter Ha); cbn [attempt] in Ha; repeat case_match; by simplify_eq.
Qed.

(** ** Runs *)

(** No event of the history touches a hidden row. *)
Definition history_avoids (h : Recorded) : Prop :=
  forall i ev who, (i, ev) ∈ h -> touches ev = Some who -> who ∉ hidden.

Lemma history_avoids_prefix h h' :
  h `prefix_of` h' -> history_avoids h' -> history_avoids h.
Proof. intros [g ->] Hh i ev who Hin. apply (Hh i). apply elem_of_app. by left. Qed.

(** A statement on the table is always answered, and so recorded. *)
Lemma attempt_avoids {A} (e : Eff A) t s :
  (forall a t1 s1, attempt o e t s = Answers a t1 s1 ->
     forall who, touches (Happened e a) = Some who -> who ∉ hidden) -> avoids hidden e.
Proof.
  intros Hev. destruct (attempt o e t s) as [| |a t1 s1] eqn:Ha.
  - destruct e; try done; cbn [attempt exec_eff] in Ha; unfold db in Ha; by repeat case_match.
  - destruct e; try done; cbn [attempt exec_eff] in Ha; unfold db in Ha; by repeat case_match.
  - eapply touches_avoids, Hev, eq_refl.
Qed.

(** What a step adds to the history. *)
Lemma added_last s i ev :
  history_avoids (history (record_event i ev s)) ->
  forall who, touches ev = Some who -> who ∉ hidden.
Proof. intros Hh who. apply (Hh i). simpl. apply elem_of_app. right. by apply list_elem_of_singleton. Qed.

Context `{!HeaderText, !Sha256, !StatusText, !Aead, !TotpRs, !LibraryReplies}.
Context (state : AppState).

(** Secret rows that stay. *)
Definition rows_kept s s' : Prop :=
  forall who, who ∈ hidden -> totp_secrets (world s') !! who = totp_secrets (world s) !! who.

Lemma pool_step_alike s c s1 s' :
  pool_step o state s c = Some s1 -> history_avoids (history s1) -> alike_servers s s' ->
  rows_kept s s1 /\ exists s1', pool_step o state s' c = Some s1' /\ alike_servers s1 s1'.
Proof.
  intros Hstep Hh Hs. pose proof (alike_requests s s' Hs) as Hreq.
  destruct c as [route request|i|i reached|]; simpl in *; rewrite ?Hreq.
  - injection Hstep as <-. split; [done|]. eexists. split; [done|]. by f_equiv.
  - destruct (requests s !! i) as [t|]; [|done]. simpl in *. destruct (dropped t); [done|].
    destruct (rest t) as [|A e k]; [done|].
    assert (Havoid : avoids hidden e).
    { apply (attempt_avoids e t s). intros a t1 s2 Ha. rewrite Ha in Hstep. injection Hstep as <-.
      exact (added_last _ _ _ Hh). }
    pose proof (attempt_alike e t s s' Havoid Hs) as Ha.
    pose proof (attempt_keeps e t s) as Hkeep.
    destruct Ha as [| |a t1 s2 s2' Hs2]; [done| |]; injection Hstep as <-.
    + split; [intros who _; by rewrite drop_task_world|]. eexists. split; [done|]. by f_equiv.
    + split; [intros who Hwho; by apply (Hkeep a t1 s2 who)|].
      eexists. split; [done|]. by repeat f_equiv.
  - destruct (requests s !! i) as [t|]; [|done]. simpl in *. destruct (dropped t); [done|].
    destruct (rest t) as [|A e k]; [done|]. destruct (awaits e); [|done]. simpl in *.
    destruct reached; [|injection Hstep as <-].
    2: { split; [intros who _; by rewrite drop_task_world|]. eexists. split; [done|]. by f_equiv. }
    assert (Havoid : avoids hidden e).
    { apply (attempt_avoids e t s). intros a t1 s2 Ha. rewrite Ha in Hstep. injection Hstep as <-.
      exact (added_last _ _ _ Hh). }
    pose proof (attempt_alike e t s s' Havoid Hs) as Ha.
    pose proof (attempt_keeps e t s) as Hkeep.
    destruct Ha as [| |a t1 s2 s2' Hs2]; [done|done|]; injection Hstep as <-.
    split.
    + intros who Hwho. simpl. rewrite drop_task_world. by apply (Hkeep a t1 s2 who).
    + eexists. split; [done|]. by repeat f_equiv.
  - destruct (rate_limit_config (config state)); [|done]. injection Hstep as <-.
    split; [done|]. eexists. split; [done|]. by f_equiv.
Qed.

(** The unwinding: a run that touches no hidden row keeps them, and goes the
    same way from any server that differs in them only. *)
Lemma pool_run_alike s choices s1 s' :
  pool_run o state s choices = Some s1 -> history_avoids (history s1) -> alike_servers s s' ->
  rows_kept s s1 /\ exists s1', pool_run o state s' choices = Some s1' /\ alike_servers s1 s1'.
Proof.
  revert s s'. induction choices as [|c choices IH]; intros s s'; simpl.
  - intros [= <-] _ Hs. split; [done|]. by exists s'.
  - intros (s2 & Hc & Hrun)%bind_Some Hh Hs.
    assert (Hh2 : history_avoids (history s2)).
    { eapply history_avoids_prefix; [by eapply pool_run_grows|done]. }
    destruct (pool_step_alike s c s2 s' Hc Hh2 Hs) as (Hk & s2' & -> & Hs2).
    destruct (IH s2 s2' Hrun Hh Hs2) as (Hk' & s1' & Hrun' & Hs1).
    split; [|by exists s1']. intros who Hwho. by rewrite Hk', Hk.
Qed.
End Unwinding.

(** ** Property *)

(** C12. Users do not interfere through the table: take any run, and suppose
    Keycloak never vouched in it for a bearer entitled to touch the secret of
    [who] (not [who] asking for a PIN, and no administrator naming him to be
    provisioned). Then from any other contents of [who]'s row the same
    choices lead to a run with the same requests at the same points, the
    same answers to every effect, the same log, audit rows and questions to
    Keycloak; and [who]'s row is left as it was, in both. *)
Theorem secrets_do_not_interfere
    `{!HeaderText, !Sha256, !StatusText, !Aead, !TotpRs, !LibraryReplies, !LibraryRepliesLaws _}
    {L : Type} `{!Governor L, !GovernorBuilder L} (o : Oracle) state (w w' : World L) who choices s :
  alike {[who]} w w' -> pool_run o state (started w) choices = Some s ->
  (forall i t user, requests s !! i = Some t ->
     vouched_in state s (history s) (task_request t) user -> ~ entitled state t user who) ->
  exists s', pool_run o state (started w') choices = Some s' /\
    requests s' = requests s /\ history s' = history s /\ alike {[who]} (world s) (world s') /\
    totp_secrets (world s) !! who = totp_secrets w !! who /\
    totp_secrets (world s') !! who = totp_secrets w' !! who.
Proof.
  intros Hw Hrun Hnobody.
  assert (Hreach : reachable o state w s) by by exists choices.
  assert (Havoid : history_avoids {[who]} (history s)).
  { intros i ev x Hin Hev ->%elem_of_singleton.
    apply list_elem_of_split in Hin as (h1 & h2 & Hh).
    destruct (touch_grounded o state w s h1 i ev h2 who Hreach Hh Hev)
      as (t & user & Hi & Hv & Hent).
    destruct (Hnobody i t user Hi); [|done]. eapply vouched_mono; [|done].
    intros y Hy. rewrite Hh. apply elem_of_app. by left. }
  assert (Hs : alike_servers {[who]} (started w) (started w')) by by split.
  destruct (pool_run_alike o {[who]} state _ _ _ _ Hrun Havoid Hs) as (Hk & s' & Hrun' & Hs').
  assert (Havoid' : history_avoids {[who]} (history s')) by by rewrite (alike_history _ _ _ Hs').
  destruct (pool_run_alike o {[who]} state _ _ _ _ Hrun' Havoid' (symmetry Hs)) as (Hk' & _).
  exists s'. split_and!; [done|by eapply alike_requests|by eapply alike_history|apply Hs'| |].
  - apply Hk. by apply elem_of_singleton.
  - apply Hk'. by apply elem_of_singleton.
Qed.

(** ** Witness: bob's requests, with one or another secret stored for alice *)

#[local] Existing Instances sha1_hmac tagging_aead tagging_aead_laws reference_totp_rs
  identity_hash no_text latin_headers plain_replies plain_replies_laws.

Definition beside_alice : Server (gmap string nat) :=
  run_to (calm root_keycloak) demo_state (started (world_with rfc_secret)) demo_schedule.

Lemma beside_alice_run :
  pool_run (calm root_keycloak) demo_state (started (world_with rfc_secret)) demo_schedule =
    Some beside_alice.
Proof. apply runs_to. vm_compute. reflexivity. Qed.

Lemma beside_alice_requests :
  task_request <$> requests beside_alice = replicate 4 (bearer_request "root-token").
Proof. vm_compute. reflexivity. Qed.

(** Keycloak vouches for bob only. *)
Lemma only_bob_vouched request user :
  vouched_in demo_state beside_alice (history beside_alice) request user -> subject user = "bob"%string.
Proof.
  intros (token & leader & lt & token' & reply & now & _ & _ & _ & _ & Hpost & _ & Hv).
  apply list_elem_of_split in Hpost as (g1 & g2 & Hg).
  destruct (history_at (calm root_keycloak) demo_state (world_with rfc_secret) beside_alice
              g1 leader _ g2 (ex_intro _ demo_schedule beside_alice_run) Hg)
    as (s1 & t & _ & _ & _ & _ & _ & _ & (t1 & s2 & Ha) & _).
  cbn [attempt exec_eff] in Ha. injection Ha as <- _ _.
  destruct Hv as (status & body & [= <- <-] & _ & _ & _ & _ & Hsub & _). by injection Hsub.
Qed.

Lemma bob_not_entitled i t user :
  requests beside_alice !! i = Some t ->
  vouched_in demo_state beside_alice (history beside_alice) (task_request t) user ->
  ~ entitled demo_state t user "alice"%string.
Proof.
  intros Hi Hv%only_bob_vouched Hent.
  assert (Hreq : task_request t = bearer_request "root-token").
  { apply (f_equal (fmap task_request)) in Hi. rewrite <-list_lookup_fmap, beside_alice_requests in Hi.
    by apply lookup_replicate in Hi as [[= ->] _]. }
  unfold entitled in Hent. rewrite Hreq in Hent. destruct (task_route t).
  - congruence.
  - destruct Hent as (_ & payload & [= <-] & Hsub & _). vm_compute in Hsub. discriminate.
Qed.

Lemma secrets_do_not_interfere_witness :
  exists s', pool_run (calm root_keycloak) demo_state (started (world_with (replicate 20 7%Z))) demo_schedule =
      Some s' /\
    history s' = history beside_alice.
Proof.
  destruct (secrets_do_not_interfere (calm root_keycloak) demo_state (world_with rfc_secret)
              (world_with (replicate 20 7%Z)) "alice" demo_schedule beside_alice)
    as (s' & Hrun & _ & Hh & _).
  - split; [reflexivity|]. intros who Hwho. apply not_elem_of_singleton in Hwho.
    unfold world_with. cbn [with_secrets totp_secrets].
    by rewrite !lookup_singleton_ne by congruence.
  - exact beside_alice_run.
  - exact bob_not_entitled.
  - exists s'. split; assumption.
Defined.
