(* ===== verification/EndToEnd.v ===== *)
(** * The whole system: a PIN issued by the server opens the lock

    The server and the lock share nothing but a secret and the time; this file
    puts the server's [protected] route and the firmware's main loop side by
    side.  The lock is any build with the secret an administrator was shown:
    the text of a secret determines its bytes. *)

From S2P Require Import Prelude RustText Rfc6238 Sha1 Wiegand PinEntry Totp Lock Capture.
From S2P Require Import Clock Firmware AppError Effects Base32 Base64 Config Crypto TotpGen SecretStore Introspection.
From S2P Require Import Middleware RateLimit Routes Provenance Protocol Pool History Flights Serving.
From S2P Require Import Startup Concurrent.
Local Open Scope Z_scope.

(** The two ends are configured alike. *)
Lemma parameters_agree :
  Totp.DIGITS = TotpGen.DIGITS /\ Totp.STEP_SECONDS = TotpGen.STEP_SECONDS.
Proof. done. Qed.

Lemma byte_of_digit d : is_digit d -> byte_of_ascii (ascii_of_byte (48 + d)) = 48 + d.
Proof.
  unfold is_digit. intros Hd.
  assert (Hall : Forall (fun d => byte_of_ascii (ascii_of_byte (48 + d)) = 48 + d) (seqZ 0 10)).
  { by vm_compute; repeat constructor. }
  rewrite Forall_forall in Hall. apply Hall, elem_of_seqZ. lia.
Qed.

Lemma digits_to_string_inj ds ds' :
  Forall is_digit ds -> Forall is_digit ds' ->
  digits_to_string ds = digits_to_string ds' -> ds = ds'.
Proof.
  intros Hds Hds' Heq. apply (f_equal bytes_of_string) in Heq.
  unfold digits_to_string in Heq. rewrite !bytes_of_string_of_bytes in Heq.
  - assert (Inj (=) (=) (fun d => 48 + d)) by (intros ? ?; lia).
    by apply (inj (fmap (fun d => 48 + d))) in Heq.
  - apply Forall_fmap. eapply Forall_impl; [exact Hds'|]. unfold is_digit, is_uint. simpl. lia.
  - apply Forall_fmap. eapply Forall_impl; [exact Hds|]. unfold is_digit, is_uint. simpl. lia.
Qed.

Section EndToEnd.
Context `{!Hmac, !TotpEmbed, !TotpEmbedLaws _ _, !LockSecret, !BuildProfile}.
Context {I V P : Type} `{!InputPin I, !HeaplessVec V, !OutputPin P}.
Context `{!InputPinLaws I, !HeaplessVecLaws V, !OutputPinLaws P}.

(** What the lock makes of the six characters of a server's code. *)
Lemma pin_judged code server_time lock_time :
  zero_padded 6 (rfc6238 30 6 SECRET server_time) = digits_to_string (Totp.digits code) ->
  is_uint 64 lock_time ->
  lock_accepts (Totp.digits code) lock_time = true <->
  exists w, accepted_window lock_time SKEW_STEPS w /\
    hotp 6 SECRET w = hotp 6 SECRET (server_time / 30).
Proof.
  intros Hpin Hlock.
  assert (Hcode : Totp.digits code = Totp.digits (hotp Totp.DIGITS SECRET (server_time / 30))).
  { apply digits_to_string_inj; [apply decimal_digits_digits..|]. by rewrite <-Hpin. }
  etrans; [apply (matches_window SECRET (Totp.digits code) lock_time SKEW_STEPS);
    [apply decimal_digits_digits|apply length_decimal_digits|done|done]|].
  rewrite Hcode. split; intros (w & Hw & Hv); exists w; (split; [done|]).
  - apply (f_equal decimal_value) in Hv. unfold Totp.digits in Hv.
    rewrite !decimal_value_digits, !Z.mod_small in Hv by (by apply hotp_bounds). done.
  - unfold Totp.DIGITS. by rewrite Hv.
Qed.

Lemma near_accepted server_time lock_time :
  is_uint 64 server_time -> is_uint 64 lock_time ->
  -1 <= server_time / 30 - lock_time / 30 <= 1 ->
  accepted_window lock_time SKEW_STEPS (server_time / 30).
Proof.
  unfold accepted_window, Totp.STEP_SECONDS, SKEW_STEPS, is_uint, u64_max.
  change (2 ^ 64) with 18446744073709551616. div_lia.
Qed.

(** Typed at a ready lock, they are judged by its clock. *)
Lemma pin_decides (st : MainState I V P) code ks k server_time :
  let lock_time := system_unix_seconds (Firmware.clock st) (t_clock (silence k)) in
  ready st -> code_typed (Firmware.clock st) code ks k ->
  zero_padded 6 (rfc6238 30 6 SECRET server_time) = digits_to_string (Totp.digits code) ->
  is_uint 64 server_time ->
  t_check (silence k) < t_granted (silence k) + UNLOCK_DURATION ->
  exists st' console,
    run st ((ks ++ [k]) ≫= key_events) = Some (st', console) /\
    (level (relay (actuator st')) = High <-> exists w, accepted_window lock_time SKEW_STEPS w /\
       hotp 6 SECRET w = hotp 6 SECRET (server_time / 30)) /\
    (level (relay (actuator st')) = High <-> grants console = 1%nat) /\
    (-1 <= server_time / 30 - lock_time / 30 <= 1 -> level (relay (actuator st')) = High).
Proof.
  intros lock_time Hst Hty Hpin Hserver Hcheck.
  assert (Hlock : is_uint 64 lock_time) by apply as_u64_uint.
  pose proof (pin_judged code server_time lock_time Hpin Hlock) as Hacc.
  destruct (typing_decides st code ks k Hst Hty Hcheck)
    as (st' & con & Hrun & (_ & _ & _ & Hrel) & _ & _ & Hg & Hd).
  change (unix_seconds (Firmware.clock st, t_clock (silence k))) with lock_time in *.
  assert (Hhigh : level (relay (actuator st')) = High <->
                  lock_accepts (Totp.digits code) lock_time = true).
  { etrans; [apply Hrel|]. rewrite Hd. destruct (lock_accepts _ lock_time).
    - split; [done|]. by eexists.
    - split; [by intros [? ?]|done]. }
  exists st', con. split; [done|]. split; [by rewrite Hhigh|]. split.
  - rewrite Hhigh, Hg. by destruct (lock_accepts _ _).
  - intros Hskew. apply Hhigh, Hacc.
    exists (server_time / 30). split; [by apply near_accepted|done].
Qed.

(** The six characters of a code, typed at a lock whose clock is at most one
    time step from the time the code was made for, release the bolt. *)
Lemma code_opens (st : MainState I V P) code ks k server_time :
  let lock_time := system_unix_seconds (Firmware.clock st) (t_clock (silence k)) in
  ready st -> code_typed (Firmware.clock st) code ks k ->
  zero_padded 6 (rfc6238 30 6 SECRET server_time) = digits_to_string (Totp.digits code) ->
  is_uint 64 server_time -> -1 <= server_time / 30 - lock_time / 30 <= 1 ->
  t_check (silence k) < t_granted (silence k) + UNLOCK_DURATION ->
  exists st' console,
    run st ((ks ++ [k]) ≫= key_events) = Some (st', console) /\
    level (relay (actuator st')) = High /\ grants console = 1%nat.
Proof.
  intros lock_time Hst Hty Hpin Hserver Hskew Hcheck.
  destruct (pin_decides st code ks k server_time Hst Hty Hpin Hserver Hcheck)
    as (st' & con & Hrun & _ & Hg & Hopen).
  exists st', con. split; [done|]. split; [by apply Hopen|]. by apply Hg, Hopen.
Qed.
End EndToEnd.

(** ** Properties *)

(** C2. The system does what it is for: if the secret stored for a user is the
    lock's, of at least 128 bits, then a PIN request of that user (a bearer Keycloak vouches for,
    with room in the limiter's bucket, on a server whose database answers)
    is answered 200 with a PIN such that typing its six digits and enter at
    any ready lock, at a moment when the lock's clock is within one time
    step of the clock the server read, grants access once and drives the
    relay. The validity the answer announces is honest: those moments
    include every one from 30 seconds before the server's reading until 30
    seconds after the announced end, so a PIN works while it is said to be
    valid on a lock whose clock is up to 30 seconds off either way. *)
Theorem requested_pin_opens_the_lock
    `{!Hmac, !TotpEmbed, !TotpEmbedLaws _ _, !TotpRs, !TotpRsLaws _ _, !LockSecret, !BuildProfile}
    `{!HeaderText, !Sha256, !StatusText, !Aead, !LibraryReplies, !LibraryRepliesLaws _}
    {I V P : Type} `{!InputPin I, !HeaplessVec V, !OutputPin P}
    `{!InputPinLaws I, !HeaplessVecLaws V, !OutputPinLaws P}
    {L : Type} `{!Governor L, !GovernorBuilder L} (o : Oracle) state request (w : World L) token user row :
  inflight w = ∅ -> bearer_token request = Some token -> vouched_at o state token w user ->
  (forall t, (governor_check (limiter w) (subject user) t).1 = true) ->
  totp_secrets w !! subject user = Some row ->
  decrypt (crypto (secrets state)) (encrypted_secret row) (row_nonce row) = Ok SECRET ->
  (16 <= length SECRET)%nat ->
  (forall n, db_error o n = None) -> (forall n, is_uint 64 (Effects.clock o n)) ->
  exists response w' n pin,
    exec o (protected state RequestPin request) w = (Some response, w') /\
    status response = 200 /\ body response = BodyPin pin /\
    1 <= Middleware.valid_for_seconds pin <= 30 /\
    (forall time, Effects.clock o n - 30 <= time < Effects.clock o n + Middleware.valid_for_seconds pin + 30 ->
       -1 <= Effects.clock o n / 30 - time / 30 <= 1) /\
    forall (st : MainState I V P) code ks k,
      let lock_time := system_unix_seconds (Firmware.clock st) (t_clock (silence k)) in
      ready st -> code_typed (Firmware.clock st) code ks k ->
      Middleware.pin pin = digits_to_string (Totp.digits code) ->
      -1 <= Effects.clock o n / 30 - lock_time / 30 <= 1 ->
      t_check (silence k) < t_granted (silence k) + UNLOCK_DURATION ->
      exists st' console,
        run st ((ks ++ [k]) ≫= key_events) = Some (st', console) /\
        level (relay (actuator st')) = High /\ grants console = 1%nat.
Proof.
  intros Hfree Ht Hv Hroom Hrow Hdec Hlong Hdb Hclock.
  destruct (pin_for_entitled o state request w token user row SECRET Hfree Ht Hv Hroom Hrow
              Hdec) as (response & w' & n & Hrun & Hs & Hb); [done..|].
  eexists response, w', n, _. split; [done|]. split; [done|]. split; [done|].
  split; [simpl; div_lia|]. split; [simpl; intros time; div_lia|].
  intros st code ks k lock_time Hst Hty Hpin Hskew Hcheck.
  by apply (code_opens st code ks k (Effects.clock o n)).
Qed.

(** C1. From provisioning to the open box: a lock is built with the secret
    whose base32 text an administrator was shown by the server that [main]
    serves.  Then, whatever other requests, failures, lost answers, departures
    and restarts surround it, a PIN that server answers to a request which read
    the row that provisioning wrote (no other write of that subject took effect
    in between) went to a client Keycloak vouched for as that subject, and
    typing it and enter at that lock, ready, while its clock is within one time
    step of the time the request read, grants access once and drives the
    relay. *)
Theorem provisioned_pin_opens_the_lock
    `{!Hmac, !TotpEmbed, !TotpEmbedLaws _ _, !TotpRs, !TotpRsLaws _ _, !LockSecret, !BuildProfile}
    `{!HeaderText, !Sha256, !StatusText, !Aead, !AeadLaws _}
    `{!LibraryReplies, !LibraryRepliesLaws _}
    {I V P : Type} `{!InputPin I, !HeaplessVec V, !OutputPin P}
    `{!InputPinLaws I, !HeaplessVecLaws V, !OutputPinLaws P}
    `{!Base64, !Base64Laws _, !Dotenv} (platform : Platform)
    {L : Type} `{!Governor L, !GovernorBuilder L} (o : Oracle) state (w : World L) (s : Server L)
    j tj shown q i ti response who h1 ct nonce r h2 a h3 :
  Serve (limiter w) state ∈ (main platform []).2 ->
  (forall n, length (random_nonce o n) = NONCE_LEN) ->
  (forall n, Forall (is_uint 8) (random_secret o n)) -> Forall (is_uint 8) SECRET ->
  reachable o state w s ->
  (* [j] provisioned, and the lock is built with what it showed. *)
  requests s !! j = Some tj -> rest tj = Ret shown -> task_route tj = Provision ->
  honest (task_request tj) -> status shown = 200 -> body shown = BodyProvision q ->
  to_base32 SECRET = Middleware.secret_base32 q ->
  (* [i] was answered with a PIN, and read what [j] had written. *)
  requests s !! i = Some ti -> rest ti = Ret response -> task_route ti = RequestPin ->
  status response = 200 ->
  history s = (h1 ++ (j, Happened (UpsertSecret who ct nonce) r)
    :: h2 ++ (i, Happened (SelectSecret who) a) :: h3)%list -> untouched who h2 ->
  exists p user now,
    body response = BodyPin p /\
    vouched_in state s (history s) (task_request ti) user /\ subject user = who /\
    heard (history s) i _ ReadClock now /\ 0 <= now /\
    forall (st : MainState I V P) code ks k,
      let lock_time := system_unix_seconds (Firmware.clock st) (t_clock (silence k)) in
      ready st -> code_typed (Firmware.clock st) code ks k ->
      Middleware.pin p = digits_to_string (Totp.digits code) ->
      -1 <= as_u64 now / 30 - lock_time / 30 <= 1 ->
      t_check (silence k) < t_granted (silence k) + UNLOCK_DURATION ->
      exists st' console,
        run st ((ks ++ [k]) ≫= key_events) = Some (st', console) /\
        level (relay (actuator st')) = High /\ grants console = 1%nat.
Proof.
  intros Hserve Hnonces Hdraws Hbytes Hreach Hj Hrj Hroj Hhon Hsj Hq Hlock
    Hi Hri Hroi Hsi Hh Hun.
  assert (Hready : cipher_ready o state).
  { split; [|done]. by destruct (served_state platform _ _ Hserve) as (_ & _ & ?). }
  destruct (pin_of_shown_secret o state w s i ti response j tj shown q who h1 ct nonce r h2 a h3)
    as (user & secret & now & generated & Hv & Hwho & Hdrawn & H32 & Hnow & Hpos & Hgen & Hb);
    [done..|].
  assert (Hsecret : SECRET = secret).
  { apply to_base32_inj; [done| |congruence].
    apply list_elem_of_split in Hdrawn as (g1 & g2 & Hg).
    destruct (history_at o state w s g1 j _ g2 Hreach Hg)
      as (s1 & t & _ & _ & _ & _ & _ & _ & (t1 & s2 & Ha) & _).
    cbn [attempt exec_eff] in Ha. injection Ha as <- _ _. apply Hdraws. }
  eexists _, user, now. split_and!; try done.
  intros st code ks k lock_time Hst Hty Hpin Hskew Hcheck.
  apply (code_opens st code ks k (as_u64 now)); try done; [|apply as_u64_uint].
  rewrite <-Hsecret in Hgen. apply generate_at_made in Hgen; [|apply as_u64_uint].
  subst generated. exact Hpin.
Qed.

(** ** Witness: alice's request and the lock she types at *)

#[local] Existing Instances sha1_hmac reference_totp_embed reference_totp_embed_laws
  reference_totp_rs reference_totp_rs_laws tagging_aead tagging_aead_laws identity_hash no_text
  latin_headers plain_replies plain_replies_laws standard_base64 standard_base64_laws
  Startup.no_dotenv_file placeholder_secret checked_build.

Definition alice_lock : MainState bool (list bool) Level :=
  mkMainState (install false false None) (Lock.new SECRET Firmware.SKEW_STEPS)
    (mkSystemClock 1111111100) (bolt_new Low) None.

Definition alice_code : Z := Eval vm_compute in hotp 6 SECRET 37037036.

Lemma booted_lock_ready `{!LockSecret} epoch (st : MainState bool (list bool) Level) :
  boot false false (to_string epoch) = Some st -> idle st -> ready st.
Proof. intros (Hwf & Hty & Hr)%boot_wf Hidle. by split_and!. Qed.

Lemma alice_lock_ready : ready alice_lock.
Proof.
  apply (booted_lock_ready 1111111100); [vm_compute; reflexivity|].
  eexists. split; [reflexivity|]. split; [split; reflexivity|reflexivity].
Qed.

Lemma requested_pin_opens_the_lock_witness :
  exists st' console,
    run alice_lock ((typed_keys alice_code ++ [enter_press]) ≫= key_events) =
      Some (st', console) /\
    level (relay (actuator st')) = High.
Proof.
  destruct (requested_pin_opens_the_lock (I := bool) (V := list bool) (P := Level)
              (calm demo_keycloak) demo_state
              (bearer_request "alice-token") (world_with SECRET) "alice-token"
              (mkAuthenticatedUser "alice" ["user"%string])
              (mkSecretRow (replicate 32 42 ++ replicate 12 0 ++ SECRET)
                 (replicate 12 0) 1111110000 None))
    as (response & w' & n & pin & Hrun & _ & Hb & _ & _ & Hopen).
  - reflexivity.
  - vm_compute. reflexivity.
  - apply alice_vouched.
  - intros t. reflexivity.
  - reflexivity.
  - vm_compute. reflexivity.
  - apply Nat.leb_le. reflexivity.
  - intros m. reflexivity.
  - intros m. split; [discriminate|reflexivity].
  - destruct (Hopen alice_lock alice_code (typed_keys alice_code) enter_press)
      as (st' & console & Hst & Hhigh & _).
    + apply alice_lock_ready.
    + apply code_typed_so. split; discriminate.
    + vm_compute in Hrun. injection Hrun as <- _. injection Hb as <-.
      vm_compute. reflexivity.
    + split; discriminate.
    + reflexivity.
    + exists st', console. split; assumption.
Defined.

(** ** Witness: a secret is provisioned, and a lock built with it *)

Definition served_demo : AppState := app_state_new demo_config.

Lemma main_serves_demo :
  Serve (limiter fresh_world) served_demo ∈ (main (platform_with (Ok tt)) []).2.
Proof. vm_compute. do 8 right. left. Qed.

Definition served_server : Server (gmap string nat) :=
  run_to (calm root_keycloak) served_demo (started fresh_world) demo_schedule.

Lemma served_reachable :
  reachable (calm root_keycloak) served_demo fresh_world served_server.
Proof. apply runs_reachable. vm_compute. reflexivity. Qed.

(** What request 0 showed, and the PIN of request 1. *)
Lemma served_answers :
  answer_of served_server 0 = Some (Provision, Some demo_shown) /\
  answer_of served_server 1 = Some (RequestPin, Some demo_pin).
Proof. split; vm_compute; reflexivity. Qed.

(** The bytes of the text shown, as a person types them into the source. *)
Definition bobs_secret : LockSecret := Eval vm_compute in
  default [] (base32_decode "AQCAIBAEAQCAIBAEAQCAIBAEAQCAIBAE").

(** From here on the lock is the one built with it. *)
#[local] Existing Instance bobs_secret.

Definition bobs_lock : MainState bool (list bool) Level :=
  mkMainState (install false false None) (Lock.new SECRET Firmware.SKEW_STEPS)
    (mkSystemClock 1111111100) (bolt_new Low) None.

Lemma bobs_lock_ready : ready bobs_lock.
Proof.
  apply (booted_lock_ready 1111111100); [vm_compute; reflexivity|].
  eexists. split; [reflexivity|]. split; [split; reflexivity|reflexivity].
Qed.

Definition bobs_typing : list Firmware.Event :=
  (typed_keys 118229 ++ [enter_press]) ≫= key_events.

(** Request 0 wrote, and request 1 read; nothing touched the row in between. *)
Definition between : Recorded := take 11 (drop 10 (history served_server)).

Lemma served_history :
  history served_server =
    (take 9 (history served_server) ++
     (0%nat, Happened (UpsertSecret "bob" demo_cipher (replicate 12 5)) (Ok tt)) :: between ++
     (1%nat, Happened (SelectSecret "bob") (Ok (Some (demo_cipher, replicate 12 5)))) ::
     drop 22 (history served_server))%list.
Proof. vm_compute. reflexivity. Qed.

Lemma between_untouched : untouched "bob" between.
Proof.
  assert (Hnone : Forall (fun x => upsert_of x.2 = None) between)
    by (vm_compute; repeat constructor).
  intros i ev Hin row Hev. rewrite Forall_forall in Hnone. specialize (Hnone _ Hin).
  cbn [snd] in Hnone. congruence.
Qed.

(** Every reading of this server's clock is the same. *)
Lemma calm_now i now : heard (history served_server) i _ ReadClock now -> now = 1111111109.
Proof.
  intros (g1 & g2 & Hg)%list_elem_of_split.
  destruct (history_at (calm root_keycloak) served_demo fresh_world served_server g1 i _ g2
              served_reachable Hg) as (s1 & t0 & _ & _ & _ & _ & _ & _ & (t1 & s2 & Ha) & _).
  cbn [attempt exec_eff] in Ha. by injection Ha.
Qed.

Lemma provisioned_pin_opens_the_lock_witness :
  exists st' console,
    run bobs_lock bobs_typing = Some (st', console) /\
    level (relay (actuator st')) = High.
Proof.
  destruct (answered_task served_server 0 Provision demo_shown (proj1 served_answers))
    as (tj & Hj & Hroj & Hrj).
  destruct (answered_task served_server 1 RequestPin demo_pin (proj2 served_answers))
    as (ti & Hi & Hroi & Hri).
  assert (Hhon : honest (task_request tj)).
  { assert (Hreq : task_request <$> requests served_server !! 0%nat =
              Some (bearer_request "root-token")) by (vm_compute; reflexivity).
    rewrite Hj in Hreq. injection Hreq as ->. intros rejection Hrej. discriminate Hrej. }
  destruct (provisioned_pin_opens_the_lock (I := bool) (V := list bool) (P := Level)
              (platform_with (Ok tt)) (calm root_keycloak) served_demo fresh_world served_server
              0 tj demo_shown
              (mkProvisionResponse "AQCAIBAEAQCAIBAEAQCAIBAEAQCAIBAE"
                 "otpauth://totp/urheilulaatikko:bob?secret=AQCAIBAEAQCAIBAEAQCAIBAEAQCAIBAE&issuer=urheilulaatikko")
              1 ti demo_pin "bob" (take 9 (history served_server)) demo_cipher (replicate 12 5)
              (Ok tt) between (Ok (Some (demo_cipher, replicate 12 5)))
              (drop 22 (history served_server)))
    as (p & user & now & Hb & _ & _ & Hnow & _ & Hopen).
  - exact main_serves_demo.
  - intros n. apply length_replicate.
  - intros n. apply Forall_replicate, as_u8_uint.
  - apply (bool_decide_unpack (Forall (is_uint 8) SECRET)). vm_compute. exact I.
  - exact served_reachable.
  - exact Hj.
  - exact Hrj.
  - exact Hroj.
  - exact Hhon.
  - reflexivity.
  - reflexivity.
  - vm_compute. reflexivity.
  - exact Hi.
  - exact Hri.
  - exact Hroi.
  - reflexivity.
  - exact served_history.
  - exact between_untouched.
  - destruct (Hopen bobs_lock 118229 (typed_keys 118229) enter_press)
      as (st' & console & Hst & Hhigh & _).
    + exact bobs_lock_ready.
    + apply code_typed_so. split; discriminate.
    + injection Hb as <-. reflexivity.
    + rewrite (calm_now _ _ Hnow). split; discriminate.
    + reflexivity.
    + exists st', console. split; assumption.
Defined.
