(* ===== verification/Outage.v ===== *)
(** * Power outages: what survives in the lock, and what a PIN is then worth

    The board has no clock of its own: [SystemClock] (firmware/src/clock.rs)
    reads the build's time plus the time since this boot.  Here a lock lives
    through any number of lives, each from power-on to power-off: [main] runs
    anew every time.  The lock always comes up locked with nothing typed, and
    its clock starts again at the build's time, so that whether a PIN opens it
    is a matter of how long it has been powered and not of the time of day. *)

From S2P Require Import Prelude RustText Rfc6238 Sha1 Wiegand PinEntry Totp Lock Capture.
From S2P Require Import Clock Firmware AppError Effects Base64 Config Crypto TotpGen SecretStore.
From S2P Require Import Introspection Middleware RateLimit Routes Provenance Protocol Pool History.
From S2P Require Import Flights Serving Startup Concurrent EndToEnd.
Local Open Scope Z_scope.

Section Outage.
Context `{!Hmac, !TotpEmbed, !TotpEmbedLaws _ _, !LockSecret, !BuildProfile}.
Context {I V P : Type} `{!InputPin I, !HeaplessVec V, !OutputPin P}.
Context `{!InputPinLaws I, !HeaplessVecLaws V, !OutputPinLaws P}.

(** The pins come out of reset without a pending interrupt. *)
Context (d0 d1 : I) (Hd0 : is_interrupt_set d0 = false) (Hd1 : is_interrupt_set d1 = false).

(** The state of a lock that was powered on again after each of these lives,
    and what it printed in them. *)
Fixpoint lived (env : string) (lives : list (list Firmware.Event)) :
    option (MainState I V P * list string) :=
  st ← boot d0 d1 env;
  match lives with
  | [] => Some (st, [])
  | events :: lives =>
      '(_, console) ← run st events;
      '(st, console') ← lived env lives;
      Some (st, console ++ console')
  end.

(** A booted lock is ready, and its clock is at the build's time. *)
Lemma boot_ready epoch :
  is_uint 64 epoch ->
  exists st : MainState I V P,
    boot d0 d1 (to_string epoch) = Some st /\ ready st /\ level (relay (actuator st)) = Low /\
    Firmware.clock st = mkSystemClock epoch.
Proof.
  intros He. assert (Hboot : exists st : MainState I V P,
    boot d0 d1 (to_string epoch) = Some st /\ idle st /\ Firmware.clock st = mkSystemClock epoch).
  { unfold boot, start. rewrite parse_to_string by (done || lia).
    eexists. split; [done|]. split; [|done]. eexists. split; [done|].
    unfold Capture.quiet, captured. simpl. by rewrite !listen_keeps, vec_new_list. }
  destruct Hboot as (st & Hboot & Hidle & Hclock). exists st.
  destruct (boot_wf _ _ _ _ Hboot) as (Hst & Hty & Hr). split_and!; try done.
  destruct Hst as (_ & _ & _ & Hrel). unfold released in Hrel.
  destruct (level (relay (actuator st))); [done|].
  destruct Hrel as [Hrel _]. rewrite Hr in Hrel. by destruct Hrel.
Qed.

(** A life on one clock, with room left on it. *)
Definition livable (epoch : Z) (events : list Firmware.Event) : Prop :=
  ordered 0 events /\ Forall (event_fits (mkSystemClock epoch)) events.

Lemma lived_boots epoch lives (st : MainState I V P) :
  boot d0 d1 (to_string epoch) = Some st -> Firmware.clock st = mkSystemClock epoch ->
  (captured (capture st)).2 = None -> Forall (livable epoch) lives ->
  exists console, lived (to_string epoch) lives = Some (st, console).
Proof.
  intros Hboot Hck Hempty. destruct (boot_wf _ _ _ _ Hboot) as (Hst & _).
  induction 1 as [|events lives [Hord Hfit] _ [con' IH]]; cbn [lived]; rewrite Hboot;
    cbn [mbind option_bind].
  - by exists [].
  - destruct (run_total st events 0 Hst Hord) as [[st' con] ->].
    { intros last. by rewrite Hempty. }
    { by rewrite Hck. }
    cbn [mbind option_bind]. rewrite IH. by eexists.
Qed.
End Outage.

(** ** Property *)

(** C22. A PIN after power outages: however often the lock lost power and whatever
    happened before (each life on a clock that does not go back and has room
    left), it comes up locked with nothing typed, and a PIN made by
    the server for its secret at time [now], typed at it, opens it exactly if
    it is the code of an accepted time step around the build's time plus the
    seconds the lock has been powered. So a PIN is good again in every life of
    the lock at the same uptime, and a PIN made more than a time step away
    from that reading opens only if two time steps have the same code. *)
Theorem pin_after_outages
    `{!Hmac, !TotpEmbed, !TotpEmbedLaws _ _, !TotpRs, !TotpRsLaws _ _, !LockSecret, !BuildProfile}
    {I V P : Type} `{!InputPin I, !HeaplessVec V, !OutputPin P}
    `{!InputPinLaws I, !HeaplessVecLaws V, !OutputPinLaws P}
    (d0 d1 : I) epoch lives now p code ks k :
  is_interrupt_set d0 = false -> is_interrupt_set d1 = false ->
  is_uint 64 epoch -> Forall (livable epoch) lives ->
  is_uint 64 now -> generate_at SECRET now = Ok p ->
  TotpGen.pin p = digits_to_string (Totp.digits code) ->
  code_typed (mkSystemClock epoch) code ks k ->
  t_check (silence k) < t_granted (silence k) + UNLOCK_DURATION ->
  let lock_time := as_u64 (epoch + as_secs (t_clock (silence k))) in
  exists (st : MainState I V P) printed st' console,
    lived d0 d1 (to_string epoch) lives = Some (st, printed) /\
    level (relay (actuator st)) = Low /\ typed_so_far st = [] /\
    run st ((ks ++ [k]) ≫= key_events) = Some (st', console) /\
    (level (relay (actuator st')) = High <->
       exists w, accepted_window lock_time SKEW_STEPS w /\
         hotp 6 SECRET w = hotp 6 SECRET (now / 30)) /\
    (-1 <= now / 30 - lock_time / 30 <= 1 -> grants console = 1%nat).
Proof.
  intros Hd0 Hd1 He Hlives Hnow Hgen Hpin Hty Hcheck lock_time.
  destruct (boot_ready d0 d1 Hd0 Hd1 epoch He) as (st & Hboot & Hready & Hlow & Hclock).
  destruct (lived_boots d0 d1 epoch lives st Hboot Hclock) as (printed & Hl); [|done|].
  { destruct Hready as (_ & _ & (c & -> & _ & ->) & _). done. }
  apply generate_at_made in Hgen; [|done]. subst p. rewrite <-Hclock in Hty.
  destruct (pin_decides st code ks k now Hready Hty Hpin Hnow Hcheck)
    as (st' & console & Hrun & Hopen & Hg & Hnear).
  rewrite Hclock in Hopen, Hnear.
  exists st, printed, st', console. split_and!; try done; [apply Hready|].
  intros Hskew. by apply Hg, Hnear.
Qed.

(** ** Witness: alice's PIN opens the lock, and again after an outage *)

#[local] Existing Instances sha1_hmac reference_totp_embed reference_totp_embed_laws
  reference_totp_rs reference_totp_rs_laws placeholder_secret checked_build.

Definition alice_typing : list Firmware.Event :=
  (typed_keys alice_code ++ [enter_press]) ≫= key_events.

Lemma alice_livable : livable 1111111100 alice_typing.
Proof.
  split; [vm_compute; repeat split; discriminate|].
  apply (bool_decide_unpack (Forall (event_fits (mkSystemClock 1111111100)) alice_typing)).
  vm_compute. exact I.
Qed.

Lemma pin_after_outages_witness :
  (st ← boot false false (to_string 1111111100);
   '(st, _) ← run st alice_typing; Some (level (relay (actuator st)))) = Some High /\
  exists (st : MainState bool (list bool) Level) printed st' console,
    lived false false (to_string 1111111100) [alice_typing; alice_typing] = Some (st, printed) /\
    grants printed = 2%nat /\ run st alice_typing = Some (st', console) /\
    grants console = 1%nat.
Proof.
  split; [vm_compute; reflexivity|].
  destruct (pin_after_outages (I := bool) (V := list bool) (P := Level) false false 1111111100
              [alice_typing; alice_typing] 1111111109
              (mkGeneratedPin (digits_to_string (Totp.digits alice_code)) 1)
              alice_code (typed_keys alice_code) enter_press)
    as (st & printed & st' & console & Hl & _ & _ & Hrun & _ & Hg);
    [reflexivity|reflexivity|split; [discriminate|reflexivity]
    |repeat (apply Forall_cons; split; [exact alice_livable|]); constructor
    |split; [discriminate|reflexivity]|vm_compute; reflexivity|reflexivity
    |apply code_typed_so; split; discriminate|reflexivity|].
  exists st, printed, st', console. split; [exact Hl|]. split; [|split; [exact Hrun|]].
  - revert Hl. vm_compute. intros [= _ <-]. reflexivity.
  - apply Hg. split; discriminate.
Defined.
