(* ===== verification/ServerTests.v ===== *)
(** * The tests of totp-server, run on the model

    The inline test modules of src/, then tests/introspection.rs (against a
    mocked Keycloak) and tests/e2e_integration.rs (a whole server), function by
    function.  A test is the conjunction of its assertions.  They are
    evaluated: an independent check that the definitions the theorems are about
    compute what the Rust code computes.  The libraries are the stand-ins the
    other files prove to satisfy their interfaces' laws; Keycloak is what a
    test mocks. *)

From S2P Require Import Prelude RustText Rfc6238 Sha1 Base32 AppError Effects Base64 Config.
From S2P Require Import Crypto TotpGen SecretStore Introspection Middleware RateLimit.
From S2P Require Import Routes Pool Serving.
Local Open Scope Z_scope.
Local Open Scope string_scope.
Local Open Scope rust_scope.

#[local] Existing Instances sha1_hmac tagging_aead reference_totp_rs identity_hash no_text
  latin_headers plain_replies standard_base64.

(** ** Assertions *)

Definition expect_eq {A} `{EqDecision A} (x y : A) : bool := bool_decide (x = y).

(** [unwrap] followed by an assertion. *)
Definition when_ok {A E} (r : result A E) (f : A -> bool) : bool :=
  match r with Ok v => f v | Err _ => false end.
Definition is_err {A E} (r : result A E) : bool :=
  match r with Ok _ => false | Err _ => true end.

(** [str::starts_with] and [str::contains]. *)
Definition starts_with (s p : string) : bool :=
  match strip_prefix p s with Some _ => true | None => false end.
Fixpoint str_contains (s p : string) : bool :=
  starts_with s p || match s with EmptyString => false | String _ s => str_contains s p end.

(** What a test sees when it runs a program in a fresh world. *)
Definition run_in {T} (keycloak : nat -> Post -> HttpReply) (p : Prog T) :
    option T * World (gmap string nat) :=
  exec (calm keycloak) p fresh_world.
Definition nobody (_ : nat) (_ : Post) : HttpReply := Unreachable "no server".
Definition test_passes (test : ProgR bool) : bool :=
  match (run_in nobody test).1 with Some (Ok b) => b | _ => false end.

(** ** crypto.rs *)

Module CryptoTests.
Definition crypto : Crypto := crypto_new (replicate 32 42).

Definition roundtrips_a_secret : ProgR bool :=
  let secret := bytes_of_string "JBSWY3DPEHPK3PXP" in
  let! (ciphertext, nonce) := encrypt crypto secret in
  mret (let? decrypted := decrypt crypto ciphertext nonce in
        Ok (negb (expect_eq ciphertext secret) && expect_eq decrypted secret)).

Definition draws_a_fresh_nonce_for_every_call : ProgR bool :=
  let! (first_ct, first_nonce) := encrypt crypto (bytes_of_string "same input") in
  let! (second_ct, second_nonce) := encrypt crypto (bytes_of_string "same input") in
  mret (Ok (negb (expect_eq first_nonce second_nonce) && negb (expect_eq first_ct second_ct))).

Definition rejects_tampered_ciphertext : ProgR bool :=
  let! (ciphertext, nonce) := encrypt crypto (bytes_of_string "JBSWY3DPEHPK3PXP") in
  mret (Ok (is_err (decrypt crypto (alter (fun b => Z.lxor b 0xff) 0%nat ciphertext) nonce))).

Definition rejects_a_different_key : ProgR bool :=
  let! (ciphertext, nonce) := encrypt crypto (bytes_of_string "JBSWY3DPEHPK3PXP") in
  let other := crypto_new (replicate 32 43) in
  mret (Ok (is_err (decrypt other ciphertext nonce))).

Definition rejects_a_nonce_of_the_wrong_length : ProgR bool :=
  let! (ciphertext, _) := encrypt crypto (bytes_of_string "secret") in
  mret (Ok (is_err (decrypt crypto ciphertext (replicate 4 0)))).

Example crypto_tests_pass :
  forallb test_passes
    [roundtrips_a_secret; draws_a_fresh_nonce_for_every_call; rejects_tampered_ciphertext;
     rejects_a_different_key; rejects_a_nonce_of_the_wrong_length] = true.
Proof. vm_compute. reflexivity. Qed.
End CryptoTests.

(** ** rate_limit.rs *)

Module RateLimitTests.
(** [Request::new(Body::empty())]: no JSON in it. *)
Definition empty_request (extension : option AuthenticatedUser) : Request :=
  {| headers := []; extension := extension;
     json := Err {| status := 415; body := BodyText "" |} |}.

Definition extracts_the_subject_set_by_the_auth_middleware : bool :=
  when_ok (extract (empty_request (Some (mkAuthenticatedUser "user-1" []))))
    (expect_eq "user-1").

Definition fails_when_the_request_was_not_authenticated : bool :=
  match extract (empty_request None) with Err UnableToExtractKey => true | _ => false end.

Example rate_limit_tests_pass :
  extracts_the_subject_set_by_the_auth_middleware &&
  fails_when_the_request_was_not_authenticated = true.
Proof. vm_compute. reflexivity. Qed.
End RateLimitTests.

(** ** totp/mod.rs *)

Module TotpGenTests.
(** The PIN, and the time left, of [generate_at(secret, t).unwrap()]. *)
Definition pin_is (secret : list Z) (t : Z) (f : string -> bool) : bool :=
  when_ok (generate_at secret t) (fun generated => f (TotpGen.pin generated)).
Definition valid_for_is (secret : list Z) (t : Z) (seconds : Z) : bool :=
  when_ok (generate_at secret t)
    (fun generated => expect_eq (TotpGen.valid_for_seconds generated) seconds).

Definition matches_the_rfc_6238_test_vector : bool :=
  pin_is (bytes_of_string "12345678901234567890") 59 (expect_eq "287082").

Definition matches_a_later_rfc_6238_test_vector : bool :=
  pin_is (bytes_of_string "12345678901234567890") 1111111109 (expect_eq "081804").

Definition reports_the_time_left_in_the_current_step : bool :=
  let secret := bytes_of_string "12345678901234567890" in
  valid_for_is secret 59 1 && valid_for_is secret 60 30 && valid_for_is secret 75 15.

Definition holds_the_pin_steady_within_a_step_and_changes_at_the_boundary : bool :=
  let secret := bytes_of_string "12345678901234567890" in
  pin_is secret 60 (fun start =>
    pin_is secret 89 (expect_eq start) && negb (pin_is secret 90 (expect_eq start))).

Definition always_pads_the_pin_to_six_digits : bool :=
  forallb (fun t => pin_is (bytes_of_string "12345678901234567890") (t * 30)
                      (fun pin => expect_eq (Z.of_nat (String.length pin)) TotpGen.DIGITS))
    (seqZ 0 500).

Definition different_secrets_give_different_pins : bool :=
  pin_is (bytes_of_string "12345678901234567890") 59 (fun a =>
    pin_is (bytes_of_string "09876543210987654321") 59 (fun b => negb (expect_eq a b))).

(** Base32 is decoded by the stand-in's inverse. *)
Definition provisions_a_usable_secret_and_url : ProgR bool :=
  let! provisioned := TotpGen.provision "testuser" in
  let! generated := generate (raw provisioned) in
  mret (Ok (negb (expect_eq (TotpGen.secret_base32 provisioned) "") &&
            starts_with (TotpGen.otpauth_url provisioned)
              "otpauth://totp/urheilulaatikko:testuser?" &&
            str_contains (TotpGen.otpauth_url provisioned) "issuer=urheilulaatikko" &&
            negb (str_contains (TotpGen.otpauth_url provisioned) "algorithm=") &&
            expect_eq (base32_decode (TotpGen.secret_base32 provisioned))
              (Some (raw provisioned)) &&
            expect_eq (Z.of_nat (String.length (TotpGen.pin generated))) TotpGen.DIGITS)).

Example provisioning_test_passes : test_passes provisions_a_usable_secret_and_url = true.
Proof. vm_compute. reflexivity. Qed.

Example totp_gen_tests_pass :
  matches_the_rfc_6238_test_vector && matches_a_later_rfc_6238_test_vector &&
  reports_the_time_left_in_the_current_step &&
  holds_the_pin_steady_within_a_step_and_changes_at_the_boundary &&
  always_pads_the_pin_to_six_digits && different_secrets_give_different_pins = true.
Proof. vm_compute. reflexivity. Qed.
End TotpGenTests.

(** ** config.rs *)

Module ConfigTests.
Definition accepts_a_32_byte_key_with_and_without_prefix : bool :=
  let key := base64_encode (replicate 32 7) in
  when_ok (parse_encryption_key key) (expect_eq (replicate 32 7)) &&
  when_ok (parse_encryption_key ("base64:" +:+ key)) (expect_eq (replicate 32 7)).

Definition rejects_a_key_of_the_wrong_length : bool :=
  let short := base64_encode (replicate 16 7) in
  match parse_encryption_key short with
  | Err err => str_contains err "32 bytes"
  | Ok _ => false
  end.

Definition rejects_a_key_that_is_not_base64 : bool :=
  is_err (parse_encryption_key "not base64!!").

Example config_tests_pass :
  accepts_a_32_byte_key_with_and_without_prefix && rejects_a_key_of_the_wrong_length &&
  rejects_a_key_that_is_not_base64 = true.
Proof. vm_compute. reflexivity. Qed.
End ConfigTests.

(** ** auth/introspection.rs *)

Module EvaluateTests.
Definition client (expected_audience : string) : IntrospectionClient :=
  mkIntrospectionClient "http://unused" "totp-server" "secret" expected_audience.

Definition response (active : bool) (aud : option Audience) (exp : option Z) :
    IntrospectionResponse :=
  {| active := active; sub := Some "user-1"; aud := aud; exp := exp; realm_access := None |}.

(** [matches!(outcome, ..)] on what [evaluate] returns. *)
Definition evaluates_to (expected_audience : string) (body : IntrospectionResponse)
    (is_expected : IntrospectionOutcome -> bool) : bool :=
  from_option is_expected false
    (run_in nobody (evaluate (client expected_audience) body)).1.
Definition is_active (outcome : IntrospectionOutcome) : bool :=
  match outcome with Active _ => true | _ => false end.

Definition accepts_an_audience_given_as_a_bare_string : bool :=
  evaluates_to "totp-server" (response true (Some (One "totp-server")) None) is_active.

Definition accepts_an_audience_given_as_a_list : bool :=
  let aud := Many ["account"; "totp-server"] in
  evaluates_to "totp-server" (response true (Some aud) None) is_active.

Definition rejects_a_missing_audience : bool :=
  evaluates_to "totp-server" (response true None None) (expect_eq WrongAudience).

Definition rejects_an_expired_token_even_when_keycloak_says_active : bool :=
  let past := clock (calm nobody) 0 - 1 in
  let aud := One "totp-server" in
  evaluates_to "totp-server" (response true (Some aud) (Some past)) (expect_eq Inactive).

Definition rejects_an_inactive_token : bool :=
  let aud := One "totp-server" in
  evaluates_to "totp-server" (response false (Some aud) None) (expect_eq Inactive).

Example evaluate_tests_pass :
  accepts_an_audience_given_as_a_bare_string && accepts_an_audience_given_as_a_list &&
  rejects_a_missing_audience && rejects_an_expired_token_even_when_keycloak_says_active &&
  rejects_an_inactive_token = true.
Proof. vm_compute. reflexivity. Qed.
End EvaluateTests.

(** ** auth/middleware.rs *)

Module MiddlewareTests.
Definition request_with_auth (value : string) : Request :=
  {| headers := [("authorization", bytes_of_string value)]; extension := None;
     json := Err {| status := 415; body := BodyText "" |} |}.

Definition extracts_a_bearer_token : bool :=
  expect_eq (bearer_token (request_with_auth "Bearer abc.def.ghi")) (Some "abc.def.ghi").

Definition accepts_any_casing_of_the_scheme : bool :=
  expect_eq (bearer_token (request_with_auth "bEaReR abc")) (Some "abc").

Definition rejects_other_schemes_and_empty_tokens : bool :=
  expect_eq (bearer_token (request_with_auth "Basic abc")) None &&
  expect_eq (bearer_token (request_with_auth "Bearer   ")) None &&
  expect_eq (bearer_token (request_with_auth "abc")) None.

Definition rejects_a_request_without_the_header : bool :=
  expect_eq (bearer_token (RateLimitTests.empty_request None)) None.

Example middleware_tests_pass :
  extracts_a_bearer_token && accepts_any_casing_of_the_scheme &&
  rejects_other_schemes_and_empty_tokens && rejects_a_request_without_the_header = true.
Proof. vm_compute. reflexivity. Qed.
End MiddlewareTests.
